(* ===== verification/_CoqProject ===== *)
-Q . S2P
Prelude.v
Token.v
Opcode.v
Lexer.v
LexerFacts.v
LexerProps.v
Double.v
HashMap.v
HashMapFacts.v
Hash.v
Platform.v
DebugTokens.v
Bytes.v
BytesFacts.v
ChecksumProps.v
FileProps.v
HashMapProps.v
Value.v
Chunk.v
ChunkFacts.v
ChunkProps.v
Object.v
KeyFacts.v
Memory.v
CollectFacts.v
SweepFacts.v
AllocatorFacts.v
GcProps.v
WriteFacts.v
Context.v
Serializer.v
Deserializer.v
SerializerFacts.v
ContextFacts.v
LoaderFacts.v
Parser.v
ParserFacts.v
ParserProps.v
Compiler.v
CompilerFacts.v
CompilerSteps.v
CompilerRules.v
CompilerScopes.v
CompilerExprs.v
CompilerPrecedence.v
CompilerStart.v
CompilerStatements.v
CompilerSafe.v
CompilerProps.v
Collections.v
ValueProps.v
VM.v
StackFacts.v
VMProps.v
ShapeFacts.v
UpvalueFacts.v
Natives.v
CallFacts.v
MachineShapes.v
Disassembler.v
DisassemblerProps.v
BytecodeProps.v
Lox.v
CallProps.v
LoxProps.v
Programs.v
Resting.v
ExprSpec.v
ExprCompile.v
ExprRun.v
ExprProps.v
EchoCompile.v
EchoRun.v
EchoProps.v
