(* ===== verification/Prelude.v ===== *)
(** * cpp-lox: a verification library

    cpp-lox (src/) is a compiler and virtual machine for the language Lox.  A
    source text goes through the lexer, a parser that keeps a window of three
    tokens, and a one-pass compiler that writes bytecode into the chunks of
    function objects; the machine executes the bytecode.  All objects live in
    one heap with a mark-and-sweep collector that may run at any allocation,
    also while a function is being compiled.  A compiled program can be
    written to a bytecode file and loaded from it.  This library models that
    code, definition by definition, and proves what makes it correct.

    *** How the code is modelled

    Definitions are executable and keep the names of the code.  A computation
    of the program is an [outcome] (this file): it returns, throws a C++
    exception, has undefined behaviour, or ran out of the fuel given to a loop.
    Code that changes state is in the monad [M S] over the state of its
    component.  Pointers to objects are references into a finite map [heap]
    (Object.v), so that aliasing and dangling pointers are explicit: following
    a freed reference is [Undef].  A reference is an object's identity, not its
    address, so it is not given to another object when the object is freed;
    addresses, which may be reused, are [Platform.address_of].  Integers are numbers in [Z] with the
    wrap-around of their width written out ([u8] to [i64] below), except two
    counters whose [int] would wrap beyond 2^31 lines of text (Lexer.v) or bytes
    of a function (the line table of Chunk.v); doubles are the standard
    library's IEEE-754 specification (Double.v).

    What the code takes from its platform and its vendored libraries is a
    parameter: the class [Platform] (sizes of objects, addresses, formatting
    and parsing of reals), whose documented laws are [PlatformLaws], and the
    class [Environment] of Natives.v (clock, random numbers, growth of
    vectors).  Platform.v has a concrete instance, so every theorem is also
    evaluated on concrete inputs.

    *** The parts, and the files that model them

    - Lexer (src/compiler/lexer.cpp): Token.v and Lexer.v; LexerFacts.v has the
      lexical grammar, LexerProps.v the theorems.  The state is the iterator
      record: position, line, type of the current token.
    - Parser and error reporter (src/compiler/parser.cpp,
      error_reporter.hpp): Parser.v; the window always holds three successive
      tokens (ParserFacts.v); recovery after errors is in ParserProps.v.
    - Compiler (src/compiler/compiler.cpp): Compiler.v, over the state [world]
      (memory, global table, parser, the chain of enclosing compilers).  The
      mutual recursion of the parse rules is cut by a record of functions
      ([functions]).  CompilerFacts.v states the invariant, CompilerSteps.v and
      CompilerRules.v the rules for composing steps, then one file per group
      of functions: CompilerScopes.v, CompilerExprs.v, CompilerPrecedence.v,
      CompilerStart.v, CompilerStatements.v, CompilerSafe.v; CompilerProps.v
      has the theorems.
    - Chunks and opcodes (src/common/chunk.cpp, opcode.hpp): Opcode.v, Chunk.v,
      ChunkFacts.v, ChunkProps.v.
    - Hash table (hashmap.hpp, hash.hpp): HashMap.v, generic in a key type of
      the class [HashKey]; Hash.v; HashMapFacts.v proves it against the laws
      [HashKeyLaws], KeyFacts.v, SweepFacts.v and HashMapProps.v discharge the
      laws for values, strings, interned strings and integers.
    - Values and objects (src/common/value.cpp, object.hpp, function.hpp,
      classes.hpp): Value.v, Object.v, ValueProps.v.
    - Allocator and collector (src/common/allocator.cpp, gc.cpp): Memory.v.
      The collector asks the compilers and the machine for their roots; here
      every allocating operation takes them as a list.  CollectFacts.v (mark),
      SweepFacts.v (string pool and sweep), AllocatorFacts.v (allocation),
      GcProps.v, WriteFacts.v.
    - Global variables (context.hpp): Context.v, ContextFacts.v.
    - Lists and maps (list.hpp, map.hpp): Collections.v.
    - Machine (src/vm/vm.cpp): VM.v, one definition per opcode and member
      function over the record [machine].  StackFacts.v follows a register of
      the machine (the top of the stack, or the instruction pointer) through
      any operation; VMProps.v, CallProps.v and UpvalueFacts.v have the
      theorems on instructions, calls and captured variables, CallFacts.v
      follows the frames of callers through whole runs; ShapeFacts.v and
      MachineShapes.v have what never changes about an object.
    - Native functions (src/native): Natives.v.  [exit] is an exception that
      only the drivers handle.
    - Bytecode files (src/serialization, file_header.hpp, thirdparty/crc32.hpp,
      thirdparty/datapacker.hpp): Bytes.v, Serializer.v, Deserializer.v;
      BytesFacts.v, SerializerFacts.v and LoaderFacts.v carry the proofs of
      ChecksumProps.v, FileProps.v and BytecodeProps.v.
    - Disassembler and token listing (src/common/debug_vm.cpp,
      src/compiler/debug_compiler.cpp): Disassembler.v, DebugTokens.v,
      DisassemblerProps.v.
    - Driver and tools (src/lox/lox.cpp, src/bin/cpplox.cpp, loxvm.cpp,
      loxcrc.cpp): Lox.v,
      LoxProps.v.  Programs.v evaluates the whole pipeline on source texts.
    - The compiler and the machine together: ExprSpec.v has the syntax trees of
      expressions, the grammar that relates token lists to trees, the code of
      a tree and its meaning; ExprCompile.v shows that the compiler consumes
      the tokens and emits the code, ExprRun.v that the machine executes the
      code and has the meaning, ExprProps.v puts both together.  Resting.v
      describes a machine between two programs; EchoCompile.v, EchoRun.v and
      EchoProps.v do the same for whole programs of [echo] statements, through
      the driver.

    *** How the parts interact

    The compiler allocates through Memory.v while its functions are half
    built: the root set it presents is [Compiler.compiler_roots], and the
    invariant of CompilerFacts.v is that everything it holds a reference to is
    reachable from there.  Compiler and machine share the memory and the
    global table; the serializer reads the heap a compiler left, and the
    loader writes a new one with the collector switched off.  The theorems
    [compile_program_safe], [program_roundtrip] and [compiled_file_loads] are
    about these compositions.

    *** What the theorems show

    - Safety: compiling any text without a zero byte ends, with the collector
      running at any allocation, and is free of undefined behaviour unless an
      [int] wraps around that counts 2^31 bytes of code or global variables; it
      throws only when a table of strings or globals cannot grow any more, a
      function has more than 65536 constants or captures too many variables; a
      collection keeps exactly what is
      reachable; allocation keeps what is reachable; interned strings are
      equal exactly when identical; objects keep their types and everything
      that is fixed at creation; every instruction has its fixed stack effect;
      calls and returns match; closing and capturing variables keeps values.
    - Compiler correctness: [expressions_evaluate], for an expression compiled
      anywhere in a program, and [printing_programs_run], from the characters
      of a text of [echo] statements to what the driver has printed.  They
      cover precedence, associativity, short circuits, the cache of integer
      constants, arithmetic with its errors and its overflow.  Their conditions
      keep away from a defect of the code (findings): the unary minus rewrites
      the last byte of the code if that is the opcode ONE, so no negation may
      be applied to an [and] or [or] that ends in the literal 1, and there
      may be at most 47 constants, whose indices are below that opcode.
    - Refinement and equivalence: the hash table refines finite maps on keys
      other than the default-constructed one, and the maps of Lox on keys that
      are booleans, integers or objects compared by identity or text; the
      keyword trie is the table of reserved words; the
      table-driven checksum is polynomial division; the disassembler and the
      machine agree on where instructions begin.
    - Round trips: operands, constants, line tables, normal doubles, the parts
      of a bytecode file, and whole programs whose functions are storable
      (at most 65535 constants, reals normal or positive zero), with at most
      65534 globals, and whose file fits the 32-bit offsets.
    - Termination and progress: lexing, compiling, serializing (unless a
      constant is infinite), collecting, probing, and recovery after a syntax
      error.
    - Errors: damage to a file is detected; what is not (offsets and lengths
      under a valid checksum, values the number format loses, the
      default-constructed key) is stated and proved as it is.

    *** Fuel, and why it is enough

    Loops of the lexer get the number of characters left; token loops of the
    parser and the compiler the length of the text plus two, since all but the
    last token have a character; [compile_fuel] bounds the depth of the
    compiler's recursion by three levels per token.  Probing gets the number of
    slots, marking the number of objects (each turns grey once) and the sweep
    the length of the object list.  The serializer gets 65536 levels, since it
    refuses more chunks than that; the loops of the loader get the length of
    their buffer.  That each of these suffices is part of a theorem.  Only
    [VM.execute], which runs programs that may loop, has its fuel as an
    argument.

    *** Not modelled

    Opening and reading files, the terminal, prompts and colours; the messages
    of the logger and of the loader's log, and so loxdump, which prints it
    (its strings in the order of an std::unordered_map); the option parser of
    cpplox (cxxopts), whose result is an argument of [Lox.cpplox]; tracing and
    step mode of the machine. The vendored libraries (fmt, cxxopts,
    fast_float, googletest) are third-party code; where a result of theirs
    matters it is a field of [Platform]. *)

From stdpp Require Export base gmap strings list.
From Stdlib Require Export Ascii ZArith Lia.

#[global] Open Scope Z_scope.

(** ** Results of C++ computations

    A computation of the program either returns, throws a C++ exception
    ([Throw], with the text the exception carries), has undefined behaviour
    ([Undef]), or does not return within the given fuel ([OutOfFuel]). *)

Inductive outcome (A : Type) : Type :=
  | Ret (a : A)
  | Throw (what : string)
  | Undef (why : string)
  | OutOfFuel.
Arguments Ret {A} a.
Arguments Throw {A} what.
Arguments Undef {A} why.
Arguments OutOfFuel {A}.

#[global] Instance outcome_eq_dec {A} `{EqDecision A} : EqDecision (outcome A).
Proof. solve_decision. Defined.

#[global] Instance outcome_ret : MRet outcome := fun _ a => Ret a.
#[global] Instance outcome_bind : MBind outcome := fun _ _ f m =>
  match m with
  | Ret a => f a
  | Throw e => Throw e
  | Undef e => Undef e
  | OutOfFuel => OutOfFuel
  end.
#[global] Instance outcome_fmap : FMap outcome := fun _ _ f m =>
  match m with
  | Ret a => Ret (f a)
  | Throw e => Throw e
  | Undef e => Undef e
  | OutOfFuel => OutOfFuel
  end.

(** The computation ended: it returned, threw or hit undefined behaviour. *)
Definition terminates {A} (m : outcome A) : Prop := m <> OutOfFuel.

(** Reading an optional value where the program assumes it is there. *)
Definition or_undef {A} (why : string) (o : option A) : outcome A :=
  match o with Some a => Ret a | None => Undef why end.

Definition or_throw {A} (what : string) (o : option A) : outcome A :=
  match o with Some a => Ret a | None => Throw what end.

Lemma bind_Ret {A B} (m : outcome A) (f : A -> outcome B) b :
  (m ≫= f) = Ret b <-> exists a, m = Ret a /\ f a = Ret b.
Proof.
  destruct m; cbn; split; first [intros (? & [=] & ?); congruence | by eauto | done].
Qed.

Lemma or_undef_Ret {A} why (o : option A) a : or_undef why o = Ret a <-> o = Some a.
Proof. destruct o; cbn; naive_solver. Qed.

Lemma or_throw_Ret {A} why (o : option A) a : or_throw why o = Ret a <-> o = Some a.
Proof. destruct o; cbn; naive_solver. Qed.

(** ** Stateful computations

    Code that changes a state [S], with the results above. *)

Definition M (S A : Type) : Type := S -> outcome (A * S).

#[global] Instance M_ret {S} : MRet (M S) := fun _ a s => Ret (a, s).
#[global] Instance M_bind {S} : MBind (M S) := fun _ _ f m s =>
  match m s with
  | Ret (a, s) => f a s
  | Throw e => Throw e
  | Undef e => Undef e
  | OutOfFuel => OutOfFuel
  end.

Definition get {S} : M S S := fun s => Ret (s, s).
Definition put {S} (s : S) : M S unit := fun _ => Ret (tt, s).
Definition gets {S A} (f : S -> A) : M S A := fun s => Ret (f s, s).
Definition modify {S} (f : S -> S) : M S unit := fun s => Ret (tt, f s).
Definition lift {S A} (m : outcome A) : M S A := fun s => a ← m; Ret (a, s).
Definition throw {S A} (what : string) : M S A := fun _ => Throw what.
Definition undef {S A} (why : string) : M S A := fun _ => Undef why.
Definition out_of_fuel {S A} : M S A := fun _ => OutOfFuel.

(** Running a computation on a part of the state. *)
Definition zoom {S T A} (view : S -> T) (update : S -> T -> S) (m : M T A) : M S A := fun s =>
  '(a, t) ← m (view s); Ret (a, update s t).

(** [for (auto a : l) f(a);] *)
Fixpoint for_each {S A} (f : A -> M S unit) (l : list A) : M S unit :=
  match l with
  | [] => mret tt
  | a :: l => f a ;; for_each f l
  end.

(** [while (cond) body;] where the condition and the body change the state. *)
Fixpoint while_M {S} (fuel : nat) (cond : M S bool) (body : M S unit) : M S unit :=
  b ← cond;
  if (b : bool) then
    match fuel with
    | O => out_of_fuel
    | S fuel => body ;; while_M fuel cond body
    end
  else mret tt.

(** [while (1) { ... break; ... }] with a local variable: the body says whether to go on. *)
Fixpoint loop_M {S A} (fuel : nat) (body : A -> M S (A * bool)) (a : A) : M S A :=
  '(a, continues) ← body a;
  if (continues : bool) then
    match fuel with
    | O => out_of_fuel
    | S fuel => loop_M fuel body a
    end
  else mret a.

Lemma M_bind_Ret {S A B} (m : M S A) (f : A -> M S B) s b s' :
  (m ≫= f) s = Ret (b, s') <-> exists a s1, m s = Ret (a, s1) /\ f a s1 = Ret (b, s').
Proof.
  unfold mbind, M_bind. destruct (m s) as [[a s1]| | |]; split;
    first [by intros (? & ? & [= <- <-] & ?) | by eauto | naive_solver].
Qed.

(** Running the first part of a computation whose result is known. *)
Lemma M_bind_run {S A B} (m : M S A) (f : A -> M S B) s a s1 :
  m s = Ret (a, s1) -> (m ≫= f) s = f a s1.
Proof. intros E. unfold mbind, M_bind. by rewrite E. Qed.

Lemma M_bind_throw {S A B} (m : M S A) (f : A -> M S B) s e :
  m s = Throw e -> (m ≫= f) s = Throw e.
Proof. intros E. unfold mbind, M_bind. by rewrite E. Qed.

Lemma gets_run {S A} (f : S -> A) s : gets f s = Ret (f s, s).
Proof. done. Qed.

Lemma modify_run {S} (f : S -> S) s : modify f s = Ret (tt, f s).
Proof. done. Qed.

Lemma lift_run {S A} (m : outcome A) a (s : S) : m = Ret a -> lift m s = Ret (a, s).
Proof. by intros ->. Qed.

Lemma lift_Ret {S A} (m : outcome A) (s : S) a s' : lift m s = Ret (a, s') -> s' = s /\ m = Ret a.
Proof. unfold lift. destruct m; try done. by intros [= -> ->]. Qed.

(** ** Loops

    [while (cond(s)) body(s)], with fuel. *)
Fixpoint while_loop {S} (fuel : nat) (cond : S -> bool) (body : S -> S) (s : S)
    : outcome S :=
  if cond s then
    match fuel with
    | O => OutOfFuel
    | S fuel => while_loop fuel cond body (body s)
    end
  else Ret s.

(** A loop whose body decreases a measure ends within that many steps, in a
    state where the condition fails and every invariant holds. *)
Lemma while_loop_ends {S} (P : S -> Prop) (measure : S -> nat) cond body :
  (forall s, P s -> cond s = true -> P (body s) /\ (measure (body s) < measure s)%nat) ->
  forall fuel s, P s -> (measure s <= fuel)%nat ->
  exists s', while_loop fuel cond body s = Ret s' /\ cond s' = false /\ P s'.
Proof.
  intros Hstep. induction fuel as [|fuel IH]; intros s Hs Hm; cbn;
    destruct (cond s) eqn:Hc; eauto; destruct (Hstep s Hs Hc); [lia|].
  apply IH; [done|lia].
Qed.

(** ** Machine integers

    A [w]-bit unsigned value is a [Z] in [0, 2^w); a signed one is a [Z] in
    [-2^(w-1), 2^(w-1)).  The functions below are the conversions
    [static_cast] performs. *)

Definition u8 (z : Z) : Z := z mod 2 ^ 8.
Definition u16 (z : Z) : Z := z mod 2 ^ 16.
Definition u32 (z : Z) : Z := z mod 2 ^ 32.
Definition u64 (z : Z) : Z := z mod 2 ^ 64.

Definition i32 (z : Z) : Z := (z + 2 ^ 31) mod 2 ^ 32 - 2 ^ 31.
Definition i64 (z : Z) : Z := (z + 2 ^ 63) mod 2 ^ 64 - 2 ^ 63.

Definition is_u8 (z : Z) : Prop := 0 <= z < 2 ^ 8.
Definition is_u16 (z : Z) : Prop := 0 <= z < 2 ^ 16.
Definition is_u32 (z : Z) : Prop := 0 <= z < 2 ^ 32.
Definition is_u64 (z : Z) : Prop := 0 <= z < 2 ^ 64.
Definition is_i32 (z : Z) : Prop := - 2 ^ 31 <= z < 2 ^ 31.
Definition is_i64 (z : Z) : Prop := - 2 ^ 63 <= z < 2 ^ 63.

Lemma u8_range z : is_u8 (u8 z).
Proof. unfold is_u8, u8. apply Z.mod_pos_bound. lia. Qed.
Lemma u16_range z : is_u16 (u16 z).
Proof. unfold is_u16, u16. apply Z.mod_pos_bound. lia. Qed.
Lemma u32_range z : is_u32 (u32 z).
Proof. unfold is_u32, u32. apply Z.mod_pos_bound. lia. Qed.
Lemma u64_range z : is_u64 (u64 z).
Proof. unfold is_u64, u64. apply Z.mod_pos_bound. lia. Qed.
Lemma i64_range z : is_i64 (i64 z).
Proof.
  unfold is_i64, i64. pose proof (Z.mod_pos_bound (z + 2 ^ 63) (2 ^ 64)). lia.
Qed.

Lemma u8_small z : is_u8 z -> u8 z = z.
Proof. apply Z.mod_small. Qed.
Lemma u16_small z : is_u16 z -> u16 z = z.
Proof. apply Z.mod_small. Qed.
Lemma u32_small z : is_u32 z -> u32 z = z.
Proof. apply Z.mod_small. Qed.
Lemma u64_small z : is_u64 z -> u64 z = z.
Proof. apply Z.mod_small. Qed.
Lemma i32_small z : is_i32 z -> i32 z = z.
Proof. unfold is_i32, i32. intros. rewrite Z.mod_small; lia. Qed.
Lemma i64_small z : is_i64 z -> i64 z = z.
Proof. unfold is_i64, i64. intros. rewrite Z.mod_small; lia. Qed.

(** A [size_t] that counts [n] things, cast to [int], is negative only once there are 2^31 of them. *)
Lemma i32_le n : 0 <= n -> i32 n <= n.
Proof. intros Hn. unfold i32. pose proof (Z.mod_le (n + 2 ^ 31) (2 ^ 32)). lia. Qed.

Lemma i32_wraps n : 0 <= n -> i32 n < n -> 2 ^ 31 <= n.
Proof. intros Hn Hlt. destruct (Z_lt_le_dec n (2 ^ 31)); [|done]. rewrite i32_small in Hlt; unfold is_i32; lia. Qed.

(** Indexing with a negative [int] is undefined.  The name of that behaviour tells an [int] that
    counted the [n] things and wrapped around from an index that was computed wrongly. *)
Definition int_overflow : string := "int overflow".
Definition negative_index (n : Z) : string := if 2 ^ 31 <=? n then int_overflow else "negative index".

(** The [int] [i] leads to one of [n] things, unless it has wrapped around. *)
Definition int_index (i n : Z) : Prop := i < n /\ (i < 0 -> 2 ^ 31 <= n).

Lemma int_index_mono i n n' : int_index i n -> n <= n' -> int_index i n'.
Proof. unfold int_index. lia. Qed.

Lemma int_index_negative i n : int_index i n -> i < 0 -> negative_index n = int_overflow.
Proof. intros [_ Hn] Hi%Hn. unfold negative_index. by rewrite (proj2 (Z.leb_le _ _)). Qed.

Lemma int_index_i32 n m : 0 <= n < m -> int_index (i32 n) m.
Proof.
  intros Hn. unfold int_index. pose proof (i32_le n). pose proof (i32_wraps n). lia.
Qed.

(** Converting a signed 64-bit value to unsigned and back. *)
Lemma i64_u64 z : is_i64 z -> i64 (u64 z) = z.
Proof.
  unfold is_i64, i64, u64. intros Hz.
  rewrite Zplus_mod_idemp_l, Z.mod_small; lia.
Qed.

#[global] Instance is_u8_dec z : Decision (is_u8 z).
Proof. unfold is_u8. apply _. Defined.
#[global] Instance is_u16_dec z : Decision (is_u16 z).
Proof. unfold is_u16. apply _. Defined.
#[global] Instance is_u32_dec z : Decision (is_u32 z).
Proof. unfold is_u32. apply _. Defined.
#[global] Instance is_u64_dec z : Decision (is_u64 z).
Proof. unfold is_u64. apply _. Defined.
#[global] Instance is_i64_dec z : Decision (is_i64 z).
Proof. unfold is_i64. apply _. Defined.

Create HintDb ints.
Create Rewrite HintDb ints.
#[export] Hint Resolve u8_range u16_range u32_range u64_range i64_range : ints.
#[export] Hint Rewrite u8_small u16_small u32_small u64_small i64_small using lia : ints.

(** ** Tactics *)

(** Decompose the hypotheses that a monadic computation returned. *)
Ltac inv_ret :=
  repeat match goal with
  | H : (_ ≫= _) = Ret _ |- _ => apply bind_Ret in H as (? & ? & H)
  | H : or_undef _ _ = Ret _ |- _ => apply or_undef_Ret in H
  | H : or_throw _ _ = Ret _ |- _ => apply or_throw_Ret in H
  | H : Ret _ = Ret _ |- _ => injection H as H; try subst
  | H : mret _ = Ret _ |- _ => injection H as H; try subst
  | H : Throw _ = Ret _ |- _ => discriminate H
  | H : Undef _ = Ret _ |- _ => discriminate H
  | H : OutOfFuel = Ret _ |- _ => discriminate H
  end.

(** Run the first step of a computation: [run_with H] when [H] says what it does. *)
Tactic Notation "run_with" uconstr(H) := erewrite M_bind_run; [|eapply H; eauto].

(** Decide a closed proposition by evaluation. *)
Ltac by_compute := apply (bool_decide_unpack _); vm_compute; exact I.

(** Turn boolean comparisons of integers in the context into propositions. *)
Ltac zbool :=
  repeat match goal with
  | H : (_ <? _) = true |- _ => apply Z.ltb_lt in H
  | H : (_ <? _) = false |- _ => apply Z.ltb_ge in H
  | H : (_ <=? _) = true |- _ => apply Z.leb_le in H
  | H : (_ <=? _) = false |- _ => apply Z.leb_gt in H
  | H : (_ =? _) = true |- _ => apply Z.eqb_eq in H
  | H : (_ =? _) = false |- _ => apply Z.eqb_neq in H
  | H : (_ && _)%bool = true |- _ => apply andb_true_iff in H as [? ?]
  | H : (_ || _)%bool = false |- _ => apply orb_false_iff in H as [? ?]
  end.
