(* ===== verification/Token.v ===== *)
(** * Tokens (include/token.hpp, include/errcodes.hpp)

    The token kinds, the lexer's error codes and the [Token] struct. *)

From S2P Require Import Prelude.

Module ErrorCode.

Inductive t : Set :=
   | NO_ERROR | UNTERMINATED_STRING | UNRECOGNIZED_CHARACTER | INVALID_DECIMAL_LITERAL.

#[global] Instance eq_dec : EqDecision t.
Proof. solve_decision. Defined.

(** The value of the enumerator. *)
Definition to_int (x : t) : Z :=
  match x with
   | NO_ERROR => 0 | UNTERMINATED_STRING => 1 | UNRECOGNIZED_CHARACTER => 2
   | INVALID_DECIMAL_LITERAL => 3
  end.

Definition error_code_to_string (x : t) : string :=
  match x with
   | NO_ERROR => "NO_ERROR" | UNTERMINATED_STRING => "UNTERMINATED_STRING"
   | UNRECOGNIZED_CHARACTER => "UNRECOGNIZED_CHARACTER"
   | INVALID_DECIMAL_LITERAL => "INVALID_DECIMAL_LITERAL"
  end.

Lemma error_code_to_int_inj x y : to_int x = to_int y -> x = y.
Proof. destruct x, y; intros H; first [reflexivity | discriminate H]. Qed.

End ErrorCode.

Module TokenType.

Inductive t : Set :=
   | LEFT_PAREN | RIGHT_PAREN | LEFT_BRACE | RIGHT_BRACE | LEFT_BRACKET | RIGHT_BRACKET
   | COMMA | DOT | MINUS | PLUS | SEMICOLON | SLASH | STAR | BANG | BANG_EQUAL | EQUAL
   | EQUAL_EQUAL | GREATER | GREATER_EQUAL | LESS | LESS_EQUAL | IDENTIFIER | STRING
   | NUMBER_INT | NUMBER_REAL | AND | CLASS | CONST | ELSE | FALSE | FOR | FUN | IF
   | NIL | NOT | OR | PRINT | RETURN | SUPER | THIS | TRUE | VAR | WHILE | ERROR
   | END_OF_FILE | COLON | QUESTION_MARK | QUESTION_DOT | SWITCH | CASE | DEFAULT
   | BREAK | CONTINUE | TOKEN_COUNT.

#[global] Instance eq_dec : EqDecision t.
Proof. solve_decision. Defined.

(** The value of the enumerator. *)
Definition to_int (x : t) : Z :=
  match x with
   | LEFT_PAREN => 0 | RIGHT_PAREN => 1 | LEFT_BRACE => 2 | RIGHT_BRACE => 3
   | LEFT_BRACKET => 4 | RIGHT_BRACKET => 5 | COMMA => 6 | DOT => 7 | MINUS => 8
   | PLUS => 9 | SEMICOLON => 10 | SLASH => 11 | STAR => 12 | BANG => 13
   | BANG_EQUAL => 14 | EQUAL => 15 | EQUAL_EQUAL => 16 | GREATER => 17
   | GREATER_EQUAL => 18 | LESS => 19 | LESS_EQUAL => 20 | IDENTIFIER => 21
   | STRING => 22 | NUMBER_INT => 23 | NUMBER_REAL => 24 | AND => 25 | CLASS => 26
   | CONST => 27 | ELSE => 28 | FALSE => 29 | FOR => 30 | FUN => 31 | IF => 32
   | NIL => 33 | NOT => 34 | OR => 35 | PRINT => 36 | RETURN => 37 | SUPER => 38
   | THIS => 39 | TRUE => 40 | VAR => 41 | WHILE => 42 | ERROR => 43 | END_OF_FILE => 44
   | COLON => 45 | QUESTION_MARK => 46 | QUESTION_DOT => 47 | SWITCH => 48 | CASE => 49
   | DEFAULT => 50 | BREAK => 51 | CONTINUE => 52 | TOKEN_COUNT => 53
  end.

Definition token_type_to_string (x : t) : string :=
  match x with
   | LEFT_PAREN => "LEFT_PAREN" | RIGHT_PAREN => "RIGHT_PAREN"
   | LEFT_BRACE => "LEFT_BRACE" | RIGHT_BRACE => "RIGHT_BRACE"
   | LEFT_BRACKET => "LEFT_BRACKET" | RIGHT_BRACKET => "RIGHT_BRACKET"
   | COMMA => "COMMA" | DOT => "DOT" | MINUS => "MINUS" | PLUS => "PLUS"
   | SEMICOLON => "SEMICOLON" | SLASH => "SLASH" | STAR => "STAR" | BANG => "BANG"
   | BANG_EQUAL => "BANG_EQUAL" | EQUAL => "EQUAL" | EQUAL_EQUAL => "EQUAL_EQUAL"
   | GREATER => "GREATER" | GREATER_EQUAL => "GREATER_EQUAL" | LESS => "LESS"
   | LESS_EQUAL => "LESS_EQUAL" | IDENTIFIER => "IDENTIFIER" | STRING => "STRING"
   | NUMBER_INT => "NUMBER_INT" | NUMBER_REAL => "NUMBER_REAL" | AND => "AND"
   | CLASS => "CLASS" | CONST => "CONST" | ELSE => "ELSE" | FALSE => "FALSE"
   | FOR => "FOR" | FUN => "FUN" | IF => "IF" | NIL => "NIL" | NOT => "NOT" | OR => "OR"
   | PRINT => "PRINT" | RETURN => "RETURN" | SUPER => "SUPER" | THIS => "THIS"
   | TRUE => "TRUE" | VAR => "VAR" | WHILE => "WHILE" | ERROR => "ERROR"
   | END_OF_FILE => "END_OF_FILE" | COLON => "COLON" | QUESTION_MARK => "QUESTION_MARK"
   | QUESTION_DOT => "QUESTION_DOT" | SWITCH => "SWITCH" | CASE => "CASE"
   | DEFAULT => "DEFAULT" | BREAK => "BREAK" | CONTINUE => "CONTINUE"
   | TOKEN_COUNT => "TOKEN_COUNT"
  end.

Lemma token_type_to_int_inj x y : to_int x = to_int y -> x = y.
Proof. destruct x, y; intros H; first [reflexivity | discriminate H]. Qed.

End TokenType.

(** [struct Token]; a default-constructed token is an END_OF_FILE on line 1. *)
Record Token : Type := mkToken {
  token_type : TokenType.t;
  line : Z;
  err : ErrorCode.t;
  lexeme : string
}.

Definition default_token : Token :=
  mkToken TokenType.END_OF_FILE 1 ErrorCode.NO_ERROR "".

#[global] Instance Token_eq_dec : EqDecision Token.
Proof. solve_decision. Defined.
