(* ===== verification/Opcode.v ===== *)
(** * Opcodes (include/opcode.hpp)

    The instruction set, its byte encoding and the names the disassembler prints. *)

From S2P Require Import Prelude.

Module OpCode.

Inductive t : Set :=
   | INVALID | RETURN | LOAD_CONSTANT | LOAD_CONSTANT_LONG | NEGATE | ADD | SUBTRACT
   | MULTIPLY | DIVIDE | NIL | UNINITIALIZED | TRUE | FALSE | NOT | EQUAL | GREATER
   | LESS | PRINT | POP_TOP | DEFINE_GLOBAL | STORE_GLOBAL | LOAD_GLOBAL | STORE_LOCAL
   | LOAD_LOCAL | STORE_UPVALUE | LOAD_UPVALUE | STORE_PROPERTY | LOAD_PROPERTY
   | LOAD_PROPERTY_SAFE | LOAD_SUPER | LOAD_INDEX | STORE_INDEX | CLOSE_UPVALUE
   | JUMP_IF_FALSE | JUMP_IF_TRUE | POP_JUMP_IF_FALSE | JUMP_FORWARD | JUMP_BACKWARD
   | DUP_TOP | CALL | CLASS | INVOKE | SUPER_INVOKE | INHERIT | CLOSURE | ZERO
   | MINUS_ONE | ONE | METHOD | LIST | LIST_APPEND | MAP | MAP_ADD.

#[global] Instance eq_dec : EqDecision t.
Proof. solve_decision. Defined.

(** The value of the enumerator. *)
Definition to_int (x : t) : Z :=
  match x with
   | INVALID => 0 | RETURN => 1 | LOAD_CONSTANT => 2 | LOAD_CONSTANT_LONG => 3
   | NEGATE => 4 | ADD => 5 | SUBTRACT => 6 | MULTIPLY => 7 | DIVIDE => 8 | NIL => 9
   | UNINITIALIZED => 10 | TRUE => 11 | FALSE => 12 | NOT => 13 | EQUAL => 14
   | GREATER => 15 | LESS => 16 | PRINT => 17 | POP_TOP => 18 | DEFINE_GLOBAL => 19
   | STORE_GLOBAL => 20 | LOAD_GLOBAL => 21 | STORE_LOCAL => 22 | LOAD_LOCAL => 23
   | STORE_UPVALUE => 24 | LOAD_UPVALUE => 25 | STORE_PROPERTY => 26
   | LOAD_PROPERTY => 27 | LOAD_PROPERTY_SAFE => 28 | LOAD_SUPER => 29
   | LOAD_INDEX => 30 | STORE_INDEX => 31 | CLOSE_UPVALUE => 32 | JUMP_IF_FALSE => 33
   | JUMP_IF_TRUE => 34 | POP_JUMP_IF_FALSE => 35 | JUMP_FORWARD => 36
   | JUMP_BACKWARD => 37 | DUP_TOP => 38 | CALL => 39 | CLASS => 40 | INVOKE => 41
   | SUPER_INVOKE => 42 | INHERIT => 43 | CLOSURE => 44 | ZERO => 45 | MINUS_ONE => 46
   | ONE => 47 | METHOD => 48 | LIST => 49 | LIST_APPEND => 50 | MAP => 51
   | MAP_ADD => 52
  end.

Definition opcode_to_string (x : t) : string :=
  match x with
   | INVALID => "INVALID" | RETURN => "RETURN" | LOAD_CONSTANT => "LOAD_CONSTANT"
   | LOAD_CONSTANT_LONG => "LOAD_CONSTANT_LONG" | NEGATE => "NEGATE" | ADD => "ADD"
   | SUBTRACT => "SUBTRACT" | MULTIPLY => "MULTIPLY" | DIVIDE => "DIVIDE" | NIL => "NIL"
   | UNINITIALIZED => "UNINITIALIZED" | TRUE => "TRUE" | FALSE => "FALSE" | NOT => "NOT"
   | EQUAL => "EQUAL" | GREATER => "GREATER" | LESS => "LESS" | PRINT => "PRINT"
   | POP_TOP => "POP_TOP" | DEFINE_GLOBAL => "DEFINE_GLOBAL"
   | STORE_GLOBAL => "STORE_GLOBAL" | LOAD_GLOBAL => "LOAD_GLOBAL"
   | STORE_LOCAL => "STORE_LOCAL" | LOAD_LOCAL => "LOAD_LOCAL"
   | STORE_UPVALUE => "STORE_UPVALUE" | LOAD_UPVALUE => "LOAD_UPVALUE"
   | STORE_PROPERTY => "STORE_PROPERTY" | LOAD_PROPERTY => "LOAD_PROPERTY"
   | LOAD_PROPERTY_SAFE => "LOAD_PROPERTY_SAFE" | LOAD_SUPER => "LOAD_SUPER"
   | LOAD_INDEX => "LOAD_INDEX" | STORE_INDEX => "STORE_INDEX"
   | CLOSE_UPVALUE => "CLOSE_UPVALUE" | JUMP_IF_FALSE => "JUMP_IF_FALSE"
   | JUMP_IF_TRUE => "JUMP_IF_TRUE" | POP_JUMP_IF_FALSE => "POP_JUMP_IF_FALSE"
   | JUMP_FORWARD => "JUMP_FORWARD" | JUMP_BACKWARD => "JUMP_BACKWARD"
   | DUP_TOP => "DUP_TOP" | CALL => "CALL" | CLASS => "CLASS" | INVOKE => "INVOKE"
   | SUPER_INVOKE => "SUPER_INVOKE" | INHERIT => "INHERIT" | CLOSURE => "CLOSURE"
   | ZERO => "ZERO" | MINUS_ONE => "MINUS_ONE" | ONE => "ONE" | METHOD => "METHOD"
   | LIST => "LIST" | LIST_APPEND => "LIST_APPEND" | MAP => "MAP" | MAP_ADD => "MAP_ADD"
  end.

Lemma opcode_to_int_inj x y : to_int x = to_int y -> x = y.
Proof. destruct x, y; intros H; first [reflexivity | discriminate H]. Qed.

(** [static_cast<OpCode>(byte)]: a byte that is not an enumerator is handled by
    the [default] branches of the program, so it is [None] here. *)
Definition of_int (z : Z) : option t :=
  match z with
   | 0 => Some INVALID | 1 => Some RETURN | 2 => Some LOAD_CONSTANT
   | 3 => Some LOAD_CONSTANT_LONG | 4 => Some NEGATE | 5 => Some ADD
   | 6 => Some SUBTRACT | 7 => Some MULTIPLY | 8 => Some DIVIDE | 9 => Some NIL
   | 10 => Some UNINITIALIZED | 11 => Some TRUE | 12 => Some FALSE | 13 => Some NOT
   | 14 => Some EQUAL | 15 => Some GREATER | 16 => Some LESS | 17 => Some PRINT
   | 18 => Some POP_TOP | 19 => Some DEFINE_GLOBAL | 20 => Some STORE_GLOBAL
   | 21 => Some LOAD_GLOBAL | 22 => Some STORE_LOCAL | 23 => Some LOAD_LOCAL
   | 24 => Some STORE_UPVALUE | 25 => Some LOAD_UPVALUE | 26 => Some STORE_PROPERTY
   | 27 => Some LOAD_PROPERTY | 28 => Some LOAD_PROPERTY_SAFE | 29 => Some LOAD_SUPER
   | 30 => Some LOAD_INDEX | 31 => Some STORE_INDEX | 32 => Some CLOSE_UPVALUE
   | 33 => Some JUMP_IF_FALSE | 34 => Some JUMP_IF_TRUE | 35 => Some POP_JUMP_IF_FALSE
   | 36 => Some JUMP_FORWARD | 37 => Some JUMP_BACKWARD | 38 => Some DUP_TOP
   | 39 => Some CALL | 40 => Some CLASS | 41 => Some INVOKE | 42 => Some SUPER_INVOKE
   | 43 => Some INHERIT | 44 => Some CLOSURE | 45 => Some ZERO | 46 => Some MINUS_ONE
   | 47 => Some ONE | 48 => Some METHOD | 49 => Some LIST | 50 => Some LIST_APPEND
   | 51 => Some MAP | 52 => Some MAP_ADD
  | _ => None
  end.

Lemma of_to_int x : of_int (to_int x) = Some x.
Proof. destruct x; reflexivity. Qed.

Lemma to_of_int z x : of_int z = Some x -> to_int x = z.
Proof.
  unfold of_int. intros H.
  repeat case_match; simplify_eq; reflexivity.
Qed.

Lemma to_int_range x : 0 <= to_int x < 53.
Proof. destruct x; cbn; lia. Qed.

Lemma to_int_u8 x : is_u8 (to_int x).
Proof. pose proof (to_int_range x). unfold is_u8. lia. Qed.

End OpCode.

#[export] Hint Resolve OpCode.to_int_u8 : ints.
#[export] Hint Rewrite OpCode.of_to_int : ints.
