(* ===== verification/Lexer.v ===== *)
(** * The lexer (src/compiler/lexer.cpp, include/lexer.hpp)

    [const_token_iterator] as a record, one definition per member function.
    Positions are [nat] ([size_t] in the source), the text is the list of its
    characters.  The character classes are those of the C locale. *)

From S2P Require Import Prelude Token.

(** ** Character classes of <ctype.h> *)

Definition char_between (lo hi c : ascii) : bool :=
  ((nat_of_ascii lo <=? nat_of_ascii c) && (nat_of_ascii c <=? nat_of_ascii hi))%nat.
Definition isdigit (c : ascii) : bool := char_between "0" "9" c.
Definition isalpha (c : ascii) : bool := char_between "a" "z" c || char_between "A" "Z" c.
Definition isalnum (c : ascii) : bool := isalpha c || isdigit c.

Definition newline : ascii := Ascii.ascii_of_nat 10.
Definition tab : ascii := Ascii.ascii_of_nat 9.
Definition carriage_return : ascii := Ascii.ascii_of_nat 13.
Definition double_quote : ascii := Ascii.ascii_of_nat 34.
Definition nul : ascii := Ascii.ascii_of_nat 0.

Definition eqc (a b : ascii) : bool := bool_decide (a = b).

Module Lexer.
Import TokenType.

(** ** State *)

(** [class const_token_iterator]: [current] is the index of the next character
    to be consumed, [start] that of the first character of the token.  [line],
    an [int] in the code, does not wrap: they differ beyond 2^31 lines. *)
Record iterator : Type := mkIterator {
  source : list ascii;
  start : nat;
  current : nat;
  line : Z;
  current_token_type : TokenType.t;
  err : ErrorCode.t;
  cached_token : Token
}.

Definition new_iterator (source : list ascii) (start current : nat) (line : Z) : iterator :=
  mkIterator source start current line END_OF_FILE ErrorCode.NO_ERROR default_token.

Definition set_start (n : nat) (it : iterator) : iterator :=
  mkIterator (source it) n (current it) (line it) (current_token_type it) (err it)
    (cached_token it).
Definition set_current (n : nat) (it : iterator) : iterator :=
  mkIterator (source it) (start it) n (line it) (current_token_type it) (err it)
    (cached_token it).
Definition set_line (n : Z) (it : iterator) : iterator :=
  mkIterator (source it) (start it) (current it) n (current_token_type it) (err it)
    (cached_token it).
Definition set_type (t : TokenType.t) (it : iterator) : iterator :=
  mkIterator (source it) (start it) (current it) (line it) t (err it) (cached_token it).
Definition set_err (e : ErrorCode.t) (it : iterator) : iterator :=
  mkIterator (source it) (start it) (current it) (line it) (current_token_type it) e
    (cached_token it).
Definition set_cached (t : Token) (it : iterator) : iterator :=
  mkIterator (source it) (start it) (current it) (line it) (current_token_type it)
    (err it) t.

(** ** Moving over the text *)

Definition size (it : iterator) : nat := length (source it).

(** [advance()]; every caller has looked at the character it consumes. *)
Definition advance (it : iterator) : iterator := set_current (S (current it)) it.

Definition is_at_end (it : iterator) : bool := (size it <=? current it)%nat.

Definition peek (it : iterator) : ascii := default nul (source it !! current it).

Definition peek_next (it : iterator) : ascii := default nul (source it !! S (current it)).

Definition match_char (ch : ascii) (it : iterator) : bool * iterator :=
  if is_at_end it then (false, it)
  else if negb (eqc (peek it) ch) then (false, it)
  else (true, advance it).

(** Characters left to read: the fuel every loop below is given. *)
Definition remaining (it : iterator) : nat := size it - current it.

Definition skip_comment (it : iterator) : outcome iterator :=
  while_loop (remaining it)
    (fun it => negb (is_at_end it) && negb (eqc (peek it) newline)) advance it.

Fixpoint skip_whitespace_loop (fuel : nat) (it : iterator) : outcome iterator :=
  match fuel with
  | O => OutOfFuel
  | S fuel =>
      let ch := peek it in
      if eqc ch " " || eqc ch tab || eqc ch carriage_return then
        skip_whitespace_loop fuel (advance it)
      else if eqc ch newline then
        skip_whitespace_loop fuel (advance (set_line (line it + 1) it))
      else if eqc ch "/" then
        if eqc (peek_next it) "/" then
          it ← skip_comment it; skip_whitespace_loop fuel it
        else Ret it
      else Ret it
  end.

Definition skip_whitespace (it : iterator) : outcome iterator :=
  skip_whitespace_loop (S (remaining it)) it.

(** ** Literals *)

Definition match_string (it : iterator) : outcome (TokenType.t * iterator) :=
  it ← while_loop (remaining it)
         (fun it => negb (eqc (peek it) double_quote) && negb (is_at_end it))
         (fun it => advance (if eqc (peek it) newline then set_line (line it + 1) it else it))
         it;
  if is_at_end it then Ret (ERROR, set_err ErrorCode.UNTERMINATED_STRING it)
  else Ret (STRING, advance it).

Definition skip_digits (it : iterator) : outcome iterator :=
  while_loop (remaining it) (fun it => isdigit (peek it)) advance it.

(** [isalnum] and [isalpha] in the C locale: false from 0x80 on, where the code passes a negative [char]
    (undefined by the standard, false in the libraries of the program's platforms). *)
Definition word_char (c : ascii) : bool := isalnum c || eqc c "_".

Definition skip_word (it : iterator) : outcome iterator :=
  while_loop (remaining it) (fun it => word_char (peek it)) advance it.

Definition match_number (it : iterator) : outcome (TokenType.t * iterator) :=
  it ← skip_digits it;
  let is_int := negb (eqc (peek it) ".") in
  it ← (if is_int then Ret it else skip_digits (advance it));
  let is_err := word_char (peek it) in
  it ← skip_word it;
  if is_err then Ret (ERROR, set_err ErrorCode.INVALID_DECIMAL_LITERAL it)
  else Ret (if is_int then NUMBER_INT else NUMBER_REAL, it).

(** ** Identifiers and keywords *)

Definition lexeme_length (it : iterator) : nat := current it - start it.

(** [source.substr(pos, n)] *)
Definition substr (pos n : nat) (it : iterator) : string :=
  String.string_of_list_ascii (take n (drop pos (source it))).

Definition check_keyword (it : iterator) (idx length : nat) (rest : string)
    (type : TokenType.t) : TokenType.t :=
  if bool_decide (lexeme_length it = idx + length)%nat
     && bool_decide (substr (start it + idx) length it = rest)
  then type else IDENTIFIER.

Definition char_at (it : iterator) (i : nat) : ascii :=
  default nul (source it !! (start it + i)%nat).

Definition get_identifier_type (it : iterator) : TokenType.t :=
  let kw := check_keyword it in
  let longer n := bool_decide (n < lexeme_length it)%nat in
  match char_at it 0 with
  | "a" => kw 1%nat 2%nat "nd"%string AND
  | "c" =>
      if longer 1%nat then
        match char_at it 1 with
        | "a" => kw 2%nat 2%nat "se"%string CASE
        | "l" => kw 2%nat 3%nat "ass"%string CLASS
        | "o" =>
            if longer 3%nat && eqc (char_at it 2) "n" then
              match char_at it 3 with
              | "s" => kw 4%nat 1%nat "t"%string CONST
              | "t" => kw 4%nat 4%nat "inue"%string CONTINUE
              | _ => IDENTIFIER
              end
            else IDENTIFIER
        | _ => IDENTIFIER
        end
      else IDENTIFIER
  | "b" => kw 1%nat 4%nat "reak"%string BREAK
  | "d" => kw 1%nat 6%nat "efault"%string DEFAULT
  | "e" =>
      if longer 1%nat then
        match char_at it 1 with
        | "c" => kw 2%nat 2%nat "ho"%string PRINT
        | "l" => kw 2%nat 2%nat "se"%string ELSE
        | _ => IDENTIFIER
        end
      else IDENTIFIER
  | "f" =>
      if longer 1%nat then
        match char_at it 1 with
        | "a" => kw 2%nat 3%nat "lse"%string FALSE
        | "o" => kw 2%nat 1%nat "r"%string FOR
        | "u" => kw 2%nat 1%nat "n"%string FUN
        | _ => IDENTIFIER
        end
      else IDENTIFIER
  | "i" => kw 1%nat 1%nat "f"%string IF
  | "n" =>
      if longer 1%nat then
        match char_at it 1 with
        | "i" => kw 2%nat 1%nat "l"%string NIL
        | "o" => kw 2%nat 1%nat "t"%string NOT
        | _ => IDENTIFIER
        end
      else IDENTIFIER
  | "o" => kw 1%nat 1%nat "r"%string OR
  | "r" => kw 1%nat 5%nat "eturn"%string RETURN
  | "s" =>
      if longer 1%nat then
        match char_at it 1 with
        | "w" => kw 2%nat 4%nat "itch"%string SWITCH
        | "u" => kw 2%nat 3%nat "per"%string SUPER
        | _ => IDENTIFIER
        end
      else IDENTIFIER
  | "t" =>
      if longer 1%nat then
        match char_at it 1 with
        | "h" => kw 2%nat 2%nat "is"%string THIS
        | "r" => kw 2%nat 2%nat "ue"%string TRUE
        | _ => IDENTIFIER
        end
      else IDENTIFIER
  | "v" => kw 1%nat 2%nat "ar"%string VAR
  | "w" => kw 1%nat 4%nat "hile"%string WHILE
  | _ => IDENTIFIER
  end%char.

Definition match_identifier (it : iterator) : outcome (TokenType.t * iterator) :=
  it ← skip_word it;
  Ret (get_identifier_type it, it).

(** ** One token *)

(** A token that is longer when the next character is [ch]. *)
Definition one_or_two (ch : ascii) (two one : TokenType.t) (it : iterator)
    : outcome (TokenType.t * iterator) :=
  let '(b, it) := match_char ch it in Ret (if b then two else one, it).

(** The operators and punctuation of the [switch] of [scan_token], [ch] consumed. *)
Definition scan_symbol (ch : ascii) (it : iterator) : outcome (TokenType.t * iterator) :=
  match ch with
  | ":" => Ret (COLON, it)
  | "?" => one_or_two "." QUESTION_DOT QUESTION_MARK it
  | "(" => Ret (LEFT_PAREN, it)
  | ")" => Ret (RIGHT_PAREN, it)
  | "{" => Ret (LEFT_BRACE, it)
  | "}" => Ret (RIGHT_BRACE, it)
  | "[" => Ret (LEFT_BRACKET, it)
  | "]" => Ret (RIGHT_BRACKET, it)
  | ";" => Ret (SEMICOLON, it)
  | "," => Ret (COMMA, it)
  | "." => Ret (DOT, it)
  | "-" => Ret (MINUS, it)
  | "+" => Ret (PLUS, it)
  | "/" => Ret (SLASH, it)
  | "*" => Ret (STAR, it)
  | "!" => one_or_two "=" BANG_EQUAL BANG it
  | "=" => one_or_two "=" EQUAL_EQUAL EQUAL it
  | "<" => one_or_two "=" LESS_EQUAL LESS it
  | ">" => one_or_two "=" GREATER_EQUAL GREATER it
  | _ => Ret (ERROR, set_err ErrorCode.UNRECOGNIZED_CHARACTER it)
  end%char.

Definition scan_token (it : iterator) : outcome (TokenType.t * iterator) :=
  it ← skip_whitespace it;
  let it := set_start (current it) it in
  if is_at_end it then Ret (END_OF_FILE, it)
  else
    let ch := peek it in
    let it := advance it in
    if isalpha ch || eqc ch "_" then match_identifier it
    else if eqc ch double_quote then match_string it
    else if isdigit ch then match_number it
    else scan_symbol ch it.

(** ** The iterator interface *)

(** [operator*]: at the end of the text a default token. *)
Definition deref (it : iterator) : Token :=
  if decide (current_token_type it = END_OF_FILE) then default_token else cached_token it.

(** [operator++] (prefix) *)
Definition next (it : iterator) : outcome iterator :=
  let it := set_err ErrorCode.NO_ERROR it in
  it ← (if is_at_end it then
          Ret (set_current (size it) (set_start (size it) (set_type END_OF_FILE it)))
        else
          '(t, it) ← scan_token (set_start (current it) it);
          Ret (set_type t it));
  Ret (set_cached
         (mkToken (current_token_type it) (line it) (err it)
            (substr (start it) (current it - start it) it)) it).

Definition equal (a b : iterator) : bool :=
  bool_decide (start a = start b) && bool_decide (current a = current b).

(** [Lexer::cbegin()] and [Lexer::cend()] *)
Definition cbegin (src : list ascii) : outcome iterator := next (new_iterator src 0 0 1).
Definition cend (src : list ascii) : iterator :=
  new_iterator src (length src) (length src) 1.

(** The loop of a client that reads the tokens up to the end of the text. *)
Fixpoint tokens_from (fuel : nat) (it : iterator) : outcome (list iterator) :=
  if decide (current_token_type it = END_OF_FILE) then Ret [it]
  else match fuel with
       | O => OutOfFuel
       | S fuel => it' ← next it; rest ← tokens_from fuel it'; Ret (it :: rest)
       end.

Definition tokenize (src : list ascii) : outcome (list iterator) :=
  it ← cbegin src; tokens_from (length src) it.

End Lexer.
