(* ===== verification/LexerFacts.v ===== *)
(** * Correctness of the lexer

    A declarative lexical grammar ([blank], [token_spec]) and the theorems that
    the iterator of Lexer.v implements it: every step terminates, reads exactly
    one token, loses no character and counts the lines. *)

From S2P Require Import Prelude Token Lexer.
Import Lexer TokenType.

(** ** What an operation consumed *)

Definition newlines (l : list ascii) : Z := Z.of_nat (length (filter (.= newline) l)).

Lemma newlines_app l k : newlines (l ++ k) = newlines l + newlines k.
Proof. unfold newlines. rewrite filter_app, length_app. lia. Qed.

Lemma newlines_cons c l : newlines (c :: l) = newlines [c] + newlines l.
Proof. apply (newlines_app [c] l). Qed.

Lemma newlines_other c : c <> newline -> newlines [c] = 0.
Proof. intros. unfold newlines. by rewrite filter_cons_False. Qed.

(** [reads seg it it']: going from [it] to [it'] consumed the characters [seg]. *)
Record reads (seg : list ascii) (it it' : iterator) : Prop := mkReads {
  reads_source : source it' = source it;
  reads_start : start it' = start it;
  reads_current : current it' = (current it + length seg)%nat;
  reads_text : drop (current it) (source it) = seg ++ drop (current it') (source it);
  reads_line : line it' = line it + newlines seg;
  reads_err : err it' = err it
}.

Lemma reads_nil it : reads [] it it.
Proof. split; cbn; rewrite ?newlines_app; try done; unfold newlines; cbn; lia. Qed.

Lemma reads_app s1 s2 it1 it2 it3 :
  reads s1 it1 it2 -> reads s2 it2 it3 -> reads (s1 ++ s2) it1 it3.
Proof.
  intros [] []. split; try congruence.
  - rewrite length_app. lia.
  - rewrite <- app_assoc. congruence.
  - rewrite newlines_app. lia.
Qed.

Lemma reads_bound seg it it' :
  reads seg it it' -> (current it <= size it)%nat -> (current it' <= size it')%nat.
Proof.
  intros [Hs _ Hc Ht _ _] Hb. unfold size in *. rewrite Hs.
  apply (f_equal length) in Ht. rewrite length_app, !length_drop in Ht. lia.
Qed.

Lemma lookup_current it c :
  source it !! current it = Some c ->
  drop (current it) (source it) = c :: drop (S (current it)) (source it).
Proof. intros H. by rewrite (drop_S _ c). Qed.

Lemma reads_advance it c :
  source it !! current it = Some c -> c <> newline -> reads [c] it (advance it).
Proof.
  intros H Hc. split; cbn; try done; try lia.
  - by apply lookup_current.
  - rewrite newlines_other by done. lia.
Qed.

Lemma reads_advance_line it c :
  source it !! current it = Some c -> c = newline ->
  reads [c] it (advance (set_line (line it + 1) it)).
Proof.
  intros H ->. split; cbn; try done; try lia.
  by apply lookup_current.
Qed.

Lemma is_at_end_lookup it : is_at_end it = bool_decide (source it !! current it = None).
Proof.
  unfold is_at_end, size. destruct (source it !! current it) eqn:E.
  - rewrite bool_decide_eq_false_2 by done. apply lookup_lt_Some in E.
    by apply Nat.leb_gt.
  - apply lookup_ge_None in E. rewrite bool_decide_eq_true_2 by done.
    by apply Nat.leb_le.
Qed.

Lemma remaining_lookup it c : source it !! current it = Some c -> (0 < remaining it)%nat.
Proof. intros H%lookup_lt_Some. unfold remaining, size. lia. Qed.

(** ** Spans: loops that read characters while a predicate holds *)

Definition head_is (p : option ascii -> bool) (l : list ascii) : bool := p (head l).

Lemma head_drop it : head (drop (current it) (source it)) = source it !! current it.
Proof. by rewrite head_lookup, lookup_drop, Nat.add_0_r. Qed.

Lemma span_loop (p : option ascii -> bool) cond body it :
  p None = false ->
  (forall it, cond it = p (source it !! current it)) ->
  (forall it c, source it !! current it = Some c -> p (Some c) = true ->
     reads [c] it (body it)) ->
  exists seg it', while_loop (remaining it) cond body it = Ret it' /\
    reads seg it it' /\ Forall (fun c => p (Some c) = true) seg /\
    p (source it' !! current it') = false.
Proof.
  intros Hnone Hcond Hbody.
  destruct (while_loop_ends
    (fun it' => exists seg, reads seg it it' /\ Forall (fun c => p (Some c) = true) seg)
    remaining cond body) with (fuel := remaining it) (s := it)
    as (it' & Hw & Hc & seg & Hr & Hf); [|by eauto using reads_nil|lia|].
  - intros it1 (seg & Hr & Hf) Hc. rewrite Hcond in Hc.
    destruct (source it1 !! current it1) as [c|] eqn:E; [|congruence].
    specialize (Hbody _ _ E Hc). split.
    + exists (seg ++ [c]). split; [by eapply reads_app|]. by apply Forall_app_2; auto.
    + apply remaining_lookup in E. unfold remaining, size in *.
      rewrite (reads_current _ _ _ Hbody), (reads_source _ _ _ Hbody). cbn. lia.
  - exists seg, it'. rewrite <- Hcond. eauto.
Qed.

(** The same for a predicate on [peek()]. *)
Lemma peek_loop (q : ascii -> bool) it :
  q nul = false -> q newline = false ->
  exists seg it', while_loop (remaining it) (fun it => q (peek it)) advance it = Ret it' /\
    reads seg it it' /\ Forall (fun c => q c = true) seg /\ q (peek it') = false.
Proof.
  intros Hnul Hnl.
  apply (span_loop (fun o => q (default nul o))); cbn; try done.
  intros it1 c E Hq. apply reads_advance; congruence.
Qed.

(** ** The lexical grammar *)

Definition whitespace (c : ascii) : bool :=
  eqc c " " || eqc c tab || eqc c carriage_return || eqc c newline.

(** [blank gap rest]: [gap] is white space and comments, and a comment it ends
    with is not continued by [rest]. *)
Inductive blank : list ascii -> list ascii -> Prop :=
  | blank_nil rest : blank [] rest
  | blank_space c gap rest :
      whitespace c = true -> blank gap rest -> blank (c :: gap) rest
  | blank_comment body gap rest :
      newline ∉ body ->
      (head (gap ++ rest) = None \/ head (gap ++ rest) = Some newline) ->
      blank gap rest ->
      blank ("/"%char :: "/"%char :: body ++ gap) rest.

(** [rest] does not start with white space or a comment. *)
Definition starts_token (rest : list ascii) : Prop :=
  match rest with
  | "/"%char :: "/"%char :: _ => False
  | c :: _ => whitespace c = false
  | [] => True
  end.

Definition digits (l : list ascii) : Prop := Forall (fun c => isdigit c = true) l.
Definition word (l : list ascii) : Prop := Forall (fun c => word_char c = true) l.

(** [l] is not continued by a character of the class. *)
Definition ends_before (q : ascii -> bool) (rest : list ascii) : Prop :=
  q (default nul (head rest)) = false.

(** The reserved words of the language. *)
Definition keywords : list (string * TokenType.t) :=
  [("and", TokenType.AND); ("case", TokenType.CASE); ("class", TokenType.CLASS);
   ("const", TokenType.CONST); ("continue", TokenType.CONTINUE);
   ("break", TokenType.BREAK); ("default", TokenType.DEFAULT);
   ("echo", TokenType.PRINT); ("else", TokenType.ELSE); ("false", TokenType.FALSE);
   ("for", TokenType.FOR); ("fun", TokenType.FUN); ("if", TokenType.IF);
   ("nil", TokenType.NIL); ("not", TokenType.NOT); ("or", TokenType.OR);
   ("return", TokenType.RETURN); ("switch", TokenType.SWITCH);
   ("super", TokenType.SUPER); ("this", TokenType.THIS); ("true", TokenType.TRUE);
   ("var", TokenType.VAR); ("while", TokenType.WHILE)].

Definition keyword_type (w : string) : TokenType.t :=
  default TokenType.IDENTIFIER (snd <$> List.find (fun p => bool_decide (p.1 = w)) keywords).

Definition punctuation : list (string * TokenType.t) :=
  [(":", TokenType.COLON); ("?.", TokenType.QUESTION_DOT); ("?", TokenType.QUESTION_MARK);
   ("(", TokenType.LEFT_PAREN); (")", TokenType.RIGHT_PAREN);
   ("{", TokenType.LEFT_BRACE); ("}", TokenType.RIGHT_BRACE);
   ("[", TokenType.LEFT_BRACKET); ("]", TokenType.RIGHT_BRACKET);
   (";", TokenType.SEMICOLON); (",", TokenType.COMMA); (".", TokenType.DOT);
   ("-", TokenType.MINUS); ("+", TokenType.PLUS); ("/", TokenType.SLASH);
   ("*", TokenType.STAR); ("!=", TokenType.BANG_EQUAL); ("!", TokenType.BANG);
   ("==", TokenType.EQUAL_EQUAL); ("=", TokenType.EQUAL);
   ("<=", TokenType.LESS_EQUAL); ("<", TokenType.LESS);
   (">=", TokenType.GREATER_EQUAL); (">", TokenType.GREATER)].

(** A one-character operator that the next character would extend. *)
Definition extends_to (c d : ascii) : bool :=
  match c with
  | "?" => eqc d "."
  | "!" | "=" | "<" | ">" => eqc d "="
  | _ => false
  end%char.

(** [token_spec t e l rest]: in the text [l ++ rest], [l] is a token of kind
    [t]; [e] is the error code of an ERROR token. *)
Inductive token_spec : TokenType.t -> ErrorCode.t -> list ascii -> list ascii -> Prop :=
  | spec_word c l rest :
      isalpha c || eqc c "_" = true -> word l -> ends_before word_char rest ->
      token_spec (keyword_type (String.string_of_list_ascii (c :: l)))
        ErrorCode.NO_ERROR (c :: l) rest
  | spec_int c l rest :
      isdigit c = true -> digits l -> ends_before word_char rest ->
      ends_before (fun c => eqc c ".") rest ->
      token_spec TokenType.NUMBER_INT ErrorCode.NO_ERROR (c :: l) rest
  | spec_real c l frac rest :
      isdigit c = true -> digits l -> digits frac -> ends_before word_char rest ->
      token_spec TokenType.NUMBER_REAL ErrorCode.NO_ERROR (c :: l ++ "."%char :: frac) rest
  | spec_bad_number c l frac w rest :
      isdigit c = true -> digits l ->
      (frac = [] \/ exists f, digits f /\ frac = "."%char :: f) ->
      word w -> w <> [] -> ends_before word_char rest ->
      token_spec TokenType.ERROR ErrorCode.INVALID_DECIMAL_LITERAL (c :: l ++ frac ++ w) rest
  | spec_string body rest :
      double_quote ∉ body ->
      token_spec TokenType.STRING ErrorCode.NO_ERROR
        (double_quote :: body ++ [double_quote]) rest
  | spec_open_string body :
      double_quote ∉ body ->
      token_spec TokenType.ERROR ErrorCode.UNTERMINATED_STRING (double_quote :: body) []
  | spec_punct s t rest :
      (s, t) ∈ punctuation ->
      (forall c d, s = String c "" -> head rest = Some d -> extends_to c d = false) ->
      token_spec t ErrorCode.NO_ERROR (String.list_ascii_of_string s) rest
  | spec_other c rest :
      word_char c = false -> c <> double_quote ->
      (forall s t, (s, t) ∈ punctuation -> String.get 0 s <> Some c) ->
      token_spec TokenType.ERROR ErrorCode.UNRECOGNIZED_CHARACTER [c] rest.

(** ** White space *)

Lemma eqc_true a b : eqc a b = true <-> a = b.
Proof. unfold eqc. apply bool_decide_eq_true. Qed.
Lemma eqc_false a b : eqc a b = false <-> a <> b.
Proof. unfold eqc. apply bool_decide_eq_false. Qed.

Ltac chars :=
  repeat match goal with
  | H : eqc _ _ = true |- _ => apply eqc_true in H
  | H : eqc _ _ = false |- _ => apply eqc_false in H
  | H : negb _ = true |- _ => apply negb_true_iff in H
  | H : negb _ = false |- _ => apply negb_false_iff in H
  | H : (_ && _)%bool = true |- _ => apply andb_true_iff in H as [? ?]
  | H : (_ || _)%bool = false |- _ => apply orb_false_iff in H as [? ?]
  end.

(** [peek()] returns a character other than NUL only where there is one. *)
Lemma peek_lookup it c : peek it = c -> c <> nul -> source it !! current it = Some c.
Proof. unfold peek. destruct (source it !! current it); cbn; congruence. Qed.

Lemma skip_comment_spec it :
  exists seg it', skip_comment it = Ret it' /\ reads seg it it' /\ (newline ∉ seg) /\
    (source it' !! current it' = None \/ source it' !! current it' = Some newline).
Proof.
  destruct (span_loop
    (fun o => if o is Some c then negb (eqc c newline) else false)
    (fun it => negb (is_at_end it) && negb (eqc (peek it) newline)) advance it)
    as (seg & it' & Hw & Hr & Hf & Hp); try done.
  - intros it1. rewrite is_at_end_lookup. unfold peek.
    by destruct (source it1 !! current it1).
  - intros it1 c E Hc. chars. by apply reads_advance.
  - exists seg, it'. split_and!; try done.
    + intros Hin. rewrite Forall_forall in Hf. specialize (Hf _ Hin). by chars.
    + destruct (source it' !! current it') as [c|] eqn:E; [right|by left]. chars. congruence.
Qed.

Lemma comment_spec it :
  peek it = "/"%char -> peek_next it = "/"%char ->
  exists body it', skip_comment it = Ret it' /\
    reads ("/"%char :: "/"%char :: body) it it' /\ (newline ∉ body) /\
    (head (drop (current it') (source it')) = None \/
     head (drop (current it') (source it')) = Some newline).
Proof.
  intros H1 H2. destruct (skip_comment_spec it) as (seg & it' & Hs & Hr & Hnl & Hend).
  rewrite <- head_drop in Hend.
  apply peek_lookup in H1; [|done].
  assert (H2' : source it !! S (current it) = Some "/"%char).
  { unfold peek_next in H2. by destruct (source it !! S (current it)); cbn in H2; simplify_eq. }
  pose proof (reads_text _ _ _ Hr) as Ht. rewrite <- (reads_source _ _ _ Hr) in Ht at 2.
  rewrite (lookup_current _ _ H1), (drop_S _ _ _ H2') in Ht.
  rewrite <- (reads_source _ _ _ Hr) in Ht.
  destruct seg as [|a [|b body]]; cbn in Ht.
  { rewrite <- Ht in Hend. by destruct Hend. }
  { injection Ht as <- Ht. rewrite <- Ht in Hend. by destruct Hend. }
  injection Ht as <- <- _.
  exists body, it'. split_and!; try done. intros Hin. apply Hnl.
  by apply list_elem_of_further, list_elem_of_further.
Qed.

(** The slash that does not open a comment, and every other visible character,
    starts a token. *)
Lemma starts_token_here it :
  whitespace (peek it) = false ->
  (peek it = "/"%char -> peek_next it <> "/"%char) ->
  starts_token (drop (current it) (source it)).
Proof.
  intros Hw Hs. unfold starts_token, peek, peek_next in *.
  destruct (source it !! current it) as [c|] eqn:E.
  - rewrite (lookup_current _ _ E). cbn in *.
    destruct (decide (c = "/"%char)) as [->|Hc].
    + specialize (Hs eq_refl). destruct (source it !! S (current it)) as [d|] eqn:E'.
      * rewrite (drop_S _ _ _ E'). cbn in Hs. repeat case_match; simplify_eq; done.
      * rewrite drop_ge by by apply lookup_ge_None. done.
    + repeat case_match; simplify_eq; done.
  - rewrite drop_ge; [done|]. by apply lookup_ge_None.
Qed.

(** [skip_whitespace] stops at the first character of a token. *)
Lemma skip_whitespace_loop_spec fuel it :
  (remaining it < fuel)%nat ->
  exists gap it', skip_whitespace_loop fuel it = Ret it' /\ reads gap it it' /\
    blank gap (drop (current it') (source it')) /\
    starts_token (drop (current it') (source it')).
Proof.
  revert it. induction fuel as [|fuel IH]; intros it Hfuel; [lia|]. cbn.
  assert (Hlt : forall seg it1, seg <> [] -> reads seg it it1 -> (0 < remaining it)%nat ->
    (remaining it1 < fuel)%nat).
  { intros seg it1 Hne [Hs _ Hc _ _ _] Hp. unfold remaining, size in *. rewrite Hs, Hc.
    destruct seg; [done|]. cbn in *. lia. }
  assert (Hspace : forall c it1, whitespace c = true -> source it !! current it = Some c ->
    reads [c] it it1 ->
    exists gap it', skip_whitespace_loop fuel it1 = Ret it' /\ reads gap it it' /\
      blank gap (drop (current it') (source it')) /\
      starts_token (drop (current it') (source it'))).
  { intros c it1 Hc E Hr. destruct (IH it1) as (gap & it' & ? & Hr' & ? & ?).
    { eapply (Hlt [c]); eauto using remaining_lookup. }
    exists (c :: gap), it'. split_and!; try done; [|by constructor].
    by apply (reads_app [c] gap it it1). }
  destruct (eqc (peek it) " " || eqc (peek it) tab || eqc (peek it) carriage_return) eqn:E1.
  { assert (Hl : source it !! current it = Some (peek it)).
    { apply peek_lookup; [done|]. intros Hn. by rewrite Hn in E1. }
    apply (Hspace (peek it)); [unfold whitespace; by rewrite E1|done|].
    apply reads_advance; [done|]. intros Hn. by rewrite Hn in E1. }
  destruct (eqc (peek it) newline) eqn:E2.
  { apply eqc_true in E2 as Hn. apply peek_lookup in Hn as Hl; [|done].
    apply (Hspace newline); [done|done|]. by apply reads_advance_line. }
  assert (Hw : whitespace (peek it) = false) by (unfold whitespace; by rewrite E1, E2).
  destruct (eqc (peek it) "/") eqn:E3; [destruct (eqc (peek_next it) "/") eqn:E4|].
  - chars. destruct (comment_spec it) as (body & it1 & Hs & Hr1 & Hnl & Hend); [done..|].
    rewrite Hs. cbn [mbind outcome_bind].
    destruct (IH it1) as (gap & it' & ? & Hr' & Hb & ?).
    { eapply (Hlt (_ :: _)); [done|exact Hr1|]. eapply remaining_lookup, peek_lookup; [eassumption|done]. }
    exists (("/"%char :: "/"%char :: body) ++ gap), it'. split_and!; try done.
    + by eapply reads_app.
    + apply blank_comment; [done| |done].
      rewrite (reads_source _ _ _ Hr'), <- (reads_text _ _ _ Hr').  done.
  - exists [], it. split_and!; eauto using reads_nil, blank_nil.
    apply starts_token_here; [done|]. by chars.
  - exists [], it. split_and!; eauto using reads_nil, blank_nil.
    apply starts_token_here; [done|]. by chars.
Qed.

Lemma skip_whitespace_spec it :
  exists gap it', skip_whitespace it = Ret it' /\ reads gap it it' /\
    blank gap (drop (current it') (source it')) /\
    starts_token (drop (current it') (source it')).
Proof. apply skip_whitespace_loop_spec. lia. Qed.

(** ** Keywords *)

(** The characters of the token that has been read. *)
Definition lexeme_chars (it : iterator) : list ascii :=
  take (lexeme_length it) (drop (start it) (source it)).

Lemma lexeme_chars_length it :
  (current it <= size it)%nat -> length (lexeme_chars it) = lexeme_length it.
Proof.
  intros. unfold lexeme_chars, lexeme_length, size in *.
  rewrite length_take, length_drop. lia.
Qed.

Lemma char_at_lexeme it i :
  (i < lexeme_length it)%nat -> char_at it i = default nul (lexeme_chars it !! i).
Proof. intros. unfold char_at, lexeme_chars. by rewrite lookup_take_lt, lookup_drop. Qed.

Lemma substr_lexeme it idx len :
  lexeme_length it = (idx + len)%nat ->
  substr (start it + idx) len it = String.string_of_list_ascii (drop idx (lexeme_chars it)).
Proof.
  intros H. unfold substr, lexeme_chars. rewrite H.
  by rewrite <- take_drop_commute, drop_drop.
Qed.

Lemma string_of_list_app l k :
  String.string_of_list_ascii (l ++ k) =
  (String.string_of_list_ascii l +:+ String.string_of_list_ascii k)%string.
Proof. induction l as [|a l IH]; [done|]. change (String a (String.string_of_list_ascii (l ++ k)) = String a (String.string_of_list_ascii l +:+ String.string_of_list_ascii k)%string). by rewrite IH. Qed.

(** The check succeeds exactly on the word made of the characters already
    seen and the expected rest. *)
Lemma check_keyword_true it idx len rest t :
  (current it <= size it)%nat ->
  check_keyword it idx len rest t <> IDENTIFIER ->
  lexeme_length it = (idx + len)%nat /\
  String.string_of_list_ascii (lexeme_chars it) =
    (String.string_of_list_ascii (map (char_at it) (seq 0 idx)) +:+ rest)%string.
Proof.
  intros Hb. unfold check_keyword. case_match eqn:E; [|done]. intros _.
  apply andb_true_iff in E as [E1%bool_decide_eq_true E2%bool_decide_eq_true].
  split; [done|]. rewrite substr_lexeme in E2 by done.
  rewrite <- (take_drop idx (lexeme_chars it)), string_of_list_app, E2.
  do 2 f_equal. apply list_eq. intros i.
  rewrite list_lookup_fmap. destruct (decide (i < idx)%nat) as [Hi|Hi].
  - rewrite lookup_take_lt, lookup_seq_lt by done. cbn.
    rewrite char_at_lexeme by lia.
    destruct (lookup_lt_is_Some_2 (lexeme_chars it) i) as [c ->]; [|done].
    rewrite lexeme_chars_length by done. lia.
  - rewrite lookup_take_ge by lia. rewrite lookup_seq_ge by lia. done.
Qed.

(** A word the trie accepts is a keyword of that kind. *)
Lemma get_identifier_type_keyword it :
  (current it <= size it)%nat ->
  get_identifier_type it <> IDENTIFIER ->
  (String.string_of_list_ascii (lexeme_chars it), get_identifier_type it) ∈ keywords.
Proof.
  intros Hb. unfold get_identifier_type.
  assert (Hk : forall idx len rest t,
    check_keyword it idx len rest t <> IDENTIFIER ->
    (String.string_of_list_ascii (map (char_at it) (seq 0 idx)) +:+ rest, t)%string ∈ keywords ->
    (String.string_of_list_ascii (lexeme_chars it), check_keyword it idx len rest t) ∈ keywords).
  { intros idx len rest t Hne Hin. destruct (check_keyword_true _ _ _ _ _ Hb Hne) as [_ ->].
    revert Hne. unfold check_keyword. by case_match. }
  assert (Hin : forall x, bool_decide (x ∈ keywords) = true -> x ∈ keywords).
  { intros x. apply bool_decide_eq_true_1. }
  repeat (case_match; try done);
    repeat match goal with H : (_ && _)%bool = true |- _ => apply andb_true_iff in H as [_ ?] end; chars;
    intros Hne; (apply Hk; [exact Hne|]); cbn [seq map String.string_of_list_ascii];
    repeat match goal with H : char_at _ _ = _ |- _ => rewrite H end;
    subst; apply Hin; vm_compute; reflexivity.
Qed.

(** Every keyword is accepted by the trie. *)
Lemma keyword_get_identifier_type it w t :
  (current it <= size it)%nat ->
  lexeme_chars it = String.list_ascii_of_string w -> (w, t) ∈ keywords ->
  get_identifier_type it = t.
Proof.
  intros Hb Hl Hin.
  assert (Hlen : lexeme_length it = length (lexeme_chars it))
    by (symmetry; by apply lexeme_chars_length).
  rewrite Hl in Hlen.
  assert (Hc : forall i c, String.list_ascii_of_string w !! i = Some c -> char_at it i = c).
  { intros i c E. rewrite char_at_lexeme, Hl, E; [done|].
    rewrite Hlen. by eapply lookup_lt_Some. }
  unfold get_identifier_type, check_keyword. rewrite Hlen. unfold keywords in Hin.
  repeat (apply elem_of_cons in Hin as [[= -> ->]|Hin]; [
    cbn [length String.list_ascii_of_string] in *;
    rewrite ?(Hc 0%nat _ eq_refl); cbn;
    rewrite ?(Hc 1%nat _ eq_refl); cbn;
    try rewrite (Hc 2%nat _ eq_refl); cbn;
    try rewrite (Hc 3%nat _ eq_refl); cbn;
    rewrite substr_lexeme, Hl by done; reflexivity|]).
  by apply not_elem_of_nil in Hin.
Qed.

Lemma keyword_type_elem w t : (w, t) ∈ keywords -> keyword_type w = t.
Proof.
  intros Hin.
  assert (H : Forall (fun p => keyword_type p.1 = p.2) keywords)
    by (repeat constructor).
  rewrite Forall_forall in H. exact (H _ Hin).
Qed.

Lemma keyword_type_not_elem w : (forall t, (w, t) ∉ keywords) -> keyword_type w = IDENTIFIER.
Proof.
  intros Hn. unfold keyword_type.
  destruct (List.find _ keywords) as [[k t]|] eqn:E; [|done].
  apply List.find_some in E as [Hin Hk%bool_decide_eq_true]. cbn in Hk. subst.
  destruct (Hn t). by apply list_elem_of_In.
Qed.

Lemma keywords_not_identifier w : (w, IDENTIFIER) ∉ keywords.
Proof.
  intros Hin. assert (H : Forall (fun p => p.2 <> IDENTIFIER) keywords)
    by (repeat (constructor; [done|]); constructor).
  rewrite Forall_forall in H. by apply (H _ Hin).
Qed.

(** The hand-written trie is a lookup in the keyword table. *)
Lemma get_identifier_type_spec it :
  (current it <= size it)%nat ->
  get_identifier_type it = keyword_type (String.string_of_list_ascii (lexeme_chars it)).
Proof.
  intros Hb. destruct (decide (get_identifier_type it = IDENTIFIER)) as [He|Hne].
  - rewrite He. symmetry. apply keyword_type_not_elem. intros t Hin.
    pose proof Hin as Hk. eapply keyword_get_identifier_type in Hk; [|done|].
    + rewrite He in Hk. subst. by apply keywords_not_identifier in Hin.
    + by rewrite String.list_ascii_of_string_of_list_ascii.
  - symmetry. apply keyword_type_elem. by apply get_identifier_type_keyword.
Qed.

(** ** Literals *)

Lemma head_rest_peek it : default nul (head (drop (current it) (source it))) = peek it.
Proof. by rewrite head_drop. Qed.

Lemma skip_word_spec it :
  exists seg it', skip_word it = Ret it' /\ reads seg it it' /\ word seg /\
    word_char (peek it') = false.
Proof. by apply peek_loop. Qed.

Lemma skip_digits_spec it :
  exists seg it', skip_digits it = Ret it' /\ reads seg it it' /\ digits seg /\
    isdigit (peek it') = false.
Proof. by apply peek_loop. Qed.

Lemma skip_word_empty it it' seg :
  skip_word it = Ret it' -> reads seg it it' -> word_char (peek it) = false -> seg = [].
Proof.
  unfold skip_word. intros Hs Hr Hp. destruct (remaining it); cbn in Hs; rewrite Hp in Hs;
    injection Hs as <-; apply reads_current in Hr; destruct seg; cbn in Hr; [done|lia|done|lia].
Qed.

(** [scans c t it it']: the first character [c] of a token was consumed before
    [it], the others before [it'], and together they are a token of kind [t]; an
    ERROR token leaves its code in the iterator. *)
Definition scans (c : ascii) (t : TokenType.t) (it it' : iterator) : Prop :=
  exists seg it1 e, reads seg it it1 /\
    token_spec t e (c :: seg) (drop (current it1) (source it1)) /\
    it' = (if decide (e = ErrorCode.NO_ERROR) then it1 else set_err e it1).

Lemma scans_ok c t it it' seg :
  reads seg it it' ->
  token_spec t ErrorCode.NO_ERROR (c :: seg) (drop (current it') (source it')) ->
  scans c t it it'.
Proof. intros. by exists seg, it', ErrorCode.NO_ERROR. Qed.

Lemma scans_error c t it it' seg e :
  reads seg it it' -> e <> ErrorCode.NO_ERROR ->
  token_spec t e (c :: seg) (drop (current it') (source it')) ->
  scans c t it (set_err e it').
Proof. intros. exists seg, it', e. by rewrite decide_False. Qed.

Lemma match_string_spec it :
  exists t it', match_string it = Ret (t, it') /\ scans double_quote t it it'.
Proof.
  destruct (span_loop
    (fun o => if o is Some c then negb (eqc c double_quote) else false)
    (fun it => negb (eqc (peek it) double_quote) && negb (is_at_end it))
    (fun it => advance (if eqc (peek it) newline then set_line (line it + 1) it else it)) it)
    as (seg & it' & Hw & Hr & Hf & Hp); [done| | |].
  { intros it1. rewrite is_at_end_lookup. unfold peek.
    destruct (source it1 !! current it1); cbn; [by rewrite andb_true_r|done]. }
  { intros it1 c E _. unfold peek. rewrite E. cbn.
    destruct (eqc c newline) eqn:En; chars; [by apply reads_advance_line|by apply reads_advance]. }
  assert (Hq : double_quote ∉ seg).
  { intros Hin. rewrite Forall_forall in Hf. specialize (Hf _ Hin). cbn in Hf. by chars. }
  unfold match_string. rewrite Hw. cbn. rewrite is_at_end_lookup.
  destruct (source it' !! current it') as [c|] eqn:E; cbn.
  - chars. subst c. eexists _, _. split; [done|]. eapply scans_ok.
    + eapply reads_app; [done|]. by apply (reads_advance _ double_quote).
    + by apply spec_string.
  - eexists _, _. split; [done|]. eapply scans_error; [done..|].
    rewrite drop_ge by by apply lookup_ge_None. by apply spec_open_string.
Qed.

(** The fractional part of a number, when there is one. *)
Definition fraction (frac : list ascii) (is_int : bool) : Prop :=
  if is_int then frac = [] else exists f, digits f /\ frac = "."%char :: f.

Lemma match_fraction_spec it is_int :
  is_int = negb (eqc (peek it) ".") ->
  exists frac it', (if is_int then Ret it else skip_digits (advance it)) = Ret it' /\
    reads frac it it' /\ fraction frac is_int.
Proof.
  destruct is_int; intros Hd; symmetry in Hd; chars.
  - exists [], it. split_and!; try done. apply reads_nil.
  - destruct (skip_digits_spec (advance it)) as (f & it' & ? & Hr & ? & _).
    exists ("."%char :: f), it'. split_and!; [done| |by exists f].
    apply (reads_app ["."%char] f _ (advance it)); [|done].
    apply reads_advance; [|done]. by apply peek_lookup.
Qed.

Lemma match_number_spec c it :
  isdigit c = true ->
  exists t it', match_number it = Ret (t, it') /\ scans c t it it'.
Proof.
  intros Hc. unfold match_number.
  destruct (skip_digits_spec it) as (ds & it1 & -> & Hr1 & Hds & Hnd).
  cbn [mbind outcome_bind].
  destruct (match_fraction_spec it1 _ eq_refl) as (frac & it2 & -> & Hr2 & Hfr).
  cbn [mbind outcome_bind].
  destruct (skip_word_spec it2) as (w & it3 & Hw & Hr3 & Hword & Hnw). rewrite Hw.
  cbn [mbind outcome_bind].
  pose proof (reads_app _ _ _ _ _ (reads_app _ _ _ _ _ Hr1 Hr2) Hr3) as Hr.
  rewrite <- app_assoc in Hr.
  assert (Hend : ends_before word_char (drop (current it3) (source it3)))
    by (unfold ends_before; by rewrite head_rest_peek).
  destruct (word_char (peek it2)) eqn:Hbad; eexists _, _; (split; [done|]).
  - eapply scans_error; [done..|].
    apply spec_bad_number; try done.
    + destruct (eqc (peek it1) "."); cbn in Hfr; eauto.
    + intros ->. apply (reads_current) in Hr3 as Hcur. cbn in Hcur.
      revert Hnw Hbad. unfold peek.
      rewrite (reads_source _ _ _ Hr3), Hcur, Nat.add_0_r. congruence.
  - assert (w = []) as -> by by eapply skip_word_empty. rewrite app_nil_r in Hr.
    eapply scans_ok; [done|].
    destruct (eqc (peek it1) ".") eqn:Hdot; cbn in Hfr |- *.
    + destruct Hfr as (f & Hf & ->). by apply spec_real.
    + subst frac. rewrite app_nil_r. apply spec_int; try done.
      unfold ends_before. rewrite head_rest_peek.
      apply reads_current in Hr2 as Hc2. apply reads_current in Hr3 as Hc3. cbn in Hc2, Hc3.
      revert Hdot. unfold peek.
      by rewrite (reads_source _ _ _ Hr3), (reads_source _ _ _ Hr2), Hc3, Hc2, !Nat.add_0_r.
Qed.

(** ** Operators *)

Lemma scans_here c t it :
  token_spec t ErrorCode.NO_ERROR [c] (drop (current it) (source it)) -> scans c t it it.
Proof. intros H. eapply scans_ok; [apply reads_nil|done]. Qed.

Lemma elem_of_punctuation p : bool_decide (p ∈ punctuation) = true -> p ∈ punctuation.
Proof. apply bool_decide_eq_true_1. Qed.

Lemma punct_spec1 c t rest :
  bool_decide ((String c "", t) ∈ punctuation) = true ->
  (forall d, head rest = Some d -> extends_to c d = false) ->
  token_spec t ErrorCode.NO_ERROR [c] rest.
Proof.
  intros Hin%elem_of_punctuation Hext.
  apply (spec_punct (String c "")); [done|]. intros c' d [= <-]. apply Hext.
Qed.

Lemma one_or_two_spec c ch two one it :
  bool_decide ((String c (String ch ""), two) ∈ punctuation) = true ->
  bool_decide ((String c "", one) ∈ punctuation) = true ->
  ch <> newline -> (forall d, extends_to c d = eqc d ch) ->
  exists t it', one_or_two ch two one it = Ret (t, it') /\ scans c t it it'.
Proof.
  intros H2 H1 Hnl Hext. unfold one_or_two, match_char. rewrite is_at_end_lookup.
  destruct (source it !! current it) as [d|] eqn:E; cbn.
  - unfold peek. rewrite E. cbn. destruct (eqc d ch) eqn:Ed; cbn; eexists _, _; (split; [done|]).
    + chars. subst d. eapply scans_ok; [by apply reads_advance|].
      apply elem_of_punctuation in H2. apply (spec_punct _ _ _ H2). done.
    + apply scans_here, punct_spec1; [done|]. intros d' Hd.
      rewrite head_drop, E in Hd. injection Hd as <-. by rewrite Hext.
  - eexists _, _. split; [done|]. apply scans_here, punct_spec1; [done|].
    intros d Hd. by rewrite head_drop, E in Hd.
Qed.

(** No operator starts with [c]. *)
Definition not_symbol (c : ascii) : bool :=
  forallb (fun p => negb (bool_decide (String.get 0 p.1 = Some c))) punctuation.

Lemma not_symbol_spec c s t :
  not_symbol c = true -> (s, t) ∈ punctuation -> String.get 0 s <> Some c.
Proof.
  unfold not_symbol. rewrite forallb_forall. intros H Hin Hg.
  apply list_elem_of_In in Hin. specialize (H _ Hin). cbn in H.
  by rewrite bool_decide_eq_true_2 in H.
Qed.

Lemma scan_symbol_spec c it :
  isalpha c || eqc c "_" = false -> c <> double_quote -> isdigit c = false ->
  exists t it', scan_symbol c it = Ret (t, it') /\ scans c t it it'.
Proof.
  intros Hal Hdq Hdg.
  assert (Hother : not_symbol c = true ->
    exists t it', Ret (ERROR, set_err ErrorCode.UNRECOGNIZED_CHARACTER it) = Ret (t, it') /\
      scans c t it it').
  { intros Hns. eexists _, _. split; [done|]. eapply scans_error; [apply reads_nil|done|].
    apply spec_other; [|done|by eauto using not_symbol_spec].
    unfold word_char, isalnum. apply orb_false_iff in Hal as [-> ->]. by rewrite Hdg. }
  destruct c as [[] [] [] [] [] [] [] []]; try discriminate Hal; try discriminate Hdg;
    try (destruct (Hdq eq_refl)); clear Hal Hdq Hdg;
    first
    [ apply Hother; vm_compute; reflexivity
    | eexists _, _; split; [reflexivity|];
      apply scans_here, punct_spec1; [vm_compute; reflexivity|done]
    | apply one_or_two_spec; [vm_compute; reflexivity..|done|done] ].
Qed.

(** ** One token *)

Lemma token_spec_not_eof t e l rest : token_spec t e l rest -> t <> END_OF_FILE.
Proof.
  assert (Hk : Forall (fun p => p.2 <> END_OF_FILE) (keywords ++ punctuation))
    by (repeat (constructor; [done|]); constructor).
  rewrite Forall_app, !Forall_forall in Hk. destruct Hk as [Hk Hp].
  destruct 1; try done; [|by eapply (Hp (_, _))].
  unfold keyword_type. destruct (List.find _ keywords) as [p|] eqn:E; [|done].
  apply List.find_some in E as [Hin%list_elem_of_In _]. by apply (Hk p).
Qed.

Lemma token_spec_no_error t e l rest :
  token_spec t e l rest -> e <> ErrorCode.NO_ERROR -> t = ERROR.
Proof. by destruct 1. Qed.

(** The identifier that has just been scanned, as the token's characters. *)
Lemma match_identifier_spec c it :
  isalpha c || eqc c "_" = true ->
  current it = S (start it) -> source it !! start it = Some c ->
  exists t it', match_identifier it = Ret (t, it') /\ scans c t it it'.
Proof.
  intros Hc Hcur Hst. unfold match_identifier.
  destruct (skip_word_spec it) as (seg & it' & -> & Hr & Hw & Hend). cbn.
  eexists _, _. split; [done|]. eapply scans_ok; [exact Hr|].
  assert (Hl : lexeme_chars it' = c :: seg).
  { unfold lexeme_chars, lexeme_length. destruct Hr as [Hs Hst' Hcu Ht _ _].
    rewrite Hs, Hst', (drop_S _ _ _ Hst), <- Hcur, Ht, Hcu, Hcur.
    replace (S (start it) + length seg - start it)%nat with (S (length seg)) by lia.
    cbn. by rewrite take_app_length. }
  rewrite get_identifier_type_spec.
  - rewrite Hl. apply spec_word; [done..|]. unfold ends_before. by rewrite head_rest_peek.
  - eapply reads_bound; [done|]. apply lookup_lt_Some in Hst. unfold size. lia.
Qed.

Lemma starts_token_head it :
  starts_token (drop (current it) (source it)) -> source it !! current it <> Some newline.
Proof.
  unfold starts_token. rewrite <- head_drop. intros H Hn.
  destruct (drop (current it) (source it)) as [|c l]; [done|]. injection Hn as ->. done.
Qed.

(** What a scan leaves: white space [gap], then a token or the end. *)
Lemma scan_token_spec it :
  (current it <= size it)%nat ->
  exists t it' gap it1, scan_token it = Ret (t, it') /\ reads gap it it1 /\
    blank gap (drop (current it1) (source it1)) /\
    ((t = END_OF_FILE /\ it' = set_start (current it1) it1 /\
      source it1 !! current it1 = None) \/
     exists c, source it1 !! current it1 = Some c /\ c <> newline /\
       scans c t (advance (set_start (current it1) it1)) it').
Proof.
  intros Hb. unfold scan_token.
  destruct (skip_whitespace_spec it) as (gap & it1 & -> & Hr & Hbl & Hst). cbn [mbind outcome_bind].
  change (is_at_end (set_start (current it1) it1)) with (is_at_end it1).
  rewrite is_at_end_lookup. change (peek (set_start (current it1) it1)) with (peek it1).
  apply starts_token_head in Hst.
  destruct (source it1 !! current it1) as [c|] eqn:E.
  2: { rewrite bool_decide_eq_true_2 by done. exists END_OF_FILE, (set_start (current it1) it1), gap, it1. eauto 10. }
  rewrite bool_decide_eq_false_2 by done.
  assert (Hp : peek it1 = c) by (unfold peek; by rewrite E). rewrite Hp. cbv zeta.
  set (it2 := advance (set_start (current it1) it1)).
  enough (exists t it', (if isalpha c || eqc c "_" then match_identifier it2
    else if eqc c double_quote then match_string it2
    else if isdigit c then match_number it2 else scan_symbol c it2) = Ret (t, it') /\
    scans c t it2 it') as (t & it' & -> & Hs).
  { exists t, it', gap, it1. split_and!; try done. right. exists c.
    split_and!; [done|congruence|done]. }
  destruct (isalpha c || eqc c "_") eqn:E1; [by apply match_identifier_spec|].
  destruct (eqc c double_quote) eqn:E2.
  { apply eqc_true in E2. rewrite E2. apply match_string_spec. }
  apply eqc_false in E2.
  destruct (isdigit c) eqn:E3; [by apply match_number_spec|by apply scan_symbol_spec].
Qed.

(** [token_step it it']: one increment of the iterator consumed white space and
    comments [gap], then one token [tok] that the iterator now holds, or found
    the end of the text. *)
Definition token_step (it it' : iterator) : Prop :=
  exists gap tok, let rest := drop (current it') (source it') in
  source it' = source it /\
  drop (current it) (source it) = gap ++ tok ++ rest /\
  start it' = (current it + length gap)%nat /\
  current it' = (start it' + length tok)%nat /\
  line it' = line it + newlines (gap ++ tok) /\
  ((current_token_type it' = END_OF_FILE /\ tok = [] /\ rest = [] /\ blank gap []) \/
   exists t e, current_token_type it' = t /\ token_spec t e tok rest /\
     blank gap (tok ++ rest) /\ tok <> [] /\
     deref it' = mkToken t (line it') e (String.string_of_list_ascii tok)).

Lemma token_spec_nonempty t e l rest : token_spec t e l rest -> l <> [].
Proof.
  destruct 1 as [| | | | | |s t rest Hin _|]; try done. intros Hs.
  assert (Hf : Forall (fun p => String.list_ascii_of_string p.1 <> []) punctuation)
    by (repeat (constructor; [done|]); constructor).
  rewrite Forall_forall in Hf. by apply (Hf _ Hin).
Qed.

Lemma next_at_end it :
  current it = size it -> exists it', next it = Ret it' /\ token_step it it'.
Proof.
  intros Hc. unfold next.
  change (is_at_end (set_err ErrorCode.NO_ERROR it)) with (is_at_end it).
  rewrite is_at_end_lookup, bool_decide_eq_true_2
    by (apply lookup_ge_None; unfold size in Hc; lia).
  eexists. split; [reflexivity|]. exists [], []. cbn. unfold size in *. cbn. rewrite Hc.
  rewrite !drop_all. split_and!; try done; try (unfold newlines; cbn; lia).
  left. split_and!; [done..|apply blank_nil].
Qed.

(** The token the iterator caches after a scan. *)
Lemma next_caches it it1 it' gap c t :
  reads gap it it1 -> source it1 !! current it1 = Some c -> c <> newline ->
  err it = ErrorCode.NO_ERROR ->
  blank gap (drop (current it1) (source it1)) ->
  scans c t (advance (set_start (current it1) it1)) it' ->
  token_step it
    (set_cached (mkToken t (line it') (err it') (substr (start it') (current it' - start it') it'))
       (set_type t it')).
Proof.
  intros Hr Hc Hnl Herr Hbl (seg & it2 & e & Hr2 & Htok & ->).
  destruct Hr as [Hs _ Hcu Htx Hli Her]. destruct Hr2 as [Hs2 Hst2 Hcu2 Htx2 Hli2 Her2].
  cbn in Hs2, Hst2, Hcu2, Htx2, Hli2, Her2.
  assert (Hnext : drop (current it1) (source it1) = c :: seg ++ drop (current it2) (source it2))
    by (rewrite (lookup_current _ _ Hc), Htx2, Hs2; done).
  exists gap, (c :: seg). destruct (decide (e = ErrorCode.NO_ERROR)) as [->|He]; cbn.
  all: split_and!; try congruence; try lia.
  all: try (rewrite Htx, <- Hs, Hnext; by rewrite ?Hs2, ?Hs).
  all: try (rewrite newlines_app, newlines_cons, newlines_other by done; lia).
  all: right; eexists t, _; split_and!; [done|exact Htok| |done|].
  all: try (rewrite Hnext in Hbl; done).
  all: unfold deref; cbn; rewrite decide_False by by eapply token_spec_not_eof.
  all: f_equal; try congruence.
  all: unfold substr; cbn; rewrite Hst2, Hs2; f_equal.
  all: rewrite (lookup_current _ _ Hc), Htx2, Hcu2.
  all: replace (S (current it1 + length seg) - current it1)%nat with (S (length seg)) by lia.
  all: cbn [take String.string_of_list_ascii]; by rewrite take_app_length.
Qed.

Lemma next_steps it :
  (current it <= size it)%nat -> exists it', next it = Ret it' /\ token_step it it'.
Proof.
  intros Hb. destruct (decide (current it = size it)) as [He|Hne]; [by apply next_at_end|].
  unfold next. change (is_at_end (set_err ErrorCode.NO_ERROR it)) with (is_at_end it).
  rewrite is_at_end_lookup. destruct (lookup_lt_is_Some_2 (source it) (current it)) as [c0 E].
  { unfold size in *. lia. }
  rewrite E, bool_decide_eq_false_2 by done.
  set (it0 := set_start (current it) (set_err ErrorCode.NO_ERROR it)).
  destruct (scan_token_spec it0 Hb) as (t & it' & gap & it1 & Hs & Hr & Hbl & Hcase).
  change (scan_token _) with (scan_token it0). rewrite Hs. cbn [mbind outcome_bind].
  eexists. split; [reflexivity|].
  assert (Hlift : forall it2, token_step it0 it2 -> token_step it it2) by (intros it2; done).
  apply Hlift. destruct Hcase as [(-> & -> & Hend)|(c & Hc & Hnl & Hsc)].
  - destruct Hr as [Hs1 Hst Hcu Htx Hli Her].
    assert (Hrest : drop (current it1) (source it1) = []).
    { apply drop_ge. by apply lookup_ge_None. }
    assert (Htx' : drop (current it) (source it) = gap).
    { change (drop (current it0) (source it0) = gap).
      rewrite Htx, <- Hs1, Hrest. apply app_nil_r. }
    exists gap, []. cbn. rewrite app_nil_r, Hrest. rewrite Hrest in Hbl.
    split_and!; first [exact Hs1 | exact Hcu | exact Hli | by rewrite app_nil_r
                      | by left | cbn; lia].
  - exact (next_caches it0 it1 it' gap c t Hr Hc Hnl eq_refl Hbl Hsc).
Qed.

(** ** The stream of tokens *)

(** Characters and tokens still to come: it strictly decreases until the end. *)
Definition rem (it : iterator) : nat :=
  if decide (current_token_type it = END_OF_FILE) then 0%nat else S (remaining it).

Lemma token_step_bound it it' :
  (current it <= size it)%nat -> token_step it it' -> (current it' <= size it')%nat.
Proof.
  unfold size. intros Hb (gap & tok & Hs & Ht & Hst & Hcu & _). rewrite Hs in *.
  apply (f_equal length) in Ht. rewrite !length_app, !length_drop in Ht. lia.
Qed.

Lemma token_step_rem it it' :
  (current it <= size it)%nat -> token_step it it' -> (rem it' <= remaining it)%nat.
Proof.
  intros Hb Hstep. pose proof (token_step_bound _ _ Hb Hstep) as Hb'.
  destruct Hstep as (gap & tok & Hs & Ht & Hst & Hcu & _ & Hcase).
  unfold rem. case_decide as Hd; [lia|].
  destruct Hcase as [(He & _)|(t & e & _ & _ & _ & Hne & _)]; [done|].
  unfold remaining, size in *. rewrite Hs in *. destruct tok; [done|]. cbn in *. lia.
Qed.

Inductive token_stream : iterator -> list iterator -> Prop :=
  | stream_end it : current_token_type it = END_OF_FILE -> token_stream it [it]
  | stream_next it it' rest :
      current_token_type it <> END_OF_FILE -> next it = Ret it' -> token_step it it' ->
      token_stream it' rest -> token_stream it (it :: rest).

Lemma tokens_from_stream fuel it :
  (current it <= size it)%nat -> (rem it <= fuel)%nat ->
  exists its, tokens_from fuel it = Ret its /\ token_stream it its.
Proof.
  revert it. induction fuel as [|fuel IH]; intros it Hb Hf; cbn [tokens_from].
  - unfold rem in Hf. case_decide; [|lia]. eauto using token_stream.
  - case_decide as Hd; [eauto using token_stream|].
    destruct (next_steps it Hb) as (it' & Hn & Hs). rewrite Hn. cbn [mbind outcome_bind].
    destruct (IH it') as (its & Ht & Hst); [by eapply token_step_bound| |].
    { apply token_step_rem in Hs; [|done]. unfold rem in Hf. rewrite decide_False in Hf by done. lia. }
    rewrite Ht. cbn. eauto using token_stream.
Qed.

(** The line of an iterator counts the newlines before its end. *)
Definition line_ok (it : iterator) : Prop :=
  line it = 1 + newlines (take (current it) (source it)).

Lemma token_step_line it it' :
  (current it <= size it)%nat -> line_ok it -> token_step it it' -> line_ok it'.
Proof.
  unfold line_ok, size. intros Hb Hl (gap & tok & Hs & Ht & Hst & Hcu & Hli & _).
  rewrite Hs in *. rewrite Hli, Hl, <- Z.add_assoc, <- newlines_app. do 2 f_equal.
  rewrite app_assoc in Ht.
  assert (Hle : length (take (current it) (source it)) = current it)
    by (rewrite length_take; lia).
  rewrite <- (take_drop (current it) (source it)) at 2. rewrite Ht.
  rewrite take_app_ge, Hle by lia.
  replace (current it' - current it)%nat with (length (gap ++ tok)) by (rewrite length_app; lia).
  by rewrite take_app_length.
Qed.
