(* ===== verification/LexerProps.v ===== *)
(** * What the lexer promises

    The theorems about the token iterator, on the grammar of LexerFacts.v. *)

From S2P Require Import Prelude Token Lexer LexerFacts.
Import Lexer TokenType.

Lemma tokenize_stream src :
  exists it its, cbegin src = Ret it /\ tokenize src = Ret its /\ token_stream it its /\
    Forall line_ok its.
Proof.
  set (it0 := new_iterator src 0 0 1).
  assert (Hb0 : (current it0 <= size it0)%nat) by (cbn; lia).
  destruct (next_steps it0 Hb0) as (it & Hn & Hs). exists it.
  pose proof (token_step_bound _ _ Hb0 Hs) as Hb.
  pose proof (token_step_rem _ _ Hb0 Hs) as Hr.
  destruct (tokens_from_stream (length src) it Hb) as (its & Ht & Hst).
  { unfold remaining, size in Hr. cbn in Hr. lia. }
  assert (Hl : line_ok it) by (by eapply token_step_line; [exact Hb0| |exact Hs]).
  exists its. unfold tokenize, cbegin. fold it0. rewrite Hn. cbn [mbind outcome_bind].
  split_and!; try done. clear Ht Hn Hs Hr.
  induction Hst as [it He|it it' rest He Hn Hs Hst IH].
  - by repeat constructor.
  - constructor; [done|]. apply IH; [by eapply token_step_bound|by eapply token_step_line].
Qed.

(** C8. Advancing the token iterator always ends and consumes exactly the next token of the lexical
    grammar: white space and comments are skipped, the longest token is taken with its kind, error
    code and text, no character is lost, and the line advances by the newlines consumed. *)
Theorem next_reads_one_token (it : iterator) :
  (current it <= size it)%nat -> exists it', next it = Ret it' /\ token_step it it'.
Proof. apply next_steps. Qed.

Lemma next_reads_one_token_witness :
  exists it', next (new_iterator (String.list_ascii_of_string "  // c
 >=1") 0 0 1) = Ret it' /\ token_step (new_iterator (String.list_ascii_of_string "  // c
 >=1") 0 0 1) it'.
Proof. apply next_reads_one_token. cbn. lia. Defined.

(** C14. Lexing a whole text always ends, for any text: it gives the tokens one after the other up
    to the end of the text, every one as the grammar says, and every token's line is one more than
    the number of newlines before its end. *)
Theorem tokenize_total (src : list ascii) :
  exists it its, cbegin src = Ret it /\ tokenize src = Ret its /\ token_stream it its /\
    Forall (fun it => line it = 1 + newlines (take (current it) (source it))) its.
Proof. apply tokenize_stream. Qed.

(** C26. The hand-written keyword trie gives an identifier the kind the table of reserved words
    gives its text. *)
Theorem keyword_trie_is_the_table (it : iterator) :
  (current it <= size it)%nat ->
  get_identifier_type it = keyword_type (String.string_of_list_ascii (lexeme_chars it)).
Proof. apply get_identifier_type_spec. Qed.

Lemma keyword_trie_is_the_table_witness :
  get_identifier_type (set_current 8 (new_iterator (String.list_ascii_of_string "continue") 0 0 1)) =
  keyword_type (String.string_of_list_ascii
    (lexeme_chars (set_current 8 (new_iterator (String.list_ascii_of_string "continue") 0 0 1)))).
Proof. apply keyword_trie_is_the_table. cbn. lia. Defined.
