(* ===== verification/Double.v ===== *)
(** * Double-precision numbers

    The [double] of the program, as the binary64 format of the Standard
    Library's executable IEEE-754 specification (53 bits of precision, maximal
    exponent 1024, round to nearest even).  NaN has no payload. *)

From S2P Require Import Prelude.
From Stdlib Require Export SpecFloat.

Abbreviation double := spec_float.

Module Double.

Definition prec : Z := 53.
Definition emax : Z := 1024.

(** [static_cast<double>(n)] *)
Definition of_Z (n : Z) : double := binary_normalize prec emax n 0 false.

Definition add : double -> double -> double := SFadd prec emax.
Definition sub : double -> double -> double := SFsub prec emax.
Definition mul : double -> double -> double := SFmul prec emax.
Definition div : double -> double -> double := SFdiv prec emax.
Definition opp : double -> double := SFopp.
(** [fabs] *)
Definition abs : double -> double := SFabs.
Definition eqb : double -> double -> bool := SFeqb.
Definition ltb : double -> double -> bool := SFltb.

Definition is_nan (d : double) : bool :=
  match d with S754_nan => true | _ => false end.
Definition is_inf (d : double) : bool :=
  match d with S754_infinity _ => true | _ => false end.
Definition is_zero (d : double) : bool :=
  match d with S754_zero _ => true | _ => false end.

(** The integer part of a finite number (rounding towards zero). *)
Definition trunc (d : double) : option Z :=
  match d with
  | S754_zero _ => Some 0
  | S754_finite s m e =>
      let a := if 0 <=? e then Z.shiftl (Zpos m) e else Z.shiftr (Zpos m) (- e) in
      Some (if s then - a else a)
  | _ => None
  end.

(** [static_cast<int64_t>(d)] and [static_cast<size_t>(d)]: undefined when the
    integer part does not fit. *)
Definition to_int64 (d : double) : outcome Z :=
  match trunc d with
  | Some z => if decide (is_i64 z) then Ret z else Undef "double out of range of int64_t"
  | None => Undef "double out of range of int64_t"
  end.

Definition to_size_t (d : double) : outcome Z :=
  match trunc d with
  | Some z => if decide (is_u64 z) then Ret z else Undef "double out of range of size_t"
  | None => Undef "double out of range of size_t"
  end.

(** The 64 bits of a number ([memcpy] to [uint64_t]): sign, biased exponent,
    mantissa.  The NaN is the quiet one. *)
Definition to_bits (d : double) : Z :=
  let sign (s : bool) := if s then 2 ^ 63 else 0 in
  match d with
  | S754_zero s => sign s
  | S754_infinity s => sign s + 2047 * 2 ^ 52
  | S754_nan => 2047 * 2 ^ 52 + 2 ^ 51
  | S754_finite s m e =>
      if Zpos m <? 2 ^ 52 then sign s + Zpos m
      else sign s + (e + 1075) * 2 ^ 52 + (Zpos m - 2 ^ 52)
  end.

End Double.
