(* ===== verification/HashMap.v ===== *)
(** * The hash table (include/hashmap.hpp)

    [HashMap<Key, Value, Hash, KeyEqual>]: open addressing with tombstones.
    One definition per member function; the operations on references
    ([get_ref], [operator[]]) return the index of the slot they refer to. *)

From S2P Require Import Prelude Double.

(** ** The template's parameters *)

(** What the table needs of its [Key] and [Value] types: the equality and the hash
    functors, default construction and the size of a slot in bytes. *)
Class HashKey (K V : Type) := {
  key_equal : K -> K -> bool;
  hasher : K -> Z;
  default_key : K;
  default_value : V;
  sizeof_slot : Z
}.

Module HashMap.

Inductive slot_state : Set := FILLED | EMPTY | TOMBSTONE.

#[global] Instance slot_state_eq_dec : EqDecision slot_state.
Proof. solve_decision. Defined.

Record slot {K V : Type} : Type := mkSlot { key : K; value : V; state : slot_state }.
Arguments slot : clear implicits.

Record table {K V : Type} : Type := mkTable {
  size_ : Z;
  tombstones_ : Z;
  slots : list (slot K V)
}.
Arguments table : clear implicits.

(** DEFAULT_MAX_LOAD_FACTOR (0.65), DEFAULT_GROWTH_FACTOR (2.0), MIN_TABLE_SIZE; the
    program never changes the factors. *)
Definition max_load_factor : double := S754_finite false 5854679515581645 (-53).
Definition growth_factor : double := S754_finite false 4503599627370496 (-51).
Definition MIN_TABLE_SIZE : Z := 128.

Section operations.
Context {K V : Type} `{HashKey K V}.

(** [Slot()] *)
Definition new_slot : slot K V := mkSlot _ _ default_key default_value EMPTY.

(** [HashMap()] *)
Definition empty : table K V := mkTable _ _ 0 0 [].

(** ** Probing *)

(** The loop of [find_slot].  [fuel] is the number of slots: a loop that has seen
    every slot and found no reason to stop runs forever. *)
Fixpoint probe (fuel : nat) (ss : list (slot K V)) (k : K) (index : nat)
    (tombstone : option nat) : outcome nat :=
  match fuel with
  | O => OutOfFuel
  | S fuel =>
      s ← or_undef "slot index out of range" (ss !! index);
      if key_equal (key s) k then Ret index
      else match state s with
           | EMPTY => Ret (default index tombstone)
           | TOMBSTONE => probe fuel ss k (S index mod length ss)%nat (Some index)
           | FILLED => probe fuel ss k (S index mod length ss)%nat tombstone
           end
  end.

Definition home (ss : list (slot K V)) (k : K) : nat :=
  Z.to_nat (u64 (hasher k) mod Z.of_nat (length ss)).

Definition find_slot (ss : list (slot K V)) (k : K) : outcome nat :=
  match ss with
  | [] => Undef "hash modulo 0"
  | _ => probe (length ss) ss k (home ss k) None
  end.

(** ** Growing *)

Definition load_limit (n : Z) : outcome Z :=
  Double.to_size_t (Double.mul (Double.of_Z n) max_load_factor).

Definition new_capacity (n : Z) : outcome Z :=
  c ← Double.to_size_t (Double.mul growth_factor (Double.of_Z n));
  Ret (Z.max c MIN_TABLE_SIZE).

(** [std::vector<Slot> new_slots(n)] *)
Definition too_large : string := "cannot create std::vector larger than max_size()".

Definition new_slots (n : Z) : outcome (list (slot K V)) :=
  if (2 ^ 63 - 1) / sizeof_slot <? n
  then Throw too_large
  else Ret (replicate (Z.to_nat n) new_slot).

(** One iteration of the rehashing loop. *)
Definition rehash_slot (acc : list (slot K V)) (s : slot K V) : outcome (list (slot K V)) :=
  match state s with
  | FILLED => i ← find_slot acc (key s); Ret (<[i := s]> acc)
  | _ => Ret acc
  end.

Fixpoint rehash (acc : list (slot K V)) (old : list (slot K V)) : outcome (list (slot K V)) :=
  match old with
  | [] => Ret acc
  | s :: old => acc ← rehash_slot acc s; rehash acc old
  end.

Definition grow (t : table K V) : outcome (table K V) :=
  limit ← load_limit (Z.of_nat (length (slots t)));
  if limit <? size_ t + 1 + tombstones_ t then
    c ← new_capacity (Z.of_nat (length (slots t)));
    fresh ← new_slots c;
    ss ← rehash fresh (slots t);
    Ret (mkTable _ _ (size_ t) 0 ss)
  else Ret t.

(** ** Operations *)

(** Storing in the slot [find_slot] returned; the flag says a new key was added. *)
Definition store (t : table K V) (i : nat) (k : K) (v : V) : outcome (bool * table K V) :=
  s ← or_undef "slot index out of range" (slots t !! i);
  match state s with
  | EMPTY =>
      Ret (true, mkTable _ _ (size_ t + 1) (tombstones_ t) (<[i := mkSlot _ _ k v FILLED]> (slots t)))
  | TOMBSTONE =>
      Ret (true, mkTable _ _ (size_ t + 1) (tombstones_ t - 1) (<[i := mkSlot _ _ k v FILLED]> (slots t)))
  | FILLED =>
      Ret (false, mkTable _ _ (size_ t) (tombstones_ t) (<[i := mkSlot _ _ (key s) v FILLED]> (slots t)))
  end.

(** [insert_slot(key, value)]: also returns the slot. *)
Definition insert_slot (t : table K V) (k : K) (v : V) : outcome (nat * table K V) :=
  t ← grow t;
  i ← find_slot (slots t) k;
  '(_, t) ← store t i k v;
  Ret (i, t).

(** [insert(key, value)] *)
Definition insert (t : table K V) (k : K) (v : V) : outcome (bool * table K V) :=
  t ← grow t;
  i ← find_slot (slots t) k;
  store t i k v.

(** [get(key)] *)
Definition get (t : table K V) (k : K) : outcome (option V) :=
  if size_ t =? 0 then Ret None
  else
    i ← find_slot (slots t) k;
    s ← or_undef "slot index out of range" (slots t !! i);
    Ret (if decide (state s = FILLED) then Some (value s) else None).

(** [get_ref(key)] and [operator[](key)]: the slot of [key], created if absent. *)
Definition get_ref (t : table K V) (k : K) : outcome (nat * table K V) :=
  if size_ t =? 0 then insert_slot t k default_value
  else
    i ← find_slot (slots t) k;
    s ← or_undef "slot index out of range" (slots t !! i);
    if decide (state s = FILLED) then Ret (i, t) else insert_slot t k default_value.

(** [table[key] = value] *)
Definition assign (t : table K V) (k : K) (v : V) : outcome (table K V) :=
  '(i, t) ← get_ref t k;
  s ← or_undef "slot index out of range" (slots t !! i);
  Ret (mkTable _ _ (size_ t) (tombstones_ t)
         (<[i := mkSlot _ _ (key s) v (state s)]> (slots t))).

(** [contains(key)] *)
Definition contains (t : table K V) (k : K) : outcome bool :=
  if size_ t =? 0 then Ret false
  else
    i ← find_slot (slots t) k;
    s ← or_undef "slot index out of range" (slots t !! i);
    Ret (bool_decide (state s = FILLED)).

(** [erase(key)] *)
Definition erase (t : table K V) (k : K) : outcome (bool * table K V) :=
  if size_ t =? 0 then Ret (false, t)
  else
    i ← find_slot (slots t) k;
    s ← or_undef "slot index out of range" (slots t !! i);
    if decide (state s = FILLED) then
      Ret (true, mkTable _ _ (size_ t - 1) (tombstones_ t + 1)
                   (<[i := mkSlot _ _ default_key default_value TOMBSTONE]> (slots t)))
    else Ret (false, t).

(** [size()] *)
Definition size (t : table K V) : Z := size_ t.

(** [clear()] *)
Definition clear (t : table K V) : table K V := mkTable _ _ 0 0 [].

(** The FILLED slots in table order, what the loops over [get_slots()] visit. *)
Definition entries (t : table K V) : list (K * V) :=
  (fun s => (key s, value s)) <$> filter (fun s => state s = FILLED) (slots t).

End operations.
End HashMap.
