(* ===== verification/HashMapFacts.v ===== *)
(** * The hash table implements finite maps

    [HashMapLaws] states what the key type owes the table; under it the table
    refines stdpp's [gmap]: the invariant [wf], the probe sequence, and one
    specification per operation against the abstract map. *)

From S2P Require Import Prelude Double HashMap.
Import HashMap.

(** What a key type owes the table, on its [valid] keys. *)
Class HashKeyLaws (K V : Type) `{HashKey K V} (valid : K -> Prop) := {
  key_equal_spec : forall a b, valid a -> valid b -> key_equal a b = true <-> a = b;
  default_key_not_valid : forall k, valid k -> key_equal default_key k = false;
  sizeof_slot_large : 8 <= sizeof_slot
}.

(** ** Load limits of the capacities the table can have *)

Definition capacity (e : nat) : Z := 128 * 2 ^ Z.of_nat e.
Definition limit (e : nat) : Z :=
  match load_limit (capacity e) with Ret l => l | _ => 0 end.

Lemma capacities_ok :
  Forall (fun e => load_limit (capacity e) = Ret (limit e) /\
                   new_capacity (capacity e) = Ret (capacity (S e)) /\
                   0 < limit e < capacity e /\ limit e + 1 <= limit (S e)) (seq 0 54).
Proof. by_compute. Qed.

Lemma capacity_facts e :
  (e < 54)%nat ->
  load_limit (capacity e) = Ret (limit e) /\
  new_capacity (capacity e) = Ret (capacity (S e)) /\
  0 < limit e < capacity e /\ limit e + 1 <= limit (S e).
Proof.
  intros He. apply (proj1 (Forall_forall _ _) capacities_ok). apply elem_of_seq. lia.
Qed.

Section facts.
Context {K V : Type} `{HK : HashKey K V} (valid : K -> Prop) {HL : HashKeyLaws K V valid}.

Implicit Types (ss : list (slot K V)) (s : slot K V) (t : table K V) (k : K) (v : V).

Lemma key_equal_refl k : valid k -> key_equal k k = true.
Proof using HL. intros Hk. by apply key_equal_spec. Qed.

Lemma default_key_ne k : valid k -> default_key <> k.
Proof using HL.
  intros Hk <-. pose proof (default_key_not_valid _ Hk) as E. by rewrite key_equal_refl in E.
Qed.

(** ** Counting slots *)

Definition indicator (st : slot_state) s : Z := if decide (state s = st) then 1 else 0.

Ltac count_slots := unfold indicator; repeat case_decide; cbn in *; try congruence; lia.

Fixpoint count (st : slot_state) ss : Z :=
  match ss with [] => 0 | s :: ss => indicator st s + count st ss end.

Lemma count_bounds st ss : 0 <= count st ss <= Z.of_nat (length ss).
Proof. induction ss; cbn; [lia|]. count_slots. Qed.

Lemma count_insert st ss i s s' :
  ss !! i = Some s ->
  count st (<[i := s']> ss) = count st ss - indicator st s + indicator st s'.
Proof.
  revert i; induction ss as [|a ss IH]; intros [|i] Hi; simplify_eq/=; [lia|].
  change (<[S i:=s']> (a :: ss)) with (a :: <[i:=s']> ss). cbn [count].
  rewrite (IH i Hi). lia.
Qed.

Lemma count_total ss :
  count FILLED ss + count TOMBSTONE ss + count EMPTY ss = Z.of_nat (length ss).
Proof.
  induction ss as [|s ss IH]; [done|]. cbn [count length]. unfold indicator.
  destruct (state s); repeat case_decide; try done; lia.
Qed.

Lemma count_pos st ss : 0 < count st ss -> exists i s, ss !! i = Some s /\ state s = st.
Proof.
  induction ss as [|a ss IH]; cbn; [lia|]. unfold indicator. case_decide as Ha.
  - intros _. by exists 0%nat, a.
  - intros (i & s & ? & ?)%IH. by exists (S i), s.
Qed.

Lemma count_zero st ss i s : count st ss = 0 -> ss !! i = Some s -> state s <> st.
Proof.
  revert i; induction ss as [|a ss IH]; intros i Hc Hi Hs; [done|].
  pose proof (count_bounds st ss). cbn in Hc. unfold indicator in Hc.
  destruct i as [|i]; cbn in Hi; simplify_eq; case_decide; try lia; try done.
  eapply (IH i); [lia|done|done].
Qed.

Lemma count_replicate st n s : count st (replicate n s) = Z.of_nat n * indicator st s.
Proof. induction n as [|n IH]; cbn [count replicate]; lia. Qed.

(** ** Probe sequences *)

Definition pos (n h d : nat) : nat := ((h + d) mod n)%nat.

Lemma pos_lt n h d : (0 < n)%nat -> (pos n h d < n)%nat.
Proof. intros. apply Nat.mod_upper_bound. lia. Qed.

Lemma pos_next n h d : (0 < n)%nat -> (S (pos n h d) mod n)%nat = pos n h (S d).
Proof.
  intros. unfold pos. rewrite <-Nat.add_1_r, Nat.Div0.add_mod_idemp_l. f_equal. lia.
Qed.

Lemma pos_cover n h i : (h < n)%nat -> (i < n)%nat -> exists d, (d < n)%nat /\ pos n h d = i.
Proof.
  intros Hh Hi. destruct (decide (h <= i)%nat) as [Hle|Hgt].
  - exists (i - h)%nat. split; [lia|]. unfold pos. rewrite Nat.mod_small; lia.
  - exists (i + n - h)%nat. split; [lia|]. unfold pos.
    replace (h + (i + n - h))%nat with (i + 1 * n)%nat by lia.
    rewrite Nat.Div0.mod_add. by apply Nat.mod_small.
Qed.

Lemma home_lt ss k : (0 < length ss)%nat -> (home ss k < length ss)%nat.
Proof.
  intros. unfold home.
  pose proof (Z.mod_pos_bound (u64 (hasher k)) (Z.of_nat (length ss))). lia.
Qed.

(** The slot [d] steps along the probe sequence of [k]. *)
Definition at_probe ss k (d : nat) : option (slot K V) :=
  ss !! pos (length ss) (home ss k) d.

(** The [d] slots before it neither stop the search nor hold the key. *)
Definition passes ss k (d : nat) : Prop :=
  forall d', (d' < d)%nat -> exists s, at_probe ss k d' = Some s /\ state s <> EMPTY /\ key s <> k.

(** ** The slot array's invariant *)

Record wf_slots ss : Prop := {
  unfilled_default : forall i s, ss !! i = Some s -> state s <> FILLED -> key s = default_key;
  filled_reachable : forall i s, ss !! i = Some s -> state s = FILLED ->
    valid (key s) /\ exists d, (d < length ss)%nat /\
      i = pos (length ss) (home ss (key s)) d /\ passes ss (key s) d
}.

Definition filled ss k v : Prop := exists i, ss !! i = Some (mkSlot _ _ k v FILLED).

(** The results of a search. *)
Inductive found_at ss k : nat -> Prop :=
  | found_key i s : ss !! i = Some s -> state s = FILLED -> key s = k -> found_at ss k i
  | found_free i s d d0 :
      ss !! i = Some s -> state s <> FILLED -> i = pos (length ss) (home ss k) d ->
      (d <= d0 < length ss)%nat -> passes ss k d0 ->
      (exists s0, at_probe ss k d0 = Some s0 /\ state s0 = EMPTY) -> found_at ss k i.

(** The tombstone the loop carries is one it passed. *)
Definition carried ss k (d : nat) (tomb : option nat) : Prop :=
  match tomb with
  | None => True
  | Some i => exists d' s, (d' < d)%nat /\ i = pos (length ss) (home ss k) d' /\
                ss !! i = Some s /\ state s = TOMBSTONE
  end.

Lemma slot_key_equal ss k i s :
  wf_slots ss -> valid k -> ss !! i = Some s ->
  key_equal (key s) k = true <-> state s = FILLED /\ key s = k.
Proof using HL.
  intros Hwf Hk Hi. destruct (decide (state s = FILLED)) as [Hf|Hf].
  - destruct (filled_reachable _ Hwf i s Hi Hf) as [Hv _].
    rewrite key_equal_spec by done. by split; [|intros []].
  - rewrite (unfilled_default _ Hwf i s Hi Hf), default_key_not_valid by done. by split; [|intros []].
Qed.

Lemma probe_spec ss k :
  wf_slots ss -> valid k -> (0 < length ss)%nat ->
  forall fuel d e tomb, (d + fuel = length ss)%nat -> (d <= e < length ss)%nat ->
  (exists s, at_probe ss k e = Some s /\ state s = EMPTY) ->
  passes ss k d -> carried ss k d tomb ->
  exists i, probe fuel ss k (pos (length ss) (home ss k) d) tomb = Ret i /\ found_at ss k i.
Proof using HL.
  intros Hwf Hk Hlen. induction fuel as [|fuel IH]; intros d e tomb Hd He Hempty Hpass Hcar; [lia|].
  cbn [probe]. destruct (lookup_lt_is_Some_2 ss (pos (length ss) (home ss k) d)) as [s Hs];
    [by apply pos_lt|].
  rewrite Hs; cbn [or_undef mbind outcome_bind].
  pose proof (slot_key_equal ss k _ s Hwf Hk Hs) as Heq.
  destruct (key_equal (key s) k) eqn:Ek.
  - destruct (proj1 Heq eq_refl). eexists; split; [done|]. by eapply found_key.
  - assert (Hne : state s <> EMPTY -> (d < e)%nat /\ passes ss k (S d)).
    { intros Hs'. split.
      - destruct (decide (d = e)) as [->|]; [|lia]. destruct Hempty as (s' & Hs1 & ?).
        unfold at_probe in Hs1. simplify_eq.
      - intros d' Hd'. destruct (decide (d' = d)) as [->|]; [|by apply Hpass; lia].
        exists s. split_and!; [done|done|]. intros Hkey.
        assert (state s = FILLED -> False) by (intros; cut (false = true); [done|]; by apply Heq).
        pose proof (unfilled_default _ Hwf _ _ Hs ltac:(done)) as Hdef.
        by apply (default_key_ne k); congruence. }
    rewrite pos_next by done.
    destruct (state s) eqn:Est.
    + destruct (Hne ltac:(done)). apply (IH (S d) e); eauto; try lia.
      destruct tomb; [|done]. destruct Hcar as (d' & s' & ? & ? & ? & ?).
      exists d', s'. split_and!; eauto.
    + destruct tomb as [i|]; cbn; (eexists; split; [done|]).
      * destruct Hcar as (d' & s' & ? & ? & ? & ?).
        eapply (found_free _ _ _ s' d' d); eauto; [congruence|lia].
      * eapply (found_free _ _ _ s d d); eauto; [congruence|lia].
    + destruct (Hne ltac:(done)). apply (IH (S d) e); eauto; try lia.
      exists d, s. split_and!; eauto.
Qed.

(** A search in a table with a free slot ends, at the key's slot or at a slot to fill. *)
Lemma find_slot_spec ss k :
  wf_slots ss -> valid k -> 0 < count EMPTY ss ->
  exists i, find_slot ss k = Ret i /\ found_at ss k i.
Proof using HL.
  intros Hwf Hk Hc. destruct (count_pos _ _ Hc) as (j & s & Hj & Hs).
  pose proof (lookup_lt_Some _ _ _ Hj) as Hlt.
  assert (Hlen : (0 < length ss)%nat) by lia.
  destruct (pos_cover (length ss) (home ss k) j) as (e & He & Hej); [by apply home_lt|done|].
  replace (find_slot ss k) with (probe (length ss) ss k (home ss k) None) by by destruct ss.
  pose proof (home_lt ss k Hlen) as Hh.
  destruct (probe_spec ss k Hwf Hk Hlen (length ss) 0%nat e None) as (i & Hi & Hf);
    [lia|lia| |by intros d' ?; lia|done|].
  - exists s. unfold at_probe. by rewrite Hej.
  - exists i. split; [|done]. rewrite <-Hi. f_equal.
    unfold pos. rewrite Nat.add_0_r. symmetry. by apply Nat.mod_small.
Qed.

Lemma filled_unique ss k v v' :
  wf_slots ss -> filled ss k v -> filled ss k v' -> v = v'.
Proof.
  intros Hwf [i Hi] [j Hj].
  destruct (filled_reachable _ Hwf i _ Hi eq_refl) as (_ & d & _ & Hd & Hp).
  destruct (filled_reachable _ Hwf j _ Hj eq_refl) as (_ & d' & _ & Hd' & Hp').
  cbn in *. destruct (Nat.lt_trichotomy d d') as [Hlt|[->|Hlt]].
  - destruct (Hp' d Hlt) as (s & Hs & _ & Hne). unfold at_probe in Hs. by simplify_eq.
  - by simplify_eq.
  - destruct (Hp d' Hlt) as (s & Hs & _ & Hne). unfold at_probe in Hs. by simplify_eq.
Qed.

Lemma slot_unique ss i j s s' :
  wf_slots ss -> ss !! i = Some s -> ss !! j = Some s' ->
  state s = FILLED -> state s' = FILLED -> key s = key s' -> i = j.
Proof.
  intros Hwf Hi Hj Hs Hs' Hk.
  destruct (filled_reachable _ Hwf i _ Hi Hs) as (_ & d & _ & Hd & Hp).
  destruct (filled_reachable _ Hwf j _ Hj Hs') as (_ & d' & _ & Hd' & Hp').
  rewrite Hk in *. destruct (Nat.lt_trichotomy d d') as [Hlt|[->|Hlt]]; [|congruence|].
  - destruct (Hp' d Hlt) as (s0 & Hs0 & _ & Hne). unfold at_probe in Hs0. by simplify_eq.
  - destruct (Hp d' Hlt) as (s0 & Hs0 & _ & Hne). unfold at_probe in Hs0. by simplify_eq.
Qed.

(** A search that stops at a free slot shows the key is not there. *)
Lemma free_absent ss k i s v :
  wf_slots ss -> found_at ss k i -> ss !! i = Some s -> state s <> FILLED -> ~ filled ss k v.
Proof.
  intros Hwf Hf Hi Hs [j Hj]. destruct Hf as [i s1 ???|i s1 d d0 ???? Hpass (s0 & Hs0 & He)];
    [by simplify_eq|].
  destruct (filled_reachable _ Hwf j _ Hj eq_refl) as (_ & d1 & _ & Hd1 & Hp). cbn in *.
  destruct (Nat.lt_trichotomy d1 d0) as [Hlt|[->|Hlt]].
  - destruct (Hpass d1 Hlt) as (s2 & Hs2 & _ & Hne). unfold at_probe in Hs2. by simplify_eq.
  - unfold at_probe in Hs0. by simplify_eq.
  - destruct (Hp d0 Hlt) as (s2 & Hs2 & Hne & _). unfold at_probe in *. by simplify_eq.
Qed.

(** ** Replacing one slot *)

Lemma pos_inj n h d d' : (d < n)%nat -> (d' < n)%nat -> pos n h d = pos n h d' -> d = d'.
Proof.
  unfold pos. intros Hd Hd' Heq.
  pose proof (Nat.div_mod_eq (h + d) n). pose proof (Nat.div_mod_eq (h + d') n).
  destruct (Nat.lt_trichotomy ((h + d) / n) ((h + d') / n)) as [|[E|]]; [nia| |nia].
  rewrite E in *. lia.
Qed.

Lemma home_insert ss i s k : home (<[i := s]> ss) k = home ss k.
Proof. unfold home. by rewrite length_insert. Qed.

Lemma passes_insert ss k d i s' :
  passes ss k d -> state s' <> EMPTY ->
  (key s' = k -> forall d', (d' < d)%nat -> pos (length ss) (home ss k) d' <> i) ->
  passes (<[i := s']> ss) k d.
Proof.
  intros Hp Hs' Hk d' Hd'. destruct (Hp d' Hd') as (s & Hs & He & Hne).
  unfold at_probe in *. rewrite home_insert, length_insert.
  destruct (decide (pos (length ss) (home ss k) d' = i)) as [<-|Hi].
  - exists s'. rewrite list_lookup_insert_eq by (by eapply lookup_lt_Some).
    split_and!; [done|done|]. intros E. by apply (Hk E d').
  - exists s. by rewrite list_lookup_insert_ne.
Qed.

Lemma replace_wf ss i s s' :
  wf_slots ss -> ss !! i = Some s -> state s' <> EMPTY ->
  (state s' <> FILLED -> key s' = default_key) ->
  (forall j sj, j <> i -> ss !! j = Some sj -> state sj = FILLED -> key s' <> key sj) ->
  (state s' = FILLED -> valid (key s') /\ exists d, (d < length ss)%nat /\
     i = pos (length ss) (home ss (key s')) d /\ passes ss (key s') d) ->
  wf_slots (<[i := s']> ss).
Proof.
  intros Hwf Hi He Hdef Hfresh Hnew. constructor.
  - intros j sj [(-> & -> & _)|[Hj Hsj]]%list_lookup_insert_Some Hf; [auto|].
    by eapply unfilled_default.
  - intros j sj Hj Hf. rewrite home_insert, length_insert.
    apply list_lookup_insert_Some in Hj as [(-> & -> & Hlt)|[Hj Hsj]].
    + destruct (Hnew Hf) as (Hv & d & Hd & Hpos & Hp). split; [done|].
      exists d. split_and!; [done|done|]. apply passes_insert; [done|done|].
      intros _ d' Hd' Heq. cut (d' = d); [lia|].
      eapply (pos_inj (length ss)); [lia|done|]. by rewrite Heq.
    + destruct (filled_reachable _ Hwf j sj Hsj Hf) as (Hv & d & Hd & Hpos & Hp).
      split; [done|]. exists d. split_and!; [done|done|]. apply passes_insert; [done|done|].
      intros E. by destruct (Hfresh j sj (not_eq_sym Hj) Hsj Hf).
Qed.

Lemma filled_insert ss i s s' k v :
  ss !! i = Some s ->
  filled (<[i := s']> ss) k v <->
  s' = mkSlot _ _ k v FILLED \/ exists j, j <> i /\ ss !! j = Some (mkSlot _ _ k v FILLED).
Proof.
  intros Hi. pose proof (lookup_lt_Some _ _ _ Hi). split.
  - intros [j [(-> & -> & _)|[Hj Hsj]]%list_lookup_insert_Some]; eauto.
  - intros [->|(j & Hj & Hsj)].
    + exists i. by apply list_lookup_insert_eq.
    + exists j. by rewrite list_lookup_insert_ne.
Qed.

Lemma fill_free_wf ss k i s v :
  wf_slots ss -> valid k -> found_at ss k i -> ss !! i = Some s -> state s <> FILLED ->
  wf_slots (<[i := mkSlot _ _ k v FILLED]> ss).
Proof.
  intros Hwf Hk Hf Hi Hs. eapply replace_wf; eauto; try (by intros []).
  - intros j [k' v' st] _ Hj Hst. cbn in *. intros ->. subst.
    eapply (free_absent ss); eauto. by exists j.
  - intros _. split; [done|]. destruct Hf as [|i s1 d d0 ??? Hd Hp _]; [by simplify_eq|].
    exists d. split_and!; [lia|done|]. intros d' ?. apply Hp. lia.
Qed.

Lemma update_filled_wf ss i s v :
  wf_slots ss -> ss !! i = Some s -> state s = FILLED ->
  wf_slots (<[i := mkSlot _ _ (key s) v FILLED]> ss).
Proof.
  intros Hwf Hi Hs. eapply replace_wf; eauto; try (by intros []).
  - intros j sj Hj Hsj Hst E. cbn in E. destruct Hj. symmetry.
    eapply (slot_unique ss i j s sj); eauto.
  - intros _. exact (filled_reachable _ Hwf i s Hi Hs).
Qed.

Lemma bury_wf ss i s v :
  wf_slots ss -> ss !! i = Some s -> wf_slots (<[i := mkSlot _ _ default_key v TOMBSTONE]> ss).
Proof using HL.
  intros Hwf Hi. eapply replace_wf; eauto; try done.
  intros j sj Hj Hsj Hst. cbn. apply default_key_ne. by destruct (filled_reachable _ Hwf j sj Hsj Hst).
Qed.

(** ** Rehashing *)

Definition distinct ss : Prop := forall i j s s', ss !! i = Some s -> ss !! j = Some s' ->
  state s = FILLED -> state s' = FILLED -> key s = key s' -> i = j.

Lemma distinct_tail s ss : distinct (s :: ss) -> distinct ss.
Proof. intros Hd i j s1 s2 ?????. by apply Nat.succ_inj, (Hd (S i) (S j) s1 s2). Qed.

Lemma replicate_wf n : wf_slots (replicate n new_slot).
Proof. constructor; intros i s [-> _]%lookup_replicate; done. Qed.

Lemma filled_cons s ss k v :
  filled (s :: ss) k v <-> s = mkSlot _ _ k v FILLED \/ filled ss k v.
Proof.
  split.
  - intros [[|i] Hi]; cbn in Hi; [naive_solver|]. right. by exists i.
  - intros [->|[i Hi]]; [by exists 0%nat|by exists (S i)].
Qed.

Lemma count_tombstone_free ss i s :
  count TOMBSTONE ss = 0 -> ss !! i = Some s -> state s <> FILLED -> state s = EMPTY.
Proof. intros Hc Hi Hs. pose proof (count_zero _ _ _ _ Hc Hi). by destruct (state s). Qed.

Lemma rehash_spec old : forall acc,
  wf_slots acc -> count TOMBSTONE acc = 0 ->
  count FILLED acc + count FILLED old < Z.of_nat (length acc) ->
  (forall i s, old !! i = Some s -> state s = FILLED ->
     valid (key s) /\ forall v, ~ filled acc (key s) v) ->
  distinct old ->
  exists ss, rehash acc old = Ret ss /\ wf_slots ss /\ length ss = length acc /\
    count FILLED ss = count FILLED acc + count FILLED old /\ count TOMBSTONE ss = 0 /\
    forall k v, filled ss k v <-> filled acc k v \/ filled old k v.
Proof using HL.
  induction old as [|s old IH]; intros acc Hwf Ht Hc Hnew Hd; cbn [rehash].
  { exists acc. cbn in *. split_and!; try done; [lia|].
    intros k v. split; [by left|]. by intros [|[i Hi]]. }
  cbn [count] in Hc. pose proof (count_bounds FILLED old). pose proof (count_total acc).
  unfold rehash_slot. cbn [count].
  destruct (decide (state s = FILLED)) as [Hs|Hs].
  - assert (indicator FILLED s = 1) by (unfold indicator; by rewrite decide_True).
    rewrite Hs. destruct (Hnew 0%nat s eq_refl Hs) as [Hv Habs].
    destruct (find_slot_spec acc (key s) Hwf Hv ltac:(lia)) as (i & -> & Hf).
    cbn [mbind outcome_bind].
    assert (exists si, acc !! i = Some si /\ state si <> FILLED) as (si & Hi & Hsi).
    { destruct Hf as [i si Hi Hst Hk|]; [|eauto]. exfalso. apply (Habs (value si)).
      exists i. rewrite Hi, <-Hk, <-Hst. by destruct si. }
    assert (Es : s = mkSlot _ _ (key s) (value s) FILLED) by (rewrite <-Hs; by destruct s).
    assert (Hcount : forall st, count st (<[i:=s]> acc) = count st acc - indicator st si + indicator st s)
      by (intros; by apply count_insert).
    assert (Hsi' : state si = EMPTY) by (by eapply count_tombstone_free).
    pose proof (Hcount FILLED) as HF. pose proof (Hcount TOMBSTONE) as HT.
    unfold indicator in HF, HT. rewrite Hsi', Hs in HF, HT.
    rewrite decide_False, decide_True in HF by done.
    rewrite !decide_False in HT by done.
    edestruct (IH (<[i:=s]> acc)) as (ss & -> & Hwf' & Hlen & HF' & HT' & Hfill);
      [| | | |by eapply distinct_tail|].
    + rewrite Es. by eapply fill_free_wf.
    + lia.
    + rewrite length_insert. lia.
    + intros j sj Hj Hsj. destruct (Hnew (S j) sj Hj Hsj) as [Hvj Habsj]. split; [done|].
      intros v. rewrite (filled_insert acc i si) by done. intros [E|(l & _ & Hl)].
      * subst s. by specialize (Hd 0%nat (S j) _ sj eq_refl Hj eq_refl Hsj eq_refl).
      * apply (Habsj v). by exists l.
    + exists ss. rewrite length_insert in Hlen. split_and!; try done; [lia|].
      intros k v. rewrite Hfill, filled_cons, (filled_insert acc i si) by done.
      split; [intros [[|(j & ? & ?)]|]; unfold filled; eauto|].
      intros [[j Hj]|[|]]; eauto. left. right. exists j. split; [|done].
      intros ->. by simplify_eq.
  - assert (indicator FILLED s = 0) by (unfold indicator; by rewrite decide_False).
    replace (match state s with FILLED => _ | _ => Ret acc end) with (Ret acc)
      by by destruct (state s).
    cbn [mbind outcome_bind].
    edestruct (IH acc) as (ss & -> & Hwf' & Hlen & HF' & HT' & Hfill);
      [done|done|lia| |by eapply distinct_tail|].
    + intros j sj. apply (Hnew (S j)).
    + exists ss. split_and!; try done; [lia|]. intros k v. rewrite Hfill, filled_cons.
      split; [tauto|]. intros [|[->|]]; tauto.
Qed.

(** ** The table's invariant *)

Record wf t : Prop := {
  wf_array : wf_slots (slots t);
  wf_capacity : slots t = [] \/ exists e, (e < 54)%nat /\
    Z.of_nat (length (slots t)) = capacity e /\ size_ t + tombstones_ t <= limit e;
  wf_size : size_ t = count FILLED (slots t);
  wf_tombstones : tombstones_ t = count TOMBSTONE (slots t)
}.

(** There is room for one more key. *)
Definition room t : Prop := exists e, (e < 54)%nat /\
  Z.of_nat (length (slots t)) = capacity e /\ size_ t + 1 + tombstones_ t <= limit e.

(** The next growth fits what [std::vector] can hold. *)
Definition can_grow t : Prop :=
  2 * Z.max 64 (Z.of_nat (length (slots t))) <= (2 ^ 63 - 1) / sizeof_slot.

Lemma room_empty_slot t : wf t -> room t -> 0 < count EMPTY (slots t).
Proof.
  intros Hwf (e & He & Hcap & Hroom). destruct (capacity_facts e He) as (_ & _ & ? & _).
  pose proof (count_total (slots t)). rewrite (wf_size _ Hwf), (wf_tombstones _ Hwf) in Hroom. lia.
Qed.

Lemma occupied_empty_slot t : wf t -> size_ t <> 0 -> 0 < count EMPTY (slots t).
Proof.
  intros Hwf Hs. destruct (wf_capacity _ Hwf) as [E|(e & He & Hcap & Hroom)].
  - rewrite (wf_size _ Hwf), E in Hs. done.
  - destruct (capacity_facts e He) as (_ & _ & ? & _).
    pose proof (count_total (slots t)). rewrite (wf_size _ Hwf), (wf_tombstones _ Hwf) in Hroom. lia.
Qed.

Lemma wf_distinct t : wf t -> distinct (slots t).
Proof. intros Hwf i j s s' ?????. eapply slot_unique; eauto. by apply wf_array. Qed.

(** Rehashing into a fresh array of capacity [e]. *)
Lemma rehash_table t e :
  wf t -> (e < 54)%nat -> size_ t + 1 <= limit e ->
  exists ss, rehash (replicate (Z.to_nat (capacity e)) new_slot) (slots t) = Ret ss /\
    let t' := mkTable _ _ (size_ t) 0 ss in
    wf t' /\ room t' /\ forall k v, filled ss k v <-> filled (slots t) k v.
Proof using HL.
  intros Hwf He Hl. destruct (capacity_facts e He) as (_ & _ & Hlim & _).
  rewrite (wf_size _ Hwf) in *.
  destruct (rehash_spec (slots t) (replicate (Z.to_nat (capacity e)) new_slot))
    as (ss & -> & Hss & Hlen & HF & HT & Hfill).
  - apply replicate_wf.
  - by rewrite count_replicate, Z.mul_0_r.
  - rewrite count_replicate, length_replicate, Z.mul_0_r. lia.
  - intros i s Hi Hs. split; [by apply (filled_reachable _ (wf_array _ Hwf) i s)|].
    intros v [j [? _]%lookup_replicate]. done.
  - by apply wf_distinct.
  - rewrite count_replicate, Z.mul_0_r in HF. rewrite length_replicate in Hlen.
    exists ss. split; [done|]. cbv zeta. split_and!.
    + constructor; cbn; [done| |lia|lia]. right. exists e. split_and!; [done| |]; lia.
    + exists e. cbn. split_and!; [done| |]; lia.
    + intros k v. rewrite Hfill. split; [|by right].
      intros [[i [? _]%lookup_replicate]|]; done.
Qed.

(** [grow] makes room and keeps the contents, or throws because the array would be too large. *)
Lemma grow_spec t :
  wf t ->
  (grow t = Throw too_large /\ ~ can_grow t) \/
  exists t', grow t = Ret t' /\ wf t' /\ room t' /\ size_ t' = size_ t /\
    forall k v, filled (slots t') k v <-> filled (slots t) k v.
Proof using HL.
  intros Hwf. unfold grow.
  assert (exists c, new_capacity (Z.of_nat (length (slots t))) = Ret c /\
    exists l, load_limit (Z.of_nat (length (slots t))) = Ret l /\
    c = 2 * Z.max 64 (Z.of_nat (length (slots t))) /\
    ((l < size_ t + 1 + tombstones_ t -> (c <= 2 ^ 60 -> exists e, (e < 54)%nat /\ c = capacity e /\ size_ t + 1 <= limit e)) /\
     (size_ t + 1 + tombstones_ t <= l -> room t))) as (c & -> & l & -> & Hc & Hgrow & Hroom).
  { pose proof (count_bounds TOMBSTONE (slots t)) as Ht. rewrite <-(wf_tombstones _ Hwf) in Ht.
    destruct (wf_capacity _ Hwf) as [E|(e & He & Hcap & Hl)].
    - pose proof (wf_size _ Hwf) as Hs. rewrite E in *. cbn in Hs, Ht |- *.
      exists 128. split; [by vm_compute|]. exists 0. split; [by vm_compute|]. split; [lia|]. split; [|lia].
      intros _ _. exists 0%nat. assert (limit 0 = 83) as -> by by vm_compute.
      split_and!; [lia|done|lia].
    - destruct (capacity_facts e He) as (Hlim & Hnew & Hb & Hnext). rewrite Hcap.
      exists (capacity (S e)). split; [done|]. exists (limit e). split; [done|].
      assert (capacity (S e) = 2 * capacity e) as E2
        by (unfold capacity; rewrite Nat2Z.inj_succ, Z.pow_succ_r; lia).
      assert (64 < capacity e) as E64
        by (unfold capacity; pose proof (Z.pow_pos_nonneg 2 (Z.of_nat e)); lia).
      split; [lia|]. split.
      + intros _ Hc. exists (S e). split_and!; [|done|lia].
        destruct (decide (S e < 54)%nat); [done|]. exfalso.
        assert (capacity 53 <= capacity e) as Hmono
          by (unfold capacity; apply Z.mul_le_mono_nonneg_l, Z.pow_le_mono_r; lia).
        assert (capacity 53 = 2 ^ 60) by by vm_compute. lia.
      + intros. exists e. split_and!; [done|done|lia]. }
  cbn [mbind outcome_bind]. case_match eqn:Ecmp; zbool.
  - unfold new_slots. pose proof sizeof_slot_large as Hsz.
    case_match eqn:Ethrow; zbool; cbn [mbind outcome_bind].
    + left. split; [done|]. unfold can_grow. lia.
    + right. destruct (Hgrow Ecmp) as (e & He & -> & Hle).
      { etrans; [done|]. etrans; [apply Z.div_le_compat_l; [|split; [|exact Hsz]]; lia|]. done. }
      destruct (rehash_table t e Hwf He Hle) as (ss & -> & Hwf' & Hr & Hfill).
      cbn [mbind outcome_bind]. by eexists.
  - right. exists t. split_and!; eauto.
Qed.

(** ** Storing, and the abstract map *)

Context `{Countable K}.

(** The table represents the map [m]. *)
Record repr t (m : gmap K V) : Prop := {
  repr_wf : wf t;
  repr_lookup : forall k v, m !! k = Some v <-> filled (slots t) k v
}.

Lemma repr_valid t m k v : repr t m -> m !! k = Some v -> valid k.
Proof.
  intros [Hwf Hm] Hk. apply Hm in Hk as [i Hi]. destruct Hwf as [Hs _ _ _].
  exact (proj1 (filled_reachable _ Hs i _ Hi eq_refl)).
Qed.

(** What a search tells of the abstract map. *)
Lemma found_lookup t m k i :
  repr t m -> found_at (slots t) k i ->
  exists s, slots t !! i = Some s /\
    m !! k = (if decide (state s = FILLED) then Some (value s) else None) /\
    (state s = FILLED -> key s = k).
Proof.
  intros [Hwf Hm] Hf. destruct Hf as [i s Hi Hs Hk|i s d d0 Hi Hs Hd Hle Hp He] eqn:E.
  - exists s. split_and!; [done| |done]. rewrite decide_True by done. apply Hm.
    exists i. rewrite Hi, <-Hs, <-Hk. by destruct s.
  - exists s. split_and!; [done| |done]. rewrite decide_False by done. apply eq_None_not_Some.
    intros [v Hv]. apply Hm in Hv. by eapply (free_absent (slots t)); [apply Hwf| | | |]; eauto.
Qed.

Lemma search_spec t m k :
  repr t m -> valid k -> 0 < count EMPTY (slots t) ->
  exists i s, find_slot (slots t) k = Ret i /\ found_at (slots t) k i /\ slots t !! i = Some s /\
    m !! k = (if decide (state s = FILLED) then Some (value s) else None) /\
    (state s = FILLED -> key s = k).
Proof using HL.
  intros Hr Hk Hc.
  destruct (find_slot_spec _ k (wf_array _ (repr_wf _ _ Hr)) Hk Hc) as (i & Hfind & Hf).
  destruct (found_lookup _ _ _ _ Hr Hf) as (s & ? & ? & ?). exists i, s. by split_and!.
Qed.

(** An empty table represents the empty map. *)
Lemma unoccupied_empty t m : repr t m -> size_ t = 0 -> m = ∅.
Proof.
  intros [Hwf Hm] Hs. apply map_empty. intros k. apply eq_None_not_Some.
  intros [v [i Hi]%Hm]. rewrite (wf_size _ Hwf) in Hs. by eapply (count_zero _ _ _ _ Hs Hi).
Qed.

Lemma wf_replace t ss i s s' :
  wf t -> slots t !! i = Some s -> ss = <[i := s']> (slots t) -> wf_slots ss -> forall sz tb,
  sz = size_ t - indicator FILLED s + indicator FILLED s' ->
  tb = tombstones_ t - indicator TOMBSTONE s + indicator TOMBSTONE s' ->
  (sz + tb <= size_ t + tombstones_ t \/ (sz + tb <= size_ t + tombstones_ t + 1 /\ room t)) ->
  wf (mkTable _ _ sz tb ss).
Proof.
  intros Hwf Hi -> Hss sz tb -> -> Hle. constructor; cbn; [done| | |].
  - right. rewrite length_insert. destruct Hle as [Hle|(Hle & e & He & Hcap & Hroom)].
    + destruct (wf_capacity _ Hwf) as [E|(e & He & Hcap & Hl)]; [by rewrite E in Hi|].
      exists e. split_and!; [done|done|lia].
    + exists e. split_and!; [done|done|lia].
  - by rewrite (count_insert _ _ i s), <-(wf_size _ Hwf).
  - by rewrite (count_insert _ _ i s), <-(wf_tombstones _ Hwf).
Qed.

Lemma repr_fill t m i s k v sz tb :
  repr t m -> found_at (slots t) k i -> slots t !! i = Some s -> valid k ->
  wf (mkTable _ _ sz tb (<[i := mkSlot _ _ k v FILLED]> (slots t))) ->
  repr (mkTable _ _ sz tb (<[i := mkSlot _ _ k v FILLED]> (slots t))) (<[k := v]> m).
Proof.
  intros Hr Hf Hi Hk Hwf'. constructor; [done|]. intros k' v'. cbn.
  rewrite (filled_insert _ _ s) by done.
  destruct (found_lookup _ _ _ _ Hr Hf) as (s1 & Hi1 & Hm & Hks). simplify_eq.
  destruct Hr as [Hwf Hmap]. rewrite lookup_insert_Some, Hmap. split.
  - intros [[<- <-]|[Hne [j Hj]]]; [by left|]. right. exists j. split; [|done].
    intros ->. simplify_eq. by specialize (Hks eq_refl).
  - intros [[= <- <-]|(j & Hji & Hj)]; [by left|]. right. split; [|by exists j].
    intros <-. destruct (decide (state s = FILLED)) as [Hs|Hs].
    + apply Hji. eapply (slot_unique (slots t)); eauto; [by apply wf_array|]. cbn.
      symmetry. by apply Hks.
    + eapply (free_absent (slots t)); eauto; [by apply wf_array|]. by exists j.
Qed.

Lemma store_spec t m k v i :
  repr t m -> valid k -> room t -> found_at (slots t) k i ->
  exists t', store t i k v = Ret (bool_decide (m !! k = None), t') /\
    repr t' (<[k := v]> m) /\ slots t' !! i = Some (mkSlot _ _ k v FILLED).
Proof using HL.
  intros Hr Hk Hroom Hf. destruct (found_lookup _ _ _ _ Hr Hf) as (s & Hi & Hm & Hks).
  pose proof (repr_wf _ _ Hr) as Hwf. pose proof (lookup_lt_Some _ _ _ Hi) as Hlt.
  unfold store. rewrite Hi. cbn [or_undef mbind outcome_bind].
  destruct (state s) eqn:Es; cbn in Hm; rewrite Hm.
  - rewrite (Hks eq_refl). eexists. split; [done|].
    split; [|by apply list_lookup_insert_eq].
    eapply repr_fill; eauto. eapply wf_replace; eauto.
    + rewrite <-(Hks eq_refl). eapply update_filled_wf; eauto. by apply wf_array.
    + count_slots.
    + count_slots.
    + lia.
  - eexists. split; [done|]. split; [|by apply list_lookup_insert_eq].
    eapply repr_fill; eauto. eapply wf_replace; eauto.
    + eapply fill_free_wf; eauto; [by apply wf_array|congruence].
    + count_slots.
    + count_slots.
    + right. split; [lia|done].
  - eexists. split; [done|]. split; [|by apply list_lookup_insert_eq].
    eapply repr_fill; eauto. eapply wf_replace; eauto.
    + eapply fill_free_wf; eauto; [by apply wf_array|congruence].
    + count_slots.
    + count_slots.
    + lia.
Qed.

Lemma empty_repr : repr empty ∅.
Proof.
  constructor.
  - constructor; cbn; [|by left|done|done]. by constructor.
  - intros k v. rewrite lookup_empty. split; [done|]. by intros [i Hi].
Qed.

Lemma grow_repr t m :
  repr t m ->
  (grow t = Throw too_large /\ ~ can_grow t) \/
  exists t', grow t = Ret t' /\ repr t' m /\ room t'.
Proof using HL.
  intros [Hwf Hm]. destruct (grow_spec t Hwf) as [|(t' & Hg & Hwf' & Hroom & _ & Hfill)]; [by left|].
  right. exists t'. split_and!; [done| |done]. constructor; [done|]. intros k v. by rewrite Hfill.
Qed.

(** Growing, searching and storing, as [insert] and [insert_slot] do. *)
Lemma grow_store t m k v :
  repr t m -> valid k ->
  (grow t = Throw too_large /\ ~ can_grow t) \/
  exists t1 i t', grow t = Ret t1 /\ find_slot (slots t1) k = Ret i /\
    store t1 i k v = Ret (bool_decide (m !! k = None), t') /\
    repr t' (<[k := v]> m) /\ slots t' !! i = Some (mkSlot _ _ k v FILLED).
Proof using HL.
  intros Hr Hk. destruct (grow_repr t m Hr) as [|(t1 & Hg & Hr1 & Hroom)]; [by left|]. right.
  destruct (search_spec t1 m k Hr1 Hk) as (i & s & Hfind & Hf & _);
    [apply room_empty_slot; [apply Hr1|done]|].
  destruct (store_spec t1 m k v i Hr1 Hk Hroom Hf) as (t' & ? & ? & ?).
  by exists t1, i, t'.
Qed.

Lemma insert_repr t m k v :
  repr t m -> valid k ->
  (insert t k v = Throw too_large /\ ~ can_grow t) \/
  exists t', insert t k v = Ret (bool_decide (m !! k = None), t') /\ repr t' (<[k := v]> m).
Proof using HL.
  intros Hr Hk. unfold insert.
  destruct (grow_store t m k v Hr Hk) as [[-> ?]|(t1 & i & t' & -> & Hf & Hs & ? & ?)].
  - by left.
  - right. exists t'. split; [|done]. cbn [mbind outcome_bind]. rewrite Hf. exact Hs.
Qed.

Lemma insert_slot_repr t m k v :
  repr t m -> valid k ->
  (insert_slot t k v = Throw too_large /\ ~ can_grow t) \/
  exists i t', insert_slot t k v = Ret (i, t') /\ repr t' (<[k := v]> m) /\
    slots t' !! i = Some (mkSlot _ _ k v FILLED).
Proof using HL.
  intros Hr Hk. unfold insert_slot.
  destruct (grow_store t m k v Hr Hk) as [[-> ?]|(t1 & i & t' & -> & Hf & Hs & ? & ?)].
  - by left.
  - right. exists i, t'. split; [|done]. cbn [mbind outcome_bind]. rewrite Hf.
    cbn [mbind outcome_bind]. by rewrite Hs.
Qed.

Lemma get_repr t m k : repr t m -> valid k -> get t k = Ret (m !! k).
Proof using HL.
  intros Hr Hk. unfold get. case_match eqn:E; zbool.
  - by rewrite (unoccupied_empty _ _ Hr E), lookup_empty.
  - destruct (search_spec t m k Hr Hk) as (i & s & -> & _ & Hi & -> & _);
      [apply occupied_empty_slot; [apply Hr|done]|].
    cbn [mbind outcome_bind]. by rewrite Hi.
Qed.

Lemma contains_repr t m k : repr t m -> valid k -> contains t k = Ret (bool_decide (is_Some (m !! k))).
Proof using HL.
  intros Hr Hk. unfold contains. case_match eqn:E; zbool.
  - by rewrite (unoccupied_empty _ _ Hr E), lookup_empty.
  - destruct (search_spec t m k Hr Hk) as (i & s & -> & _ & Hi & -> & _);
      [apply occupied_empty_slot; [apply Hr|done]|].
    cbn [mbind outcome_bind]. rewrite Hi. cbn [or_undef mbind outcome_bind]. f_equal.
    apply bool_decide_ext. case_decide; by split; [|intros []].
Qed.

Lemma erase_repr t m k :
  repr t m -> valid k ->
  exists t', erase t k = Ret (bool_decide (is_Some (m !! k)), t') /\ repr t' (delete k m).
Proof using HL.
  intros Hr Hk. unfold erase. case_match eqn:E; zbool.
  - assert (m = ∅) as -> by by eapply unoccupied_empty.
    exists t. rewrite lookup_empty, delete_empty. split; [reflexivity|done].
  - destruct (search_spec t m k Hr Hk) as (i & s & -> & _ & Hi & Hm & Hks);
      [apply occupied_empty_slot; [apply Hr|done]|].
    cbn [mbind outcome_bind]. rewrite Hi. cbn [or_undef mbind outcome_bind].
    rewrite Hm. destruct (decide (state s = FILLED)) as [Hs|Hs].
    + eexists. split; [done|]. destruct Hr as [Hwf Hmap]. constructor.
      * eapply wf_replace; eauto; [|count_slots..]. eapply bury_wf; eauto. by apply wf_array.
      * intros k' v'. cbn. rewrite (filled_insert _ _ s), lookup_delete_Some, Hmap by done. split.
        -- intros [Hne [j Hj]]. right. exists j. split; [|done]. intros ->. simplify_eq.
           by destruct Hne; symmetry; apply Hks.
        -- intros [|(j & Hji & Hj)]; [done|]. split; [|by exists j]. intros <-.
           apply Hji. eapply (slot_unique (slots t)); eauto; [by apply wf_array|].
           cbn. symmetry. by apply Hks.
    + exists t. split; [done|]. by rewrite delete_id.
Qed.

(** Erasing the key of a FILLED slot buries that slot and no other. *)
Lemma erase_at t m i s :
  repr t m -> slots t !! i = Some s -> state s = FILLED ->
  exists t', erase t (key s) = Ret (true, t') /\ repr t' (delete (key s) m) /\
    slots t' = <[i := mkSlot _ _ default_key default_value TOMBSTONE]> (slots t).
Proof using HL.
  intros Hr Hi Hs. pose proof (wf_array _ (repr_wf _ _ Hr)) as Hwf.
  destruct (filled_reachable _ Hwf i s Hi Hs) as [Hk _].
  destruct (erase_repr t m (key s) Hr Hk) as (t' & He & Hr').
  assert (Hsz : size_ t <> 0).
  { intros E. rewrite (wf_size _ (repr_wf _ _ Hr)) in E. by eapply (count_zero _ _ _ _ E Hi). }
  destruct (search_spec t m (key s) Hr Hk) as (j & sj & Hfind & Hf & Hj & Hm & Hkj);
    [apply occupied_empty_slot; [apply Hr|done]|].
  assert (Hsj : state sj = FILLED).
  { destruct (decide (state sj = FILLED)); [done|]. exfalso.
    eapply (free_absent (slots t) (key s) j sj (value s)); eauto.
    exists i. rewrite Hi, <-Hs. by destruct s. }
  assert (j = i) as -> by (eapply (slot_unique (slots t)); eauto).
  exists t'. unfold erase in He |- *. rewrite Hfind in He |- *.
  destruct (size_ t =? 0) eqn:E; zbool; [done|]. cbn [mbind outcome_bind] in *.
  rewrite Hj in He |- *. cbn [or_undef mbind outcome_bind] in *. rewrite decide_True in He |- * by done.
  injection He as _ <-. done.
Qed.

Lemma get_ref_repr t m k :
  repr t m -> valid k ->
  (get_ref t k = Throw too_large /\ ~ can_grow t) \/
  exists i t', get_ref t k = Ret (i, t') /\
    let m' := if decide (m !! k = None) then <[k := default_value]> m else m in
    repr t' m' /\ exists v, m' !! k = Some v /\ slots t' !! i = Some (mkSlot _ _ k v FILLED).
Proof using HL.
  intros Hr Hk. unfold get_ref.
  assert (Hnew : m !! k = None ->
    (insert_slot t k default_value = Throw too_large /\ ~ can_grow t) \/
    exists i t', insert_slot t k default_value = Ret (i, t') /\
    let m' := if decide (m !! k = None) then <[k := default_value]> m else m in
    repr t' m' /\ exists v, m' !! k = Some v /\ slots t' !! i = Some (mkSlot _ _ k v FILLED)).
  { intros Hnone. rewrite decide_True by done.
    destruct (insert_slot_repr t m k default_value Hr Hk) as [|(i & t' & ? & ? & ?)]; [by left|].
    right. exists i, t'. split; [done|]. split; [done|]. exists default_value. by rewrite lookup_insert_eq. }
  destruct (size_ t =? 0) eqn:E; zbool.
  - apply Hnew. by rewrite (unoccupied_empty _ _ Hr E), lookup_empty.
  - destruct (search_spec t m k Hr Hk) as (i & s & -> & _ & Hi & Hm & Hks);
      [apply occupied_empty_slot; [apply Hr|done]|].
    cbn [mbind outcome_bind]. rewrite Hi. cbn [or_undef mbind outcome_bind].
    destruct (decide (state s = FILLED)) as [Hs|Hs]; [|by apply Hnew].
    right. exists i, t. split; [done|]. rewrite decide_False by congruence. split; [done|].
    exists (value s). split; [done|]. rewrite Hi, <-(Hks Hs), <-Hs. by destruct s.
Qed.

Lemma assign_repr t m k v :
  repr t m -> valid k ->
  (assign t k v = Throw too_large /\ ~ can_grow t) \/
  exists t', assign t k v = Ret t' /\ repr t' (<[k := v]> m).
Proof using HL.
  intros Hr Hk. unfold assign.
  destruct (get_ref_repr t m k Hr Hk) as [[-> ?]|(i & t1 & -> & Hr1 & v1 & Hv1 & Hi)].
  - by left.
  - right. cbn [mbind outcome_bind]. rewrite Hi. cbn [or_undef mbind outcome_bind key value state].
    eexists. split; [done|].
    set (m1 := if decide (m !! k = None) then <[k := default_value]> m else m) in *.
    assert (<[k := v]> m = <[k := v]> m1) as ->
      by (unfold m1; case_decide; [by rewrite insert_insert_eq|done]).
    eapply repr_fill; eauto; [by eapply found_key|].
    destruct Hr1 as [Hwf1 _]. eapply wf_replace; eauto; [|count_slots..].
    exact (update_filled_wf _ i _ v (wf_array _ Hwf1) Hi eq_refl).
Qed.

Lemma clear_repr t : repr (clear t) ∅.
Proof. exact empty_repr. Qed.

(** ** The loops over the slots *)

Lemma entries_filled t k v : (k, v) ∈ entries t <-> filled (slots t) k v.
Proof.
  unfold entries, filled. rewrite list_elem_of_fmap. split.
  - intros ([k' v' st] & [= -> ->] & [Hs [i Hi]%list_elem_of_lookup]%list_elem_of_filter).
    cbn in Hs. subst. by exists i.
  - intros [i Hi]. exists (mkSlot _ _ k v FILLED). split; [done|].
    apply list_elem_of_filter. split; [done|]. by eapply list_elem_of_lookup_2.
Qed.

Lemma entries_NoDup t : wf t -> NoDup (entries t).*1.
Proof.
  intros Hwf. pose proof (wf_distinct t Hwf) as Hd. unfold entries.
  rewrite <-list_fmap_compose. revert Hd. generalize (slots t).
  induction l as [|s ss IH]; intros Hd; [constructor|].
  rewrite filter_cons. case_decide as Hs; [|by eapply IH, distinct_tail].
  constructor; [|by eapply IH, distinct_tail].
  intros (s' & Hk & [Hs' [j Hj]%list_elem_of_lookup]%list_elem_of_filter)%list_elem_of_fmap.
  by specialize (Hd 0%nat (S j) s s' eq_refl Hj Hs Hs' Hk).
Qed.

(** Iterating visits every key of the map once. *)
Lemma entries_repr t m : repr t m -> entries t ≡ₚ map_to_list m.
Proof.
  intros [Hwf Hm]. apply NoDup_Permutation.
  - by eapply NoDup_fmap_1, entries_NoDup.
  - apply NoDup_map_to_list.
  - intros [k v]. by rewrite entries_filled, elem_of_map_to_list, Hm.
Qed.

Lemma entries_length t : Z.of_nat (length (entries t)) = count FILLED (slots t).
Proof.
  unfold entries. rewrite length_fmap. induction (slots t) as [|s ss IH]; [done|].
  rewrite filter_cons. cbn [count]. case_decide; cbn [length]; count_slots.
Qed.

Lemma size_repr t m : repr t m -> size t = Z.of_nat (base.size m).
Proof.
  intros Hr. unfold size. rewrite (wf_size _ (repr_wf _ _ Hr)), <-entries_length.
  by rewrite <-length_map_to_list, (entries_repr _ _ Hr).
Qed.

End facts.
