(* ===== verification/Hash.v ===== *)
(** * Hash functions (include/hash.hpp)

    FNV-1a for strings, a splitmix64 finaliser for numbers, the address for
    pointers.  -1 is reserved: it marks values that cannot be hashed. *)

From S2P Require Import Prelude Double.

Module Hash.

Definition NIL_HASH_VALUE : Z := 0xDEADC0DE.
Definition NAN_HASH_VALUE : Z := 0xC0DE10ADED.

(** One round of the loop of [hash_string], on the byte [c]. *)
Definition fnv_round (hash : Z) (c : ascii) : Z :=
  u32 (Z.lxor hash (Z.of_N (N_of_ascii c)) * 16777619).

Fixpoint fnv_loop (hash : Z) (str : string) : Z :=
  match str with
  | EmptyString => hash
  | String c str => fnv_loop (fnv_round hash c) str
  end.

Definition hash_string (str : string) : Z := fnv_loop 2166136261 str.

(** The body shared by [hash_double] and [hash_int], on 64 bits. *)
Definition splitmix64 (x : Z) : Z :=
  let z := u64 (x + 0x9e3779b97f4a7c15) in
  let z := u64 (Z.lxor z (Z.shiftr z 30) * 0xbf58476d1ce4e5b9) in
  let z := u64 (Z.lxor z (Z.shiftr z 27) * 0x94d049bb133111eb) in
  Z.lxor z (Z.shiftr z 31).

Definition not_minus_one (h : Z) : Z := if h =? -1 then -2 else h.

Definition hash_double (d : double) : Z :=
  if Double.is_zero d then 0
  else if Double.is_nan d || Double.is_inf d then NAN_HASH_VALUE
  else not_minus_one (i64 (splitmix64 (Double.to_bits d))).

Definition hash_int (v : Z) : Z := not_minus_one (i64 (splitmix64 (u64 v))).

(** [p] is the address, an unsigned 64-bit value. *)
Definition hash_pointer (p : Z) : Z := not_minus_one (i64 p).

Lemma fnv_loop_range str : forall h, is_u32 h -> is_u32 (fnv_loop h str).
Proof. induction str as [|c str IH]; intros h Hh; [done|]. apply IH, u32_range. Qed.

(** The hash of a string is a 32-bit value, hence never -1. *)
Lemma hash_string_range str : is_u32 (hash_string str).
Proof. apply fnv_loop_range. by_compute. Qed.

Lemma not_minus_one_spec h : not_minus_one h <> -1 /\ (is_i64 h -> is_i64 (not_minus_one h)).
Proof. unfold not_minus_one. case_match; zbool; split; try lia; by intros. Qed.

Lemma hash_numbers_hashable d v p :
  hash_double d <> -1 /\ hash_int v <> -1 /\ hash_pointer p <> -1.
Proof.
  split; [|by split; apply not_minus_one_spec].
  unfold hash_double. repeat case_match; try done. apply not_minus_one_spec.
Qed.

Lemma hash_numbers_range d v p :
  is_i64 (hash_double d) /\ is_i64 (hash_int v) /\ is_i64 (hash_pointer p).
Proof.
  unfold hash_double, hash_int, hash_pointer.
  split_and!; repeat case_match;
    first [apply not_minus_one_spec, i64_range | by_compute].
Qed.

End Hash.
