(* ===== verification/Platform.v ===== *)
(** * What the program takes from its platform and libraries

    Object sizes and addresses, [std::hash], and the calls into the bundled
    libraries fmt and fast_float.  The model is parametric in them; [x86_64]
    gives concrete functions on which the witnesses evaluate. *)

From S2P Require Import Prelude Double Hash.

(** The kinds of heap objects, [ObjectType] (include/object.hpp). *)
Module ObjectType.

Inductive t : Set :=
  | STRING | FUNCTION | CLOSURE | NATIVE_FUNCTION | UPVALUE | CLASS | INSTANCE
  | BOUND_METHOD | LIST | MAP.

#[global] Instance t_eq_dec : EqDecision t.
Proof. solve_decision. Defined.

Definition to_int (o : t) : Z :=
  match o with
  | STRING => 0 | FUNCTION => 1 | CLOSURE => 2 | NATIVE_FUNCTION => 3 | UPVALUE => 4
  | CLASS => 5 | INSTANCE => 6 | BOUND_METHOD => 7 | LIST => 8 | MAP => 9
  end.

Definition object_type_to_string (o : t) : string :=
  match o with
  | STRING => "STRING"
  | FUNCTION => "FUNCTION"
  | CLOSURE => "CLOSURE"
  | NATIVE_FUNCTION => "NATIVE_FUNCTION"
  | UPVALUE => "UPVALUE"
  | CLASS => "CLASS"
  | INSTANCE => "INSTANCE"
  | BOUND_METHOD => "BOUND_METHOD"
  | LIST => "LIST"
  | MAP => "MAP"
  end.

End ObjectType.

Class Platform := {
  (** [sizeof] of each object class. *)
  sizeof_object : ObjectType.t -> Z;
  (** [sizeof] of the slots of the program's hash tables. *)
  sizeof_table_slot : Z;
  (** The address [new] gave to an object; objects that do not live at the same time may share one. *)
  address_of : positive -> Z;
  (** The addresses of a slot of the evaluation stack and of the member [closed] of an upvalue. *)
  address_of_slot : nat -> Z;
  address_of_closed : positive -> Z;
  (** [std::hash<int64_t>] *)
  std_hash : Z -> Z;
  (** [fmt::format("{:.16g}", d)] and [fmt::format("{:p}", p)] *)
  format_real : double -> string;
  format_pointer : Z -> string;
  (** [fast_float::from_chars] on an [int64_t] and on a [double]; [None] is an error code. *)
  parse_int : string -> option Z;
  parse_real : string -> option double
}.

(** What the development relies on. *)
Class PlatformLaws `{Platform} := {
  sizeof_object_pos : forall o, 0 < sizeof_object o;
  sizeof_table_slot_large : 8 <= sizeof_table_slot;
  address_of_range : forall r, 0 < address_of r < 2 ^ 64;
  parse_int_range : forall s z, parse_int s = Some z -> is_i64 z
}.

(** ** Decimal numerals *)

Definition digit (c : ascii) : option Z :=
  let n := Z.of_N (N_of_ascii c) in
  if (48 <=? n) && (n <=? 57) then Some (n - 48) else None.

(** The value of the leading digits, and whether there was one. *)
Fixpoint digits (acc : Z) (seen : bool) (s : string) : option Z :=
  match s with
  | EmptyString => if seen then Some acc else None
  | String c s =>
      match digit c with
      | Some d => digits (acc * 10 + d) true s
      | None => if seen then Some acc else None
      end
  end.

Definition decimal (s : string) : option Z :=
  let signed :=
    match s with
    | String "-" s => Z.opp <$> digits 0 false s
    | _ => digits 0 false s
    end in
  z ← signed; if decide (is_i64 z) then Some z else None.

(** [std::to_string] of an integer. *)
Fixpoint digits_of (fuel : nat) (n : Z) (acc : string) : string :=
  match fuel with
  | O => acc
  | S fuel =>
      let acc := String (ascii_of_N (Z.to_N (48 + n mod 10))) acc in
      if n <? 10 then acc else digits_of fuel (n / 10) acc
  end.

Definition to_string (n : Z) : string :=
  if n <? 0 then String "-" (digits_of 20 (- n) "") else digits_of 20 n "".

(** Hexadecimal digits of an address. *)
Definition hex_digit (n : Z) : ascii :=
  ascii_of_N (Z.to_N (if n <? 10 then 48 + n else 87 + n)).
Fixpoint hex (fuel : nat) (n : Z) (acc : string) : string :=
  match fuel with
  | O => acc
  | S fuel =>
      let acc := String (hex_digit (n mod 16)) acc in
      if n <? 16 then acc else hex fuel (n / 16) acc
  end.

(** Filling the columns of formatted text, with characters on the left or spaces on the right. *)
Fixpoint pad (ch : ascii) (n : nat) (s : string) : string :=
  match n with O => s | S n => String ch (pad ch n s) end.
Definition pad_left (ch : ascii) (width : nat) (s : string) : string := pad ch (width - String.length s) s.
Definition pad_right (width : nat) (s : string) : string := s +:+ pad " " (width - String.length s) EmptyString.

(** ** A concrete platform

    Sizes of the 64-bit Itanium ABI with libstdc++, addresses in allocation
    order; numbers with a fraction print as their integer part. *)
#[global] Instance x86_64 : Platform := {|
  sizeof_object o :=
    match o with
    | ObjectType.STRING => 40 | ObjectType.FUNCTION => 40 | ObjectType.CLOSURE => 56
    | ObjectType.NATIVE_FUNCTION => 32 | ObjectType.UPVALUE => 48 | ObjectType.CLASS => 104
    | ObjectType.INSTANCE => 88 | ObjectType.BOUND_METHOD => 40 | ObjectType.LIST => 40
    | ObjectType.MAP => 72
    end;
  sizeof_table_slot := 40;
  address_of r := 1 + u64 (16 * Zpos r) mod (2 ^ 64 - 1);
  address_of_slot i := 16 * Z.of_nat i;
  address_of_closed r := 17 + u64 (16 * Zpos r) mod (2 ^ 64 - 17);
  std_hash z := u64 z;
  format_real d := match Double.trunc d with Some z => to_string z | None => "nan" end;
  format_pointer p := "0x" +:+ hex 16 p "";
  parse_int := decimal;
  parse_real s := Double.of_Z <$> decimal s
|}.

#[global] Instance x86_64_laws : PlatformLaws.
Proof.
  split.
  - by intros [].
  - done.
  - intros r. cbn [address_of x86_64].
    pose proof (Z.mod_pos_bound (u64 (16 * Zpos r)) (2 ^ 64 - 1)). lia.
  - intros s z Hz. cbn [parse_int x86_64] in Hz. unfold decimal in Hz.
    apply bind_Some in Hz as (z' & _ & Hz). case_decide; congruence.
Qed.
