(* ===== verification/DebugTokens.v ===== *)
(** * Printing tokens (src/compiler/debug_compiler.cpp, include/utils.hpp)

    The text [--print-tokens] shows, one line per token, without its colours. *)

From S2P Require Import Prelude Platform Token Lexer.
Import Lexer.

Module DebugTokens.

Definition backslash : ascii := ascii_of_nat 92.

(** A hexadecimal digit of [{:02X}]. *)
Definition hex_upper (n : Z) : ascii := ascii_of_N (Z.to_N (if n <? 10 then 48 + n else 55 + n)).

(** What [escape_string] adds for one character. *)
Definition escape_char (ch : ascii) : list ascii :=
  let code := Z.of_N (N_of_ascii ch) in
  if eqc ch newline then [backslash; "n"%char]
  else if eqc ch tab then [backslash; "t"%char]
  else if eqc ch carriage_return then [backslash; "r"%char]
  else if eqc ch backslash then [backslash; backslash]
  else if (code <? 32) || (126 <? code) then [backslash; "x"%char; hex_upper (code / 16); hex_upper (code mod 16)]
  else [ch].

Definition escape_string (input : list ascii) : list ascii := input ≫= escape_char.

(** One line of [print_tokens]. *)
Definition print_token (previous_line : Z) (token : Token) : string :=
  (if negb (Token.line token =? previous_line) then pad_left " " 5 (to_string (Token.line token)) +:+ " "
   else "    | ") +:+
  pad_right 14 (TokenType.token_type_to_string (token_type token)) +:+ " '" +:+
  String.string_of_list_ascii (escape_string (String.list_ascii_of_string (lexeme token))) +:+ "'" +:+
  (if decide (Token.err token = ErrorCode.NO_ERROR) then EmptyString
   else pad_left " " 30 (ErrorCode.error_code_to_string (Token.err token))).

(** The loop of [print_tokens] from the iterator [it], with the last line. *)
Fixpoint print_from (fuel : nat) (src : list ascii) (previous_line : Z) (it : iterator) : outcome (list string) :=
  if Lexer.equal it (cend src) then
    Ret [pad_left " " 5 (to_string (previous_line + 1)) +:+ " " +:+
         pad_right 14 (TokenType.token_type_to_string (token_type (deref it))) +:+ " ''"]
  else match fuel with
       | O => OutOfFuel
       | S fuel =>
           it' ← next it;
           rest ← print_from fuel src (Token.line (deref it)) it';
           Ret (print_token previous_line (deref it) :: rest)
       end.

(** Every token but the last takes at least one character. *)
Definition print_tokens (src : list ascii) : outcome (list string) :=
  it ← cbegin src; print_from (S (length src)) src 0 it.

End DebugTokens.

Import DebugTokens.

Example print_tokens_sample :
  print_tokens (String.list_ascii_of_string "a = 1 ~;"%string) =
  Ret ["    1 IDENTIFIER     'a'"; "    | EQUAL          '='"; "    | NUMBER_INT     '1'";
       "    | ERROR          '~'        UNRECOGNIZED_CHARACTER"; "    | SEMICOLON      ';'";
       "    2 END_OF_FILE    ''"]%string.
Proof. vm_compute. reflexivity. Qed.

(** ** Reading escaped text back *)

Definition hex_value (ch : ascii) : Z :=
  let code := Z.of_N (N_of_ascii ch) in if code <? 58 then code - 48 else code - 55.

(** The character a text begins with, once escaped, and the rest. *)
Definition unescape_char (text : list ascii) : option (ascii * list ascii) :=
  match text with
  | [] => None
  | ch :: rest =>
      if negb (eqc ch backslash) then Some (ch, rest)
      else match rest with
           | "n"%char :: rest => Some (newline, rest)
           | "t"%char :: rest => Some (tab, rest)
           | "r"%char :: rest => Some (carriage_return, rest)
           | "x"%char :: a :: b :: rest =>
               Some (ascii_of_N (Z.to_N (16 * hex_value a + hex_value b)), rest)
           | ch :: rest => Some (ch, rest)
           | [] => None
           end
  end.

Lemma unescape_escaped ch rest : unescape_char (escape_char ch ++ rest) = Some (ch, rest).
Proof. by destruct ch as [[] [] [] [] [] [] [] []]. Qed.

Lemma unescape_string ch s : unescape_char (escape_string (ch :: s)) = Some (ch, escape_string s).
Proof. apply unescape_escaped. Qed.

Definition printable (ch : ascii) : Prop := 32 <= Z.of_N (N_of_ascii ch) <= 126.

Lemma escaped_printable ch : Forall printable (escape_char ch).
Proof.
  apply (bool_decide_unpack _). unfold printable. by destruct ch as [[] [] [] [] [] [] [] []]; vm_compute.
Qed.

(** Escaping loses nothing and prints no control characters: two texts with the same escaped form
    are equal, and the escaped form of any text consists of printable ASCII characters. *)
Lemma escape_string_injective (a b : list ascii) :
  (escape_string a = escape_string b <-> a = b) /\ Forall printable (escape_string a).
Proof.
  split; [|unfold escape_string; induction a as [|x a IH]; [by constructor|];
           apply Forall_app; split; [apply escaped_printable|done]].
  split; [|by intros ->]. revert b. induction a as [|x a IH]; intros [|y b] E; [done|..].
  - pose proof (unescape_string y b) as U. by rewrite <-E in U.
  - pose proof (unescape_string x a) as U. by rewrite E in U.
  - pose proof (unescape_string x a) as U. rewrite E, unescape_string in U. injection U as -> E'. by rewrite (IH b).
Qed.
