(* ===== verification/Bytes.v ===== *)
(** * Bytes, checksums and the header of bytecode files
    (thirdparty/datapacker.hpp, thirdparty/crc32.hpp, include/file_header.hpp,
    include/serialized_bytecode.hpp)

    A byte is a [Z] from 0 to 255; a buffer is a list of bytes.  The encoders
    return the bytes they write; reading past the end of a buffer is
    undefined. *)

From S2P Require Import Prelude Double Platform.

(** ** datapacker *)

Module DataPacker.

Definition bits_of (size : nat) : Z := 8 * Z.of_nat size.

(** [encode_le<T>] of a value of [size] bytes. *)
Definition encode_le (size : nat) (value : Z) : list Z :=
  (fun i : nat => u8 (Z.land (Z.shiftr value (bits_of i)) 0xFF)) <$> seq 0 size.

(** [decode_le<T>] of an unsigned type, on its bytes. *)
Fixpoint decode_bytes (i : nat) (bytes : list Z) : Z :=
  match bytes with
  | [] => 0
  | b :: bytes => Z.lor (Z.shiftl b (bits_of i)) (decode_bytes (S i) bytes)
  end.

Definition read (buffer : list Z) (offset : Z) (size : nat) : outcome (list Z) :=
  if decide (0 <= offset /\ offset + Z.of_nat size <= Z.of_nat (length buffer))
  then Ret (take size (drop (Z.to_nat offset) buffer))
  else Undef "read past the end of a buffer".

Definition decode_le (buffer : list Z) (offset : Z) (size : nat) : outcome Z :=
  bytes ← read buffer offset size; Ret (decode_bytes 0 bytes).

(** [encode(buffer, args...)] on the sizes and values of the arguments. *)
Definition encode (fields : list (nat * Z)) : list Z :=
  fields ≫= (fun '(size, value) => encode_le size value).

(** [decode(buffer + offset, args...)]: the values, one after the other. *)
Fixpoint decode (buffer : list Z) (offset : Z) (sizes : list nat) : outcome (list Z) :=
  match sizes with
  | [] => Ret []
  | size :: sizes =>
      v ← decode_le buffer offset size;
      vs ← decode buffer (offset + Z.of_nat size) sizes;
      Ret (v :: vs)
  end.

(** The count both return. *)
Definition nbytes (sizes : list nat) : Z := Z.of_nat (sum_list sizes).

(** [encode_length_prefixed] of [uint32_t] length and bytes. *)
Definition encode_length_prefixed (bytes : list Z) : list Z :=
  encode_le 4 (u32 (Z.of_nat (length bytes))) ++ bytes.

(** *** IEEE-754 by hand: [pack754<64, 11>], [unpack754<64, 11>] *)

(** A positive [long double], [mant * 2^expo]. Multiplying it by a power of two, and the sums below,
    are exact: its mantissa has 64 bits and its exponent 15. *)
Record long_double : Type := mkLong { mant : Z; expo : Z }.

(** [f >= k], on an integer [k]. *)
Definition at_least (f : long_double) (k : Z) : bool :=
  if 0 <=? expo f then k <=? Z.shiftl (mant f) (expo f) else Z.shiftl k (- expo f) <=? mant f.

(** The two loops that normalise, with the count [shift]. *)
Definition halve_step (s : long_double * Z) : long_double * Z :=
  (mkLong (mant s.1) (expo s.1 - 1), s.2 + 1).
Definition double_step (s : long_double * Z) : long_double * Z :=
  (mkLong (mant s.1) (expo s.1 + 1), s.2 - 1).
(** More rounds than there are exponents. *)
Definition rounds : nat := Z.to_nat 1100.
Definition normalize (f : long_double) : outcome (long_double * Z) :=
  s ← while_loop rounds (fun s => at_least s.1 2) halve_step (f, 0);
  while_loop rounds (fun s => negb (at_least s.1 1)) double_step s.

(** [fnorm - 1.0], of a number from 1 to 2, times 2^52: [float(1LL << 52) + 0.5f] is [2^52]. *)
Definition significand (f : long_double) : Z :=
  Z.shiftr (Z.shiftl (mant f - Z.shiftl 1 (- expo f)) 52) (- expo f).

Definition pack754 (d : double) : outcome Z :=
  match d with
  | S754_zero _ => Ret 0
  | S754_infinity _ => Undef "halving infinity until it is less than 2"
  | S754_nan => Undef "conversion of NaN to an integer"
  | S754_finite s m e =>
      '(fnorm, shift) ← normalize (mkLong (Zpos m) e);
      let sign := if s then 1 else 0 in
      let exp := shift + 1023 in
      Ret (u64 (Z.lor (Z.lor (Z.shiftl sign 63) (Z.shiftl exp 52)) (significand fnorm)))
  end.

Definition unpack754 (i : Z) : double :=
  if i =? 0 then S754_zero false
  else
    let result := mkLong (Z.land i (2 ^ 52 - 1) + 2 ^ 52) (-52) in
    let shift := i64 (u64 (Z.land (Z.shiftr i 52) 2047 - 1023)) in
    let result :=
      if 0 <? shift then (Nat.iter (Z.to_nat shift) double_step (result, shift)).1
      else (Nat.iter (Z.to_nat (- shift)) halve_step (result, shift)).1 in
    let negative := bool_decide (Z.land (Z.shiftr i 63) 1 = 1) in
    binary_normalize Double.prec Double.emax (if negative then - mant result else mant result)
      (expo result) negative.

Definition encode_double (d : double) : outcome (list Z) :=
  encoded ← pack754 d; Ret (encode_le 8 encoded).

Definition decode_double (buffer : list Z) (offset : Z) : outcome double :=
  i ← decode_le buffer offset 8; Ret (unpack754 i).

End DataPacker.

(** ** crc32 *)

Module Crc32.

Definition crcTable : list Z := [
  0x00000000; 0x77073096; 0xEE0E612C; 0x990951BA; 0x076DC419; 0x706AF48F; 0xE963A535; 0x9E6495A3;
  0x0EDB8832; 0x79DCB8A4; 0xE0D5E91E; 0x97D2D988; 0x09B64C2B; 0x7EB17CBD; 0xE7B82D07; 0x90BF1D91;
  0x1DB71064; 0x6AB020F2; 0xF3B97148; 0x84BE41DE; 0x1ADAD47D; 0x6DDDE4EB; 0xF4D4B551; 0x83D385C7;
  0x136C9856; 0x646BA8C0; 0xFD62F97A; 0x8A65C9EC; 0x14015C4F; 0x63066CD9; 0xFA0F3D63; 0x8D080DF5;
  0x3B6E20C8; 0x4C69105E; 0xD56041E4; 0xA2677172; 0x3C03E4D1; 0x4B04D447; 0xD20D85FD; 0xA50AB56B;
  0x35B5A8FA; 0x42B2986C; 0xDBBBC9D6; 0xACBCF940; 0x32D86CE3; 0x45DF5C75; 0xDCD60DCF; 0xABD13D59;
  0x26D930AC; 0x51DE003A; 0xC8D75180; 0xBFD06116; 0x21B4F4B5; 0x56B3C423; 0xCFBA9599; 0xB8BDA50F;
  0x2802B89E; 0x5F058808; 0xC60CD9B2; 0xB10BE924; 0x2F6F7C87; 0x58684C11; 0xC1611DAB; 0xB6662D3D;
  0x76DC4190; 0x01DB7106; 0x98D220BC; 0xEFD5102A; 0x71B18589; 0x06B6B51F; 0x9FBFE4A5; 0xE8B8D433;
  0x7807C9A2; 0x0F00F934; 0x9609A88E; 0xE10E9818; 0x7F6A0DBB; 0x086D3D2D; 0x91646C97; 0xE6635C01;
  0x6B6B51F4; 0x1C6C6162; 0x856530D8; 0xF262004E; 0x6C0695ED; 0x1B01A57B; 0x8208F4C1; 0xF50FC457;
  0x65B0D9C6; 0x12B7E950; 0x8BBEB8EA; 0xFCB9887C; 0x62DD1DDF; 0x15DA2D49; 0x8CD37CF3; 0xFBD44C65;
  0x4DB26158; 0x3AB551CE; 0xA3BC0074; 0xD4BB30E2; 0x4ADFA541; 0x3DD895D7; 0xA4D1C46D; 0xD3D6F4FB;
  0x4369E96A; 0x346ED9FC; 0xAD678846; 0xDA60B8D0; 0x44042D73; 0x33031DE5; 0xAA0A4C5F; 0xDD0D7CC9;
  0x5005713C; 0x270241AA; 0xBE0B1010; 0xC90C2086; 0x5768B525; 0x206F85B3; 0xB966D409; 0xCE61E49F;
  0x5EDEF90E; 0x29D9C998; 0xB0D09822; 0xC7D7A8B4; 0x59B33D17; 0x2EB40D81; 0xB7BD5C3B; 0xC0BA6CAD;
  0xEDB88320; 0x9ABFB3B6; 0x03B6E20C; 0x74B1D29A; 0xEAD54739; 0x9DD277AF; 0x04DB2615; 0x73DC1683;
  0xE3630B12; 0x94643B84; 0x0D6D6A3E; 0x7A6A5AA8; 0xE40ECF0B; 0x9309FF9D; 0x0A00AE27; 0x7D079EB1;
  0xF00F9344; 0x8708A3D2; 0x1E01F268; 0x6906C2FE; 0xF762575D; 0x806567CB; 0x196C3671; 0x6E6B06E7;
  0xFED41B76; 0x89D32BE0; 0x10DA7A5A; 0x67DD4ACC; 0xF9B9DF6F; 0x8EBEEFF9; 0x17B7BE43; 0x60B08ED5;
  0xD6D6A3E8; 0xA1D1937E; 0x38D8C2C4; 0x4FDFF252; 0xD1BB67F1; 0xA6BC5767; 0x3FB506DD; 0x48B2364B;
  0xD80D2BDA; 0xAF0A1B4C; 0x36034AF6; 0x41047A60; 0xDF60EFC3; 0xA867DF55; 0x316E8EEF; 0x4669BE79;
  0xCB61B38C; 0xBC66831A; 0x256FD2A0; 0x5268E236; 0xCC0C7795; 0xBB0B4703; 0x220216B9; 0x5505262F;
  0xC5BA3BBE; 0xB2BD0B28; 0x2BB45A92; 0x5CB36A04; 0xC2D7FFA7; 0xB5D0CF31; 0x2CD99E8B; 0x5BDEAE1D;
  0x9B64C2B0; 0xEC63F226; 0x756AA39C; 0x026D930A; 0x9C0906A9; 0xEB0E363F; 0x72076785; 0x05005713;
  0x95BF4A82; 0xE2B87A14; 0x7BB12BAE; 0x0CB61B38; 0x92D28E9B; 0xE5D5BE0D; 0x7CDCEFB7; 0x0BDBDF21;
  0x86D3D2D4; 0xF1D4E242; 0x68DDB3F8; 0x1FDA836E; 0x81BE16CD; 0xF6B9265B; 0x6FB077E1; 0x18B74777;
  0x88085AE6; 0xFF0F6A70; 0x66063BCA; 0x11010B5C; 0x8F659EFF; 0xF862AE69; 0x616BFFD3; 0x166CCF45;
  0xA00AE278; 0xD70DD2EE; 0x4E048354; 0x3903B3C2; 0xA7672661; 0xD06016F7; 0x4969474D; 0x3E6E77DB;
  0xAED16A4A; 0xD9D65ADC; 0x40DF0B66; 0x37D83BF0; 0xA9BCAE53; 0xDEBB9EC5; 0x47B2CF7F; 0x30B5FFE9;
  0xBDBDF21C; 0xCABAC28A; 0x53B39330; 0x24B4A3A6; 0xBAD03605; 0xCDD70693; 0x54DE5729; 0x23D967BF;
  0xB3667A2E; 0xC4614AB8; 0x5D681B02; 0x2A6F2B94; 0xB40BBE37; 0xC30C8EA1; 0x5A05DF1B; 0x2D02EF8D
].

(** One round of the loop. *)
Definition step (crc32 byte : Z) : Z :=
  Z.lxor (Z.shiftr crc32 8) (nth (Z.to_nat (Z.land (Z.lxor crc32 byte) 0xFF)) crcTable 0).

Definition Crc32_ComputeBuf (inCrc32 : Z) (buf : list Z) : Z :=
  Z.lxor (foldl step (Z.lxor inCrc32 0xFFFFFFFF) buf) 0xFFFFFFFF.

End Crc32.

(** ** Files *)

Record SerializedBytecode : Type := mkBytecode {
  chunk_count : Z; bytecode : list Z; strings : list Z; globals : list Z
}.

Module FileHeader.
Import DataPacker Crc32.

Definition MAGIC : list Z := [0x00; 0x4C; 0x4F; 0x58].
Definition VERSION_MAJOR : Z := 1.
Definition VERSION_MINOR : Z := 0.
Definition VERSION_PATCH : Z := 0.

Definition u32_size (bytes : list Z) : Z := u32 (Z.of_nat (length bytes)).

(** The sizes of the fields of the header. *)
Definition header_sizes : list nat := [1; 1; 1; 1; 4; 1; 1; 1; 2; 4; 4; 4; 4; 1; 1; 1]%nat.

(** [write]: the bytes of the file. *)
Definition write (bc : SerializedBytecode) : outcome (list Z) :=
  let chunk_start_offset := 32 in
  let global_table_offset := u32 (chunk_start_offset + u32_size (bytecode bc)) in
  let strings_offset := u32 (global_table_offset + u32_size (globals bc)) in
  let file_size := u32 (strings_offset + u32_size (strings bc)) in
  let header := encode (zip header_sizes
    (MAGIC ++ [0; VERSION_MAJOR; VERSION_MINOR; VERSION_PATCH; u16 (chunk_count bc);
      chunk_start_offset; global_table_offset; strings_offset; file_size; 0; 0; 0])) in
  if negb (nbytes header_sizes =? 32) then Throw "Invalid number of bytes written for file header"
  else
    let crc := Crc32_ComputeBuf 0 (drop 8 header) in
    let crc := Crc32_ComputeBuf crc (bytecode bc) in
    let crc := Crc32_ComputeBuf crc (globals bc) in
    let crc := Crc32_ComputeBuf crc (strings bc) in
    let header := take 4 header ++ encode_le 4 crc ++ drop 8 header in
    Ret (header ++ bytecode bc ++ globals bc ++ strings bc).

Definition is_compiled_lox_program (file : list Z) : bool :=
  (32 <=? length file)%nat && bool_decide (take 4 file = MAGIC).

(** A section: [resize(size)], then [std::copy] of the bytes from [first] to [last].  Running out of
    memory in the first is not modelled; it only throws for more than a vector may hold. *)
Definition section (buffer : list Z) (size first last : Z) : outcome (list Z) :=
  if 2 ^ 63 - 1 <? size then Throw "vector::_M_default_append"
  else if last <? first then Undef "copy of an inverted range"
  else if Z.of_nat (length buffer) <? last then Undef "copy past the end of a buffer"
  else Ret (take (Z.to_nat (last - first)) (drop (Z.to_nat first) buffer)).

Definition version (major minor patch : Z) : string :=
  to_string major +:+ "." +:+ to_string minor +:+ "." +:+ to_string patch.

Definition read (buffer : list Z) : outcome SerializedBytecode :=
  if (length buffer <? 32)%nat then Throw "bytecode file is corrupt, < 32 bytes" else
  fields ← decode buffer 0 header_sizes;
  match fields with
  | [m0; m1; m2; m3; crc; version_major; version_minor; version_patch; chunk_count;
     chunk_start_offset; global_table_offset; strings_offset; file_size; _; _; _] =>
      if negb (nbytes header_sizes =? 32) then Throw "Could not load file header" else
      if negb (bool_decide ([m0; m1; m2; m3] = MAGIC)) then Throw "Not a valid Lox compiled program" else
      if negb (Crc32_ComputeBuf 0 (drop 8 buffer) =? crc) then
        Throw "Bytecode file corrupted: CRC32 checksum mismatch" else
      if negb (version_major =? VERSION_MAJOR) then
        Throw ("Incompatible bytecode version: " +:+ version version_major version_minor version_patch +:+
               ", expected major version " +:+ to_string VERSION_MAJOR) else
      if (VERSION_MINOR <? version_minor) ||
         ((version_minor =? VERSION_MINOR) && (VERSION_PATCH <? version_patch)) then
        Throw ("Forward bytecode version not supported: " +:+ version version_major version_minor version_patch +:+
               ", maximum supported version " +:+ version VERSION_MAJOR VERSION_MINOR VERSION_PATCH) else
      if negb (file_size =? Z.of_nat (length buffer)) then
        Throw ("File size mismatch: header indicates " +:+ to_string file_size +:+
               " bytes, but file contains " +:+ to_string (Z.of_nat (length buffer)) +:+ " bytes") else
      let size := Z.of_nat (length buffer) in
      bytecode ← section buffer (u32 (global_table_offset - chunk_start_offset)) chunk_start_offset global_table_offset;
      globals ← section buffer (u32 (strings_offset - global_table_offset)) global_table_offset strings_offset;
      strings ← section buffer (u64 (size - strings_offset)) strings_offset size;
      Ret (mkBytecode chunk_count bytecode strings globals)
  | _ => Undef "decode"
  end.

End FileHeader.
