(* ===== verification/BytesFacts.v ===== *)
(** * Reading back what was written: integers, doubles, checksums *)

From S2P Require Import Prelude Double Platform Bytes.
Import DataPacker Crc32.

(** ** Integers *)

Section integers.
Implicit Types (v : Z) (n : nat) (buf : list Z).

Lemma bits_of_nonneg n : 0 <= bits_of n.
Proof. unfold bits_of. lia. Qed.

Lemma u8_land v : u8 (Z.land v 0xFF) = v mod 2 ^ 8.
Proof. change 0xFF with (Z.ones 8). rewrite Z.land_ones by done. unfold u8. by rewrite Zmod_mod. Qed.

Lemma encode_le_S n v : encode_le (S n) v = v mod 2 ^ 8 :: encode_le n (Z.shiftr v 8).
Proof.
  unfold encode_le. cbn [seq]. rewrite fmap_cons, u8_land, Z.shiftr_0_r. f_equal.
  rewrite <-fmap_S_seq, <-list_fmap_compose. apply list_fmap_ext. intros _ i _. cbn.
  rewrite Z.shiftr_shiftr by (unfold bits_of; lia). do 3 f_equal. unfold bits_of. lia.
Qed.

Lemma length_encode_le n v : length (encode_le n v) = n.
Proof. unfold encode_le. by rewrite length_fmap, length_seq. Qed.

Lemma encode_le_bytes n v : Forall is_u8 (encode_le n v).
Proof.
  unfold encode_le. apply Forall_fmap, Forall_forall. intros i _. apply u8_range.
Qed.

Lemma decode_bytes_S i buf : decode_bytes (S i) buf = Z.shiftl (decode_bytes i buf) 8.
Proof.
  revert i. induction buf as [|b buf IH]; intros i; cbn; [done|].
  rewrite IH, Z.shiftl_lor, Z.shiftl_shiftl by apply bits_of_nonneg.
  do 2 f_equal. unfold bits_of. lia.
Qed.

(** Disjoint bits add up. *)
Lemma low_high_disjoint (k b x : Z) : 0 <= k -> 0 <= b < 2 ^ k -> Z.land b (Z.shiftl x k) = 0.
Proof.
  intros Hk Hb. apply Z.bits_inj'. intros i Hi. rewrite Z.land_spec, Z.bits_0, Z.shiftl_spec by done.
  destruct (Z.ltb_spec i k); [by rewrite (Z.testbit_neg_r x), andb_false_r by lia|].
  replace b with (b mod 2 ^ k) by (apply Z.mod_small; lia). by rewrite Z.mod_pow2_bits_high by lia.
Qed.

Lemma lor_low_high (k b x : Z) : 0 <= k -> 0 <= b < 2 ^ k -> Z.lor b (Z.shiftl x k) = b + 2 ^ k * x.
Proof.
  intros Hk Hb. pose proof (Z.add_lor_land b (Z.shiftl x k)) as Ha.
  rewrite low_high_disjoint in Ha by done. rewrite Z.shiftl_mul_pow2 in Ha |- * by done. lia.
Qed.

Lemma decode_bytes_cons b buf : is_u8 b -> decode_bytes 0 (b :: buf) = b + 2 ^ 8 * decode_bytes 0 buf.
Proof.
  intros Hb. cbn [decode_bytes]. rewrite decode_bytes_S, Z.shiftl_0_r by done. by apply lor_low_high.
Qed.

Lemma pow_bits_S n : 2 ^ bits_of (S n) = 2 ^ 8 * 2 ^ bits_of n.
Proof. unfold bits_of. rewrite <-Z.pow_add_r by lia. f_equal. lia. Qed.

(** Decoding an encoded value takes it to its width; decoding never leaves that width. *)
Lemma decode_encode n v : decode_bytes 0 (encode_le n v) = v mod 2 ^ bits_of n.
Proof.
  revert v. induction n as [|n IH]; intros v; [by rewrite Z.mod_1_r|].
  rewrite encode_le_S, decode_bytes_cons, IH, pow_bits_S, Z.shiftr_div_pow2 by (done || apply u8_range).
  rewrite Z.rem_mul_r; [done|done|]. apply Z.pow_pos_nonneg; [done|apply bits_of_nonneg].
Qed.

Lemma decode_bytes_range buf : Forall is_u8 buf -> 0 <= decode_bytes 0 buf < 2 ^ bits_of (length buf).
Proof.
  induction 1 as [|b buf Hb _ IH]; [done|]. rewrite decode_bytes_cons by done. cbn [length].
  rewrite pow_bits_S. unfold is_u8 in Hb. lia.
Qed.

Lemma encode_decode buf : Forall is_u8 buf -> encode_le (length buf) (decode_bytes 0 buf) = buf.
Proof.
  induction 1 as [|b buf Hb _ IH]; [done|]. cbn [length]. rewrite encode_le_S, decode_bytes_cons by done.
  unfold is_u8 in Hb. rewrite Z.shiftr_div_pow2 by done.
  rewrite (Z.mul_comm (2 ^ 8)), Z.div_add, Z.div_small, Z.mod_add, Z.mod_small by lia. by rewrite Z.add_0_l, IH.
Qed.

(** ** Buffers *)

Lemma read_app n (a b c : list Z) : length b = n ->
  read (a ++ b ++ c) (Z.of_nat (length a)) n = Ret b.
Proof.
  intros <-. unfold read. rewrite decide_True by (rewrite !length_app; lia).
  by rewrite Nat2Z.id, drop_app_length, take_app_length.
Qed.

Lemma decode_le_app n v a c : decode_le (a ++ encode_le n v ++ c) (Z.of_nat (length a)) n = Ret (v mod 2 ^ bits_of n).
Proof. unfold decode_le. rewrite read_app by apply length_encode_le. cbn. by rewrite decode_encode. Qed.

Definition fits (field : nat * Z) : Prop := 0 <= field.2 < 2 ^ bits_of field.1.

Lemma length_encode fields : length (encode fields) = sum_list (fields.*1).
Proof.
  induction fields as [|[n v] fields IH]; [done|]. unfold encode in *. cbn. by rewrite length_app, length_encode_le, IH.
Qed.

Lemma encode_bytes fields : Forall is_u8 (encode fields).
Proof.
  induction fields as [|[n v] fields IH]; [constructor|]. unfold encode in *. cbn.
  apply Forall_app. split; [apply encode_le_bytes|exact IH].
Qed.

(** Fields that fit their widths are read back. *)
Lemma decode_app fields a c : Forall fits fields ->
  decode (a ++ encode fields ++ c) (Z.of_nat (length a)) fields.*1 = Ret fields.*2.
Proof.
  intros Hf. revert a. induction Hf as [|[n v] fields Hv _ IH]; intros a; [done|].
  change (encode ((n, v) :: fields)) with (encode_le n v ++ encode fields). cbn [decode fmap list_fmap fst snd].
  rewrite <-app_assoc, decode_le_app. unfold fits in Hv. cbn [fst snd] in Hv. rewrite Z.mod_small by done.
  cbn [mbind outcome_bind]. specialize (IH (a ++ encode_le n v)).
  rewrite length_app, length_encode_le, Nat2Z.inj_add, <-app_assoc in IH. by rewrite IH.
Qed.

Lemma decode_encode_fields fields c : Forall fits fields ->
  decode (encode fields ++ c) 0 fields.*1 = Ret fields.*2.
Proof. exact (decode_app fields [] c). Qed.

End integers.
