(* ===== verification/ChecksumProps.v ===== *)
(** * The checksum and the encoding of doubles

    The table-driven CRC-32 is the division by its polynomial, can be computed
    in parts, and notices every change of one byte; the hand-written IEEE-754
    conversion keeps every normal number. *)

From S2P Require Import Prelude Double Platform Bytes BytesFacts.
Import DataPacker Crc32.

(** ** CRC-32 *)

(** One bit of the division by the reflected polynomial. *)
Definition bit_step (c : Z) : Z := if Z.odd c then Z.lxor (Z.shiftr c 1) 0xEDB88320 else Z.shiftr c 1.

(** The reference: a byte is added, then divided bit by bit. *)
Definition reference_step (crc byte : Z) : Z := Nat.iter 8 bit_step (Z.lxor crc byte).
Definition reference_crc (bytes : list Z) : Z :=
  Z.lxor (foldl reference_step 0xFFFFFFFF bytes) 0xFFFFFFFF.

Lemma bit_step_lxor a b : bit_step (Z.lxor a b) = Z.lxor (bit_step a) (bit_step b).
Proof.
  unfold bit_step. rewrite <-!Z.bit0_odd, Z.lxor_spec, Z.shiftr_lxor.
  destruct (Z.testbit a 0), (Z.testbit b 0); cbn [xorb].
  - rewrite (Z.lxor_comm (Z.shiftr b 1)), Z.lxor_assoc, <-(Z.lxor_assoc _ _ (Z.shiftr b 1)), Z.lxor_nilpotent.
    by rewrite Z.lxor_0_l.
  - by rewrite !Z.lxor_assoc, (Z.lxor_comm (Z.shiftr b 1)).
  - by rewrite Z.lxor_assoc.
  - done.
Qed.

Lemma bit_steps_lxor k a b : Nat.iter k bit_step (Z.lxor a b) = Z.lxor (Nat.iter k bit_step a) (Nat.iter k bit_step b).
Proof. induction k as [|k IH]; [done|]. by rewrite !Nat.iter_succ, IH, bit_step_lxor. Qed.

Lemma bit_steps_shift k x : Nat.iter k bit_step (Z.shiftl x (Z.of_nat k)) = x.
Proof.
  revert x. induction k as [|k IH]; intros x; [by rewrite Z.shiftl_0_r|].
  rewrite Nat.iter_succ_r. unfold bit_step at 2.
  assert (Hx : Z.shiftl x (Z.of_nat (S k)) = 2 * Z.shiftl x (Z.of_nat k)).
  { rewrite !Z.shiftl_mul_pow2 by lia. rewrite Nat2Z.inj_succ, Z.pow_succ_r by lia. lia. }
  rewrite Hx, Z.odd_mul. cbn [Z.odd andb]. rewrite Z.shiftr_div_pow2, (Z.mul_comm 2), Z.div_mul by done. apply IH.
Qed.

(** The table holds the division of each byte. *)
Lemma table_entry i : 0 <= i < 256 -> nth (Z.to_nat i) crcTable 0 = Nat.iter 8 bit_step i.
Proof.
  intros Hi. assert (Hall : forallb (fun j => nth j crcTable 0 =? Nat.iter 8 bit_step (Z.of_nat j)) (seq 0 256) = true)
    by by vm_compute.
  rewrite forallb_forall in Hall. specialize (Hall (Z.to_nat i)). rewrite Z2Nat.id in Hall by lia.
  apply Z.eqb_eq, Hall, in_seq. lia.
Qed.

Lemma land_byte a : 0 <= Z.land a 0xFF < 256.
Proof. change 0xFF with (Z.ones 8). rewrite Z.land_ones by done. by apply Z.mod_pos_bound. Qed.

Lemma split_byte a : a = Z.lxor (Z.shiftl (Z.shiftr a 8) 8) (Z.land a 0xFF).
Proof.
  pose proof (land_byte a) as Hl. rewrite Z.lxor_comm, Z.lxor_lor by (apply (low_high_disjoint 8); [done|exact Hl]).
  rewrite (lor_low_high 8) by (done || exact Hl). change 0xFF with (Z.ones 8).
  rewrite Z.land_ones, Z.shiftr_div_pow2 by done. pose proof (Z.div_mod a (2 ^ 8)). lia.
Qed.

Lemma shiftr_byte c b : is_u8 b -> Z.shiftr (Z.lxor c b) 8 = Z.shiftr c 8.
Proof.
  intros Hb. rewrite Z.shiftr_lxor, (Z.shiftr_div_pow2 b), Z.div_small by done. apply Z.lxor_0_r.
Qed.

Lemma step_reference c b : is_u8 b -> step c b = reference_step c b.
Proof.
  intros Hb. unfold step, reference_step. rewrite table_entry by apply land_byte.
  rewrite (split_byte (Z.lxor c b)) at 2. rewrite bit_steps_lxor, (bit_steps_shift 8). by rewrite shiftr_byte.
Qed.

(** C35. The table-driven checksum of [Crc32_ComputeBuf] is the remainder of the bitwise division
    by the CRC-32 polynomial: all 256 entries of the table are right, and the loop uses them right. *)
Theorem crc32_reference bytes : Forall is_u8 bytes -> Crc32_ComputeBuf 0 bytes = reference_crc bytes.
Proof.
  intros Hb. unfold Crc32_ComputeBuf, reference_crc. f_equal. change (Z.lxor 0 0xFFFFFFFF) with 0xFFFFFFFF.
  generalize 0xFFFFFFFF. induction Hb as [|b bytes Hb _ IH]; intros c; [done|]. cbn. by rewrite step_reference, IH.
Qed.

Lemma crc32_reference_witness : Forall is_u8 [0x31; 0x32; 0x33] /\ Crc32_ComputeBuf 0 [0x31; 0x32; 0x33] = 0x884863D2.
Proof.
  assert (Hb : Forall is_u8 [0x31; 0x32; 0x33]) by by_compute.
  split; [exact Hb|]. rewrite (crc32_reference _ Hb). by vm_compute.
Defined.

(** Computing the checksum of one buffer after the other. *)
Lemma crc32_app c a b : Crc32_ComputeBuf (Crc32_ComputeBuf c a) b = Crc32_ComputeBuf c (a ++ b).
Proof.
  unfold Crc32_ComputeBuf. by rewrite foldl_app, Z.lxor_assoc, Z.lxor_nilpotent, Z.lxor_0_r.
Qed.

(** *** Every change of one byte is noticed *)

Definition entry (i : Z) : Z := nth (Z.to_nat i) crcTable 0.

(** Where each high byte occurs in the table. *)
Definition positions : list Z := Eval vm_compute in
  (fun t => match list_find (fun x => Z.shiftr x 24 = t) crcTable with Some (k, _) => Z.of_nat k | None => -1 end)
    <$> seqZ 0 256.

Lemma position_entry i : 0 <= i < 256 -> nth (Z.to_nat (Z.shiftr (entry i) 24)) positions (-1) = i.
Proof.
  intros Hi. assert (Hall : forallb (fun j =>
    nth (Z.to_nat (Z.shiftr (nth j crcTable 0) 24)) positions (-1) =? Z.of_nat j) (seq 0 256) = true)
    by by vm_compute.
  rewrite forallb_forall in Hall. specialize (Hall (Z.to_nat i)). rewrite Z2Nat.id in Hall by lia.
  apply Z.eqb_eq, Hall, in_seq. lia.
Qed.

(** The high bytes of the entries are all different. *)
Lemma entry_inj i j : 0 <= i < 256 -> 0 <= j < 256 -> Z.shiftr (entry i) 24 = Z.shiftr (entry j) 24 -> i = j.
Proof. intros Hi Hj He. rewrite <-(position_entry i), <-(position_entry j) by done. by rewrite He. Qed.

Lemma land_lxor a b c : Z.land (Z.lxor a b) c = Z.lxor (Z.land a c) (Z.land b c).
Proof.
  apply Z.bits_inj'. intros i _. rewrite Z.land_spec, !Z.lxor_spec, !Z.land_spec.
  by destruct (Z.testbit a i), (Z.testbit b i), (Z.testbit c i).
Qed.

Lemma u32_land a : is_u32 a <-> Z.land a (Z.ones 32) = a.
Proof.
  rewrite Z.land_ones by done. unfold is_u32. split; [by apply Z.mod_small|].
  intros <-. by apply Z.mod_pos_bound.
Qed.

Lemma u32_lxor a b : is_u32 a -> is_u32 b -> is_u32 (Z.lxor a b).
Proof.
  rewrite !u32_land. intros Ha Hb. by rewrite land_lxor, Ha, Hb.
Qed.

Lemma entry_range i : 0 <= i < 256 -> is_u32 (entry i).
Proof.
  intros Hi. assert (Hall : forallb (fun t => bool_decide (is_u32 t)) crcTable = true) by by vm_compute.
  rewrite forallb_forall in Hall. apply (bool_decide_eq_true_1 (is_u32 _)), Hall, nth_In.
  change (length crcTable) with 256%nat. lia.
Qed.

Lemma step_range c b : is_u32 c -> is_u32 (step c b).
Proof.
  intros Hc. unfold step. apply u32_lxor; [|apply entry_range, land_byte].
  unfold is_u32 in *. rewrite Z.shiftr_div_pow2 by done. split; [apply Z.div_pos; lia|].
  apply Z.div_lt_upper_bound; lia.
Qed.

Lemma lxor_cancel_r a b c : Z.lxor a c = Z.lxor b c -> a = b.
Proof.
  intros He. transitivity (Z.lxor (Z.lxor a c) c).
  - by rewrite Z.lxor_assoc, Z.lxor_nilpotent, Z.lxor_0_r.
  - by rewrite He, Z.lxor_assoc, Z.lxor_nilpotent, Z.lxor_0_r.
Qed.

Lemma lxor_cancel_l a b c : Z.lxor c a = Z.lxor c b -> a = b.
Proof. rewrite !(Z.lxor_comm c). apply lxor_cancel_r. Qed.

(** A round determines which entry it used, and so what it started from. *)
Lemma step_entry c c' b b' : is_u32 c -> is_u32 c' -> step c b = step c' b' ->
  Z.land (Z.lxor c b) 0xFF = Z.land (Z.lxor c' b') 0xFF /\ Z.shiftr c 8 = Z.shiftr c' 8.
Proof.
  intros Hc Hc' He. unfold step in He.
  assert (Hhigh : forall c i, is_u32 c -> Z.shiftr (Z.lxor (Z.shiftr c 8) i) 24 = Z.shiftr i 24).
  { intros a i [Ha Ha']. rewrite Z.shiftr_lxor, Z.shiftr_shiftr by done.
    by rewrite Z.shiftr_div_pow2, Z.div_small, Z.lxor_0_l. }
  assert (Hi : Z.land (Z.lxor c b) 0xFF = Z.land (Z.lxor c' b') 0xFF).
  { apply entry_inj; [apply land_byte..|]. apply (f_equal (fun x => Z.shiftr x 24)) in He.
    by rewrite !Hhigh in He. }
  split; [done|]. rewrite Hi in He. by apply lxor_cancel_r in He.
Qed.

Lemma land_byte_small b : is_u8 b -> Z.land b 0xFF = b.
Proof. intros Hb. change 0xFF with (Z.ones 8). rewrite Z.land_ones by done. by apply Z.mod_small. Qed.

Lemma step_inj_byte c b b' : is_u32 c -> is_u8 b -> is_u8 b' -> step c b = step c b' -> b = b'.
Proof.
  intros Hc Hb Hb' He. destruct (step_entry c c b b' Hc Hc He) as [Hi _].
  rewrite !land_lxor, !(land_byte_small b), (land_byte_small b') in Hi by done.
  by apply lxor_cancel_l in Hi.
Qed.

Lemma step_inj c c' b : is_u32 c -> is_u32 c' -> step c b = step c' b -> c = c'.
Proof.
  intros Hc Hc' He. destruct (step_entry c c' b b Hc Hc' He) as [Hi Hs].
  rewrite !land_lxor in Hi. apply lxor_cancel_r in Hi.
  by rewrite (split_byte c), (split_byte c'), Hs, Hi.
Qed.

Lemma steps_inj bytes c c' : is_u32 c -> is_u32 c' -> foldl step c bytes = foldl step c' bytes -> c = c'.
Proof.
  revert c c'. induction bytes as [|b bytes IH]; intros c c' Hc Hc' He; [done|].
  eapply step_inj; [done..|]. apply IH; [by apply step_range..|done].
Qed.

Lemma steps_range bytes c : is_u32 c -> is_u32 (foldl step c bytes).
Proof. revert c. induction bytes as [|b bytes IH]; intros c Hc; [done|]. by apply IH, step_range. Qed.

Lemma crc32_range bytes c : is_u32 c -> is_u32 (Crc32_ComputeBuf c bytes).
Proof. intros Hc. apply u32_lxor; [by apply steps_range, u32_lxor|done]. Qed.

(** C36. The checksum notices every change of a single byte of the data, wherever it is. *)
Theorem crc32_detects_change (before after : list Z) (b b' : Z) : is_u8 b -> is_u8 b' -> b <> b' ->
  Crc32_ComputeBuf 0 (before ++ b :: after) <> Crc32_ComputeBuf 0 (before ++ b' :: after).
Proof.
  intros Hb Hb' Hne He. apply Hne. unfold Crc32_ComputeBuf in He. apply lxor_cancel_r in He.
  rewrite !foldl_app in He. cbn [foldl] in He.
  assert (Hc : is_u32 (foldl step (Z.lxor 0 0xFFFFFFFF) before)) by by apply steps_range.
  apply (step_inj_byte (foldl step (Z.lxor 0 0xFFFFFFFF) before)); [done..|].
  eapply steps_inj; [by apply step_range..|exact He].
Qed.

Lemma crc32_detects_change_witness :
  Crc32_ComputeBuf 0 ([1; 2] ++ 3 :: [4]) <> Crc32_ComputeBuf 0 ([1; 2] ++ 7 :: [4]).
Proof. apply (crc32_detects_change [1; 2] [4] 3 7); by vm_compute. Defined.

(** ** Doubles *)

(** A normal number: 53 bits, and an exponent of the format. *)
Definition normal (s : bool) (m : positive) (e : Z) : Prop :=
  2 ^ 52 <= Zpos m < 2 ^ 53 /\ -1074 <= e <= 971.

(** The position of the highest bit of a number's mantissa decides both comparisons. *)
Lemma at_least_one m x : at_least (mkLong (Zpos m) x) 1 = (- Z.log2 (Zpos m) <=? x).
Proof.
  unfold at_least. cbn [mant expo]. pose proof (Z.log2_nonneg (Zpos m)). destruct (Z.leb_spec 0 x).
  - rewrite Z.shiftl_mul_pow2 by done. pose proof (Z.pow_pos_nonneg 2 x).
    rewrite !(proj2 (Z.leb_le _ _)) by nia. done.
  - rewrite Z.shiftl_mul_pow2, Z.mul_1_l by lia. pose proof (Z.log2_le_pow2 (Zpos m) (- x) eq_refl).
    apply eq_true_iff_eq. rewrite !Z.leb_le. lia.
Qed.

Lemma at_least_two m x : at_least (mkLong (Zpos m) x) 2 = (1 - Z.log2 (Zpos m) <=? x).
Proof.
  unfold at_least. cbn [mant expo]. pose proof (Z.log2_nonneg (Zpos m)). destruct (Z.leb_spec 0 x) as [Hx|Hx].
  - rewrite Z.shiftl_mul_pow2 by done. destruct (decide (x = 0)) as [->|].
    + pose proof (Z.log2_le_pow2 (Zpos m) 1 eq_refl). apply eq_true_iff_eq. rewrite !Z.leb_le. lia.
    + assert (2 ^ 1 <= 2 ^ x) by (apply Z.pow_le_mono_r; lia). rewrite !(proj2 (Z.leb_le _ _)) by nia. done.
  - rewrite Z.shiftl_mul_pow2, <-(Z.pow_succ_r 2) by lia. pose proof (Z.log2_le_pow2 (Zpos m) (Z.succ (- x)) eq_refl).
    apply eq_true_iff_eq. rewrite !Z.leb_le. lia.
Qed.

(** Every finite number of the format is normalised to one from 1 to 2. *)
Lemma normalize_finite m e : Zpos m < 2 ^ 53 -> -1074 <= e <= 971 ->
  normalize (mkLong (Zpos m) e) = Ret (mkLong (Zpos m) (- Z.log2 (Zpos m)), e + Z.log2 (Zpos m)).
Proof.
  intros Hm He. unfold normalize. assert (Hfuel : Z.of_nat rounds = 1100) by done.
  generalize dependent rounds. intros fuel Hfuel. set (k := Z.log2 (Zpos m)).
  assert (Hk : 0 <= k <= 52) by (split; [apply Z.log2_nonneg|apply Z.lt_succ_r, Z.log2_lt_pow2; lia]).
  destruct (while_loop_ends
    (fun s => mant s.1 = Zpos m /\ expo s.1 + s.2 = e /\ (- k <= expo s.1 \/ s.2 = 0 /\ expo s.1 < 1 - k))
    (fun s => Z.to_nat (expo s.1 + k)) (fun s => at_least s.1 2) halve_step) with (fuel := fuel)
    (s := (mkLong (Zpos m) e, 0)) as ([[m1 x1] h1] & -> & Hc1 & Hm1 & He1 & Hx1); cbn [fst snd mant expo halve_step double_step] in *.
  - intros [[m1 x1] h1] (Hm1 & He1 & Hx1) Hc. unfold halve_step. cbn [fst snd mant expo] in *. subst m1.
    rewrite at_least_two in Hc. fold k in Hc. zbool. lia.
  - lia.
  - lia.
  - subst m1. rewrite at_least_two in Hc1. fold k in Hc1. zbool.
    destruct (while_loop_ends (fun s => mant s.1 = Zpos m /\ expo s.1 + s.2 = e /\ expo s.1 <= - k)
      (fun s => Z.to_nat (- k - expo s.1)) (fun s => negb (at_least s.1 1)) double_step) with (fuel := fuel)
      (s := (mkLong (Zpos m) x1, h1)) as ([[m2 x2] h2] & E2 & Hc2 & Hm2 & He2 & Hx2); cbn [fst snd mant expo halve_step double_step] in *.
    + intros [[m2 x2] h2] (Hm2 & He2 & Hx2) Hc. unfold double_step. cbn [fst snd mant expo] in *. subst m2.
      rewrite at_least_one in Hc. fold k in Hc. apply negb_true_iff in Hc. zbool. lia.
    + lia.
    + lia.
    + cbn [mbind outcome_bind]. rewrite E2. subst m2. rewrite at_least_one in Hc2. fold k in Hc2. apply negb_false_iff in Hc2. zbool.
      repeat f_equal; lia.
Qed.

(** A number of the format that is not infinite. *)
Definition finite_real (d : double) : Prop :=
  match d with
  | S754_infinity _ => False
  | S754_finite _ m e => Zpos m < 2 ^ 53 /\ -1074 <= e <= 971
  | _ => True
  end.

Lemma pack_ends d : finite_real d -> terminates (pack754 d).
Proof.
  unfold terminates. destruct d as [s|s| |s m e]; try done. intros [Hm He]. cbn [pack754].
  by rewrite normalize_finite.
Qed.

Section doubles.
Context (s : bool) (m : positive) (e : Z) (Hn : normal s m e).

Lemma log2_normal : Z.log2 (Zpos m) = 52.
Proof. destruct Hn as [Hm _]. by apply Z.log2_unique. Qed.

Lemma normalize_normal : normalize (mkLong (Zpos m) e) = Ret (mkLong (Zpos m) (-52), e + 52).
Proof. destruct Hn as [Hm He]. rewrite normalize_finite by lia. by rewrite log2_normal. Qed.

Lemma bits_normal : Double.to_bits (S754_finite s m e) =
  (if s then 1 else 0) * 2 ^ 63 + (e + 1075) * 2 ^ 52 + (Zpos m - 2 ^ 52).
Proof.
  destruct Hn as [Hm _]. unfold Double.to_bits. rewrite (proj2 (Z.ltb_ge _ _)) by lia. destruct s; lia.
Qed.

Lemma pack_normal : pack754 (S754_finite s m e) = Ret (Double.to_bits (S754_finite s m e)).
Proof.
  pose proof Hn as [Hm He]. cbn [pack754]. rewrite normalize_normal. cbn [mbind outcome_bind]. f_equal.
  unfold significand. cbn [mant expo]. change (Z.shiftl 1 (- -52)) with (2 ^ 52). change (- -52) with 52.
  rewrite (Z.shiftr_shiftl_l _ 52 52), Z.sub_diag, Z.shiftl_0_r by done.
  replace (e + 52 + 1023) with (e + 1075) by lia.
  rewrite Z.lor_comm, (Z.lor_comm (Z.shiftl _ 63)), Z.lor_assoc.
  rewrite (lor_low_high 52), (lor_low_high 63) by lia. rewrite u64_small, bits_normal; unfold is_u64; destruct s; lia.
Qed.

(** Rounding a number that already has 53 bits. *)
Lemma digits2_normal : digits2_pos m = 53%positive.
Proof.
  destruct Hn as [Hm _].
  assert (Hd : forall p : positive, 2 ^ Zpos (digits2_pos p) <= 2 * Zpos p < 2 * 2 ^ Zpos (digits2_pos p)).
  { induction p as [p IH|p IH|]; cbn [digits2_pos]; [..|done]; rewrite Pos2Z.inj_succ, Z.pow_succ_r by lia; lia. }
  specialize (Hd m). destruct (Pos.lt_total (digits2_pos m) 53) as [Hlt|[He|Hlt]]; [|done|].
  - assert (2 ^ Zpos (digits2_pos m) <= 2 ^ 52) by (apply Z.pow_le_mono_r; lia). lia.
  - assert (2 ^ 54 <= 2 ^ Zpos (digits2_pos m)) by (apply Z.pow_le_mono_r; lia). lia.
Qed.

Lemma fexp_normal : fexp Double.prec Double.emax (53 + e) = e.
Proof. destruct Hn as [_ He]. unfold fexp, emin, Double.prec, Double.emax. lia. Qed.

Lemma round_normal : binary_round Double.prec Double.emax s m e = S754_finite s m e.
Proof.
  unfold binary_round, shl_align. rewrite digits2_normal, fexp_normal, Z.sub_diag.
  unfold binary_round_aux, shr_fexp, Zdigits2. rewrite digits2_normal, fexp_normal, Z.sub_diag. cbn [shr shr_record_of_loc shr_m loc_of_shr_record round_nearest_even].
  rewrite digits2_normal, fexp_normal, Z.sub_diag. cbn [shr shr_record_of_loc shr_m].
  destruct Hn as [_ He]. by rewrite (proj2 (Z.leb_le _ _)) by (unfold Double.emax, Double.prec; lia).
Qed.

Lemma iter_double k x h : (Nat.iter k double_step (mkLong (Zpos m) x, h)).1 = mkLong (Zpos m) (x + Z.of_nat k).
Proof.
  induction k as [|k IH]; [cbn; by rewrite Z.add_0_r|].
  rewrite Nat.iter_succ. unfold double_step at 1. cbn [fst]. rewrite IH. cbn. f_equal. lia.
Qed.
Lemma iter_halve k x h : (Nat.iter k halve_step (mkLong (Zpos m) x, h)).1 = mkLong (Zpos m) (x - Z.of_nat k).
Proof.
  induction k as [|k IH]; [cbn; by rewrite Z.sub_0_r|].
  rewrite Nat.iter_succ. unfold halve_step at 1. cbn [fst]. rewrite IH. cbn. f_equal. lia.
Qed.

End doubles.

(** Decoding any exponent but the least: the mantissa is put back and rounded. *)
Lemma unpack_round (s : bool) m e : 2 ^ 52 <= Zpos m < 2 ^ 53 -> -1075 <= e <= 972 ->
  (if s then 1 else 0) * 2 ^ 63 + (e + 1075) * 2 ^ 52 + (Zpos m - 2 ^ 52) <> 0 ->
  unpack754 ((if s then 1 else 0) * 2 ^ 63 + (e + 1075) * 2 ^ 52 + (Zpos m - 2 ^ 52)) =
  binary_round Double.prec Double.emax s m e.
Proof.
  intros Hm He Hne. set (sg := if s then 1 else 0) in *.
  assert (Hsg : 0 <= sg <= 1) by (by destruct s; subst sg). unfold unpack754.
  rewrite (proj2 (Z.eqb_neq _ _)) by done.
  change (2 ^ 52 - 1) with (Z.ones 52). change 2047 with (Z.ones 11). change (Z.land _ 1) with (Z.land (Z.shiftr (sg * 2 ^ 63 + (e + 1075) * 2 ^ 52 + (Z.pos m - 2 ^ 52)) 63) (Z.ones 1)).
  rewrite !Z.land_ones, !Z.shiftr_div_pow2 by done.
  replace ((sg * 2 ^ 63 + (e + 1075) * 2 ^ 52 + (Z.pos m - 2 ^ 52)) mod 2 ^ 52) with (Zpos m - 2 ^ 52) by
    (apply Z.mod_unique_pos with (sg * 2 ^ 11 + (e + 1075)); lia).
  replace ((sg * 2 ^ 63 + (e + 1075) * 2 ^ 52 + (Z.pos m - 2 ^ 52)) / 2 ^ 52) with (sg * 2 ^ 11 + (e + 1075)) by
    (apply Z.div_unique_pos with (Zpos m - 2 ^ 52); lia).
  replace ((sg * 2 ^ 63 + (e + 1075) * 2 ^ 52 + (Z.pos m - 2 ^ 52)) / 2 ^ 63) with sg by
    (apply Z.div_unique_pos with ((e + 1075) * 2 ^ 52 + (Z.pos m - 2 ^ 52)); lia).
  replace ((sg * 2 ^ 11 + (e + 1075)) mod 2 ^ 11) with (e + 1075) by (apply Z.mod_unique_pos with sg; lia).
  replace (i64 (u64 (e + 1075 - 1023))) with (e + 52) by (rewrite i64_u64; unfold is_i64; lia).
  replace (Z.pos m - 2 ^ 52 + 2 ^ 52) with (Zpos m) by lia.
  assert (Hloop : forall h, (if 0 <? e + 52 then (Nat.iter (Z.to_nat (e + 52)) double_step (mkLong (Zpos m) (-52), h)).1
    else (Nat.iter (Z.to_nat (- (e + 52))) halve_step (mkLong (Zpos m) (-52), h)).1) = mkLong (Zpos m) e).
  { intros h. destruct (Z.ltb_spec 0 (e + 52)); [rewrite iter_double|rewrite iter_halve]; f_equal; lia. }
  rewrite Hloop. cbn [mant expo]. subst sg. by destruct s.
Qed.

Lemma unpack_normal s m e : normal s m e -> unpack754 (Double.to_bits (S754_finite s m e)) = S754_finite s m e.
Proof.
  intros Hn. pose proof Hn as [Hm He]. rewrite bits_normal by done.
  rewrite unpack_round by (destruct s; lia). by apply round_normal.
Qed.

(** *** Numbers below the normal ones *)

(** What the encoder makes of a number [m * 2^-1074] below 2^-1022: the exponent field is negative below
    2^-1023, so that it spoils the sign. *)
Definition small_mantissa (m : positive) : Z :=
  Z.shiftr (Z.shiftl (Zpos m - Z.shiftl 1 (Z.log2 (Zpos m))) 52) (Z.log2 (Zpos m)).

Lemma small_mantissa_range m : Zpos m < 2 ^ 52 -> 0 <= small_mantissa m < 2 ^ 52.
Proof.
  intros Hm. unfold small_mantissa. set (k := Z.log2 (Zpos m)). pose proof (Z.log2_nonneg (Zpos m)) as Hk. fold k in Hk.
  pose proof (Z.log2_spec (Zpos m) eq_refl) as Hs. fold k in Hs. rewrite Z.pow_succ_r in Hs by done.
  rewrite Z.shiftr_div_pow2, !Z.shiftl_mul_pow2, Z.mul_1_l by lia.
  pose proof (Z.pow_pos_nonneg 2 k). split; [apply Z.div_pos; nia|apply Z.div_lt_upper_bound; nia].
Qed.

Lemma sign_spoilt (s : bool) x : -51 <= x < 0 -> Z.lor (Z.shiftl (if s then 1 else 0) 63) (Z.shiftl x 52) = x * 2 ^ 52.
Proof.
  intros Hx. assert (Hall : forallb (fun x => forallb (fun s : bool =>
    Z.lor (Z.shiftl (if s then 1 else 0) 63) (Z.shiftl x 52) =? x * 2 ^ 52) [true; false]) (seqZ (-51) 51) = true) by by vm_compute.
  rewrite forallb_forall in Hall. specialize (Hall x). rewrite <-list_elem_of_In, elem_of_seqZ in Hall.
  specialize (Hall ltac:(lia)). rewrite forallb_forall in Hall. apply Z.eqb_eq, (Hall s). destruct s; cbn; tauto.
Qed.

Lemma pack_small s m : Zpos m < 2 ^ 51 ->
  pack754 (S754_finite s m (-1074)) =
  Ret (2 ^ 63 + (Z.log2 (Zpos m) + 1997) * 2 ^ 52 + small_mantissa m).
Proof.
  intros Hm. cbn [pack754]. rewrite normalize_finite by lia. cbn [mbind outcome_bind]. f_equal.
  pose proof (small_mantissa_range m ltac:(lia)) as Hr. unfold significand. cbn [mant expo]. rewrite !Z.opp_involutive. fold (small_mantissa m).
  assert (Hk : 0 <= Z.log2 (Zpos m) <= 50) by (split; [apply Z.log2_nonneg|apply Z.lt_succ_r, Z.log2_lt_pow2; lia]).
  rewrite sign_spoilt, Z.lor_comm by lia.
  rewrite <-(Z.shiftl_mul_pow2 _ 52), (lor_low_high 52) by (done || lia).
  unfold u64. symmetry. apply Z.mod_unique_pos with (-1); lia.
Qed.

Lemma round_overflow s m : 2 ^ 52 <= Zpos m < 2 ^ 53 -> binary_round Double.prec Double.emax s m 972 = S754_infinity s.
Proof.
  intros Hm. assert (Hd : digits2_pos m = 53%positive) by by apply (digits2_normal s m 0).
  unfold binary_round, shl_align. rewrite Hd. change (fexp Double.prec Double.emax (53 + 972)) with 972. rewrite Z.sub_diag.
  unfold binary_round_aux, shr_fexp, Zdigits2. rewrite Hd. change (fexp Double.prec Double.emax (53 + 972) - 972) with 0.
  cbn [shr shr_record_of_loc shr_m loc_of_shr_record round_nearest_even]. rewrite Hd.
  change (fexp Double.prec Double.emax (53 + 972) - 972) with 0. by cbn [shr shr_record_of_loc shr_m].
Qed.

(** Such a number comes back with the wrong sign and enormous. *)
Lemma small_lost s m : Zpos m < 2 ^ 51 -> exists bits, pack754 (S754_finite s m (-1074)) = Ret bits /\
  Double.ltb (unpack754 bits) (Double.of_Z (- 2 ^ 900)) = true.
Proof.
  intros Hm. rewrite pack_small by done. eexists. split; [done|].
  assert (Hk : 0 <= Z.log2 (Zpos m) <= 50) by (split; [apply Z.log2_nonneg|apply Z.lt_succ_r, Z.log2_lt_pow2; lia]).
  pose proof (small_mantissa_range m ltac:(lia)) as Hr. set (k := Z.log2 _) in *. generalize dependent (small_mantissa m). intros f Hf.
  destruct (f + 2 ^ 52) as [|m'|] eqn:Em; try lia.
  replace (2 ^ 63 + (k + 1997) * 2 ^ 52 + f) with ((if true then 1 else 0) * 2 ^ 63 + (922 + k + 1075) * 2 ^ 52 + (Zpos m' - 2 ^ 52)) by lia.
  rewrite (unpack_round true m' (922 + k)) by lia. assert (Ebig : Double.of_Z (- 2 ^ 900) = S754_finite true 4503599627370496 848) by by vm_compute.
  rewrite Ebig. destruct (decide (k = 50)) as [->|].
  - by rewrite round_overflow by lia.
  - rewrite (round_normal true m' (922 + k)) by (split; lia). unfold Double.ltb, SFltb, SFcompare.
    by rewrite (proj2 (Z.compare_gt_iff _ _)) by lia.
Qed.

(** C38. On every normal number and on positive zero the hand-written encoder of doubles produces
    the bits of the IEEE-754 format, and decoding them gives the number back. *)
Theorem doubles_survive (d : double) :
  match d with
  | S754_zero s => s = false
  | S754_finite s m e => normal s m e
  | _ => False
  end ->
  pack754 d = Ret (Double.to_bits d) /\ unpack754 (Double.to_bits d) = d.
Proof.
  destruct d as [[]|s| |s m e]; try done; intros Hn. split; [by apply pack_normal|by apply unpack_normal].
Qed.

Lemma doubles_survive_witness :
  pack754 (Double.div (Double.of_Z (-1)) (Double.of_Z 3)) = Ret 13823048456275842389.
Proof.
  refine (proj1 (doubles_survive (Double.div (Double.of_Z (-1)) (Double.of_Z 3)) _)).
  vm_compute. by split; split.
Defined.

(** C39. The encoder loses numbers that are not normal: it drops the sign of zero, it takes 2^-1023 for
    zero, every number below that in magnitude comes back negative and below -2^900, whatever its sign,
    and it does not end on infinity. *)
Theorem doubles_lost :
  pack754 (S754_zero true) = Ret 0 /\ unpack754 0 = S754_zero false /\
  pack754 (S754_finite false (2 ^ 51) (-1074)) = Ret 0 /\
  (forall s m, Zpos m < 2 ^ 51 -> exists bits, pack754 (S754_finite s m (-1074)) = Ret bits /\
     Double.ltb (unpack754 bits) (Double.of_Z (- 2 ^ 900)) = true) /\
  forall s, pack754 (S754_infinity s) = Undef "halving infinity until it is less than 2".
Proof.
  split; [reflexivity|]. split; [reflexivity|]. split; [vm_compute; reflexivity|]. split; [|reflexivity]. apply small_lost.
Qed.

(** The smallest number of all. *)
Lemma doubles_lost_witness : exists bits, pack754 (S754_finite false 1 (-1074)) = Ret bits /\
  Double.ltb (unpack754 bits) (Double.of_Z (- 2 ^ 900)) = true.
Proof. destruct doubles_lost as (_ & _ & _ & Hs & _). by apply (Hs false 1%positive). Defined.
