(* ===== verification/FileProps.v ===== *)
(** * Bytecode files: the header, and damage to a file *)

From S2P Require Import Prelude Double Platform Bytes BytesFacts ChecksumProps.
Import DataPacker Crc32 FileHeader.

Section files.
Implicit Types (bc : SerializedBytecode) (file : list Z).

(** The fields of the header that [write] makes, with this checksum. *)
Definition header_values bc (crc : Z) : list Z :=
  MAGIC ++ [crc; VERSION_MAJOR; VERSION_MINOR; VERSION_PATCH; chunk_count bc; 32;
    32 + Z.of_nat (length (bytecode bc));
    32 + Z.of_nat (length (bytecode bc)) + Z.of_nat (length (globals bc));
    32 + Z.of_nat (length (bytecode bc)) + Z.of_nat (length (globals bc)) + Z.of_nat (length (strings bc)); 0; 0; 0].

Definition header bc (crc : Z) : list Z := encode (zip header_sizes (header_values bc crc)).
Definition body bc : list Z := bytecode bc ++ globals bc ++ strings bc.
Definition checksum bc : Z := Crc32_ComputeBuf 0 (drop 8 (header bc 0) ++ body bc).

(** A program that fits the 32-bit offsets and the 16-bit count of the header. *)
Definition file_fits bc : Prop :=
  is_u16 (chunk_count bc) /\ is_u32 (32 + Z.of_nat (length (body bc))).

Lemma header_crc bc c c' : take 4 (header bc c') ++ encode_le 4 c ++ drop 8 (header bc c') = header bc c.
Proof. reflexivity. Qed.

Lemma header_drop bc c c' : drop 8 (header bc c') = drop 8 (header bc c).
Proof. reflexivity. Qed.

Lemma write_file bc : file_fits bc -> write bc = Ret (header bc (checksum bc) ++ body bc).
Proof.
  intros [Hc Hs]. unfold body in Hs. rewrite !length_app in Hs. unfold is_u32 in Hs.
  unfold write, u32_size. rewrite (u16_small _ Hc), !(u32_small (Z.of_nat _)) by (unfold is_u32; lia).
  rewrite !(u32_small (32 + _)), !u32_small by (unfold is_u32; lia).
  change (negb (nbytes header_sizes =? 32)) with false. cbv iota.
  fold (header_values bc 0). fold (header bc 0). rewrite !crc32_app, <-!app_assoc.
  fold (body bc). fold (checksum bc). by rewrite <-(header_crc bc (checksum bc) 0), <-!app_assoc.
Qed.

Lemma checksum_range bc : is_u32 (checksum bc).
Proof. by apply crc32_range. Qed.

Lemma length_header bc c : length (header bc c) = 32%nat.
Proof. unfold header. rewrite length_encode. reflexivity. Qed.

Lemma header_fits bc c : file_fits bc -> is_u32 c -> Forall fits (zip header_sizes (header_values bc c)).
Proof.
  intros [Hc Hs] Hcrc. unfold body in Hs. rewrite !length_app in Hs. unfold is_u32, is_u16 in *.
  unfold header_values, header_sizes, MAGIC, VERSION_MAJOR, VERSION_MINOR, VERSION_PATCH.
  cbn [zip zip_with app]. repeat (apply Forall_cons_2; [unfold fits, bits_of; cbn; lia|]). apply Forall_nil_2.
Qed.

(** A section whose size a vector may have. *)
Lemma section_cases buffer size first last : 0 <= size < 2 ^ 63 ->
  section buffer size first last =
    if last <? first then Undef "copy of an inverted range"
    else if Z.of_nat (length buffer) <? last then Undef "copy past the end of a buffer"
    else Ret (take (Z.to_nat (last - first)) (drop (Z.to_nat first) buffer)).
Proof. intros Hs. unfold section. by rewrite (proj2 (Z.ltb_ge _ size)) by lia. Qed.

Lemma section_in buffer size first last : 0 <= size < 2 ^ 63 -> first <= last -> last <= Z.of_nat (length buffer) ->
  section buffer size first last = Ret (take (Z.to_nat (last - first)) (drop (Z.to_nat first) buffer)).
Proof. intros Hs Hf Hl. rewrite section_cases by done. by rewrite !(proj2 (Z.ltb_ge _ _)) by lia. Qed.

Lemma section_app (a b c : list Z) (size i j : Z) : 0 <= size < 2 ^ 63 ->
  i = Z.of_nat (length a) -> j = i + Z.of_nat (length b) -> section (a ++ b ++ c) size i j = Ret b.
Proof.
  intros Hs -> ->. rewrite section_in by (rewrite ?length_app; lia).
  rewrite Nat2Z.id, drop_app_length. rewrite take_app_le, firstn_all2 by lia. done.
Qed.

Lemma u32_size_small z : 0 <= u32 z < 2 ^ 63.
Proof. pose proof (u32_range z) as Hz. unfold is_u32 in Hz. lia. Qed.

Lemma read_written bc : file_fits bc -> (f ← write bc; read f) = Ret bc.
Proof.
  intros Hfit. rewrite write_file by done. cbn [mbind outcome_bind]. unfold read.
  rewrite (proj2 (Nat.ltb_ge _ _)) by (rewrite length_app, length_header; lia).
  pose proof (decode_encode_fields _ (body bc) (header_fits bc _ Hfit (checksum_range bc))) as Hd.
  change ((zip header_sizes (header_values bc (checksum bc))).*1) with header_sizes in Hd.
  change ((zip header_sizes (header_values bc (checksum bc))).*2) with (header_values bc (checksum bc)) in Hd.
  fold (header bc (checksum bc)) in Hd. rewrite Hd. cbn [mbind outcome_bind].
  cbn [header_values MAGIC app].
  change (negb (nbytes header_sizes =? 32)) with false. cbv iota.
  rewrite bool_decide_eq_true_2 by done. cbn [negb].
  assert (Hcrc : Crc32_ComputeBuf 0 (drop 8 (header bc (checksum bc) ++ body bc)) = checksum bc).
  { rewrite drop_app_le by (rewrite length_header; lia). by rewrite (header_drop bc 0). }
  rewrite Hcrc, Z.eqb_refl. cbn [negb]. rewrite !length_app, !length_header. unfold body at 1 2. rewrite !length_app.
  change (negb (VERSION_MAJOR =? VERSION_MAJOR)) with false.
  change ((VERSION_MINOR <? VERSION_MINOR) || ((VERSION_MINOR =? VERSION_MINOR) && (VERSION_PATCH <? VERSION_PATCH))) with false.
  cbv iota. rewrite (proj2 (Z.eqb_eq _ _)) by lia. cbn [negb].
  unfold body.
  rewrite (section_app (header bc (checksum bc)) (bytecode bc) (globals bc ++ strings bc) _ 32
    (32 + Z.of_nat (length (bytecode bc)))) by first [apply u32_size_small|rewrite ?length_header; lia].
  cbn [mbind outcome_bind]. rewrite (app_assoc (header _ _)).
  rewrite (section_app (header bc (checksum bc) ++ bytecode bc) (globals bc) (strings bc) _
    (32 + Z.of_nat (length (bytecode bc)))) by first [apply u32_size_small|rewrite ?length_app, ?length_header; lia].
  cbn [mbind outcome_bind]. rewrite (app_assoc (header _ _ ++ _)).
  pose proof (fun n => section_app ((header bc (checksum bc) ++ bytecode bc) ++ globals bc) (strings bc) []
    n (32 + Z.of_nat (length (bytecode bc)) + Z.of_nat (length (globals bc)))) as Hlast.
  rewrite app_nil_r in Hlast. pose proof Hfit as [_ Hsize]. unfold is_u32, body in Hsize. rewrite !length_app in Hsize.
  rewrite Hlast by first [rewrite !length_app, u64_small; unfold is_u64; lia|rewrite !length_app, ?length_header; lia].
  by destruct bc.
Qed.

(** C33. A program written to a file and read back is the same, for every program that fits the
    offsets of the header. *)
Theorem file_roundtrip bc : file_fits bc -> (f ← write bc; read f) = Ret bc.
Proof. apply read_written. Qed.

(** *** Damaged files *)

Lemma decode_le_at (a b c : list Z) : decode_le (a ++ b ++ c) (Z.of_nat (length a)) (length b) = Ret (decode_bytes 0 b).
Proof. unfold decode_le. by rewrite read_app. Qed.

Lemma decode_cons buf offset n sizes v : decode_le buf offset n = Ret v ->
  decode buf offset (n :: sizes) = (vs ← decode buf (offset + Z.of_nat n) sizes; Ret (v :: vs)).
Proof. intros E. cbn [decode]. by rewrite E. Qed.

(** A buffer that is long enough is decoded. *)
Lemma decode_long buf sizes : forall offset, 0 <= offset ->
  offset + Z.of_nat (sum_list sizes) <= Z.of_nat (length buf) ->
  exists vs, decode buf offset sizes = Ret vs /\ length vs = length sizes.
Proof.
  induction sizes as [|n sizes IH]; intros offset Hoff Hlen; [by exists []|].
  change (sum_list (n :: sizes)) with (n + sum_list sizes)%nat in Hlen.
  cbn [decode]. unfold decode_le at 1, DataPacker.read.
  rewrite decide_True by lia. cbn [mbind outcome_bind].
  destruct (IH (offset + Z.of_nat n)) as (vs & -> & Hvs); [lia|lia|].
  cbn [mbind outcome_bind]. eexists. split; [done|]. cbn. by rewrite Hvs.
Qed.

(** The checks of [read] in order, on a file of at least 32 bytes. *)
Lemma read_damaged (b0 b1 b2 b3 b4 b5 b6 b7 : Z) rest : (24 <= length rest)%nat ->
  Forall is_u8 [b0; b1; b2; b3] ->
  [b0; b1; b2; b3] <> MAGIC \/ Crc32_ComputeBuf 0 rest <> decode_bytes 0 [b4; b5; b6; b7] ->
  read ([b0; b1; b2; b3] ++ [b4; b5; b6; b7] ++ rest) =
    Throw (if decide ([b0; b1; b2; b3] = MAGIC) then "Bytecode file corrupted: CRC32 checksum mismatch"
           else "Not a valid Lox compiled program").
Proof.
  intros Hlen Hb Hbad. set (file := [b0; b1; b2; b3] ++ _).
  assert (Hone : forall b, is_u8 b -> decode_bytes 0 [b] = b) by (intros b Hu; rewrite decode_bytes_cons by done; cbn; lia).
  rewrite !Forall_cons in Hb. destruct Hb as (H0 & H1 & H2 & H3 & _).
  destruct (decode_long file [1; 1; 1; 2; 4; 4; 4; 4; 1; 1; 1]%nat 8) as (vs & Hvs & Hl); [done| |].
  { subst file. rewrite !length_app. cbn. lia. }
  assert (Hd : decode file 0 header_sizes = Ret ([b0; b1; b2; b3; decode_bytes 0 [b4; b5; b6; b7]] ++ vs)).
  { unfold header_sizes.
    rewrite (decode_cons _ _ _ _ _ (decode_le_at [] [b0] ([b1; b2; b3] ++ [b4; b5; b6; b7] ++ rest) : decode_le file 0 1 = _)).
    rewrite (decode_cons _ _ _ _ _ (decode_le_at [b0] [b1] ([b2; b3] ++ [b4; b5; b6; b7] ++ rest) : decode_le file (0 + Z.of_nat 1) 1 = _)).
    rewrite (decode_cons _ _ _ _ _ (decode_le_at [b0; b1] [b2] ([b3] ++ [b4; b5; b6; b7] ++ rest) :
      decode_le file (0 + Z.of_nat 1 + Z.of_nat 1) 1 = _)).
    rewrite (decode_cons _ _ _ _ _ (decode_le_at [b0; b1; b2] [b3] ([b4; b5; b6; b7] ++ rest) :
      decode_le file (0 + Z.of_nat 1 + Z.of_nat 1 + Z.of_nat 1) 1 = _)).
    rewrite (decode_cons _ _ _ _ _ (decode_le_at [b0; b1; b2; b3] [b4; b5; b6; b7] rest :
      decode_le file (0 + Z.of_nat 1 + Z.of_nat 1 + Z.of_nat 1 + Z.of_nat 1) 4 = _)).
    rewrite !Hone by done.
    change (0 + Z.of_nat 1 + Z.of_nat 1 + Z.of_nat 1 + Z.of_nat 1 + Z.of_nat 4) with 8. by rewrite Hvs. }
  unfold read. rewrite (proj2 (Nat.ltb_ge _ _)) by (subst file; rewrite !length_app; cbn; lia).
  rewrite Hd. cbn [mbind outcome_bind]. clear Hd Hvs. do 11 (destruct vs as [|? vs]; [done|]). destruct vs; [|done].
  cbn [app]. change (negb (nbytes header_sizes =? 32)) with false. cbv iota. case_decide as Hm.
  - rewrite bool_decide_eq_true_2 by done. cbn [negb]. destruct Hbad as [|Hcrc]; [done|].
    rewrite (proj2 (Z.eqb_neq _ _)); [done|exact Hcrc].
  - by rewrite bool_decide_eq_false_2.
Qed.

(** C34. A file damaged in one byte is rejected, whichever byte it is: the first four are the magic
    number, and any other change makes the checksum differ. *)
Theorem read_rejects_damage bc file i b b' : file_fits bc -> Forall is_u8 (body bc) ->
  write bc = Ret file -> file !! i = Some b -> is_u8 b' -> b' <> b ->
  read (<[i := b']> file) = Throw (if (i <? 4)%nat then "Not a valid Lox compiled program"
                                   else "Bytecode file corrupted: CRC32 checksum mismatch").
Proof.
  intros Hfit Hbody Hw Hi Hb' Hne. rewrite write_file in Hw by done.
  assert (Hf : file = header bc (checksum bc) ++ body bc) by congruence. clear Hw. subst file.
  set (rest := drop 8 (header bc 0) ++ body bc). pose proof (checksum_range bc) as Hcrc.
  assert (Hfile : header bc (checksum bc) ++ body bc = MAGIC ++ encode_le 4 (checksum bc) ++ rest) by reflexivity.
  assert (Hrest : Forall is_u8 rest) by (apply Forall_app; split; [apply Forall_drop, encode_bytes|done]).
  assert (Hlen : (24 <= length rest)%nat) by (unfold rest; rewrite length_app, length_drop, length_header; lia).
  assert (Hsum : Crc32_ComputeBuf 0 rest = decode_bytes 0 (encode_le 4 (checksum bc))).
  { rewrite decode_encode. change (bits_of 4) with 32. by rewrite Z.mod_small. }
  rewrite Hfile in Hi |- *. clear Hfile. clearbody rest. set (four := encode_le 4 (checksum bc)) in *.
  assert (Hfour : length four = 4%nat) by apply length_encode_le.
  assert (Hc : Forall is_u8 four) by apply encode_le_bytes.
  destruct four as [|b4 [|b5 [|b6 [|b7 []]]]]; try done. unfold MAGIC in *.
  assert (Hmagic : forall b0 b1 b2 b3, Forall is_u8 [b0; b1; b2; b3] -> [b0; b1; b2; b3] <> MAGIC ->
    read ([b0; b1; b2; b3] ++ [b4; b5; b6; b7] ++ rest) = Throw "Not a valid Lox compiled program").
  { intros. rewrite read_damaged by (done || by left). by rewrite decide_False. }
  assert (Hother : forall c4 c5 c6 c7 r, (24 <= length r)%nat -> Crc32_ComputeBuf 0 r <> decode_bytes 0 [c4; c5; c6; c7] ->
    read (MAGIC ++ [c4; c5; c6; c7] ++ r) = Throw "Bytecode file corrupted: CRC32 checksum mismatch").
  { intros. unfold MAGIC. rewrite read_damaged by (done || by_compute || by right). by rewrite decide_True. }
  assert (Hfield : forall c4 c5 c6 c7, Forall is_u8 [c4; c5; c6; c7] -> [c4; c5; c6; c7] <> [b4; b5; b6; b7] ->
    Crc32_ComputeBuf 0 rest <> decode_bytes 0 [c4; c5; c6; c7]).
  { intros c4 c5 c6 c7 Hc' Hcne He. apply Hcne. rewrite <-(encode_decode _ Hc), <-(encode_decode _ Hc'). cbn [length].
    congruence. }
  rewrite !Forall_cons in Hc. destruct Hc as (? & ? & ? & ? & _).
  destruct i as [|[|[|[|[|[|[|[|i]]]]]]]]; cbn in Hi; try injection Hi as <-; cbn [Nat.ltb Nat.leb].
  1-4: apply Hmagic; [repeat (apply Forall_cons_2; [done || by_compute|]); apply Forall_nil_2|unfold MAGIC; congruence].
  1-4: apply Hother; [done|apply Hfield; [repeat (apply Forall_cons_2; [done|]); apply Forall_nil_2|congruence]].
  change (rest !! i = Some b) in Hi.
  enough (Hcrc' : Crc32_ComputeBuf 0 (<[i := b']> rest) <> decode_bytes 0 [b4; b5; b6; b7]).
  { apply (Hother b4 b5 b6 b7 (<[i := b']> rest) ltac:(by rewrite length_insert) Hcrc'). }
  rewrite <-Hsum. pose proof (lookup_lt_Some _ _ _ Hi) as Hlt. rewrite insert_take_drop by done.
  pose proof (crc32_detects_change (take i rest) (drop (S i) rest) b' b Hb') as Hx.
  rewrite (take_drop_middle rest i b) in Hx by done. apply Hx; [|done].
  rewrite Forall_forall in Hrest. apply Hrest. by eapply list_elem_of_lookup_2.
Qed.
End files.

(** ** Witnesses *)

Definition sample_program : SerializedBytecode := mkBytecode 1 [70; 1; 2] [0; 0; 0; 0] [9; 9].

Lemma sample_fits : file_fits sample_program.
Proof. by_compute. Qed.

Lemma file_roundtrip_witness : (f ← write sample_program; read f) = Ret sample_program.
Proof. apply file_roundtrip, sample_fits. Defined.

Lemma read_rejects_damage_witness : exists file, write sample_program = Ret file /\
  read (<[33%nat := 0]> file) = Throw "Bytecode file corrupted: CRC32 checksum mismatch".
Proof.
  destruct (write sample_program) as [file| | |] eqn:E; try (vm_compute in E; discriminate).
  exists file. split; [done|].
  refine (read_rejects_damage sample_program file 33 1 0 sample_fits _ E _ _ _).
  - by_compute.
  - vm_compute in E. injection E as <-. by vm_compute.
  - by_compute.
  - lia.
Defined.

(** A file that passes every check of [read]: it is the header's fields that say where the sections are. *)
Record accepted (file : list Z) (count c g s : Z) : Prop := {
  accepted_header : (32 <= length file)%nat;
  accepted_fields : exists r0 r1 r2, decode file 0 header_sizes =
    Ret (MAGIC ++ [Crc32_ComputeBuf 0 (drop 8 file); 1; 0; 0; count; c; g; s; Z.of_nat (length file); r0; r1; r2]);
  accepted_widths : is_u32 c /\ is_u32 g /\ is_u32 s /\ is_u32 (Z.of_nat (length file))
}.

(** C40. [read] trusts the offsets of the header.  On every file that passes its checks (length, magic
    number, checksum, version, recorded size) it returns the bytes between the three offsets and the end
    of the file when they are in order and inside the file, even inside the header; otherwise it copies
    an inverted range or bytes past the end of the buffer, which is undefined, and reports nothing. *)
Theorem read_trusts_offsets (file : list Z) (count c g s : Z) : accepted file count c g s ->
  let size := Z.of_nat (length file) in
  read file =
    if (c <=? g) && (g <=? s) && (s <=? size)
    then Ret (mkBytecode count (take (Z.to_nat (g - c)) (drop (Z.to_nat c) file)) (drop (Z.to_nat s) file)
                (take (Z.to_nat (s - g)) (drop (Z.to_nat g) file)))
    else if g <? c then Undef "copy of an inverted range"
    else if size <? g then Undef "copy past the end of a buffer"
    else if s <? g then Undef "copy of an inverted range"
    else Undef "copy past the end of a buffer".
Proof.
  intros [Hlen (r0 & r1 & r2 & Hd) (Hc & Hg & Hs & Hsize)] size. unfold read. rewrite (proj2 (Nat.ltb_ge _ _)) by done.
  rewrite Hd. cbn [mbind outcome_bind MAGIC app]. change (negb (nbytes header_sizes =? 32)) with false. cbv iota.
  rewrite bool_decide_eq_true_2 by done. rewrite Z.eqb_refl. cbn [negb]. rewrite Z.eqb_refl.
  change (negb (1 =? VERSION_MAJOR)) with false.
  change ((VERSION_MINOR <? 0) || ((0 =? VERSION_MINOR) && (VERSION_PATCH <? 0))) with false. cbv iota. cbn [negb].
  fold size. rewrite Z.eqb_refl. cbn [negb].
  rewrite (section_cases file (u32 (g - c))), (section_cases file (u32 (s - g))) by apply u32_size_small. fold size.
  rewrite (Z.leb_antisym g c), (Z.leb_antisym s g), (Z.leb_antisym size s).
  destruct (Z.ltb_spec g c); [done|]. destruct (Z.ltb_spec size g).
  { destruct (Z.ltb_spec s g); [done|]. by rewrite (proj2 (Z.ltb_lt size s)) by lia. }
  cbn [mbind outcome_bind negb andb]. destruct (Z.ltb_spec s g); [done|]. destruct (Z.ltb_spec size s); [done|].
  cbn [mbind outcome_bind negb andb]. unfold is_u32 in *.
  rewrite section_in by (rewrite ?u64_small; unfold is_u64; lia). cbn [mbind outcome_bind].
  do 2 f_equal. apply firstn_all2. rewrite length_drop. lia.
Qed.

(** Files made by hand: a right checksum, and sections with these offsets. *)
Definition crafted_file (c g s : Z) : list Z :=
  let rest := drop 8 (encode (zip header_sizes (MAGIC ++ [0; 1; 0; 0; 1; c; g; s; 40; 0; 0; 0]))) ++
              [0; 0; 0; 0; 0; 0; 0; 0] in
  MAGIC ++ encode_le 4 (Crc32_ComputeBuf 0 rest) ++ rest.

(** An offset past the end, sections in reverse, and code that starts in the header. *)
Lemma read_trusts_offsets_witness :
  read (crafted_file 32 36 44) = Undef "copy past the end of a buffer" /\
  read (crafted_file 40 36 32) = Undef "copy of an inverted range" /\
  exists bc, read (crafted_file 0 4 40) = Ret bc /\ bytecode bc = MAGIC.
Proof.
  assert (Hok : forall c g s, accepted (crafted_file c g s) 1 c g s ->
    read (crafted_file c g s) = _) by (intros c g s Ha; exact (read_trusts_offsets _ _ _ _ _ Ha)).
  split_and!.
  - rewrite Hok; [by vm_compute|]. constructor; [apply Nat.leb_le; by vm_compute|do 3 eexists; by vm_compute|by_compute].
  - rewrite Hok; [by vm_compute|]. constructor; [apply Nat.leb_le; by vm_compute|do 3 eexists; by vm_compute|by_compute].
  - eexists. rewrite Hok; [split; [vm_compute; reflexivity|done]|].
    constructor; [apply Nat.leb_le; by vm_compute|do 3 eexists; by vm_compute|by_compute].
Defined.
