(* ===== verification/HashMapProps.v ===== *)
(** * The hash table on concrete keys

    The sequences of operations a program performs on a table, their abstract
    meaning on finite maps, and the refinement between the two; the instance
    for the 64-bit integer keys of the compiler's constant cache; and the
    behaviour on the default key, which the refinement has to exclude. *)

From S2P Require Import Prelude Double HashMap HashMapFacts Hash Platform.
Import HashMap.

(** ** Programs over a table *)

Section runs.
Context {K V : Type} `{HK : HashKey K V} `{Countable K}.

Inductive operation : Type :=
  | Insert (k : K) (v : V)
  | Assign (k : K) (v : V)
  | Get (k : K)
  | Contains (k : K)
  | Erase (k : K)
  | Size
  | Clear.

Inductive observation : Type :=
  | Bool (b : bool)
  | Found (v : option V)
  | Count (n : Z)
  | Unit.

Definition op_key (o : operation) : option K :=
  match o with
  | Insert k _ | Assign k _ | Get k | Contains k | Erase k => Some k
  | Size | Clear => None
  end.

(** One operation on the table. *)
Definition step (t : table K V) (o : operation) : outcome (observation * table K V) :=
  match o with
  | Insert k v => '(b, t) ← insert t k v; Ret (Bool b, t)
  | Assign k v => t ← assign t k v; Ret (Unit, t)
  | Get k => v ← get t k; Ret (Found v, t)
  | Contains k => b ← contains t k; Ret (Bool b, t)
  | Erase k => '(b, t) ← erase t k; Ret (Bool b, t)
  | Size => Ret (Count (size t), t)
  | Clear => Ret (Unit, clear t)
  end.

Fixpoint run (t : table K V) (os : list operation) : outcome (list observation * table K V) :=
  match os with
  | [] => Ret ([], t)
  | o :: os => '(b, t) ← step t o; '(bs, t) ← run t os; Ret (b :: bs, t)
  end.

(** The same operation on the abstract map. *)
Definition step_map (m : gmap K V) (o : operation) : observation * gmap K V :=
  match o with
  | Insert k v => (Bool (bool_decide (m !! k = None)), <[k := v]> m)
  | Assign k v => (Unit, <[k := v]> m)
  | Get k => (Found (m !! k), m)
  | Contains k => (Bool (bool_decide (is_Some (m !! k))), m)
  | Erase k => (Bool (bool_decide (is_Some (m !! k))), delete k m)
  | Size => (Count (Z.of_nat (base.size m)), m)
  | Clear => (Unit, ∅)
  end.

Fixpoint run_map (m : gmap K V) (os : list operation) : list observation * gmap K V :=
  match os with
  | [] => ([], m)
  | o :: os => let '(b, m) := step_map m o in let '(bs, m) := run_map m os in (b :: bs, m)
  end.

Context (valid : K -> Prop) {HL : HashKeyLaws K V valid}.

Definition valid_op (o : operation) : Prop :=
  match op_key o with Some k => valid k | None => True end.

Lemma step_refines t m o :
  repr valid t m -> valid_op o ->
  (step t o = Throw too_large /\ ~ can_grow t) \/
  exists t', step t o = Ret ((step_map m o).1, t') /\ repr valid t' (step_map m o).2.
Proof using HL.
  intros Hr Hv. destruct o as [k v|k v|k|k|k| |]; cbn [step step_map fst snd] in *.
  - destruct (insert_repr valid t m k v Hr Hv) as [[-> ?]|(t' & -> & ?)]; [left|right]; eauto.
  - destruct (assign_repr valid t m k v Hr Hv) as [[-> ?]|(t' & -> & ?)]; [left|right]; eauto.
  - right. rewrite (get_repr valid t m k Hr Hv). by exists t.
  - right. rewrite (contains_repr valid t m k Hr Hv). by exists t.
  - right. destruct (erase_repr valid t m k Hr Hv) as (t' & -> & ?). by exists t'.
  - right. exists t. by rewrite (size_repr valid t m Hr).
  - right. exists (clear t). split; [done|]. apply clear_repr.
Qed.

(** ** How large the array gets

    After [n] operations at most [n] slots are taken, and the array has at most four times as many
    slots, or 128. *)

Definition bounded (n : Z) (t : table K V) : Prop :=
  0 <= size_ t /\ 0 <= tombstones_ t /\ size_ t + tombstones_ t <= n /\
  Z.of_nat (length (slots t)) <= Z.max 128 (4 * n).

Lemma limits_half : Forall (fun e => capacity e <= 2 * limit e) (seq 0 54).
Proof. by_compute. Qed.

Lemma rehash_length old : forall (acc ss : list (slot K V)),
  rehash acc old = Ret ss -> length ss = length acc.
Proof.
  induction old as [|s old IH]; intros acc ss Hr; cbn [rehash] in Hr; inv_ret; [done|].
  unfold rehash_slot in *. case_match; inv_ret; subst; apply IH in Hr; rewrite Hr; [|done..].
  apply length_insert.
Qed.

Lemma grow_bounded n t t' : wf valid t -> bounded n t -> grow t = Ret t' -> bounded n t'.
Proof.
  intros Hwf (H0 & Ht0 & Hn & Hl) Hg. unfold grow in Hg. inv_ret. case_match eqn:Ecmp; inv_ret; [|done].
  zbool. match goal with H : rehash _ _ = _ |- _ => apply rehash_length in H as Hss end.
  unfold new_slots in *. case_match; inv_ret. subst. rewrite length_replicate in Hss.
  unfold bounded. cbn [size_ tombstones_ slots]. split_and!; try lia. rewrite Hss.
  destruct (wf_capacity _ _ Hwf) as [E|(e & He & Hcap & Hle)].
  - rewrite E in *. match goal with H : new_capacity _ = _ |- _ => vm_compute in H end.
    inv_ret. lia.
  - destruct (capacity_facts e He) as (Hlim & Hnew & Hb & _). rewrite Hcap in *.
    assert (capacity e <= 2 * limit e) as Hh
      by (apply (proj1 (Forall_forall _ _) limits_half), elem_of_seq; lia).
    assert (capacity (S e) = 2 * capacity e) as E2
      by (unfold capacity; rewrite Nat2Z.inj_succ, Z.pow_succ_r; lia).
    rewrite Hlim in *. rewrite Hnew in *. simplify_eq. lia.
Qed.

Lemma store_bounded n t i k v b t' :
  bounded n t -> size_ t = count FILLED (slots t) -> tombstones_ t = count TOMBSTONE (slots t) ->
  store t i k v = Ret (b, t') -> bounded (n + 1) t'.
Proof.
  intros (H0 & Ht0 & Hn & Hl) Hs Ht Hst. unfold store in Hst. inv_ret.
  match goal with H : slots t !! i = Some ?s |- _ => pose proof (count_insert TOMBSTONE (slots t) i s) as Hc;
    specialize (Hc (mkSlot _ _ k v FILLED) H) end.
  pose proof (count_bounds TOMBSTONE (<[i := mkSlot _ _ k v FILLED]> (slots t))) as Hb.
  case_match eqn:Es; inv_ret; subst; unfold bounded; cbn [size_ tombstones_ slots]; rewrite length_insert;
    unfold indicator in Hc; rewrite ?Es in Hc; repeat case_decide; try done; split_and!; lia.
Qed.

Lemma grow_store_bounded n t m t1 i k v b t' :
  repr valid t m -> bounded n t -> grow t = Ret t1 -> store t1 i k v = Ret (b, t') -> bounded (n + 1) t'.
Proof using HL.
  intros Hr Hb Hg Hst. destruct (grow_repr valid t m Hr) as [[Hg' _]|(t2 & Hg' & Hr2 & _)]; [congruence|].
  assert (t2 = t1) as -> by congruence. pose proof (repr_wf _ _ _ Hr2) as Hwf.
  eapply store_bounded; [|apply Hwf|apply Hwf|done]. eapply grow_bounded; [apply Hr|done|done].
Qed.

Lemma bounded_mono n n' t : bounded n t -> n <= n' -> bounded n' t.
Proof. unfold bounded. lia. Qed.

#[local] Ltac returned :=
  repeat (inv_ret; subst; match goal with x : (_ * table K V)%type |- _ => destruct x end);
  inv_ret; subst.

Lemma insert_slot_bounded n t m i k v t' :
  repr valid t m -> bounded n t -> insert_slot t k v = Ret (i, t') -> bounded (n + 1) t'.
Proof using HL.
  intros Hr Hb Hi. unfold insert_slot in Hi. returned. by eapply grow_store_bounded.
Qed.

Lemma assign_bounded n t m k v t' :
  repr valid t m -> bounded n t -> assign t k v = Ret t' -> bounded (n + 1) t'.
Proof using HL.
  intros Hr Hb Ha. unfold assign in Ha. returned.
  match goal with H : get_ref _ _ = Ret (_, ?t1) |- _ => assert (Hb1 : bounded (n + 1) t1) end.
  - unfold get_ref in *. repeat case_match; returned; repeat case_match; returned;
      first [by eapply insert_slot_bounded | apply (bounded_mono n); [done|lia]].
  - unfold bounded in *. cbn. by rewrite length_insert.
Qed.

(** An operation takes at most one more slot. *)
Lemma step_bounded n t m o b t' :
  repr valid t m -> bounded n t -> step t o = Ret (b, t') -> bounded (n + 1) t'.
Proof using HL.
  intros Hr Hb Hs. pose proof (bounded_mono n (n + 1) t Hb) as Hsame.
  destruct o as [k v|k v|k|k|k| |]; cbn [step] in Hs; returned; try (apply Hsame; lia).
  - unfold insert in *. returned. by eapply grow_store_bounded.
  - by eapply assign_bounded.
  - unfold erase in *. repeat case_match; returned; [apply Hsame; lia|].
    repeat case_match; returned; [|apply Hsame; lia]. zbool.
    unfold bounded in *. cbn. rewrite length_insert. lia.
  - destruct Hb as (? & ? & ? & ?). unfold bounded. cbn. lia.
Qed.

Definition fits (n : Z) : Prop := Z.max 256 (8 * n) <= (2 ^ 63 - 1) / sizeof_slot.

Lemma run_refines os : forall n t m,
  repr valid t m -> bounded n t -> fits (n + Z.of_nat (length os)) -> Forall valid_op os ->
  exists t', run t os = Ret ((run_map m os).1, t') /\ repr valid t' (run_map m os).2 /\
             bounded (n + Z.of_nat (length os)) t'.
Proof using HL.
  induction os as [|o os IH]; intros n t m Hr Hb Hfit Hos; cbn [run run_map length] in *.
  - exists t. by rewrite Z.add_0_r.
  - inversion_clear Hos as [|? ? Ho Hos'].
    destruct (step_refines t m o Hr Ho) as [[_ []]|(t' & Hs & Hr')].
    { unfold can_grow, fits, bounded in *. lia. }
    pose proof (step_bounded n t m o _ t' Hr Hb Hs) as Hb'.
    rewrite Hs. destruct (step_map m o) as [b m'] eqn:Em. cbn [mbind outcome_bind fst snd] in *.
    assert (En : n + Z.of_nat (S (length os)) = n + 1 + Z.of_nat (length os)) by lia. rewrite En in *.
    destruct (IH (n + 1) t' m' Hr' Hb') as (t2 & -> & Hr2 & Hb2); [done|done|].
    destruct (run_map m' os) as [bs m2]. by exists t2.
Qed.

(** Any sequence of operations, from an empty table. *)
Lemma run_empty os : Forall valid_op os -> fits (Z.of_nat (length os)) ->
  exists t, run HashMap.empty os = Ret ((run_map ∅ os).1, t) /\ repr valid t (run_map ∅ os).2 /\
            bounded (Z.of_nat (length os)) t.
Proof using HL.
  intros Hos Hfit. apply (run_refines os 0); [apply empty_repr| |done..]. unfold bounded. cbn. lia.
Qed.

End runs.
Arguments operation : clear implicits.
Arguments observation : clear implicits.

(** ** Tables keyed by [int64_t] *)

(** [HashMap<int64_t, int>], the compiler's cache of integer constants. *)
#[global] Instance int64_key `{Platform} : HashKey Z Z := {|
  key_equal := Z.eqb;
  hasher := std_hash;
  default_key := 0;
  default_value := 0;
  sizeof_slot := sizeof_table_slot
|}.

#[global] Instance int64_key_laws `{PlatformLaws} : HashKeyLaws Z Z (fun k => k <> 0).
Proof.
  split.
  - intros a b _ _. apply Z.eqb_eq.
  - intros k Hk. by apply Z.eqb_neq.
  - apply sizeof_table_slot_large.
Qed.

(** ** Properties *)

(** C7. The hash table refines a finite map: whatever sequence of insertions, assignments,
    look-ups, membership tests, erasures, size queries and clearings is run on an empty table, with
    keys other than the default-constructed one, and as long as the slot array such a sequence can
    need fits a vector, every operation ends and returns the result the finite map gives, and the
    final table represents the final map. *)
Theorem hashmap_refines_gmap {K V} `{HK : HashKey K V} `{Countable K} (valid : K -> Prop)
    `{!HashKeyLaws K V valid} (os : list (operation K V)) :
  Forall (valid_op valid) os -> fits (Z.of_nat (length os)) ->
  exists t, run HashMap.empty os = Ret ((run_map ∅ os).1, t) /\
            repr valid t (run_map ∅ os).2.
Proof.
  intros Hos Hfit. destruct (run_empty valid os Hos Hfit) as (t & Ht & Hr & _). eauto.
Qed.

Definition sample_ops : list (operation Z Z) :=
  [Insert 5 50; Insert 133 51; Assign 5 52; Erase 5; Contains 5; Get 133; Insert 261 53; Size; Get 261].

Lemma hashmap_refines_gmap_witness :
  exists t, run HashMap.empty sample_ops = Ret ((run_map ∅ sample_ops).1, t) /\
            repr (fun k => k <> 0) t (run_map ∅ sample_ops).2.
Proof.
  apply (hashmap_refines_gmap (fun k => k <> 0)); [by repeat constructor|by vm_compute].
Defined.

(** [0.65], as a double. *)
Lemma limit_load : Forall (fun e => 2 ^ 53 * limit e <= 5854679515581645 * capacity e) (seq 0 54).
Proof. by_compute. Qed.

(** C22. The size of a table stays within its bounds: after any sequence of [n] operations, keys as
    before, the array is empty or has 128 times a power of two slots, no more than four times [n] or
    128; and the slots that are filled or buried are at most 0.65 of it (the double of that name), so
    that a look-up always meets an empty slot. *)
Theorem table_size_bounded {K V} `{HK : HashKey K V} `{Countable K} (valid : K -> Prop)
    `{!HashKeyLaws K V valid} (os : list (operation K V)) (obs : list (observation V)) (t : HashMap.table K V) :
  Forall (valid_op valid) os -> fits (Z.of_nat (length os)) -> run HashMap.empty os = Ret (obs, t) ->
  let n := Z.of_nat (length (slots t)) in
  (n = 0 \/ exists e, (e < 54)%nat /\ n = 128 * 2 ^ Z.of_nat e) /\
  n <= Z.max 128 (4 * Z.of_nat (length os)) /\
  2 ^ 53 * (size_ t + tombstones_ t) <= 5854679515581645 * n /\
  count EMPTY (slots t) = n - (size_ t + tombstones_ t).
Proof.
  intros Hos Hfit Hrun n. destruct (run_empty valid os Hos Hfit) as (t' & Hrun' & Hr & Hb).
  assert (t' = t) as -> by congruence. pose proof (repr_wf _ _ _ Hr) as Hwf.
  destruct Hb as (_ & _ & _ & Hn). pose proof (count_total (slots t)) as Hc.
  rewrite <-(wf_size _ _ Hwf), <-(wf_tombstones _ _ Hwf) in Hc. fold n in Hn, Hc.
  split_and!; [|done| |lia]; destruct (wf_capacity _ _ Hwf) as [E|(e & He & Hcap & Hle)].
  - left. unfold n. by rewrite E.
  - right. by exists e.
  - pose proof (wf_size _ _ Hwf) as Hs. pose proof (wf_tombstones _ _ Hwf) as Ht. rewrite E in Hs, Ht.
    rewrite Hs, Ht. unfold n. by rewrite E.
  - fold n in Hcap. rewrite Hcap.
    assert (2 ^ 53 * limit e <= 5854679515581645 * capacity e)
      by (apply (proj1 (Forall_forall _ _) limit_load), elem_of_seq; lia). lia.
Qed.

Lemma table_size_bounded_witness : exists obs t, run HashMap.empty sample_ops = Ret (obs, t) /\
  let n := Z.of_nat (length (slots t)) in
  (n = 0 \/ exists e, (e < 54)%nat /\ n = 128 * 2 ^ Z.of_nat e) /\
  n <= Z.max 128 (4 * Z.of_nat (length sample_ops)) /\
  2 ^ 53 * (size_ t + tombstones_ t) <= 5854679515581645 * n /\
  count EMPTY (slots t) = n - (size_ t + tombstones_ t).
Proof.
  assert (E : exists obs t, run HashMap.empty sample_ops = Ret (obs, t)) by (do 2 eexists; by vm_compute).
  destruct E as (obs & t & E). exists obs, t. split; [exact E|].
  apply (table_size_bounded (fun k => k <> 0) sample_ops obs t); [by repeat constructor|by vm_compute|exact E].
Defined.

(** A look-up in a table with at least one free slot ends: [find_slot] returns the slot that
    holds the key, or else a slot to fill, and then no FILLED slot holds the key. *)
Lemma find_slot_finds {K V} `{HK : HashKey K V} (valid : K -> Prop) `{!HashKeyLaws K V valid}
    (ss : list (slot K V)) (k : K) :
  wf_slots valid ss -> valid k -> 0 < count EMPTY ss ->
  exists i s, find_slot ss k = Ret i /\ ss !! i = Some s /\
    ((state s = FILLED /\ key s = k) \/ (state s <> FILLED /\ forall v, ~ filled ss k v)).
Proof.
  intros Hwf Hk Hc. destruct (find_slot_spec valid ss k Hwf Hk Hc) as (i & Hi & Hf).
  exists i. destruct Hf as [i s Hs Hst Hkey|i s d d0 Hs Hst Hd Hle Hp He] eqn:E.
  - exists s. split_and!; try done. by left.
  - exists s. split_and!; try done. right. split; [done|]. intros v.
    by eapply (free_absent valid); eauto.
Qed.

Lemma find_slot_finds_witness :
  exists i s, find_slot (replicate 128 (@new_slot Z Z _)) 7 = Ret i /\
    replicate 128 new_slot !! i = Some s /\
    ((state s = FILLED /\ key s = 7) \/
     (state s <> FILLED /\ forall v, ~ filled (replicate 128 (@new_slot Z Z _)) 7 v)).
Proof.
  apply (find_slot_finds (fun k => k <> 0)); [apply replicate_wf|done|by rewrite count_replicate].
Defined.

(** C29. The default-constructed key is different: since the search compares keys before slot states,
    a buried slot on the key's probe path (its key was reset to the default one) hides the entry
    stored further along, and the look-up reports a key that is in the table as absent. *)
Theorem default_key_can_be_lost :
  exists t, run HashMap.empty ([Insert 128 1; Insert 0 2; Get 0; Erase 128; Get 0] : list (operation Z Z)) =
    Ret ([Bool true; Bool true; Found (Some 2); Bool true; Found None], t) /\ filled (slots t) 0 2.
Proof. eexists. split; [by vm_compute|]. by exists 1%nat. Qed.
