(* ===== verification/Value.v ===== *)
(** * Values (include/value.hpp)

    A [Value] is a tagged union with a flag for variables that were declared
    but not assigned.  Objects are referred to by [ref], the model's pointers:
    they are never null here, a pointer that may be null is an [option ref]. *)

From S2P Require Import Prelude Double.

(** [Object *] *)
Abbreviation ref := positive (only parsing).

#[global] Instance spec_float_eq_dec : EqDecision spec_float.
Proof. solve_decision. Defined.

(** The tag and the union, [Value::ValueType] and [Value::Data]. *)
Inductive value_data : Type :=
  | NIL
  | BOOLEAN (b : bool)
  | NUMBER_REAL (d : double)
  | NUMBER_INT (i : Z)
  | OBJECT (o : ref).

Record Value : Type := mkValue { uninitialized : bool; data : value_data }.

#[global] Instance value_data_eq_dec : EqDecision value_data.
Proof. solve_decision. Defined.
#[global] Instance Value_eq_dec : EqDecision Value.
Proof. solve_decision. Defined.

Module Value.

(** [const double EPSILON = 1e-9] *)
Definition EPSILON : double := S754_finite false 4835703278458517 (-82).

(** The constructors [Value(T)] and [Value()]. *)
Definition of_bool (b : bool) : Value := mkValue false (BOOLEAN b).
Definition of_int (i : Z) : Value := mkValue false (NUMBER_INT i).
Definition of_real (d : double) : Value := mkValue false (NUMBER_REAL d).
Definition of_object (o : ref) : Value := mkValue false (OBJECT o).
Definition nil : Value := mkValue false NIL.

Definition is_nil (v : Value) : bool := match data v with NIL => true | _ => false end.
Definition is_bool (v : Value) : bool := match data v with BOOLEAN _ => true | _ => false end.
Definition is_integer (v : Value) : bool := match data v with NUMBER_INT _ => true | _ => false end.
Definition is_real (v : Value) : bool := match data v with NUMBER_REAL _ => true | _ => false end.
Definition is_number (v : Value) : bool := is_integer v || is_real v.
Definition is_object (v : Value) : bool := match data v with OBJECT _ => true | _ => false end.

(** Reading a union member that is not the active one is undefined. *)
Definition as_integer (v : Value) : outcome Z :=
  match data v with NUMBER_INT i => Ret i | _ => Undef "inactive member i" end.
Definition as_real (v : Value) : outcome double :=
  match data v with NUMBER_REAL d => Ret d | _ => Undef "inactive member d" end.
Definition as_bool (v : Value) : outcome bool :=
  match data v with BOOLEAN b => Ret b | _ => Undef "inactive member b" end.
Definition as_object (v : Value) : outcome ref :=
  match data v with OBJECT o => Ret o | _ => Undef "inactive member o" end.

Definition coerce_integer (v : Value) : outcome Z :=
  match data v with
  | NUMBER_INT i => Ret i
  | NUMBER_REAL d => Double.to_int64 d
  | _ => Throw "Invalid type coersion to int"
  end.

Definition coerce_real (v : Value) : outcome double :=
  match data v with
  | NUMBER_INT i => Ret (Double.of_Z i)
  | NUMBER_REAL d => Ret d
  | _ => Throw "Invalid type coersion to double"
  end.

Definition is_falsey (v : Value) : bool :=
  match data v with
  | BOOLEAN b => negb b
  | NIL => true
  | _ => false
  end.

Definition is_uninitialized (v : Value) : bool := uninitialized v.
Definition set_uninitialized (v : Value) (new_state : bool) : Value := mkValue new_state (data v).

End Value.
