(* ===== verification/Chunk.v ===== *)
(** * Chunks of bytecode (include/chunk.hpp, src/common/chunk.cpp)

    The bytes of a function, its constants and the run-length table that maps
    byte offsets to source lines.  The offsets, [int] in the code, are not
    wrapped: the two differ beyond 2^31 bytes of code in one function. *)

From S2P Require Import Prelude Double Opcode Value.

Record LineInfo : Type := mkLineInfo { offset : Z; line_number : Z }.

Record Chunk : Type := mkChunk {
  code : list Z;
  value_array : list Value;
  lines : list LineInfo
}.

Module Chunk.

Definition empty : Chunk := mkChunk [] [] [].

Definition set_code (c : Chunk) (bs : list Z) : Chunk := mkChunk bs (value_array c) (lines c).

(** [code.size()] *)
Definition size (c : Chunk) : Z := Z.of_nat (length (code c)).

Definition add_line_number (c : Chunk) (offset line : Z) : Chunk :=
  match last (lines c) with
  | Some info =>
      if line_number info =? line then c
      else mkChunk (code c) (value_array c) (lines c ++ [mkLineInfo offset line])
  | None => mkChunk (code c) (value_array c) (lines c ++ [mkLineInfo offset line])
  end.

Definition push_code (c : Chunk) (byte : Z) : Chunk := set_code c (code c ++ [byte]).

Definition write_byte (c : Chunk) (byte line : Z) : Chunk :=
  push_code (add_line_number c (size c) line) byte.

Definition write_simple_op (c : Chunk) (op : OpCode.t) (line : Z) : Chunk :=
  push_code (add_line_number c (size c) line) (u8 (OpCode.to_int op)).

Definition write_uint16_le (c : Chunk) (bytes line : Z) : Chunk :=
  let c := add_line_number c (size c) line in
  let c := write_byte c (u8 (Z.land bytes 0xFF)) line in
  write_byte c (u8 (Z.land (Z.shiftr bytes 8) 0xFF)) line.

Definition write_load_constant (c : Chunk) (index line : Z) : outcome Chunk :=
  if index <? 0 then Throw "Invalid index for write_load_constant. Underflow: < 0"
  else if index <=? 0xFF then
    Ret (write_byte (write_simple_op c OpCode.LOAD_CONSTANT line) (u8 index) line)
  else if index <=? 0xFFFF then
    Ret (write_uint16_le (write_simple_op c OpCode.LOAD_CONSTANT_LONG line) (u16 index) line)
  else Throw "Invalid index for write_load_constant. Overflow: > 0xFFFF".

Definition add_constant (c : Chunk) (v : Value) : outcome (Z * Chunk) :=
  if 0xFFFF <? Z.of_nat (length (value_array c)) then Throw "Too many constants in chunk"
  else
    let values := value_array c ++ [v] in
    Ret (Z.of_nat (length values) - 1, mkChunk (code c) values (lines c)).

(** The loop of [get_line_number], from the second entry on; [prev] is the entry before. *)
Fixpoint find_line (prev : LineInfo) (infos : list LineInfo) (off : Z) : Z :=
  match infos with
  | [] => line_number prev
  | info :: infos =>
      if off <? offset info then line_number prev
      else if offset info =? off then line_number info
      else find_line info infos off
  end.

Definition get_line_number (c : Chunk) (off : Z) : Z :=
  match lines c with
  | [] => 0
  | [info] => line_number info
  | info :: infos => find_line info infos off
  end.

Definition get_value (c : Chunk) (index : Z) : option Value :=
  if (index <? 0) || (Z.of_nat (length (value_array c)) <=? index) then None
  else value_array c !! Z.to_nat index.

Definition get_value_unchecked (c : Chunk) (index : Z) : outcome Value :=
  if index <? 0 then Undef "negative index"
  else or_undef "constant index out of range" (value_array c !! Z.to_nat index).

End Chunk.
