(* ===== verification/ChunkFacts.v ===== *)
(** * Chunks: line table and operand encoding *)

From S2P Require Import Prelude Double Opcode Value Chunk.
Import Chunk.

(** ** Two-byte operands *)

(** What [VM::read_uint16_le] reads back from two consecutive bytes. *)
Definition le16 (lo hi : Z) : Z := Z.lor lo (u16 (Z.shiftl hi 8)).

Lemma le16_bytes n :
  is_u16 n -> le16 (u8 (Z.land n 0xFF)) (u8 (Z.land (Z.shiftr n 8) 0xFF)) = n.
Proof.
  intros Hn. unfold le16, u8, u16.
  change 0xFF with (Z.ones 8). rewrite !Z.land_ones, <-!Z.land_ones by lia.
  rewrite !Z.land_ones, !Zmod_mod by lia. rewrite Z.shiftr_div_pow2, Z.shiftl_mul_pow2 by lia.
  assert (Hdiv : 0 <= n / 2 ^ 8 < 2 ^ 8)
    by (unfold is_u16 in Hn; split; [apply Z.div_pos; lia|apply Z.div_lt_upper_bound; lia]).
  rewrite (Z.mod_small (n / 2 ^ 8)) by lia. rewrite (Z.mod_small (n / 2 ^ 8 * 2 ^ 8)) by lia.
  rewrite <-Z.shiftl_mul_pow2, <-Z.land_ones by lia.
  rewrite Z.lor_comm, <-Z.shiftr_div_pow2 by lia.
  rewrite <-Z.ldiff_ones_r, Z.lor_comm by lia. apply Z.bits_inj'. intros i Hi.
  rewrite Z.lor_spec, Z.land_spec, Z.ldiff_spec. destruct (Z.testbit n i); [|done].
  by destruct (Z.testbit (Z.ones 8) i).
Qed.

(** ** Writes as bytes *)

Lemma code_add_line c off line : code (add_line_number c off line) = code c.
Proof. unfold add_line_number. by repeat case_match. Qed.

Lemma values_add_line c off line : value_array (add_line_number c off line) = value_array c.
Proof. unfold add_line_number. by repeat case_match. Qed.

Lemma code_write_byte c b line : code (write_byte c b line) = code c ++ [b].
Proof. cbn. by rewrite code_add_line. Qed.

Lemma values_write_byte c b line : value_array (write_byte c b line) = value_array c.
Proof. apply values_add_line. Qed.

(** An opcode is a byte, and an operand is two. *)
Lemma write_simple_op_byte c op line :
  write_simple_op c op line = write_byte c (OpCode.to_int op) line.
Proof. unfold write_simple_op. by rewrite u8_small by apply OpCode.to_int_u8. Qed.

Lemma add_line_number_idem c off off' line :
  add_line_number (add_line_number c off line) off' line = add_line_number c off line.
Proof.
  assert (last (lines (add_line_number c off line)) = Some (mkLineInfo off line) \/
    exists info, last (lines (add_line_number c off line)) = Some info /\ line_number info = line)
    as Hlast.
  { unfold add_line_number. repeat case_match; zbool; cbn; rewrite ?last_snoc; eauto. }
  set (c' := add_line_number c off line) in *. unfold add_line_number.
  destruct Hlast as [->|(info & -> & <-)]; cbn; by rewrite Z.eqb_refl.
Qed.

Lemma write_uint16_le_bytes c n line :
  write_uint16_le c n line =
  write_byte (write_byte c (u8 (Z.land n 0xFF)) line) (u8 (Z.land (Z.shiftr n 8) 0xFF)) line.
Proof.
  unfold write_uint16_le. f_equal. unfold write_byte.
  by rewrite add_line_number_idem.
Qed.

Create Rewrite HintDb chunk.
#[export] Hint Rewrite code_write_byte values_write_byte write_simple_op_byte
  write_uint16_le_bytes : chunk.

(** ** The line table *)

(** Writing [ws], bytes with the lines they come from, into [c]. *)
Fixpoint write_all (c : Chunk) (ws : list (Z * Z)) : Chunk :=
  match ws with
  | [] => c
  | (b, line) :: ws => write_all (write_byte c b line) ws
  end.

(** The line the table gives to [off], by the last entry that starts at or before it. *)
Fixpoint run_line (infos : list LineInfo) (default off : Z) : Z :=
  match infos with
  | [] => default
  | info :: infos => if offset info <=? off then run_line infos (line_number info) off else default
  end.

(** Entries in increasing order of offset. *)
Fixpoint ascending (lo : Z) (infos : list LineInfo) : Prop :=
  match infos with [] => True | info :: infos => lo < offset info /\ ascending (offset info) infos end.

(** The table of a chunk that was written byte by byte. *)
Definition table_ok (c : Chunk) (line_of : list Z) : Prop :=
  length line_of = length (code c) /\
  match lines c with
  | [] => line_of = []
  | info :: infos => offset info = 0 /\ ascending 0 infos /\ line_of <> [] /\
      Forall (fun i => offset i < size c) infos /\
      forall i l, line_of !! i = Some l -> run_line infos (line_number info) (Z.of_nat i) = l
  end.

Lemma run_line_late infos lo d off :
  ascending lo infos -> off < lo -> run_line infos d off = d.
Proof. destruct infos as [|info infos]; [done|]. intros [Hlo _] Hoff. cbn. case_match; zbool; lia. Qed.

Lemma find_line_run infos prev off :
  ascending (offset prev) infos -> find_line prev infos off = run_line infos (line_number prev) off.
Proof.
  revert prev. induction infos as [|info infos IH]; intros prev; [done|]. cbn. intros [Hlo Hasc].
  destruct (off <? offset info) eqn:E1; destruct (offset info <=? off) eqn:E2; zbool; try lia.
  destruct (offset info =? off) eqn:E3; zbool.
  - destruct infos as [|info' infos]; [done|]. cbn. destruct Hasc.
    destruct (offset info' <=? off) eqn:E4; zbool; [lia|done].
  - by apply IH.
Qed.

Lemma run_line_snoc infos info d off :
  Forall (fun i => offset i <= offset info) infos ->
  run_line (infos ++ [info]) d off =
  if offset info <=? off then line_number info else run_line infos d off.
Proof.
  revert d. induction infos as [|i infos IH]; intros d Hall; cbn; [done|].
  inversion_clear Hall. destruct (offset i <=? off) eqn:E1; zbool; [by apply IH|].
  destruct (offset info <=? off) eqn:E2; zbool; [lia|done].
Qed.

Lemma run_line_last infos d off :
  Forall (fun i => offset i <= off) infos ->
  run_line infos d off = match last infos with Some info => line_number info | None => d end.
Proof.
  revert d. induction infos as [|i infos IH]; intros d Hall; [done|].
  inversion_clear Hall as [|? ? Hi Hall']. cbn [run_line]. rewrite (proj2 (Z.leb_le _ _) Hi), IH by done.
  rewrite last_cons. by destruct (last infos).
Qed.

Lemma ascending_snoc lo infos info :
  ascending lo infos -> lo < offset info -> Forall (fun i => offset i < offset info) infos ->
  ascending lo (infos ++ [info]).
Proof.
  revert lo. induction infos as [|i infos IH]; intros lo; cbn; [done|].
  intros [? ?] ? Hall. inversion_clear Hall. eauto.
Qed.

Lemma table_ok_write c ls b line :
  table_ok c ls -> table_ok (write_byte c b line) (ls ++ [line]).
Proof.
  intros [Hlen Htab]. unfold table_ok. rewrite code_write_byte, !length_app. split; [cbn; lia|].
  assert (Hsize : size c = Z.of_nat (length ls)) by (unfold size; lia).
  assert (Hsize' : size (write_byte c b line) = size c + 1)
    by (unfold size; rewrite code_write_byte, length_app; cbn; lia).
  change (lines (write_byte c b line)) with (lines (add_line_number c (size c) line)).
  destruct (lines c) as [|info infos] eqn:El.
  { subst ls. unfold add_line_number. rewrite El. cbn. split_and!; [|done|done|done|].
    - unfold size. cbn in Hlen. lia.
    - intros [|i] l Hi; cbn in Hi; simplify_eq; done. }
  destruct Htab as (Hz & Hasc & Hne & Hall & Hline).
  assert (Hpos : 0 < size c) by (destruct ls; [done|cbn in *; lia]).
  assert (Hrun : run_line infos (line_number info) (size c) =
            match last (info :: infos) with Some i => line_number i | None => 0 end).
  { rewrite run_line_last by (eapply Forall_impl; [exact Hall|cbn; lia]).
    rewrite last_cons. by destruct (last infos). }
  assert (Hold : forall i l, (ls ++ [line]) !! i = Some l -> (i < length ls)%nat ->
            run_line infos (line_number info) (Z.of_nat i) = l).
  { intros i l Hi Hlt. rewrite lookup_app_l in Hi by done. by apply Hline. }
  unfold add_line_number. rewrite El. destruct (last (info :: infos)) as [linfo|] eqn:Elast;
    [|by apply last_None in Elast].
  destruct (line_number linfo =? line) eqn:Eline; zbool.
  - rewrite El. split_and!; [done|done|by destruct ls| |].
    + eapply Forall_impl; [exact Hall|cbn; lia].
    + intros i l Hi. destruct (decide (i < length ls)%nat) as [Hlt|Hge]; [by apply Hold|].
      rewrite lookup_app_r in Hi by lia. apply list_lookup_singleton_Some in Hi as [Hi <-].
      replace (Z.of_nat i) with (size c) by lia. by rewrite Hrun, Eline.
  - cbn [lines]. rewrite <-app_comm_cons. split_and!; [done| |by destruct ls| |].
    + by apply ascending_snoc.
    + apply Forall_app. split; [eapply Forall_impl; [exact Hall|cbn; lia]|].
      constructor; [cbn; lia|constructor].
    + intros i l Hi.
      rewrite run_line_snoc by (eapply Forall_impl; [exact Hall|cbn; lia]). cbn [offset line_number].
      destruct (decide (i < length ls)%nat) as [Hlt|Hge].
      * destruct (size c <=? Z.of_nat i) eqn:E; zbool; [lia|by apply Hold].
      * rewrite lookup_app_r in Hi by lia. apply list_lookup_singleton_Some in Hi as [Hi <-].
        destruct (size c <=? Z.of_nat i) eqn:E; zbool; [done|lia].
Qed.

Lemma table_ok_write_all ws : forall c ls,
  table_ok c ls -> table_ok (write_all c ws) (ls ++ ws.*2).
Proof.
  induction ws as [|[b line] ws IH]; intros c ls Hok; cbn [write_all fmap list_fmap].
  - by rewrite app_nil_r.
  - rewrite cons_middle, app_assoc. apply IH. by apply table_ok_write.
Qed.

Lemma table_ok_lookup c ls i l :
  table_ok c ls -> ls !! i = Some l -> get_line_number c (Z.of_nat i) = l.
Proof.
  intros [_ Htab] Hi. unfold get_line_number. destruct (lines c) as [|info infos]; [by subst|].
  destruct Htab as (Hz & Hasc & _ & _ & Hline). rewrite <-(Hline i l Hi).
  destruct infos as [|info' infos]; [done|]. apply find_line_run. by rewrite Hz.
Qed.

Lemma code_write_all ws : forall c, code (write_all c ws) = code c ++ ws.*1.
Proof.
  induction ws as [|[b l] ws IH]; intros c; cbn [write_all fmap list_fmap]; [by rewrite app_nil_r|].
  by rewrite IH, code_write_byte, <-app_assoc.
Qed.
