(* ===== verification/ChunkProps.v ===== *)
(** * What the bytecode writer promises

    The theorems about chunks: operands, constants and line numbers are read
    back as they were written. *)

From S2P Require Import Prelude Double Opcode Value Chunk ChunkFacts.
Import Chunk.

(** How the machine reads the index of a constant back from the instruction. *)
Definition decode_load (bytes : list Z) : option Z :=
  match bytes with
  | [op; b] => if op =? OpCode.to_int OpCode.LOAD_CONSTANT then Some b else None
  | [op; lo; hi] => if op =? OpCode.to_int OpCode.LOAD_CONSTANT_LONG then Some (le16 lo hi) else None
  | _ => None
  end.

Lemma write_load_constant_decodes c i line :
  0 <= i <= 0xFFFF ->
  exists c' bytes, write_load_constant c i line = Ret c' /\ code c' = code c ++ bytes /\
    decode_load bytes = Some i /\ value_array c' = value_array c.
Proof.
  intros Hi. unfold write_load_constant.
  rewrite (proj2 (Z.ltb_ge _ _)) by lia. destruct (i <=? 0xFF) eqn:E; zbool.
  - eexists _, [_; _]. split; [done|]. autorewrite with chunk. rewrite <-app_assoc. split_and!; [done| |].
    + cbn. by rewrite u8_small by (unfold is_u8; lia).
    + done.
  - rewrite (proj2 (Z.leb_le _ _)) by lia. rewrite u16_small by (unfold is_u16; lia).
    eexists _, [_; _; _]. split; [done|]. autorewrite with chunk. rewrite <-!app_assoc. split_and!; [done| |].
    + cbn [decode_load]. rewrite Z.eqb_refl. by rewrite le16_bytes by (unfold is_u16; lia).
    + done.
Qed.

(** C17. A constant added to a chunk with room, then loaded, is the one the machine reads back:
    the instruction written, in its short or long form, decodes to the index of the value, and no
    earlier constant moves. *)
Theorem constant_roundtrip (c : Chunk) (v : Value) (line : Z) :
  Z.of_nat (length (value_array c)) <= 0xFFFF ->
  exists i c1 c2 bytes, add_constant c v = Ret (i, c1) /\ write_load_constant c1 i line = Ret c2 /\
    code c2 = code c ++ bytes /\ decode_load bytes = Some i /\
    get_value_unchecked c2 i = Ret v /\
    (forall j u, get_value_unchecked c j = Ret u -> get_value_unchecked c2 j = Ret u).
Proof.
  intros Hn. unfold add_constant. rewrite (proj2 (Z.ltb_ge _ _)) by lia. rewrite length_app. cbn [length].
  replace (Z.of_nat (length (value_array c) + 1) - 1) with (Z.of_nat (length (value_array c))) by lia.
  set (c1 := mkChunk (code c) (value_array c ++ [v]) (lines c)).
  destruct (write_load_constant_decodes c1 (Z.of_nat (length (value_array c))) line)
    as (c2 & bytes & Hw & Hcode & Hd & Hv); [lia|].
  eexists _, c1, c2, bytes. split_and!; [done|done|done|done| |].
  - unfold get_value_unchecked. rewrite (proj2 (Z.ltb_ge _ _)) by lia.
    rewrite Hv, Nat2Z.id. cbn. by rewrite lookup_app_r, Nat.sub_diag by lia.
  - intros j u. unfold get_value_unchecked. rewrite Hv. case_match; [done|].
    rewrite !or_undef_Ret. cbn. intros Hj. by apply lookup_app_l_Some.
Qed.

Lemma constant_roundtrip_witness :
  exists i c1 c2 bytes, add_constant empty (Value.of_int 7) = Ret (i, c1) /\
    write_load_constant c1 i 3 = Ret c2 /\
    code c2 = code empty ++ bytes /\ decode_load bytes = Some i /\
    get_value_unchecked c2 i = Ret (Value.of_int 7) /\
    (forall j u, get_value_unchecked empty j = Ret u -> get_value_unchecked c2 j = Ret u).
Proof. apply constant_roundtrip. cbn. lia. Defined.

(** C19. The run-length line table is exact: for any sequence of bytes written with the lines they
    come from, looking an offset up gives the line its byte was written with. *)
Theorem line_table_exact (ws : list (Z * Z)) (i : nat) (b line : Z) :
  ws !! i = Some (b, line) ->
  code (write_all empty ws) !! i = Some b /\ get_line_number (write_all empty ws) (Z.of_nat i) = line.
Proof.
  intros Hi. split.
  - rewrite code_write_all. change (code empty) with (@nil Z). rewrite app_nil_l.
    by rewrite list_lookup_fmap, Hi.
  - apply (table_ok_lookup _ ([] ++ ws.*2)); [|rewrite app_nil_l; by rewrite list_lookup_fmap, Hi].
    by apply table_ok_write_all.
Qed.

Lemma line_table_exact_witness :
  code (write_all empty [(4, 1); (5, 1); (6, 9)]) !! 2%nat = Some 6 /\
  get_line_number (write_all empty [(4, 1); (5, 1); (6, 9)]) (Z.of_nat 2) = 9.
Proof. by apply line_table_exact. Defined.
