(* ===== verification/Object.v ===== *)
(** * Heap objects (include/object.hpp, function.hpp, classes.hpp, list.hpp, map.hpp;
    src/common/value.cpp)

    The object classes as one inductive type, the heap they live in, and the
    operations of [Value] that follow object pointers: equality, hashing and
    printing. *)

From S2P Require Import Prelude Double HashMap Hash Platform Opcode Value Chunk.

(** ** Object classes *)

Record ObjectString : Type := mkString { str : string; hash_ : Z }.

(** The native functions of src/native, by the name of the C++ function. *)
Inductive NativeFunction : Set :=
  | native_clock | native_getline | native_println | native_print
  | native_len | native_exit | native_type | native_hash | native_is_hashable
  | native_sqrt | native_rand | native_randint | native_to_int | native_to_double
  | native_to_string | native_assert
  | native_get_bytes_allocated | native_get_bytes_freed | native_get_next_gc
  | native_get_objects_created | native_get_objects_freed | native_get_live_objects
  | native_get_net_bytes | native_display_gc_stats
  | native_has_property | native_get_property | native_set_property | native_del_property
  | native_list | native_pop_list | native_cap_list
  | native_map | native_append_map | native_delete_map | native_keys_map | native_values_map
  | native_has_map | native_clear_map | native_get_map.

#[global] Instance NativeFunction_eq_dec : EqDecision NativeFunction.
Proof. solve_decision. Defined.

Record ObjectFunction : Type := mkFunction {
  arity_ : Z; upvalue_count_ : Z; chunk : Chunk; name_ : ref
}.

Record ObjectNativeFunction : Type := mkNative { native_arity : Z; native_function : NativeFunction }.

(** Where an upvalue points: a slot of the evaluation stack, or its own [closed] member. *)
Inductive location : Set := Slot (i : nat) | Closed.

#[global] Instance location_eq_dec : EqDecision location.
Proof. solve_decision. Defined.

Record ObjectUpvalue : Type := mkUpvalue { next : option ref; closed : Value; loc : location }.

Record ObjectClosure : Type := mkClosure {
  function : ref; upvalues : list (option ref); closure_upvalue_count : Z
}.

(** [StringValueTable] and [ValueValueTable] (include/table.hpp). *)
Abbreviation StringValueTable := (HashMap.table (option ref) Value).
Abbreviation ValueValueTable := (HashMap.table Value Value).

Record ObjectClass : Type := mkClass {
  class_name : ref; init_method : Value; methods_ : StringValueTable
}.

Record ObjectInstance : Type := mkInstance { class_ : ref; fields : StringValueTable }.

Record ObjectBoundMethod : Type := mkBoundMethod { receiver_ : Value; method_ : ref }.

(** [capacity] of a vector is the library's choice; it is kept by the caller of [cap()]. *)
Record ObjectList : Type := mkList { values : list Value }.

Record ObjectMap : Type := mkMap { map_table : ValueValueTable }.

Inductive Object : Type :=
  | ObjString (o : ObjectString)
  | ObjFunction (o : ObjectFunction)
  | ObjClosure (o : ObjectClosure)
  | ObjNative (o : ObjectNativeFunction)
  | ObjUpvalue (o : ObjectUpvalue)
  | ObjClass (o : ObjectClass)
  | ObjInstance (o : ObjectInstance)
  | ObjBoundMethod (o : ObjectBoundMethod)
  | ObjList (o : ObjectList)
  | ObjMap (o : ObjectMap).

Definition get_type (o : Object) : ObjectType.t :=
  match o with
  | ObjString _ => ObjectType.STRING
  | ObjFunction _ => ObjectType.FUNCTION
  | ObjClosure _ => ObjectType.CLOSURE
  | ObjNative _ => ObjectType.NATIVE_FUNCTION
  | ObjUpvalue _ => ObjectType.UPVALUE
  | ObjClass _ => ObjectType.CLASS
  | ObjInstance _ => ObjectType.INSTANCE
  | ObjBoundMethod _ => ObjectType.BOUND_METHOD
  | ObjList _ => ObjectType.LIST
  | ObjMap _ => ObjectType.MAP
  end.

(** ** The heap *)

Record cell : Type := mkCell { is_marked : bool; content : Object }.

Abbreviation heap := (gmap positive cell).

Module Heap.

(** Following a pointer to an object that was freed, or was never created, is undefined. *)
Definition read (h : heap) (r : ref) : outcome Object :=
  or_undef "dangling pointer" (content <$> h !! r).

Definition write (h : heap) (r : ref) (o : Object) : heap :=
  alter (fun c => mkCell (is_marked c) o) r h.

Definition set_mark (h : heap) (r : ref) (b : bool) : heap :=
  alter (fun c => mkCell b (content c)) r h.

(** [static_cast] of an object pointer to one of the classes. *)
Definition bad_cast {A} : outcome A := Undef "static_cast to another object type".

Definition string (h : heap) (r : ref) : outcome ObjectString :=
  o ← read h r; match o with ObjString o => Ret o | _ => bad_cast end.
Definition function (h : heap) (r : ref) : outcome ObjectFunction :=
  o ← read h r; match o with ObjFunction o => Ret o | _ => bad_cast end.
Definition closure (h : heap) (r : ref) : outcome ObjectClosure :=
  o ← read h r; match o with ObjClosure o => Ret o | _ => bad_cast end.
Definition native (h : heap) (r : ref) : outcome ObjectNativeFunction :=
  o ← read h r; match o with ObjNative o => Ret o | _ => bad_cast end.
Definition upvalue (h : heap) (r : ref) : outcome ObjectUpvalue :=
  o ← read h r; match o with ObjUpvalue o => Ret o | _ => bad_cast end.
Definition class (h : heap) (r : ref) : outcome ObjectClass :=
  o ← read h r; match o with ObjClass o => Ret o | _ => bad_cast end.
Definition instance (h : heap) (r : ref) : outcome ObjectInstance :=
  o ← read h r; match o with ObjInstance o => Ret o | _ => bad_cast end.
Definition bound_method (h : heap) (r : ref) : outcome ObjectBoundMethod :=
  o ← read h r; match o with ObjBoundMethod o => Ret o | _ => bad_cast end.
Definition list (h : heap) (r : ref) : outcome ObjectList :=
  o ← read h r; match o with ObjList o => Ret o | _ => bad_cast end.
Definition map (h : heap) (r : ref) : outcome ObjectMap :=
  o ← read h r; match o with ObjMap o => Ret o | _ => bad_cast end.

(** [is_string()], [is_list()] and the like: the value is an object of this type. *)
Definition is_type (h : heap) (t : ObjectType.t) (v : Value) : outcome bool :=
  match data v with
  | OBJECT r => o ← read h r; Ret (bool_decide (get_type o = t))
  | _ => Ret false
  end.

End Heap.

(** ** Equality, hashes and printing of values *)

Section values.
Context `{Platform}.

(** [hash_code()] of each class; [-1] marks lists and maps, which cannot be hashed.  The
    receiver of a bound method is followed, at most [depth] times. *)
Fixpoint hash_code (depth : nat) (h : heap) (v : Value) : outcome Z :=
  match data v with
  | NIL => Ret Hash.NIL_HASH_VALUE
  | BOOLEAN b => Ret (if b then 1 else 0)
  | NUMBER_INT i => Ret (Hash.hash_int i)
  | NUMBER_REAL d => Ret (Hash.hash_double d)
  | OBJECT r =>
      o ← Heap.read h r;
      match o with
      | ObjString s => Ret (hash_ s)
      | ObjFunction _ | ObjClosure _ | ObjNative _ | ObjClass _ | ObjInstance _ =>
          Ret (Hash.hash_pointer (address_of r))
      | ObjUpvalue u =>
          Ret (Hash.hash_pointer
            match loc u with Slot i => address_of_slot i | Closed => address_of_closed r end)
      | ObjBoundMethod b =>
          match depth with
          | O => OutOfFuel
          | S depth =>
              let h1 := Hash.hash_pointer (address_of (method_ b)) in
              h2 ← hash_code depth h (receiver_ b);
              Ret (if h2 =? -1 then h1 else Hash.hash_int (i64 (Z.lxor (u64 h1) (u64 h2))))
          end
      | ObjList _ | ObjMap _ => Ret (-1)
      end
  end.

(** [Value::operator==].  The second object of two is cast to the class of the first without
    a check when that is a bound method or an upvalue; for strings the addresses are compared. *)
Fixpoint equal (depth : nat) (h : heap) (a b : Value) : outcome bool :=
  match data a, data b with
  | NIL, NIL => Ret true
  | BOOLEAN x, BOOLEAN y => Ret (bool_decide (x = y))
  | NUMBER_INT x, NUMBER_INT y => Ret (x =? y)
  | NUMBER_REAL x, NUMBER_REAL y =>
      Ret (Double.ltb (Double.abs (Double.sub x y)) Value.EPSILON)
  | OBJECT x, OBJECT y =>
      o ← Heap.read h x;
      match o with
      | ObjBoundMethod m1 =>
          match depth with
          | O => OutOfFuel
          | S depth =>
              m2 ← Heap.bound_method h y;
              if bool_decide (method_ m1 = method_ m2)
              then equal depth h (receiver_ m1) (receiver_ m2) else Ret false
          end
      | ObjUpvalue u1 =>
          u2 ← Heap.upvalue h y;
          Ret match loc u1, loc u2 with
              | Slot i, Slot j => bool_decide (i = j)
              | Closed, Closed => bool_decide (x = y)
              | _, _ => false
              end
      | _ => Ret (bool_decide (x = y))
      end
  | _, _ => Ret false
  end.

(** The receivers of bound methods are instances, so one level is enough. *)
Definition receiver_depth : nat := 8.

Definition value_hash (h : heap) (v : Value) : outcome Z := hash_code receiver_depth h v.
Definition value_equal (h : heap) (a b : Value) : outcome bool := equal receiver_depth h a b.

(** ** The keys of the program's tables *)

Definition ret_or {A} (default : A) (m : outcome A) : A :=
  match m with Ret a => a | _ => default end.

(** [ObjectString *] keys: pointers are compared, the stored hash is used. *)
#[global] Instance string_key {V} `{Inhabited V} (h : heap) : HashKey (option ref) V := {|
  key_equal a b := bool_decide (a = b);
  hasher k :=
    match k with
    | Some r => ret_or 0 (hash_ <$> Heap.string h r)
    | None => 0
    end;
  default_key := None;
  default_value := inhabitant;
  sizeof_slot := sizeof_table_slot
|}.

#[global] Instance value_inhabited : Inhabited Value := populate Value.nil.
#[global] Instance int_inhabited : Inhabited Z := populate 0.

(** [Value] keys (ValueValueTable).  Comparing and hashing fail only on keys that point to freed objects,
    which the invariants of the heap exclude; the defaults given for them are never used. *)
#[global] Instance value_key (h : heap) : HashKey Value Value := {|
  key_equal a b := ret_or false (value_equal h a b);
  hasher v := ret_or 0 (value_hash h v);
  default_key := Value.nil;
  default_value := Value.nil;
  sizeof_slot := sizeof_table_slot
|}.

(** ** [Value::to_string] *)

Local Open Scope string_scope.

Definition function_to_string (name : string) : string :=
  if String.eqb name "" then "<script>" else ("<function " +:+ name +:+ ">").

Fixpoint join (sep : string) (ss : list string) : string :=
  match ss with
  | [] => ""
  | [s] => s
  | s :: ss => s +:+ sep +:+ join sep ss
  end.

(** [depth] bounds the nesting of lists, maps and receivers: a list that contains itself
    never finishes printing. *)
Fixpoint value_to_string (depth : nat) (h : heap) (v : Value) {struct depth} : outcome string :=
  match depth with
  | O => OutOfFuel
  | S depth =>
    match data v with
    | NIL => Ret "nil"
    | NUMBER_REAL d => Ret (format_real d)
    | NUMBER_INT i => Ret (to_string i)
    | BOOLEAN b => Ret (if b then "true" else "false")
    | OBJECT r =>
        o ← Heap.read h r;
        match o with
        | ObjString s => Ret (str s)
        | ObjFunction f => name ← Heap.string h (name_ f); Ret (function_to_string (str name))
        | ObjClosure c =>
            f ← Heap.function h (function c);
            name ← Heap.string h (name_ f); Ret (function_to_string (str name))
        | ObjClass c => name ← Heap.string h (class_name c); Ret ("<class " +:+ str name +:+ ">")
        | ObjUpvalue _ => Ret "<upvalue>"
        | ObjNative _ => Ret "<native function>"
        | ObjInstance i =>
            c ← Heap.class h (class_ i);
            name ← Heap.string h (class_name c);
            Ret ("<instance of " +:+ str name +:+ " at " +:+ format_pointer (address_of r) +:+ ">")
        | ObjBoundMethod b =>
            s ← value_to_string depth h (receiver_ b); Ret ("<bound method of " +:+ s +:+ ">")
        | ObjList l =>
            ss ← foldr (fun v acc => s ← value_to_string depth h v; ss ← acc; Ret (s :: ss))
                   (Ret []) (values l);
            Ret ("[" +:+ join ", " ss +:+ "]")
        | ObjMap m =>
            ss ← foldr (fun kv acc =>
                     k ← value_to_string depth h kv.1; s ← value_to_string depth h kv.2;
                     ss ← acc; Ret ((k +:+ ": " +:+ s) :: ss))
                   (Ret []) (HashMap.entries (map_table m));
            Ret ("{" +:+ join ", " ss +:+ "}")
        end
    end
  end.

End values.
