(* ===== verification/KeyFacts.v ===== *)
(** * Values and strings as keys

    The laws of the tables keyed by values and by string pointers, and how
    equality of values and their hashes agree. *)

From S2P Require Import Prelude Double HashMap HashMapFacts Hash Platform Opcode Value Chunk Object.

#[global] Instance spec_float_countable : Countable spec_float.
Proof.
  apply (inj_countable'
    (fun d => match d with
              | S754_zero s => (0%nat, s, 1%positive, 0) | S754_infinity s => (1%nat, s, 1%positive, 0)
              | S754_nan => (2%nat, true, 1%positive, 0) | S754_finite s m e => (3%nat, s, m, e) end)
    (fun '(k, s, m, e) => match k with
              | 0%nat => S754_zero s | 1%nat => S754_infinity s | 2%nat => S754_nan
              | _ => S754_finite s m e end)).
  by intros [].
Defined.

#[global] Instance value_data_countable : Countable value_data.
Proof.
  apply (inj_countable'
    (fun d => match d with
              | NIL => (0%nat, true, S754_nan, 0, 1%positive) | BOOLEAN b => (1%nat, b, S754_nan, 0, 1%positive)
              | NUMBER_REAL d => (2%nat, true, d, 0, 1%positive)
              | NUMBER_INT i => (3%nat, true, S754_nan, i, 1%positive)
              | OBJECT r => (4%nat, true, S754_nan, 0, r) end)
    (fun '(k, b, d, i, r) => match k with
              | 0%nat => NIL | 1%nat => BOOLEAN b | 2%nat => NUMBER_REAL d | 3%nat => NUMBER_INT i
              | _ => OBJECT r end)).
  by intros [].
Defined.

#[global] Instance Value_countable : Countable Value.
Proof.
  apply (inj_countable' (fun v => (uninitialized v, data v)) (fun p => mkValue p.1 p.2)).
  by intros [].
Defined.

Section keys.
Context `{PlatformLaws}.

(** ** String pointers *)

#[global] Instance string_key_laws {V} `{Inhabited V} (h : heap) :
  @HashKeyLaws (option ref) V (string_key h) (fun k => k <> None).
Proof.
  split.
  - intros a b _ _. apply bool_decide_eq_true.
  - intros k Hk. apply bool_decide_eq_false. by intros <-.
  - apply sizeof_table_slot_large.
Qed.

(** ** Values *)

(** The values that work as keys without surprise: not nil, which is the default key; not reals, whose
    equality is not transitive; not bound methods and upvalues, whose equality follows pointers. *)
Definition plain_object (o : Object) : Prop :=
  match o with ObjBoundMethod _ | ObjUpvalue _ => False | _ => True end.

Definition plain_key (h : heap) (v : Value) : Prop :=
  uninitialized v = false /\
  match data v with
  | NIL | NUMBER_REAL _ => False
  | BOOLEAN _ | NUMBER_INT _ => True
  | OBJECT r => exists o, Heap.read h r = Ret o /\ plain_object o
  end.

Lemma plain_equal h a b :
  plain_key h a -> plain_key h b -> value_equal h a b = Ret (bool_decide (a = b)).
Proof.
  destruct a as [ua da], b as [ub db]. intros [Hua Ha] [Hub Hb]. cbn in *. subst.
  unfold value_equal, receiver_depth.
  assert (E : forall x y, bool_decide (mkValue false x = mkValue false y) = bool_decide (x = y)).
  { intros x y. apply bool_decide_ext. split; [by intros [= ->]|by intros ->]. }
  rewrite E. destruct da as [|x|x|x|x], db as [|y|y|y|y]; try done; cbn [equal data].
  - f_equal. apply bool_decide_ext. split; [by intros ->|by intros [= ->]].
  - f_equal. destruct (Z.eqb_spec x y) as [->|Hne]; [by rewrite bool_decide_eq_true_2|].
    rewrite bool_decide_eq_false_2; [done|]. by intros [= ->].
  - destruct Ha as (o & -> & Ho). cbn [mbind outcome_bind].
    destruct o; try done; f_equal; apply bool_decide_ext; (split; [by intros ->|by intros [= ->]]).
Qed.

#[global] Instance value_key_laws (h : heap) : @HashKeyLaws Value Value (value_key h) (plain_key h).
Proof.
  split.
  - intros a b Ha Hb. cbn [key_equal value_key]. rewrite plain_equal by done. cbn. apply bool_decide_eq_true.
  - intros k [_ Hk]. cbn [key_equal value_key]. unfold value_equal, receiver_depth.
    by destruct k as [u []].
  - apply sizeof_table_slot_large.
Qed.

(** ** Hashes *)

(** What the heap of a running program satisfies: a string object holds the hash of its text, and
    what a method is bound to is not a real number. *)
Definition hashes_ok (h : heap) : Prop := forall r c, h !! r = Some c ->
  match content c with
  | ObjString s => hash_ s = Hash.hash_string (str s)
  | ObjBoundMethod b => Value.is_real (receiver_ b) = false
  | _ => True
  end.

Definition is_container (h : heap) (v : Value) : Prop :=
  exists r o, data v = OBJECT r /\ Heap.read h r = Ret o /\
    match o with ObjList _ | ObjMap _ => True | _ => False end.

Lemma read_hashes_ok h r o : hashes_ok h -> Heap.read h r = Ret o ->
  match o with
  | ObjString s => hash_ s = Hash.hash_string (str s)
  | ObjBoundMethod b => Value.is_real (receiver_ b) = false
  | _ => True
  end.
Proof.
  unfold Heap.read. rewrite or_undef_Ret. intros Hok (c & Hc & ->)%fmap_Some. exact (Hok r c Hc).
Qed.

Lemma hash_int_hashable v : Hash.hash_int v <> -1.
Proof. apply (Hash.hash_numbers_hashable S754_nan v 0). Qed.
Lemma hash_pointer_hashable p : Hash.hash_pointer p <> -1.
Proof. apply (Hash.hash_numbers_hashable S754_nan 0 p). Qed.
Lemma hash_double_hashable d : Hash.hash_double d <> -1.
Proof. apply (Hash.hash_numbers_hashable d 0 0). Qed.

Lemma hash_code_minus_one depth h v x :
  hashes_ok h -> hash_code depth h v = Ret x -> x = -1 <-> is_container h v.
Proof.
  intros Hok Hx.
  assert (Hleaf : (forall r, data v <> OBJECT r) -> x <> -1 -> x = -1 <-> is_container h v).
  { intros Hd Hne. split; [done|]. intros (r & _ & Hr & _). by destruct (Hd r). }
  destruct (data v) as [|b|d|i|r] eqn:Ed; try (apply Hleaf; [done|]).
  1-4: destruct depth; cbn [hash_code] in Hx; rewrite Ed in Hx; injection Hx as <-;
    first [apply hash_double_hashable | apply hash_int_hashable | destruct b; discriminate | discriminate].
  clear Hleaf.
  assert (exists o, Heap.read h r = Ret o) as [o Ho].
  { destruct depth; cbn [hash_code] in Hx; rewrite Ed in Hx; apply bind_Ret in Hx as (o & Ho & _); by exists o. }
  assert (Hcont : is_container h v <-> match o with ObjList _ | ObjMap _ => True | _ => False end).
  { unfold is_container. rewrite Ed. split; [intros (r' & o' & [= <-] & Ho' & ?)|by intros; exists r, o].
    rewrite Ho in Ho'. by injection Ho' as <-. }
  rewrite Hcont. pose proof (read_hashes_ok h r o Hok Ho) as Hs.
  assert (Hx' : match o with
    | ObjList _ | ObjMap _ => x = -1 | _ => x <> -1 end).
  { destruct depth; cbn [hash_code] in Hx; rewrite Ed, Ho in Hx; cbn [mbind outcome_bind] in Hx;
      destruct o; inv_ret; subst; try done; try apply hash_pointer_hashable.
    1, 2: rewrite Hs; pose proof (Hash.hash_string_range (str o)); unfold is_u32 in *; lia.
    case_match; [apply hash_pointer_hashable|apply hash_int_hashable]. }
  destruct o; tauto.
Qed.

Lemma upvalue_read h r u : Heap.upvalue h r = Ret u -> Heap.read h r = Ret (ObjUpvalue u).
Proof. unfold Heap.upvalue. intros (o & -> & Ho)%bind_Ret. destruct o; inv_ret; by subst. Qed.

Lemma bound_method_read h r b : Heap.bound_method h r = Ret b -> Heap.read h r = Ret (ObjBoundMethod b).
Proof. unfold Heap.bound_method. intros (o & -> & Ho)%bind_Ret. destruct o; inv_ret; by subst. Qed.

Lemma same_location x y (l1 l2 : location) :
  match l1, l2 with
  | Slot i, Slot j => bool_decide (i = j)
  | Closed, Closed => bool_decide (x = y)
  | _, _ => false
  end = true ->
  match l1 with Slot i => address_of_slot i | Closed => address_of_closed x end =
  match l2 with Slot i => address_of_slot i | Closed => address_of_closed y end.
Proof. destruct l1, l2; intros E; try done; apply bool_decide_eq_true in E; by subst. Qed.

(** Equal values have equal hashes, real numbers apart. *)
Lemma equal_hash depth : forall h a b,
  hashes_ok h -> Value.is_real a = false -> equal depth h a b = Ret true ->
  hash_code depth h a = hash_code depth h b.
Proof.
  induction depth as [|depth IH]; intros h [ua da] [ub db] Hok Hr He;
    destruct da as [|x|x|x|x], db as [|y|y|y|y]; cbn [equal hash_code data] in *; try done;
    try (injection He as He; first [apply bool_decide_eq_true in He as -> | apply Z.eqb_eq in He as ->]; done).
  all: apply bind_Ret in He as (o & Ho & He); rewrite Ho; cbn [mbind outcome_bind].
  all: destruct o as [o|o|o|o|o|o|o|o|o|o];
    try (injection He as He; apply bool_decide_eq_true in He as <-; by rewrite Ho); try done.
  1, 2: apply bind_Ret in He as (u2 & ->%upvalue_read & He); injection He as He%same_location;
    cbn [mbind outcome_bind]; by rewrite He.
  apply bind_Ret in He as (m2 & ->%bound_method_read & He). cbn [mbind outcome_bind].
  pose proof (read_hashes_ok h x _ Hok Ho) as Hb. cbn in Hb.
  case_bool_decide as Em; [|done]. rewrite Em. by rewrite (IH h _ _ Hok Hb He).
Qed.

End keys.
