(* ===== verification/Memory.v ===== *)
(** * The allocator and the garbage collector
    (include/allocator.hpp, src/common/allocator.cpp, include/gc.hpp, src/common/gc.cpp)

    The heap with the bookkeeping of the two classes.  What the collector asks
    of the compilers and the virtual machine are their roots: the objects
    [Compiler::mark_compiler_roots] and the second half of [mark_roots] mark,
    in that order, given here as the list [roots]. *)

From S2P Require Import Prelude Double HashMap Hash Platform Opcode Value Chunk Object.

(** [VMOpts] (include/vmopts.hpp); the flags that only change what is printed are left out. *)
Record VMOpts : Type := mkVMOpts {
  value_stack_max : Z;
  frames_max : Z;
  debug_stress_gc : bool;
  gc_heap_grow_factor : Z;
  gc_next_collection : Z
}.

Definition default_vm_opts : VMOpts := mkVMOpts 1024 256 false 2 (1024 * 1024).

(** [Allocator::InternedString] *)
Record InternedString : Type := mkInterned { chars : string; interned_hash : Z }.

(** [strncmp(a, b, n) == 0] of two buffers of [n] characters: both end, or a NUL ends both. *)
Fixpoint strncmp_eq (a b : string) : bool :=
  match a, b with
  | String c a, String d b =>
      Ascii.eqb c d && (Ascii.eqb c Ascii.zero || strncmp_eq a b)
  | _, _ => true
  end.

#[global] Instance interned_key `{Platform} : HashKey InternedString (option ref) := {|
  key_equal a b :=
    if negb (Nat.eqb (String.length (chars a)) (String.length (chars b))) then false
    else if negb (interned_hash a =? interned_hash b) then false
    else strncmp_eq (chars a) (chars b);
  hasher k := interned_hash k;
  default_key := mkInterned "" 0;
  default_value := None;
  sizeof_slot := sizeof_table_slot
|}.

(** The state of the allocator and of its collector. *)
Record Memory : Type := mkMemory {
  objects : heap;
  next_object : positive;
  objs : list ref;
  vopts : VMOpts;
  bytes_allocated : Z;
  bytes_freed : Z;
  next_gc : Z;
  objects_created : Z;
  objects_freed : Z;
  gc_cycles : Z;
  temp_stash : list Value;
  interned_strings : HashMap.table InternedString (option ref);
  gc_disabled : bool;
  never_delete_objects : list ref;
  grey_objects : list ref
}.

Module Memory.

Definition set_objects (m : Memory) (h : heap) : Memory :=
  {| objects := h; next_object := next_object m; objs := objs m; vopts := vopts m;
     bytes_allocated := bytes_allocated m; bytes_freed := bytes_freed m; next_gc := next_gc m;
     objects_created := objects_created m; objects_freed := objects_freed m;
     gc_cycles := gc_cycles m; temp_stash := temp_stash m;
     interned_strings := interned_strings m; gc_disabled := gc_disabled m;
     never_delete_objects := never_delete_objects m; grey_objects := grey_objects m |}.

Definition set_grey (m : Memory) (g : list ref) : Memory :=
  {| objects := objects m; next_object := next_object m; objs := objs m; vopts := vopts m;
     bytes_allocated := bytes_allocated m; bytes_freed := bytes_freed m; next_gc := next_gc m;
     objects_created := objects_created m; objects_freed := objects_freed m;
     gc_cycles := gc_cycles m; temp_stash := temp_stash m;
     interned_strings := interned_strings m; gc_disabled := gc_disabled m;
     never_delete_objects := never_delete_objects m; grey_objects := g |}.

Definition set_objs (m : Memory) (os : list ref) : Memory :=
  {| objects := objects m; next_object := next_object m; objs := os; vopts := vopts m;
     bytes_allocated := bytes_allocated m; bytes_freed := bytes_freed m; next_gc := next_gc m;
     objects_created := objects_created m; objects_freed := objects_freed m;
     gc_cycles := gc_cycles m; temp_stash := temp_stash m;
     interned_strings := interned_strings m; gc_disabled := gc_disabled m;
     never_delete_objects := never_delete_objects m; grey_objects := grey_objects m |}.

Definition set_interned (m : Memory) (t : HashMap.table InternedString (option ref)) : Memory :=
  {| objects := objects m; next_object := next_object m; objs := objs m; vopts := vopts m;
     bytes_allocated := bytes_allocated m; bytes_freed := bytes_freed m; next_gc := next_gc m;
     objects_created := objects_created m; objects_freed := objects_freed m;
     gc_cycles := gc_cycles m; temp_stash := temp_stash m;
     interned_strings := t; gc_disabled := gc_disabled m;
     never_delete_objects := never_delete_objects m; grey_objects := grey_objects m |}.

Definition set_temp_stash (m : Memory) (vs : list Value) : Memory :=
  {| objects := objects m; next_object := next_object m; objs := objs m; vopts := vopts m;
     bytes_allocated := bytes_allocated m; bytes_freed := bytes_freed m; next_gc := next_gc m;
     objects_created := objects_created m; objects_freed := objects_freed m;
     gc_cycles := gc_cycles m; temp_stash := vs;
     interned_strings := interned_strings m; gc_disabled := gc_disabled m;
     never_delete_objects := never_delete_objects m; grey_objects := grey_objects m |}.

(** The counters; [size_t] arithmetic wraps. *)
Definition set_counters (m : Memory) (allocated freed next created destroyed cycles : Z) : Memory :=
  {| objects := objects m; next_object := next_object m; objs := objs m; vopts := vopts m;
     bytes_allocated := u64 allocated; bytes_freed := u64 freed; next_gc := next;
     objects_created := u64 created; objects_freed := u64 destroyed;
     gc_cycles := u64 cycles; temp_stash := temp_stash m;
     interned_strings := interned_strings m; gc_disabled := gc_disabled m;
     never_delete_objects := never_delete_objects m; grey_objects := grey_objects m |}.

(** [Allocator(vm_opts)] with a fresh collector. *)
Definition initial (opts : VMOpts) : Memory :=
  {| objects := ∅; next_object := 1%positive; objs := []; vopts := opts;
     bytes_allocated := 0; bytes_freed := 0; next_gc := u64 (gc_next_collection opts);
     objects_created := 0; objects_freed := 0; gc_cycles := 0; temp_stash := [];
     interned_strings := HashMap.empty; gc_disabled := false; never_delete_objects := [];
     grey_objects := [] |}.

Definition get_net_bytes (m : Memory) : Z := u64 (bytes_allocated m - bytes_freed m).
Definition get_live_objects (m : Memory) : Z := u64 (objects_created m - objects_freed m).

End Memory.

(** ** GarbageCollector *)

Module GarbageCollector.
Section collector.
Context `{Platform}.

Definition mark_object (object : option ref) : M Memory unit :=
  match object with
  | None => mret tt
  | Some r => fun m =>
      match objects m !! r with
      | None => Undef "dangling pointer"
      | Some c =>
          if is_marked c then Ret (tt, m)
          else Ret (tt, Memory.set_grey (Memory.set_objects m (Heap.set_mark (objects m) r true))
                          (r :: grey_objects m))
      end
  end.

Definition mark_value (v : Value) : M Memory unit :=
  match data v with
  | OBJECT r => mark_object (Some r)
  | _ => mret tt
  end.

Definition mark_table (t : StringValueTable) : M Memory unit :=
  for_each (fun kv => mark_object kv.1 ;; mark_value kv.2) (HashMap.entries t).

(** The vector [grey_objects] is kept with its back at the head of the list. *)
Definition blacken_object (object : ref) : M Memory unit :=
  m ← get;
  o ← lift (Heap.read (objects m) object);
  match o with
  | ObjString _ | ObjNative _ => mret tt
  | ObjUpvalue u => mark_value (closed u)
  | ObjFunction f =>
      mark_object (Some (name_ f)) ;; for_each mark_value (value_array (chunk f))
  | ObjClass c => mark_object (Some (class_name c)) ;; mark_table (methods_ c)
  | ObjInstance i => mark_object (Some (class_ i)) ;; mark_table (fields i)
  | ObjBoundMethod b => mark_value (receiver_ b) ;; mark_object (Some (method_ b))
  | ObjClosure c => mark_object (Some (function c)) ;; for_each mark_object (upvalues c)
  | ObjList l => for_each mark_value (values l)
  | ObjMap t =>
      for_each (fun kv => mark_value kv.1 ;; mark_value kv.2) (HashMap.entries (map_table t))
  end.

(** The loop of [trace_references]. *)
Fixpoint trace (fuel : nat) : M Memory unit := fun m =>
  match grey_objects m with
  | [] => Ret (tt, m)
  | last :: rest =>
      match fuel with
      | O => OutOfFuel
      | S fuel => (blacken_object last ;; trace fuel) (Memory.set_grey m rest)
      end
  end.

(** Every object turns grey at most once. *)
Definition trace_references : M Memory unit := fun m =>
  trace (length (grey_objects m) + size (objects m)) m.

Definition mark_roots (roots : list (option ref)) : M Memory unit :=
  m ← get;
  for_each mark_value (temp_stash m) ;;
  for_each mark_object roots ;;
  m ← get;
  for_each (fun r => mark_object (Some r)) (never_delete_objects m).

(** [Allocator::free_object]: the statistics of [delete_object], then [delete]. *)
Definition free_object (r : ref) : M Memory unit :=
  m ← get;
  o ← lift (Heap.read (objects m) r);
  put (Memory.set_objects
         (Memory.set_counters m (bytes_allocated m) (bytes_freed m + sizeof_object (get_type o))
            (next_gc m) (objects_created m) (objects_freed m + 1) (gc_cycles m))
         (delete r (objects m))).

(** [std::swap(objects[i], objects.back()); objects.pop_back();] *)
Definition swap_erase (i : nat) (os : list ref) : list ref :=
  match last os with
  | Some b => removelast (<[i := b]> os)
  | None => os
  end.

(** The loop of [sweep]. *)
Fixpoint sweep_loop (fuel : nat) (i : nat) : M Memory unit := fun m =>
  match objs m !! i with
  | None => Ret (tt, m)
  | Some r =>
      match fuel with
      | O => OutOfFuel
      | S fuel =>
          match objects m !! r with
          | None => Undef "dangling pointer"
          | Some c =>
              if is_marked c
              then sweep_loop fuel (S i) (Memory.set_objects m (Heap.set_mark (objects m) r false))
              else (free_object r ;; sweep_loop fuel i) (Memory.set_objs m (swap_erase i (objs m)))
          end
      end
  end.

Definition sweep : M Memory unit := fun m => sweep_loop (length (objs m)) 0 m.

(** [Allocator::remove_unused_strings]: the slots are visited by index while [erase] buries some. *)
Fixpoint remove_unused (indices : list nat) (count : Z) : M Memory Z :=
  match indices with
  | [] => mret count
  | i :: indices =>
      m ← get;
      s ← lift (or_undef "slot index out of range" (HashMap.slots (interned_strings m) !! i));
      match HashMap.state s, HashMap.value s with
      | HashMap.FILLED, Some r =>
          c ← lift (or_undef "dangling pointer" (objects m !! r));
          if is_marked c then remove_unused indices count
          else
            '(_, t) ← lift (HashMap.erase (interned_strings m) (HashMap.key s));
            put (Memory.set_interned m t) ;; remove_unused indices (count + 1)
      | HashMap.FILLED, None => undef "null pointer"
      | _, _ => remove_unused indices count
      end
  end.

Definition remove_unused_strings : M Memory Z :=
  m ← get; remove_unused (seq 0 (length (HashMap.slots (interned_strings m)))) 0.

Definition collect_garbage (roots : list (option ref)) : M Memory unit :=
  mark_roots roots ;;
  trace_references ;;
  remove_unused_strings ;;
  sweep ;;
  m ← get;
  let next := Z.max (u64 (gc_heap_grow_factor (vopts m) * Memory.get_net_bytes m))
                    (u64 (gc_next_collection (vopts m))) in
  put (Memory.set_counters m (bytes_allocated m) (bytes_freed m) next (objects_created m)
         (objects_freed m) (gc_cycles m)).

End collector.
End GarbageCollector.

(** ** Allocator *)

Module Allocator.
Section allocator.
Context `{Platform} (roots : list (option ref)).

Definition collect_garbage : M Memory unit :=
  m ← get;
  if gc_disabled m then mret tt
  else
    GarbageCollector.collect_garbage roots ;;
    modify (fun m => Memory.set_counters m (bytes_allocated m) (bytes_freed m) (next_gc m)
                       (objects_created m) (objects_freed m) (gc_cycles m + 1)).

(** [if (vopts.debug_stress_gc) collect_garbage();] *)
Definition stress_gc : M Memory unit :=
  m ← get; if debug_stress_gc (vopts m) then collect_garbage else mret tt.

(** [create_object<T>()] *)
Definition create_object (t : ObjectType.t) : M Memory unit :=
  modify (fun m => Memory.set_counters m (bytes_allocated m + sizeof_object t) (bytes_freed m)
                     (next_gc m) (objects_created m + 1) (objects_freed m) (gc_cycles m)) ;;
  m ← get;
  if next_gc m <? Memory.get_net_bytes m then collect_garbage else mret tt.

(** [new T(...)], [is_marked = false] and [objs.push_back(obj)].  A reference is the identity of an
    object during its lifetime, as a block of a memory model is, and not its address: [new] may return
    the address of a freed object, and [address_of] (Platform.v), which has no injectivity law, may give
    two references one address. *)
Definition push_object (o : Object) : M Memory ref := fun m =>
  let r := next_object m in
  Ret (r,
    {| objects := <[r := mkCell false o]> (objects m); next_object := Pos.succ r;
       objs := objs m ++ [r]; vopts := vopts m;
       bytes_allocated := bytes_allocated m; bytes_freed := bytes_freed m; next_gc := next_gc m;
       objects_created := objects_created m; objects_freed := objects_freed m;
       gc_cycles := gc_cycles m; temp_stash := temp_stash m;
       interned_strings := interned_strings m; gc_disabled := gc_disabled m;
       never_delete_objects := never_delete_objects m; grey_objects := grey_objects m |}).

Definition check_interned (s : string) : M Memory (option ref * Z) :=
  m ← get;
  let hash := Hash.hash_string s in
  found ← lift (HashMap.get (interned_strings m) (mkInterned s hash));
  mret (default None found, hash).

(** Both storage types make the same object; they differ in who frees the caller's buffer. *)
Definition intern_string (s : string) : M Memory ref :=
  stress_gc ;;
  '(interned_string, hash) ← check_interned s;
  match interned_string with
  | Some r => mret r
  | None =>
      create_object ObjectType.STRING ;;
      r ← push_object (ObjString (mkString s hash));
      m ← get;
      '(_, t) ← lift (HashMap.insert (interned_strings m) (mkInterned s hash) (Some r));
      put (Memory.set_interned m t) ;;
      mret r
  end.

Definition new_class (name : ref) : M Memory ref :=
  stress_gc ;; create_object ObjectType.CLASS ;;
  push_object (ObjClass (mkClass name Value.nil HashMap.empty)).

(** [values.reserve(cap); values.resize(len, default)], whose arguments convert to [size_t]. *)
Definition new_list (length capacity : Z) (default : Value) : M Memory ref :=
  stress_gc ;; create_object ObjectType.LIST ;;
  if (2 ^ 63 - 1) / 16 <? u64 capacity then throw "vector::reserve"
  else if (2 ^ 63 - 1) / 16 <? u64 length then throw "vector::_M_fill_insert"
  else push_object (ObjList (mkList (replicate (Z.to_nat (u64 length)) default))).

Definition new_map : M Memory ref :=
  stress_gc ;; create_object ObjectType.MAP ;;
  push_object (ObjMap (mkMap HashMap.empty)).

Definition new_instance (c : ref) : M Memory ref :=
  stress_gc ;; create_object ObjectType.INSTANCE ;;
  push_object (ObjInstance (mkInstance c HashMap.empty)).

Definition new_bound_method (receiver : Value) (method : ref) : M Memory ref :=
  stress_gc ;; create_object ObjectType.BOUND_METHOD ;;
  push_object (ObjBoundMethod (mkBoundMethod receiver method)).

Definition push_temp (v : Value) : M Memory unit :=
  modify (fun m => Memory.set_temp_stash m (temp_stash m ++ [v])).
Definition pop_temp : M Memory unit :=
  modify (fun m => Memory.set_temp_stash m (removelast (temp_stash m))).

(** [new_function(arity, name)] *)
Definition new_function (arity : Z) (name : string) : M Memory ref :=
  stress_gc ;;
  interned_name ← intern_string name;
  push_temp (Value.of_object interned_name) ;;
  create_object ObjectType.FUNCTION ;;
  r ← push_object (ObjFunction (mkFunction arity 0 Chunk.empty interned_name));
  pop_temp ;;
  mret r.

(** [new_function(arity, name, upvalue_count, chunk)], for the deserializer. *)
Definition new_loaded_function (arity : Z) (name : ref) (upvalue_count : Z) (c : Chunk)
    : M Memory ref :=
  stress_gc ;; create_object ObjectType.FUNCTION ;;
  push_object (ObjFunction (mkFunction arity upvalue_count c name)).

Definition new_native_function (arity : Z) (f : NativeFunction) : M Memory ref :=
  stress_gc ;; create_object ObjectType.NATIVE_FUNCTION ;;
  push_object (ObjNative (mkNative arity f)).

Definition new_closure (f : ref) : M Memory ref :=
  stress_gc ;; create_object ObjectType.CLOSURE ;;
  m ← get;
  fn ← lift (Heap.function (objects m) f);
  push_object (ObjClosure
    (mkClosure f (replicate (Z.to_nat (upvalue_count_ fn)) None) (upvalue_count_ fn))).

Definition new_upvalue (slot : nat) : M Memory ref :=
  stress_gc ;; create_object ObjectType.UPVALUE ;;
  push_object (ObjUpvalue (mkUpvalue None Value.nil (Slot slot))).

End allocator.
End Allocator.
