(* ===== verification/CollectFacts.v ===== *)
(** * The collector keeps exactly the reachable objects

    Marking as a function on the heap and the grey list, its invariant, and
    the effect of each phase of a collection. *)

From S2P Require Import Prelude Double HashMap HashMapFacts Hash Platform Opcode Value Chunk Object Memory.
Import GarbageCollector.

(** ** Reachability *)

(** The object a value points to. *)
Definition value_ref (v : Value) : option ref :=
  match data v with OBJECT r => Some r | _ => None end.

Definition table_refs (t : StringValueTable) : list (option ref) :=
  kv ← HashMap.entries t; [kv.1; value_ref kv.2].
Definition map_refs (t : ValueValueTable) : list (option ref) :=
  kv ← HashMap.entries t; [value_ref kv.1; value_ref kv.2].

(** The objects an object keeps alive. *)
Definition children (o : Object) : list (option ref) :=
  match o with
  | ObjString _ | ObjNative _ => []
  | ObjUpvalue u => [value_ref (closed u)]
  | ObjFunction f => Some (name_ f) :: (value_ref <$> value_array (chunk f))
  | ObjClass c => Some (class_name c) :: table_refs (methods_ c)
  | ObjInstance i => Some (class_ i) :: table_refs (fields i)
  | ObjBoundMethod b => [value_ref (receiver_ b); Some (method_ b)]
  | ObjClosure c => Some (function c) :: upvalues c
  | ObjList l => value_ref <$> values l
  | ObjMap m => map_refs (map_table m)
  end.

Inductive reachable (h : heap) (roots : list (option ref)) : ref -> Prop :=
  | reachable_root r : Some r ∈ roots -> reachable h roots r
  | reachable_child r c r' : reachable h roots r -> h !! r = Some c ->
      Some r' ∈ children (content c) -> reachable h roots r'.

(** No reachable pointer dangles. *)
Definition closed_heap (h : heap) (roots : list (option ref)) : Prop :=
  forall r, reachable h roots r -> is_Some (h !! r).

(** A heap that keeps what the roots lead to stays closed. *)
Definition keeps_cone (h : heap) (roots : list (option ref)) (h' : heap) : Prop :=
  forall x c, reachable h roots x -> h !! x = Some c -> h' !! x = Some c.

Lemma keeps_closed (h h' : heap) (roots : list (option ref)) : closed_heap h roots -> keeps_cone h roots h' -> closed_heap h' roots.
Proof.
  intros Hcl Hk x Hx. cut (reachable h roots x).
  { intros Hr. destruct (Hcl x Hr) as [c Hc]. exists c. by apply Hk. }
  induction Hx as [x Hx|x c y _ IH Hc Hy]; [by constructor|].
  destruct (Hcl x IH) as [c' Hc']. pose proof (Hk x c' IH Hc'). simplify_eq. by eapply reachable_child.
Qed.

(** ** Marking as a function *)

Definition present (h : heap) (o : option ref) : Prop :=
  match o with Some r => is_Some (h !! r) | None => True end.

Definition mark1 (s : heap * list ref) (o : option ref) : heap * list ref :=
  match o with
  | Some r =>
      match s.1 !! r with
      | Some c => if is_marked c then s else (Heap.set_mark s.1 r true, r :: s.2)
      | None => s
      end
  | None => s
  end.

Definition mark_all (l : list (option ref)) (s : heap * list ref) : heap * list ref := foldl mark1 s l.

Definition with_marks (m : Memory) (s : heap * list ref) : Memory :=
  Memory.set_grey (Memory.set_objects m s.1) s.2.

Lemma with_marks_id m : with_marks m (objects m, grey_objects m) = m.
Proof. by destruct m. Qed.

Lemma lookup_set_mark h r b r' :
  Heap.set_mark h r b !! r' =
  if decide (r = r') then (fun c => mkCell b (content c)) <$> h !! r' else h !! r'.
Proof. unfold Heap.set_mark. case_decide; subst; [apply lookup_alter_eq|by apply lookup_alter_ne]. Qed.

Lemma mark1_content s o r : content <$> (mark1 s o).1 !! r = content <$> s.1 !! r.
Proof.
  unfold mark1. destruct o as [r'|]; [|done]. case_match; [|done]. case_match; [done|]. cbn.
  rewrite lookup_set_mark. case_decide; [|done]. by destruct (s.1 !! r).
Qed.

Lemma mark_all_content l : forall s r, content <$> (mark_all l s).1 !! r = content <$> s.1 !! r.
Proof.
  induction l as [|o l IH]; intros s r; [done|].
  change (mark_all (o :: l) s) with (mark_all l (mark1 s o)). rewrite IH. apply mark1_content.
Qed.

Lemma present_content h h' o :
  (forall r, content <$> h !! r = content <$> h' !! r) -> present h o -> present h' o.
Proof.
  intros Hc. destruct o as [r|]; [|done]. cbn. rewrite <-!(fmap_is_Some content). by rewrite Hc.
Qed.

Lemma present_mark1 s a o : present s.1 o -> present (mark1 s a).1 o.
Proof. apply present_content. intros r. symmetry. apply mark1_content. Qed.

Lemma mark_object_pure m o :
  present (objects m) o ->
  mark_object o m = Ret (tt, with_marks m (mark1 (objects m, grey_objects m) o)).
Proof.
  destruct o as [r|]; cbn; [|by rewrite with_marks_id]. intros [c Hc]. rewrite Hc.
  case_match; [by rewrite with_marks_id|done].
Qed.

Lemma for_each_mark_pure l : forall m,
  Forall (present (objects m)) l ->
  for_each mark_object l m = Ret (tt, with_marks m (mark_all l (objects m, grey_objects m))).
Proof.
  induction l as [|o l IH]; intros m Hl; [cbn; by rewrite with_marks_id|].
  inversion_clear Hl as [|? ? Ho Hl']. cbn [for_each mark_all foldl].
  unfold mbind, M_bind. rewrite mark_object_pure by done.
  rewrite IH; [destruct m; cbn; by destruct (mark1 _ o)|].
  eapply Forall_impl; [exact Hl'|]. intros o' ?. by apply (present_mark1 (objects m, grey_objects m)).
Qed.

(** Sequencing, at a state. *)
Lemma for_each_app {S A} (f : A -> M S unit) l k s :
  for_each f (l ++ k) s = (for_each f l ;; for_each f k) s.
Proof.
  revert s; induction l as [|a l IH]; intros s; [done|]. cbn [for_each app].
  unfold mbind, M_bind in *. destruct (f a s) as [[[] s']| | |]; [|done..]. apply IH.
Qed.

Lemma for_each_fmap {S A B} (f : B -> M S unit) (g : A -> B) l s :
  for_each f (g <$> l) s = for_each (fun a => f (g a)) l s.
Proof.
  revert s; induction l as [|a l IH]; intros s; [done|]. cbn.
  unfold mbind, M_bind in *. destruct (f (g a) s) as [[[] s']| | |]; [|done..]. apply IH.
Qed.

Lemma for_each_ext {S A} (f g : A -> M S unit) l s :
  (forall a s, f a s = g a s) -> for_each f l s = for_each g l s.
Proof.
  intros Hfg. revert s; induction l as [|a l IH]; intros s; [done|]. cbn.
  unfold mbind, M_bind in *. rewrite Hfg. destruct (g a s) as [[[] s']| | |]; [|done..]. apply IH.
Qed.

Lemma for_each_pairs {S A B} (f : B -> M S unit) (g1 g2 : A -> B) l s :
  for_each f (a ← l; [g1 a; g2 a]) s = for_each (fun a => f (g1 a) ;; f (g2 a)) l s.
Proof.
  revert s; induction l as [|a l IH]; intros s; [done|]. cbn.
  unfold mbind, M_bind in *. destruct (f (g1 a) s) as [[[] s1]| | |]; [|done..].
  destruct (f (g2 a) s1) as [[[] s2]| | |]; [|done..]. apply IH.
Qed.

Lemma mark_value_ref v m : mark_value v m = mark_object (value_ref v) m.
Proof. unfold mark_value, value_ref. by destruct (data v). Qed.

Lemma for_each_mark_value vs m :
  for_each mark_value vs m = for_each mark_object (value_ref <$> vs) m.
Proof. rewrite for_each_fmap. apply for_each_ext. apply mark_value_ref. Qed.

Lemma mark_table_refs t m : mark_table t m = for_each mark_object (table_refs t) m.
Proof.
  unfold mark_table, table_refs. rewrite for_each_pairs. apply for_each_ext. intros [k v] s. cbn.
  unfold mbind, M_bind. destruct (mark_object k s) as [[[] s']| | |]; [|done..]. apply mark_value_ref.
Qed.

(** Blackening an object marks its children. *)
Lemma blacken_children r m c :
  objects m !! r = Some c ->
  blacken_object r m = for_each mark_object (children (content c)) m.
Proof.
  intros Hr. unfold blacken_object, mbind, M_bind, get, lift, Heap.read.
  rewrite Hr. cbn [fmap option_fmap option_map or_undef mbind outcome_bind].
  destruct (content c) as [s|f|cl|n|u|k|i|b|l|t]; cbn [children for_each];
    unfold mbind, M_bind.
  - done.
  - destruct (mark_object _ m) as [[[] m']| | |]; [|done..]. apply for_each_mark_value.
  - done.
  - done.
  - rewrite mark_value_ref. by destruct (mark_object _ m) as [[[] m']| | |].
  - destruct (mark_object _ m) as [[[] m']| | |]; [|done..]. apply mark_table_refs.
  - destruct (mark_object _ m) as [[[] m']| | |]; [|done..]. apply mark_table_refs.
  - rewrite mark_value_ref. destruct (mark_object _ m) as [[[] m1]| | |]; [|done..].
    by destruct (mark_object _ m1) as [[[] m2]| | |].
  - apply for_each_mark_value.
  - unfold map_refs. rewrite for_each_pairs. apply for_each_ext. intros [k v] s. cbn.
    unfold mbind, M_bind. rewrite mark_value_ref.
    destruct (mark_object _ s) as [[[] s']| | |]; [|done..]. apply mark_value_ref.
Qed.

(** ** The invariant of the marking phase *)

Definition marked (s : heap * list ref) (r : ref) : Prop :=
  exists c, s.1 !! r = Some c /\ is_marked c = true.

(** [s] is a state of marking the heap [h0] from the roots [R]; the children of marked objects
    that are neither grey nor in [X] are marked. *)
Record marking (h0 : heap) (R : list (option ref)) (X : list ref) (s : heap * list ref) : Prop := {
  marking_content : forall r, content <$> s.1 !! r = content <$> h0 !! r;
  marking_grey : forall r, r ∈ s.2 -> marked s r;
  marking_reach : forall r, marked s r -> reachable h0 R r;
  marking_black : forall r c r', s.1 !! r = Some c -> is_marked c = true -> r ∉ s.2 -> r ∉ X ->
    Some r' ∈ children (content c) -> marked s r'
}.

Lemma mark1_lookup s r r' :
  (mark1 s (Some r)).1 !! r' =
  if decide (r = r') then (fun c => mkCell true (content c)) <$> s.1 !! r else s.1 !! r'.
Proof.
  unfold mark1. destruct (s.1 !! r) as [c|] eqn:Hr.
  - destruct (is_marked c) eqn:Hm; [|cbn; rewrite lookup_set_mark; by case_decide; subst; rewrite ?Hr].
    case_decide; subst; [|done]. rewrite Hr. by destruct c; cbn in *; subst.
  - case_decide; subst; [|done]. by rewrite Hr.
Qed.

Lemma mark1_marked s o r : marked s r -> marked (mark1 s o) r.
Proof.
  destruct o as [r'|]; [|done]. intros (c & Hc & Hm). unfold marked.
  rewrite mark1_lookup. case_decide; subst; [|by exists c]. rewrite Hc. by eexists.
Qed.

Lemma mark1_marks s r : is_Some (s.1 !! r) -> marked (mark1 s (Some r)) r.
Proof. intros [c Hc]. unfold marked. rewrite mark1_lookup, decide_True, Hc by done. by eexists. Qed.

Lemma mark1_grey s o r :
  r ∈ (mark1 s o).2 -> r ∈ s.2 \/ (o = Some r /\ is_Some (s.1 !! r)).
Proof.
  destruct o as [r'|]; [|by left]. unfold mark1. case_match eqn:Hr; [|by left].
  case_match; [by left|]. intros [->|]%elem_of_cons; [|by left]. right. by eexists.
Qed.

Lemma mark1_black s o r c :
  (mark1 s o).1 !! r = Some c -> is_marked c = true -> r ∉ (mark1 s o).2 ->
  exists c0, s.1 !! r = Some c0 /\ is_marked c0 = true /\ content c0 = content c /\ r ∉ s.2.
Proof.
  destruct o as [r'|]; [|by exists c]. rewrite mark1_lookup. unfold mark1.
  destruct (s.1 !! r') as [c'|] eqn:Hr'.
  - case_decide as Heq; subst.
    + intros [= <-] _. rewrite Hr'. destruct (is_marked c') eqn:Hm; [by exists c'|].
      intros Hn. destruct Hn. apply elem_of_cons. by left.
    + intros Hc Hm. exists c. split_and!; [done|done|done|]. destruct (is_marked c'); [done|].
      set_solver.
  - case_decide as Heq; subst; [done|]. by exists c.
Qed.

Lemma mark1_marking h0 R X s o :
  marking h0 R X s -> (forall r, o = Some r -> reachable h0 R r) -> marking h0 R X (mark1 s o).
Proof.
  intros Hs Ho. constructor.
  - intros r. rewrite mark1_content. apply Hs.
  - intros r [Hr|[-> Hr]]%mark1_grey; [by apply mark1_marked, (marking_grey _ _ _ _ Hs)|].
    by apply mark1_marks.
  - intros r (c & Hc & Hm). destruct o as [r'|]; [|apply (marking_reach _ _ _ _ Hs); by exists c].
    rewrite mark1_lookup in Hc. case_decide; [subst; by apply Ho|].
    apply (marking_reach _ _ _ _ Hs). by exists c.
  - intros r c r' Hc Hm Hg HX Hch.
    destruct (mark1_black _ _ _ _ Hc Hm Hg) as (c0 & Hc0 & Hm0 & Heq & Hg0).
    apply mark1_marked, (marking_black _ _ _ _ Hs r c0); [done..|]. by rewrite Heq.
Qed.

(** Marking a list of reachable objects keeps the invariant and marks all of them. *)
Lemma mark_all_marking h0 R X l : forall s,
  marking h0 R X s -> (forall r, Some r ∈ l -> reachable h0 R r) -> closed_heap h0 R ->
  marking h0 R X (mark_all l s) /\
  (forall r, marked s r -> marked (mark_all l s) r) /\
  (forall r, Some r ∈ l -> marked (mark_all l s) r).
Proof.
  induction l as [|o l IH]; intros s Hs Hl Hclosed.
  - split_and!; [done|done|]. by intros r ?%not_elem_of_nil.
  - change (mark_all (o :: l) s) with (mark_all l (mark1 s o)).
    destruct (IH (mark1 s o)) as (Hm & Hmono & Hin).
    + apply mark1_marking; [done|]. intros r ->. apply Hl, elem_of_cons. by left.
    + intros r Hr. apply Hl, elem_of_cons. by right.
    + done.
    + split_and!; [done| |].
      * intros r Hr. by apply Hmono, mark1_marked.
      * intros r [<-|Hr]%elem_of_cons; [|by apply Hin]. apply Hmono, mark1_marks.
        rewrite <-(fmap_is_Some content), (marking_content _ _ _ _ Hs), fmap_is_Some.
        apply Hclosed, Hl, elem_of_cons. by left.
Qed.

Lemma reachable_present h0 R X s o :
  marking h0 R X s -> closed_heap h0 R -> (forall r, o = Some r -> reachable h0 R r) ->
  present s.1 o.
Proof.
  intros Hs Hclosed Ho. destruct o as [r|]; [|done]. cbn.
  rewrite <-(fmap_is_Some content), (marking_content _ _ _ _ Hs), fmap_is_Some.
  by apply Hclosed, Ho.
Qed.

(** ** Termination measure: grey objects and unmarked ones *)

Definition unmarked (h : heap) : nat := size (filter (fun rc => is_marked rc.2 = false) h).

Lemma unmarked_mark h r c :
  h !! r = Some c -> is_marked c = false -> S (unmarked (Heap.set_mark h r true)) = unmarked h.
Proof.
  intros Hr Hm. unfold unmarked.
  set (P := fun rc : ref * cell => is_marked rc.2 = false).
  assert (filter P (Heap.set_mark h r true) = delete r (filter P h)) as ->.
  { apply map_eq. intros r'. apply option_eq. intros c'.
    rewrite map_lookup_filter_Some, lookup_delete_Some, map_lookup_filter_Some, lookup_set_mark.
    case_decide as Heq; subst; [rewrite Hr|]; split.
    - by intros [[= <-] ?].
    - by intros [? _].
    - by intros [? ?].
    - by intros (_ & ? & ?). }
  assert (filter P h !! r = Some c) as Hin by by apply map_lookup_filter_Some.
  rewrite map_size_delete_Some by by eexists.
  assert (size (filter P h) <> 0)%nat; [|lia].
  intros Hz%map_size_empty_inv. by rewrite Hz, lookup_empty in Hin.
Qed.

Lemma mark1_measure s o :
  (length (mark1 s o).2 + unmarked (mark1 s o).1 <= length s.2 + unmarked s.1)%nat.
Proof.
  destruct o as [r|]; [|done]. unfold mark1. case_match eqn:Hr; [|done]. case_match eqn:Hm; [done|].
  cbn. pose proof (unmarked_mark _ _ _ Hr Hm). lia.
Qed.

Lemma mark_all_measure l : forall s,
  (length (mark_all l s).2 + unmarked (mark_all l s).1 <= length s.2 + unmarked s.1)%nat.
Proof.
  induction l as [|o l IH]; intros s; [done|].
  change (mark_all (o :: l) s) with (mark_all l (mark1 s o)).
  pose proof (IH (mark1 s o)). pose proof (mark1_measure s o). lia.
Qed.

Lemma unmarked_size h : (unmarked h <= size h)%nat.
Proof. apply map_size_filter. Qed.

(** ** Tracing *)

Lemma with_marks_marks m s : objects (with_marks m s) = s.1 /\ grey_objects (with_marks m s) = s.2.
Proof. done. Qed.

Lemma with_marks_twice m s s' : with_marks (with_marks m s) s' = with_marks m s'.
Proof. done. Qed.

Lemma trace_marks h0 R m : closed_heap h0 R ->
  forall fuel h g, marking h0 R [] (h, g) -> (length g + unmarked h <= fuel)%nat ->
  exists s, trace fuel (with_marks m (h, g)) = Ret (tt, with_marks m (s, [])) /\
    marking h0 R [] (s, []) /\ (forall r, marked (h, g) r -> marked (s, []) r).
Proof.
  intros Hclosed. induction fuel as [|fuel IH]; intros h g Hs Hfuel.
  - destruct g as [|r g]; [|cbn in Hfuel; lia]. by exists h.
  - destruct g as [|r g]; [by exists h|]. cbn [trace].
    change (grey_objects (with_marks m (h, r :: g))) with (r :: g). cbv iota beta.
    change (Memory.set_grey (with_marks m (h, r :: g)) g) with (with_marks m (h, g)).
    destruct (marking_grey _ _ _ _ Hs r) as (c & Hc & Hm); [apply elem_of_cons; by left|].
    assert (Hr : reachable h0 R r) by (apply (marking_reach _ _ _ _ Hs); by exists c).
    assert (Hch : forall r', Some r' ∈ children (content c) -> reachable h0 R r').
    { intros r' Hr'. pose proof (marking_content _ _ _ _ Hs r) as Heq. cbn in Heq, Hc.
      rewrite Hc in Heq. destruct (h0 !! r) as [c0|] eqn:Hc0; [|done]. cbn in Heq.
      eapply reachable_child; [done|done|]. by injection Heq as <-. }
    assert (Hs' : marking h0 R [r] (h, g)).
    { constructor; cbn.
      - apply (marking_content _ _ _ _ Hs).
      - intros r' Hr'. apply (marking_grey _ _ _ _ Hs). apply elem_of_cons. by right.
      - apply (marking_reach _ _ _ _ Hs).
      - intros r0 c0 r' Hc0 Hm0 Hg0 HX0. apply (marking_black _ _ _ _ Hs r0 c0); try done; set_solver. }
    unfold mbind, M_bind. rewrite (blacken_children r _ c) by done.
    rewrite for_each_mark_pure.
    2:{ apply Forall_forall. intros o Ho. eapply (reachable_present h0 R [r] (h, g)); [done..|].
        intros r' ->. by apply Hch. }
    cbn [objects grey_objects with_marks Memory.set_grey Memory.set_objects fst snd].
    destruct (mark_all_marking h0 R [r] (children (content c)) (h, g) Hs' Hch Hclosed)
      as (Hmk & Hmono & Hin).
    pose proof (mark_all_measure (children (content c)) (h, g)) as Hmeas.
    destruct (mark_all (children (content c)) (h, g)) as [h1 g1]. cbn in Hmeas, Hfuel.
    rewrite with_marks_twice. change (with_marks (with_marks m (h, g)) (h1, g1)) with (with_marks m (h1, g1)).
    destruct (IH h1 g1) as (s & Htr & Hmk' & Hmono').
    + destruct Hmk as [H1 H2 H3 H4]. constructor; [done..|]. intros r0 c0 r' Hc0 Hm0 Hg0 _ Hch0.
      destruct (decide (r0 = r)) as [->|Hne].
      * apply Hin. cbn in Hc0. pose proof (H1 r) as E1. pose proof (marking_content _ _ _ _ Hs r) as E2.
        cbn in E1, E2, Hc. rewrite Hc0, <-E2, Hc in E1. cbn in E1. by injection E1 as <-.
      * eapply (H4 r0 c0); try done. set_solver.
    + lia.
    + exists s. rewrite Htr. split_and!; [done|done|]. intros r0 Hr0. by apply Hmono', Hmono.
Qed.

(** ** Marking from the roots *)

(** Everything [mark_roots] marks. *)
Definition root_refs (roots : list (option ref)) (m : Memory) : list (option ref) :=
  (value_ref <$> temp_stash m) ++ roots ++ (Some <$> never_delete_objects m).

Definition all_unmarked (h : heap) : Prop := forall r c, h !! r = Some c -> is_marked c = false.

Lemma mark_roots_pure roots m :
  Forall (present (objects m)) (root_refs roots m) ->
  mark_roots roots m =
  Ret (tt, with_marks m (mark_all (root_refs roots m) (objects m, grey_objects m))).
Proof.
  intros Hp. rewrite <-for_each_mark_pure by done. unfold root_refs in *.
  rewrite !Forall_app in Hp. destruct Hp as (H1 & H2 & H3). rewrite for_each_app.
  unfold mark_roots, get. cbn [mbind M_bind]. unfold mbind, M_bind.
  rewrite <-for_each_mark_value, for_each_mark_value, for_each_mark_pure by done.
  rewrite for_each_app. unfold mbind, M_bind.
  set (m1 := with_marks m _). rewrite for_each_mark_pure.
  2:{ eapply Forall_impl; [exact H2|]. intros o. apply present_content. intros r.
      symmetry. apply (mark_all_content _ (objects m, grey_objects m)). }
  set (m2 := with_marks m1 _). change (never_delete_objects m2) with (never_delete_objects m).
  by rewrite for_each_fmap.
Qed.

(** The marking phase: afterwards exactly the reachable objects are marked. *)
Lemma mark_phase roots m :
  all_unmarked (objects m) -> grey_objects m = [] -> closed_heap (objects m) (root_refs roots m) ->
  exists h, (mark_roots roots ;; trace_references) m = Ret (tt, with_marks m (h, [])) /\
    (forall r, content <$> h !! r = content <$> objects m !! r) /\
    (forall r, marked (h, []) r <-> reachable (objects m) (root_refs roots m) r).
Proof.
  intros Hun Hg Hclosed. set (R := root_refs roots m) in *.
  assert (Hs0 : marking (objects m) R [] (objects m, [])).
  { constructor; [done|by intros r ?%not_elem_of_nil| |].
    - intros r (c & Hc & Hm). cbn in Hc. by rewrite (Hun _ _ Hc) in Hm.
    - intros r c r' Hc Hm. cbn in Hc. by rewrite (Hun _ _ Hc) in Hm. }
  assert (Hroots : forall r, Some r ∈ R -> reachable (objects m) R r) by (intros; by constructor).
  destruct (mark_all_marking _ R [] R _ Hs0 Hroots Hclosed) as (Hmk & _ & Hin).
  unfold mbind, M_bind. rewrite mark_roots_pure.
  2:{ apply Forall_forall. intros [r|] Hr; [|done]. by apply Hclosed, Hroots. }
  fold R. rewrite Hg. pose proof (mark_all_measure R (objects m, [])) as Hmeas.
  destruct (mark_all R (objects m, [])) as [h g] eqn:E.
  unfold trace_references. cbn [grey_objects objects with_marks Memory.set_grey Memory.set_objects fst snd].
  change (Memory.set_grey (Memory.set_objects m h) g) with (with_marks m (h, g)).
  destruct (trace_marks _ R m Hclosed (length g + size h) h g Hmk) as (s & Htr & Hmk' & Hmono).
  { pose proof (unmarked_size h). lia. }
  exists s. rewrite Htr. split; [done|]. split; [apply (marking_content _ _ _ _ Hmk')|].
  intros r. split; [apply (marking_reach _ _ _ _ Hmk')|].
  induction 1 as [r Hr|r c r' Hr IH Hc Hr']; [by apply Hmono, Hin|].
  destruct IH as (c' & Hc' & Hm'). eapply (marking_black _ _ _ _ Hmk' r c'); [done|done| | |].
  - apply not_elem_of_nil.
  - apply not_elem_of_nil.
  - pose proof (marking_content _ _ _ _ Hmk' r) as Heq. rewrite Hc', Hc in Heq. cbn in Heq.
    by injection Heq as ->.
Qed.
