(* ===== verification/SweepFacts.v ===== *)
(** * The string pool and the sweep

    The interned-string table as a finite map, the erasure of its dead
    entries, the sweep, and the effect of a whole collection. *)

From S2P Require Import Prelude Double HashMap HashMapFacts Hash Platform Opcode Value Chunk Object Memory CollectFacts.
Import GarbageCollector.

(** ** Keys of the string pool *)

Fixpoint no_nul (s : string) : Prop :=
  match s with EmptyString => True | String c s => c <> Ascii.zero /\ no_nul s end.

(** What the allocator stores: the string's own hash; C strings hold no NUL. *)
Definition interned_valid (k : InternedString) : Prop :=
  interned_hash k = Hash.hash_string (chars k) /\ no_nul (chars k).

Lemma strncmp_eq_spec a : forall b,
  no_nul a -> String.length a = String.length b -> strncmp_eq a b = true <-> a = b.
Proof.
  induction a as [|c a IH]; intros [|d b] Ha Hlen; cbn in *; try done.
  destruct Ha as [Hc Ha]. rewrite andb_true_iff, orb_true_iff, !Ascii.eqb_eq.
  rewrite IH by (done || lia). split; [intros [-> [? | ->]]; done|intros [= -> ->]; auto].
Qed.

#[global] Instance InternedString_eq_dec : EqDecision InternedString.
Proof. solve_decision. Defined.
#[global] Instance InternedString_countable : Countable InternedString.
Proof.
  apply (inj_countable' (fun k => (chars k, interned_hash k)) (fun p => mkInterned p.1 p.2)).
  by intros [].
Defined.

#[global] Instance interned_laws `{PlatformLaws} :
  HashKeyLaws InternedString (option ref) interned_valid.
Proof.
  split.
  - intros [a ha] [b hb] [Ea Na] [Eb Nb].
    cbn [key_equal interned_key chars interned_hash] in *. subst.
    destruct (Nat.eqb_spec (String.length a) (String.length b)) as [Hl|Hl]; cbn [negb].
    + destruct (Z.eqb_spec (Hash.hash_string a) (Hash.hash_string b)); cbn [negb].
      * rewrite strncmp_eq_spec by done. split; [by intros ->|by intros [= ->]].
      * split; [done|]. by intros [= ->].
    + split; [done|]. by intros [= ->].
  - intros [b hb] [Eb Nb]. cbn in *. subst. destruct b as [|c b]; [|done]. done.
  - apply sizeof_table_slot_large.
Qed.

(** ** Erasing dead strings *)

Section strings.
Context `{PlatformLaws}.

(** Every entry of the pool is an object that exists. *)
Definition pool_ok (h : heap) (t : HashMap.table InternedString (option ref))
    (p : gmap InternedString (option ref)) : Prop :=
  repr interned_valid t p /\ forall k o, p !! k = Some o -> exists r, o = Some r /\ is_Some (h !! r).

(** The entry's string is marked. *)
Definition live (h : heap) (o : option ref) : Prop := exists r, o = Some r /\ marked (h, []) r.

Lemma remove_unused_spec m p : pool_ok (objects m) (interned_strings m) p ->
  forall n i count t q,
  (i + n = length (HashMap.slots (interned_strings m)))%nat ->
  length (HashMap.slots t) = length (HashMap.slots (interned_strings m)) ->
  repr interned_valid t q -> (forall k o, q !! k = Some o -> p !! k = Some o) ->
  (forall k o, p !! k = Some o -> live (objects m) o -> q !! k = Some o) ->
  (forall j s, (j < i)%nat -> HashMap.slots t !! j = Some s -> HashMap.state s = HashMap.FILLED ->
     live (objects m) (HashMap.value s)) ->
  exists c t' q', remove_unused (seq i n) count (Memory.set_interned m t) =
      Ret (c, Memory.set_interned m t') /\ repr interned_valid t' q' /\
    length (HashMap.slots t') = length (HashMap.slots (interned_strings m)) /\
    forall k o, q' !! k = Some o <-> p !! k = Some o /\ live (objects m) o.
Proof.
  intros [_ Hp]. induction n as [|n IH]; intros i count t q Hi Hlen Hr Hsub Hkeep Hdone.
  - exists count, t, q. split_and!; [done|done|done|]. intros k o. split; [|intros []; auto].
    intros Hk. split; [auto|]. apply (repr_lookup _ _ _ Hr) in Hk as [j Hj].
    apply (Hdone j _) in Hj; [done| |done]. apply lookup_lt_Some in Hj. lia.
  - cbn [seq remove_unused]. unfold mbind, M_bind, get, lift.
    destruct (lookup_lt_is_Some_2 (HashMap.slots t) i) as [s Hs]; [lia|].
    change (interned_strings (Memory.set_interned m t)) with t. rewrite Hs. cbn.
    assert (Hskip : (HashMap.state s = HashMap.FILLED -> live (objects m) (HashMap.value s)) ->
      exists c t' q', remove_unused (seq (S i) n) count (Memory.set_interned m t) =
      Ret (c, Memory.set_interned m t') /\ repr interned_valid t' q' /\
      length (HashMap.slots t') = length (HashMap.slots (interned_strings m)) /\
      forall k o, q' !! k = Some o <-> p !! k = Some o /\ live (objects m) o).
    { intros Hlive. apply (IH (S i) count t q); try done; [lia|].
      intros j sj Hj Hsj Hfill. destruct (decide (j = i)) as [->|]; [|apply (Hdone j); try done; lia].
      simplify_eq. by apply Hlive. }
    destruct (HashMap.state s) eqn:Est; [|by apply Hskip..].
    assert (Hk : q !! HashMap.key s = Some (HashMap.value s)).
    { apply (repr_lookup _ _ _ Hr). exists i. rewrite Hs, <-Est. by destruct s. }
    destruct (Hp _ _ (Hsub _ _ Hk)) as (r & Hv & c & Hc). rewrite Hv.
    change (objects (Memory.set_interned m t)) with (objects m). rewrite Hc. cbn.
    destruct (is_marked c) eqn:Em.
    + apply Hskip. intros _. exists r. split; [done|]. by exists c.
    + destruct (erase_at interned_valid t q i s Hr Hs Est) as (t' & He & Hr' & Hslots).
      rewrite He. cbn.
      destruct (IH (S i) (count + 1) t' (delete (HashMap.key s) q)) as (c' & t2 & q2 & Hrun & Hr2 & Hl2 & Hq2).
      * lia.
      * by rewrite Hslots, length_insert.
      * done.
      * intros k o [_ Hko]%lookup_delete_Some. auto.
      * intros k o Hko Hlive. apply lookup_delete_Some. split; [|auto]. intros <-.
        destruct Hlive as (r' & -> & c' & Hc' & Hm'). rewrite (Hkeep _ (Some r')) in Hk; [|done|].
        -- injection Hk as Hk. rewrite <-Hk in Hv. simplify_eq/=. congruence.
        -- exists r'. split; [done|]. by exists c'.
      * intros j sj Hj Hsj Hfill. rewrite Hslots in Hsj.
        apply list_lookup_insert_Some in Hsj as [(-> & <- & _)|[Hne Hsj]]; [done|].
        apply (Hdone j); try done. lia.
      * by exists c', t2, q2.
Qed.

Lemma remove_unused_strings_spec m p :
  pool_ok (objects m) (interned_strings m) p ->
  exists c t' q, remove_unused_strings m = Ret (c, Memory.set_interned m t') /\
    repr interned_valid t' q /\
    length (HashMap.slots t') = length (HashMap.slots (interned_strings m)) /\
    forall k o, q !! k = Some o <-> p !! k = Some o /\ live (objects m) o.
Proof.
  intros Hp. unfold remove_unused_strings, mbind, M_bind, get.
  assert (Memory.set_interned m (interned_strings m) = m) as Hid by by destruct m.
  destruct (remove_unused_spec m p Hp (length (HashMap.slots (interned_strings m))) 0%nat 0
              (interned_strings m) p) as (c & t' & q & Hrun & Hr & Hl & Hq); try done.
  - apply Hp.
  - intros j s Hj. lia.
  - rewrite Hid in Hrun. by exists c, t', q.
Qed.

(** ** The sweep *)

(** The cells of the objects still to be visited are kept unmarked, or freed. *)
Definition swept (todo : list ref) (h : heap) : heap :=
  map_imap (fun r c =>
    if decide (r ∈ todo) then (if is_marked c then Some (mkCell false (content c)) else None)
    else Some c) h.

Definition keeps (h : heap) (r : ref) : Prop := exists c, h !! r = Some c /\ is_marked c = true.

#[local] Instance keeps_dec h r : Decision (keeps h r).
Proof.
  destruct (h !! r) as [c|] eqn:E; [destruct (is_marked c) eqn:Em|].
  - left. by exists c.
  - right. intros (c' & ? & ?). congruence.
  - right. intros (c' & ? & ?). congruence.
Defined.

Definition dead (h : heap) (r : ref) : Prop := ~ keeps h r.
#[local] Instance dead_dec h r : Decision (dead h r).
Proof. unfold dead. apply _. Defined.

Lemma lookup_swept todo h r :
  swept todo h !! r =
  c ← h !! r;
  if decide (r ∈ todo) then (if is_marked c then Some (mkCell false (content c)) else None) else Some c.
Proof. unfold swept. by rewrite map_lookup_imap. Qed.

Lemma swap_erase_split i done_ r rest :
  length done_ = i ->
  exists rest', swap_erase i (done_ ++ r :: rest) = done_ ++ rest' /\ rest' ≡ₚ rest.
Proof.
  intros <-. unfold swap_erase. destruct rest as [|b rest _] using rev_ind.
  - rewrite last_snoc. exists []. split; [|done].
    rewrite insert_app_r_alt, Nat.sub_diag by done. cbn. by rewrite removelast_last, app_nil_r.
  - replace (done_ ++ r :: rest ++ [b]) with ((done_ ++ r :: rest) ++ [b]) by by rewrite <-app_assoc.
    rewrite last_snoc. exists (b :: rest). split; [|by rewrite Permutation_app_comm].
    rewrite insert_app_l by (rewrite length_app; cbn; lia).
    rewrite removelast_last, insert_app_r_alt, Nat.sub_diag by done. done.
Qed.

(** The part of the state the sweep does not touch. *)
Definition same_but_swept (m m' : Memory) : Prop :=
  next_object m' = next_object m /\ vopts m' = vopts m /\ bytes_allocated m' = bytes_allocated m /\
  next_gc m' = next_gc m /\ objects_created m' = objects_created m /\
  temp_stash m' = temp_stash m /\ interned_strings m' = interned_strings m /\
  gc_disabled m' = gc_disabled m /\ never_delete_objects m' = never_delete_objects m /\
  grey_objects m' = grey_objects m.

Lemma free_object_spec r m c :
  objects m !! r = Some c ->
  free_object r m = Ret (tt, Memory.set_objects
    (Memory.set_counters m (bytes_allocated m) (bytes_freed m + sizeof_object (get_type (content c)))
       (next_gc m) (objects_created m) (objects_freed m + 1) (gc_cycles m)) (delete r (objects m))).
Proof.
  intros Hr. unfold free_object, mbind, M_bind, get, lift, Heap.read. by rewrite Hr.
Qed.

Lemma u64_add a b : u64 (u64 a + b) = u64 (a + b).
Proof. unfold u64. apply Zplus_mod_idemp_l. Qed.

Lemma filter_keeps_ext (P : heap -> ref -> Prop) `{!forall h r, Decision (P h r)} (l : list ref) h h' :
  (forall r, r ∈ l -> P h' r <-> P h r) -> filter (P h') l = filter (P h) l.
Proof.
  induction l as [|a l IH]; intros Hl; [done|].
  assert (Ha : P h' a <-> P h a) by (apply Hl, elem_of_cons; by left).
  rewrite !filter_cons, IH by (intros r Hr; apply Hl, elem_of_cons; by right).
  repeat case_decide; tauto.
Qed.

Lemma keeps_ext h h' r : h' !! r = h !! r -> keeps h' r <-> keeps h r.
Proof. intros E. unfold keeps. by rewrite E. Qed.

Lemma swept_nil h : swept [] h = h.
Proof.
  apply map_eq. intros r. rewrite lookup_swept. destruct (h !! r); [|done]. cbn.
  by rewrite decide_False by apply not_elem_of_nil.
Qed.

Lemma swept_keep h r c rest : r ∉ rest -> h !! r = Some c -> is_marked c = true ->
  swept rest (Heap.set_mark h r false) = swept (r :: rest) h.
Proof.
  intros Hr Hc Hm. apply map_eq. intros r'. rewrite !lookup_swept, lookup_set_mark.
  destruct (decide (r = r')) as [<-|Hne].
  - rewrite Hc. cbn. rewrite decide_False by done. rewrite decide_True by (apply elem_of_cons; by left).
    by rewrite Hm.
  - destruct (h !! r') as [c'|]; [|done]. cbn.
    repeat case_decide; try done; rewrite elem_of_cons in *; naive_solver.
Qed.

Lemma swept_drop h r c rest rest' : r ∉ rest -> rest' ≡ₚ rest -> h !! r = Some c -> is_marked c = false ->
  swept rest' (delete r h) = swept (r :: rest) h.
Proof.
  intros Hr Hp Hc Hm. apply map_eq. intros r'. rewrite !lookup_swept.
  destruct (decide (r = r')) as [<-|Hne].
  - rewrite lookup_delete_eq, Hc. cbn. rewrite decide_True by (apply elem_of_cons; by left). by rewrite Hm.
  - rewrite lookup_delete_ne by done. destruct (h !! r') as [c'|]; [|done]. cbn.
    assert (r' ∈ rest' <-> r' ∈ r :: rest) as E by (rewrite Hp, elem_of_cons; naive_solver).
    repeat case_decide; tauto || done.
Qed.

Lemma sweep_loop_spec fuel : forall i m done_ todo,
  objs m = done_ ++ todo -> length done_ = i -> (length todo <= fuel)%nat -> NoDup (objs m) ->
  (forall r, r ∈ objs m -> is_Some (objects m !! r)) ->
  is_u64 (bytes_allocated m) -> is_u64 (objects_created m) -> is_u64 (objects_freed m) ->
  exists m', sweep_loop fuel i m = Ret (tt, m') /\
    objects m' = swept todo (objects m) /\
    objs m' ≡ₚ done_ ++ filter (keeps (objects m)) todo /\ same_but_swept m m' /\
    objects_freed m' = u64 (objects_freed m + Z.of_nat (length (filter (dead (objects m)) todo))).
Proof.
  assert (Hnil : forall m done_, objs m = done_ ++ [] -> is_u64 (objects_freed m) ->
    objects m = swept [] (objects m) /\ objs m ≡ₚ done_ ++ filter (keeps (objects m)) [] /\
    same_but_swept m m /\ objects_freed m = u64 (objects_freed m + 0)).
  { intros m done_ Hobjs Hf. rewrite swept_nil, Z.add_0_r, u64_small by done.
    split_and!; try done. by rewrite Hobjs. }
  induction fuel as [|fuel IH]; intros i m done_ todo Hobjs Hi Hfuel Hnd Hpres Hb Hc Hf; cbn [sweep_loop].
  { destruct todo; [|cbn in Hfuel; lia]. rewrite Hobjs, app_nil_r, lookup_ge_None_2 by lia.
    exists m. split; [done|]. by apply Hnil. }
  rewrite Hobjs, lookup_app_r, Hi, Nat.sub_diag by lia.
  destruct todo as [|r rest]; cbn [lookup list_lookup]; [exists m; split; [done|]; by apply Hnil|].
  rewrite Hobjs in Hnd. apply NoDup_app in Hnd as (Hnd1 & Hdisj & [Hr Hnd2]%NoDup_cons).
  destruct (Hpres r) as [c Hr0]; [rewrite Hobjs, elem_of_app, elem_of_cons; auto|]. rewrite Hr0.
  assert (Hother : forall r', r' ∈ rest -> r' <> r) by (by intros ? ? ->).
  destruct (is_marked c) eqn:Em.
  - set (m1 := Memory.set_objects m (Heap.set_mark (objects m) r false)).
    assert (Hext : forall r', r' ∈ rest -> keeps (objects m1) r' <-> keeps (objects m) r').
    { intros r' Hin. apply keeps_ext. cbn. rewrite lookup_set_mark, decide_False; [done|].
      apply not_eq_sym. by apply Hother. }
    destruct (IH (S i) m1 (done_ ++ [r]) rest) as (m' & Hrun & Hobj & Hperm & Hsame & Hfreed); try done.
    + cbn. by rewrite Hobjs, <-app_assoc.
    + rewrite length_app. cbn. lia.
    + cbn in Hfuel. lia.
    + cbn. rewrite Hobjs. apply NoDup_app. split_and!; [done|done|by constructor].
    + intros r' Hr'. cbn. rewrite lookup_set_mark. case_decide; subst; [by rewrite Hr0|]. by apply Hpres.
    + exists m'. split; [done|]. split; [rewrite Hobj; by eapply swept_keep|].
      rewrite Hperm, Hfreed. rewrite (filter_keeps_ext keeps _ _ _ Hext).
      rewrite (filter_keeps_ext dead _ (objects m))
        by (intros r' Hin; unfold dead; by rewrite Hext).
      rewrite !(filter_cons _ r). rewrite decide_True by by exists c.
      rewrite decide_False by (intros Hn; apply Hn; by exists c). by rewrite <-app_assoc.
  - destruct (swap_erase_split i done_ r rest Hi) as (rest' & Hswap & Hrest).
    assert (Hnk : ~ keeps (objects m) r) by (intros (c' & ? & ?); congruence).
    unfold mbind, M_bind. rewrite (free_object_spec r _ c) by done. rewrite Hswap.
    set (m1 := Memory.set_objects _ _).
    assert (Hext : forall r', r' ∈ rest' -> keeps (objects m1) r' <-> keeps (objects m) r').
    { intros r' Hin. apply keeps_ext. cbn. rewrite lookup_delete_ne; [done|].
      apply not_eq_sym, Hother. by rewrite <-Hrest. }
    destruct (IH i m1 done_ rest') as (m' & Hrun & Hobj & Hperm & Hsame & Hfreed); try done.
    + rewrite Hrest. cbn in Hfuel. lia.
    + cbn. apply NoDup_app. rewrite Hrest. split_and!; [done| |done].
      intros x Hx Hx'. apply (Hdisj x Hx). rewrite Hrest in Hx'. apply elem_of_cons. by right.
    + intros r' Hr'. cbn in Hr' |- *. rewrite lookup_delete_ne.
      * apply Hpres. rewrite Hobjs. rewrite Hrest in Hr'. set_solver.
      * intros <-. rewrite Hrest in Hr'. apply elem_of_app in Hr' as [Hr'|Hr']; [|done].
        apply (Hdisj r Hr'), elem_of_cons. by left.
    + apply u64_range.
    + apply u64_range.
    + apply u64_range.
    + exists m'. split; [done|]. split; [rewrite Hobj; by eapply swept_drop|].
      rewrite Hperm, Hfreed. rewrite (filter_keeps_ext keeps _ _ _ Hext).
      rewrite (filter_keeps_ext dead _ (objects m))
        by (intros r' Hin; unfold dead; by rewrite Hext).
      rewrite !(filter_cons _ r). rewrite decide_False by done. rewrite decide_True by done.
      split_and!.
      * by rewrite Hrest.
      * destruct Hsame as (?&?&Hb1&?&Hc1&?&?&?&?&?). unfold same_but_swept.
        cbn in Hb1, Hc1. rewrite !u64_small in Hb1, Hc1 by done. by split_and!.
      * cbn [objects_freed m1 Memory.set_objects Memory.set_counters length].
        rewrite u64_add.
        f_equal. assert (length (filter (dead (objects m)) rest') =
          length (filter (dead (objects m)) rest)) as -> by (by rewrite Hrest).
        change (objects_freed (Memory.set_objs m (done_ ++ rest'))) with (objects_freed m). lia.
Qed.

(** ** A whole collection *)

(** The allocator's invariant between operations; [p] is what the string pool maps. *)
Record memory_ok (m : Memory) (p : gmap InternedString (option ref)) : Prop := {
  ok_objs : forall r, r ∈ objs m <-> is_Some (objects m !! r);
  ok_nodup : NoDup (objs m);
  ok_unmarked : all_unmarked (objects m);
  ok_grey : grey_objects m = [];
  ok_pool : pool_ok (objects m) (interned_strings m) p;
  ok_allocated : is_u64 (bytes_allocated m);
  ok_created : is_u64 (objects_created m);
  ok_freed : is_u64 (objects_freed m);
  ok_next : forall r, is_Some (objects m !! r) -> (r < next_object m)%positive
}.

(** The counters of created and freed objects tell how many exist, up to [d]: one is counted
    before it is made. *)
Definition live_count (d : Z) (m : Memory) : Prop :=
  Memory.get_live_objects m = u64 (Z.of_nat (length (objs m)) + d).

(** What a collection leaves alone. *)
Definition same_roots (m m' : Memory) : Prop :=
  next_object m' = next_object m /\ vopts m' = vopts m /\ temp_stash m' = temp_stash m /\
  gc_disabled m' = gc_disabled m /\ never_delete_objects m' = never_delete_objects m /\
  length (HashMap.slots (interned_strings m')) = length (HashMap.slots (interned_strings m)).

Lemma u64_sub_mod a b c : u64 (a - u64 (b + c)) = u64 (u64 (a - b) - c).
Proof. unfold u64. rewrite Zminus_mod_idemp_r, Zminus_mod_idemp_l. f_equal. lia. Qed.

Lemma length_filter_keeps h l :
  (length (filter (keeps h) l) + length (filter (dead h) l) = length l)%nat.
Proof.
  induction l as [|r l IH]; [done|]. rewrite !filter_cons. unfold dead at 1.
  repeat case_decide; cbn [length]; try lia; tauto.
Qed.

(** The sweep, after exactly the objects of [live_] were marked. *)
Lemma sweep_phase m h p t q (live_ : ref -> Prop) :
  memory_ok m p ->
  (forall r, content <$> h !! r = content <$> objects m !! r) ->
  (forall r, marked (h, []) r <-> live_ r) ->
  repr interned_valid t q -> (forall k o, q !! k = Some o <-> p !! k = Some o /\ live h o) ->
  length (HashMap.slots t) = length (HashMap.slots (interned_strings m)) ->
  exists m', sweep (Memory.set_interned (with_marks m (h, [])) t) = Ret (tt, m') /\
    memory_ok m' q /\ same_roots m m' /\
    (forall r c, objects m' !! r = Some c <-> objects m !! r = Some c /\ live_ r) /\
    (forall d, live_count d m -> live_count d m').
Proof.
  intros Hok Hcont Hmk Hr Hq Hlen.
  assert (Hsome : forall r, is_Some (h !! r) <-> is_Some (objects m !! r)).
  { intros r. by rewrite <-!(fmap_is_Some content), Hcont. }
  destruct (sweep_loop_spec (length (objs m)) 0%nat (Memory.set_interned (with_marks m (h, [])) t) []
              (objs m)) as (m' & Hrun & Hobj & Hperm & Hsame & Hfreed); try done.
  { apply Hok. }
  { intros r Hin. cbn. apply Hsome. by apply (ok_objs _ _ Hok). }
  { apply Hok. } { apply Hok. } { apply Hok. }
  cbn [objects Memory.set_interned with_marks Memory.set_grey Memory.set_objects fst objects_freed app] in *.
  assert (Hobjs : forall r c, objects m' !! r = Some c <-> objects m !! r = Some c /\ live_ r).
  { intros r c. rewrite Hobj, lookup_swept, <-Hmk. unfold marked. cbn. pose proof (Hcont r) as Er.
    destruct (h !! r) as [c1|]; destruct (objects m !! r) as [c2|] eqn:E2; try done; cbn in *;
      [|by split; [|intros []]].
    rewrite decide_True by (by apply (ok_objs _ _ Hok)). pose proof (ok_unmarked _ _ Hok _ _ E2) as Hu.
    injection Er as Er. rewrite Er. assert (mkCell false (content c2) = c2) as -> by (by destruct c2; cbn in *; subst).
    destruct (is_marked c1) eqn:Em; split; try done.
    - intros ->. split; [done|]. by exists c1.
    - by intros [? _].
    - intros [_ (c' & [= <-] & ?)]. congruence. }
  assert (Hkeep : forall r, keeps h r <-> live_ r) by (intros r; apply Hmk).
  destruct Hsame as (Hs1&Hs2&Hs3&Hs4&Hs5&Hs6&Hs7&Hs8&Hs9&Hs10).
  exists m'. split_and!; [exact Hrun| | |done|].
  - constructor.
    + intros r. rewrite Hperm, list_elem_of_filter, Hkeep, (ok_objs _ _ Hok). split.
      * intros [Hl [c Hc]]. exists c. by apply Hobjs.
      * intros [c [Hc Hl]%Hobjs]. by split; [|exists c].
    + rewrite Hperm. apply NoDup_filter, Hok.
    + intros r c [Hc _]%Hobjs. by apply (ok_unmarked _ _ Hok r).
    + by rewrite Hs10.
    + rewrite Hs7. split; [done|]. intros k o [Hp (r & -> & Hl)]%Hq. exists r. split; [done|].
      destruct (proj2 (ok_pool _ _ Hok) _ _ Hp) as (r' & [= <-] & c & Hc).
      exists c. apply Hobjs. split; [done|]. by apply Hmk.
    + rewrite Hs3. apply Hok.
    + rewrite Hs5. apply Hok.
    + rewrite Hfreed. apply u64_range.
    + intros r [c [Hc _]%Hobjs]. rewrite Hs1. apply (ok_next _ _ Hok). by exists c.
  - unfold same_roots. rewrite Hs7. by split_and!.
  - intros d Hd. unfold live_count, Memory.get_live_objects in *. rewrite Hs5, Hfreed.
    cbn [objects_created Memory.set_interned with_marks Memory.set_grey Memory.set_objects].
    rewrite u64_sub_mod, Hd, Hperm. unfold u64. rewrite Zminus_mod_idemp_l. f_equal.
    pose proof (length_filter_keeps h (objs m)). lia.
Qed.

Lemma collect_spec roots m p :
  memory_ok m p -> closed_heap (objects m) (root_refs roots m) ->
  exists m' q, collect_garbage roots m = Ret (tt, m') /\ memory_ok m' q /\ same_roots m m' /\
    (forall r c, objects m' !! r = Some c <->
       objects m !! r = Some c /\ reachable (objects m) (root_refs roots m) r) /\
    (forall k o, q !! k = Some o <-> p !! k = Some o /\
       exists r, o = Some r /\ reachable (objects m) (root_refs roots m) r) /\
    (forall d, live_count d m -> live_count d m').
Proof.
  intros Hok Hclosed.
  destruct (mark_phase roots m) as (h & Hmark & Hcont & Hreach); [apply Hok|apply Hok|done|].
  apply M_bind_Ret in Hmark as ([] & m0 & Hroots & Htrace).
  destruct (remove_unused_strings_spec (with_marks m (h, [])) p) as (n & t & q & Hrem & Hr & Hlen & Hq).
  { destruct (ok_pool _ _ Hok) as [Hrp Hp]. split; [done|]. intros k o Hk.
    destruct (Hp k o Hk) as (r & -> & Hsr). exists r. split; [done|]. cbn.
    by rewrite <-(fmap_is_Some content), Hcont, fmap_is_Some. }
  destruct (sweep_phase m h p t q _ Hok Hcont Hreach Hr Hq Hlen) as (m1 & Hsweep & Hok1 & Hsame & Hobjs & Hb).
  unfold collect_garbage, mbind, M_bind. rewrite Hroots, Htrace, Hrem, Hsweep. cbn [get put].
  eexists _, q. split; [done|]. split_and!.
  - destruct Hok1. constructor; cbn; try done.
    + apply u64_range.
    + apply u64_range.
    + apply u64_range.
  - unfold same_roots in *. cbn. tauto.
  - exact Hobjs.
  - intros k o. rewrite Hq. unfold live. split; intros [Hp (r & -> & Hl)]; (split; [done|]);
      exists r; (split; [done|]); by apply Hreach.
  - intros d Hd%Hb. unfold live_count, Memory.get_live_objects in *. cbn.
    by rewrite !(u64_small (objects_created m1)), !(u64_small (objects_freed m1)) by apply Hok1.
Qed.

End strings.
