(* ===== verification/AllocatorFacts.v ===== *)
(** * Allocation and string interning

    Every allocation may collect first; objects reachable from the roots
    survive, the string pool stays exactly the set of string objects, and the
    counters stay accurate. *)

From S2P Require Import Prelude Double HashMap HashMapFacts Hash Platform Opcode Value Chunk Object Memory CollectFacts SweepFacts.

Section allocation.
Context `{PlatformLaws}.
Implicit Types (m : Memory) (p q : gmap InternedString (option ref)) (roots : list (option ref)).

(** The pool maps each string to the one object that holds it. *)
Definition pool_exact m p : Prop := forall k r,
  p !! k = Some (Some r) <->
  exists c, objects m !! r = Some c /\ content c = ObjString (mkString (chars k) (interned_hash k)).

Record inv m p : Prop := { inv_ok : memory_ok m p; inv_pool : pool_exact m p }.

(** No pointer the roots lead to dangles. *)
Definition gc_safe roots m : Prop := closed_heap (objects m) (root_refs roots m).
Definition kept roots m (r : ref) : Prop := reachable (objects m) (root_refs roots m) r.

(** [m'] is [m] after any number of collections. *)
Record after_gc roots m m' : Prop := {
  after_sub : forall r c, objects m' !! r = Some c -> objects m !! r = Some c;
  after_keep : forall r c, kept roots m r -> objects m !! r = Some c -> objects m' !! r = Some c;
  after_roots : same_roots m m'
}.

Lemma same_roots_refl m : same_roots m m.
Proof. by unfold same_roots. Qed.

Lemma same_roots_trans m1 m2 m3 : same_roots m1 m2 -> same_roots m2 m3 -> same_roots m1 m3.
Proof.
  unfold same_roots. intros. destruct_and!. split_and!; congruence.
Qed.

Lemma root_refs_same roots m m' : same_roots m m' -> root_refs roots m' = root_refs roots m.
Proof. intros (_ & _ & E3 & _ & E5 & _). unfold root_refs. by rewrite E3, E5. Qed.

Lemma after_gc_refl roots m : after_gc roots m m.
Proof. constructor; [done|done|apply same_roots_refl]. Qed.

Lemma after_gc_kept roots m m' r : after_gc roots m m' -> kept roots m' r <-> kept roots m r.
Proof.
  intros Ha. unfold kept. rewrite (root_refs_same _ _ _ (after_roots _ _ _ Ha)). split.
  - induction 1 as [r Hr|r c r' _ IH Hc Hch]; [by constructor|].
    eapply reachable_child; [done|by apply (after_sub _ _ _ Ha)|done].
  - induction 1 as [r Hr|r c r' Hr IH Hc Hch]; [by constructor|].
    eapply reachable_child; [done|by apply (after_keep _ _ _ Ha)|done].
Qed.

Lemma after_gc_safe roots m m' : after_gc roots m m' -> gc_safe roots m -> gc_safe roots m'.
Proof.
  intros Ha Hs r Hr. apply (after_gc_kept roots m m' r Ha) in Hr.
  destruct (Hs r Hr) as [c Hc]. exists c. by apply (after_keep _ _ _ Ha).
Qed.

Lemma after_gc_trans roots m1 m2 m3 :
  after_gc roots m1 m2 -> after_gc roots m2 m3 -> after_gc roots m1 m3.
Proof.
  intros H12 H23. constructor.
  - intros r c Hc. by apply (after_sub _ _ _ H12), (after_sub _ _ _ H23).
  - intros r c Hr Hc. apply (after_keep _ _ _ H23); [by apply (after_gc_kept roots m1)|].
    by apply (after_keep _ _ _ H12).
  - eapply same_roots_trans; [apply (after_roots _ _ _ H12)|apply (after_roots _ _ _ H23)].
Qed.

(** ** Collections *)

Lemma collect_inv roots m p :
  inv m p -> gc_safe roots m ->
  exists m' q, GarbageCollector.collect_garbage roots m = Ret (tt, m') /\ inv m' q /\
    after_gc roots m m' /\ (forall d, live_count d m -> live_count d m') /\
    (forall r c, objects m' !! r = Some c -> kept roots m r).
Proof.
  intros [Hok Hex] Hs.
  destruct (collect_spec roots m p Hok Hs) as (m' & q & Hrun & Hok' & Hsame & Hobj & Hq & Hlive).
  exists m', q. split_and!; [done| | |done|].
  - split; [done|]. intros k r. rewrite Hq, (Hex k r). split.
    + intros ((c & Hc & Hs') & r' & [= <-] & Hr). exists c. split; [|done]. by apply Hobj.
    + intros (c & [Hc Hr]%Hobj & Hs'). split; [by exists c|by exists r].
  - constructor; [|intros r c ??; by apply Hobj|done]. by intros r c [? _]%Hobj.
  - by intros r c [_ ?]%Hobj.
Qed.

(** Turning the counters does not matter to the rest. *)
Lemma counters_inv m p a b n c d e :
  inv m p -> inv (Memory.set_counters m a b n c d e) p.
Proof.
  intros [Hok Hex]. split; [|done]. destruct Hok. constructor; cbn; try done; apply u64_range.
Qed.

Lemma allocator_collect roots m p :
  inv m p -> gc_safe roots m ->
  exists m' q, Allocator.collect_garbage roots m = Ret (tt, m') /\ inv m' q /\
    after_gc roots m m' /\ (forall d, live_count d m -> live_count d m').
Proof.
  intros Hi Hs. unfold Allocator.collect_garbage, mbind, M_bind, get.
  destruct (gc_disabled m); [exists m, p; split_and!; try done; apply after_gc_refl|].
  destruct (collect_inv roots m p Hi Hs) as (m' & q & -> & Hi' & Ha & Hl & _).
  cbn [modify]. eexists _, q. split; [done|]. split_and!.
  - by apply counters_inv.
  - destruct Ha as [H1 H2 H3]. by constructor.
  - intros d Hd%Hl. unfold live_count, Memory.get_live_objects in *. cbn.
    by rewrite !(u64_small (objects_created m')), !(u64_small (objects_freed m')) by apply (inv_ok _ _ Hi').
Qed.

Lemma stress_gc_spec roots m p :
  inv m p -> gc_safe roots m ->
  exists m' q, Allocator.stress_gc roots m = Ret (tt, m') /\ inv m' q /\
    after_gc roots m m' /\ (forall d, live_count d m -> live_count d m').
Proof.
  intros Hi Hs. unfold Allocator.stress_gc, mbind, M_bind, get. case_match.
  - by eapply allocator_collect.
  - exists m, p. split_and!; try done; apply after_gc_refl.
Qed.

Lemma create_object_spec roots t m p :
  inv m p -> gc_safe roots m ->
  exists m' q, Allocator.create_object roots t m = Ret (tt, m') /\ inv m' q /\
    after_gc roots m m' /\ (forall d, live_count d m -> live_count (d + 1) m').
Proof.
  intros Hi Hs. unfold Allocator.create_object, mbind, M_bind, get, modify.
  set (m1 := Memory.set_counters m _ _ _ _ _ _).
  assert (Hi1 : inv m1 p) by by apply counters_inv.
  assert (Ha1 : after_gc roots m m1) by by constructor.
  assert (Hl1 : forall d, live_count d m -> live_count (d + 1) m1).
  { intros d Hd. unfold live_count, Memory.get_live_objects in *. cbn.
    rewrite (u64_small (objects_freed m)) by apply (ok_freed _ _ (inv_ok _ _ Hi)). unfold u64 in *.
    rewrite Zminus_mod_idemp_l. replace (objects_created m + 1 - objects_freed m)
      with (objects_created m - objects_freed m + 1) by lia.
    rewrite Z.add_mod, Hd, <-Z.add_mod by lia. f_equal. lia. }
  case_match.
  - destruct (allocator_collect roots m1 p Hi1) as (m' & q & -> & Hi' & Ha & Hl).
    { by eapply after_gc_safe. }
    exists m', q. split_and!; try done; [by eapply after_gc_trans|]. intros d Hd. by apply Hl, Hl1.
  - by exists m1, p.
Qed.

(** ** New objects *)

Lemma fresh_object m p : inv m p -> objects m !! next_object m = None.
Proof.
  intros Hi. apply eq_None_not_Some. intros Hs. apply (ok_next _ _ (inv_ok _ _ Hi)) in Hs. lia.
Qed.

(** [m'] is [m] with the object [r] added, after any number of collections. *)
Record extends roots m (r : ref) m' : Prop := {
  ext_only : forall r' c, r' <> r -> objects m' !! r' = Some c -> objects m !! r' = Some c;
  ext_keep : forall r' c, kept roots m r' -> objects m !! r' = Some c -> objects m' !! r' = Some c;
  ext_stash : temp_stash m' = temp_stash m;
  ext_never : never_delete_objects m' = never_delete_objects m
}.

Lemma ext_roots roots m r m' : extends roots m r m' -> root_refs roots m' = root_refs roots m.
Proof. intros []. unfold root_refs. congruence. Qed.

Lemma extends_kept roots m r m' : gc_safe roots m -> extends roots m r m' ->
  forall x, kept roots m' x <-> kept roots m x.
Proof.
  intros Hs He x. unfold kept. rewrite (ext_roots _ _ _ _ He). split.
  - induction 1 as [x Hr|x c y _ IH Hc Hch]; [by constructor|].
    destruct (Hs x IH) as [c' Hc']. pose proof (ext_keep _ _ _ _ He x c' IH Hc').
    simplify_eq. by eapply reachable_child.
  - induction 1 as [x Hr|x c y Hx IH Hc Hch]; [by constructor|].
    eapply reachable_child; [done|by apply (ext_keep _ _ _ _ He)|done].
Qed.

Lemma extends_safe roots m r m' : gc_safe roots m -> extends roots m r m' -> gc_safe roots m'.
Proof.
  intros Hs He x Hx. apply (extends_kept _ _ _ _ Hs He) in Hx. destruct (Hs x Hx) as [c Hc].
  exists c. by apply (ext_keep _ _ _ _ He).
Qed.

Lemma push_objs_ok m p o m' :
  inv m p -> Allocator.push_object o m = Ret (next_object m, m') ->
  memory_ok m' p /\ (forall d, live_count (d + 1) m -> live_count d m').
Proof.
  intros Hi [= <-]. pose proof (fresh_object m p Hi) as Hfresh. destruct Hi as [Hok _]. split.
  - constructor; cbn.
    + intros r. rewrite elem_of_app, list_elem_of_singleton, (ok_objs _ _ Hok).
      destruct (decide (r = next_object m)) as [->|Hne].
      * rewrite lookup_insert_eq. split; [by eexists|by right].
      * rewrite lookup_insert_ne by done. split; [by intros [?|?]|by left].
    + apply NoDup_app. split_and!; [apply Hok| |apply NoDup_singleton].
      intros r Hr ->%list_elem_of_singleton. apply (ok_objs _ _ Hok) in Hr. by rewrite Hfresh in Hr.
    + intros r c. rewrite lookup_insert_Some. intros [[<- <-]|[_ Hc]]; [done|].
      by apply (ok_unmarked _ _ Hok r).
    + apply Hok.
    + destruct (ok_pool _ _ Hok) as [Hr Hp]. split; [done|]. intros k x Hk.
      destruct (Hp k x Hk) as (r & -> & Hs). exists r. split; [done|].
      rewrite lookup_insert_is_Some'. by right.
    + apply Hok.
    + apply Hok.
    + apply Hok.
    + intros r. rewrite lookup_insert_is_Some'. intros [<-|Hs]; [lia|].
      pose proof (ok_next _ _ Hok r Hs). lia.
  - intros d Hd. unfold live_count, Memory.get_live_objects in *. cbn. rewrite Hd, length_app.
    cbn [length]. f_equal. lia.
Qed.

Definition is_string_object (o : Object) : Prop := match o with ObjString _ => True | _ => False end.

Lemma pushed_pool m p o m' :
  inv m p -> Allocator.push_object o m = Ret (next_object m, m') -> ~ is_string_object o ->
  pool_exact m' p.
Proof.
  intros Hi Hpush Ho k r. pose proof (fresh_object m p Hi) as Hfresh. injection Hpush as <-. cbn.
  rewrite (inv_pool _ _ Hi k r). destruct (decide (r = next_object m)) as [->|Hne].
  - rewrite Hfresh, lookup_insert_eq. split; [by intros (? & ? & _)|].
    intros (c & [= <-] & Hc). destruct Ho. cbn in Hc. by rewrite Hc.
  - by rewrite lookup_insert_ne.
Qed.

Lemma pushed_extends roots m m2 p2 o m3 :
  inv m2 p2 -> after_gc roots m m2 -> Allocator.push_object o m2 = Ret (next_object m2, m3) ->
  extends roots m (next_object m2) m3.
Proof.
  intros Hi Ha [= <-]. pose proof (fresh_object m2 p2 Hi) as Hfresh. constructor.
  - intros r' c Hne. cbn. rewrite lookup_insert_ne by done. apply (after_sub _ _ _ Ha).
  - intros r' c Hr Hc. cbn. apply (after_keep _ _ _ Ha _ _ Hr) in Hc. rewrite lookup_insert_ne; [done|].
    intros <-. by rewrite Hfresh in Hc.
  - apply (after_roots _ _ _ Ha).
  - apply (after_roots _ _ _ Ha).
Qed.

(** Allocating any object but a string, as every [new_*] function does. *)
Lemma allocate_spec roots t o m p :
  inv m p -> gc_safe roots m -> ~ is_string_object o -> live_count 0 m ->
  exists r m' q,
    (Allocator.stress_gc roots ;; Allocator.create_object roots t ;; Allocator.push_object o) m =
      Ret (r, m') /\
    inv m' q /\ live_count 0 m' /\ objects m' !! r = Some (mkCell false o) /\
    objects m !! r = None /\ extends roots m r m'.
Proof.
  intros Hi Hs Ho Hlive. unfold mbind, M_bind.
  destruct (stress_gc_spec roots m p Hi Hs) as (m1 & p1 & -> & Hi1 & Ha1 & Hl1).
  destruct (create_object_spec roots t m1 p1 Hi1) as (m2 & p2 & -> & Hi2 & Ha2 & Hl2);
    [by eapply after_gc_safe|].
  assert (Ha : after_gc roots m m2) by by eapply after_gc_trans.
  pose proof (fresh_object m2 p2 Hi2) as Hfresh.
  assert (Hn : next_object m2 = next_object m) by apply (after_roots _ _ _ Ha).
  destruct (Allocator.push_object o m2) as [[r m3]| | |] eqn:Hpush; try done.
  assert (r = next_object m2) as -> by by injection Hpush as <- <-.
  destruct (push_objs_ok m2 p2 o m3 Hi2 Hpush) as [Hok3 Hl3].
  assert (Hobj : objects m3 = <[next_object m2 := mkCell false o]> (objects m2)) by by injection Hpush as <-.
  exists (next_object m2), m3, p2. split_and!; [done| | | | |].
  - split; [done|]. by eapply pushed_pool.
  - apply Hl3, Hl2, Hl1, Hlive.
  - by rewrite Hobj, lookup_insert_eq.
  - rewrite Hn. by apply (fresh_object m p).
  - by eapply pushed_extends.
Qed.

(** ** Interning *)

Definition pool_key (s : string) : InternedString := mkInterned s (Hash.hash_string s).

Lemma pool_key_valid s : no_nul s -> interned_valid (pool_key s).
Proof. by split. Qed.

Lemma check_interned_spec s m p :
  inv m p -> no_nul s ->
  Allocator.check_interned s m = Ret ((default None (p !! pool_key s), Hash.hash_string s), m).
Proof.
  intros Hi Hnul. pose proof (ok_pool _ _ (inv_ok _ _ Hi)) as [Hr _].
  unfold Allocator.check_interned, mbind, M_bind, get, lift. fold (pool_key s).
  by rewrite (get_repr interned_valid _ _ _ Hr (pool_key_valid s Hnul)).
Qed.

(** The second half of [intern_string]: the text was not found, and its object is counted. *)
Definition add_interned (s : string) : M Memory ref :=
  r ← Allocator.push_object (ObjString (mkString s (Hash.hash_string s)));
  m ← get;
  '(_, t) ← lift (HashMap.insert (interned_strings m) (mkInterned s (Hash.hash_string s)) (Some r));
  put (Memory.set_interned m t) ;;
  mret r.

Lemma pool_grows m p o m' t s : inv m p -> (forall r, p !! pool_key s <> Some (Some r)) ->
  objects m' = <[next_object m := mkCell false (ObjString (mkString s (Hash.hash_string s)))]> (objects m) ->
  memory_ok m' p -> repr interned_valid t (<[pool_key s := Some o]> p) -> o = next_object m ->
  inv (Memory.set_interned m' t) (<[pool_key s := Some o]> p).
Proof.
  intros Hi Hk Hobj Hok Hrt ->. pose proof (fresh_object m p Hi) as Hfresh. destruct (ok_pool _ _ Hok) as [_ Hp3].
  split.
  - destruct Hok. constructor; cbn; try done. split; [done|]. intros k x.
    rewrite lookup_insert_Some. intros [[<- <-]|[_ Hkx]]; [|by apply Hp3 in Hkx].
    exists (next_object m). split; [done|]. by rewrite Hobj, lookup_insert_eq.
  - intros k r. cbn. rewrite Hobj, lookup_insert_Some. destruct (decide (r = next_object m)) as [->|Hne].
    + rewrite lookup_insert_eq. split.
      * intros [[<- _]|[_ Hkx]]; [by eexists|].
        apply (inv_pool _ _ Hi) in Hkx as (c & Hc & _). by rewrite Hfresh in Hc.
      * intros (c & [= <-] & Hc). left. split; [|done]. cbn in Hc. injection Hc as Hc1 Hc2.
        unfold pool_key. destruct k; cbn in *; by subst.
    + rewrite lookup_insert_ne by done. rewrite <-(inv_pool _ _ Hi k r). split.
      * intros [[_ [= ?]]|[_ ?]]; [by destruct Hne|done].
      * intros Hkx. right. split; [|done]. intros <-. by apply (Hk r).
Qed.

Lemma add_interned_outcome s m p :
  inv m p -> no_nul s -> (forall r, p !! pool_key s <> Some (Some r)) ->
  (add_interned s m = Throw HashMap.too_large /\ ~ can_grow (interned_strings m)) \/
  exists m' t, add_interned s m = Ret (next_object m, Memory.set_interned m' t) /\
    Allocator.push_object (ObjString (mkString s (Hash.hash_string s))) m = Ret (next_object m, m') /\
    inv (Memory.set_interned m' t) (<[pool_key s := Some (next_object m)]> p) /\
    (forall d, live_count (d + 1) m -> live_count d (Memory.set_interned m' t)).
Proof.
  intros Hi Hnul Hk. unfold add_interned, mbind, M_bind.
  destruct (Allocator.push_object _ m) as [[r m3]| | |] eqn:Hpush; try done.
  assert (r = next_object m) as -> by by injection Hpush as <- <-.
  destruct (push_objs_ok m p _ m3 Hi Hpush) as [Hok3 Hl3]. destruct (ok_pool _ _ Hok3) as [Hr3 _].
  unfold get, lift. change (mkInterned s (Hash.hash_string s)) with (pool_key s).
  destruct (insert_repr interned_valid _ _ (pool_key s) (Some (next_object m)) Hr3
              (pool_key_valid s Hnul)) as [[-> Hfull]|(t & -> & Hrt)].
  { left. split; [done|]. contradict Hfull. by injection Hpush as <-. }
  right. exists m3, t. split; [done|]. split; [done|]. split.
  - eapply pool_grows; try done. by injection Hpush as <-.
  - intros d Hd. unfold live_count in *. cbn. by apply Hl3.
Qed.

(** Interning returns the one object that holds the text: the old one if there is one, or else a
    new one, unless the pool's array is too large to grow. *)
Lemma intern_outcome roots s m p :
  inv m p -> gc_safe roots m -> no_nul s -> live_count 0 m ->
  (Allocator.intern_string roots s m = Throw HashMap.too_large /\ ~ can_grow (interned_strings m)) \/
  exists r m' q, Allocator.intern_string roots s m = Ret (r, m') /\
    inv m' q /\ live_count 0 m' /\ q !! pool_key s = Some (Some r) /\
    objects m' !! r = Some (mkCell false (ObjString (mkString s (Hash.hash_string s)))) /\
    extends roots m r m'.
Proof.
  intros Hi Hs Hnul Hlive. unfold Allocator.intern_string.
  destruct (stress_gc_spec roots m p Hi Hs) as (m1 & p1 & Hgc & Hi1 & Ha1 & Hl1).
  rewrite (M_bind_run _ _ _ _ _ Hgc), (M_bind_run _ _ _ _ _ (check_interned_spec s m1 p1 Hi1 Hnul)).
  destruct (p1 !! pool_key s) as [o|] eqn:Hk; cbn [default from_option].
  - destruct (proj2 (ok_pool _ _ (inv_ok _ _ Hi1)) _ _ Hk) as (r & -> & _).
    destruct (proj1 (inv_pool _ _ Hi1 _ r) Hk) as (c & Hc & Hcs).
    right. exists r, m1, p1. cbn. split_and!; [done|done|by apply Hl1|done| |].
    + rewrite Hc. f_equal. pose proof (ok_unmarked _ _ (inv_ok _ _ Hi1) _ _ Hc).
      destruct c; cbn in *; by subst.
    + constructor; [|apply (after_keep _ _ _ Ha1)|apply (after_roots _ _ _ Ha1)..].
      intros r' c' _. apply (after_sub _ _ _ Ha1).
  - assert (Hs1 : gc_safe roots m1) by by eapply after_gc_safe.
    destruct (create_object_spec roots ObjectType.STRING m1 p1 Hi1 Hs1)
      as (m2 & p2 & Hcr & Hi2 & Ha2 & Hl2). rewrite (M_bind_run _ _ _ _ _ Hcr). fold (add_interned s).
    assert (Ha : after_gc roots m m2) by by eapply after_gc_trans.
    assert (Hk2 : forall r, p2 !! pool_key s <> Some (Some r)).
    { intros r Hk2. apply (inv_pool _ _ Hi2) in Hk2 as (c & Hc & Hcs).
      assert (p1 !! pool_key s = Some (Some r)); [|congruence]. apply (inv_pool _ _ Hi1).
      exists c. split; [|done]. by apply (after_sub _ _ _ Ha2). }
    destruct (add_interned_outcome s m2 p2 Hi2 Hnul Hk2) as [[-> Hfull]|(m3 & t & -> & Hpush & Hi3 & Hl3)].
    + left. split; [done|]. contradict Hfull.
      destruct (after_roots _ _ _ Ha) as (_ & _ & _ & _ & _ & Hlen). unfold can_grow in *. by rewrite Hlen.
    + right. eexists _, _, _. split; [done|]. split_and!; [done| | | |].
      * apply Hl3, Hl2, Hl1, Hlive.
      * by rewrite lookup_insert_eq.
      * injection Hpush as <-. cbn. by rewrite lookup_insert_eq.
      * destruct (pushed_extends roots m m2 p2 _ m3 Hi2 Ha Hpush). by constructor.
Qed.

Lemma intern_spec roots s m p :
  inv m p -> gc_safe roots m -> no_nul s -> live_count 0 m -> can_grow (interned_strings m) ->
  exists r m' q, Allocator.intern_string roots s m = Ret (r, m') /\
    inv m' q /\ live_count 0 m' /\ q !! pool_key s = Some (Some r) /\
    objects m' !! r = Some (mkCell false (ObjString (mkString s (Hash.hash_string s)))) /\
    extends roots m r m'.
Proof. intros Hi Hs Hn Hl Hg. by destruct (intern_outcome roots s m p Hi Hs Hn Hl) as [[_ []]|]. Qed.

End allocation.
