(* ===== verification/GcProps.v ===== *)
(** * What the allocator and the collector promise

    The theorems on collections, allocation and interning. *)

From S2P Require Import Prelude Double HashMap HashMapFacts Hash Platform Opcode Value Chunk Object Memory CollectFacts SweepFacts AllocatorFacts.

Section lemmas.
Context `{PlatformLaws}.
Implicit Types (m : Memory) (roots : list (option ref)).

Lemma initial_inv opts : inv (Memory.initial opts) ∅.
Proof.
  split.
  - constructor; cbn; [| |done|done| |by split; lia..|by intros r []].
    + intros r. split; [by intros ?%not_elem_of_nil|by intros []].
    + constructor.
    + split; [apply (empty_repr interned_valid)|done].
  - intros k r. cbn. split; [done|]. by intros (c & ? & _).
Qed.

Lemma initial_live opts : live_count 0 (Memory.initial opts).
Proof. done. Qed.

Lemma no_roots_safe m : temp_stash m = [] -> never_delete_objects m = [] -> gc_safe [] m.
Proof.
  intros Ht Hn r Hr. unfold root_refs in Hr. rewrite Ht, Hn in Hr. cbn in Hr. exfalso.
  by induction Hr as [r Hr%not_elem_of_nil|].
Qed.

(** What an allocating operation [f] promises: it returns a fresh object [o], the bookkeeping stays
    right, no reachable object is freed or changed and no reachable pointer dangles. *)
Definition allocates roots (f : M Memory ref) (o : Object) m : Prop :=
  exists r m' q, f m = Ret (r, m') /\ inv m' q /\ live_count 0 m' /\
    objects m !! r = None /\ objects m' !! r = Some (mkCell false o) /\
    extends roots m r m' /\ gc_safe roots m'.

Lemma allocates_object roots t o m p :
  inv m p -> gc_safe roots m -> live_count 0 m -> ~ is_string_object o ->
  allocates roots (Allocator.stress_gc roots ;; Allocator.create_object roots t ;; Allocator.push_object o) o m.
Proof.
  intros Hi Hs Hl Ho. destruct (allocate_spec roots t o m p Hi Hs Ho Hl) as (r & m' & q & Hr & ? & ? & ? & ? & ?).
  exists r, m', q. split_and!; try done. by eapply extends_safe.
Qed.

(** A list throws when its capacity or its length is more than a vector may hold; both are converted
    to [size_t]. *)
Lemma allocates_list roots length capacity v m p : inv m p -> gc_safe roots m -> live_count 0 m ->
  if (2 ^ 63 - 1) / 16 <? u64 capacity
  then Allocator.new_list roots length capacity v m = Throw "vector::reserve"
  else if (2 ^ 63 - 1) / 16 <? u64 length
  then Allocator.new_list roots length capacity v m = Throw "vector::_M_fill_insert"
  else allocates roots (Allocator.new_list roots length capacity v)
         (ObjList (mkList (replicate (Z.to_nat (u64 length)) v))) m.
Proof.
  intros Hi Hs Hl. set (o := ObjList _).
  assert (allocates roots (Allocator.stress_gc roots ;; Allocator.create_object roots ObjectType.LIST ;;
    Allocator.push_object o) o m) as Ha by (by eapply allocates_object; [..|intros []]).
  pose proof Ha as (r & m' & q & Hrun & _).
  apply M_bind_Ret in Hrun as ([] & m1 & H1 & ([] & m2 & H2 & _)%M_bind_Ret).
  unfold allocates, Allocator.new_list in *.
  destruct (_ <? u64 capacity); [by rewrite (M_bind_run _ _ _ _ _ H1), (M_bind_run _ _ _ _ _ H2)|].
  destruct (_ <? u64 length); [by rewrite (M_bind_run _ _ _ _ _ H1), (M_bind_run _ _ _ _ _ H2)|exact Ha].
Qed.

(** A closure reads the function after collecting: it must be reachable. *)
Lemma allocates_closure roots f fn m p : inv m p -> gc_safe roots m -> live_count 0 m ->
  kept roots m f -> Heap.function (objects m) f = Ret fn ->
  allocates roots (Allocator.new_closure roots f)
    (ObjClosure (mkClosure f (replicate (Z.to_nat (upvalue_count_ fn)) None) (upvalue_count_ fn))) m.
Proof.
  intros Hi Hs Hl Hf Hfn. set (o := ObjClosure _).
  destruct (allocates_object roots ObjectType.CLOSURE o m p Hi Hs Hl) as (r & m' & q & Hrun & Hi' & Hl' & Hfresh & Hr & He & Hs');
    [by intros []|].
  exists r, m', q. split; [|done]. apply M_bind_Ret in Hrun as ([] & m1 & H1 & Hrun). apply M_bind_Ret in Hrun as ([] & m2 & H2 & H3).
  unfold Allocator.new_closure. rewrite (M_bind_run _ _ _ _ _ H1), (M_bind_run _ _ _ _ _ H2).
  assert (E : Heap.function (objects m2) f = Ret fn).
  { unfold Heap.function, Heap.read in Hfn |- *. destruct (objects m !! f) as [c|] eqn:Ec; [|done].
    pose proof (ext_keep _ _ _ _ He f c Hf Ec) as Ec'. injection H3 as Er <-. cbn in Ec'.
    rewrite Er, lookup_insert_ne in Ec' by (intros ->; by rewrite Hfresh in Ec). by rewrite Ec'. }
  unfold get, lift, mbind, M_bind. by rewrite E.
Qed.

(** Holding an object that has no children on the stash of temporaries. *)
Lemma push_temp_safe roots m n c :
  gc_safe roots m -> objects m !! n = Some c -> children (content c) = [] ->
  gc_safe roots (Memory.set_temp_stash m (temp_stash m ++ [Value.of_object n])) /\
  (forall x, kept roots m x -> kept roots (Memory.set_temp_stash m (temp_stash m ++ [Value.of_object n])) x) /\
  kept roots (Memory.set_temp_stash m (temp_stash m ++ [Value.of_object n])) n.
Proof.
  intros Hs Hc Hch. set (m1 := Memory.set_temp_stash _ _).
  assert (Hroots : forall o, o ∈ root_refs roots m1 <-> o = Some n \/ o ∈ root_refs roots m).
  { intros o. unfold root_refs, m1. cbn. rewrite fmap_app. cbn. set_solver. }
  split_and!.
  - intros x Hx. cut (x = n \/ kept roots m x); [intros [->|Hk]; [by exists c|by apply Hs]|].
    induction Hx as [x [[= <-]|Hx]%Hroots|x cx y _ IH Hcx Hy]; [by left|by right; constructor|].
    cbn in Hcx. destruct IH as [->|Hk]; [simplify_eq; rewrite Hch in Hy; by apply not_elem_of_nil in Hy|].
    right. by eapply reachable_child.
  - intros x Hx. induction Hx as [x Hx|x cx y _ IH Hcx Hy]; [constructor; apply Hroots; by right|].
    by eapply reachable_child.
  - constructor. apply Hroots. by left.
Qed.

Lemma temp_stash_inv m p vs : inv m p -> inv (Memory.set_temp_stash m vs) p.
Proof. intros [[] Hx]. split; [|done]. by constructor. Qed.

(** A function object: its name is interned first, and must survive the collection that making room
    for the function object may cause. *)
Lemma new_function_outcome roots arity name m p :
  inv m p -> gc_safe roots m -> live_count 0 m -> no_nul name ->
  (Allocator.new_function roots arity name m = Throw HashMap.too_large /\ ~ can_grow (interned_strings m)) \/
  exists r n m' q, Allocator.new_function roots arity name m = Ret (r, m') /\ inv m' q /\
    live_count 0 m' /\
    objects m' !! r = Some (mkCell false (ObjFunction (mkFunction arity 0 Chunk.empty n))) /\
    objects m' !! n = Some (mkCell false (ObjString (mkString name (Hash.hash_string name)))) /\
    temp_stash m' = temp_stash m /\ never_delete_objects m' = never_delete_objects m /\
    (forall x c, kept roots m x -> objects m !! x = Some c -> objects m' !! x = Some c).
Proof.
  intros Hi Hs Hl Hn. unfold Allocator.new_function, mbind, M_bind.
  destruct (stress_gc_spec roots m p Hi Hs) as (m1 & p1 & -> & Hi1 & Ha1 & Hl1).
  assert (Hg1 : can_grow (interned_strings m) -> can_grow (interned_strings m1)).
  { intros Hg. destruct (after_roots _ _ _ Ha1) as (_ & _ & _ & _ & _ & Hlen). unfold can_grow in *. by rewrite Hlen. }
  assert (Hs1 : gc_safe roots m1) by by eapply after_gc_safe.
  destruct (intern_outcome roots name m1 p1 Hi1 Hs1 Hn (Hl1 0 Hl)) as [[-> ?]|Hint]; [left; tauto|right].
  destruct Hint as (n & m2 & p2 & -> & Hi2 & Hl2 & _ & Hn2 & He2).
  pose proof (extends_safe _ _ _ _ Hs1 He2) as Hs2.
  destruct (push_temp_safe roots m2 n _ Hs2 Hn2 eq_refl) as (Hs3 & Hk3 & Hkn).
  cbn [Allocator.push_temp modify]. set (m3 := Memory.set_temp_stash m2 _) in *.
  destruct (create_object_spec roots ObjectType.FUNCTION m3 p2 (temp_stash_inv _ _ _ Hi2) Hs3)
    as (m4 & p4 & -> & Hi4 & Ha4 & Hl4).
  set (o := ObjFunction _). pose proof (fresh_object m4 p4 Hi4) as Hfresh.
  destruct (Allocator.push_object o m4) as [[r m5]| | |] eqn:Hpush; try done.
  assert (r = next_object m4) as -> by by injection Hpush as <- <-.
  destruct (push_objs_ok m4 p4 o m5 Hi4 Hpush) as [Hok5 Hl5].
  pose proof (pushed_extends roots m3 m4 p4 o m5 Hi4 Ha4 Hpush) as He5.
  assert (Hobj : objects m5 = <[next_object m4 := mkCell false o]> (objects m4)) by by injection Hpush as <-.
  assert (Ht5 : removelast (temp_stash m5) = temp_stash m2).
  { assert (temp_stash m5 = temp_stash m3) as -> by (injection Hpush as <-; apply (after_roots _ _ _ Ha4)).
    apply removelast_last. }
  exists (next_object m4), n, (Memory.set_temp_stash m5 (temp_stash m2)), p4. split_and!.
  - unfold Allocator.pop_temp, modify. by rewrite Ht5.
  - apply temp_stash_inv. split; [done|]. by eapply pushed_pool; [done..|intros []].
  - apply Hl5. exact (Hl4 0 Hl2).
  - cbn. by rewrite Hobj, lookup_insert_eq.
  - cbn. by apply (ext_keep _ _ _ _ He5).
  - cbn. rewrite (ext_stash _ _ _ _ He2). apply (after_roots _ _ _ Ha1).
  - cbn. rewrite (ext_never _ _ _ _ He5). cbn. rewrite (ext_never _ _ _ _ He2). apply (after_roots _ _ _ Ha1).
  - intros x c Hx Hc. cbn. apply (after_keep _ _ _ Ha1 _ _ Hx) in Hc.
    apply (after_gc_kept _ _ _ _ Ha1) in Hx. pose proof (ext_keep _ _ _ _ He2 _ _ Hx Hc) as Hc2.
    apply (ext_keep _ _ _ _ He5); [|done]. apply Hk3. by apply (extends_kept _ _ _ _ Hs1 He2).
Qed.

Lemma new_function_spec roots arity name m p :
  inv m p -> gc_safe roots m -> live_count 0 m -> no_nul name -> can_grow (interned_strings m) ->
  exists r n m' q, Allocator.new_function roots arity name m = Ret (r, m') /\ inv m' q /\
    live_count 0 m' /\
    objects m' !! r = Some (mkCell false (ObjFunction (mkFunction arity 0 Chunk.empty n))) /\
    objects m' !! n = Some (mkCell false (ObjString (mkString name (Hash.hash_string name)))) /\
    temp_stash m' = temp_stash m /\ never_delete_objects m' = never_delete_objects m /\
    (forall x c, kept roots m x -> objects m !! x = Some c -> objects m' !! x = Some c).
Proof. intros Hi Hs Hl Hn Hg. by destruct (new_function_outcome roots arity name m p Hi Hs Hl Hn) as [[_ []]|]. Qed.

End lemmas.

(** ** A small heap

    A list that holds a map, and a list nobody holds. *)

Definition sample_heap : heap :=
  <[1%positive := mkCell false (ObjList (mkList [Value.of_object 2%positive]))]>
  (<[2%positive := mkCell false (ObjMap (mkMap HashMap.empty))]>
  (<[3%positive := mkCell false (ObjList (mkList []))]> ∅)).

Definition sample_memory : Memory :=
  {| objects := sample_heap; next_object := 4; objs := [1; 2; 3]%positive; vopts := default_vm_opts;
     bytes_allocated := 152; bytes_freed := 0; next_gc := 1048576; objects_created := 3;
     objects_freed := 0; gc_cycles := 0; temp_stash := [];
     interned_strings := HashMap.empty; gc_disabled := false; never_delete_objects := [];
     grey_objects := [] |}.

Lemma sample_heap_lookup (r : ref) : is_Some (sample_heap !! r) <-> r ∈ [1; 2; 3]%positive.
Proof.
  unfold sample_heap. rewrite !lookup_insert_is_Some', lookup_empty, !elem_of_cons, elem_of_nil.
  assert (~ is_Some (None : option cell)) by by intros [].
  split; [intros [<-|[<-|[<-|?]]]|intros [->|[->|[->|[]]]]]; tauto.
Qed.

Lemma sample_ok : memory_ok sample_memory ∅.
Proof.
  constructor; cbn [objects objs sample_memory grey_objects interned_strings bytes_allocated
    objects_created objects_freed next_object]; [| | |done| | | | |].
  - intros r. by rewrite sample_heap_lookup.
  - apply (bool_decide_unpack _). by vm_compute.
  - intros r c. unfold sample_heap. rewrite !lookup_insert_Some, lookup_empty. intros [[_ <-]|[_ [[_ <-]|[_ [[_ <-]|[_ ?]]]]]]; done.
  - split; [apply (empty_repr interned_valid)|done].
  - by split; lia.
  - by split; lia.
  - by split; lia.
  - intros r Hr%sample_heap_lookup. rewrite !elem_of_cons, elem_of_nil in Hr. lia.
Qed.

Lemma sample_reachable r :
  reachable sample_heap (root_refs [Some 1%positive; None] sample_memory) r -> r ∈ [1; 2]%positive.
Proof.
  rewrite list_elem_of_In. induction 1 as [r Hr%list_elem_of_In|r c r' _ IH Hc Hch%list_elem_of_In].
  - cbn in *. destruct Hr as [[= ->]|[Hr|[]]]; [by left|done].
  - cbn in IH. destruct IH as [<-|[<-|[]]]; vm_compute in Hc; injection Hc as <-; cbn in Hch; [|done].
    destruct Hch as [[= ->]|[]]. by right; left.
Qed.

Lemma sample_closed : closed_heap (objects sample_memory) (root_refs [Some 1%positive; None] sample_memory).
Proof.
  intros r Hr%sample_reachable. apply sample_heap_lookup. rewrite !elem_of_cons, elem_of_nil in *. tauto.
Qed.

Definition stress : VMOpts := mkVMOpts 1024 256 true 2 (1024 * 1024).

(** A heap that holds one string. *)
Definition held : Memory :=
  match Allocator.intern_string [] "a" (Memory.initial default_vm_opts) with
  | Ret (r, m) => Memory.set_temp_stash m (temp_stash m ++ [Value.of_object r])
  | _ => Memory.initial default_vm_opts
  end.

Lemma held_ok : exists p, inv held p /\ gc_safe [] held /\ live_count 0 held /\ kept [] held 1%positive.
Proof.
  destruct (intern_spec [] "a" (Memory.initial default_vm_opts) ∅) as (r & m & q & Hrun & Hi & Hl & _ & Hr & He);
    [apply initial_inv|by apply no_roots_safe|done|done|by vm_compute|].
  pose proof (extends_safe _ _ _ _ (no_roots_safe (Memory.initial default_vm_opts) eq_refl eq_refl) He) as Hs.
  destruct (push_temp_safe [] m r _ Hs Hr eq_refl) as (Hs' & _ & Hk).
  assert (Hone : match Allocator.intern_string [] "a" (Memory.initial default_vm_opts) with
                 | Ret (r, _) => r | _ => 2%positive end = 1%positive) by by vm_compute.
  rewrite Hrun in Hone. subst r.
  assert (held = Memory.set_temp_stash m (temp_stash m ++ [Value.of_object 1%positive])) as ->
    by (unfold held; by rewrite Hrun).
  exists q. split_and!; [by apply temp_stash_inv|done|done|done].
Qed.

(** ** Properties *)

(** C4. A garbage collection always ends and keeps exactly the objects reachable from the roots,
    unmarked and unchanged: nothing reachable is freed, nothing unreachable survives, the pool of
    interned strings loses exactly the entries of the strings that died, the list of objects and
    the counters stay accurate. *)
Theorem collection_keeps_exactly_the_reachable `{PlatformLaws} (roots : list (option ref))
    (m : Memory) (p : gmap InternedString (option ref)) :
  memory_ok m p -> closed_heap (objects m) (root_refs roots m) ->
  exists m' q, GarbageCollector.collect_garbage roots m = Ret (tt, m') /\ memory_ok m' q /\
    (forall r c, objects m' !! r = Some c <->
       objects m !! r = Some c /\ reachable (objects m) (root_refs roots m) r) /\
    (forall k o, q !! k = Some o <-> p !! k = Some o /\
       exists r, o = Some r /\ reachable (objects m) (root_refs roots m) r) /\
    (forall d, live_count d m -> live_count d m').
Proof.
  intros Hok Hs. destruct (collect_spec roots m p Hok Hs) as (m' & q & ? & ? & _ & ? & ? & ?).
  by exists m', q.
Qed.

Lemma collection_keeps_exactly_the_reachable_witness :
  exists m' q, GarbageCollector.collect_garbage [Some 1%positive; None] sample_memory = Ret (tt, m') /\
    memory_ok m' q /\
    (forall r c, objects m' !! r = Some c <-> objects sample_memory !! r = Some c /\
       reachable (objects sample_memory) (root_refs [Some 1%positive; None] sample_memory) r) /\
    (forall k o, q !! k = Some o <-> (∅ : gmap InternedString (option ref)) !! k = Some o /\
       exists r, o = Some r /\
         reachable (objects sample_memory) (root_refs [Some 1%positive; None] sample_memory) r) /\
    (forall d, live_count d sample_memory -> live_count d m').
Proof.
  exact (collection_keeps_exactly_the_reachable [Some 1%positive; None] sample_memory ∅
           sample_ok sample_closed).
Defined.



(** C12. Making a function object interns its name first; the name survives the collection that
    making room for the function may cause, because the allocator holds it on the stash of
    temporaries, and the stash is left as it was found. *)
Theorem function_name_survives `{PlatformLaws} (roots : list (option ref)) (arity : Z) (name : string)
    (m : Memory) (p : gmap InternedString (option ref)) :
  inv m p -> gc_safe roots m -> live_count 0 m -> no_nul name -> can_grow (interned_strings m) ->
  exists r n m' q, Allocator.new_function roots arity name m = Ret (r, m') /\ inv m' q /\
    live_count 0 m' /\
    objects m' !! r = Some (mkCell false (ObjFunction (mkFunction arity 0 Chunk.empty n))) /\
    objects m' !! n = Some (mkCell false (ObjString (mkString name (Hash.hash_string name)))) /\
    temp_stash m' = temp_stash m /\ never_delete_objects m' = never_delete_objects m /\
    (forall x c, kept roots m x -> objects m !! x = Some c -> objects m' !! x = Some c).
Proof. apply new_function_spec. Qed.

Lemma function_name_survives_witness :
  exists r n m' q, Allocator.new_function [] 2 "f" (Memory.initial stress) = Ret (r, m') /\ inv m' q /\
    live_count 0 m' /\
    objects m' !! r = Some (mkCell false (ObjFunction (mkFunction 2 0 Chunk.empty n))) /\
    objects m' !! n = Some (mkCell false (ObjString (mkString "f" (Hash.hash_string "f")))) /\
    temp_stash m' = temp_stash (Memory.initial stress) /\
    never_delete_objects m' = never_delete_objects (Memory.initial stress) /\
    (forall x c, kept [] (Memory.initial stress) x -> objects (Memory.initial stress) !! x = Some c ->
       objects m' !! x = Some c).
Proof.
  apply (function_name_survives [] 2 "f" (Memory.initial stress) ∅);
    [apply initial_inv|by apply no_roots_safe|apply initial_live|by split|by vm_compute].
Defined.


