(* ===== verification/WriteFacts.v ===== *)
(** * Writing to function objects

    The compiler changes the function objects it fills while the allocator may
    collect at any time: such writes keep the allocator's bookkeeping, and keep
    the heap closed when what they add is itself closed. *)

From S2P Require Import Prelude Double HashMap HashMapFacts Hash Platform HashMapProps Opcode Value Chunk Object Memory CollectFacts SweepFacts AllocatorFacts.

Section writes.
Context `{PlatformLaws}.
Implicit Types (h : heap) (m : Memory) (p : gmap InternedString (option ref)) (r x : ref)
  (roots : list (option ref)) (f : ObjectFunction).

Lemma function_Ret h r f :
  Heap.function h r = Ret f <-> exists b, h !! r = Some (mkCell b (ObjFunction f)).
Proof.
  unfold Heap.function, Heap.read. destruct (h !! r) as [[b o]|]; cbn; [|naive_solver].
  split; [|by intros [b' [= -> ->]]]. destruct o; cbn; try done. intros [= ->]. by exists b.
Qed.

Lemma string_Ret h r s :
  Heap.string h r = Ret s <-> exists b, h !! r = Some (mkCell b (ObjString s)).
Proof.
  unfold Heap.string, Heap.read. destruct (h !! r) as [[b o]|]; cbn; [|naive_solver].
  split; [|by intros [b' [= -> ->]]]. destruct o; cbn; try done. intros [= ->]. by exists b.
Qed.

(** [h] with the function at [r] replaced. *)
Definition write_function h r f : heap := Heap.write h r (ObjFunction f).

Lemma write_function_lookup h r f r' :
  write_function h r f !! r' =
  if decide (r = r') then (fun c => mkCell (is_marked c) (ObjFunction f)) <$> h !! r' else h !! r'.
Proof.
  unfold write_function, Heap.write. case_decide; subst.
  - by rewrite lookup_alter_eq.
  - by rewrite lookup_alter_ne.
Qed.

Lemma write_function_same h r f f' :
  Heap.function h r = Ret f -> Heap.function (write_function h r f') r = Ret f'.
Proof.
  intros [b Hb]%function_Ret. apply function_Ret. exists b.
  by rewrite write_function_lookup, decide_True, Hb.
Qed.

Lemma write_function_other h r f f' r' :
  r <> r' -> Heap.function (write_function h r f') r' = Heap.function h r'.
Proof.
  intros Hne. unfold Heap.function, Heap.read. by rewrite write_function_lookup, decide_False.
Qed.

Lemma write_function_string h r f f' r' s :
  Heap.function h r = Ret f -> Heap.string h r' = Ret s ->
  Heap.string (write_function h r f') r' = Ret s.
Proof.
  intros [b Hb]%function_Ret [b' Hb']%string_Ret. apply string_Ret. exists b'.
  rewrite write_function_lookup, decide_False; [done|]. intros <-. congruence.
Qed.

Lemma write_function_is_Some h r f r' : is_Some (write_function h r f !! r') <-> is_Some (h !! r').
Proof. rewrite write_function_lookup. case_decide; [by rewrite fmap_is_Some|done]. Qed.

Lemma write_function_inv m p r f f' :
  inv m p -> Heap.function (objects m) r = Ret f ->
  inv (Memory.set_objects m (write_function (objects m) r f')) p.
Proof.
  intros [[] Hex] Hf. split; [constructor; cbn; try done|].
  - intros r'. by rewrite write_function_is_Some.
  - intros r' c. rewrite write_function_lookup. case_decide; [|by eauto].
    intros (c' & Hc & ->)%fmap_Some. cbn. by eapply ok_unmarked.
  - destruct ok_pool as [Hr Hp]. split; [done|]. intros k o (r' & -> & Hs)%Hp. exists r'.
    by rewrite write_function_is_Some.
  - intros r'. rewrite write_function_is_Some. by apply ok_next.
  - intros k r'. cbn. rewrite (Hex k r'), write_function_lookup. case_decide as E; [|done]. subst r'.
    apply function_Ret in Hf as [b Hb]. rewrite Hb. cbn.
    split; intros (c & [= <-] & Hc); cbn in Hc; discriminate Hc.
Qed.

(** Everything an object leads to is there. *)
Definition closed_at h (o : option ref) : Prop :=
  match o with Some x => closed_heap h [Some x] | None => True end.

Lemma reachable_mono h roots roots' r :
  (forall o, o ∈ roots -> o ∈ roots') -> reachable h roots r -> reachable h roots' r.
Proof.
  intros Hsub. induction 1 as [r Hr|r c r' _ IH Hc Hch]; [by constructor; apply Hsub|].
  by eapply reachable_child.
Qed.

Lemma reachable_trans h roots x r :
  reachable h roots x -> reachable h [Some x] r -> reachable h roots r.
Proof.
  intros Hx. induction 1 as [r Hr|r c r' _ IH Hc Hch].
  - by apply list_elem_of_singleton in Hr as [= ->].
  - by eapply reachable_child.
Qed.

Lemma kept_closed h roots x : closed_heap h roots -> reachable h roots x -> closed_at h (Some x).
Proof. intros Hcl Hx r Hr. apply Hcl. by eapply reachable_trans. Qed.

(** An object is closed when its children are. *)
Lemma node_closed h x c : h !! x = Some c -> (forall o, o ∈ children (content c) -> closed_at h o) ->
  closed_at h (Some x).
Proof.
  intros Hc Hch y Hy. cut (y = x \/ exists z, Some z ∈ children (content c) /\ reachable h [Some z] y).
  { intros [->|(z & Hz & Hr)]; [by exists c|by apply (Hch _ Hz)]. }
  induction Hy as [y Hy|y cy y' _ IH Hcy Hy'].
  - apply list_elem_of_singleton in Hy as [= ->]. by left.
  - right. destruct IH as [->|(z & Hz & Hr)].
    + rewrite Hc in Hcy. simplify_eq. exists y'. split; [done|]. constructor. by left.
    + exists z. split; [done|]. by eapply reachable_child.
Qed.

Lemma leaf_closed h x c : h !! x = Some c -> children (content c) = [] -> closed_at h (Some x).
Proof. intros Hc Hch. eapply node_closed; [done|]. intros o. rewrite Hch. by intros ?%not_elem_of_nil. Qed.

Lemma closed_heap_forall h roots : closed_heap h roots <-> forall o, o ∈ roots -> closed_at h o.
Proof.
  split.
  - intros Hcl [x|] Ho; [|done]. eapply kept_closed; [done|by constructor].
  - intros Hcl x Hx. cut (exists x0, Some x0 ∈ roots /\ reachable h [Some x0] x).
    { intros (x0 & Hin & Hr). by apply (Hcl _ Hin). }
    induction Hx as [x Hx|x c y _ IH Hc Hy]; [exists x; split; [done|constructor; by left]|].
    destruct IH as (x0 & Hin & Hr). exists x0. split; [done|]. by eapply reachable_child.
Qed.

Lemma closed_heap_subset h roots roots' :
  (forall o, o ∈ roots' -> o = None \/ o ∈ roots) -> closed_heap h roots -> closed_heap h roots'.
Proof.
  rewrite !closed_heap_forall. intros Hsub Hcl o Ho. by destruct (Hsub o Ho) as [->|?]; [|apply Hcl].
Qed.

Lemma keeps_function h h' roots r f : keeps_cone h roots h' -> Some r ∈ roots ->
  Heap.function h r = Ret f -> Heap.function h' r = Ret f.
Proof.
  intros Hk Hr [b Hb]%function_Ret. apply function_Ret. exists b. apply Hk; [by constructor|done].
Qed.

Lemma keeps_string h h' roots r s : keeps_cone h roots h' -> Some r ∈ roots ->
  Heap.string h r = Ret s -> Heap.string h' r = Ret s.
Proof.
  intros Hk Hr [b Hb]%string_Ret. apply string_Ret. exists b. apply Hk; [by constructor|done].
Qed.

(** Writing a function whose new children are closed keeps a closed heap closed. *)
Lemma write_function_closed h r f f' roots :
  Heap.function h r = Ret f -> closed_heap h roots ->
  (forall o, o ∈ children (ObjFunction f') -> o ∈ children (ObjFunction f) \/ closed_at h o) ->
  closed_heap (write_function h r f') roots.
Proof.
  intros [b Hb]%function_Ret Hcl Hch x Hx. apply write_function_is_Some.
  cut (exists x0, closed_at h (Some x0) /\ reachable h [Some x0] x).
  { intros (x0 & Hc & Hr). by apply Hc. }
  induction Hx as [x Hx|x c y _ IH Hc Hy].
  - exists x. split; [|constructor; by left]. eapply kept_closed; [done|by constructor].
  - destruct IH as (x0 & Hc0 & Hr0). rewrite write_function_lookup in Hc. case_decide as E.
    + subst x. apply fmap_Some in Hc as (c' & Hc & ->). cbn [content] in Hy.
      apply Hch in Hy as [Hy|Hy].
      * exists x0. split; [done|]. eapply reachable_child; [done|exact Hb|done].
      * exists y. split; [done|]. constructor. by left.
    + exists x0. split; [done|]. by eapply reachable_child.
Qed.

End writes.
