(* ===== verification/Context.v ===== *)
(** * Global variables (include/context.hpp)

    Every global name has an index; its value and flags are stored under the
    index, which the bytecode refers to. *)

From S2P Require Import Prelude Double HashMap Hash Platform Opcode Value Chunk Object.

(** [Context::GlobalValue] *)
Record GlobalValue : Type := mkGlobal {
  global_value : Value;
  defined : bool;
  initialized : bool;
  is_const : bool;
  is_created_by_runtime : bool
}.

Record Context : Type := mkContext {
  global_names : HashMap.table (option ref) Z;
  globals : list GlobalValue;
  names : list ref
}.

Module Context.

Definition empty : Context := mkContext HashMap.empty [] [].

(** [GlobalValue{}] *)
Definition new_global : GlobalValue := mkGlobal Value.nil false false false false.

Section context.
Context `{Platform}.

(** [get_global(name)]: the index of the name, which is added if it is new. *)
Definition get_global (h : heap) (c : Context) (name : ref) : outcome (Z * Context) :=
  val ← @HashMap.get _ _ (string_key h) (global_names c) (Some name);
  match val with
  | Some i => Ret (i, c)
  | None =>
      let globals' := globals c ++ [new_global] in
      let i := i32 (Z.of_nat (length globals') - 1) in
      '(_, t) ← @HashMap.insert _ _ (string_key h) (global_names c) (Some name) i;
      Ret (i, mkContext t globals' (names c ++ [name]))
  end.

Definition exists_name (h : heap) (c : Context) (name : ref) : outcome bool :=
  @HashMap.contains _ _ (string_key h) (global_names c) (Some name).

End context.

Definition clear (c : Context) : Context := empty.

(** [exists(index)]: the index is compared with a [size_t], then with 0. *)
Definition exists_index (c : Context) (index : Z) : bool :=
  (u64 index <? Z.of_nat (length (globals c))) && (0 <=? index).

(** [values[index]] and [names[index]] *)
Definition get_internal_value (c : Context) (index : Z) : outcome GlobalValue :=
  if index <? 0 then Undef (negative_index (Z.of_nat (length (globals c))))
  else or_undef "global index out of range" (globals c !! Z.to_nat index).

Definition get_name (c : Context) (index : Z) : outcome ref :=
  if index <? 0 then Undef (negative_index (Z.of_nat (length (globals c))))
  else or_undef "global index out of range" (names c !! Z.to_nat index).

Definition get_value (c : Context) (index : Z) : outcome Value :=
  g ← get_internal_value c index; Ret (global_value g).
Definition is_initialized (c : Context) (index : Z) : outcome bool :=
  g ← get_internal_value c index; Ret (initialized g).
Definition is_defined (c : Context) (index : Z) : outcome bool :=
  g ← get_internal_value c index; Ret (defined g).

(** Assignments through the references [get_internal_value] and [get_value] return. *)
Definition update (c : Context) (index : Z) (f : GlobalValue -> GlobalValue) : outcome Context :=
  g ← get_internal_value c index;
  Ret (mkContext (global_names c) (<[Z.to_nat index := f g]> (globals c)) (names c)).

Definition set_value (c : Context) (index : Z) (v : Value) : outcome Context :=
  update c index (fun g => mkGlobal v (defined g) (initialized g) (is_const g)
                             (is_created_by_runtime g)).
Definition set_initialized (c : Context) (index : Z) (b : bool) : outcome Context :=
  update c index (fun g => mkGlobal (global_value g) (defined g) b (is_const g)
                             (is_created_by_runtime g)).
Definition set_defined (c : Context) (index : Z) (b : bool) : outcome Context :=
  update c index (fun g => mkGlobal (global_value g) b (initialized g) (is_const g)
                             (is_created_by_runtime g)).
Definition set_const (c : Context) (index : Z) (b : bool) : outcome Context :=
  update c index (fun g => mkGlobal (global_value g) (defined g) (initialized g) b
                             (is_created_by_runtime g)).
Definition set_created_by_runtime (c : Context) (index : Z) (b : bool) : outcome Context :=
  update c index (fun g => mkGlobal (global_value g) (defined g) (initialized g) (is_const g) b).

(** What [GarbageCollector::mark_global_variables] marks. *)
Definition global_roots (c : Context) : list (option ref) :=
  (HashMap.entries (global_names c)).*1 ++
  ((fun g => match data (global_value g) with OBJECT r => Some r | _ => None end) <$> globals c).

End Context.
