(* ===== verification/Serializer.v ===== *)
(** * Writing compiled programs (include/serializer.hpp, src/serialization/serializer.cpp)

    A function and the functions its constants refer to become numbered
    chunks; strings go to a block of their own, each once.  Chunk ids are
    handed out from 0 on, so the map from ids to bytes is a list here. *)

From S2P Require Import Prelude Double HashMap Hash Platform Bytes Opcode Value Chunk Object Memory Context.

Record Serializer : Type := mkSerializer {
  strings_block : list Z;
  strings_offset : gmap positive Z;
  chunks : list (list Z);
  chunk_counter : Z;
  string_count : Z;
  emit_debug_information : bool
}.

Module Serializer.
Import DataPacker.

(** [ObjectString::get()], as bytes. *)
Definition string_bytes (s : string) : list Z :=
  (fun c => Z.of_N (N_of_ascii c)) <$> String.list_ascii_of_string s.

Definition char (c : ascii) : Z := Z.of_N (N_of_ascii c).

Definition set_strings (s : Serializer) (block : list Z) (offsets : gmap positive Z) (count : Z) : Serializer :=
  mkSerializer block offsets (chunks s) (chunk_counter s) count (emit_debug_information s).
Definition set_chunks (s : Serializer) (cs : list (list Z)) (counter : Z) : Serializer :=
  mkSerializer (strings_block s) (strings_offset s) cs counter (string_count s) (emit_debug_information s).

Section serializer.
Context (h : heap).

Definition serialize_string (r : ref) : M Serializer Z :=
  s ← get;
  match strings_offset s !! r with
  | Some offset => mret offset
  | None =>
      o ← lift (Heap.string h r);
      if (2 ^ 32 - 1 <? Z.of_nat (length (strings_block s)))%Z then throw "string too large"
      else
        let offset := u32 (Z.of_nat (length (strings_block s))) in
        (* the count of bytes is an int *)
        if (2 ^ 31 <=? 4 + Z.of_nat (length (string_bytes (str o))))%Z then throw "string not serialized correctly" else
        put (set_strings s (strings_block s ++ encode_length_prefixed (string_bytes (str o)))
               (<[r := offset]> (strings_offset s)) (u32 (string_count s + 1))) ;;
        mret offset
  end.

Definition chunk_header_sizes : list nat := [1; 4; 1; 2; 2; 4; 1; 4; 4; 1]%nat.

Definition write_chunk_header (fn : ObjectFunction) (chunk_id : Z) : M Serializer (list Z) :=
  function_name_index ← serialize_string (name_ fn);
  s ← get;
  if negb (nbytes chunk_header_sizes =? 24)%Z then throw "invalid number of bytes written for chunk header"
  else mret (encode (zip chunk_header_sizes
    [char "F"; function_name_index; u8 (arity_ fn); u16 (upvalue_count_ fn);
     u16 (Z.of_nat (length (value_array (chunk fn)))); u32 (Z.of_nat (length (code (chunk fn))));
     if emit_debug_information s then 1%Z else 0%Z; chunk_id; 0%Z; 0%Z])).

(** The nine bytes of a constant: its type, and what is written after it. *)
Definition constant_entry (type : ascii) (bytes : list Z) : list Z :=
  char type :: bytes ++ replicate (8 - length bytes) 0%Z.

Definition write_constant (serialize_function : ref -> M Serializer Z) (v : Value) : M Serializer (list Z) :=
  match data v with
  | NIL => mret (constant_entry "N" [])
  | BOOLEAN b => mret (constant_entry "B" (encode_le 1 (if b then 1 else 0)))
  | NUMBER_REAL d => bytes ← lift (encode_double d); mret (constant_entry "R" bytes)
  | NUMBER_INT i => mret (constant_entry "I" (encode_le 8 i))
  | OBJECT r =>
      o ← lift (Heap.read h r);
      match o with
      | ObjString _ => index ← serialize_string r; mret (constant_entry "S" (encode_le 8 index))
      | ObjFunction _ => index ← serialize_function r; mret (constant_entry "F" (encode_le 8 index))
      | _ => throw "invalid object type for serialization"
      end
  end.

Fixpoint write_constant_pool (serialize_function : ref -> M Serializer Z) (constants : list Value)
    : M Serializer (list Z) :=
  match constants with
  | [] => mret []
  | v :: constants =>
      entry ← write_constant serialize_function v;
      entries ← write_constant_pool serialize_function constants;
      mret (entry ++ entries)
  end.

Definition write_debug_information (fn : ObjectFunction) : outcome (list Z) :=
  let line_info := lines (chunk fn) in
  if (2 ^ 32 - 1 <=? Z.of_nat (length line_info))%Z
  then Throw "error while writing debug info: too much debug info"
  else Ret (encode [(4%nat, u32 (Z.of_nat (length line_info))); (4%nat, 0%Z)] ++
            (line_info ≫= (fun line => encode [(4%nat, u32 (offset line)); (4%nat, u32 (line_number line))]))).

(** [buffer.insert(buffer.end(), ...)] on the buffer of a chunk. *)
Definition append_chunk (id : Z) (bytes : list Z) : M Serializer unit :=
  modify (fun s => set_chunks s (alter (fun buffer => buffer ++ bytes) (Z.to_nat id) (chunks s)) (chunk_counter s)).

Fixpoint serialize_function (fuel : nat) (r : ref) : M Serializer Z :=
  match fuel with
  | O => out_of_fuel
  | S fuel =>
      s ← get;
      if (chunk_counter s =? 65535)%Z then throw "too many chunks, can only serialize < 65535 chunks"
      else
        let current_chunk_id := chunk_counter s in
        put (set_chunks s (chunks s ++ [[]]) (u32 (chunk_counter s + 1))) ;;
        fn ← lift (Heap.function h r);
        header ← write_chunk_header fn current_chunk_id;
        append_chunk current_chunk_id header ;;
        pool ← write_constant_pool (serialize_function fuel) (value_array (chunk fn));
        append_chunk current_chunk_id pool ;;
        append_chunk current_chunk_id (code (chunk fn)) ;;
        s ← get;
        (if emit_debug_information s then
           debug ← lift (write_debug_information fn); append_chunk current_chunk_id debug
         else mret tt) ;;
        mret current_chunk_id
  end.

(** Every call takes an id, and there are less than 65536 of them. *)
Definition function_fuel : nat := Z.to_nat 65536.

(** The pairs of name and flags of the symbol table. *)
Fixpoint symbol_entries (names : list ref) (values : list GlobalValue) : M Serializer (list Z) :=
  match names, values with
  | [], _ => mret []
  | r :: names, g :: values =>
      index ← serialize_string r;
      entries ← symbol_entries names values;
      mret (encode [(4%nat, index); (1%nat, if is_const g then 1%Z else 0%Z); (2%nat, 0%Z); (1%nat, 0%Z)] ++ entries)
  | _ :: _, [] => undef "value index out of range"
  end.

Definition serialize_symbol_table (context : Context) : M Serializer (list Z) :=
  entries ← symbol_entries (names context) (Context.globals context);
  mret (encode [(2%nat, u16 (Z.of_nat (length (names context)))); (2%nat, 0%Z)] ++ entries).

(** The first eight bytes of the block were left free. *)
Definition write_string_block_header : M Serializer unit :=
  s ← get;
  if (2 ^ 32 - 1 <=? Z.of_nat (length (strings_block s)))%Z then throw "strings block too huge"
  else put (set_strings s (encode [(4%nat, string_count s); (4%nat, u32 (Z.of_nat (length (strings_block s))))] ++
                           drop 8 (strings_block s)) (strings_offset s) (string_count s)).

Definition serialize_program (function : ref) (context : Context) : M Serializer SerializedBytecode :=
  modify (fun s => mkSerializer (replicate 8 0%Z) ∅ [] 0 0 (emit_debug_information s)) ;;
  id ← serialize_function function_fuel function;
  if negb (id =? 0)%Z then throw "id of main function (script) not 0"
  else
    globals ← serialize_symbol_table context;
    write_string_block_header ;;
    s ← get;
    put (set_strings s [] (strings_offset s) (string_count s)) ;;
    mret (mkBytecode (chunk_counter s) (concat (rev (chunks s))) (strings_block s) globals).

End serializer.

(** A serializer with its options. *)
Definition new_serializer (debug : bool) : Serializer := mkSerializer [] ∅ [] 0 0 debug.

End Serializer.
