(* ===== verification/Deserializer.v ===== *)
(** * Loading compiled programs (include/deserializer.hpp, src/serialization/deserializer.cpp)

    The loader interns the strings, registers the globals and creates the
    functions; offsets are unsigned 32-bit integers that wrap around, as in
    the checks the code makes with them.  Logging is left out. *)

From S2P Require Import Prelude Double HashMap Hash Platform Bytes Opcode Value Chunk Object Memory Context Serializer.

Record Deserializer : Type := mkDeserializer {
  loaded_strings : gmap Z positive;
  loaded_functions : gmap Z positive;
  loader_memory : Memory;
  loader_context : Context
}.

Module Deserializer.
Import DataPacker.

Section deserializer.
Context `{Platform} (roots : list (option ref)).

Abbreviation D := (M Deserializer).

Definition add_string (d : Deserializer) (offset : Z) (r : ref) : Deserializer :=
  mkDeserializer (<[offset := r]> (loaded_strings d)) (loaded_functions d) (loader_memory d) (loader_context d).
Definition add_function (d : Deserializer) (id : Z) (r : ref) : Deserializer :=
  mkDeserializer (loaded_strings d) (<[id := r]> (loaded_functions d)) (loader_memory d) (loader_context d).
Definition set_memory (d : Deserializer) (m : Memory) : Deserializer :=
  mkDeserializer (loaded_strings d) (loaded_functions d) m (loader_context d).
Definition set_context (d : Deserializer) (c : Context) : Deserializer :=
  mkDeserializer (loaded_strings d) (loaded_functions d) (loader_memory d) c.

Definition allocate {A} (m : M Memory A) : D A := zoom loader_memory set_memory m.

Definition error (text : string) : string := "bytecode load error: " +:+ text.

(** [std::string_view] of bytes of the buffer. *)
Definition text_of (bytes : list Z) : string :=
  String.string_of_list_ascii ((fun b => ascii_of_N (Z.to_N b)) <$> bytes).

(** *** Strings *)

Fixpoint strings_loop (fuel : nat) (buffer : list Z) (size offset : Z) : D unit :=
  if offset <? size then
    match fuel with
    | O => out_of_fuel
    | S fuel =>
        if size <? u32 (offset + 4) then throw (error "insufficient bytes to read string length") else
        current_string_length ← lift (decode_le buffer offset 4);
        let current_string_offset := offset in
        let offset := u32 (offset + 4) in
        if size <? u32 (offset + current_string_length) then
          throw (error "insufficient bytes to read string data")
        else
          bytes ← lift (read buffer offset (Z.to_nat current_string_length));
          let offset := u32 (offset + current_string_length) in
          obj ← allocate (Allocator.intern_string roots (text_of bytes));
          modify (fun d => add_string d current_string_offset obj) ;;
          strings_loop fuel buffer size offset
    end
  else mret tt.

Definition deserialize_strings (buffer : list Z) (size : Z) : D unit :=
  if size <? 8 then throw (error "too small strings block, should be >= 8 bytes") else
  fields ← lift (decode buffer 0 [4; 4]%nat);
  match fields with
  | [string_count; string_block_size] =>
      if negb (size =? string_block_size) then
        throw (error ("invalid string block size, expected " +:+ to_string string_block_size +:+
                      " bytes, got " +:+ to_string size +:+ " bytes"))
      else strings_loop (length buffer) buffer size 8
  | _ => undef "decode"
  end.

(** *** Globals *)

(** The [num_entries] entries from [i] on. *)
Fixpoint globals_loop (count : nat) (i : Z) (buffer : list Z) (offset : Z) : D unit :=
  match count with
  | O => mret tt
  | S count =>
      fields ← lift (decode buffer offset [4; 1; 2; 1]%nat);
      match fields with
      | [name_index; is_const; _; _] =>
          d ← get;
          match loaded_strings d !! name_index with
          | None => throw (error ("global symbol table references invalid string index " +:+ to_string name_index))
          | Some name =>
              '(index, c) ← lift (Context.get_global (objects (loader_memory d)) (loader_context d) name);
              put (set_context d c) ;;
              if negb (index =? i) then
                throw (error "context (global table) is not empty when loading bytecode")
              else
                c ← lift (Context.set_const c index (negb (is_const =? 0)));
                modify (fun d => set_context d c) ;;
                globals_loop count (i + 1) buffer (u32 (offset + 8))
          end
      | _ => undef "decode"
      end
  end.

Definition deserialize_global_table (buffer : list Z) (size : Z) : D unit :=
  if size <? 4 then throw (error "too small global symbol table, should be >= 4 bytes") else
  fields ← lift (decode buffer 0 [2; 2]%nat);
  match fields with
  | [num_entries; _] =>
      if negb (size =? num_entries * 8 + 4) then
        throw (error ("invalid global string table size, expected " +:+ to_string (num_entries * 8 + 4) +:+
                      " bytes, got " +:+ to_string size +:+ " bytes"))
      else globals_loop (Z.to_nat num_entries) 0 buffer 4
  | _ => undef "decode"
  end.

(** *** Constants *)

(** The object an index refers to, in one of the two maps. *)
Definition resolve (what : string) (m : gmap Z positive) (value : Z) : outcome ref :=
  if 2 ^ 32 - 1 <=? value then Throw (error ("constant pool references invalid " +:+ what +:+ " index"))
  else or_throw (error ("constant pool references invalid " +:+ what +:+ " index " +:+ to_string value))
         (m !! u32 value).

Definition read_constant (buffer : list Z) (offset : Z) : D value_data :=
  type ← lift (decode_le buffer offset 1);
  value ← lift (decode_le buffer (offset + 1) 8);
  d ← get;
  if type =? Serializer.char "N" then mret NIL else
  if type =? Serializer.char "B" then mret (BOOLEAN (negb (value =? 0))) else
  if type =? Serializer.char "R" then real_val ← lift (decode_double buffer (offset + 1)); mret (NUMBER_REAL real_val) else
  if type =? Serializer.char "I" then mret (NUMBER_INT (i64 value)) else
  if type =? Serializer.char "S" then o ← lift (resolve "string" (loaded_strings d) value); mret (OBJECT o) else
  if type =? Serializer.char "F" then o ← lift (resolve "function" (loaded_functions d) value); mret (OBJECT o) else
  throw (error "invalid value type in constant pool").

Fixpoint deserialize_constant_pool (count : nat) (buffer : list Z) (offset : Z) : D (list Value) :=
  match count with
  | O => mret []
  | S count =>
      v ← read_constant buffer offset;
      vs ← deserialize_constant_pool count buffer (offset + 9);
      mret (mkValue false v :: vs)
  end.

(** *** Debug information *)

(** The loop over [count] pairs, of which there are not more than bytes. *)
Fixpoint debug_loop (fuel : nat) (i count : Z) (buffer : list Z) (offset : Z) : outcome (list LineInfo * Z) :=
  if i <? count then
    match fuel with
    | O => OutOfFuel
    | S fuel =>
        fields ← decode buffer offset [4; 4]%nat;
        match fields with
        | [code_offset; line_number] =>
            '(infos, offset) ← debug_loop fuel (i + 1) count buffer (u32 (offset + 8));
            Ret (mkLineInfo (i32 code_offset) (i32 line_number) :: infos, offset)
        | _ => Undef "decode"
        end
    end
  else Ret ([], offset).

(** The pairs, and the offset of the first byte after them. *)
Definition deserialize_debug_info (buffer : list Z) (offset size : Z) : outcome (list LineInfo * Z) :=
  if size <? u32 (offset + 8) then Throw (error "insufficient bytes to read debug info header") else
  fields ← decode buffer offset [4; 4]%nat;
  match fields with
  | [count; _] =>
      let offset := u32 (offset + 8) in
      if size <? u32 (offset + u32 (count * 8)) then
        Throw (error "insufficient bytes to read debug info pairs")
      else debug_loop (length buffer) 0 count buffer offset
  | _ => Undef "decode"
  end.

(** *** Chunks *)

Definition deserialize_chunk (buffer : list Z) (size offset : Z) : D Z :=
  if size <? u32 (offset + 24) then throw (error "insufficient bytes to read chunk header") else
  fields ← lift (decode buffer offset Serializer.chunk_header_sizes);
  match fields with
  | [type; function_name_index; arity; upvalue_count; constant_pool_size; code_length;
     debug_info_present; id; _; _] =>
      if negb (type =? Serializer.char "F") then throw (error "invalid chunk type, expected 'F'") else
      let offset := u32 (offset + 24) in
      d ← get;
      match loaded_strings d !! function_name_index with
      | None => throw (error ("function references invalid string index " +:+ to_string function_name_index))
      | Some name =>
          if size <? u32 (offset + constant_pool_size * 9) then
            throw (error "insufficient bytes to read chunk constant pool values")
          else
          constant_pool ← deserialize_constant_pool (Z.to_nat constant_pool_size) buffer offset;
          let offset := u32 (offset + constant_pool_size * 9) in
          if size <? u32 (offset + code_length) then throw (error "insufficient bytes to read chunk code") else
          code ← lift (read buffer offset (Z.to_nat code_length));
          let offset := u32 (offset + code_length) in
          '(lines, offset) ← (if debug_info_present =? 1
                              then lift (deserialize_debug_info buffer offset size) else mret ([], offset));
          obj ← allocate (Allocator.new_loaded_function roots arity name upvalue_count
                            (mkChunk code constant_pool lines));
          d ← get;
          match loaded_functions d !! id with
          | Some _ => throw (error ("duplicate chunk id " +:+ to_string id))
          | None => put (add_function d id obj) ;; mret offset
          end
      end
  | _ => undef "decode"
  end.

Fixpoint chunks_loop (fuel : nat) (buffer : list Z) (size offset : Z) : D unit :=
  if offset <? size then
    match fuel with
    | O => out_of_fuel
    | S fuel => offset ← deserialize_chunk buffer size offset; chunks_loop fuel buffer size offset
    end
  else mret tt.

Definition deserialize_chunks (buffer : list Z) (size : Z) : D unit :=
  chunks_loop (length buffer) buffer size 0.

(** *** The program *)

Definition disable_gc (d : Deserializer) (b : bool) : Deserializer :=
  let m := loader_memory d in
  set_memory d
    {| objects := objects m; next_object := next_object m; objs := objs m; vopts := vopts m;
       bytes_allocated := bytes_allocated m; bytes_freed := bytes_freed m; next_gc := next_gc m;
       objects_created := objects_created m; objects_freed := objects_freed m;
       gc_cycles := gc_cycles m; temp_stash := temp_stash m;
       interned_strings := interned_strings m; gc_disabled := b;
       never_delete_objects := never_delete_objects m; grey_objects := grey_objects m |}.

Definition deserialize_program (bc : SerializedBytecode) : D ref :=
  modify (fun d => mkDeserializer ∅ ∅ (loader_memory d) (loader_context d)) ;;
  modify (fun d => disable_gc d true) ;;
  (if 2 ^ 32 - 1 <=? Z.of_nat (length (strings bc)) then throw (error "constant strings block too large") else
   deserialize_strings (strings bc) (Z.of_nat (length (strings bc)))) ;;
  (if 8 * 65535 <=? Z.of_nat (length (Bytes.globals bc)) then throw (error "global symbol table is too large") else
   deserialize_global_table (Bytes.globals bc) (Z.of_nat (length (Bytes.globals bc)))) ;;
  (if 2 ^ 32 - 1 <=? Z.of_nat (length (bytecode bc)) then throw (error "bytecode block too large") else
   deserialize_chunks (bytecode bc) (Z.of_nat (length (bytecode bc)))) ;;
  d ← get;
  match loaded_functions d !! 0 with
  | None => throw (error "main function with id 0 does not exist")
  | Some main => modify (fun d => disable_gc d false) ;; mret main
  end.

End deserializer.
End Deserializer.
