(* ===== verification/SerializerFacts.v ===== *)
(** * What the serializer writes

    The layout of the three blocks: the strings one after the other, and for
    every function an image of its fields.  Every call of the serializer only
    appends to them. *)

From S2P Require Import Prelude Double HashMap Hash Platform Bytes BytesFacts Opcode Value Chunk Object Memory Context Serializer.
Import DataPacker.

(** ** The layout *)

(** The strings of the block with their offsets, the first one at [off]. *)
Fixpoint offsets (off : Z) (ss : list string) : list (Z * string) :=
  match ss with
  | [] => []
  | t :: ss => (off, t) :: offsets (off + 4 + Z.of_nat (length (Serializer.string_bytes t))) ss
  end.

Definition block_of (ss : list string) : list Z :=
  ss ≫= (fun t => encode_length_prefixed (Serializer.string_bytes t)).

(** A constant and a function as the file has them: strings by offset, functions by chunk id. *)
Inductive const_image : Type :=
  | INil | IBool (b : bool) | IReal (bits : Z) | IInt (i : Z) | IString (offset : Z) | IFunction (id : nat).

Record image : Type := mkImage {
  image_name : Z; image_arity : Z; image_upvalues : Z;
  image_constants : list const_image; image_code : list Z; image_lines : list LineInfo
}.

Definition const_bytes (c : const_image) : list Z :=
  match c with
  | INil => Serializer.constant_entry "N" []
  | IBool b => Serializer.constant_entry "B" (encode_le 1 (if b then 1 else 0))
  | IReal bits => Serializer.constant_entry "R" (encode_le 8 bits)
  | IInt i => Serializer.constant_entry "I" (encode_le 8 i)
  | IString offset => Serializer.constant_entry "S" (encode_le 8 offset)
  | IFunction id => Serializer.constant_entry "F" (encode_le 8 (Z.of_nat id))
  end.

Definition line_fields (line : LineInfo) : list (nat * Z) :=
  [(4%nat, u32 (offset line)); (4%nat, u32 (line_number line))].

Definition debug_bytes (ls : list LineInfo) : list Z :=
  encode [(4%nat, u32 (Z.of_nat (length ls))); (4%nat, 0)] ++ (ls ≫= (fun line => encode (line_fields line))).

Definition header_fields (debug : bool) (id : nat) (im : image) : list (nat * Z) :=
  zip Serializer.chunk_header_sizes
    [Serializer.char "F"; image_name im; u8 (image_arity im); u16 (image_upvalues im);
     u16 (Z.of_nat (length (image_constants im))); u32 (Z.of_nat (length (image_code im)));
     if debug then 1 else 0; Z.of_nat id; 0; 0].

Definition image_bytes (debug : bool) (id : nat) (im : image) : list Z :=
  encode (header_fields debug id im) ++ (image_constants im ≫= const_bytes) ++ image_code im ++
  (if debug then debug_bytes (image_lines im) else []).

(** The chunks of these images, the first one with this id. *)
Definition chunks_of (debug : bool) (id : nat) (ims : list image) : list (list Z) :=
  imap (fun i im => image_bytes debug (id + i) im) ims.

(** ** What they stand for *)

Section writing.
Context (h : heap) (debug : bool).
Implicit Types (s : Serializer) (ss : list string) (os : list positive) (r : positive) (ims : list image).

(** [os] lists the functions by chunk id, [ss] the strings of the block. *)
Definition const_ok ss os (from : nat) (v : value_data) (c : const_image) : Prop :=
  match c with
  | INil => v = NIL
  | IBool b => v = BOOLEAN b
  | IReal bits => exists d, v = NUMBER_REAL d /\ pack754 d = Ret bits
  | IInt i => v = NUMBER_INT i
  | IString off => exists r o, v = OBJECT r /\ Heap.string h r = Ret o /\ (off, str o) ∈ offsets 8 ss
  | IFunction id => exists r, v = OBJECT r /\ os !! id = Some r /\ (from <= id)%nat
  end.

Record image_ok ss os (id : nat) (im : image) : Prop := {
  image_function : exists r fn, os !! id = Some r /\ Heap.function h r = Ret fn /\
    (exists o, Heap.string h (name_ fn) = Ret o /\ (image_name im, str o) ∈ offsets 8 ss) /\
    image_arity im = arity_ fn /\ image_upvalues im = upvalue_count_ fn /\
    image_code im = code (chunk fn) /\ image_lines im = lines (chunk fn) /\
    Forall2 (const_ok ss os (S id)) (data <$> value_array (chunk fn)) (image_constants im)
}.

(** The state of the serializer after writing [ss] and starting the chunks of [os]. *)
Record writes s ss os : Prop := {
  writes_block : strings_block s = replicate 8 0 ++ block_of ss;
  writes_offsets : forall r off, strings_offset s !! r = Some off ->
    exists o, Heap.string h r = Ret o /\ (off, str o) ∈ offsets 8 ss;
  writes_chunks : length (chunks s) = length os;
  writes_counter : chunk_counter s = Z.of_nat (length os) /\ (Z.of_nat (length os) <= 65535)%Z;
  writes_debug : emit_debug_information s = debug;
  writes_count : is_u32 (string_count s);
  writes_short : Forall (fun t => 4 + Z.of_nat (length (Serializer.string_bytes t)) < 2 ^ 31) ss;
  writes_texts : Forall (fun t => exists r o, Heap.string h r = Ret o /\ str o = t) ss
}.

(** Later states only have more strings and more chunks. *)
Record grows s ss os s' ss' os' ims : Prop := {
  grows_writes : writes s' ss' os';
  grows_strings : ss `prefix_of` ss';
  grows_origins : exists os2, os' = os ++ os2 /\ length ims = length os2;
  grows_chunks : chunks s' = chunks s ++ chunks_of debug (length os) ims;
  grows_images : forall i im, ims !! i = Some im -> image_ok ss' os' (length os + i) im
}.

Lemma offsets_app off ss ss' : offsets off (ss ++ ss') = offsets off ss ++ offsets (off + Z.of_nat (length (block_of ss))) ss'.
Proof.
  revert off. induction ss as [|t ss IH]; intros off; [cbn; by rewrite Z.add_0_r|].
  cbn [offsets app]. rewrite IH. unfold block_of. cbn [mbind list_bind]. rewrite length_app.
  unfold encode_length_prefixed at 2. rewrite length_app, length_encode_le.
  do 2 f_equal. f_equal. lia.
Qed.

Lemma offsets_prefix x ss ss' : ss `prefix_of` ss' -> x ∈ offsets 8 ss -> x ∈ offsets 8 ss'.
Proof. intros [ss2 ->] Hx. rewrite offsets_app. apply elem_of_app. by left. Qed.

Lemma const_ok_later ss os ss' os' from v c : ss `prefix_of` ss' -> os `prefix_of` os' ->
  const_ok ss os from v c -> const_ok ss' os' from v c.
Proof.
  intros Hss [os2 ->]. destruct c; cbn; try done.
  - intros (r & o & ? & ? & ?). exists r, o. split_and!; try done. by eapply offsets_prefix.
  - intros (r & ? & ? & ?). exists r. split_and!; try done. by apply lookup_app_l_Some.
Qed.

Lemma image_ok_later ss os ss' os' id im : ss `prefix_of` ss' -> os `prefix_of` os' ->
  image_ok ss os id im -> image_ok ss' os' id im.
Proof.
  intros Hss Hos [(r & fn & Hid & Hr & (o & Ho & Hn) & ? & ? & ? & ? & Hc)]. constructor.
  exists r, fn. split_and!; try done.
  - destruct Hos as [os2 ->]. by apply lookup_app_l_Some.
  - exists o. split; [done|]. by eapply offsets_prefix.
  - eapply Forall2_impl; [done|]. intros v c. by apply const_ok_later.
Qed.

Lemma chunks_of_app id ims ims' : chunks_of debug id (ims ++ ims') = chunks_of debug id ims ++ chunks_of debug (id + length ims) ims'.
Proof.
  unfold chunks_of. rewrite imap_app. f_equal. apply imap_ext. intros i im _. f_equal. lia.
Qed.

Lemma grows_refl s ss os : writes s ss os -> grows s ss os s ss os [].
Proof.
  intros Hw. constructor; [done|done|by exists []; rewrite app_nil_r|by rewrite app_nil_r|done].
Qed.

Lemma grows_trans s1 ss1 os1 s2 ss2 os2 s3 ss3 os3 ims ims' :
  grows s1 ss1 os1 s2 ss2 os2 ims -> grows s2 ss2 os2 s3 ss3 os3 ims' ->
  grows s1 ss1 os1 s3 ss3 os3 (ims ++ ims').
Proof.
  intros [_ H1 (o1 & -> & L1) C1 I1] [W2 H2 (o2 & -> & L2) C2 I2]. constructor; [done|by etrans| | |].
  - exists (o1 ++ o2). by rewrite !length_app, L1, L2, app_assoc.
  - rewrite C2, C1, chunks_of_app, length_app, L1. by rewrite app_assoc.
  - intros i im. rewrite lookup_app_Some. intros [Hi|[Hle Hi]].
    + eapply image_ok_later; [exact H2| |by apply I1]. by exists o2.
    + specialize (I2 _ _ Hi). rewrite length_app in I2.
      replace (length os1 + i)%nat with (length os1 + length o1 + (i - length ims))%nat by lia. done.
Qed.

(** ** Strings *)

Lemma serialize_string_grows r s ss os i s' : writes s ss os ->
  Serializer.serialize_string h r s = Ret (i, s') ->
  exists ss', grows s ss os s' ss' os [] /\ exists o, Heap.string h r = Ret o /\ (i, str o) ∈ offsets 8 ss'.
Proof.
  intros Hw. unfold Serializer.serialize_string. unfold mbind at 1, M_bind at 1. cbn [get].
  destruct (strings_offset s !! r) as [off|] eqn:Eo.
  { intros [= <- <-]. exists ss. split; [by apply grows_refl|]. by eapply writes_offsets. }
  intros H. apply M_bind_Ret in H as (o & s1 & Ho & H). unfold lift in Ho.
  destruct (Heap.string h r) as [o'| | |] eqn:Er; try done. injection Ho as -> <-.
  destruct (Z.ltb_spec (2 ^ 32 - 1) (Z.of_nat (length (strings_block s)))) as [|Hlen]; [done|].
  cbv zeta in H. destruct (Z.leb_spec (2 ^ 31) (4 + Z.of_nat (length (Serializer.string_bytes (str o))))) as [|Hshort]; [done|].
  unfold mbind, M_bind, put, mret, M_ret in H. injection H as <- <-.
  destruct Hw as [Hb Hoff Hc [Hn1 Hn2] Hd Hn Hss Hts]. rewrite u32_small by (unfold is_u32; lia).
  assert (Hin : (Z.of_nat (length (strings_block s)), str o) ∈ offsets 8 (ss ++ [str o])).
  { rewrite offsets_app, Hb, length_app. apply elem_of_app. right. cbn [offsets length replicate].
    rewrite Nat2Z.inj_add. by left. }
  assert (Hpre : ss `prefix_of` ss ++ [str o]) by by apply prefix_app_r.
  exists (ss ++ [str o]). split; [|by exists o]. constructor; [|done|by exists []; rewrite app_nil_r|cbn; by rewrite app_nil_r|done].
  constructor; cbn; [|intros r' off'; rewrite lookup_insert_Some; intros [[<- <-]|[_ Hr]]|done|done|done|apply u32_range| |].
  - rewrite Hb. unfold block_of. rewrite bind_app. cbn [mbind list_bind]. by rewrite app_nil_r, <-app_assoc.
  - by exists o.
  - destruct (Hoff _ _ Hr) as (o2 & ? & ?). exists o2. split; [done|]. by eapply offsets_prefix.
  - apply Forall_app. split; [done|]. by constructor.
  - apply Forall_app. split; [done|]. constructor; [by exists r, o|constructor].
Qed.

(** ** Constants *)

(** What a call that serializes a function adds: its own chunk first. *)
Definition writes_function (call : ref -> M Serializer Z) : Prop := forall r s ss os id s',
  writes s ss os -> call r s = Ret (id, s') ->
  exists ss' os' ims, grows s ss os s' ss' os' ims /\ id = Z.of_nat (length os) /\ os' !! length os = Some r.

Lemma grows_prefix s ss os s' ss' os' ims : grows s ss os s' ss' os' ims -> os `prefix_of` os'.
Proof. intros [_ _ (o & -> & _) _ _]. by exists o. Qed.

Lemma write_constant_grows call v s ss os from bytes s' : writes_function call -> (from <= length os)%nat ->
  writes s ss os -> Serializer.write_constant h call v s = Ret (bytes, s') ->
  exists ss' os' ims c, grows s ss os s' ss' os' ims /\ bytes = const_bytes c /\ const_ok ss' os' from (data v) c.
Proof.
  intros Hcall Hfrom Hw. unfold Serializer.write_constant. destruct (data v) as [|b|d|i|r] eqn:Ev.
  - intros [= <- <-]. exists ss, os, [], INil. by split; [apply grows_refl|].
  - intros [= <- <-]. exists ss, os, [], (IBool b). by split; [apply grows_refl|].
  - intros H. apply M_bind_Ret in H as (bs & s1 & Hb & [= <- <-]). unfold lift, encode_double in Hb.
    destruct (pack754 d) as [bits| | |] eqn:Ep; try done. injection Hb as <- <-.
    exists ss, os, [], (IReal bits). split; [by apply grows_refl|]. split; [done|]. by exists d.
  - intros [= <- <-]. exists ss, os, [], (IInt i). by split; [apply grows_refl|].
  - intros H. apply M_bind_Ret in H as (o & s1 & Ho & H). unfold lift in Ho.
    destruct (Heap.read h r) as [o'| | |] eqn:Er; try done. injection Ho as -> <-.
    destruct o; try done; apply M_bind_Ret in H as (i & s1 & Hi & [= <- <-]).
    + destruct (serialize_string_grows _ _ _ _ _ _ Hw Hi) as (ss' & Hg & o2 & Ho & Hin).
      exists ss', os, [], (IString i). split; [done|]. split; [done|]. by exists r, o2.
    + destruct (Hcall _ _ _ _ _ _ Hw Hi) as (ss' & os' & ims & Hg & -> & Hos).
      exists ss', os', ims, (IFunction (length os)). split; [done|]. split; [done|]. by exists r.
Qed.

Lemma write_pool_grows call vs s ss os from bytes s' : writes_function call -> (from <= length os)%nat ->
  writes s ss os -> Serializer.write_constant_pool h call vs s = Ret (bytes, s') ->
  exists ss' os' ims cs, grows s ss os s' ss' os' ims /\ bytes = cs ≫= const_bytes /\
    Forall2 (const_ok ss' os' from) (data <$> vs) cs.
Proof.
  intros Hcall. revert s ss os bytes s'. induction vs as [|v vs IH]; intros s ss os bytes s' Hfrom Hw H.
  { injection H as <- <-. exists ss, os, [], []. split; [by apply grows_refl|]. by split; [|constructor]. }
  cbn [Serializer.write_constant_pool] in H. apply M_bind_Ret in H as (b1 & s1 & H1 & H).
  apply M_bind_Ret in H as (b2 & s2 & H2 & [= <- <-]).
  destruct (write_constant_grows call v s ss os from b1 s1) as (ss1 & os1 & i1 & c & G1 & -> & C1); [done..|].
  pose proof (grows_prefix _ _ _ _ _ _ _ G1) as P1. pose proof (prefix_length _ _ P1).
  destruct (IH s1 ss1 os1 b2 s2) as (ss2 & os2 & i2 & cs & G2 & -> & C2); [lia|apply G1|done|].
  exists ss2, os2, (i1 ++ i2), (c :: cs). split; [by eapply grows_trans|]. split; [done|].
  constructor; [|done]. eapply const_ok_later; [apply G2|by eapply grows_prefix|done].
Qed.

(** ** Functions *)

Lemma append_chunk_run s l x k bytes : chunks s = l ++ x :: k ->
  Serializer.append_chunk (Z.of_nat (length l)) bytes s =
    Ret (tt, Serializer.set_chunks s (l ++ (x ++ bytes) :: k) (chunk_counter s)).
Proof.
  intros E. unfold Serializer.append_chunk, modify. rewrite E, Nat2Z.id.
  rewrite <-(Nat.add_0_r (length l)), alter_app_r. done.
Qed.

Lemma writes_set_chunks s ss os cs : writes s ss os -> length cs = length (chunks s) ->
  writes (Serializer.set_chunks s cs (chunk_counter s)) ss os.
Proof. intros [] Hl. constructor; try done. cbn. congruence. Qed.

Lemma append_chunk_writes s ss os l x k bytes s' : writes s ss os -> chunks s = l ++ x :: k ->
  Serializer.append_chunk (Z.of_nat (length l)) bytes s = Ret (tt, s') ->
  writes s' ss os /\ chunks s' = l ++ (x ++ bytes) :: k.
Proof.
  intros Hw Hc. rewrite (append_chunk_run _ _ _ _ _ Hc). intros [= <-]. split; [|done].
  apply writes_set_chunks; [done|]. by rewrite Hc, !length_app.
Qed.

Lemma debug_information_bytes fn bytes : Serializer.write_debug_information fn = Ret bytes ->
  bytes = debug_bytes (lines (chunk fn)).
Proof. unfold Serializer.write_debug_information. case_match; [done|]. by intros [= <-]. Qed.

(** The state after the call took the next chunk id. *)
Definition started s : Serializer := Serializer.set_chunks s (chunks s ++ [[]]) (u32 (chunk_counter s + 1)).

Lemma started_writes s ss os r : writes s ss os -> chunk_counter s <> 65535 -> writes (started s) ss (os ++ [r]).
Proof.
  intros [H1 H2 H3 [H4 H5] H6 H7 H8 H9] Hne. constructor; try done; cbn.
  - rewrite !length_app. cbn. lia.
  - rewrite length_app, u32_small by (unfold is_u32; lia). cbn. lia.
Qed.

(** The bytes of a function, before its debug information. *)
Definition plain_bytes (id : nat) (im : image) : list Z :=
  (encode (header_fields debug id im) ++ (image_constants im ≫= const_bytes)) ++ image_code im.

Lemma plain_image id im : image_bytes debug id im =
  plain_bytes id im ++ (if debug then debug_bytes (image_lines im) else []).
Proof. unfold image_bytes, plain_bytes. by rewrite <-!app_assoc. Qed.

(** The last part of [serialize_function]. *)
Lemma debug_part fn id im s ss os l x k s' : writes s ss os -> chunks s = l ++ x :: k -> length l = id ->
  x = plain_bytes id im -> image_lines im = lines (chunk fn) ->
  (s ← get;
   (if emit_debug_information s then
      debug ← lift (Serializer.write_debug_information fn); Serializer.append_chunk (Z.of_nat id) debug
    else mret tt) ;; mret (Z.of_nat id)) s = Ret (Z.of_nat id, s') ->
  writes s' ss os /\ chunks s' = l ++ image_bytes debug id im :: k.
Proof.
  intros Hw Hc <- -> Hl. unfold mbind at 1, M_bind at 1. cbn [get]. rewrite (writes_debug _ _ _ Hw), plain_image.
  destruct debug eqn:Ed.
  - intros H. apply M_bind_Ret in H as ([] & s1 & H & [= <-]). apply M_bind_Ret in H as (bs & s2 & Hb & H).
    unfold lift in Hb. destruct (Serializer.write_debug_information fn) as [bs'| | |] eqn:Ew; try done.
    injection Hb as -> <-. apply debug_information_bytes in Ew as ->.
    rewrite Hl. by eapply append_chunk_writes.
  - intros [= <-]. by rewrite app_nil_r.
Qed.

Lemma header_part fn s ss os id bytes s' : writes s ss os ->
  Serializer.write_chunk_header h fn (Z.of_nat id) s = Ret (bytes, s') ->
  exists ss' off, grows s ss os s' ss' os [] /\
    (exists o, Heap.string h (name_ fn) = Ret o /\ (off, str o) ∈ offsets 8 ss') /\
    forall im, image_name im = off -> image_arity im = arity_ fn -> image_upvalues im = upvalue_count_ fn ->
      length (image_constants im) = length (value_array (chunk fn)) -> image_code im = code (chunk fn) ->
      bytes = encode (header_fields debug id im).
Proof.
  intros Hw H. unfold Serializer.write_chunk_header in H.
  apply M_bind_Ret in H as (off & s1 & Hs & H).
  destruct (serialize_string_grows _ _ _ _ _ _ Hw Hs) as (ss' & Hg & Ho).
  unfold mbind at 1, M_bind at 1 in H. cbn [get] in H.
  change (negb (nbytes Serializer.chunk_header_sizes =? 24)) with false in H. cbv iota in H.
  injection H as <- <-. exists ss', off. split; [done|]. split; [done|]. intros im Hoff Ha Hu Hn Hc.
  unfold header_fields. rewrite (writes_debug _ _ _ (grows_writes _ _ _ _ _ _ _ Hg)), Ha, Hu, Hn, Hc, Hoff. done.
Qed.

Lemma serialize_function_grows fuel : writes_function (Serializer.serialize_function h fuel).
Proof.
  induction fuel as [|fuel IH]; intros r s ss os id s' Hw; [done|].
  cbn [Serializer.serialize_function].  unfold mbind at 1, M_bind at 1. cbn [get].
  destruct (Z.eqb_spec (chunk_counter s) 65535) as [|Hne]; [done|]. cbv zeta. intros H.
  apply M_bind_Ret in H as ([] & s1 & H1 & H). injection H1 as <-. change (Serializer.set_chunks _ _ _) with (started s) in H.
  pose proof (started_writes s ss os r Hw Hne) as W1.
  pose proof (writes_chunks _ _ _ Hw) as Hlen. rewrite (proj1 (writes_counter _ _ _ Hw)), <-Hlen in H.
  apply M_bind_Ret in H as (fn & s1 & Hfn & H). unfold lift in Hfn.
  destruct (Heap.function h r) as [fn'| | |] eqn:Er; try done. injection Hfn as -> <-.
  apply M_bind_Ret in H as (hdr & s2 & H2 & H).
  destruct (header_part _ _ _ _ _ _ _ W1 H2) as (ss2 & off & G2 & Ho & Hhdr). clear H2.
  assert (C2 : chunks s2 = chunks s ++ [] :: []) by (rewrite (grows_chunks _ _ _ _ _ _ _ G2), app_nil_r; done).
  apply M_bind_Ret in H as ([] & s3 & H3 & H).
  destruct (append_chunk_writes _ _ _ _ _ _ _ _ (grows_writes _ _ _ _ _ _ _ G2) C2 H3) as [W3 C3].
  apply M_bind_Ret in H as (pool & s4 & H4 & H).
  assert (Hfrom : (S (length os) <= length (os ++ [r]))%nat) by (rewrite length_app; cbn; lia).
  destruct (write_pool_grows _ _ _ _ _ _ _ _ IH Hfrom W3 H4) as (ss4 & os4 & ims & cs & G4 & -> & Hcs). clear H4.
  pose proof (grows_chunks _ _ _ _ _ _ _ G4) as C4. rewrite C3, <-app_assoc in C4.
  apply M_bind_Ret in H as ([] & s5 & H5 & H).
  destruct (append_chunk_writes _ _ _ _ _ _ _ _ (grows_writes _ _ _ _ _ _ _ G4) C4 H5) as [W5 C5].
  apply M_bind_Ret in H as ([] & s6 & H6 & H).
  destruct (append_chunk_writes _ _ _ _ _ _ _ _ W5 C5 H6) as [W6 C6].
  set (im := mkImage off (arity_ fn) (upvalue_count_ fn) cs (code (chunk fn)) (lines (chunk fn))).
  assert (Hcon : length cs = length (value_array (chunk fn))) by (apply Forall2_length in Hcs; by rewrite length_fmap in Hcs).
  specialize (Hhdr im eq_refl eq_refl eq_refl Hcon eq_refl). rewrite app_nil_l, Hhdr in C6.
  assert (id = Z.of_nat (length (chunks s))) as ->.
  { apply M_bind_Ret in H as (? & ? & _ & H). by apply M_bind_Ret in H as (? & ? & _ & [= <- _]). }
  rewrite Hlen in *.
  destruct (debug_part fn _ im _ _ _ _ _ _ s' W6 C6 Hlen eq_refl eq_refl H) as [Wz Cz].
  destruct (grows_origins _ _ _ _ _ _ _ G4) as (os2 & Hos & Hims). rewrite <-app_assoc in Hos.
  assert (Hid : os4 !! length os = Some r) by (rewrite Hos; by apply list_lookup_middle).
  pose proof (grows_strings _ _ _ _ _ _ _ G4) as P4.
  exists ss4, os4, (im :: ims). split; [|done]. constructor.
  - done.
  - by etrans; [apply G2|].
  - exists ([r] ++ os2). split; [done|]. cbn. lia.
  - rewrite Cz, length_app, Nat.add_1_r. unfold chunks_of at 2. cbn [imap]. rewrite Nat.add_0_r. do 2 f_equal.
    apply imap_ext. intros i x _. apply (f_equal (fun n => image_bytes debug n x)). cbn. lia.
  - intros [|i] x; cbn.
    + intros [= <-]. rewrite Nat.add_0_r. constructor. exists r, fn. split_and!; try done.
      destruct Ho as (o & Ho & Hin). exists o. split; [done|]. by eapply offsets_prefix.
    + intros Hi. pose proof (grows_images _ _ _ _ _ _ _ G4 _ _ Hi) as Him.
      by rewrite length_app, <-Nat.add_assoc in Him.
Qed.

(** ** Programs *)

Definition global_fields (g : Z * bool) : list (nat * Z) :=
  [(4%nat, g.1); (1%nat, if g.2 then 1 else 0); (2%nat, 0); (1%nat, 0)].

Definition global_ok ss (entry : positive * GlobalValue) (g : Z * bool) : Prop :=
  g.2 = is_const entry.2 /\ exists o, Heap.string h entry.1 = Ret o /\ (g.1, str o) ∈ offsets 8 ss.

Lemma symbol_entries_grows names vs s ss os bytes s' : writes s ss os ->
  Serializer.symbol_entries h names vs s = Ret (bytes, s') ->
  exists ss' gs, grows s ss os s' ss' os [] /\ bytes = gs ≫= (fun g => encode (global_fields g)) /\
    Forall2 (global_ok ss') (zip names vs) gs /\ length gs = length names.
Proof.
  revert vs s ss bytes s'. induction names as [|r names IH]; intros vs s ss bytes s' Hw H.
  { injection H as <- <-. exists ss, []. split; [by apply grows_refl|]. by split_and!; [|constructor|]. }
  destruct vs as [|v vs]; [done|]. cbn [Serializer.symbol_entries] in H.
  apply M_bind_Ret in H as (i & s1 & H1 & H). apply M_bind_Ret in H as (es & s2 & H2 & [= <- <-]).
  destruct (serialize_string_grows _ _ _ _ _ _ Hw H1) as (ss1 & G1 & o & Ho & Hin).
  destruct (IH _ _ _ _ _ (grows_writes _ _ _ _ _ _ _ G1) H2) as (ss2 & gs & G2 & -> & Hgs & Hl).
  exists ss2, ((i, is_const v) :: gs). split; [by apply (grows_trans _ _ _ _ _ _ _ _ _ [] [] G1 G2)|]. split; [done|].
  split; [|cbn; lia]. constructor; [|done]. split; [done|]. exists o. split; [done|].
  eapply offsets_prefix; [apply G2|done].
Qed.

(** What [serialize_program] returns: strings, functions and globals. *)
Record written (f : positive) (context : Context) (bc : SerializedBytecode) ss os ims (gs : list (Z * bool)) : Prop := {
  written_strings : exists count, is_u32 count /\
    strings bc = encode [(4%nat, count); (4%nat, 8 + Z.of_nat (length (block_of ss)))] ++ block_of ss;
  written_size : Z.of_nat (length (strings bc)) < 2 ^ 32 - 1;
  written_short : Forall (fun t => 4 + Z.of_nat (length (Serializer.string_bytes t)) < 2 ^ 31) ss;
  written_texts : Forall (fun t => exists r o, Heap.string h r = Ret o /\ str o = t) ss;
  written_chunks : bytecode bc = concat (rev (chunks_of debug 0 ims));
  written_count : chunk_count bc = Z.of_nat (length os) /\ length ims = length os /\ Z.of_nat (length os) <= 65535;
  written_images : forall i im, ims !! i = Some im -> image_ok ss os i im;
  written_main : os !! 0%nat = Some f;
  written_globals : Bytes.globals bc = encode [(2%nat, u16 (Z.of_nat (length (names context)))); (2%nat, 0)] ++
    (gs ≫= (fun g => encode (global_fields g)));
  written_names : Forall2 (global_ok ss) (zip (names context) (Context.globals context)) gs /\
    length gs = length (names context)
}.

Definition strings_header (count size : Z) : list Z := encode [(4%nat, count); (4%nat, size)].

Lemma length_strings_header count size : length (strings_header count size) = 8%nat.
Proof. unfold strings_header. by rewrite length_encode. Qed.

Lemma string_block_header_written s ss os s' : writes s ss os ->
  Serializer.write_string_block_header s = Ret (tt, s') ->
  8 + Z.of_nat (length (block_of ss)) < 2 ^ 32 - 1 /\
  s' = Serializer.set_strings s
         (strings_header (string_count s) (8 + Z.of_nat (length (block_of ss))) ++ block_of ss)
         (strings_offset s) (string_count s).
Proof.
  intros Hw. unfold Serializer.write_string_block_header, mbind at 1, M_bind at 1. cbn [get].
  rewrite (writes_block _ _ _ Hw), length_app, length_replicate, Nat2Z.inj_add. change (Z.of_nat 8) with 8.
  change (drop 8 (replicate 8 0 ++ block_of ss)) with (block_of ss).
  destruct (Z.leb_spec (2 ^ 32 - 1) (8 + Z.of_nat (length (block_of ss)))) as [|Hlen]; [done|].
  rewrite u32_small by (unfold is_u32; lia). fold (strings_header (string_count s) (8 + Z.of_nat (length (block_of ss)))).
  generalize (strings_header (string_count s) (8 + Z.of_nat (length (block_of ss)))). intros hdr [= <-]. done.
Qed.

Lemma serialize_program_written f context s bc s' : emit_debug_information s = debug ->
  Serializer.serialize_program h f context s = Ret (bc, s') ->
  exists ss os ims gs, written f context bc ss os ims gs.
Proof.
  intros Hd. unfold Serializer.serialize_program. generalize Serializer.function_fuel. intros fuel H. unfold modify in H. unfold mbind at 1, M_bind at 1 in H.
  set (s0 := mkSerializer _ _ _ _ _ _) in H.
  assert (W0 : writes s0 [] []) by (constructor; try done; by constructor).
  apply M_bind_Ret in H as (id & s1 & H1 & H).
  destruct (serialize_function_grows _ _ _ _ _ _ _ W0 H1) as (ss1 & os & ims & G1 & -> & Hmain).
  change (negb (Z.of_nat (length []) =? 0)) with false in H. cbv iota in H.
  apply M_bind_Ret in H as (globals & s2 & H2 & H). unfold Serializer.serialize_symbol_table in H2.
  apply M_bind_Ret in H2 as (es & s3 & H2 & [= <- <-]).
  destruct (symbol_entries_grows _ _ _ _ _ _ _ (grows_writes _ _ _ _ _ _ _ G1) H2) as (ss & gs & G2 & -> & Hgs & Hlgs).
  pose proof (grows_writes _ _ _ _ _ _ _ G2) as W2.
  pose proof (grows_chunks _ _ _ _ _ _ _ G1) as C1. pose proof (grows_chunks _ _ _ _ _ _ _ G2) as C2.
  rewrite app_nil_r, C1, app_nil_l in C2.
  apply M_bind_Ret in H as ([] & s4 & H4 & H).
  destruct (string_block_header_written _ _ _ _ W2 H4) as [Hlen ->].
  pose proof (length_strings_header (string_count s3) (8 + Z.of_nat (length (block_of ss)))) as Hhdr.
  pose proof (writes_count _ _ _ W2) as Hcount.
  remember (strings_header (string_count s3) (8 + Z.of_nat (length (block_of ss)))) as hdr eqn:Ehdr. injection H as <- <-.
  exists ss, os, ims, gs. constructor; cbn [Bytes.strings Bytes.bytecode Bytes.chunk_count Bytes.globals].
  - exists (string_count s3). split; [done|]. cbn. by rewrite Ehdr.
  - cbn. rewrite length_app, Hhdr. lia.
  - apply W2.
  - apply W2.
  - by rewrite C2.
  - destruct (grows_origins _ _ _ _ _ _ _ G1) as (os2 & -> & Hims).
    split; [apply W2|]. split; [done|apply W2].
  - intros i im Hi. eapply image_ok_later; [apply G2| |by apply (grows_images _ _ _ _ _ _ _ G1 i im)]. done.
  - done.
  - done.
  - done.
Qed.

End writing.
