(* ===== verification/ContextFacts.v ===== *)
(** * The global table while the heap changes

    The table is keyed by string objects and hashes them through the heap; its
    invariant carries over to any heap that keeps those strings. *)

From S2P Require Import Prelude Double HashMap HashMapFacts Hash Platform HashMapProps Opcode Value Chunk Object KeyFacts Memory CollectFacts WriteFacts Context.

Section context.
Context `{PlatformLaws}.
Implicit Types (h : heap) (c : Context) (g : gmap (option ref) Z).

(** The table as the compiler and the machine keep it.  An index of more than [int] wraps around;
    it is then negative or leads to another variable. *)
Record globals_ok h c g : Prop := {
  globals_table : @repr _ _ (string_key h) (fun k => k <> None) _ _ (global_names c) g;
  globals_length : length (names c) = length (globals c);
  globals_index : forall k i, g !! k = Some i -> int_index i (Z.of_nat (length (globals c)));
  globals_named : forall r, r ∈ names c -> is_Some (g !! Some r);
  globals_strings : forall r i, g !! Some r = Some i -> exists s, Heap.string h r = Ret s;
  globals_distinct : NoDup (names c)
}.

(** Only the hashes of the keys in the table matter. *)
Lemma rehashed_wf h h' (ss : list (HashMap.slot (option ref) Z)) :
  (forall k v, filled ss (Some k) v -> Heap.string h' k = Heap.string h k) ->
  @wf_slots _ _ (string_key h) (fun k => k <> None) ss ->
  @wf_slots _ _ (string_key h') (fun k => k <> None) ss.
Proof.
  intros Heq [Hdef Hr]. constructor; [done|]. intros i s Hi Hs.
  destruct (Hr i s Hi Hs) as (Hv & d & Hd & Hpos & Hp). split; [done|]. exists d.
  assert (E : @HashMap.home _ _ (string_key h') ss (HashMap.key s) = @HashMap.home _ _ (string_key h) ss (HashMap.key s)).
  { unfold HashMap.home. cbn [HashMap.hasher string_key]. destruct (HashMap.key s) as [k|] eqn:Ek; [|done].
    rewrite (Heq k (HashMap.value s)); [done|]. exists i. rewrite Hi, <-Ek, <-Hs. by destruct s. }
  unfold passes, at_probe in *. by rewrite E.
Qed.

Lemma rehashed_repr h h' (t : HashMap.table (option ref) Z) g :
  (forall r i, g !! Some r = Some i -> Heap.string h' r = Heap.string h r) ->
  @repr _ _ (string_key h) (fun k => k <> None) _ _ t g ->
  @repr _ _ (string_key h') (fun k => k <> None) _ _ t g.
Proof.
  intros Heq [Hwf Hm]. constructor; [|done]. destruct Hwf as [Ha Hc Hs Ht]. constructor; try done.
  apply (rehashed_wf h); [|done]. intros k v Hf. apply (Heq k v). by apply Hm.
Qed.

Lemma globals_heap h h' c g :
  globals_ok h c g -> (forall r s, Some r ∈ Context.global_roots c -> Heap.string h r = Ret s -> Heap.string h' r = Ret s) ->
  globals_ok h' c g.
Proof.
  intros [Ht Hl Hi Hn Hs Hd] Hk.
  assert (Hroot : forall r i, g !! Some r = Some i -> Heap.string h' r = Heap.string h r).
  { intros r i Hg. destruct (Hs r i Hg) as [s E]. rewrite E. apply Hk; [|done].
    unfold Context.global_roots. apply elem_of_app. left. apply list_elem_of_fmap. exists (Some r, i).
    split; [done|]. rewrite (entries_repr _ _ _ Ht). by apply elem_of_map_to_list. }
  constructor; try done; [by eapply rehashed_repr|].
  intros r i Hg. destruct (Hs r i Hg) as [s E]. exists s. by rewrite (Hroot r i).
Qed.

(** The roots of the table are the string objects and the values of the variables. *)
Lemma elem_of_global_roots h c g o : globals_ok h c g ->
  o ∈ Context.global_roots c <->
  is_Some (g !! o) \/ o ∈ ((fun v => value_ref (global_value v)) <$> globals c).
Proof.
  intros Hok. unfold Context.global_roots. rewrite elem_of_app.
  cut (o ∈ (HashMap.entries (global_names c)).*1 <-> is_Some (g !! o)); [by intros ->|].
  rewrite list_elem_of_fmap. split.
  - intros ([k i] & -> & Hin). rewrite (entries_repr _ _ _ (globals_table _ _ _ Hok)) in Hin.
    apply elem_of_map_to_list in Hin. by eexists.
  - intros [i Hi]. exists (o, i). split; [done|].
    rewrite (entries_repr _ _ _ (globals_table _ _ _ Hok)). by apply elem_of_map_to_list.
Qed.

(** Asking for a name; a table too large to grow throws. *)
Lemma get_global_known h c g r i : globals_ok h c g -> g !! Some r = Some i -> Context.get_global h c r = Ret (i, c).
Proof.
  intros [Ht _ _ _ _ _] Hi. unfold Context.get_global.
  rewrite (@get_repr _ _ (string_key h) (fun k => k <> None) _ _ _ _ _ (Some r) Ht) by done. by rewrite Hi.
Qed.

Lemma get_global_new h c g r s :
  globals_ok h c g -> Heap.string h r = Ret s -> g !! Some r = None ->
  (Context.get_global h c r = Throw HashMap.too_large) \/
  exists t, let i := i32 (Z.of_nat (length (globals c))) in
    let c' := mkContext t (globals c ++ [Context.new_global]) (names c ++ [r]) in
    Context.get_global h c r = Ret (i, c') /\ globals_ok h c' (<[Some r := i]> g).
Proof.
  intros [Ht Hl Hi Hn Hst Hd] Hs Hnew. unfold Context.get_global.
  rewrite (@get_repr _ _ (string_key h) (fun k => k <> None) _ _ _ _ _ (Some r) Ht) by done.
  rewrite Hnew. cbn [mbind outcome_bind].
  replace (i32 _) with (i32 (Z.of_nat (length (globals c)))) by (f_equal; rewrite length_app; cbn; lia).
  set (i := i32 _).
  destruct (@insert_repr _ _ (string_key h) (fun k => k <> None) _ _ _ _ _ (Some r) i Ht)
    as [[E _]|(t & E & Ht')]; [done|left; by rewrite E|].
  right. rewrite E. cbn [mbind outcome_bind]. exists t. split; [done|]. constructor; cbn.
  - exact Ht'.
  - rewrite !length_app. cbn. lia.
  - intros k j. rewrite lookup_insert_Some, length_app. cbn. intros [[<- <-]|[_ Hk]]; [|eapply int_index_mono; [exact (Hi k j Hk)|lia]].
    apply int_index_i32. lia.
  - intros r'. rewrite elem_of_app, list_elem_of_singleton, lookup_insert_is_Some'.
    intros [Hr'| ->]; [right; by apply Hn|by left].
  - intros r' j. rewrite lookup_insert_Some. intros [[[= <-] _]|[_ Hk]]; [by eexists|by eapply Hst].
  - apply NoDup_app. split; [done|]. split; [|apply NoDup_singleton].
    intros x Hx ->%list_elem_of_singleton. apply Hn in Hx. rewrite Hnew in Hx. by destruct Hx.
Qed.

Lemma get_global_outcome h c g r s :
  globals_ok h c g -> Heap.string h r = Ret s ->
  (Context.get_global h c r = Throw HashMap.too_large) \/
  exists i c' g', Context.get_global h c r = Ret (i, c') /\ globals_ok h c' g' /\
    int_index i (Z.of_nat (length (globals c'))) /\ (length (globals c) <= length (globals c'))%nat /\
    (forall o, o ∈ Context.global_roots c' -> o = None \/ o = Some r \/ o ∈ Context.global_roots c).
Proof.
  intros Hok Hs. destruct (g !! Some r) as [i|] eqn:Ei.
  { right. exists i, c, g. rewrite (get_global_known _ _ _ _ _ Hok Ei).
    split_and!; try done; [by eapply globals_index|]. by right; right. }
  destruct (get_global_new h c g r s Hok Hs Ei) as [?|(t & E & Hok')]; [by left|]. right. cbv zeta in E, Hok'.
  eexists _, _, _. split; [exact E|]. split_and!; [exact Hok'| |cbn; rewrite length_app; lia|].
  - apply (globals_index _ _ _ Hok' (Some r)), lookup_insert_eq.
  - intros o. rewrite (elem_of_global_roots _ _ _ o Hok'), (elem_of_global_roots _ _ _ o Hok). cbn.
    rewrite lookup_insert_is_Some', fmap_app, elem_of_app. cbn.
    intros [[<-|?]|[?|Ho]]; auto. by apply list_elem_of_singleton in Ho as ->; left.
Qed.

(** Changing the flags of a variable. *)
Lemma set_const_outcome h c g i b :
  globals_ok h c g -> int_index i (Z.of_nat (length (globals c))) ->
  Context.set_const c i b = Undef int_overflow \/
  exists c', Context.set_const c i b = Ret c' /\ globals_ok h c' g /\
    length (globals c') = length (globals c) /\
    (forall o, o ∈ Context.global_roots c' -> o ∈ Context.global_roots c).
Proof.
  intros Hok Hi. unfold Context.set_const, Context.update, Context.get_internal_value.
  destruct (Z.ltb_spec i 0) as [|Hpos]; [left; by rewrite (int_index_negative _ _ Hi)|]. right. destruct Hi as [Hi _].
  destruct (lookup_lt_is_Some_2 (globals c) (Z.to_nat i)) as [v Hv]; [lia|]. rewrite Hv.
  cbn [or_undef mbind outcome_bind]. eexists. split; [done|].
  set (v' := mkGlobal _ _ _ _ _).
  assert (Hvals : (fun v => value_ref (global_value v)) <$> <[Z.to_nat i := v']> (globals c) =
                  (fun v => value_ref (global_value v)) <$> globals c).
  { rewrite list_fmap_insert. apply list_insert_id. by rewrite list_lookup_fmap, Hv. }
  assert (Hok' : globals_ok h (mkContext (global_names c) (<[Z.to_nat i := v']> (globals c)) (names c)) g).
  { destruct Hok. constructor; cbn; rewrite ?length_insert; try done. }
  split_and!; [done|cbn; apply length_insert|].
  intros o. rewrite (elem_of_global_roots _ _ _ o Hok'), (elem_of_global_roots _ _ _ o Hok). cbn. by rewrite Hvals.
Qed.

Lemma get_internal_value_outcome h c g i :
  globals_ok h c g -> int_index i (Z.of_nat (length (globals c))) ->
  Context.get_internal_value c i = Undef int_overflow \/
  (exists v, Context.get_internal_value c i = Ret v) /\
  exists r s, Context.get_name c i = Ret r /\ Heap.string h r = Ret s.
Proof.
  intros [] Hi. unfold Context.get_internal_value, Context.get_name.
  destruct (Z.ltb_spec i 0) as [|Hpos]; [left; by rewrite (int_index_negative _ _ Hi)|]. right. destruct Hi as [Hi _].
  destruct (lookup_lt_is_Some_2 (globals c) (Z.to_nat i)) as [v Hv]; [lia|].
  destruct (lookup_lt_is_Some_2 (names c) (Z.to_nat i)) as [r Hr]; [lia|].
  rewrite Hv, Hr. split; [by exists v|]. 
  destruct (globals_named0 r) as [j Hj]; [by eapply list_elem_of_lookup_2|].
  destruct (globals_strings0 r j Hj) as [s Hs]. by exists r, s.
Qed.

End context.
