(* ===== verification/LoaderFacts.v ===== *)
(** * What the loader makes of the blocks of a file

    The memory while a program is loaded: the collector is off, so that every
    allocation only adds an object.  Then one lemma for each of the loops of
    the loader, on a block the serializer wrote. *)

From S2P Require Import Prelude Double HashMap HashMapFacts Hash Platform Bytes BytesFacts Opcode Value Chunk Object KeyFacts Memory CollectFacts SweepFacts AllocatorFacts Context ContextFacts Serializer SerializerFacts Deserializer.
Import DataPacker.

(** ** Memory *)

Section memory.
Context `{PlatformLaws}.
Implicit Types (m : Memory) (roots : list (option ref)).

Record loading m : Prop := { loading_off : gc_disabled m = true; loading_inv : exists p, inv m p }.

(** [m'] has the object [o] at [r], and what [m] has. *)
Record loads m (r : ref) (o : Object) m' : Prop := {
  loads_loading : loading m';
  loads_old : objects m ⊆ objects m';
  loads_new : objects m' !! r = Some (mkCell false o)
}.

Lemma stress_off roots m : gc_disabled m = true -> Allocator.stress_gc roots m = Ret (tt, m).
Proof.
  intros Hd. unfold Allocator.stress_gc, mbind, M_bind, get. case_match; [|done].
  unfold Allocator.collect_garbage, mbind, M_bind, get. by rewrite Hd.
Qed.

Lemma create_off roots t m p : gc_disabled m = true -> inv m p ->
  exists m', Allocator.create_object roots t m = Ret (tt, m') /\ inv m' p /\ gc_disabled m' = true /\
    objects m' = objects m /\ next_object m' = next_object m.
Proof.
  intros Hd Hi. unfold Allocator.create_object, mbind, M_bind, get, modify.
  set (m1 := Memory.set_counters m _ _ _ _ _ _). exists m1.
  assert (Hi1 : inv m1 p) by by apply counters_inv. case_match; [|done].
  unfold Allocator.collect_garbage, mbind, M_bind, get. change (gc_disabled m1) with (gc_disabled m). by rewrite Hd.
Qed.

Lemma new_object_off roots t o m : loading m -> ~ is_string_object o ->
  exists r m', (Allocator.stress_gc roots ;; Allocator.create_object roots t ;; Allocator.push_object o) m =
    Ret (r, m') /\ loads m r o m'.
Proof.
  intros [Hd [p Hi]] Ho. rewrite (M_bind_run _ _ _ _ _ (stress_off roots m Hd)).
  destruct (create_off roots t m p Hd Hi) as (m2 & E2 & Hi2 & Hd2 & Hobj & _).
  rewrite (M_bind_run _ _ _ _ _ E2). pose proof (fresh_object m2 p Hi2) as Hfresh.
  destruct (Allocator.push_object o m2) as [[r m3]| | |] eqn:Hpush; try done.
  assert (r = next_object m2) as -> by by injection Hpush as <- <-.
  exists (next_object m2), m3. split; [done|]. destruct (push_objs_ok m2 p o m3 Hi2 Hpush) as [Hok _].
  pose proof (pushed_pool m2 p o m3 Hi2 Hpush Ho) as Hpool. injection Hpush as <-. constructor.
  - constructor; [done|]. by exists p.
  - cbn. rewrite <-Hobj. by apply insert_subseteq.
  - cbn. by rewrite lookup_insert_eq.
Qed.

Lemma intern_off roots t m : loading m -> no_nul t ->
  Allocator.intern_string roots t m = Throw HashMap.too_large \/
  exists r m', Allocator.intern_string roots t m = Ret (r, m') /\
    loads m r (ObjString (mkString t (Hash.hash_string t))) m'.
Proof.
  intros [Hd [p Hi]] Hnul. unfold Allocator.intern_string.
  rewrite (M_bind_run _ _ _ _ _ (stress_off roots m Hd)), (M_bind_run _ _ _ _ _ (check_interned_spec t m p Hi Hnul)).
  destruct (p !! pool_key t) as [o|] eqn:Hk; cbn [default from_option].
  - destruct (proj2 (ok_pool _ _ (inv_ok _ _ Hi)) _ _ Hk) as (r & -> & _).
    destruct (proj1 (inv_pool _ _ Hi _ r) Hk) as (c & Hc & Hcs).
    right. exists r, m. split; [done|]. constructor; [by constructor; [|exists p]|done|].
    rewrite Hc. f_equal. pose proof (ok_unmarked _ _ (inv_ok _ _ Hi) _ _ Hc). destruct c; cbn in *; by subst.
  - destruct (create_off roots ObjectType.STRING m p Hd Hi) as (m2 & E2 & Hi2 & Hd2 & Hobj & _).
    rewrite (M_bind_run _ _ _ _ _ E2). fold (add_interned t).
    destruct (add_interned_outcome t m2 p Hi2 Hnul) as [[-> _]|(m3 & tb & -> & Hpush & Hi3 & _)];
      [by rewrite Hk|by left|]. right. eexists _, _. split; [done|].
    pose proof (fresh_object m2 p Hi2) as Hfresh. injection Hpush as <-. constructor.
    + constructor; [done|]. eauto.
    + cbn. rewrite <-Hobj. by apply insert_subseteq.
    + cbn. by rewrite lookup_insert_eq.
Qed.

End memory.

(** ** Strings *)

Section loader.
Context `{PlatformLaws} (roots : list (option ref)).
Implicit Types (d : Deserializer) (l : list (Z * string)) (ss : list string).

Lemma text_of_bytes (t : string) : Deserializer.text_of (Serializer.string_bytes t) = t.
Proof.
  unfold Deserializer.text_of, Serializer.string_bytes. rewrite <-list_fmap_compose.
  transitivity (String.string_of_list_ascii (String.list_ascii_of_string t)); [|apply String.string_of_list_ascii_of_string].
  f_equal. rewrite <-(list_fmap_id (String.list_ascii_of_string t)) at 2. apply list_fmap_ext.
  intros _ c _. unfold compose. rewrite N2Z.id. apply ascii_N_embedding.
Qed.

(** The strings [l] of the block, with their offsets, are loaded. *)
Definition strings_ok d l : Prop := forall off t, (off, t) ∈ l ->
  exists r, loaded_strings d !! off = Some r /\
    objects (loader_memory d) !! r = Some (mkCell false (ObjString (mkString t (Hash.hash_string t)))).

(** What the steps of the loader keep. *)
Record keeps d d' : Prop := {
  keeps_loading : loading (loader_memory d');
  keeps_objects : objects (loader_memory d) ⊆ objects (loader_memory d');
  keeps_strings : loaded_strings d ⊆ loaded_strings d'
}.

Lemma keeps_refl d : loading (loader_memory d) -> keeps d d.
Proof. by constructor. Qed.

Lemma keeps_trans d1 d2 d3 : keeps d1 d2 -> keeps d2 d3 -> keeps d1 d3.
Proof. intros [] []. constructor; [done|by etrans..]. Qed.

Lemma loaded_string_kept d d' off t r : keeps d d' -> loaded_strings d !! off = Some r ->
  objects (loader_memory d) !! r = Some (mkCell false (ObjString (mkString t (Hash.hash_string t)))) ->
  loaded_strings d' !! off = Some r /\
  objects (loader_memory d') !! r = Some (mkCell false (ObjString (mkString t (Hash.hash_string t)))).
Proof. intros [_ Ho Hs] Hr Hc. split; by eapply lookup_weaken. Qed.

Lemma keeps_strings_ok d d' l : keeps d d' -> strings_ok d l -> strings_ok d' l.
Proof.
  intros Hk Hl off t Hin. destruct (Hl off t Hin) as (r & Hr & Hc). exists r. by eapply loaded_string_kept.
Qed.

Definition short (t : string) : Prop := 4 + Z.of_nat (length (Serializer.string_bytes t)) < 2 ^ 31.

Lemma allocate_run {A} (f : M Memory A) d a m' : f (loader_memory d) = Ret (a, m') ->
  Deserializer.allocate f d = Ret (a, Deserializer.set_memory d m').
Proof. intros E. unfold Deserializer.allocate, zoom. by rewrite E. Qed.

Lemma allocate_throw {A} (f : M Memory A) d e : f (loader_memory d) = Throw e -> Deserializer.allocate f d = Throw e.
Proof. intros E. unfold Deserializer.allocate, zoom. by rewrite E. Qed.

Lemma u32_add a b : 0 <= a -> 0 <= b -> a + b < 2 ^ 32 -> u32 (a + b) = a + b.
Proof. intros. apply u32_small. unfold is_u32. lia. Qed.

Lemma strings_loop_ok ss : forall buffer pre d fuel, buffer = pre ++ block_of ss ->
  Z.of_nat (length buffer) < 2 ^ 32 - 1 -> (length ss <= fuel)%nat ->
  Forall short ss -> Forall no_nul ss -> loading (loader_memory d) ->
  (forall off, is_Some (loaded_strings d !! off) -> off < Z.of_nat (length pre)) ->
  Deserializer.strings_loop roots fuel buffer (Z.of_nat (length buffer)) (Z.of_nat (length pre)) d = Throw HashMap.too_large \/
  exists d', Deserializer.strings_loop roots fuel buffer (Z.of_nat (length buffer)) (Z.of_nat (length pre)) d = Ret (tt, d') /\
    keeps d d' /\ strings_ok d' (offsets (Z.of_nat (length pre)) ss) /\
    loader_context d' = loader_context d /\ loaded_functions d' = loaded_functions d.
Proof.
  induction ss as [|t ss IH]; intros buffer pre d fuel Hbuf Hsize Hfuel Hshort Hnul Hl Hkeys.
  { right. exists d. rewrite app_nil_r in Hbuf. subst pre. split; [|split_and!; [by apply keeps_refl|by inversion 1|done..]].
    destruct fuel; cbn; by rewrite Z.ltb_irrefl. }
  destruct fuel as [|fuel]; [cbn in Hfuel; lia|]. apply Forall_cons in Hshort as [Ht Hshort].
  apply Forall_cons in Hnul as [Htn Hnul]. unfold short in Ht.
  set (bytes := Serializer.string_bytes t) in *. set (n := Z.of_nat (length bytes)) in *.
  assert (Hb : buffer = pre ++ encode_le 4 n ++ bytes ++ block_of ss).
  { rewrite Hbuf. unfold block_of at 1. cbn [mbind list_bind]. unfold encode_length_prefixed.
    fold bytes n. rewrite u32_small by (unfold is_u32; lia). by rewrite <-app_assoc. }
  assert (Hlen : Z.of_nat (length buffer) = Z.of_nat (length pre) + 4 + n + Z.of_nat (length (block_of ss))).
  { rewrite Hb, !length_app, length_encode_le. lia. }
  cbn [Deserializer.strings_loop].
  rewrite (proj2 (Z.ltb_lt (Z.of_nat (length pre)) (Z.of_nat (length buffer)))) by lia.
  rewrite u32_add by lia. rewrite (proj2 (Z.ltb_ge (Z.of_nat (length buffer)) (Z.of_nat (length pre) + 4))) by lia.
  assert (Hdec : decode_le buffer (Z.of_nat (length pre)) 4 = Ret n).
  { rewrite Hb, decode_le_app. f_equal. apply Z.mod_small. change (bits_of 4) with 32. lia. }
  rewrite (M_bind_run _ _ _ _ _ (lift_run _ _ _ Hdec)). cbv zeta.
  rewrite u32_add by lia. rewrite (proj2 (Z.ltb_ge (Z.of_nat (length buffer)) (Z.of_nat (length pre) + 4 + n))) by lia.
  assert (Hread : read buffer (Z.of_nat (length pre) + 4) (Z.to_nat n) = Ret bytes).
  { rewrite Hb, app_assoc. replace (Z.of_nat (length pre) + 4) with (Z.of_nat (length (pre ++ encode_le 4 n)))
      by (rewrite length_app, length_encode_le; lia). apply read_app. lia. }
  rewrite (M_bind_run _ _ _ _ _ (lift_run _ _ _ Hread)). rewrite (text_of_bytes t : Deserializer.text_of bytes = t).
  destruct (intern_off roots t (loader_memory d) Hl Htn) as [Ei|(r & m' & Ei & Hr)].
  { left. by apply M_bind_throw, allocate_throw. }
  rewrite (M_bind_run _ _ _ _ _ (allocate_run _ _ _ _ Ei)), (M_bind_run _ _ _ _ _ (modify_run _ _)). cbv beta.
  set (d1 := Deserializer.add_string _ _ _). set (pre' := pre ++ encode_le 4 n ++ bytes).
  assert (Hpre : Z.of_nat (length pre') = Z.of_nat (length pre) + 4 + n).
  { unfold pre'. rewrite !length_app, length_encode_le. lia. }
  assert (Hnew : loaded_strings d !! Z.of_nat (length pre) = None).
  { apply eq_None_not_Some. intros Hs. apply Hkeys in Hs. lia. }
  assert (K1 : keeps d d1).
  { constructor; [apply Hr|apply Hr|]. by apply insert_subseteq. }
  destruct (IH buffer pre' d1 fuel) as [E|(d2 & E & K2 & S2 & C2 & F2)]; [|done|cbn in Hfuel; lia|done|done|apply Hr| | |].
  - unfold pre'. by rewrite <-!app_assoc.
  - intros off. cbn. rewrite lookup_insert_is_Some'. intros [<-|Hs]; [lia|]. apply Hkeys in Hs. lia.
  - left. by rewrite <-Hpre.
  - right. exists d2. rewrite <-Hpre. split; [done|]. split; [by eapply keeps_trans|]. split; [|done].
    intros off t'. cbn [offsets]. rewrite elem_of_cons. intros [[= -> ->]|Hin].
    + exists r. eapply loaded_string_kept; [done| |apply Hr]. cbn. by rewrite lookup_insert_eq.
    + apply S2. rewrite Hpre. done.
Qed.

Lemma length_prefixed bytes : length (encode_length_prefixed bytes) = (4 + length bytes)%nat.
Proof. unfold encode_length_prefixed. by rewrite length_app, length_encode_le. Qed.

Lemma length_block ss : (length ss <= length (block_of ss))%nat.
Proof.
  induction ss as [|t ss IH]; [done|]. unfold block_of in *. cbn [mbind list_bind length].
  rewrite length_app, length_prefixed. lia.
Qed.

Lemma header_fields_read count size rest : is_u32 count -> is_u32 size ->
  decode (strings_header count size ++ rest) 0 [4; 4]%nat = Ret [count; size].
Proof.
  intros Hc Hs. apply (decode_encode_fields [(4%nat, count); (4%nat, size)]).
  apply Forall_cons_2; [done|]. apply Forall_cons_2; [done|]. by apply Forall_nil_2.
Qed.

Lemma deserialize_strings_ok ss count d : let size := 8 + Z.of_nat (length (block_of ss)) in
  is_u32 count -> size < 2 ^ 32 - 1 -> Forall short ss -> Forall no_nul ss -> loading (loader_memory d) ->
  loaded_strings d = ∅ ->
  Deserializer.deserialize_strings roots (strings_header count size ++ block_of ss) size d = Throw HashMap.too_large \/
  exists d', Deserializer.deserialize_strings roots (strings_header count size ++ block_of ss) size d = Ret (tt, d') /\
    keeps d d' /\ strings_ok d' (offsets 8 ss) /\
    loader_context d' = loader_context d /\ loaded_functions d' = loaded_functions d.
Proof.
  intros size Hc Hsize Hs Hn Hl He. unfold Deserializer.deserialize_strings.
  rewrite (proj2 (Z.ltb_ge size 8)) by lia.
  rewrite (M_bind_run _ _ _ _ _ (lift_run _ _ _ (header_fields_read count size _ Hc ltac:(unfold is_u32; lia)))).
  cbv iota. rewrite Z.eqb_refl. cbn [negb].
  assert (Hlen : Z.of_nat (length (strings_header count size ++ block_of ss)) = size).
  { rewrite length_app, length_strings_header. unfold size. lia. }
  pose proof (length_block ss).
  destruct (strings_loop_ok ss _ (strings_header count size) d (length (strings_header count size ++ block_of ss)) eq_refl)
    as [E|E]; rewrite ?length_app, ?length_strings_header in *; try lia; try done.
  - intros off. rewrite He, lookup_empty. by intros [].
  - left. by rewrite Hlen in E.
  - right. by rewrite Hlen in E.
Qed.

(** ** Globals *)

Definition no_value (is_constant : bool) : GlobalValue := mkGlobal Value.nil false false is_constant false.

(** The context has exactly these variables. *)
Record globals_are d (ts : list string) (flags : list bool) : Prop := {
  are_ok : exists g, globals_ok (objects (loader_memory d)) (loader_context d) g /\
    forall r, is_Some (g !! Some r) -> r ∈ names (loader_context d);
  are_names : Forall2 (fun r t => objects (loader_memory d) !! r =
    Some (mkCell false (ObjString (mkString t (Hash.hash_string t))))) (names (loader_context d)) ts;
  are_values : globals (loader_context d) = no_value <$> flags
}.

Lemma u8_flag (b : bool) : negb ((if b then 1 else 0) =? 0) = b.
Proof. by destruct b. Qed.

Lemma globals_step d ts flags i r t b : globals_are d ts flags -> length flags = i -> Z.of_nat i < 2 ^ 31 ->
  objects (loader_memory d) !! r = Some (mkCell false (ObjString (mkString t (Hash.hash_string t)))) -> t ∉ ts ->
  Context.get_global (objects (loader_memory d)) (loader_context d) r = Throw HashMap.too_large \/
  exists c c', Context.get_global (objects (loader_memory d)) (loader_context d) r = Ret (Z.of_nat i, c) /\
    Context.set_const c (Z.of_nat i) b = Ret c' /\
    globals_are (Deserializer.set_context d c') (ts ++ [t]) (flags ++ [b]).
Proof.
  intros [(g & Hok & Honly) Hnames Hvals] Hi Hsmall Hr Hnew.
  assert (Hs : Heap.string (objects (loader_memory d)) r = Ret (mkString t (Hash.hash_string t))).
  { unfold Heap.string, Heap.read. by rewrite Hr. }
  assert (Hg : g !! Some r = None).
  { apply eq_None_not_Some. intros Hg. apply Honly in Hg. apply list_elem_of_lookup in Hg as [j Hj].
    destruct (Forall2_lookup_l _ _ _ _ _ Hnames Hj) as (t' & Ht' & Hc). rewrite Hr in Hc. injection Hc as <-.
    destruct Hnew. by eapply list_elem_of_lookup_2. }
  destruct (get_global_new _ _ _ _ _ Hok Hs Hg) as [?|(tb & E & Hok')]; [by left|]. right. cbv zeta in E, Hok'.
  rewrite Hvals, length_fmap, Hi in E, Hok'. 
  assert (Hi32 : i32 (Z.of_nat i) = Z.of_nat i) by (apply i32_small; unfold is_i32; lia).
  rewrite Hi32 in E, Hok'. eexists _, _. split; [exact E|].
  set (c := mkContext tb _ _) in *. set (c' := mkContext tb (no_value <$> flags ++ [b]) (names c)).
  assert (Hc' : Context.set_const c (Z.of_nat i) b = Ret c').
  { unfold Context.set_const, Context.update, Context.get_internal_value.
    rewrite (proj2 (Z.ltb_ge _ _)), Nat2Z.id by lia. cbn [globals c].
    rewrite list_lookup_middle by (by rewrite length_fmap). cbn [or_undef mbind outcome_bind]. unfold c'.
    do 2 f_equal. rewrite insert_app_r_alt, length_fmap, Hi, Nat.sub_diag, fmap_app by (rewrite length_fmap; lia). done. }
  split; [done|].
  destruct (set_const_outcome _ _ _ (Z.of_nat i) b Hok') as [Hu|(c2 & E2 & Hok2 & _)];
    [unfold int_index; cbn; rewrite length_app, length_fmap; cbn; lia|congruence|].
  assert (c2 = c') as -> by congruence. constructor; cbn.
  - exists (<[Some r := Z.of_nat i]> g). split; [done|]. intros r'. rewrite lookup_insert_is_Some', elem_of_app.
    intros [[= ->]|Hr']; [right; by left|left; by apply Honly].
  - apply Forall2_app; [done|]. by constructor.
  - done.
Qed.

Lemma globals_fit g : is_u32 g.1 -> Forall fits (global_fields g).
Proof. destruct g as [off []]; intros Hg; repeat (apply Forall_cons_2; [done|]); apply Forall_nil_2; done. Qed.

(** What the loop over the globals leaves alone. *)
Definition same_objects d d' : Prop := loader_memory d' = loader_memory d /\
  loaded_strings d' = loaded_strings d /\ loaded_functions d' = loaded_functions d.

Lemma globals_loop_ok gs : forall ts buffer pre d l seen flags i,
  buffer = pre ++ (gs ≫= fun g => encode (global_fields g)) -> Z.of_nat (length buffer) < 2 ^ 32 - 1 ->
  strings_ok d l -> Forall2 (fun (g : Z * bool) t => (g.1, t) ∈ l) gs ts -> Forall (fun g => is_u32 g.1) gs ->
  NoDup (seen ++ ts) -> globals_are d seen flags -> length flags = i -> Z.of_nat (i + length gs) < 2 ^ 31 ->
  Deserializer.globals_loop (length gs) (Z.of_nat i) buffer (Z.of_nat (length pre)) d = Throw HashMap.too_large \/
  exists d', Deserializer.globals_loop (length gs) (Z.of_nat i) buffer (Z.of_nat (length pre)) d = Ret (tt, d') /\
    globals_are d' (seen ++ ts) (flags ++ gs.*2) /\ same_objects d d'.
Proof.
  induction gs as [|[off b] gs IH]; intros ts buffer pre d l seen flags i Hbuf Hsize Hl Hin Hfit Hnd Hare Hi Hsmall.
  { apply Forall2_nil_inv_l in Hin as ->. right. exists d. rewrite !app_nil_r. done. }
  apply Forall2_cons_inv_l in Hin as (t & ts' & Ht & Hin & ->). apply Forall_cons in Hfit as [Hoff Hfit].
  cbn in Ht, Hoff. destruct (Hl off t Ht) as (r & Hr & Hc).
  cbn [mbind list_bind] in Hbuf. set (entry := encode (global_fields (off, b))) in Hbuf.
  assert (Hlen : length entry = 8%nat) by (unfold entry; by rewrite length_encode).
  cbn [Deserializer.globals_loop length].
  assert (Hdec : decode buffer (Z.of_nat (length pre)) [4; 1; 2; 1]%nat = Ret [off; if b then 1 else 0; 0; 0]).
  { rewrite Hbuf. apply (decode_app (global_fields (off, b))), globals_fit. done. }
  rewrite (M_bind_run _ _ _ _ _ (lift_run _ _ _ Hdec)). cbv iota.
  rewrite (M_bind_run get _ d d d eq_refl), Hr.
  assert (Hnew : t ∉ seen) by (intros Hs; apply NoDup_app in Hnd as (_ & Hd & _); by apply (Hd t Hs), elem_of_cons; left).
  destruct (globals_step d seen flags i r t b Hare Hi ltac:(lia) Hc Hnew) as [E|(c & c' & E1 & E2 & Hare')].
  { left. apply M_bind_throw. unfold lift. by rewrite E. }
  rewrite (M_bind_run _ _ _ _ _ (lift_run _ _ _ E1)). cbv iota beta.
  rewrite (M_bind_run _ _ d tt (Deserializer.set_context d c) eq_refl), Z.eqb_refl. cbn [negb].
  rewrite u8_flag, (M_bind_run _ _ _ _ _ (lift_run _ _ _ E2)), (M_bind_run _ _ _ _ _ (modify_run _ _)). cbv beta.
  change (Deserializer.set_context (Deserializer.set_context d c) c') with (Deserializer.set_context d c').
  assert (Hpre : Z.of_nat (length (pre ++ entry)) = Z.of_nat (length pre) + 8) by (rewrite length_app; lia).
  assert (Hsz : length buffer = (length pre + 8 + length (gs ≫= fun g => encode (global_fields g)))%nat).
  { rewrite Hbuf, !length_app. lia. }
  rewrite u32_add, <-Hpre by lia. replace (Z.of_nat i + 1) with (Z.of_nat (length (flags ++ [b]))) by (rewrite length_app; cbn; lia).
  cbn [length] in Hsmall.
  destruct (IH ts' buffer (pre ++ entry) (Deserializer.set_context d c') l (seen ++ [t]) (flags ++ [b]) (length (flags ++ [b])))
    as [E|(d' & E & Hd' & Hsame)]; try done; [by rewrite Hbuf, <-app_assoc|by rewrite <-app_assoc|rewrite length_app; cbn; lia|by left|].
  right. exists d'. by rewrite <-!app_assoc in Hd'.
Qed.

Lemma length_entries (gs : list (Z * bool)) : length (gs ≫= fun g => encode (global_fields g)) = (8 * length gs)%nat.
Proof.
  induction gs as [|g gs IH]; [done|]. cbn [mbind list_bind length]. rewrite length_app, length_encode.
  change (sum_list _) with 8%nat. rewrite IH. lia.
Qed.

Lemma deserialize_globals_ok gs ts d l :
  let buffer := encode [(2%nat, u16 (Z.of_nat (length gs))); (2%nat, 0)] ++ (gs ≫= fun g => encode (global_fields g)) in
  Z.of_nat (length buffer) < 8 * 65535 -> strings_ok d l -> Forall2 (fun (g : Z * bool) t => (g.1, t) ∈ l) gs ts ->
  Forall (fun g => is_u32 g.1) gs -> NoDup ts -> globals_are d [] [] ->
  Deserializer.deserialize_global_table buffer (Z.of_nat (length buffer)) d = Throw HashMap.too_large \/
  exists d', Deserializer.deserialize_global_table buffer (Z.of_nat (length buffer)) d = Ret (tt, d') /\
    globals_are d' ts gs.*2 /\ same_objects d d'.
Proof.
  intros buffer Hsize Hl Hin Hfit Hnd Hare.
  assert (Hlen : Z.of_nat (length buffer) = Z.of_nat (length gs) * 8 + 4).
  { unfold buffer. rewrite length_app, length_entries, length_encode. cbn. lia. }
  assert (Hu : u16 (Z.of_nat (length gs)) = Z.of_nat (length gs)) by (apply u16_small; unfold is_u16; lia).
  unfold Deserializer.deserialize_global_table. rewrite (proj2 (Z.ltb_ge _ 4)) by lia.
  assert (Hdec : decode buffer 0 [2; 2]%nat = Ret [Z.of_nat (length gs); 0]).
  { unfold buffer. rewrite Hu. apply (decode_encode_fields [(2%nat, Z.of_nat (length gs)); (2%nat, 0)]).
    apply Forall_cons_2; [unfold fits; cbn [fst snd]; change (bits_of 2) with 16; lia|].
    by apply Forall_cons_2, Forall_nil_2. }
  rewrite (M_bind_run _ _ _ _ _ (lift_run _ _ _ Hdec)). cbv iota. 
  rewrite (proj2 (Z.eqb_eq (Z.of_nat (length buffer)) _) Hlen), Nat2Z.id. cbn [negb].
  destruct (globals_loop_ok gs ts buffer (encode [(2%nat, u16 (Z.of_nat (length gs))); (2%nat, 0)]) d l [] [] 0)
    as [E|E]; try done; [lia|lia|by left|by right].
Qed.

(** ** Constants *)

(** The type and the eight bytes of a constant. *)
Definition const_fields (c : const_image) : list (nat * Z) :=
  match c with
  | INil => [(1%nat, Serializer.char "N"); (8%nat, 0)]
  | IBool b => [(1%nat, Serializer.char "B"); (8%nat, if b then 1 else 0)]
  | IReal bits => [(1%nat, Serializer.char "R"); (8%nat, bits)]
  | IInt i => [(1%nat, Serializer.char "I"); (8%nat, i mod 2 ^ 64)]
  | IString offset => [(1%nat, Serializer.char "S"); (8%nat, offset)]
  | IFunction id => [(1%nat, Serializer.char "F"); (8%nat, Z.of_nat id)]
  end.

Definition const_fits (c : const_image) : Prop :=
  match c with
  | INil | IBool _ => True
  | IReal bits => is_u64 bits
  | IInt i => is_i64 i
  | IString offset => 0 <= offset < 2 ^ 32 - 1
  | IFunction id => Z.of_nat id < 2 ^ 32 - 1
  end.

Lemma encode_le_mod n i : encode_le n (i mod 2 ^ bits_of n) = encode_le n i.
Proof.
  rewrite <-decode_encode. pose proof (encode_decode (encode_le n i) (encode_le_bytes n i)) as E.
  by rewrite length_encode_le in E.
Qed.

Lemma const_bytes_fields c : const_bytes c = encode (const_fields c).
Proof.
  assert (Hentry : forall type v, Serializer.constant_entry type (encode_le 8 v) = encode [(1%nat, Serializer.char type); (8%nat, v)]).
  { intros type v. unfold Serializer.constant_entry. rewrite length_encode_le. cbn [replicate Nat.sub]. rewrite app_nil_r.
    unfold encode. cbn [mbind list_bind]. rewrite app_nil_r.
    change (encode_le 1 (Serializer.char type)) with [u8 (Z.land (Z.shiftr (Serializer.char type) 0) 0xFF)].
    rewrite u8_land, Z.shiftr_0_r, Z.mod_small; [done|]. unfold Serializer.char.
    pose proof (N_ascii_bounded type). lia. }
  destruct c as [|b|bits|i|off|id]; cbn [const_bytes const_fields]; rewrite ?Hentry; try done.
  - by destruct b.
  - unfold encode. cbn [mbind list_bind]. rewrite (encode_le_mod 8 i : encode_le 8 (i mod 2 ^ 64) = _). done.
Qed.

Lemma length_const_bytes c : length (const_bytes c) = 9%nat.
Proof. rewrite const_bytes_fields, length_encode. by destruct c. Qed.

(** What the loader makes of a constant. *)
Definition loaded_const d (c : const_image) (v : value_data) : Prop :=
  match c with
  | INil => v = NIL
  | IBool b => v = BOOLEAN b
  | IReal bits => v = NUMBER_REAL (unpack754 bits)
  | IInt i => v = NUMBER_INT i
  | IString offset => exists r, loaded_strings d !! offset = Some r /\ v = OBJECT r
  | IFunction id => exists r, loaded_functions d !! Z.of_nat id = Some r /\ v = OBJECT r
  end.

Lemma const_fields_fit c : const_fits c -> Forall fits (const_fields c).
Proof.
  intros Hc. assert (Hall : forall type v, 0 <= v < 2 ^ 64 -> Forall fits [(1%nat, Serializer.char type); (8%nat, v)]).
  { intros type v Hv. apply Forall_cons_2; [|by apply Forall_cons_2, Forall_nil_2]. unfold fits, Serializer.char.
    cbn [fst snd]. change (bits_of 1) with 8. pose proof (N_ascii_bounded type). lia. }
  destruct c as [|[]|bits|i|off|id]; cbn in Hc; apply Hall; try lia; [exact Hc|]. by apply Z.mod_pos_bound.
Qed.

Lemma i64_mod i : is_i64 i -> i64 (i mod 2 ^ 64) = i.
Proof.
  intros Hi. rewrite <-(i64_small i Hi) at 2. unfold i64. by rewrite Zplus_mod_idemp_l.
Qed.

Lemma decode_entry buffer o type value : decode buffer o [1; 8]%nat = Ret [type; value] ->
  decode_le buffer o 1 = Ret type /\ decode_le buffer (o + 1) 8 = Ret value.
Proof.
  cbn [decode]. destruct (decode_le buffer o 1) as [t| | |]; try done. cbn [mbind outcome_bind].
  change (o + Z.of_nat 1) with (o + 1). destruct (decode_le buffer (o + 1) 8) as [v| | |]; try done.
  cbn. by intros [= <- <-].
Qed.

Ltac compare_types := repeat match goal with
  | |- context [Serializer.char ?a =? Serializer.char ?b] =>
      let v := eval vm_compute in (Serializer.char a =? Serializer.char b) in
      change (Serializer.char a =? Serializer.char b) with v
  end; cbv iota.

Lemma resolve_ok what (m : gmap Z positive) i r : 0 <= i < 2 ^ 32 - 1 -> m !! i = Some r ->
  Deserializer.resolve what m i = Ret r.
Proof.
  intros Hi Hm. unfold Deserializer.resolve. rewrite (proj2 (Z.leb_gt _ _)) by lia.
  rewrite u32_small by (unfold is_u32; lia). by rewrite Hm.
Qed.

Lemma read_constant_ok d a rest c v : const_fits c -> loaded_const d c v ->
  Deserializer.read_constant (a ++ const_bytes c ++ rest) (Z.of_nat (length a)) d = Ret (v, d).
Proof.
  intros Hfit Hv. pose proof (decode_app _ a rest (const_fields_fit c Hfit)) as Hdec. rewrite <-const_bytes_fields in Hdec.
  set (buffer := a ++ const_bytes c ++ rest) in *. unfold Deserializer.read_constant.
  destruct c as [|b|bits|i|off|id]; cbn [const_fields fmap list_fmap fst snd] in Hdec;
    apply decode_entry in Hdec as [E1 E2];
    rewrite (M_bind_run _ _ _ _ _ (lift_run _ _ d E1)), (M_bind_run _ _ _ _ _ (lift_run _ _ d E2)), (M_bind_run get _ d d d eq_refl);
    compare_types; cbn in Hv.
  - by rewrite Hv.
  - by rewrite Hv, u8_flag.
  - unfold decode_double. rewrite E2. by rewrite Hv.
  - rewrite i64_mod by done. by rewrite Hv.
  - destruct Hv as (r & Hr & ->). erewrite (M_bind_run (lift _)); [|apply lift_run, resolve_ok; [exact Hfit|exact Hr]]. done.
  - destruct Hv as (r & Hr & ->). cbn in Hfit.
    erewrite (M_bind_run (lift _)); [|apply lift_run, resolve_ok; [lia|exact Hr]]. done.
Qed.

Lemma constant_pool_ok d cs : forall vs a rest, Forall const_fits cs -> Forall2 (loaded_const d) cs vs ->
  Deserializer.deserialize_constant_pool (length cs) (a ++ (cs ≫= const_bytes) ++ rest) (Z.of_nat (length a)) d =
    Ret (mkValue false <$> vs, d).
Proof.
  induction cs as [|c cs IH]; intros vs a rest Hfit Hvs.
  { apply Forall2_nil_inv_l in Hvs as ->. done. }
  apply Forall2_cons_inv_l in Hvs as (v & vs' & Hv & Hvs & ->). apply Forall_cons in Hfit as [Hc Hfit].
  cbn [Deserializer.deserialize_constant_pool length mbind list_bind]. rewrite <-app_assoc.
  rewrite (M_bind_run _ _ _ _ _ (read_constant_ok d a _ c v Hc Hv)).
  replace (Z.of_nat (length a) + 9) with (Z.of_nat (length (a ++ const_bytes c)))
    by (rewrite length_app, length_const_bytes; lia).
  rewrite app_assoc, (M_bind_run _ _ _ _ _ (IH vs' (a ++ const_bytes c) rest Hfit Hvs)). done.
Qed.

(** ** Debug information *)

Definition line_fits (line : LineInfo) : Prop := is_i32 (offset line) /\ is_i32 (line_number line).

Lemma i32_u32 z : is_i32 z -> i32 (u32 z) = z.
Proof. intros Hz. rewrite <-(i32_small z Hz) at 2. unfold i32, u32. by rewrite Zplus_mod_idemp_l. Qed.

Lemma debug_loop_ok ls : forall a rest fuel i, let buffer := a ++ (ls ≫= fun line => encode (line_fields line)) ++ rest in
  Forall line_fits ls -> (length ls <= fuel)%nat -> Z.of_nat (length buffer) < 2 ^ 32 ->
  Deserializer.debug_loop fuel i (i + Z.of_nat (length ls)) buffer (Z.of_nat (length a)) =
    Ret (ls, Z.of_nat (length a) + 8 * Z.of_nat (length ls)).
Proof.
  induction ls as [|x ls IH]; intros a rest fuel i buffer Hls Hfuel Hsize.
  { rewrite Z.add_0_r. destruct fuel; cbn; rewrite Z.ltb_irrefl; do 2 f_equal; lia. }
  destruct fuel as [|fuel]; [cbn in Hfuel; lia|]. apply Forall_cons in Hls as [[Ho Hn] Hls].
  cbn [Deserializer.debug_loop]. rewrite (proj2 (Z.ltb_lt _ _)) by (cbn [length]; lia).
  assert (Hb : buffer = a ++ encode (line_fields x) ++ (ls ≫= fun line => encode (line_fields line)) ++ rest).
  { unfold buffer. cbn [mbind list_bind]. by rewrite <-app_assoc. }
  assert (Hdec : decode buffer (Z.of_nat (length a)) [4; 4]%nat = Ret [u32 (offset x); u32 (line_number x)]).
  { rewrite Hb. apply (decode_app (line_fields x)). apply Forall_cons_2; [apply u32_range|].
    apply Forall_cons_2; [apply u32_range|by apply Forall_nil_2]. }
  rewrite Hdec. cbn [mbind outcome_bind].
  assert (Hlen : length (a ++ encode (line_fields x)) = (length a + 8)%nat) by (rewrite length_app, length_encode; done).
  rewrite Hb, app_assoc in Hsize. pose proof Hsize as Hsz. rewrite length_app, Hlen in Hsz.
  rewrite u32_add by lia. replace (Z.of_nat (length a) + 8) with (Z.of_nat (length (a ++ encode (line_fields x)))) by lia.
  replace (i + Z.of_nat (length (x :: ls))) with (i + 1 + Z.of_nat (length ls)) by (cbn [length]; lia).
  rewrite Hb, app_assoc, IH by (done || (cbn in Hfuel; lia)). cbn [mbind outcome_bind].
  rewrite !i32_u32 by done. destruct x. do 2 f_equal. cbn [length]. lia.
Qed.

Lemma length_line_bytes ls : length (ls ≫= fun line => encode (line_fields line)) = (8 * length ls)%nat.
Proof.
  induction ls as [|x ls IH]; [done|]. cbn [mbind list_bind length]. rewrite length_app, length_encode, IH.
  change (sum_list _) with 8%nat. lia.
Qed.

Lemma debug_info_ok ls a rest : let buffer := a ++ debug_bytes ls ++ rest in
  Forall line_fits ls -> Z.of_nat (length buffer) < 2 ^ 32 - 1 ->
  Deserializer.deserialize_debug_info buffer (Z.of_nat (length a)) (Z.of_nat (length buffer)) =
    Ret (ls, Z.of_nat (length a) + Z.of_nat (length (debug_bytes ls))).
Proof.
  intros buffer Hls Hsize. set (n := Z.of_nat (length ls)).
  set (fields := [(4%nat, u32 n); (4%nat, 0)]). set (tail := ls ≫= fun line => encode (line_fields line)).
  assert (Hlen : length (debug_bytes ls) = (8 + 8 * length ls)%nat).
  { unfold debug_bytes. by rewrite length_app, length_encode, length_line_bytes. }
  assert (Hb : buffer = a ++ encode fields ++ tail ++ rest) by (unfold buffer, debug_bytes; by rewrite <-app_assoc).
  assert (Hsz : Z.of_nat (length buffer) = Z.of_nat (length a) + 8 + 8 * n + Z.of_nat (length rest)).
  { unfold buffer. rewrite !length_app, Hlen. lia. }
  unfold Deserializer.deserialize_debug_info. rewrite u32_add by lia.
  rewrite (proj2 (Z.ltb_ge (Z.of_nat (length buffer)) (Z.of_nat (length a) + 8))) by lia.
  assert (Hn : u32 n = n) by (apply u32_small; unfold is_u32; lia).
  assert (Hdec : decode buffer (Z.of_nat (length a)) [4; 4]%nat = Ret [n; 0]).
  { rewrite Hb, <-Hn at 1. apply (decode_app fields). apply Forall_cons_2; [apply u32_range|by apply Forall_cons_2, Forall_nil_2]. }
  rewrite Hdec. cbn [mbind outcome_bind]. cbv zeta. rewrite (u32_small (n * 8)) by (unfold is_u32; lia).
  rewrite u32_add by lia. rewrite (proj2 (Z.ltb_ge (Z.of_nat (length buffer)) _)) by lia.
  assert (Hpre : length (a ++ encode fields) = (length a + 8)%nat) by (by rewrite length_app, length_encode).
  replace (Z.of_nat (length a) + 8) with (Z.of_nat (length (a ++ encode fields))) by lia.
  pose proof (debug_loop_ok ls (a ++ encode fields) rest (length buffer) 0 Hls) as E. cbv zeta in E.
  fold tail in E. rewrite Z.add_0_l, <-app_assoc, <-Hb in E. fold n in E. rewrite E by lia. do 2 f_equal. lia.
Qed.

(** ** Chunks *)

Record image_fits (im : image) : Prop := {
  fits_name : is_u32 (image_name im);
  fits_arity : is_u8 (image_arity im);
  fits_upvalues : is_u16 (image_upvalues im);
  fits_pool : Z.of_nat (length (image_constants im)) < 2 ^ 16;
  fits_constants : Forall const_fits (image_constants im);
  fits_lines : Forall line_fits (image_lines im)
}.

(** The object of a function in the loaded program. *)
Record function_loaded (debug : bool) d (id : nat) (im : image) (r : ref) (fn : ObjectFunction) : Prop := {
  function_id : loaded_functions d !! Z.of_nat id = Some r;
  function_object : objects (loader_memory d) !! r = Some (mkCell false (ObjFunction fn));
  function_name : loaded_strings d !! image_name im = Some (name_ fn);
  function_arity : arity_ fn = image_arity im;
  function_upvalues : upvalue_count_ fn = image_upvalues im;
  function_code : code (chunk fn) = image_code im;
  function_lines : lines (chunk fn) = if debug then image_lines im else [];
  function_constants : Forall2 (loaded_const d) (image_constants im) (data <$> value_array (chunk fn))
}.

Lemma header_fields_fit debug id im : image_fits im -> Z.of_nat id < 2 ^ 32 -> Forall fits (header_fields debug id im).
Proof.
  intros [Hn _ _ _ _ _] Hid. unfold header_fields. cbn [zip zip_with Serializer.chunk_header_sizes].
  repeat first [apply Forall_nil_2; exact I | apply Forall_cons_2];
    first [apply u8_range|apply u16_range|apply u32_range|exact Hn|by destruct debug|idtac].
  unfold fits. cbn [fst snd]. change (bits_of 4) with 32. lia.
Qed.

Lemma loaded_const_more d d' c v : loaded_strings d ⊆ loaded_strings d' -> loaded_functions d ⊆ loaded_functions d' ->
  loaded_const d c v -> loaded_const d' c v.
Proof.
  intros Hs Hf. destruct c; cbn; try done; intros (r & Hr & ->); exists r; split; try done; by eapply lookup_weaken.
Qed.

Lemma const_pool_length cs : length (cs ≫= const_bytes) = (9 * length cs)%nat.
Proof.
  induction cs as [|c cs IH]; [done|]. cbn [mbind list_bind length]. rewrite length_app, length_const_bytes, IH. lia.
Qed.

(** The last part of a chunk is there exactly when its header says so. *)
Lemma debug_part_ok (debug : bool) ls a rest d :
  let bytes := if debug then debug_bytes ls else [] in let buffer := a ++ bytes ++ rest in
  Forall line_fits ls -> Z.of_nat (length buffer) < 2 ^ 32 - 1 ->
  (if (if debug then 1 else 0) =? 1
   then lift (Deserializer.deserialize_debug_info buffer (Z.of_nat (length a)) (Z.of_nat (length buffer)))
   else mret ([], Z.of_nat (length a))) d =
  Ret ((if debug then ls else [], Z.of_nat (length a) + Z.of_nat (length bytes)), d).
Proof.
  intros bytes buffer Hls Hsize. destruct debug; cbn [Z.eqb Pos.eqb].
  - apply lift_run. by apply debug_info_ok.
  - cbn. by rewrite Z.add_0_r.
Qed.

Lemma length_header_bytes debug id im : length (encode (header_fields debug id im)) = 24%nat.
Proof. by rewrite length_encode. Qed.

(** The fields of the header as they are read. *)
Lemma header_read debug id im a rest : image_fits im -> Z.of_nat id < 2 ^ 32 ->
  Z.of_nat (length (image_code im)) < 2 ^ 32 ->
  decode (a ++ encode (header_fields debug id im) ++ rest) (Z.of_nat (length a)) Serializer.chunk_header_sizes =
    Ret [Serializer.char "F"; image_name im; image_arity im; image_upvalues im;
         Z.of_nat (length (image_constants im)); Z.of_nat (length (image_code im)); if debug then 1 else 0;
         Z.of_nat id; 0; 0].
Proof.
  intros Hfit Hid Hcode. pose proof (decode_app _ a rest (header_fields_fit debug id im Hfit Hid)) as E.
  destruct Hfit as [_ Ha Hu Hp _ _]. change ((header_fields debug id im).*1) with Serializer.chunk_header_sizes in E.
  rewrite E. change ((header_fields debug id im).*2) with
    [Serializer.char "F"; image_name im; u8 (image_arity im); u16 (image_upvalues im);
     u16 (Z.of_nat (length (image_constants im))); u32 (Z.of_nat (length (image_code im)));
     if debug then 1 else 0; Z.of_nat id; 0; 0].
  rewrite u8_small, u16_small, u16_small, u32_small; try done; unfold is_u16, is_u32; lia.
Qed.

Lemma deserialize_chunk_ok (debug : bool) d id im name a rest vs :
  let buffer := a ++ image_bytes debug id im ++ rest in
  Z.of_nat (length buffer) < 2 ^ 32 - 1 -> image_fits im -> Z.of_nat id < 2 ^ 32 ->
  loading (loader_memory d) -> loaded_strings d !! image_name im = Some name ->
  Forall2 (loaded_const d) (image_constants im) vs -> loaded_functions d !! Z.of_nat id = None ->
  exists r fn d',
    Deserializer.deserialize_chunk roots buffer (Z.of_nat (length buffer)) (Z.of_nat (length a)) d =
      Ret (Z.of_nat (length a) + Z.of_nat (length (image_bytes debug id im)), d') /\
    keeps d d' /\ loader_context d' = loader_context d /\ loaded_strings d' = loaded_strings d /\
    loaded_functions d' = <[Z.of_nat id := r]> (loaded_functions d) /\ function_loaded debug d' id im r fn.
Proof.
  intros buffer Hsize Hfit Hid Hl Hname Hvs Hnew.
  set (hdr := encode (header_fields debug id im)). set (pool := image_constants im ≫= const_bytes).
  set (dbg := if debug then debug_bytes (image_lines im) else []).
  assert (Hb : buffer = a ++ hdr ++ pool ++ image_code im ++ dbg ++ rest).
  { unfold buffer, image_bytes. fold hdr pool dbg. by rewrite <-!app_assoc. }
  set (A := Z.of_nat (length a)). set (n := Z.of_nat (length (image_constants im))). set (k := Z.of_nat (length (image_code im))).
  assert (Hhdr : length hdr = 24%nat) by apply length_header_bytes.
  assert (Hpool : length pool = (9 * length (image_constants im))%nat) by apply const_pool_length.
  assert (Hsz : Z.of_nat (length buffer) = A + 24 + 9 * n + k + Z.of_nat (length dbg) + Z.of_nat (length rest)).
  { rewrite Hb, !length_app, Hhdr, Hpool. unfold A, n, k. lia. }
  assert (HA : 0 <= A /\ 0 <= n /\ 0 <= k) by lia.
  unfold Deserializer.deserialize_chunk. rewrite u32_add by lia.
  rewrite (proj2 (Z.ltb_ge (Z.of_nat (length buffer)) (A + 24))) by lia.
  assert (Hdec := header_read debug id im a (pool ++ image_code im ++ dbg ++ rest) Hfit Hid ltac:(lia)).
  fold hdr in Hdec. rewrite <-Hb in Hdec.
  rewrite (M_bind_run _ _ _ _ _ (lift_run _ _ d Hdec)). cbv iota. compare_types. cbn [negb].
  cbv zeta. rewrite (M_bind_run get _ d d d eq_refl), Hname. fold n k.
  rewrite (u32_add (A + 24)) by lia. rewrite (proj2 (Z.ltb_ge (Z.of_nat (length buffer)) (A + 24 + n * 9))) by lia.
  assert (H1 : Z.of_nat (length (a ++ hdr)) = A + 24) by (rewrite length_app, Hhdr; unfold A; lia).
  assert (Epool : Deserializer.deserialize_constant_pool (Z.to_nat n) buffer (A + 24) d = Ret (mkValue false <$> vs, d)).
  { pose proof (constant_pool_ok d (image_constants im) vs (a ++ hdr) (image_code im ++ dbg ++ rest) (fits_constants im Hfit) Hvs) as E.
    fold pool in E. rewrite H1, <-app_assoc, <-Hb in E. unfold n. by rewrite Nat2Z.id. }
  rewrite (M_bind_run _ _ _ _ _ Epool).
  rewrite (u32_add (A + 24 + n * 9)) by lia. rewrite (proj2 (Z.ltb_ge (Z.of_nat (length buffer)) (A + 24 + n * 9 + k))) by lia.
  assert (H2 : Z.of_nat (length (a ++ hdr ++ pool)) = A + 24 + n * 9) by (rewrite !length_app, Hhdr, Hpool; unfold A, n; lia).
  assert (Eread : read buffer (A + 24 + n * 9) (Z.to_nat k) = Ret (image_code im)).
  { rewrite <-H2, Hb. rewrite (app_assoc hdr), app_assoc. apply read_app. unfold k. by rewrite Nat2Z.id. }
  rewrite (M_bind_run _ _ _ _ _ (lift_run _ _ d Eread)).
  set (a3 := a ++ hdr ++ pool ++ image_code im).
  assert (H3 : Z.of_nat (length a3) = A + 24 + n * 9 + k).
  { unfold a3. rewrite !length_app, Hhdr, Hpool. unfold A, n, k. lia. }
  pose proof (debug_part_ok debug (image_lines im) a3 rest d) as Edebug. cbv zeta in Edebug. fold dbg in Edebug.
  assert (Hb3 : a3 ++ dbg ++ rest = buffer) by (rewrite Hb; unfold a3; by rewrite <-!app_assoc).
  rewrite Hb3, H3 in Edebug.
  rewrite (M_bind_run _ _ _ _ _ (Edebug (fits_lines im Hfit) Hsize)). cbv iota beta.
  set (fn := mkFunction (image_arity im) (image_upvalues im)
    (mkChunk (image_code im) (mkValue false <$> vs) (if debug then image_lines im else [])) name).
  destruct (new_object_off roots ObjectType.FUNCTION (ObjFunction fn) (loader_memory d) Hl) as (r & m' & Enew & Hr); [tauto|].
  change (Allocator.stress_gc roots ;; Allocator.create_object roots ObjectType.FUNCTION ;; Allocator.push_object (ObjFunction fn))
    with (Allocator.new_loaded_function roots (image_arity im) name (image_upvalues im) (chunk fn)) in Enew.
  exists r, fn. eexists. rewrite (M_bind_run _ _ _ _ _ (allocate_run _ _ _ _ Enew)).
  rewrite (M_bind_run get _ _ _ _ eq_refl). cbn [loaded_functions Deserializer.set_memory]. rewrite Hnew.
  rewrite (M_bind_run (put _) _ _ _ _ eq_refl).
  split; [unfold mret, M_ret; do 2 f_equal|].
  { unfold image_bytes. fold hdr pool dbg. rewrite !length_app, Hhdr, Hpool. unfold A, n, k. lia. }
  split; [constructor; cbn; [apply Hr|apply Hr|done]|]. split_and!; [done..|].
  constructor; cbn; try done.
  - by rewrite lookup_insert_eq.
  - apply Hr.
  - rewrite <-list_fmap_compose. unfold compose. cbn. rewrite list_fmap_id.
    eapply Forall2_impl; [exact Hvs|]. intros c v. apply loaded_const_more; cbn; [done|]. by apply insert_subseteq.
Qed.

Lemma function_loaded_more debug d d' id im r fn : keeps d d' -> loaded_functions d ⊆ loaded_functions d' ->
  function_loaded debug d id im r fn -> function_loaded debug d' id im r fn.
Proof.
  intros [_ Ho Hs] Hf []. constructor; try done; [by eapply lookup_weaken..|].
  eapply Forall2_impl; [done|]. intros c v. by apply loaded_const_more.
Qed.

(** The images refer to strings that are loaded, and to functions with larger ids. *)
Definition const_known d (last id : nat) (c : const_image) : Prop :=
  match c with
  | IString off => is_Some (loaded_strings d !! off)
  | IFunction i => (id < i < last)%nat
  | _ => True
  end.

Record image_known d (last id : nat) (im : image) : Prop := {
  known_fits : image_fits im;
  known_name : is_Some (loaded_strings d !! image_name im);
  known_constants : Forall (const_known d last id) (image_constants im)
}.

Lemma image_known_same d d' last id im : loaded_strings d' = loaded_strings d ->
  image_known d last id im -> image_known d' last id im.
Proof.
  intros E [Hf Hn Hc]. constructor; [done|by rewrite E|]. eapply Forall_impl; [exact Hc|].
  intros []; cbn; by rewrite ?E.
Qed.

(** The functions from [j] on are loaded, and no others. *)
Record loaded_from debug d (ims : list image) (j : nat) : Prop := {
  from_loaded : forall i im, (j <= i)%nat -> ims !! i = Some im -> exists r fn, function_loaded debug d i im r fn;
  from_only : forall i, (i < j)%nat -> loaded_functions d !! Z.of_nat i = None
}.

Lemma known_constants_load debug d ims id cs : loaded_from debug d ims (S id) ->
  Forall (const_known d (length ims) id) cs -> exists vs, Forall2 (loaded_const d) cs vs.
Proof.
  intros Hfrom. induction 1 as [|c cs Hc _ [vs Hvs]]; [exists []; constructor|].
  assert (exists v, loaded_const d c v) as [v Hv]; [|by exists (v :: vs); constructor].
  destruct c as [|b|bits|i|off|i]; cbn in *; eauto.
  - destruct Hc as [r Hr]. eauto.
  - destruct (lookup_lt_is_Some_2 ims i) as [im Him]; [lia|].
    destruct (from_loaded _ _ _ _ Hfrom i im) as (r & fn & Hf); [lia|done|].
    exists (OBJECT r), r. split; [apply Hf|done].
Qed.

Lemma image_bytes_positive debug id im : (24 <= length (image_bytes debug id im))%nat.
Proof. unfold image_bytes. rewrite length_app, length_header_bytes. lia. Qed.

Lemma chunks_loop_ok debug ims buffer : Z.of_nat (length buffer) < 2 ^ 32 - 1 -> Z.of_nat (length ims) < 2 ^ 32 ->
  forall j d pre fuel, (j <= length ims)%nat -> (j <= fuel)%nat ->
  buffer = pre ++ concat (rev (chunks_of debug 0 (take j ims))) -> loading (loader_memory d) ->
  (forall i im, ims !! i = Some im -> image_known d (length ims) i im) -> loaded_from debug d ims j ->
  exists d', Deserializer.chunks_loop roots fuel buffer (Z.of_nat (length buffer)) (Z.of_nat (length pre)) d = Ret (tt, d') /\
    keeps d d' /\ loader_context d' = loader_context d /\ loaded_from debug d' ims 0.
Proof.
  intros Hsize Hmany. induction j as [|j IH]; intros d pre fuel Hj Hfuel Hbuf Hl Hknown Hfrom.
  { exists d. split; [|split_and!; [by apply keeps_refl|done..]].
    cbn in Hbuf. rewrite app_nil_r in Hbuf. subst pre. destruct fuel; cbn; by rewrite Z.ltb_irrefl. }
  destruct fuel as [|fuel]; [lia|]. destruct (lookup_lt_is_Some_2 ims j) as [im Him]; [lia|].
  destruct (Hknown j im Him) as [Hfit [name Hname] Hconst].
  destruct (known_constants_load debug d ims j _ Hfrom Hconst) as [vs Hvs].
  rewrite (take_S_r _ _ _ Him), chunks_of_app, length_take, Nat.min_l, rev_app_distr in Hbuf by lia.
  change (chunks_of debug (0 + j) [im]) with [image_bytes debug (0 + j + 0) im] in Hbuf. rewrite Nat.add_0_l, Nat.add_0_r in Hbuf.
  cbn [rev app concat] in Hbuf. set (tail := concat (rev (chunks_of debug 0 (take j ims)))) in Hbuf.
  pose proof (deserialize_chunk_ok debug d j im name pre tail vs) as Hchunk. cbv zeta in Hchunk. rewrite <-Hbuf in Hchunk.
  destruct Hchunk as (r & fn & d1 & E & K1 & C1 & S1 & F1 & L1); [done|done|lia|done|done|done|apply Hfrom; lia|].
  pose proof (image_bytes_positive debug j im) as Hpos.
  assert (Hlen : length buffer = (length pre + length (image_bytes debug j im) + length tail)%nat).
  { rewrite Hbuf at 1. rewrite !length_app. lia. }
  cbn [Deserializer.chunks_loop]. rewrite (proj2 (Z.ltb_lt _ _)), (M_bind_run _ _ _ _ _ E) by lia.
  replace (Z.of_nat (length pre) + Z.of_nat (length (image_bytes debug j im)))
    with (Z.of_nat (length (pre ++ image_bytes debug j im))) by (rewrite length_app; lia).
  assert (Hmore : loaded_functions d ⊆ loaded_functions d1) by (rewrite F1; apply insert_subseteq, Hfrom; lia).
  destruct (IH d1 (pre ++ image_bytes debug j im) fuel) as (d' & E' & K' & C' & L'); [lia|lia|by rewrite <-app_assoc|apply K1| | |].
  - intros i x Hx. eapply image_known_same; [exact S1|by apply Hknown].
  - constructor.
    + intros i x Hi Hx. destruct (decide (i = j)) as [->|Hne]; [exists r, fn; by simplify_eq|].
      destruct (from_loaded _ _ _ _ Hfrom i x) as (r' & fn' & Hf); [lia|done|]. exists r', fn'. by eapply function_loaded_more.
    + intros i Hi. rewrite F1, lookup_insert_ne by lia. apply Hfrom. lia.
  - exists d'. split; [done|]. split; [by eapply keeps_trans|]. split; [congruence|done].
Qed.

Lemma length_chunks debug ims : (length ims <= length (concat (rev (chunks_of debug 0 ims))))%nat.
Proof.
  induction ims as [|im ims IH] using rev_ind; [done|]. rewrite chunks_of_app, rev_app_distr.
  change (chunks_of debug (0 + length ims) [im]) with [image_bytes debug (0 + length ims + 0) im].
  cbn [rev app concat]. rewrite !length_app. cbn [length].
  pose proof (image_bytes_positive debug (0 + length ims + 0) im). lia.
Qed.

Lemma deserialize_chunks_ok debug ims d : let buffer := concat (rev (chunks_of debug 0 ims)) in
  Z.of_nat (length buffer) < 2 ^ 32 - 1 -> Z.of_nat (length ims) < 2 ^ 32 -> loading (loader_memory d) ->
  (forall i im, ims !! i = Some im -> image_known d (length ims) i im) -> loaded_functions d = ∅ ->
  exists d', Deserializer.deserialize_chunks roots buffer (Z.of_nat (length buffer)) d = Ret (tt, d') /\
    keeps d d' /\ loader_context d' = loader_context d /\ loaded_from debug d' ims 0.
Proof.
  intros buffer Hsize Hmany Hl Hknown Hempty. unfold Deserializer.deserialize_chunks.
  apply (chunks_loop_ok debug ims buffer Hsize Hmany (length ims) d []); try done.
  - apply length_chunks.
  - by rewrite take_ge.
  - constructor; [|intros i _; by rewrite Hempty, lookup_empty].
    intros i im Hi Him. apply lookup_lt_Some in Him. lia.
Qed.

End loader.
