(* ===== verification/Parser.v ===== *)
(** * The error reporter and the parser's token window
    (include/error_reporter.hpp, include/parser.hpp, src/compiler/parser.cpp)

    The parser is a window of three lexer iterators with the flags that
    suppress the errors following a first one.  Messages are kept as the text
    that formatting produces. *)

From S2P Require Import Prelude Token Lexer.
Import TokenType.

(** ** ErrorReporter *)

Inductive Level : Set := WARNING | LEVEL_ERROR | FATAL | ERROR_STACK_TRACE.

#[global] Instance Level_eq_dec : EqDecision Level.
Proof. solve_decision. Defined.

Record Message : Type := mkMessage { severity : Level; message : string; message_line : Z }.

Record ErrorReporter : Type := mkReporter { has_error_ : bool; messages : list Message }.

Module ErrorReporter.

Definition empty : ErrorReporter := mkReporter false [].

(** [report(level, line, message, args...)], on the formatted text. *)
Definition report (r : ErrorReporter) (level : Level) (line : Z) (text : string) : ErrorReporter :=
  mkReporter (if decide (level = WARNING) then has_error_ r else true)
    (messages r ++ [mkMessage level text line]).

Definition has_messages (r : ErrorReporter) : bool := negb (bool_decide (messages r = [])).
Definition has_error (r : ErrorReporter) : bool := has_error_ r.
Definition clear (r : ErrorReporter) : ErrorReporter := empty.

End ErrorReporter.

(** ** Parser *)

Record Parser : Type := mkParser {
  previous_ : Lexer.iterator;
  current : Lexer.iterator;
  next : Lexer.iterator;
  had_error_ : bool;
  panic_mode : bool;
  reporter : ErrorReporter
}.

Module Parser.

Local Open Scope string_scope.

Definition set_window (p : Parser) (previous current next : Lexer.iterator) : Parser :=
  mkParser previous current next (had_error_ p) (panic_mode p) (reporter p).
Definition set_panic (p : Parser) (b : bool) : Parser :=
  mkParser (previous_ p) (current p) (next p) (had_error_ p) b (reporter p).

(** [report(ERROR, token, text)] and the flags, unless the parser is panicking. *)
Definition report_at (token : Token) (text : string) (p : Parser) : Parser :=
  if panic_mode p then p
  else mkParser (previous_ p) (current p) (next p) true true
         (ErrorReporter.report (reporter p) LEVEL_ERROR (Token.line token) text).

Definition report_error (text : string) : M Parser unit := fun p =>
  Ret (tt, report_at (Lexer.deref (current p)) text p).
Definition report_error_previous (text : string) : M Parser unit := fun p =>
  Ret (tt, report_at (Lexer.deref (previous_ p)) text p).

Definition report_error_token (token : Token) : M Parser unit :=
  match Token.err token with
  | ErrorCode.INVALID_DECIMAL_LITERAL =>
      report_error ("Invalid decimal '" +:+ Token.lexeme token +:+ "'")
  | ErrorCode.UNRECOGNIZED_CHARACTER =>
      report_error ("Invaild character '" +:+ Token.lexeme token +:+ "'")
  | ErrorCode.UNTERMINATED_STRING =>
      report_error ("Unterminated string '" +:+ Token.lexeme token +:+ "'")
  | ErrorCode.NO_ERROR => mret tt
  end.

(** [Parser(iter, reporter)] *)
Definition new_parser (iter : Lexer.iterator) (r : ErrorReporter) : outcome Parser :=
  let p := mkParser iter iter iter false false r in
  '(_, p) ← (if decide (Token.token_type (Lexer.deref iter) = ERROR)
             then report_error_token (Lexer.deref iter) p else Ret (tt, p));
  n ← Lexer.next (next p);
  Ret (set_window p (previous_ p) (current p) n).

Definition peek : M Parser Token := gets (fun p => Lexer.deref (current p)).
Definition peek_next : M Parser Token := gets (fun p => Lexer.deref (next p)).
Definition previous : M Parser Token := gets (fun p => Lexer.deref (previous_ p)).
Definition had_error : M Parser bool := gets had_error_.
Definition is_panic : M Parser bool := gets panic_mode.
Definition check (expected : TokenType.t) : M Parser bool :=
  gets (fun p => bool_decide (Token.token_type (Lexer.deref (current p)) = expected)).
Definition is_at_end : M Parser bool := check END_OF_FILE.

(** The loop of [advance]: error tokens are reported and skipped. *)
Fixpoint advance_loop (fuel : nat) : M Parser unit := fun p =>
  match fuel with
  | O => OutOfFuel
  | S fuel =>
      n ← Lexer.next (next p);
      let p := set_window p (previous_ p) (next p) n in
      let token := Lexer.deref (current p) in
      if decide (Token.token_type token = ERROR)
      then (report_error_token token ;; advance_loop fuel) p
      else Ret (tt, p)
  end.

(** There are at most as many tokens as characters, and the end of the text. *)
Definition advance_fuel (p : Parser) : nat := length (Lexer.source (next p)) + 2.

Definition advance : M Parser unit := fun p =>
  advance_loop (advance_fuel p) (set_window p (current p) (current p) (next p)).

Definition match_token (expected : TokenType.t) : M Parser bool :=
  b ← check expected;
  if (b : bool) then advance ;; mret true else mret false.

Definition consume (expected : TokenType.t) (error_message : string) : M Parser unit :=
  token ← peek;
  if decide (Token.token_type token = expected) then advance
  else if String.eqb error_message "" then
    if decide (Token.token_type token = END_OF_FILE)
    then report_error ("Syntax Error: Expected " +:+ token_type_to_string expected +:+
                       ", but reached end of input")
    else report_error ("Syntax Error: Expected " +:+ token_type_to_string expected +:+
                       ", found '" +:+ Token.lexeme token +:+ "'")
  else report_error ("Syntax Error: " +:+ error_message).

(** The tokens at which a statement starts. *)
Definition statement_boundary (t : TokenType.t) : bool :=
  match t with
  | CLASS | FUN | VAR | FOR | IF | WHILE | PRINT | RETURN => true
  | _ => false
  end.

Fixpoint synchronize_loop (fuel : nat) : M Parser unit :=
  token ← peek;
  if decide (Token.token_type token = END_OF_FILE) then mret tt
  else
    prev ← previous;
    if decide (Token.token_type prev = SEMICOLON) then mret tt
    else if statement_boundary (Token.token_type token) then mret tt
    else match fuel with
         | O => out_of_fuel
         | S fuel => advance ;; synchronize_loop fuel
         end.

Definition synchronize : M Parser unit := fun p =>
  synchronize_loop (length (Lexer.source (current p)) + 1) (set_panic p false).

End Parser.
