(* ===== verification/ParserFacts.v ===== *)
(** * The token window

    The window always holds three successive tokens of the text; every
    operation on it ends, and consuming a token makes progress. *)

From S2P Require Import Prelude Token Lexer LexerFacts SweepFacts Parser.
Import TokenType.

Fixpoint string_all (P : ascii -> Prop) (s : string) : Prop :=
  match s with EmptyString => True | String c s => P c /\ string_all P s end.

Lemma no_nul_of_list (l : list ascii) : nul ∉ l -> no_nul (String.string_of_list_ascii l).
Proof.
  induction l as [|c l IH]; [done|]. intros [Hc Hl]%not_elem_of_cons. cbn. split; [|by apply IH].
  intros ->. by apply Hc.
Qed.

Section window.
Context (src : list ascii) (Hsrc : nul ∉ src).
Implicit Types (it : Lexer.iterator) (p : Parser) (t : TokenType.t).

(** An iterator that has read a token of the text, or its end. *)
Record iter_ok it : Prop := {
  iter_source : Lexer.source it = src;
  iter_bound : (Lexer.current it <= length src)%nat;
  iter_end : Lexer.current_token_type it = END_OF_FILE -> Lexer.current it = length src;
  iter_type : Token.token_type (Lexer.deref it) = Lexer.current_token_type it;
  iter_lexeme : no_nul (Token.lexeme (Lexer.deref it));
  iter_nonempty : Lexer.current_token_type it <> END_OF_FILE -> Token.lexeme (Lexer.deref it) <> ""
}.

Lemma rem_end it : iter_ok it -> rem it = 0%nat <-> Lexer.current_token_type it = END_OF_FILE.
Proof. intros _. unfold rem. by case_decide. Qed.

Lemma next_iter it : Lexer.source it = src -> (Lexer.current it <= length src)%nat ->
  exists it', Lexer.next it = Ret it' /\ iter_ok it' /\ (rem it' <= Lexer.remaining it)%nat.
Proof using Hsrc.
  intros Hs Hb. assert (Hb' : (Lexer.current it <= Lexer.size it)%nat) by (unfold Lexer.size; by rewrite Hs).
  destruct (next_steps it Hb') as (it' & Hn & Hstep). exists it'. split; [done|].
  split; [|by apply token_step_rem]. pose proof (token_step_bound _ _ Hb' Hstep) as Hbd.
  destruct Hstep as (gap & tok & Es & Et & Est & Ecu & _ & Hcase). rewrite Hs in *.
  assert (Hin : forall c, c ∈ tok -> c ∈ src).
  { intros c Hc. eapply (subseteq_drop (Lexer.current it)). rewrite Et, !elem_of_app. by right; left. }
  unfold Lexer.size in Hbd. rewrite Es in Hbd.
  destruct Hcase as [(Ht & -> & Hrest & _)|(t & e & Ht & Hspec & _ & Hne & Hd)].
  - assert (Hd : Lexer.deref it' = default_token) by (unfold Lexer.deref; by rewrite decide_True).
    constructor; rewrite ?Hd; try done.
    intros _. apply (f_equal length) in Hrest. rewrite Es, length_drop in Hrest. cbn in Hrest. lia.
  - constructor; rewrite ?Hd; try done.
    + intros Ht'. by apply token_spec_not_eof in Hspec; subst.
    + apply no_nul_of_list. intros Hn'. by apply Hsrc, Hin.
    + intros _. cbn. by destruct tok.
Qed.

(** ** The window *)

Record parser_ok p : Prop := {
  previous_ok : iter_ok (previous_ p);
  current_ok : iter_ok (current p);
  next_follows : Lexer.next (current p) = Ret (next p)
}.

(** The tokens still to come, the current one included. *)
Definition prem p : nat := rem (current p).

Lemma next_ok p : parser_ok p -> iter_ok (next p) /\ (rem (next p) <= pred (prem p))%nat.
Proof using Hsrc.
  intros [_ Hc Hn]. destruct (next_iter (current p)) as (it' & Hn' & Hok & Hr); [apply Hc..|].
  rewrite Hn in Hn'. injection Hn' as <-. split; [done|]. unfold prem.
  assert (Hp : pred (rem (current p)) = Lexer.remaining (current p)); [|by rewrite Hp].
  unfold rem. case_decide as Ht; [|done]. unfold Lexer.remaining. rewrite (iter_end _ Hc Ht).
  unfold Lexer.size. rewrite (iter_source _ Hc). cbn. lia.
Qed.

(** What operations that do not move the window change. *)
Definition same_window p p' : Prop :=
  previous_ p' = previous_ p /\ current p' = current p /\ next p' = next p.

Lemma same_window_ok p p' : same_window p p' -> parser_ok p -> parser_ok p'.
Proof. intros (E1 & E2 & E3) []. constructor; congruence. Qed.

Lemma same_window_prem p p' : same_window p p' -> prem p' = prem p.
Proof. intros (_ & E & _). unfold prem. by rewrite E. Qed.

Lemma report_at_window tok text p : same_window p (Parser.report_at tok text p).
Proof. unfold Parser.report_at. by case_match. Qed.

Lemma report_error_token_runs tok p :
  exists p', Parser.report_error_token tok p = Ret (tt, p') /\ same_window p p'.
Proof.
  unfold Parser.report_error_token, Parser.report_error.
  destruct (Token.err tok); eexists; (split; [reflexivity|]); first [done | apply report_at_window].
Qed.

(** ** Moving *)

Lemma advance_loop_runs fuel p :
  iter_ok (previous_ p) -> iter_ok (next p) -> (rem (next p) < fuel)%nat ->
  exists p', Parser.advance_loop fuel p = Ret (tt, p') /\ parser_ok p' /\ previous_ p' = previous_ p /\
    (prem p' <= rem (next p))%nat /\ Lexer.current_token_type (current p') <> ERROR.
Proof using Hsrc.
  revert p. induction fuel as [|fuel IH]; intros p Hp Hn Hf; [lia|]. cbn [Parser.advance_loop].
  destruct (next_iter (next p)) as (it & Hit & Hok & Hr); [apply Hn..|]. rewrite Hit. cbn [mbind outcome_bind].
  set (p1 := Parser.set_window p _ _ _).
  assert (Hok1 : parser_ok p1) by by constructor.
  rewrite (iter_type _ (current_ok _ Hok1)). case_decide as He.
  - destruct (report_error_token_runs (Lexer.deref (current p1)) p1) as (p2 & Hrep & Hw).
    erewrite M_bind_run by exact Hrep.
    pose proof (same_window_ok _ _ Hw Hok1) as Hok2. destruct (next_ok p2 Hok2) as [Hn2 Hr2].
    assert (Hlt : (0 < prem p2)%nat).
    { rewrite (same_window_prem _ _ Hw). unfold prem, rem. rewrite decide_False by (by rewrite He). lia. }
    rewrite (same_window_prem _ _ Hw) in *. change (prem p1) with (rem (next p)) in *.
    destruct (IH p2) as (p' & Hrun & Hok' & Hprev & Hrem & Hne); [apply Hok2|done|lia|].
    exists p'. split_and!; [done|done| |lia|done]. rewrite Hprev. apply Hw.
  - exists p1. split_and!; [done|done|done|done|done].
Qed.

Lemma advance_runs p : parser_ok p ->
  exists p', Parser.advance p = Ret (tt, p') /\ parser_ok p' /\ previous_ p' = current p /\
    (prem p' <= pred (prem p))%nat /\ Lexer.current_token_type (current p') <> ERROR.
Proof using Hsrc.
  intros Hok. destruct (next_ok p Hok) as [Hn Hr]. unfold Parser.advance.
  set (p1 := Parser.set_window p _ _ _).
  destruct (advance_loop_runs (Parser.advance_fuel p) p1) as (p' & Hrun & Hok' & Hprev & Hrem & Hne).
  - apply Hok.
  - done.
  - unfold Parser.advance_fuel, rem, Lexer.remaining, Lexer.size. cbn. rewrite (iter_source _ Hn). case_decide; lia.
  - exists p'. split_and!; [done..| |done]. cbn in Hrem. lia.
Qed.

Lemma match_token_runs t p : parser_ok p ->
  exists b p', Parser.match_token t p = Ret (b, p') /\ parser_ok p' /\
    (if b then Lexer.current_token_type (current p) = t /\ previous_ p' = current p /\
                (prem p' <= pred (prem p))%nat
     else p' = p /\ Lexer.current_token_type (current p) <> t).
Proof using Hsrc.
  intros Hok. unfold Parser.match_token, Parser.check. erewrite M_bind_run by apply gets_run.
  rewrite (iter_type _ (current_ok _ Hok)). case_bool_decide as Ht.
  - destruct (advance_runs p Hok) as (p' & Hrun & Hok' & Hprev & Hrem & _).
    erewrite M_bind_run by exact Hrun. exists true, p'. split; [reflexivity|]. split_and!; done.
  - exists false, p. split; [reflexivity|]. split_and!; done.
Qed.

Lemma consume_runs t msg p : parser_ok p ->
  exists p', Parser.consume t msg p = Ret (tt, p') /\ parser_ok p' /\
    (if decide (Lexer.current_token_type (current p) = t)
     then previous_ p' = current p /\ (prem p' <= pred (prem p))%nat
     else same_window p p').
Proof using Hsrc.
  intros Hok. unfold Parser.consume, Parser.peek. erewrite M_bind_run by apply gets_run.
  rewrite (iter_type _ (current_ok _ Hok)). case_decide as Ht.
  - destruct (advance_runs p Hok) as (p' & Hrun & Hok' & Hprev & Hrem & _). by exists p'.
  - assert (Hrep : forall text, exists p', Parser.report_error text p = Ret (tt, p') /\
      parser_ok p' /\ same_window p p').
    { intros text. eexists. split; [reflexivity|]. pose proof (report_at_window (Lexer.deref (current p)) text p).
      split; [by eapply same_window_ok|done]. }
    repeat case_match; apply Hrep.
Qed.

Lemma synchronize_loop_runs fuel p : parser_ok p -> (prem p <= fuel)%nat ->
  exists p', Parser.synchronize_loop fuel p = Ret (tt, p') /\ parser_ok p' /\ (prem p' <= prem p)%nat /\
    (prem p' = 0%nat \/ Token.token_type (Lexer.deref (previous_ p')) = SEMICOLON \/
     Parser.statement_boundary (Token.token_type (Lexer.deref (current p'))) = true).
Proof using Hsrc.
  revert p. induction fuel as [|fuel IH]; intros p Hok Hf; cbn [Parser.synchronize_loop];
    unfold Parser.peek, Parser.previous; erewrite M_bind_run by apply gets_run;
    rewrite (iter_type _ (current_ok _ Hok));
    (case_decide as Ht; [exists p; split_and!; [done..|left]; by apply (rem_end _ (current_ok _ Hok))|]);
    (assert (Hne : prem p <> 0%nat) by (intros He; by apply (rem_end _ (current_ok _ Hok)) in He)); [lia|].
  erewrite M_bind_run by apply gets_run. case_decide as Hp; [exists p; split_and!; [done..|]; by right; left|].
  destruct (Parser.statement_boundary _) eqn:Eb.
  { exists p. split_and!; [done|done|done|]. right; right. by rewrite (iter_type _ (current_ok _ Hok)). }
  destruct (advance_runs p Hok) as (p1 & Hrun & Hok1 & Hprev & Hrem & _).
  erewrite M_bind_run by exact Hrun.
  destruct (IH p1 Hok1) as (p' & Hrun' & Hok' & Hrem' & Hcase); [lia|].
  exists p'. split_and!; [done|done|lia|done].
Qed.

Lemma synchronize_runs p : parser_ok p ->
  exists p', Parser.synchronize p = Ret (tt, p') /\ parser_ok p' /\ (prem p' <= prem p)%nat /\
    (prem p' = 0%nat \/ Token.token_type (Lexer.deref (previous_ p')) = SEMICOLON \/
     Parser.statement_boundary (Token.token_type (Lexer.deref (current p'))) = true).
Proof using Hsrc.
  intros Hok. unfold Parser.synchronize.
  destruct (synchronize_loop_runs (length (Lexer.source (current p)) + 1) (Parser.set_panic p false))
    as (p' & Hrun & Hok' & Hrem & Hcase).
  - by apply (same_window_ok p).
  - unfold prem, rem, Lexer.remaining, Lexer.size. cbn. rewrite (iter_source _ (current_ok _ Hok)). case_decide; lia.
  - by exists p'.
Qed.

Lemma cbegin_runs : exists it, Lexer.cbegin src = Ret it /\ iter_ok it.
Proof using Hsrc.
  destruct (next_iter (Lexer.new_iterator src 0 0 1)) as (it & Hn & Hok & _); [done|cbn; lia|by exists it].
Qed.

Lemma new_parser_runs it r : iter_ok it ->
  exists p, Parser.new_parser it r = Ret p /\ parser_ok p /\ current p = it.
Proof using Hsrc.
  intros Hok. unfold Parser.new_parser. set (p0 := mkParser it it it false false r).
  assert (Hrep : exists p1, (if decide (Token.token_type (Lexer.deref it) = ERROR)
      then Parser.report_error_token (Lexer.deref it) p0 else Ret (tt, p0)) = Ret (tt, p1) /\ same_window p0 p1).
  { case_decide; [apply report_error_token_runs|by exists p0]. }
  destruct Hrep as (p1 & -> & (E1 & E2 & E3)). cbn [mbind outcome_bind]. rewrite E3. change (next p0) with it.
  destruct (next_iter it) as (n & Hn & Hok' & _); [apply Hok..|]. rewrite Hn.
  eexists. split; [reflexivity|]. cbn. rewrite E1, E2. split; [by constructor|done].
Qed.

End window.
