(* ===== verification/ParserProps.v ===== *)
(** * Recovery after a syntax error *)

From S2P Require Import Prelude Token Lexer LexerFacts SweepFacts Parser ParserFacts.
Import TokenType.

(** The tokens recovery stops at.  Other tokens start a statement too, but are skipped: [const],
    [switch], [break], [continue] and the opening brace of a block. *)
Definition recovery_tokens : list TokenType.t := [CLASS; FUN; VAR; FOR; IF; WHILE; PRINT; RETURN].

Lemma statement_boundary_spec t : Parser.statement_boundary t = true <-> t ∈ recovery_tokens.
Proof. rewrite <-(bool_decide_eq_true (t ∈ recovery_tokens)). by destruct t. Qed.

(** Where [synchronize] stops: at the end of the text, after a semicolon, or before one of these. *)
Definition at_stop (p : Parser) : Prop :=
  Token.token_type (Lexer.deref (current p)) = END_OF_FILE \/
  Token.token_type (Lexer.deref (previous_ p)) = SEMICOLON \/
  Token.token_type (Lexer.deref (current p)) ∈ recovery_tokens.

(** The parser after [n] tokens more. *)
Fixpoint advances (n : nat) : M Parser unit :=
  match n with
  | O => mret tt
  | S n => Parser.advance ;; advances n
  end.

Section recovery.
Context (src : list ascii) (Hsrc : nul ∉ src).

Lemma synchronize_loop_least fuel p : parser_ok src p -> (prem p <= fuel)%nat ->
  exists n p', Parser.synchronize_loop fuel p = Ret (tt, p') /\ advances n p = Ret (tt, p') /\ at_stop p' /\
    (n <= prem p)%nat /\ forall k, (k < n)%nat -> exists q, advances k p = Ret (tt, q) /\ ~ at_stop q.
Proof using Hsrc.
  revert p. induction fuel as [|fuel IH]; intros p Hok Hf; cbn [Parser.synchronize_loop];
    unfold Parser.peek, Parser.previous; erewrite M_bind_run by apply gets_run;
    (case_decide as Ht; [exists O, p; split_and!; [done|done|by left|lia|lia]|]);
    (assert (Hne : prem p <> 0%nat) by (intros He; apply Ht; rewrite (iter_type _ _ (current_ok _ _ Hok));
      by apply (rem_end _ _ (current_ok _ _ Hok)))); [lia|].
  erewrite M_bind_run by apply gets_run.
  case_decide as Hp; [exists O, p; split_and!; [done|done|by right; left|lia|lia]|].
  destruct (Parser.statement_boundary _) eqn:Eb.
  { exists O, p. split_and!; [done|done|right; right; by apply statement_boundary_spec|lia|lia]. }
  destruct (advance_runs src Hsrc p Hok) as (p1 & Hrun & Hok1 & _ & Hrem & _).
  destruct (IH p1 Hok1) as (n & p' & Hloop & Hadv & Hstop & Hn & Hleast); [lia|].
  exists (S n), p'. cbn [advances]. rewrite !(M_bind_run _ _ _ _ _ Hrun).
  split_and!; [done|done|done|lia|]. intros [|k] Hk.
  - exists p. split; [done|]. unfold at_stop. intros [?|[?|E%statement_boundary_spec]]; [done|done|by rewrite E in Eb].
  - destruct (Hleast k) as (q & Hq & ?); [lia|]. exists q. cbn [advances]. by rewrite (M_bind_run _ _ _ _ _ Hrun).
Qed.

End recovery.

(** C21. Recovery after a syntax error makes progress: from any state of the parser over a text without a
    zero byte, [synchronize] ends in the first state that is at the end of the text, after a semicolon, or
    before [class], [fun], [var], [for], [if], [while], the print statement or [return]; it skips no such
    place, and no more tokens than are left.  It does skip the other statements: [const], [switch],
    [break], [continue] and blocks. *)
Theorem recovery_reaches_a_statement (src : list ascii) (p : Parser) :
  nul ∉ src -> parser_ok src p ->
  exists n p', Parser.synchronize p = Ret (tt, p') /\
    advances n (Parser.set_panic p false) = Ret (tt, p') /\ at_stop p' /\ (n <= prem p)%nat /\
    forall k, (k < n)%nat -> exists q, advances k (Parser.set_panic p false) = Ret (tt, q) /\ ~ at_stop q.
Proof.
  intros Hsrc Hok.
  apply (synchronize_loop_least src Hsrc (length (Lexer.source (current p)) + 1) (Parser.set_panic p false)).
  - by apply (same_window_ok src p).
  - unfold prem, rem, Lexer.remaining, Lexer.size. cbn. rewrite (iter_source _ _ (current_ok _ _ Hok)).
    case_decide; lia.
Qed.

(** [1 +], an error, a switch that is skipped, then a statement. *)
Definition broken_text : list ascii := String.list_ascii_of_string "1 + ) 2 switch echo 3;".

Lemma broken_text_ok : nul ∉ broken_text.
Proof. by apply (bool_decide_unpack _). Qed.

Lemma broken_parser : exists p, (it ← Lexer.cbegin broken_text; Parser.new_parser it ErrorReporter.empty) = Ret p /\
  parser_ok broken_text p.
Proof.
  destruct (cbegin_runs broken_text broken_text_ok) as (it & -> & Hit).
  destruct (new_parser_runs broken_text broken_text_ok it ErrorReporter.empty Hit) as (p & Hp & Hok & _).
  by exists p.
Qed.

Lemma recovery_reaches_a_statement_witness : exists p n p',
  (it ← Lexer.cbegin broken_text; Parser.new_parser it ErrorReporter.empty) = Ret p /\
  Parser.synchronize p = Ret (tt, p') /\ advances n (Parser.set_panic p false) = Ret (tt, p') /\ at_stop p' /\
  (n <= prem p)%nat /\
  forall k, (k < n)%nat -> exists q, advances k (Parser.set_panic p false) = Ret (tt, q) /\ ~ at_stop q.
Proof.
  destruct broken_parser as (p & Hp & Hok).
  destruct (recovery_reaches_a_statement broken_text p broken_text_ok Hok) as (n & p' & H).
  exists p, n, p'. exact (conj Hp H).
Defined.
