(* ===== verification/Compiler.v ===== *)
(** * The compiler (include/compiler.hpp, src/compiler/compiler.cpp)

    One definition per member function, over the state of all the compilers
    that are alive ([enclosing] links them: the head of [compilers] is
    [Compiler::current]) with the parser, the allocator and the global table
    they share.  The three functions every nested construct goes back to,
    [parse_precedence], [statement] and [declaration], are parameters of the
    others; [functions] ties the knot, with fuel. *)

From S2P Require Import Prelude Double HashMap Hash Platform HashMapProps Opcode Token Lexer Value Chunk Object Memory Context Parser.
Import TokenType.

(** Limits (include/config.hpp). *)
Definition MAX_NUMBER_OF_LOCAL_VARIABLES : Z := 2048.
Definition MAX_FUNCTION_PARAMETERS : Z := 255.
Definition LIST_BUILD_APPEND_THRESHOLD : Z := 5.
Definition MAP_BUILD_ADD_THRESHOLD : Z := 5.
Definition UINT16_MAX : Z := 65535.

(** ** State *)

Inductive FunctionType : Set := FUNCTION | SCRIPT | METHOD | INITIALIZER.

#[global] Instance FunctionType_eq_dec : EqDecision FunctionType.
Proof. solve_decision. Defined.

Module Precedence.
Inductive t : Set :=
  | NONE | ASSIGNMENT | CONDITIONAL | OR | AND | EQUALITY | COMPARISON | TERM | FACTOR | UNARY
  | CALL | PRIMARY.
Definition to_int (p : t) : Z :=
  match p with
  | NONE => 0 | ASSIGNMENT => 1 | CONDITIONAL => 2 | OR => 3 | AND => 4 | EQUALITY => 5
  | COMPARISON => 6 | TERM => 7 | FACTOR => 8 | UNARY => 9 | CALL => 10 | PRIMARY => 11
  end.
End Precedence.

Record Local : Type := mkLocal {
  name : Token; depth : Z; local_uninitialized : bool; local_is_const : bool; is_captured : bool
}.

Record Upvalue : Type := mkUp { index : Z; is_local : bool }.

(** One [Compiler].  [enclosing_class] is the chain of [ClassCompiler]s, innermost first, each
    given by its [has_super_class]. *)
Record compiler : Type := mkCompiler {
  scope_depth : Z;
  locals : list Local;
  constant_numbers : HashMap.table Z Z;
  compiled : option ref;
  loop_depth : Z;
  loop_scope_depth : Z;
  loop_start_offset : Z;
  function_type : FunctionType;
  captures : list Upvalue;
  enclosing_class : list bool
}.

(** The roots of a virtual machine that is alive while the compiler runs: those before and
    after the globals in [mark_roots]. *)
Record vm_roots : Type := mkVmRoots { roots_before : list (option ref); roots_after : list (option ref) }.

Record world : Type := mkWorld {
  memory : Memory;
  context : Context;
  parser : Parser;
  compilers : list compiler;
  vm : option vm_roots
}.

Module Compiler.
Section compiler.
Context `{Platform}.

Abbreviation C := (M world).

(** ** Access to the parts of the state *)

Definition set_memory (w : world) (m : Memory) : world :=
  mkWorld m (context w) (parser w) (compilers w) (vm w).
Definition set_context (w : world) (c : Context) : world :=
  mkWorld (memory w) c (parser w) (compilers w) (vm w).
Definition set_parser (w : world) (p : Parser) : world :=
  mkWorld (memory w) (context w) p (compilers w) (vm w).
Definition set_compilers (w : world) (cs : list compiler) : world :=
  mkWorld (memory w) (context w) (parser w) cs (vm w).

(** Calls on the parser and on the allocator; the latter may collect, with these roots
    ([mark_compiler_roots], then the machine's). *)
Definition parse {A} (m : M Parser A) : C A := zoom parser set_parser m.

Definition compiler_roots (w : world) : list (option ref) :=
  match compilers w with
  | [] => []
  | _ => (match vm w with None => Context.global_roots (context w) | Some _ => [] end) ++
         (compiled <$> compilers w)
  end.
Definition machine_roots (w : world) : list (option ref) :=
  match vm w with
  | None => []
  | Some r => roots_before r ++ Context.global_roots (context w) ++ roots_after r
  end.
Definition all_roots (w : world) : list (option ref) := compiler_roots w ++ machine_roots w.

Definition allocate {A} (f : list (option ref) -> M Memory A) : C A := fun w =>
  zoom memory set_memory (f (all_roots w)) w.

(** [this], when it is [Compiler::current]. *)
Definition this : C compiler := fun w =>
  match compilers w with c :: _ => Ret (c, w) | [] => Undef "no compiler" end.
Definition set_this (c : compiler) : C unit := fun w =>
  match compilers w with _ :: cs => Ret (tt, set_compilers w (c :: cs)) | [] => Undef "no compiler" end.
Definition update_this (f : compiler -> compiler) : C unit := c ← this; set_this (f c).

Definition with_scope (c : compiler) (d : Z) (ls : list Local) : compiler :=
  mkCompiler d ls (constant_numbers c) (compiled c) (loop_depth c) (loop_scope_depth c)
    (loop_start_offset c) (function_type c) (captures c) (enclosing_class c).
Definition with_locals (c : compiler) (ls : list Local) : compiler :=
  with_scope c (scope_depth c) ls.
Definition with_numbers (c : compiler) (t : HashMap.table Z Z) : compiler :=
  mkCompiler (scope_depth c) (locals c) t (compiled c) (loop_depth c) (loop_scope_depth c)
    (loop_start_offset c) (function_type c) (captures c) (enclosing_class c).
Definition with_compiled (c : compiler) (f : option ref) : compiler :=
  mkCompiler (scope_depth c) (locals c) (constant_numbers c) f (loop_depth c)
    (loop_scope_depth c) (loop_start_offset c) (function_type c) (captures c) (enclosing_class c).
Definition with_loop (c : compiler) (d scope start : Z) : compiler :=
  mkCompiler (scope_depth c) (locals c) (constant_numbers c) (compiled c) d scope start
    (function_type c) (captures c) (enclosing_class c).
Definition with_captures (c : compiler) (us : list Upvalue) : compiler :=
  mkCompiler (scope_depth c) (locals c) (constant_numbers c) (compiled c) (loop_depth c)
    (loop_scope_depth c) (loop_start_offset c) (function_type c) us (enclosing_class c).
Definition with_classes (c : compiler) (cs : list bool) : compiler :=
  mkCompiler (scope_depth c) (locals c) (constant_numbers c) (compiled c) (loop_depth c)
    (loop_scope_depth c) (loop_start_offset c) (function_type c) (captures c) cs.

(** [function->...] and [chunk()->...] *)
Definition this_function : C ref :=
  c ← this; lift (or_undef "function is null" (compiled c)).

Definition update_function (f : ObjectFunction -> outcome ObjectFunction) : C unit :=
  r ← this_function;
  w ← get;
  fn ← lift (Heap.function (objects (memory w)) r);
  fn ← lift (f fn);
  put (set_memory w (Memory.set_objects (memory w)
         (Heap.write (objects (memory w)) r (ObjFunction fn)))).

Definition with_chunk (fn : ObjectFunction) (c : Chunk) : ObjectFunction :=
  mkFunction (arity_ fn) (upvalue_count_ fn) c (name_ fn).

Definition get_chunk : C Chunk :=
  r ← this_function;
  w ← get;
  fn ← lift (Heap.function (objects (memory w)) r);
  mret (chunk fn).

Definition update_chunk (f : Chunk -> outcome Chunk) : C unit :=
  update_function (fun fn => c ← f (chunk fn); Ret (with_chunk fn c)).

Definition add_constant (v : Value) : C Z :=
  c ← get_chunk;
  '(i, c) ← lift (Chunk.add_constant c v);
  update_chunk (fun _ => Ret c) ;;
  mret i.

(** The text of an [ObjectString]. *)
Definition string_of (r : ref) : C string :=
  w ← get; s ← lift (Heap.string (objects (memory w)) r); mret (str s).

Definition previous_line : C Z := t ← parse Parser.previous; mret (Token.line t).
Definition report_error (text : string) : C unit := parse (Parser.report_error text).
Definition error_if (b : bool) (text : string) : C unit := if b then report_error text else mret tt.
Definition intern (s : string) : C ref := allocate (fun roots => Allocator.intern_string roots s).

(** Enough iterations for a loop that consumes a token each time. *)
Definition loop_fuel : C nat := w ← get; mret (length (Lexer.source (current (parser w))) + 2)%nat.

(** ** Emitting bytecode *)

Definition emit_opcode (op : OpCode.t) : C unit :=
  line ← previous_line; update_chunk (fun c => Ret (Chunk.write_simple_op c op line)).

Definition emit_byte (byte : Z) : C unit :=
  line ← previous_line; update_chunk (fun c => Ret (Chunk.write_byte c byte line)).

Definition emit_uint16_le (bytes : Z) : C unit :=
  line ← previous_line; update_chunk (fun c => Ret (Chunk.write_uint16_le c (u16 bytes) line)).

Definition write_load_constant (i line : Z) : C unit :=
  update_chunk (fun c => Chunk.write_load_constant c i line).

Definition emit_return : C unit :=
  c ← this;
  (if decide (function_type c = INITIALIZER)
   then emit_opcode OpCode.LOAD_LOCAL ;; emit_uint16_le 0
   else emit_opcode OpCode.NIL) ;;
  emit_opcode OpCode.RETURN.

(** [static_cast<int>(chunk()->get_code().size())] *)
Definition code_size : C Z := c ← get_chunk; mret (i32 (Chunk.size c)).

Definition emit_jump (op : OpCode.t) : C Z :=
  emit_opcode op ;; emit_uint16_le 0 ;; n ← code_size; mret (n - 2).

(** [code[offset] = byte] *)
Definition store_code (offset byte : Z) (c : Chunk) : outcome Chunk :=
  if offset <? 0 then Undef (negative_index (Chunk.size c))
  else if offset <? Chunk.size c
  then Ret (Chunk.set_code c (<[Z.to_nat offset := byte]> (code c)))
  else Undef "code index out of range".

Definition patch_jump (offset : Z) : C unit :=
  n ← code_size;
  let jump := n - offset - 2 in
  error_if (UINT16_MAX <? jump) "Too much code to jump over" ;;
  update_chunk (store_code offset (u8 (Z.land jump 0xFF))) ;;
  update_chunk (store_code (offset + 1) (u8 (Z.land (Z.shiftr jump 8) 0xFF))).

Definition emit_jump_back (absolute_location : Z) : C unit :=
  emit_opcode OpCode.JUMP_BACKWARD ;;
  n ← code_size;
  let offset := n - absolute_location + 2 in
  error_if (UINT16_MAX <? offset) "Too much code to jump back" ;;
  emit_uint16_le offset.

(** ** Scopes and variables *)

Definition begin_scope : C unit := update_this (fun c => with_scope c (scope_depth c + 1) (locals c)).

(** The loop of [end_scope], over the locals from the last one; it stops at one to keep. *)
Fixpoint pop_locals (rev_locals : list Local) (depth_ : Z) : C (list Local) :=
  match rev_locals with
  | [] => mret []
  | l :: rest =>
      if depth_ <? depth l then
        emit_opcode (if is_captured l then OpCode.CLOSE_UPVALUE else OpCode.POP_TOP) ;;
        pop_locals rest depth_
      else mret rev_locals
  end.

Definition end_scope : C unit :=
  update_this (fun c => with_scope c (scope_depth c - 1) (locals c)) ;;
  c ← this;
  kept ← pop_locals (rev (locals c)) (scope_depth c);
  update_this (fun c => with_locals c (rev kept)).

Definition add_local (tok : Token) (is_constant : bool) : C unit :=
  c ← this;
  if Z.of_nat (length (locals c)) =? MAX_NUMBER_OF_LOCAL_VARIABLES
  then report_error "Limit on the number of local variables reached"
  else set_this (with_locals c (locals c ++ [mkLocal tok (scope_depth c) true is_constant false])).

(** [locals.back().uninitialized = false] *)
Definition initialize_last : C unit :=
  c ← this;
  match last (locals c) with
  | None => undef "back() of an empty vector"
  | Some l =>
      set_this (with_locals c (removelast (locals c) ++
        [mkLocal (name l) (depth l) false (local_is_const l) (is_captured l)]))
  end.

Definition mark_initialized : C unit :=
  c ← this; if 0 <? scope_depth c then initialize_last else mret tt.

(** The names declared in the current scope, the search of [declare_variable]. *)
Fixpoint declared_in_scope (rev_locals : list Local) (scope : Z) (lexeme : string) : bool :=
  match rev_locals with
  | [] => false
  | l :: rest =>
      if depth l <? scope then false
      else String.eqb (Token.lexeme (name l)) lexeme || declared_in_scope rest scope lexeme
  end.

Definition declare_variable (is_constant : bool) : C unit :=
  c ← this;
  if scope_depth c =? 0 then mret tt
  else
    token ← parse Parser.previous;
    if declared_in_scope (rev (locals c)) (scope_depth c) (Token.lexeme token)
    then report_error ("Variable '" +:+ Token.lexeme token +:+ "' redeclared in the same scope")
    else add_local token is_constant.

Definition identifier (nm : string) : C Z :=
  obj ← intern nm;
  w ← get;
  '(i, ctx) ← lift (Context.get_global (objects (memory w)) (context w) obj);
  put (set_context w ctx) ;;
  mret i.

Definition parse_variable (err_message : string) (is_constant : bool) : C Z :=
  parse (Parser.consume IDENTIFIER err_message) ;;
  declare_variable is_constant ;;
  c ← this;
  if 0 <? scope_depth c then mret 0
  else token ← parse Parser.previous; identifier (Token.lexeme token).

Definition define_variable (constant_index : Z) (is_constant : bool) : C unit :=
  if 0xFFFF <? constant_index then
    report_error "Syntax Error: Too many global variables, can only have < 65535 global variables"
  else
    c ← this;
    if 0 <? scope_depth c then initialize_last
    else
      w ← get;
      val ← lift (Context.get_internal_value (context w) constant_index);
      if is_const val then
        n ← lift (Context.get_name (context w) constant_index);
        s ← string_of n;
        report_error ("Syntax Error: Variable '" +:+ s +:+
                      "' has been declared const, cannot be redeclared")
      else
        ctx ← lift (Context.set_const (context w) constant_index is_constant);
        put (set_context w ctx) ;;
        emit_opcode OpCode.DEFINE_GLOBAL ;;
        emit_uint16_le constant_index.

(** The loop of [resolve_local], from the last local; [i] is the index of the head. *)
Fixpoint resolve_in (rev_locals : list Local) (i : Z) (lexeme : string) : M Parser Z :=
  match rev_locals with
  | [] => mret (-1)
  | l :: rest =>
      if String.eqb (Token.lexeme (name l)) lexeme then
        if local_uninitialized l then
          Parser.report_error "Can't use local variable in it's own initializer" ;; mret (-1)
        else mret i
      else resolve_in rest (i - 1) lexeme
  end.

Definition resolve_local (c : compiler) (tok : Token) : M Parser Z :=
  resolve_in (rev (locals c)) (Z.of_nat (length (locals c)) - 1) (Token.lexeme tok).

(** The search of [add_upvalue] for a capture of the same variable. *)
Fixpoint find_capture (us : list Upvalue) (i : Z) (local : bool) (idx : Z) : option Z :=
  match us with
  | [] => None
  | u :: us =>
      if (index u =? i) && Bool.eqb (is_local u) local then Some idx else find_capture us i local (idx + 1)
  end.

Definition add_upvalue (c : compiler) (i : Z) (local : bool) : M Memory (Z * compiler) :=
  if 0xFFFF <? Z.of_nat (length (captures c)) then throw "Too many upvalues in function"
  else
    match find_capture (captures c) i local 0 with
    | Some idx => mret (idx, c)
    | None =>
        let us := captures c ++ [mkUp i local] in
        r ← lift (or_undef "function is null" (compiled c));
        m ← get;
        fn ← lift (Heap.function (objects m) r);
        put (Memory.set_objects m (Heap.write (objects m) r
          (ObjFunction (mkFunction (arity_ fn) (Z.of_nat (length us)) (chunk fn) (name_ fn))))) ;;
        mret (Z.of_nat (length us) - 1, with_captures c us)
    end.

(** [enclosing->locals[local].is_captured = true] *)
Definition capture_local (c : compiler) (i : Z) : compiler :=
  with_locals c (alter (fun l => mkLocal (name l) (depth l) (local_uninitialized l)
                                   (local_is_const l) true) (Z.to_nat i) (locals c)).

(** [resolve_upvalue] on the chain that starts at a compiler; it also returns the chain. *)
Fixpoint resolve_upvalue_in (cs : list compiler) (tok : Token)
    : C ((Z * bool) * list compiler) :=
  match cs with
  | [] => undef "no compiler"
  | c :: encs =>
      match encs with
      | [] => mret ((-1, false), cs)
      | enc :: rest =>
          local ← parse (resolve_local enc tok);
          if negb (local =? -1) then
            let const := match locals enc !! Z.to_nat local with
                         | Some l => local_is_const l | None => false end in
            '(i, c) ← zoom memory set_memory (add_upvalue c local true);
            mret ((i, const), c :: capture_local enc local :: rest)
          else
            '((up, const), encs) ← resolve_upvalue_in encs tok;
            if negb (up =? -1) then
              '(i, c) ← zoom memory set_memory (add_upvalue c up false);
              mret ((i, const), c :: encs)
            else mret ((-1, false), c :: encs)
      end
  end.

Definition resolve_upvalue (tok : Token) : C (Z * bool) :=
  w ← get;
  '(r, cs) ← resolve_upvalue_in (compilers w) tok;
  modify (fun w => set_compilers w cs) ;;
  mret r.

(** What [named_variable] found: the instructions, the index, and constness. *)
Record resolved : Type := mkResolved {
  store_op : OpCode.t; load_op : OpCode.t; slot : Z; local_const : option string; upvalue_const : bool
}.

Definition resolve (tok : Token) : C resolved :=
  c ← this;
  i ← parse (resolve_local c tok);
  if negb (i =? -1) then
    let const := match locals c !! Z.to_nat i with
                 | Some l => if local_is_const l then Some (Token.lexeme (name l)) else None
                 | None => None end in
    mret (mkResolved OpCode.STORE_LOCAL OpCode.LOAD_LOCAL i const false)
  else
    '(up, const) ← resolve_upvalue tok;
    if negb (up =? -1) then
      mret (mkResolved OpCode.STORE_UPVALUE OpCode.LOAD_UPVALUE up None const)
    else
      i ← identifier (Token.lexeme tok);
      mret (mkResolved OpCode.STORE_GLOBAL OpCode.LOAD_GLOBAL i None false).

(** ** Parse rules *)

Inductive ParseFunction : Set :=
  | Fgrouping | Fcall | Fmap | Fsafe_dot | Fdot | Funary | Fbinary | Fvariable | Fstring | Fnumber
  | Fand | For | Fliteral | Fsuper | Fthis | Fternary | Flist | Findex.

Record ParseRule : Type := mkRule {
  prefix : option ParseFunction; infix : option ParseFunction; precedence : Precedence.t
}.

(** The table [rules] the constructor fills. *)
Definition get_rule (t : TokenType.t) : ParseRule :=
  match t with
  | LEFT_PAREN => mkRule (Some Fgrouping) (Some Fcall) Precedence.CALL
  | LEFT_BRACE => mkRule (Some Fmap) None Precedence.NONE
  | QUESTION_DOT => mkRule None (Some Fsafe_dot) Precedence.CALL
  | DOT => mkRule None (Some Fdot) Precedence.CALL
  | MINUS => mkRule (Some Funary) (Some Fbinary) Precedence.TERM
  | PLUS => mkRule None (Some Fbinary) Precedence.TERM
  | SLASH => mkRule None (Some Fbinary) Precedence.FACTOR
  | STAR => mkRule None (Some Fbinary) Precedence.FACTOR
  | BANG => mkRule (Some Funary) None Precedence.NONE
  | BANG_EQUAL => mkRule None (Some Fbinary) Precedence.EQUALITY
  | EQUAL_EQUAL => mkRule None (Some Fbinary) Precedence.EQUALITY
  | GREATER => mkRule None (Some Fbinary) Precedence.COMPARISON
  | GREATER_EQUAL => mkRule None (Some Fbinary) Precedence.COMPARISON
  | LESS => mkRule None (Some Fbinary) Precedence.COMPARISON
  | LESS_EQUAL => mkRule None (Some Fbinary) Precedence.COMPARISON
  | IDENTIFIER => mkRule (Some Fvariable) None Precedence.NONE
  | STRING => mkRule (Some Fstring) None Precedence.NONE
  | NUMBER_INT => mkRule (Some Fnumber) None Precedence.NONE
  | NUMBER_REAL => mkRule (Some Fnumber) None Precedence.NONE
  | AND => mkRule None (Some Fand) Precedence.AND
  | FALSE => mkRule (Some Fliteral) None Precedence.NONE
  | NIL => mkRule (Some Fliteral) None Precedence.NONE
  | NOT => mkRule (Some Funary) None Precedence.NONE
  | OR => mkRule None (Some For) Precedence.OR
  | SUPER => mkRule (Some Fsuper) None Precedence.NONE
  | THIS => mkRule (Some Fthis) None Precedence.NONE
  | TRUE => mkRule (Some Fliteral) None Precedence.NONE
  | QUESTION_MARK => mkRule None (Some Fternary) Precedence.CONDITIONAL
  | LEFT_BRACKET => mkRule (Some Flist) (Some Findex) Precedence.CALL
  | RIGHT_PAREN | RIGHT_BRACE | COMMA | SEMICOLON | EQUAL | CLASS | CONST | ELSE | FOR | FUN | IF
  | PRINT | RETURN | VAR | WHILE | ERROR | END_OF_FILE | COLON | SWITCH | CASE | DEFAULT | BREAK
  | CONTINUE | RIGHT_BRACKET | TOKEN_COUNT => mkRule None None Precedence.NONE
  end.

(** ** Expressions *)

Section expressions.
Variable parse_precedence : Z -> C unit.

Definition expression : C unit := parse_precedence (Precedence.to_int Precedence.ASSIGNMENT).

Definition number : C unit :=
  token ← parse Parser.previous;
  (if decide (Token.token_type token = NUMBER_INT) then
     match parse_int (Token.lexeme token) with
     | None => report_error ("Error while parsing number as integer '" +:+ Token.lexeme token +:+ "'")
     | Some value =>
         if value =? 0 then emit_opcode OpCode.ZERO
         else if value =? 1 then emit_opcode OpCode.ONE
         else
           c ← this;
           index_opt ← lift (HashMap.get (constant_numbers c) value);
           match index_opt with
           | Some i => write_load_constant i (Token.line token)
           | None =>
               i ← add_constant (Value.of_int value);
               write_load_constant i (Token.line token) ;;
               c ← this;
               '(_, t) ← lift (HashMap.insert (constant_numbers c) value i);
               set_this (with_numbers c t)
           end
     end
   else if decide (Token.token_type token = NUMBER_REAL) then
     match parse_real (Token.lexeme token) with
     | None => report_error ("Error while parsing number as double '" +:+ Token.lexeme token +:+ "'")
     | Some value =>
         i ← add_constant (Value.of_real value); write_load_constant i (Token.line token)
     end
   else mret tt).

Definition grouping : C unit :=
  expression ;; parse (Parser.consume RIGHT_PAREN "Expected ')' after expression").

Definition unary : C unit :=
  operator ← parse Parser.previous;
  parse_precedence (Precedence.to_int Precedence.UNARY) ;;
  match Token.token_type operator with
  | MINUS =>
      c ← get_chunk;
      if decide (last (code c) = Some (OpCode.to_int OpCode.ONE)) then
        update_chunk (fun c => Ret (Chunk.set_code c
          (removelast (code c) ++ [OpCode.to_int OpCode.MINUS_ONE])))
      else emit_opcode OpCode.NEGATE
  | BANG | NOT => emit_opcode OpCode.NOT
  | _ => mret tt
  end.

Definition and_ : C unit :=
  end_jump ← emit_jump OpCode.JUMP_IF_FALSE;
  emit_opcode OpCode.POP_TOP ;;
  parse_precedence (Precedence.to_int Precedence.AND) ;;
  patch_jump end_jump.

Definition or_ : C unit :=
  end_jump ← emit_jump OpCode.JUMP_IF_TRUE;
  emit_opcode OpCode.POP_TOP ;;
  parse_precedence (Precedence.to_int Precedence.OR) ;;
  patch_jump end_jump.

Definition argument_list : C Z :=
  b ← parse (Parser.check RIGHT_PAREN);
  if (b : bool) then
    parse (Parser.consume RIGHT_PAREN "Expected ')' after arguments") ;; mret 0
  else
    fuel ← loop_fuel;
    arg_count ← loop_M fuel (fun arg_count =>
      expression ;;
      if arg_count =? MAX_FUNCTION_PARAMETERS then
        report_error ("Too many arguments: " +:+ to_string arg_count) ;; mret (arg_count, false)
      else
        more ← parse (Parser.match_token COMMA); mret (arg_count + 1, more)) 0;
    parse (Parser.consume RIGHT_PAREN "Expected ')' after arguments") ;;
    mret (u8 arg_count).

Definition call : C unit :=
  arg_count ← argument_list; emit_opcode OpCode.CALL ;; emit_byte arg_count.

Definition dot (canAssign : bool) : C unit :=
  parse (Parser.consume IDENTIFIER "Expected property name after .") ;;
  token ← parse Parser.previous;
  property_name ← intern (Token.lexeme token);
  constant_index ← add_constant (Value.of_object property_name);
  assigns ← (if canAssign then parse (Parser.match_token EQUAL) else mret false);
  if (assigns : bool) then
    expression ;; emit_opcode OpCode.STORE_PROPERTY ;; emit_uint16_le constant_index
  else
    calls ← parse (Parser.match_token LEFT_PAREN);
    if (calls : bool) then
      arg_count ← argument_list;
      emit_opcode OpCode.INVOKE ;; emit_uint16_le constant_index ;; emit_byte arg_count
    else emit_opcode OpCode.LOAD_PROPERTY ;; emit_uint16_le constant_index.

Definition safe_dot (canAssign : bool) : C unit :=
  parse (Parser.consume IDENTIFIER "Expected property name after '?.'") ;;
  token ← parse Parser.previous;
  property_name ← intern (Token.lexeme token);
  constant_index ← add_constant (Value.of_object property_name);
  assigns ← (if canAssign then parse (Parser.match_token EQUAL) else mret false);
  if (assigns : bool) then report_error "Cannot assign to property with optional chaining"
  else emit_opcode OpCode.LOAD_PROPERTY_SAFE ;; emit_uint16_le constant_index.

Definition binary : C unit :=
  operator ← parse Parser.previous;
  let op := Token.token_type operator in
  parse_precedence (Precedence.to_int (precedence (get_rule op)) + 1) ;;
  match op with
  | PLUS => emit_opcode OpCode.ADD
  | MINUS => emit_opcode OpCode.SUBTRACT
  | SLASH => emit_opcode OpCode.DIVIDE
  | STAR => emit_opcode OpCode.MULTIPLY
  | EQUAL_EQUAL => emit_opcode OpCode.EQUAL
  | BANG_EQUAL => emit_opcode OpCode.EQUAL ;; emit_opcode OpCode.NOT
  | GREATER => emit_opcode OpCode.GREATER
  | GREATER_EQUAL => emit_opcode OpCode.LESS ;; emit_opcode OpCode.NOT
  | LESS => emit_opcode OpCode.LESS
  | LESS_EQUAL => emit_opcode OpCode.GREATER ;; emit_opcode OpCode.NOT
  | _ => throw "Invalid token type to binary()"
  end.

Definition ternary : C unit :=
  parse_precedence (Precedence.to_int Precedence.CONDITIONAL) ;;
  parse (Parser.consume COLON "Expected ':' after then branch of ternary expression") ;;
  parse_precedence (Precedence.to_int Precedence.ASSIGNMENT).

Definition literal : C unit :=
  token ← parse Parser.previous;
  match Token.token_type token with
  | FALSE => emit_opcode OpCode.FALSE
  | TRUE => emit_opcode OpCode.TRUE
  | NIL => emit_opcode OpCode.NIL
  | _ => throw "Invalid token type to literal"
  end.

(** [token.lexeme.substr(1, token.lexeme.size() - 2)] *)
Definition unquote (lexeme : string) : outcome string :=
  if (String.length lexeme <? 1)%nat then Throw "basic_string_view::substr"
  else Ret (String.substring 1 (String.length lexeme - 2) lexeme).

Definition string_ : C unit :=
  token ← parse Parser.previous;
  s ← lift (unquote (Token.lexeme token));
  obj ← intern s;
  i ← add_constant (Value.of_object obj);
  write_load_constant i (Token.line token).

Definition named_variable (tok : Token) (canAssign : bool) : C unit :=
  v ← resolve tok;
  assigns ← (if canAssign then parse (Parser.match_token EQUAL) else mret false);
  if (assigns : bool) then
    match local_const v with
    | Some lexeme =>
        report_error ("Syntax Error: Assignment to const variable '" +:+ lexeme +:+ "'")
    | None =>
        if upvalue_const v then report_error "Syntax Error: Assignment to const variable disallowed"
        else expression ;; emit_opcode (store_op v) ;; emit_uint16_le (slot v)
    end
  else emit_opcode (load_op v) ;; emit_uint16_le (slot v).

Definition variable (canAssign : bool) : C unit :=
  token ← parse Parser.previous; named_variable token canAssign.

Definition this_ : C unit :=
  c ← this;
  match enclosing_class c with
  | [] => report_error "Cannot use 'this' outside a class"
  | _ => variable false
  end.

(** A token the compiler makes up. *)
Definition synthetic (lexeme : string) (line : Z) : Token :=
  mkToken IDENTIFIER line ErrorCode.NO_ERROR lexeme.

Definition super_ : C unit :=
  c ← this;
  match enclosing_class c with
  | [] => report_error "Cannot use 'super' outside a class"
  | has_super_class :: _ =>
      error_if (negb has_super_class) "Cannot use 'super' in a class that has no superclass"
  end ;;
  parse (Parser.consume DOT "Expected '.' after 'super'") ;;
  parse (Parser.consume IDENTIFIER "Expected method name after 'super.'") ;;
  token ← parse Parser.previous;
  method_name ← intern (Token.lexeme token);
  method_index ← add_constant (Value.of_object method_name);
  line ← previous_line;
  named_variable (synthetic "this" line) false ;;
  calls ← parse (Parser.match_token LEFT_PAREN);
  if (calls : bool) then
    arg_count ← argument_list;
    named_variable (synthetic "super" line) false ;;
    emit_opcode OpCode.SUPER_INVOKE ;; emit_uint16_le method_index ;; emit_byte arg_count
  else
    named_variable (synthetic "super" line) false ;;
    emit_opcode OpCode.LOAD_SUPER ;; emit_uint16_le method_index.

(** The body of the loops of [list] and [map]: the length so far and whether the building
    instruction is still to be emitted. *)
Definition list : C unit :=
  b ← parse (Parser.check RIGHT_BRACKET);
  if (b : bool) then
    parse (Parser.consume RIGHT_BRACKET "Expected ']' after list expression") ;;
    emit_opcode OpCode.LIST ;; emit_byte 0
  else
    fuel ← loop_fuel;
    '(list_length, should_emit_build_op) ← loop_M fuel (fun '(list_length, should_emit_build_op) =>
      expression ;;
      let list_length := list_length + 1 in
      (if (should_emit_build_op : bool) then mret tt else emit_opcode OpCode.LIST_APPEND) ;;
      (if list_length =? LIST_BUILD_APPEND_THRESHOLD
       then emit_opcode OpCode.LIST ;; emit_byte (u8 list_length) else mret tt) ;;
      let should_emit_build_op :=
        should_emit_build_op && negb (list_length =? LIST_BUILD_APPEND_THRESHOLD) in
      comma ← parse (Parser.match_token COMMA);
      if (comma : bool) then
        trailing ← parse (Parser.check RIGHT_BRACKET);
        mret ((list_length, should_emit_build_op), negb trailing)
      else mret ((list_length, should_emit_build_op), false)) (0, true);
    parse (Parser.consume RIGHT_BRACKET "Expected ']' after list expression") ;;
    if (should_emit_build_op : bool)
    then emit_opcode OpCode.LIST ;; emit_byte (u8 list_length) else mret tt.

Definition map : C unit :=
  b ← parse (Parser.check RIGHT_BRACE);
  if (b : bool) then
    parse (Parser.consume RIGHT_BRACE "Expected '}' after map declaration") ;;
    emit_opcode OpCode.MAP ;; emit_byte 0
  else
    fuel ← loop_fuel;
    '(map_length, should_emit_build_op) ← loop_M fuel (fun '(map_length, should_emit_build_op) =>
      expression ;;
      parse (Parser.consume COLON "Expected ':' between key and value in map declaration") ;;
      expression ;;
      let map_length := map_length + 1 in
      (if (should_emit_build_op : bool) then mret tt else emit_opcode OpCode.MAP_ADD) ;;
      (if map_length =? MAP_BUILD_ADD_THRESHOLD
       then emit_opcode OpCode.MAP ;; emit_byte (u8 map_length) else mret tt) ;;
      let should_emit_build_op :=
        should_emit_build_op && negb (map_length =? MAP_BUILD_ADD_THRESHOLD) in
      comma ← parse (Parser.match_token COMMA);
      if (comma : bool) then
        trailing ← parse (Parser.check RIGHT_BRACE);
        mret ((map_length, should_emit_build_op), negb trailing)
      else mret ((map_length, should_emit_build_op), false)) (0, true);
    parse (Parser.consume RIGHT_BRACE "Expected '}' after map declaration") ;;
    if (should_emit_build_op : bool)
    then emit_opcode OpCode.MAP ;; emit_byte (u8 map_length) else mret tt.

Definition index_ (canAssign : bool) : C unit :=
  expression ;;
  parse (Parser.consume RIGHT_BRACKET "Expected ']' after index access") ;;
  assigns ← (if canAssign then parse (Parser.match_token EQUAL) else mret false);
  if (assigns : bool) then expression ;; emit_opcode OpCode.STORE_INDEX
  else emit_opcode OpCode.LOAD_INDEX.

(** Calling a rule's function. *)
Definition run_rule (f : ParseFunction) (canAssign : bool) : C unit :=
  match f with
  | Fgrouping => grouping | Fcall => call | Fmap => map | Fsafe_dot => safe_dot canAssign
  | Fdot => dot canAssign | Funary => unary | Fbinary => binary | Fvariable => variable canAssign
  | Fstring => string_ | Fnumber => number | Fand => and_ | For => or_ | Fliteral => literal
  | Fsuper => super_ | Fthis => this_ | Fternary => ternary | Flist => list | Findex => index_ canAssign
  end.

(** The body of [parse_precedence]. *)
Definition parse_precedence_body (precedence_ : Z) : C unit :=
  parse Parser.advance ;;
  token ← parse Parser.previous;
  match prefix (get_rule (Token.token_type token)) with
  | None => report_error "Expected expression"
  | Some prefix_rule =>
      let canAssign := precedence_ <=? Precedence.to_int Precedence.ASSIGNMENT in
      run_rule prefix_rule canAssign ;;
      fuel ← loop_fuel;
      while_M fuel
        (token ← parse Parser.peek;
         mret (precedence_ <=? Precedence.to_int (precedence (get_rule (Token.token_type token)))))
        (parse Parser.advance ;;
         token ← parse Parser.previous;
         match infix (get_rule (Token.token_type token)) with
         | None => throw "bad_function_call"
         | Some infix_rule => run_rule infix_rule canAssign
         end) ;;
      assigns ← (if canAssign then parse (Parser.match_token EQUAL) else mret false);
      error_if assigns "Invalid assignment target"
  end.

End expressions.

(** ** Statements and declarations *)

Section statements.
Variables (parse_precedence : Z -> C unit) (statement declaration : C unit).

(** The names of the previous section, on this [parse_precedence]. *)
Let expression : C unit := expression parse_precedence.
Let named_variable := named_variable parse_precedence.
Let variable := variable parse_precedence.

Definition print_statement : C unit :=
  expression ;;
  parse (Parser.consume SEMICOLON "Expected ';' after print statement") ;;
  emit_opcode OpCode.PRINT.

Definition expression_statement : C unit :=
  token ← parse Parser.peek;
  if decide (Token.token_type token = SEMICOLON) then parse Parser.advance
  else
    expression ;;
    parse (Parser.consume SEMICOLON "Expected ';' after expression") ;;
    emit_opcode OpCode.POP_TOP.

Definition var_declaration : C unit :=
  variable_constant_index ← parse_variable "Expected variable name after 'var'" false;
  assigns ← parse (Parser.match_token EQUAL);
  (if (assigns : bool) then expression else emit_opcode OpCode.UNINITIALIZED) ;;
  parse (Parser.consume SEMICOLON "Expected ';' after variable declaration") ;;
  define_variable variable_constant_index false.

Definition const_declaration : C unit :=
  const_constant_index ← parse_variable "Expected variable name after 'const'" true;
  assigns ← parse (Parser.match_token EQUAL);
  if (assigns : bool) then
    expression ;;
    parse (Parser.consume SEMICOLON "Expected ';' after const declaration") ;;
    define_variable const_constant_index true
  else report_error "Expected initializer after const declaration".

(** [while (!parser.check(...) ... && !parser.check(END_OF_FILE)) body;] *)
Definition until_token (ends : TokenType.t -> bool) (body : C unit) : C unit :=
  fuel ← loop_fuel;
  while_M fuel
    (token ← parse Parser.peek;
     let t := Token.token_type token in
     mret (negb (ends t) && negb (bool_decide (t = END_OF_FILE)))) body.

Definition quoted (s : string) : string :=
  String double_quote (s +:+ String double_quote EmptyString).

Definition block : C unit :=
  until_token (fun t => bool_decide (t = RIGHT_BRACE)) declaration ;;
  parse (Parser.consume RIGHT_BRACE ("Expected " +:+ quoted "}" +:+ " after a block")).

(** The parameters of a function, [function->arity_] counting them. *)
Definition parameters (end_type : TokenType.t) : C unit :=
  b ← parse (Parser.check end_type);
  if (b : bool) then mret tt
  else
    fuel ← loop_fuel;
    loop_M fuel (fun _ : unit =>
      update_function (fun fn =>
        Ret (mkFunction (arity_ fn + 1) (upvalue_count_ fn) (chunk fn) (name_ fn))) ;;
      r ← this_function;
      w ← get;
      fn ← lift (Heap.function (objects (memory w)) r);
      if MAX_FUNCTION_PARAMETERS <? arity_ fn then
        report_error ("Too many parameters (" +:+ to_string (arity_ fn) +:+
                      "), has to be less than " +:+ to_string MAX_FUNCTION_PARAMETERS) ;;
        mret (tt, false)
      else
        parameter_constant_index ← parse_variable "Expected parameter name" false;
        define_variable parameter_constant_index false ;;
        more ← parse (Parser.match_token COMMA);
        mret (tt, more)) tt.

(** The constructor: the new compiler becomes the current one before its function is
    allocated, then the first slot of its locals is reserved. *)
Definition new_compiler (fun_type : FunctionType) (nm : string) (classes : Datatypes.list bool)
    : C unit :=
  modify (fun w => set_compilers w
    (mkCompiler 0 [] HashMap.empty None 0 (-1) (-1) fun_type [] classes :: compilers w)) ;;
  f ← allocate (fun roots => Allocator.new_function roots 0 nm);
  update_this (fun c => with_compiled c (Some f)) ;;
  match fun_type with
  | METHOD | INITIALIZER =>
      add_local (mkToken IDENTIFIER (Token.line default_token) (Token.err default_token) "this") true ;;
      initialize_last
  | FUNCTION | SCRIPT => add_local default_token false
  end.

(** [~Compiler()] *)
Definition end_compiler : C unit := modify (fun w => set_compilers w (tail (compilers w))).

(** The operands of CLOSURE: a byte and an index for each captured variable. *)
Definition emit_captures (us : Datatypes.list Upvalue) : C unit :=
  for_each (fun u => emit_byte (if is_local u then 1 else 0) ;; emit_uint16_le (index u)) us.

(** The inner compiler is dropped before the enclosing one emits the closure: nothing is
    allocated in between. *)
Definition compile_function (fun_type : FunctionType) (nm : string) : C unit :=
  c ← this;
  new_compiler fun_type nm (enclosing_class c) ;;
  begin_scope ;;
  parse (Parser.consume LEFT_PAREN "Expected '(' after function name") ;;
  parameters RIGHT_PAREN ;;
  parse (Parser.consume RIGHT_PAREN "Expected ')' after function parameters") ;;
  parse (Parser.consume LEFT_BRACE "Expected '{' before function body") ;;
  block ;;
  emit_return ;;
  fn ← this_function;
  inner ← this;
  end_compiler ;;
  i ← add_constant (Value.of_object fn);
  emit_opcode OpCode.CLOSURE ;;
  emit_uint16_le i ;;
  emit_captures (captures inner).

Definition fun_declaration : C unit :=
  function_name_constant_index ← parse_variable "Expected function name after 'fun'" false;
  mark_initialized ;;
  token ← parse Parser.previous;
  compile_function FUNCTION (Token.lexeme token) ;;
  define_variable function_name_constant_index false.

Definition method : C unit :=
  _ ← parse (Parser.match_token FUN);
  parse (Parser.consume IDENTIFIER "Expected method name") ;;
  token ← parse Parser.previous;
  method_name ← intern (Token.lexeme token);
  constant_index ← add_constant (Value.of_object method_name);
  (if String.eqb (Token.lexeme token) "init"
   then compile_function INITIALIZER (Token.lexeme token)
   else compile_function METHOD (Token.lexeme token)) ;;
  emit_opcode OpCode.METHOD ;;
  emit_uint16_le constant_index.

(** [class_compiler.has_super_class = true] *)
Definition set_has_super_class : C unit :=
  update_this (fun c => with_classes c
    match enclosing_class c with _ :: cs => true :: cs | [] => [] end).

(** The part of [class_declaration] that follows a colon. *)
Definition superclass (class_token : Token) : C unit :=
  parse (Parser.consume IDENTIFIER "Expected superclass name after ':'") ;;
  variable false ;;
  token ← parse Parser.previous;
  error_if (String.eqb (Token.lexeme class_token) (Token.lexeme token))
    ("Circular inheritance not allowed. Class '" +:+ Token.lexeme class_token +:+
     "' is trying to inherit from itself") ;;
  begin_scope ;;
  line ← previous_line;
  add_local (synthetic "super" line) true ;;
  define_variable 0 true ;;
  set_has_super_class ;;
  named_variable class_token false ;;
  emit_opcode OpCode.INHERIT.

Definition class_declaration : C unit :=
  class_name_index ← parse_variable "Expected class name after 'class'" false;
  token ← parse Parser.previous;
  class_name ← intern (Token.lexeme token);
  constant_index ← add_constant (Value.of_object class_name);
  mark_initialized ;;
  emit_opcode OpCode.CLASS ;;
  emit_uint16_le constant_index ;;
  define_variable class_name_index false ;;
  update_this (fun c => with_classes c (false :: enclosing_class c)) ;;
  class_token ← parse Parser.previous;
  inherits ← parse (Parser.match_token COLON);
  (if (inherits : bool) then superclass class_token else mret tt) ;;
  named_variable class_token false ;;
  parse (Parser.consume LEFT_BRACE "Expected '{' after class name") ;;
  until_token (fun t => bool_decide (t = RIGHT_BRACE)) method ;;
  parse (Parser.consume RIGHT_BRACE "Expected '}' after class body") ;;
  emit_opcode OpCode.POP_TOP ;;
  (if (inherits : bool) then end_scope else mret tt) ;;
  update_this (fun c => with_classes c (tail (enclosing_class c))).

Definition if_statement : C unit :=
  parse (Parser.consume LEFT_PAREN "Expected '(' after 'if'") ;;
  expression ;;
  parse (Parser.consume RIGHT_PAREN "Expected ')' after if condition") ;;
  then_jump ← emit_jump OpCode.POP_JUMP_IF_FALSE;
  statement ;;
  has_else ← parse (Parser.match_token ELSE);
  if (has_else : bool) then
    else_jump ← emit_jump OpCode.JUMP_FORWARD;
    patch_jump then_jump ;;
    statement ;;
    patch_jump else_jump
  else patch_jump then_jump.

Definition while_statement : C unit :=
  update_this (fun c => with_loop c (loop_depth c + 1) (loop_scope_depth c) (loop_start_offset c)) ;;
  begin_scope ;;
  loop_begin ← code_size;
  parse (Parser.consume LEFT_PAREN "Expected '(' after 'while'") ;;
  expression ;;
  parse (Parser.consume RIGHT_PAREN "Expected ')' after while condition") ;;
  outer ← this;
  update_this (fun c => with_loop c (loop_depth c) (scope_depth c) (loop_start_offset c)) ;;
  exit_jump ← emit_jump OpCode.POP_JUMP_IF_FALSE;
  update_this (fun c => with_loop c (loop_depth c) (loop_scope_depth c) loop_begin) ;;
  statement ;;
  emit_jump_back loop_begin ;;
  patch_jump exit_jump ;;
  update_this (fun c => with_loop c (loop_depth c - 1) (loop_scope_depth outer)
                          (loop_start_offset outer)) ;;
  end_scope.

(** The first clause of [for_statement]. *)
Definition for_initializer : C unit :=
  b ← parse (Parser.match_token SEMICOLON);
  if (b : bool) then mret tt
  else
    b ← parse (Parser.match_token VAR);
    if (b : bool) then var_declaration
    else
      b ← parse (Parser.match_token CONST);
      if (b : bool) then const_declaration else expression_statement.

(** The condition; the jump to patch, or -1. *)
Definition for_condition : C Z :=
  b ← parse (Parser.match_token SEMICOLON);
  if (b : bool) then mret (-1)
  else
    expression ;;
    parse (Parser.consume SEMICOLON "Expected ';' after loop condition") ;;
    emit_jump OpCode.POP_JUMP_IF_FALSE.

(** The update expression; where [continue] and the end of the body jump to. *)
Definition for_update (loop_begin : Z) : C Z :=
  b ← parse (Parser.match_token RIGHT_PAREN);
  if (b : bool) then mret loop_begin
  else
    body_jump ← emit_jump OpCode.JUMP_FORWARD;
    increment_begin ← code_size;
    expression ;;
    emit_opcode OpCode.POP_TOP ;;
    parse (Parser.consume RIGHT_PAREN "Expected ')' after for statement") ;;
    emit_jump_back loop_begin ;;
    patch_jump body_jump ;;
    mret increment_begin.

Definition for_statement : C unit :=
  update_this (fun c => with_loop c (loop_depth c + 1) (loop_scope_depth c) (loop_start_offset c)) ;;
  begin_scope ;;
  parse (Parser.consume LEFT_PAREN "Expected '(' after 'for'") ;;
  for_initializer ;;
  outer ← this;
  update_this (fun c => with_loop c (loop_depth c) (scope_depth c) (loop_start_offset c)) ;;
  loop_begin ← code_size;
  exit_jump ← for_condition;
  loop_begin ← for_update loop_begin;
  update_this (fun c => with_loop c (loop_depth c) (loop_scope_depth c) loop_begin) ;;
  statement ;;
  emit_jump_back loop_begin ;;
  (if exit_jump =? -1 then mret tt else patch_jump exit_jump) ;;
  update_this (fun c => with_loop c (loop_depth c) (loop_scope_depth outer)
                          (loop_start_offset outer)) ;;
  end_scope ;;
  update_this (fun c => with_loop c (loop_depth c - 1) (loop_scope_depth c) (loop_start_offset c)).

Definition arm_ends (t : TokenType.t) : bool :=
  match t with RIGHT_BRACE | CASE | DEFAULT => true | _ => false end.

(** One arm of a switch, its keyword consumed; the jump out of it. *)
Definition switch_arm (default_case_compiled : bool) : C Z :=
  keyword ← parse Parser.previous;
  let is_case := bool_decide (Token.token_type keyword = CASE) in
  (if is_case then emit_opcode OpCode.DUP_TOP else mret tt) ;;
  begin_scope ;;
  add_local (mkToken (Token.token_type keyword) (Token.line keyword) (Token.err keyword)
               "<switch_variable>") false ;;
  skip_jump ←
    (if is_case then
       error_if default_case_compiled "Cannot have cases following the 'default' case" ;;
       expression ;;
       emit_opcode OpCode.EQUAL ;;
       emit_jump OpCode.POP_JUMP_IF_FALSE
     else
       error_if default_case_compiled
         "Cannot have multiple 'default' statements in a single switch case" ;;
       mret (-1));
  parse (Parser.consume COLON "Expected ':' after case or default statement") ;;
  token ← parse Parser.peek;
  error_if (arm_ends (Token.token_type token)) "Empty cases not allowed in switch statement" ;;
  until_token arm_ends declaration ;;
  end_scope ;;
  exit_jump ← emit_jump OpCode.JUMP_FORWARD;
  (if skip_jump =? -1 then mret tt else patch_jump skip_jump) ;;
  mret exit_jump.

(** The loop over the arms: the jumps to patch, whether [default] was seen, and whether
    the statement was given up. *)
Definition switch_statement : C unit :=
  expression ;;
  parse (Parser.consume LEFT_BRACE "Expected '{' after switch statement") ;;
  fuel ← loop_fuel;
  '(exit_jumps, default_case_compiled, failed) ← loop_M fuel
    (fun '(exit_jumps, default_case_compiled, _) =>
      token ← parse Parser.peek;
      let t := Token.token_type token in
      if bool_decide (t = RIGHT_BRACE) || bool_decide (t = END_OF_FILE)
      then mret ((exit_jumps, default_case_compiled, false), false)
      else
        is_case ← parse (Parser.match_token CASE);
        is_default ← (if (is_case : bool) then mret false else parse (Parser.match_token DEFAULT));
        if is_case || is_default then
          exit_jump ← switch_arm default_case_compiled;
          mret ((exit_jumps ++ [exit_jump], default_case_compiled || is_default, false), true)
        else
          report_error "Expected 'case' or 'default' statements inside switch statement" ;;
          mret ((exit_jumps, default_case_compiled, true), false))
    ([] : Datatypes.list Z, false, false);
  if (failed : bool) then mret tt
  else
    (if (default_case_compiled : bool) then mret tt else emit_opcode OpCode.POP_TOP) ;;
    parse (Parser.consume RIGHT_BRACE "Expected '}' after switch statement") ;;
    for_each patch_jump exit_jumps.

Definition break_statement : C unit :=
  c ← this;
  error_if (loop_depth c =? 0) "Cannot use break statement outside loop" ;;
  parse (Parser.consume SEMICOLON "Expected ';' after break statement") ;;
  report_error "NOT YET IMPLEMENTED".

(** The locals [continue] pops, from the last one. *)
Fixpoint loop_locals (rev_locals : Datatypes.list Local) (scope : Z) : nat :=
  match rev_locals with
  | [] => O
  | l :: rest => if depth l <=? scope then O else S (loop_locals rest scope)
  end.

Definition continue_statement : C unit :=
  c ← this;
  error_if (loop_depth c =? 0) "Cannot use continue statement outside loop" ;;
  parse (Parser.consume SEMICOLON "Expected ';' after continue statement") ;;
  c ← this;
  for_each (fun _ => emit_opcode OpCode.POP_TOP)
    (replicate (loop_locals (rev (locals c)) (loop_scope_depth c)) tt) ;;
  emit_jump_back (loop_start_offset c).

Definition return_statement : C unit :=
  c ← this;
  error_if (bool_decide (function_type c = SCRIPT))
    "cannot return from top level script, must be used inside a function" ;;
  b ← parse (Parser.match_token SEMICOLON);
  if (b : bool) then emit_return
  else
    error_if (bool_decide (function_type c = INITIALIZER))
      "cannot return a value from init() method" ;;
    expression ;;
    parse (Parser.consume SEMICOLON "Expected ';' after return statement") ;;
    emit_opcode OpCode.RETURN.

(** The body of [statement]: the token kinds are tried in this order. *)
Definition statement_body : C unit :=
  b ← parse (Parser.match_token PRINT);
  if (b : bool) then print_statement else
  b ← parse (Parser.match_token IF);
  if (b : bool) then if_statement else
  b ← parse (Parser.match_token WHILE);
  if (b : bool) then while_statement else
  b ← parse (Parser.match_token FOR);
  if (b : bool) then for_statement else
  b ← parse (Parser.match_token SWITCH);
  if (b : bool) then switch_statement else
  b ← parse (Parser.match_token LEFT_BRACE);
  if (b : bool) then begin_scope ;; block ;; end_scope else
  b ← parse (Parser.match_token CONTINUE);
  if (b : bool) then continue_statement else
  b ← parse (Parser.match_token BREAK);
  if (b : bool) then break_statement else
  b ← parse (Parser.match_token RETURN);
  if (b : bool) then return_statement else expression_statement.

(** The body of [declaration]. *)
Definition declaration_body : C unit :=
  (b ← parse (Parser.match_token VAR);
   if (b : bool) then var_declaration else
   b ← parse (Parser.match_token CONST);
   if (b : bool) then const_declaration else
   b ← parse (Parser.match_token FUN);
   if (b : bool) then fun_declaration else
   b ← parse (Parser.match_token CLASS);
   if (b : bool) then class_declaration else statement) ;;
  panics ← parse Parser.is_panic;
  if (panics : bool) then parse Parser.synchronize else mret tt.

End statements.

(** ** Tying the knot *)

Record functions_t : Type := mkFunctions {
  run_parse_precedence : Z -> C unit; run_statement : C unit; run_declaration : C unit
}.

(** [fuel] bounds the depth of the recursion. *)
Fixpoint functions (fuel : nat) : functions_t :=
  match fuel with
  | O => mkFunctions (fun _ => out_of_fuel) out_of_fuel out_of_fuel
  | S fuel =>
      let r := functions fuel in
      mkFunctions (parse_precedence_body (run_parse_precedence r))
        (statement_body (run_parse_precedence r) (run_statement r) (run_declaration r))
        (declaration_body (run_parse_precedence r) (run_statement r) (run_declaration r))
  end.

(** Each character of the source is crossed by at most three levels. *)
Definition compile_fuel (w : world) : nat := (3 * length (Lexer.source (current (parser w))) + 6)%nat.

Inductive InterpretResult : Set := OK | COMPILE_ERROR | RUNTIME_ERROR.

(** [compile()] *)
Definition compile : C (option ref * InterpretResult) := fun w =>
  (fuel ← loop_fuel;
   while_M fuel (b ← parse (Parser.match_token END_OF_FILE); mret (negb b))
     (run_declaration (functions (compile_fuel w))) ;;
   emit_return ;;
   failed ← parse Parser.had_error;
   if (failed : bool) then mret (None, COMPILE_ERROR)
   else r ← this_function; mret (Some r, OK)) w.

(** A compiler for a whole program, as [Lox] makes it, then [compile]. *)
Definition compile_program (m : Memory) (ctx : Context) (p : Parser) (v : option vm_roots)
    : outcome ((option ref * InterpretResult) * world) :=
  (new_compiler SCRIPT "" [] ;; compile) (mkWorld m ctx p [] v).

(** [compile_file] up to the serializer: the collector is off. *)
Definition disable_gc (m : Memory) : Memory :=
  {| objects := objects m; next_object := next_object m; objs := objs m; vopts := vopts m;
     bytes_allocated := bytes_allocated m; bytes_freed := bytes_freed m; next_gc := next_gc m;
     objects_created := objects_created m; objects_freed := objects_freed m;
     gc_cycles := gc_cycles m; temp_stash := temp_stash m;
     interned_strings := interned_strings m; gc_disabled := true;
     never_delete_objects := never_delete_objects m; grey_objects := grey_objects m |}.

Definition compile_source (opts : VMOpts) (src : Datatypes.list ascii)
    : outcome ((option ref * InterpretResult) * world) :=
  it ← Lexer.cbegin src;
  p ← Parser.new_parser it ErrorReporter.empty;
  compile_program (disable_gc (Memory.initial opts)) Context.empty p None.

End compiler.
End Compiler.
