(* ===== verification/CompilerFacts.v ===== *)
(** * What the compiler keeps true

    The invariant of the state all the compilers share, how a step of the
    compiler may change that state, and the primitive operations: emitting
    bytecode, interning, reading tokens.  The allocator may collect at every
    allocation. *)

From S2P Require Import Prelude Double HashMap HashMapFacts Hash Platform HashMapProps Opcode Token Lexer LexerFacts Value Chunk Object Memory CollectFacts SweepFacts AllocatorFacts GcProps WriteFacts Context ContextFacts Parser ParserFacts Compiler.
Import Compiler (all_roots, compiler_roots, machine_roots).

(** The limits of the program, which it reports by an exception. *)
Definition limit_error (e : string) : Prop :=
  e ∈ [HashMap.too_large; "Too many constants in chunk"; "Too many upvalues in function"].

(** [runs m s Q]: [m] ends from the state [s], with a result and a state that satisfy [Q] or at one
    of the limits, unless an [int] that counts bytes of code or variables has wrapped around at 2^31. *)
Definition outcome_runs {S A} (o : outcome (A * S)) (Q : A -> S -> Prop) : Prop :=
  match o with
  | Ret (a, s) => Q a s
  | Throw e => limit_error e
  | Undef why => why = int_overflow
  | OutOfFuel => False
  end.
Definition runs {S A} (m : M S A) (s : S) (Q : A -> S -> Prop) : Prop := outcome_runs (m s) Q.

Section runs.
Context {S : Type}.
Implicit Types (s : S).

Lemma runs_ret {A} (a : A) s (Q : A -> S -> Prop) : Q a s -> runs (mret a) s Q.
Proof. done. Qed.

Lemma runs_bind {A B} (m : M S A) (f : A -> M S B) s (Q : B -> S -> Prop) :
  runs m s (fun a s' => runs (f a) s' Q) -> runs (m ≫= f) s Q.
Proof. unfold runs, outcome_runs, mbind, M_bind. by destruct (m s) as [[a s']| | |]. Qed.

Lemma runs_mono {A} (m : M S A) s (Q Q' : A -> S -> Prop) :
  runs m s Q -> (forall a s', Q a s' -> Q' a s') -> runs m s Q'.
Proof. unfold runs, outcome_runs. destruct (m s) as [[a s']| | |]; auto. Qed.

Lemma runs_step {A B} (m : M S A) (f : A -> M S B) s (Q1 : A -> S -> Prop) (Q : B -> S -> Prop) :
  runs m s Q1 -> (forall a s', Q1 a s' -> runs (f a) s' Q) -> runs (m ≫= f) s Q.
Proof. intros H1 H2. apply runs_bind. by eapply runs_mono. Qed.

Lemma runs_Ret {A} (m : M S A) s a s' (Q : A -> S -> Prop) : m s = Ret (a, s') -> Q a s' -> runs m s Q.
Proof. unfold runs. by intros ->. Qed.

Lemma runs_get s (Q : S -> S -> Prop) : Q s s -> runs get s Q.
Proof. done. Qed.
Lemma runs_modify (f : S -> S) s (Q : unit -> S -> Prop) : Q tt (f s) -> runs (modify f) s Q.
Proof. done. Qed.
Lemma runs_put s s' (Q : unit -> S -> Prop) : Q tt s' -> runs (put s') s Q.
Proof. done. Qed.

Lemma runs_lift {A} (m : outcome A) s (Q : A -> S -> Prop) :
  outcome_runs (a ← m; Ret (a, s)) Q -> runs (lift m) s Q.
Proof. done. Qed.

Lemma runs_zoom {T A} (view : S -> T) (update : S -> T -> S) (m : M T A) s (Q : A -> S -> Prop) :
  runs m (view s) (fun a t => Q a (update s t)) -> runs (zoom view update m) s Q.
Proof. unfold runs, outcome_runs, zoom. by destruct (m (view s)) as [[a t]| | |]. Qed.

End runs.

(** ** The invariant *)

Section invariant.
Context `{PlatformLaws} (src : list ascii) (Hsrc : nul ∉ src).
Implicit Types (w : world) (h : heap) (c : compiler) (r : ref).

Definition heap_of w : heap := objects (memory w).

(** The cache of integer constants leads to constants of the chunk. *)
Definition numbers_ok (t : HashMap.table Z Z) : Prop :=
  exists g : gmap Z Z, repr (fun k => k <> 0) t g /\ forall k i, g !! k = Some i -> 0 <= i <= 0xFFFF.

(** A compiler that is alive: it fills a function object, and its first local is reserved. *)
Record frame_ok h c : Prop := {
  frame_function : exists r f, compiled c = Some r /\ Heap.function h r = Ret f;
  frame_locals : exists l ls, locals c = l :: ls /\ depth l <= 0;
  frame_names : Forall (fun l => no_nul (Token.lexeme (name l))) (locals c);
  frame_scope : 0 <= scope_depth c;
  frame_numbers : numbers_ok (constant_numbers c)
}.

Record world_ok w : Prop := {
  world_memory : exists p, inv (memory w) p;
  world_live : live_count 0 (memory w);
  world_safe : gc_safe (all_roots w) (memory w);
  world_globals : exists g, globals_ok (heap_of w) (context w) g;
  world_parser : parser_ok src (parser w);
  world_current : compilers w <> [];
  world_frames : Forall (frame_ok (heap_of w)) (compilers w)
}.

(** How a step changes a compiler: it stays where it is, [d] scopes deeper. *)
Record same_frame (d : Z) c c' : Prop := {
  same_compiled : compiled c' = compiled c;
  same_depth : scope_depth c' = scope_depth c + d
}.

Definition code_length h r : Z :=
  match Heap.function h r with Ret f => Z.of_nat (length (code (chunk f))) | _ => 0 end.

(** The step from [w] to [w'], [d] scopes deeper: the parser moves forward, code and globals grow. *)
Record good (d : Z) w w' : Prop := {
  good_ok : world_ok w';
  good_rem : (prem (parser w') <= prem (parser w))%nat;
  good_frames : exists c cs c' cs', compilers w = c :: cs /\ compilers w' = c' :: cs' /\
    same_frame d c c' /\ Forall2 (same_frame 0) cs cs';
  good_code : forall r, Some r ∈ compiled <$> compilers w ->
    code_length (heap_of w) r <= code_length (heap_of w') r;
  good_globals : (length (globals (context w)) <= length (globals (context w')))%nat;
  good_vm : vm w' = vm w
}.

Lemma same_frame_refl c : same_frame 0 c c.
Proof. constructor; [done|lia]. Qed.

Lemma same_frame_trans d1 d2 c1 c2 c3 :
  same_frame d1 c1 c2 -> same_frame d2 c2 c3 -> same_frame (d1 + d2) c1 c3.
Proof. intros [] []. constructor; [congruence|lia]. Qed.

#[global] Instance same_frame_preorder : PreOrder (same_frame 0).
Proof.
  split; [intros c; apply same_frame_refl|]. intros c1 c2 c3. exact (same_frame_trans 0 0 c1 c2 c3).
Qed.

Lemma same_frames_compiled cs cs' : Forall2 (same_frame 0) cs cs' -> compiled <$> cs' = compiled <$> cs.
Proof. induction 1 as [|c c' cs cs' [] _ IH]; [done|]. cbn. congruence. Qed.

Lemma good_compiled d w w' : good d w w' -> compiled <$> compilers w' = compiled <$> compilers w.
Proof.
  intros G. destruct (good_frames _ _ _ G) as (c & cs & c' & cs' & -> & -> & [] & Hcs). cbn.
  rewrite (same_frames_compiled _ _ Hcs). congruence.
Qed.

Lemma good_refl w : world_ok w -> good 0 w w.
Proof.
  intros Hok. constructor; try done. destruct (compilers w) as [|c cs] eqn:E; [by destruct (world_current _ Hok)|].
  by exists c, cs, c, cs.
Qed.

Lemma good_trans d1 d2 w1 w2 w3 : good d1 w1 w2 -> good d2 w2 w3 -> good (d1 + d2) w1 w3.
Proof.
  intros G1 G2. constructor.
  - apply G2.
  - pose proof (good_rem _ _ _ G1). pose proof (good_rem _ _ _ G2). lia.
  - destruct (good_frames _ _ _ G1) as (c & cs & c' & cs' & E1 & E2 & Hc & Hcs).
    destruct (good_frames _ _ _ G2) as (c1 & cs1 & c1' & cs1' & E3 & E4 & Hc1 & Hcs1).
    rewrite E2 in E3. injection E3 as <- <-. exists c, cs, c1', cs1'. split_and!; [done..| |].
    + by eapply same_frame_trans.
    + by etrans.
  - intros r Hr. etrans; [by apply (good_code _ _ _ G1)|]. apply (good_code _ _ _ G2).
    by rewrite (good_compiled _ _ _ G1).
  - pose proof (good_globals _ _ _ G1). pose proof (good_globals _ _ _ G2). lia.
  - rewrite (good_vm _ _ _ G2). apply G1.
Qed.

Lemma good_trans0 d w1 w2 w3 : good 0 w1 w2 -> good d w2 w3 -> good d w1 w3.
Proof. apply good_trans. Qed.

(** ** The current compiler *)

Definition depth_of w : Z := match compilers w with c :: _ => scope_depth c | [] => 0 end.
Definition code_of w : Z :=
  match compilers w with
  | c :: _ => match compiled c with Some r => code_length (heap_of w) r | None => 0 end
  | [] => 0
  end.

Lemma good_depth d w w' : good d w w' -> depth_of w' = depth_of w + d.
Proof.
  intros G. destruct (good_frames _ _ _ G) as (c & cs & c' & cs' & E & E' & [] & _).
  unfold depth_of. by rewrite E, E'.
Qed.

Lemma good_code_of d w w' : good d w w' -> code_of w <= code_of w'.
Proof.
  intros G. destruct (good_frames _ _ _ G) as (c & cs & c' & cs' & E & E' & [Hc _] & _).
  unfold code_of. rewrite E, E', Hc. destruct (compiled c) as [r|] eqn:Er; [|done].
  apply (good_code _ _ _ G). rewrite E. cbn. rewrite Er. by left.
Qed.

Lemma this_frame w : world_ok w -> exists c cs, compilers w = c :: cs /\ frame_ok (heap_of w) c /\
  Forall (frame_ok (heap_of w)) cs /\ scope_depth c = depth_of w.
Proof.
  intros Hok. pose proof (world_frames _ Hok) as Hf. destruct (compilers w) as [|c cs] eqn:E;
    [by destruct (world_current _ Hok)|].
  inversion_clear Hf. exists c, cs. split_and!; try done. unfold depth_of. by rewrite E.
Qed.

(** The index of a variable that was parsed at this depth. *)
Definition index_ok (i : Z) w : Prop := depth_of w = 0 -> int_index i (Z.of_nat (length (globals (context w)))).

Lemma index_ok_good i w w' : good 0 w w' -> index_ok i w -> index_ok i w'.
Proof.
  intros G Hi Hd. rewrite (good_depth _ _ _ G) in Hd. pose proof (good_globals _ _ _ G).
  assert (depth_of w = 0) as Hd0%Hi by lia. eapply int_index_mono; [exact Hd0|lia].
Qed.

(** ** Changing one part of the state *)

Lemma in_all_roots w o : o ∈ all_roots w -> o ∈ root_refs (all_roots w) (memory w).
Proof. intros Ho. unfold root_refs. rewrite !elem_of_app. by right; left. Qed.

Lemma global_root w o : world_ok w -> o ∈ Context.global_roots (context w) -> o ∈ all_roots w.
Proof.
  intros Hok Ho. unfold all_roots, compiler_roots, machine_roots. pose proof (world_current _ Hok) as Hne.
  destruct (compilers w) as [|c cs]; [done|]. destruct (vm w); rewrite !elem_of_app; tauto.
Qed.

Lemma compiled_root w o : o ∈ compiled <$> compilers w -> o ∈ all_roots w.
Proof.
  intros Ho. unfold all_roots, compiler_roots. destruct (compilers w); [by apply not_elem_of_nil in Ho|].
  rewrite !elem_of_app. by left; right.
Qed.

(** What is held: an object that the roots lead to. *)
Definition held w r : Prop := kept (all_roots w) (memory w) r.

Lemma frame_keep h h' c roots : keeps_cone h roots h' -> compiled c ∈ roots ->
  frame_ok h c -> frame_ok h' c.
Proof.
  intros Hk Hr [(r & f & Ec & Ef) ? ? ? ?]. constructor; try done. rewrite Ec in Hr.
  exists r, f. split; [done|]. by eapply keeps_function.
Qed.

(** The allocator kept everything the roots lead to. *)
Lemma good_memory w m' p : world_ok w -> inv m' p -> live_count 0 m' ->
  root_refs (all_roots w) m' = root_refs (all_roots w) (memory w) ->
  keeps_cone (heap_of w) (root_refs (all_roots w) (memory w)) (objects m') ->
  good 0 w (Compiler.set_memory w m').
Proof.
  intros Hok Hi Hl Hroots Hk. constructor; cbn; try done.
  - pose proof (fun o => global_root w o Hok) as Hroot.
    destruct Hok as [_ _ Hs [g Hg] Hp Hc Hf]. constructor; cbn; try done.
    + by exists p.
    + unfold gc_safe. change (all_roots (Compiler.set_memory w m')) with (all_roots w).
      rewrite Hroots. by eapply keeps_closed.
    + exists g. eapply globals_heap; [done|]. intros r s Hr Hs'. eapply keeps_string; [done| |done].
      by apply in_all_roots, Hroot.
    + apply Forall_forall. intros c Hin. eapply frame_keep; [done| |].
      * by apply in_all_roots, compiled_root, list_elem_of_fmap_2.
      * rewrite Forall_forall in Hf. by apply Hf.
  - by apply good_frames, good_refl.
  - intros r Hr. assert (exists f, Heap.function (heap_of w) r = Ret f) as [f Hf].
    { apply list_elem_of_fmap in Hr as (c & Hc & Hin). pose proof (world_frames _ Hok) as Hfr.
      rewrite Forall_forall in Hfr. destruct (Hfr c Hin) as [(r' & f & Ec & Ef) _ _ _ _].
      exists f. congruence. }
    unfold code_length. rewrite Hf. erewrite (keeps_function _ (heap_of (Compiler.set_memory w m'))); [done|exact Hk| |done].
    by apply in_all_roots, compiled_root.
Qed.

Lemma good_parser w p' : world_ok w -> parser_ok src p' -> (prem p' <= prem (parser w))%nat ->
  good 0 w (Compiler.set_parser w p').
Proof.
  intros Hok Hp Hr. constructor; cbn; try done.
  - destruct Hok. by constructor.
  - by apply good_frames, good_refl.
Qed.

Lemma good_compilers d w c cs c' cs' : world_ok w -> compilers w = c :: cs ->
  Forall (frame_ok (heap_of w)) (c' :: cs') -> same_frame d c c' -> Forall2 (same_frame 0) cs cs' ->
  good d w (Compiler.set_compilers w (c' :: cs')).
Proof.
  intros Hok E Hf Hc Hcs. constructor; cbn; try done.
  - destruct Hok as [Hm Hl Hs Hg Hp _ _]. constructor; cbn; try done.
    unfold gc_safe, all_roots, compiler_roots in *. cbn. rewrite E in Hs.
    by rewrite (same_compiled _ _ _ Hc), (same_frames_compiled _ _ Hcs).
  - by exists c, cs, c', cs'.
Qed.

Lemma good_context w ctx g : world_ok w -> globals_ok (heap_of w) ctx g ->
  (forall o, o ∈ Context.global_roots ctx -> closed_at (heap_of w) o \/ o ∈ Context.global_roots (context w)) ->
  (length (globals (context w)) <= length (globals ctx))%nat ->
  good 0 w (Compiler.set_context w ctx).
Proof.
  intros Hok Hg Hr Hl. constructor; cbn; try done; [|by apply good_frames, good_refl].
  pose proof (fun o => global_root w o Hok) as Hroot.
  destruct Hok as [Hm Hl' Hs _ Hp Hc Hf]. constructor; cbn; try done; [|by exists g].
  unfold gc_safe in *. rewrite closed_heap_forall in *. intros o Ho. 
  destruct (decide (o ∈ Context.global_roots ctx)) as [Hin|Hout].
  { destruct (Hr o Hin) as [|Hold]; [done|]. by apply Hs, in_all_roots, Hroot. }
  apply Hs. revert Ho. unfold root_refs, all_roots, compiler_roots, machine_roots. cbn.
  destruct (compilers w); [done|]. destruct (vm w); rewrite ?elem_of_app; cbn; rewrite ?elem_of_app; tauto.
Qed.

(** A function that is being compiled grows. *)
Lemma good_function w r f f' : world_ok w -> Some r ∈ compiled <$> compilers w ->
  Heap.function (heap_of w) r = Ret f ->
  (length (code (chunk f)) <= length (code (chunk f')))%nat ->
  (forall o, o ∈ children (ObjFunction f') -> o ∈ children (ObjFunction f) \/ closed_at (heap_of w) o) ->
  good 0 w (Compiler.set_memory w (Memory.set_objects (memory w) (write_function (heap_of w) r f'))).
Proof.
  intros Hok Hr Hf Hlen Hch. constructor; cbn; try done.
  - destruct Hok as [[p Hm] Hl Hs [g Hg] Hp Hc Hfr]. constructor; cbn; try done.
    + exists p. by eapply write_function_inv.
    + by eapply write_function_closed.
    + exists g. eapply globals_heap; [done|]. intros r' s _ Hs'. by eapply write_function_string.
    + eapply Forall_impl; [done|]. intros c [(r' & f0 & Ec & Ef) ? ? ? ?]. constructor; try done.
      unfold heap_of in *. cbn. destruct (decide (r = r')) as [<-|Hne].
      * exists r, f'. split; [done|]. by eapply write_function_same.
      * exists r', f0. split; [done|]. by rewrite write_function_other.
  - by apply good_frames, good_refl.
  - intros r' Hr'. unfold code_length, heap_of in *. cbn. destruct (decide (r = r')) as [<-|Hne].
    + rewrite Hf, (write_function_same _ _ _ _ Hf). lia.
    + by rewrite write_function_other.
Qed.

End invariant.
