(* ===== verification/CompilerSteps.v ===== *)
(** * Steps of the compiler

    Specifications of the primitive operations and the rules that compose
    them: [moves s n m] says that [m], run with at most [n] tokens to come,
    keeps the invariant and ends, and consumes a token if [s]. *)

From S2P Require Import Prelude Double HashMap HashMapFacts Hash Platform HashMapProps Opcode Token Lexer LexerFacts Value Chunk ChunkFacts Object Memory CollectFacts SweepFacts AllocatorFacts GcProps WriteFacts Context ContextFacts Parser ParserFacts Compiler CompilerFacts.
Import Compiler (all_roots).

Section steps.
Context `{PlatformLaws} (src : Datatypes.list ascii) (Hsrc : nul ∉ src).
Implicit Types (w : world) (t : TokenType.t) (n : nat) (s : bool).

Abbreviation C := (M world).
Abbreviation ok := (world_ok src).
Abbreviation good := (good src).
Abbreviation togo w := (prem (parser w)).
Abbreviation here w := (Lexer.current_token_type (Parser.current (parser w))).
Abbreviation before w := (Lexer.deref (previous_ (parser w))).

(** ** The parser *)

Lemma set_parser_id w : Compiler.set_parser w (parser w) = w.
Proof. by destruct w. Qed.

Lemma runs_read {A} (f : Parser -> A) w (Q : A -> world -> Prop) :
  Q (f (parser w)) w -> runs (Compiler.parse (gets f)) w Q.
Proof. intros HQ. unfold Compiler.parse. apply runs_zoom. cbn. by rewrite set_parser_id. Qed.

Lemma runs_peek w (Q : Token -> world -> Prop) :
  Q (Lexer.deref (Parser.current (parser w))) w -> runs (Compiler.parse Parser.peek) w Q.
Proof. exact (runs_read (fun p => Lexer.deref (Parser.current p)) w Q). Qed.
Lemma runs_previous w (Q : Token -> world -> Prop) : Q (before w) w -> runs (Compiler.parse Parser.previous) w Q.
Proof. exact (runs_read (fun p => Lexer.deref (previous_ p)) w Q). Qed.
Lemma runs_check t w (Q : bool -> world -> Prop) : ok w ->
  Q (bool_decide (here w = t)) w -> runs (Compiler.parse (Parser.check t)) w Q.
Proof.
  intros Hok HQ. apply (runs_read (fun p => bool_decide (Token.token_type (Lexer.deref (Parser.current p)) = t))). by rewrite (iter_type _ _ (current_ok _ _ (world_parser _ _ Hok))).
Qed.
Lemma peek_type w : ok w -> Token.token_type (Lexer.deref (Parser.current (parser w))) = here w.
Proof. intros Hok. apply (iter_type src), (world_parser _ _ Hok). Qed.
Lemma before_no_nul w : ok w -> no_nul (Token.lexeme (before w)).
Proof. intros Hok. apply (iter_lexeme src), (world_parser _ _ Hok). Qed.
Lemma left_end w : ok w -> togo w = 0%nat <-> here w = TokenType.END_OF_FILE.
Proof. intros Hok. apply (rem_end src), (world_parser _ _ Hok). Qed.

Lemma runs_parser_Ret {A} (m : M Parser A) w a p' (Q : A -> world -> Prop) :
  m (parser w) = Ret (a, p') -> Q a (Compiler.set_parser w p') -> runs (Compiler.parse m) w Q.
Proof. intros Hm HQ. apply runs_zoom. by eapply runs_Ret. Qed.

Lemma advance_good w : ok w -> runs (Compiler.parse Parser.advance) w (fun _ w' =>
  good 0 w w' /\ previous_ (parser w') = Parser.current (parser w) /\ (togo w' <= pred (togo w))%nat).
Proof using Hsrc.
  intros Hok. destruct (advance_runs src Hsrc (parser w) (world_parser _ _ Hok)) as (p' & Hr & Hp & Hprev & Hl & _).
  eapply runs_parser_Ret; [exact Hr|]. split; [|done]. apply good_parser; [done..|lia].
Qed.

Lemma match_good t w : ok w -> runs (Compiler.parse (Parser.match_token t)) w (fun b w' =>
  if b then good 0 w w' /\ here w = t /\ previous_ (parser w') = Parser.current (parser w) /\
            (togo w' <= pred (togo w))%nat
  else w' = w /\ here w <> t).
Proof using Hsrc.
  intros Hok. destruct (match_token_runs src Hsrc t (parser w) (world_parser _ _ Hok)) as (b & p' & Hr & Hp & Hb).
  eapply runs_parser_Ret; [exact Hr|]. destruct b.
  - destruct Hb as (Ht & Hprev & Hl). split_and!; try done. apply good_parser; [done..|lia].
  - destruct Hb as [-> Ht]. by rewrite set_parser_id.
Qed.

Lemma consume_good t msg w : ok w -> runs (Compiler.parse (Parser.consume t msg)) w (fun _ w' =>
  good 0 w w' /\ (here w = t -> (togo w' <= pred (togo w))%nat) /\ (here w <> t -> here w' = here w)).
Proof using Hsrc.
  intros Hok. destruct (consume_runs src Hsrc t msg (parser w) (world_parser _ _ Hok)) as (p' & Hr & Hp & Hb).
  eapply runs_parser_Ret; [exact Hr|]. case_decide as Ht.
  - destruct Hb as [_ Hl]. split_and!; try done. apply good_parser; [done..|lia].
  - split_and!; try done; [|intros _; cbn; by destruct Hb as (_ & -> & _)].
    apply good_parser; [done..|]. by rewrite (same_window_prem _ _ Hb).
Qed.

Lemma report_good text w : ok w -> runs (Compiler.report_error text) w (fun _ w' =>
  good 0 w w' /\ here w' = here w).
Proof.
  intros Hok. unfold Compiler.report_error, Parser.report_error.
  eapply runs_parser_Ret; [reflexivity|].
  pose proof (report_at_window (Lexer.deref (Parser.current (parser w))) text (parser w)) as Hw.
  split; [|by destruct Hw as (_ & E & _); cbn; rewrite E].
  apply good_parser; [done|by eapply same_window_ok, Hok|by rewrite (same_window_prem _ _ Hw)].
Qed.

Lemma synchronize_good w : ok w -> runs (Compiler.parse Parser.synchronize) w (fun _ w' => good 0 w w').
Proof using Hsrc.
  intros Hok. destruct (synchronize_runs src Hsrc (parser w) (world_parser _ _ Hok)) as (p' & Hr & Hp & Hl & _).
  eapply runs_parser_Ret; [exact Hr|]. by apply good_parser.
Qed.

(** ** The allocator *)

Lemma extends_keeps_cone roots m r m' : extends roots m r m' ->
  keeps_cone (objects m) (root_refs roots m) (objects m').
Proof. intros He x c. apply (ext_keep _ _ _ _ He). Qed.

Lemma intern_good str w : ok w -> no_nul str -> runs (Compiler.intern str) w (fun r w' =>
  good 0 w w' /\ Heap.string (heap_of w') r = Ret (mkString str (Hash.hash_string str)) /\
  closed_at (heap_of w') (Some r) /\ parser w' = parser w).
Proof.
  intros Hok Hn. unfold Compiler.intern, Compiler.allocate. apply runs_zoom. unfold runs, outcome_runs.
  destruct (world_memory _ _ Hok) as [p Hi].
  destruct (intern_outcome (all_roots w) str (memory w) p Hi (world_safe _ _ Hok) Hn (world_live _ _ Hok))
    as [[-> _]|(r & m' & q & -> & Hi' & Hl' & _ & Hr & He)].
  { unfold limit_error. by left. }
  split_and!; [|by apply string_Ret; eexists| |done].
  - eapply good_memory; [done|exact Hi'|done|by eapply ext_roots|by eapply extends_keeps_cone].
  - by eapply leaf_closed.
Qed.

(** ** The current compiler and its function *)

Lemma runs_this w (Q : compiler -> world -> Prop) : ok w ->
  (forall c cs, compilers w = c :: cs -> frame_ok (heap_of w) c -> scope_depth c = depth_of w -> Q c w) ->
  runs Compiler.this w Q.
Proof.
  intros Hok HQ. destruct (this_frame _ _ Hok) as (c & cs & E & Hf & _ & Hd).
  unfold runs, Compiler.this. rewrite E. by eapply HQ.
Qed.

Lemma update_this_good d f w : ok w ->
  (forall c, frame_ok (heap_of w) c -> scope_depth c = depth_of w ->
     frame_ok (heap_of w) (f c) /\ same_frame d c (f c)) ->
  runs (Compiler.update_this f) w (fun _ w' => good d w w' /\ parser w' = parser w).
Proof.
  intros Hok Hf. unfold Compiler.update_this. apply runs_bind, runs_this; [done|].
  intros c cs E Hc Hd. unfold runs, Compiler.set_this. rewrite E. destruct (Hf c Hc Hd) as [Hc' Hsame].
  split; [|done]. eapply good_compilers; [done|exact E| |done|reflexivity].
  constructor; [done|]. pose proof (world_frames _ _ Hok) as Hfs. rewrite E in Hfs. by inversion_clear Hfs.
Qed.

(** The function the current compiler fills. *)
Definition current_fun w r f : Prop :=
  exists c cs, compilers w = c :: cs /\ compiled c = Some r /\ Heap.function (heap_of w) r = Ret f.

Lemma current_fun_unique w r f r' f' : current_fun w r f -> current_fun w r' f' -> r' = r /\ f' = f.
Proof.
  intros (c & cs & E & Ec & Ef) (c' & cs' & E' & Ec' & Ef'). rewrite E in E'. injection E' as <- <-.
  rewrite Ec in Ec'. injection Ec' as <-. rewrite Ef in Ef'. by injection Ef' as <-.
Qed.

Lemma current_fun_code w r f : current_fun w r f -> code_of w = Z.of_nat (length (code (chunk f))).
Proof. intros (c & cs & E & Ec & Ef). unfold code_of, code_length. by rewrite E, Ec, Ef. Qed.

Lemma current_fun_compiled w r f : current_fun w r f -> Some r ∈ compiled <$> compilers w.
Proof. intros (c & cs & E & Ec & Ef). rewrite E. cbn. rewrite Ec. by constructor. Qed.

Lemma runs_this_function w (Q : ref -> world -> Prop) : ok w ->
  (forall r f, current_fun w r f -> Q r w) -> runs Compiler.this_function w Q.
Proof.
  intros Hok HQ. unfold Compiler.this_function. apply runs_bind, runs_this; [done|].
  intros c cs E [(r & f & Ec & Ef) _ _ _ _] _. apply runs_lift. rewrite Ec. apply (HQ r f). by exists c, cs.
Qed.

(** Changing the function that is being compiled. *)
Lemma update_function_good F w : ok w ->
  (forall r f, current_fun w r f ->
     outcome_runs (f' ← F f; Ret (f', tt)) (fun f' _ =>
       (length (code (chunk f)) <= length (code (chunk f')))%nat /\
       forall o, o ∈ children (ObjFunction f') -> o ∈ children (ObjFunction f) \/ closed_at (heap_of w) o)) ->
  runs (Compiler.update_function F) w (fun _ w' => good 0 w w' /\ parser w' = parser w).
Proof.
  intros Hok HF. unfold Compiler.update_function. apply runs_bind, runs_this_function; [done|].
  intros r f Hr. pose proof Hr as (c & cs & E & Ec & Hf). apply runs_bind, runs_get, runs_bind, runs_lift.
  change (objects (memory w)) with (heap_of w). rewrite Hf. cbn [mbind outcome_bind outcome_runs].
  apply runs_bind, runs_lift. specialize (HF r f Hr).
  destruct (F f) as [f'| | |]; cbn [mbind outcome_bind outcome_runs] in *; try done.
  destruct HF as [Hgrow Hch]. apply runs_put. split; [|done].
  eapply good_function; [done|by eapply current_fun_compiled|done..].
Qed.

Lemma update_chunk_good F w : ok w ->
  (forall r f, current_fun w r f ->
     outcome_runs (c' ← F (chunk f); Ret (c', tt)) (fun c' _ =>
       (length (code (chunk f)) <= length (code c'))%nat /\
       forall v, v ∈ value_array c' -> v ∈ value_array (chunk f) \/ closed_at (heap_of w) (value_ref v))) ->
  runs (Compiler.update_chunk F) w (fun _ w' => good 0 w w' /\ parser w' = parser w).
Proof.
  intros Hok HF. apply update_function_good; [done|]. intros r f Hr. specialize (HF r f Hr).
  destruct (F (chunk f)) as [c'| | |]; cbn [mbind outcome_bind outcome_runs] in *; try done.
  destruct HF as [Hgrow Hv]. split; [done|]. cbn. intros o [->|Ho]%elem_of_cons; [left; by left|].
  apply list_elem_of_fmap in Ho as (v & -> & [Hin|Hc]%Hv); [|by right]. left. right. by apply list_elem_of_fmap_2.
Qed.

(** Appending bytes to the chunk. *)
Lemma append_code_good F w : ok w ->
  (forall c, exists c', F c = Ret c' /\ (length (code c) <= length (code c'))%nat /\ value_array c' = value_array c) ->
  runs (Compiler.update_chunk F) w (fun _ w' => good 0 w w' /\ parser w' = parser w).
Proof.
  intros Hok HF. apply update_chunk_good; [done|]. intros r f _. destruct (HF (chunk f)) as (c' & -> & Hl & Hv).
  cbn. split; [done|]. rewrite Hv. by left.
Qed.

Lemma code_simple_op c op line : code (Chunk.write_simple_op c op line) = code c ++ [u8 (OpCode.to_int op)].
Proof. unfold Chunk.write_simple_op, Chunk.push_code. cbn. by rewrite code_add_line. Qed.
Lemma values_simple_op c op line : value_array (Chunk.write_simple_op c op line) = value_array c.
Proof. unfold Chunk.write_simple_op, Chunk.push_code. cbn. by rewrite values_add_line. Qed.
Lemma code_uint16 c b line : length (code (Chunk.write_uint16_le c b line)) = S (S (length (code c))).
Proof.
  unfold Chunk.write_uint16_le. rewrite !code_write_byte, !length_app, code_add_line. cbn. lia.
Qed.
Lemma values_uint16 c b line : value_array (Chunk.write_uint16_le c b line) = value_array c.
Proof. unfold Chunk.write_uint16_le. by rewrite !values_write_byte, values_add_line. Qed.

Lemma with_line (F : Z -> C unit) w (Q : unit -> world -> Prop) :
  (forall line, runs (F line) w Q) -> runs (line ← Compiler.previous_line; F line) w Q.
Proof. intros HF. unfold Compiler.previous_line. apply runs_bind, runs_bind, runs_previous. apply HF. Qed.

Lemma emit_opcode_good op w : ok w ->
  runs (Compiler.emit_opcode op) w (fun _ w' => good 0 w w' /\ parser w' = parser w).
Proof.
  intros Hok. apply with_line. intros line. apply append_code_good; [done|]. intros c. eexists. split; [done|].
  rewrite code_simple_op, values_simple_op, length_app. split; [cbn; lia|done].
Qed.

Lemma emit_byte_good b w : ok w ->
  runs (Compiler.emit_byte b) w (fun _ w' => good 0 w w' /\ parser w' = parser w).
Proof.
  intros Hok. apply with_line. intros line. apply append_code_good; [done|]. intros c. eexists. split; [done|].
  rewrite code_write_byte, values_write_byte, length_app. split; [cbn; lia|done].
Qed.

Lemma emit_uint16_good b w : ok w ->
  runs (Compiler.emit_uint16_le b) w (fun _ w' => good 0 w w' /\ parser w' = parser w).
Proof.
  intros Hok. apply with_line. intros line. apply append_code_good; [done|]. intros c. eexists. split; [done|].
  rewrite code_uint16, values_uint16. split; [lia|done].
Qed.

(** ** Constants and jumps *)

Lemma runs_get_chunk w (Q : Chunk -> world -> Prop) : ok w ->
  (forall r f, current_fun w r f -> Q (chunk f) w) -> runs Compiler.get_chunk w Q.
Proof.
  intros Hok HQ. unfold Compiler.get_chunk. apply runs_bind, runs_this_function; [done|]. intros r f Hr.
  apply runs_bind, runs_get, runs_bind, runs_lift. destruct Hr as (c & cs & E & Ec & Hf).
  change (objects (memory w)) with (heap_of w). rewrite Hf. apply runs_ret, (HQ r). by exists c, cs.
Qed.

Lemma add_constant_good v w : ok w -> closed_at (heap_of w) (value_ref v) ->
  runs (Compiler.add_constant v) w (fun i w' => good 0 w w' /\ parser w' = parser w /\ 0 <= i <= 0xFFFF).
Proof.
  intros Hok Hv. unfold Compiler.add_constant. apply runs_bind, runs_get_chunk; [done|].
  intros r f Hr. apply runs_bind, runs_lift. unfold Chunk.add_constant.
  destruct (Z.ltb_spec 0xFFFF (Z.of_nat (length (value_array (chunk f))))) as [|Hsz].
  { unfold limit_error. cbn. right; left. }
  cbn [mbind outcome_bind outcome_runs]. rewrite length_app. cbn [length].
  eapply runs_step.
  - apply update_chunk_good; [done|]. intros r1 f1 Hr1.
    destruct (current_fun_unique _ _ _ _ _ Hr Hr1) as [-> ->]. cbn. split; [done|].
    intros v' [?|Hv']%elem_of_app; [by left|]. apply list_elem_of_singleton in Hv' as ->. by right.
  - intros [] w' [G Hp]. apply runs_ret. split_and!; [done|done|lia..].
Qed.

Lemma write_load_constant_good i line w : ok w -> 0 <= i <= 0xFFFF ->
  runs (Compiler.write_load_constant i line) w (fun _ w' => good 0 w w' /\ parser w' = parser w).
Proof.
  intros Hok Hi. apply append_code_good; [done|]. intros c. unfold Chunk.write_load_constant.
  rewrite (proj2 (Z.ltb_ge _ _)) by lia. destruct (i <=? 0xFF); [|rewrite (proj2 (Z.leb_le _ _)) by lia];
    eexists; (split; [reflexivity|]).
  - rewrite code_write_byte, values_write_byte, code_simple_op, values_simple_op, !length_app.
    split; [lia|done].
  - rewrite code_uint16, values_uint16, code_simple_op, values_simple_op, length_app. split; [lia|done].
Qed.

(** A jump whose operand is inside the code, unless the [int] that counts its bytes has wrapped. *)
Definition jump_target (off : Z) w : Prop := off + 2 <= code_of w /\ int_index off (code_of w).

Lemma jump_target_good d off w w' : good d w w' -> jump_target off w -> jump_target off w'.
Proof.
  intros G [Ho Hi]. pose proof (good_code_of _ _ _ _ G). split; [lia|]. by eapply int_index_mono.
Qed.

Lemma jump_target_next off w : jump_target off w -> int_index (off + 1) (code_of w).
Proof. unfold jump_target, int_index. lia. Qed.

Lemma runs_code_size w (Q : Z -> world -> Prop) : ok w ->
  Q (i32 (code_of w)) w -> runs Compiler.code_size w Q.
Proof.
  intros Hok HQ. unfold Compiler.code_size. apply runs_bind, runs_get_chunk; [done|]. intros r f Hr.
  apply runs_ret. by rewrite (current_fun_code _ _ _ Hr) in HQ.
Qed.

(** The code is at least two bytes long after two bytes were emitted. *)
Lemma update_chunk_size F k w w' :
  (forall c c', F c = Ret c' -> k <= Chunk.size c') -> Compiler.update_chunk F w = Ret (tt, w') -> k <= code_of w'.
Proof.
  intros HF. unfold Compiler.update_chunk, Compiler.update_function, Compiler.this_function, Compiler.this, mbind, M_bind, lift.
  destruct w as [m ctx p [|c cs] v]; [done|]. cbn. destruct (compiled c) as [r|] eqn:Ec; [|done]. cbn.
  destruct (Heap.function (objects m) r) as [f| | |] eqn:Ef; try done. cbn.
  destruct (F (chunk f)) as [ch| | |] eqn:E; try done. cbn. intros [= <-].
  unfold code_of, code_length. cbn. rewrite Ec. unfold heap_of. cbn. fold (write_function (objects m) r (Compiler.with_chunk f ch)).
  rewrite (write_function_same (objects m) r f _ Ef). exact (HF _ _ E).
Qed.

Lemma emit_uint16_size b w w' : Compiler.emit_uint16_le b w = Ret (tt, w') -> 2 <= code_of w'.
Proof.
  unfold Compiler.emit_uint16_le, Compiler.previous_line. cbn. apply update_chunk_size.
  intros c c' [= <-]. unfold Chunk.size. rewrite code_uint16. lia.
Qed.

Lemma runs_result {A} (m : C A) w (Q R : A -> world -> Prop) :
  (forall a w', m w = Ret (a, w') -> R a w') -> runs m w Q -> runs m w (fun a w' => Q a w' /\ R a w').
Proof. unfold runs, outcome_runs. destruct (m w) as [[a w']| | |]; auto. Qed.

Lemma emit_jump_good op w : ok w -> runs (Compiler.emit_jump op) w (fun off w' =>
  good 0 w w' /\ parser w' = parser w /\ jump_target off w').
Proof.
  intros Hok. unfold Compiler.emit_jump. eapply runs_step; [by apply emit_opcode_good|].
  intros [] w1 [G1 P1]. eapply runs_step.
  { apply runs_result with (R := fun _ w' => 2 <= code_of w'); [intros []; apply emit_uint16_size|].
    apply emit_uint16_good, G1. }
  intros [] w2 [[G2 P2] Hsize]. apply runs_bind, runs_code_size; [apply G2|]. apply runs_ret.
  split_and!; [by eapply good_trans0|congruence|].
  pose proof (i32_le (code_of w2)). pose proof (i32_wraps (code_of w2)). unfold jump_target, int_index. lia.
Qed.

Lemma error_if_good b text w : ok w -> runs (Compiler.error_if b text) w (fun _ w' =>
  good 0 w w' /\ here w' = here w).
Proof. intros Hok. destruct b; [by apply report_good|]. apply runs_ret. by split; [apply good_refl|]. Qed.

Lemma store_code_good off b w : ok w -> int_index off (code_of w) ->
  runs (Compiler.update_chunk (Compiler.store_code off b)) w (fun _ w' => good 0 w w' /\ parser w' = parser w).
Proof.
  intros Hok Hoff. apply update_chunk_good; [done|]. intros r f Hr. rewrite (current_fun_code _ _ _ Hr) in Hoff.
  unfold Compiler.store_code. destruct (Z.ltb_spec off 0); [by apply (int_index_negative _ _ Hoff)|].
  destruct Hoff as [Hoff _].
  rewrite (proj2 (Z.ltb_lt _ _)) by done. cbn. rewrite length_insert. split; [done|]. intros v ?. by left.
Qed.

Lemma patch_jump_good off w : ok w -> jump_target off w ->
  runs (Compiler.patch_jump off) w (fun _ w' => good 0 w w' /\ here w' = here w).
Proof.
  intros Hok Hoff. unfold Compiler.patch_jump. apply runs_bind, runs_code_size; [done|].
  eapply runs_step; [by apply error_if_good|]. intros [] w1 [G1 P1]. apply (jump_target_good _ _ _ _ G1) in Hoff.
  eapply runs_step; [apply store_code_good; [apply G1|apply Hoff]|]. intros [] w2 [G2 P2].
  apply (jump_target_good _ _ _ _ G2) in Hoff.
  eapply runs_mono; [apply store_code_good; [apply G2|by apply jump_target_next]|]. intros [] w3 [G3 P3].
  split; [|congruence]. eapply good_trans0; [exact G1|]. by eapply good_trans0.
Qed.

Lemma emit_jump_back_good loc w : ok w ->
  runs (Compiler.emit_jump_back loc) w (fun _ w' => good 0 w w' /\ here w' = here w).
Proof.
  intros Hok. unfold Compiler.emit_jump_back. eapply runs_step; [by apply emit_opcode_good|].
  intros [] w1 [G1 P1]. apply runs_bind, runs_code_size; [apply G1|].
  eapply runs_step; [apply error_if_good, G1|]. intros [] w2 [G2 P2].
  eapply runs_mono; [apply emit_uint16_good, G2|]. intros [] w3 [G3 P3].
  split; [|congruence]. eapply good_trans0; [exact G1|]. by eapply good_trans0.
Qed.

End steps.
