(* ===== verification/CompilerRules.v ===== *)
(** * Composing steps of the compiler

    [walks s n m]: run with at most [n] tokens to come, [m] keeps the
    invariant, stays in its scope, ends, and consumes a token if [s] and there
    is one.  The rules below compose such steps; then scopes, variables and
    captured variables. *)

From S2P Require Import Prelude Double HashMap HashMapFacts Hash Platform HashMapProps Opcode Token Lexer LexerFacts Value Chunk Object Memory CollectFacts SweepFacts AllocatorFacts GcProps WriteFacts Context ContextFacts Parser ParserFacts Compiler CompilerFacts CompilerSteps.
Import Compiler (all_roots).

Create HintDb walks.

Section rules.
Context `{PlatformLaws} (src : Datatypes.list ascii) (Hsrc : nul ∉ src).
Implicit Types (w : world) (t : TokenType.t) (n : nat) (s : bool).

Abbreviation C := (M world).
Abbreviation ok := (world_ok src).
Abbreviation good := (good src).
Abbreviation togo w := (prem (parser w)).
Abbreviation here w := (Lexer.current_token_type (Parser.current (parser w))).
Abbreviation before w := (Lexer.deref (previous_ (parser w))).

Definition walks s n {A} (m : C A) : Prop := forall w, ok w -> (togo w <= n)%nat ->
  runs m w (fun _ w' => good 0 w w' /\ (s = true -> (togo w' < togo w)%nat \/ togo w = 0%nat)).

Lemma walks_good {A} n (m : C A) : (forall w, ok w -> runs m w (fun _ w' => good 0 w w')) -> walks false n m.
Proof. intros Hm w Hok _. eapply runs_mono; [by apply Hm|]. by intros a w' G. Qed.

Lemma walks_good_and {A} n (m : C A) (R : world -> A -> world -> Prop) :
  (forall w, ok w -> runs m w (fun a w' => good 0 w w' /\ R w a w')) -> walks false n m.
Proof. intros Hm. apply walks_good. intros w Hok. eapply runs_mono; [by apply Hm|]. by intros a w' [G _]. Qed.

Lemma walks_weaken {A} s n (m : C A) : walks true n m -> walks s n m.
Proof. intros Hm w Hok Hn. eapply runs_mono; [by apply Hm|]. intros a w' [G Hs]. split; [done|]. auto. Qed.

Lemma walks_fewer {A} s n n' (m : C A) : walks s n m -> (n' <= n)%nat -> walks s n' m.
Proof. intros Hm Hle w Hok Hn. apply Hm; [done|lia]. Qed.

Lemma walks_ret {A} n (a : A) : walks false n (mret a).
Proof. apply walks_good. intros w Hok. by apply runs_ret, good_refl. Qed.

Lemma walks_bind {A B} s n (m : C A) (f : A -> C B) :
  walks false n m -> (forall a, walks s n (f a)) -> walks s n (m ≫= f).
Proof.
  intros Hm Hf w Hok Hn. eapply runs_step; [by apply Hm|]. intros a w1 [G1 _].
  pose proof (good_rem _ _ _ _ G1). eapply runs_mono; [apply Hf; [apply G1|lia]|]. intros b w2 [G2 Hs].
  split; [by eapply good_trans0|]. intros [?|E]%Hs; [left; lia|].
  pose proof (good_rem _ _ _ _ G2). lia.
Qed.

Lemma walks_strict {A B} s n (m : C A) (f : A -> C B) :
  walks s n m -> (forall a, walks false n (f a)) -> walks s n (m ≫= f).
Proof.
  intros Hm Hf w Hok Hn. eapply runs_step; [by apply Hm|]. intros a w1 [G1 Hs].
  pose proof (good_rem _ _ _ _ G1). eapply runs_mono; [apply Hf; [apply G1|lia]|]. intros b w2 [G2 _].
  split; [by eapply good_trans0|]. pose proof (good_rem _ _ _ _ G2). intros [?|?]%Hs; [left; lia|by right].
Qed.

(** Reading the state. *)
Lemma walks_previous {B} s n (f : Token -> C B) :
  (forall tok, no_nul (Token.lexeme tok) -> walks s n (f tok)) -> walks s n (Compiler.parse Parser.previous ≫= f).
Proof. intros Hf w Hok Hn. apply runs_bind, runs_previous. apply Hf; [by eapply before_no_nul|done..]. Qed.

Lemma walks_this {B} s n (f : compiler -> C B) :
  (forall c, walks s n (f c)) -> walks s n (Compiler.this ≫= f).
Proof. intros Hf w Hok Hn. apply runs_bind, (runs_this src); [done|]. intros c cs _ _ _. by apply Hf. Qed.

Lemma walks_peek {B} s n (f : Token -> C B) :
  (forall tok, walks s n (f tok)) -> walks s n (Compiler.parse Parser.peek ≫= f).
Proof. intros Hf w Hok Hn. apply runs_bind, runs_peek. by apply Hf. Qed.

Lemma walks_check {B} s n t (f : bool -> C B) :
  (forall b, walks s n (f b)) -> walks s n (Compiler.parse (Parser.check t) ≫= f).
Proof. intros Hf w Hok Hn. apply runs_bind, (runs_check src); [done|]. by apply Hf. Qed.

Lemma walks_line {B} s n (f : Z -> C B) :
  (forall line, walks s n (f line)) -> walks s n (Compiler.previous_line ≫= f).
Proof.
  intros Hf w Hok Hn. unfold Compiler.previous_line. apply runs_bind, runs_bind, runs_previous, runs_ret. by apply Hf.
Qed.

(** Consuming tokens. *)
Lemma walks_advance n : walks true n (Compiler.parse Parser.advance).
Proof using Hsrc.
  intros w Hok Hn. eapply runs_mono; [by apply advance_good|]. intros _ w' (G & _ & Hl). split; [done|]. lia.
Qed.

Lemma walks_consume n t msg : walks false n (Compiler.parse (Parser.consume t msg)).
Proof using Hsrc. by eapply walks_good_and; intros; apply consume_good. Qed.

Lemma matched_left w t : ok w -> here w = t -> t <> TokenType.END_OF_FILE -> (0 < togo w)%nat.
Proof.
  intros Hok Ht Hne. destruct (decide (togo w = 0%nat)) as [E|]; [|lia].
  apply (left_end src) in E; congruence.
Qed.

(** After a token was matched there is one less. *)
Lemma walks_match {B} s n t (f : bool -> C B) : t <> TokenType.END_OF_FILE ->
  (forall n', n = S n' -> walks false n' (f true)) -> walks s n (f false) ->
  walks s n (Compiler.parse (Parser.match_token t) ≫= f).
Proof using Hsrc.
  intros Ht Htrue Hfalse w Hok Hn. eapply runs_step; [by apply match_good|].
  intros [] w1; [intros (G1 & Hh & _ & Hl)|intros [-> _]; by apply Hfalse].
  pose proof (matched_left _ _ Hok Hh Ht). destruct n as [|n']; [lia|].
  eapply runs_mono; [apply (Htrue n'); [done|apply G1|lia]|]. intros b w2 [G2 _].
  split; [by eapply good_trans0|]. pose proof (good_rem _ _ _ _ G2). intros _. left. lia.
Qed.

Lemma walks_match_any n t : walks false n (Compiler.parse (Parser.match_token t)).
Proof using Hsrc.
  apply walks_good. intros w Hok. eapply runs_mono; [by apply match_good|].
  intros [] w' Hb; [by destruct Hb|]. destruct Hb as [-> _]. by apply good_refl.
Qed.

Lemma walks_report n text : walks false n (Compiler.report_error text).
Proof. by eapply walks_good_and; intros; apply report_good. Qed.
Lemma walks_error_if n b text : walks false n (Compiler.error_if b text).
Proof. by eapply walks_good_and; intros; apply error_if_good. Qed.
Lemma walks_synchronize n : walks false n (Compiler.parse Parser.synchronize).
Proof using Hsrc. apply walks_good. by apply synchronize_good. Qed.

Lemma walks_emit_opcode n op : walks false n (Compiler.emit_opcode op).
Proof. by eapply walks_good_and; intros; apply emit_opcode_good. Qed.
Lemma walks_emit_byte n b : walks false n (Compiler.emit_byte b).
Proof. by eapply walks_good_and; intros; apply emit_byte_good. Qed.
Lemma walks_emit_uint16 n b : walks false n (Compiler.emit_uint16_le b).
Proof. by eapply walks_good_and; intros; apply emit_uint16_good. Qed.
Lemma walks_emit_jump_back n loc : walks false n (Compiler.emit_jump_back loc).
Proof. by eapply walks_good_and; intros; apply emit_jump_back_good. Qed.

Lemma walks_code_size {B} s n (f : Z -> C B) :
  (forall z, walks s n (f z)) -> walks s n (Compiler.code_size ≫= f).
Proof. intros Hf w Hok Hn. apply runs_bind, (runs_code_size src); [done|]. by apply Hf. Qed.

(** Interning a name and making it a constant. *)
Lemma walks_name {B} s n str (f : Z -> C B) : no_nul str ->
  (forall i, walks s n (f i)) ->
  walks s n (r ← Compiler.intern str; i ← Compiler.add_constant (Value.of_object r); f i).
Proof.
  intros Hs Hf w Hok Hn. eapply runs_step; [by apply intern_good|]. intros r w1 (G1 & _ & Hc & E1).
  eapply runs_step; [apply add_constant_good; [apply G1|done]|]. intros i w2 (G2 & E2 & _).
  eapply runs_mono; [apply Hf; [apply G2|by rewrite E2, E1]|]. intros b w3 [G3 Hw3].
  rewrite E2, E1 in Hw3. split; [|done]. eapply good_trans0; [done|]. by eapply good_trans0.
Qed.

(** Loops: the fuel is enough when every round consumes a token. *)
Lemma loop_fuel_runs w (Q : nat -> world -> Prop) : ok w ->
  (forall fuel, (togo w <= fuel)%nat -> Q fuel w) -> runs Compiler.loop_fuel w Q.
Proof.
  intros Hok HQ. unfold Compiler.loop_fuel. apply runs_bind, runs_get, runs_ret, HQ.
  unfold prem, rem, Lexer.remaining, Lexer.size. case_decide; lia.
Qed.

Lemma while_runs (Pc Pf : world -> Prop) (cond : C bool) (body : C unit) n :
  (forall w, ok w -> runs cond w (fun b w' =>
     if b then w' = w /\ (0 < togo w)%nat /\ Pc w else good 0 w w' /\ Pf w')) ->
  (forall w, ok w -> (togo w <= n)%nat -> Pc w -> runs body w (fun _ w' =>
     good 0 w w' /\ ((togo w' < togo w)%nat \/ togo w = 0%nat))) ->
  forall fuel w, ok w -> (togo w <= n)%nat -> (togo w <= fuel)%nat ->
  runs (while_M fuel cond body) w (fun _ w' => good 0 w w' /\ Pf w').
Proof.
  intros Hcond Hbody. induction fuel as [|fuel IH]; intros w Hok Hn Hf; cbn [while_M];
    (eapply runs_step; [by apply Hcond|]); (intros [] w0; [|by intros G; apply runs_ret]);
    intros (-> & Hb & Hp); [lia|].
  eapply runs_step; [by apply Hbody|]. intros [] w1 [G1 [Hs|?]]; [|lia].
  eapply runs_mono; [apply IH; [apply G1|lia..]|]. intros a w2 [G2 HP].
  split; [exact (good_trans0 _ _ _ _ _ G1 G2)|done].
Qed.

Lemma loop_runs {A} (I : A -> world -> Prop) (body : A -> C (A * bool)) n :
  (forall a w, ok w -> I a w -> (togo w <= n)%nat -> runs (body a) w (fun r w' =>
     good 0 w w' /\ I r.1 w' /\ (r.2 = true -> (togo w' < togo w)%nat))) ->
  forall fuel a w, ok w -> I a w -> (togo w <= n)%nat -> (togo w <= fuel)%nat ->
  runs (loop_M fuel body a) w (fun a' w' => good 0 w w' /\ I a' w').
Proof.
  intros Hbody. induction fuel as [|fuel IH]; intros a w Hok Ha Hn Hf; cbn [loop_M];
    (eapply runs_step; [by apply Hbody|]); intros [a1 b] w1 (G1 & Ha1 & Hs); cbn in Ha1, Hs;
    (destruct b; [|by apply runs_ret]); specialize (Hs eq_refl); [lia|].
  eapply runs_mono; [apply IH; [apply G1|done|lia..]|]. intros a2 w2 [G2 Ha2].
  split; [by eapply good_trans0|done].
Qed.

(** A loop without an invariant of its own. *)
Lemma walks_loop {A B} n (body : A -> C (A * bool)) (a : A) (f : A -> C B) :
  (forall a w, ok w -> (togo w <= n)%nat -> runs (body a) w (fun r w' =>
     good 0 w w' /\ (r.2 = true -> (togo w' < togo w)%nat))) ->
  (forall a, walks false n (f a)) ->
  walks false n (fuel ← Compiler.loop_fuel; r ← loop_M fuel body a; f r).
Proof.
  intros Hbody Hf w Hok Hn. apply runs_bind, loop_fuel_runs; [done|]. intros fuel Hfuel.
  eapply runs_step.
  { apply (loop_runs (fun _ _ => True)) with (n := n); try done.
    intros a1 w1 Hok1 _ Hn1. eapply runs_mono; [by apply Hbody|]. naive_solver. }
  intros a1 w1 [G1 _]. pose proof (good_rem _ _ _ _ G1).
  eapply runs_mono; [apply Hf; [apply G1|lia]|]. intros b w2 [G2 _]. by split; [eapply good_trans0|].
Qed.

(** *** Bodies of loops: going on means that a token was consumed *)

Definition rounds n {A} (m : C (A * bool)) : Prop := forall w, ok w -> (togo w <= n)%nat ->
  runs m w (fun r w' => good 0 w w' /\ (r.2 = true -> (togo w' < togo w)%nat)).

Lemma rounds_bind {A B} n (m : C A) (f : A -> C (B * bool)) :
  walks false n m -> (forall a, rounds n (f a)) -> rounds n (m ≫= f).
Proof.
  intros Hm Hf w Hok Hn. eapply runs_step; [by apply Hm|]. intros a w1 [G1 _].
  pose proof (good_rem _ _ _ _ G1). eapply runs_mono; [apply Hf; [apply G1|lia]|]. intros r w2 [G2 Hs].
  split; [by eapply good_trans0|]. intros Hr%Hs. lia.
Qed.

Lemma rounds_stop {A} n (a : A) : rounds n (mret (a, false)).
Proof. intros w Hok Hn. apply runs_ret. by split; [apply good_refl|]. Qed.

Lemma rounds_match {A} n t (f : bool -> C (A * bool)) : t <> TokenType.END_OF_FILE ->
  walks false n (f true) -> rounds n (f false) -> rounds n (Compiler.parse (Parser.match_token t) ≫= f).
Proof using Hsrc.
  intros Ht Htrue Hfalse w Hok Hn. eapply runs_step; [by apply match_good|].
  intros [] w1; [intros (G1 & Hh & _ & Hl)|intros [-> _]; by apply Hfalse].
  pose proof (matched_left _ _ Hok Hh Ht).
  eapply runs_mono; [apply Htrue; [apply G1|lia]|]. intros b w2 [G2 _].
  split; [by eapply good_trans0|]. pose proof (good_rem _ _ _ _ G2). intros _. lia.
Qed.

Lemma rounds_loop {A B} n (body : A -> C (A * bool)) (a : A) (f : A -> C B) :
  (forall a, rounds n (body a)) -> (forall a, walks false n (f a)) ->
  walks false n (fuel ← Compiler.loop_fuel; r ← loop_M fuel body a; f r).
Proof. intros Hb Hf. apply walks_loop; [|done]. intros a1 w Hok Hn. by apply Hb. Qed.

Lemma rounds_loop_last {A} n (body : A -> C (A * bool)) (a : A) :
  (forall a, rounds n (body a)) -> walks false n (fuel ← Compiler.loop_fuel; loop_M fuel body a).
Proof.
  intros Hb w Hok Hn. pose proof (rounds_loop n body a mret Hb (walks_ret n) w Hok Hn) as Hr.
  unfold runs, mbind, M_bind, mret, M_ret in *. destruct (Compiler.loop_fuel w) as [[fuel w1]| | |]; [|done..].
  by destruct (loop_M fuel body a w1) as [[r w2]| | |].
Qed.

(** *** Paths: steps that rely on facts found on the way *)

(** A jump to patch is inside the code; a variable that was parsed has a slot. *)
Inductive fact : Set := Offset (off : Z) | Index (i : Z).

Definition holds w (f : fact) : Prop :=
  match f with Offset off => jump_target off w | Index i => index_ok i w end.

Definition nothing {A} (_ : A) w : Prop := True.

(** [path d facts n Q m]: where the [facts] hold, [m] ends [d] scopes deeper with [Q]. *)
Definition path (d : Z) (facts : Datatypes.list fact) n {A} (Q : A -> world -> Prop) (m : C A) : Prop :=
  forall w, ok w -> (togo w <= n)%nat -> 0 <= depth_of w + d -> Forall (holds w) facts ->
  runs m w (fun a w' => good d w w' /\ Q a w').

Lemma holds_later w w' facts : good 0 w w' -> Forall (holds w) facts -> Forall (holds w') facts.
Proof.
  intros G Hf. eapply Forall_impl; [exact Hf|]. intros [off|i]; cbn; [by apply (jump_target_good src 0)|by apply index_ok_good with (src := src)].
Qed.

Lemma path_walks {A} facts n (m : C A) : walks false n m -> path 0 facts n nothing m.
Proof. intros Hm w Hok Hn _ _. eapply runs_mono; [by apply Hm|]. by intros a w' [G _]. Qed.

Lemma walks_path {A} n (m : C A) : path 0 [] n nothing m -> walks false n m.
Proof.
  intros Hm w Hok Hn. destruct (this_frame _ _ Hok) as (c & cs & _ & Hf & _ & Hd).
  eapply runs_mono; [apply Hm; [done|done|pose proof (frame_scope _ _ Hf); lia|done]|]. by intros a w' [G _].
Qed.

Lemma path_then {A B} d facts n w w1 (Q : B -> world -> Prop) (f : A -> C B) a : good 0 w w1 ->
  0 <= depth_of w + d -> Forall (holds w) facts -> (togo w <= n)%nat -> path d facts n Q (f a) ->
  runs (f a) w1 (fun b w' => good d w w' /\ Q b w').
Proof.
  intros G1 Hd Hf Hn Hp. pose proof (good_rem _ _ _ _ G1). pose proof (good_depth _ _ _ _ G1).
  eapply runs_mono; [apply Hp; [apply G1|lia|lia|by eapply holds_later]|].
  intros b w2 [G2 HQ]. split; [|done]. exact (good_trans0 _ _ _ _ _ G1 G2).
Qed.

Lemma path_bind {A B} d facts n (Q : B -> world -> Prop) (m : C A) (f : A -> C B) :
  path 0 facts n nothing m -> (forall a, path d facts n Q (f a)) -> path d facts n Q (m ≫= f).
Proof.
  intros Hm Hf w Hok Hn Hd Ho. destruct (this_frame _ _ Hok) as (c & cs & _ & Hfr & _ & Hdc).
  pose proof (frame_scope _ _ Hfr).
  eapply runs_step; [apply Hm; [done|done|lia|done]|]. intros a w1 [G1 _]. by eapply path_then.
Qed.

Lemma path_ret {A} facts n (Q : A -> world -> Prop) (a : A) :
  (forall w, Forall (holds w) facts -> Q a w) -> path 0 facts n Q (mret a).
Proof. intros HQ w Hok Hn _ Ho. apply runs_ret. split; [by apply good_refl|by apply HQ]. Qed.

Lemma path_this {B} d facts n (Q : B -> world -> Prop) (f : compiler -> C B) :
  (forall c, path d facts n Q (f c)) -> path d facts n Q (Compiler.this ≫= f).
Proof. intros Hf w Hok Hn Hd Ho. apply runs_bind, (runs_this src); [done|]. intros c cs _ _ _. by apply Hf. Qed.

Lemma path_code_size {B} d facts n (Q : B -> world -> Prop) (f : Z -> C B) :
  (forall z, path d facts n Q (f z)) -> path d facts n Q (Compiler.code_size ≫= f).
Proof. intros Hf w Hok Hn Hd Ho. apply runs_bind, (runs_code_size src); [done|]. by apply Hf. Qed.

Lemma path_previous {B} d facts n (Q : B -> world -> Prop) (f : Token -> C B) :
  (forall tok, no_nul (Token.lexeme tok) -> path d facts n Q (f tok)) ->
  path d facts n Q (Compiler.parse Parser.previous ≫= f).
Proof. intros Hf w Hok Hn Hd Ho. apply runs_bind, runs_previous. by apply Hf; [eapply before_no_nul|..]. Qed.

Lemma path_peek {B} d facts n (Q : B -> world -> Prop) (f : Token -> C B) :
  (forall tok, path d facts n Q (f tok)) -> path d facts n Q (Compiler.parse Parser.peek ≫= f).
Proof. intros Hf w Hok Hn Hd Ho. apply runs_bind, runs_peek. by apply Hf. Qed.

Lemma path_line {B} d facts n (Q : B -> world -> Prop) (f : Z -> C B) :
  (forall line, path d facts n Q (f line)) -> path d facts n Q (Compiler.previous_line ≫= f).
Proof.
  intros Hf w Hok Hn Hd Ho. unfold Compiler.previous_line. apply runs_bind, runs_bind, runs_previous, runs_ret.
  by apply Hf.
Qed.

Lemma path_name {B} d facts n (Q : B -> world -> Prop) str (f : Z -> C B) : no_nul str ->
  (forall i, path d facts n Q (f i)) ->
  path d facts n Q (r ← Compiler.intern str; i ← Compiler.add_constant (Value.of_object r); f i).
Proof.
  intros Hs Hf w Hok Hn Hd Ho. eapply runs_step; [by apply intern_good|]. intros r w1 (G1 & _ & Hc & E1).
  eapply runs_step; [apply add_constant_good; [apply G1|done]|]. intros i w2 (G2 & E2 & _).
  eapply path_then; [exact (good_trans0 _ _ _ _ _ G1 G2)|done..].
Qed.

(** Jumps. *)
Lemma path_emit {B} d facts n (Q : B -> world -> Prop) op (f : Z -> C B) :
  (forall off, path d (Offset off :: facts) n Q (f off)) -> path d facts n Q (Compiler.emit_jump op ≫= f).
Proof.
  intros Hf w Hok Hn Hd Ho. eapply runs_step; [by apply emit_jump_good|]. intros off w1 (G1 & P1 & Hoff).
  pose proof (good_depth _ _ _ _ G1). eapply runs_mono; [apply Hf; [apply G1|by rewrite P1|lia|]|].
  - constructor; [done|]. by eapply holds_later.
  - intros b w2 [G2 HQ]. split; [exact (good_trans0 _ _ _ _ _ G1 G2)|done].
Qed.

Lemma path_patch facts n off : Offset off ∈ facts -> path 0 facts n nothing (Compiler.patch_jump off).
Proof.
  intros Hin w Hok Hn _ Ho. rewrite Forall_forall in Ho.
  eapply runs_mono; [apply patch_jump_good; [done|by apply (Ho (Offset off))]|]. by intros [] w' [G _].
Qed.

(** A jump that may be missing: its offset is then -1. *)
Definition maybe_jump (off : Z) w : Prop := off = -1 \/ jump_target off w.

Lemma path_offset {B} d facts n (Q : B -> world -> Prop) (m : C Z) (f : Z -> C B) :
  path 0 facts n maybe_jump m -> path d facts n Q (f (-1)) ->
  (forall off, path d (Offset off :: facts) n Q (f off)) -> path d facts n Q (m ≫= f).
Proof.
  intros Hm Hnone Hf w Hok Hn Hd Ho. destruct (this_frame _ _ Hok) as (c & cs & _ & Hfr & _ & Hdc).
  pose proof (frame_scope _ _ Hfr). eapply runs_step; [apply Hm; [done|done|lia|done]|].
  intros off w1 [G1 [->|Hoff]]; [by eapply path_then|].
  pose proof (good_depth _ _ _ _ G1). pose proof (good_rem _ _ _ _ G1).
  eapply runs_mono; [apply Hf; [apply G1|lia|lia|]|].
  - constructor; [done|]. by eapply holds_later.
  - intros b w2 [G2 HQ]. split; [exact (good_trans0 _ _ _ _ _ G1 G2)|done].
Qed.

Lemma path_emit_last facts n (Q : Z -> world -> Prop) op :
  (forall off w, jump_target off w -> Q off w) -> path 0 facts n Q (Compiler.emit_jump op).
Proof.
  intros HQ w Hok Hn _ _. eapply runs_mono; [by apply emit_jump_good|]. intros off w1 (G1 & _ & Hoff).
  split; [done|by apply HQ].
Qed.

Lemma walks_for_each {A} n (f : A -> C unit) (l : Datatypes.list A) :
  (forall a, walks false n (f a)) -> walks false n (for_each f l).
Proof. intros Hf. induction l as [|a l IH]; [apply walks_ret|]. cbn. by apply walks_bind. Qed.

Lemma path_for_each {A} facts n (f : A -> C unit) (l : Datatypes.list A) :
  (forall a, a ∈ l -> path 0 facts n nothing (f a)) -> path 0 facts n nothing (for_each f l).
Proof.
  induction l as [|a l IH]; intros Hf; [apply path_walks, walks_ret|].
  cbn. apply path_bind; [apply Hf; by left|]. intros []. apply IH. intros b Hb. apply Hf. by right.
Qed.

End rules.
