(* ===== verification/CompilerScopes.v ===== *)
(** * Scopes, variables and captured variables of the compiler *)

From S2P Require Import Prelude Double HashMap HashMapFacts Hash Platform HashMapProps Opcode Token Lexer LexerFacts Value Chunk Object Memory CollectFacts SweepFacts AllocatorFacts GcProps WriteFacts Context ContextFacts Parser ParserFacts Compiler CompilerFacts CompilerSteps CompilerRules.
Import Compiler (all_roots).

Section scopes.
Context `{PlatformLaws} (src : Datatypes.list ascii) (Hsrc : nul ∉ src).
Implicit Types (w : world) (t : TokenType.t) (n : nat) (s : bool) (h : heap) (c : compiler).

Abbreviation C := (M world).
Abbreviation ok := (world_ok src).
Abbreviation good := (good src).
Abbreviation walks := (walks src).
Abbreviation togo w := (prem (parser w)).
Abbreviation here w := (Lexer.current_token_type (Parser.current (parser w))).

(** ** Locals *)

Lemma begin_scope_good w : ok w ->
  runs Compiler.begin_scope w (fun _ w' => good 1 w w' /\ parser w' = parser w).
Proof.
  intros Hok. apply update_this_good; [done|]. intros c [Hf Hl Hn Hs Hm] _. split; [|by constructor].
  constructor; cbn; try done. lia.
Qed.

Lemma add_local_frame h c tok b : no_nul (Token.lexeme tok) -> frame_ok h c ->
  frame_ok h (Compiler.with_locals c (locals c ++ [mkLocal tok (scope_depth c) true b false])).
Proof.
  intros Hn [Hf (l & ls & El & Hd) Hns Hs Hm]. constructor; cbn; try done.
  - rewrite El. by exists l, (ls ++ [mkLocal tok (scope_depth c) true b false]).
  - apply Forall_app. split; [done|]. by constructor.
Qed.

Lemma with_locals_same c ls : same_frame 0 c (Compiler.with_locals c ls).
Proof. constructor; cbn; [done|lia]. Qed.

Lemma walks_add_local n tok b : no_nul (Token.lexeme tok) -> walks false n (Compiler.add_local tok b).
Proof.
  intros Hn. apply walks_good. intros w Hok. unfold Compiler.add_local. apply runs_bind, (runs_this src); [done|].
  intros c cs E Hf Hd. case_match; [eapply runs_mono; [by apply report_good|]; by intros a w' [G _]|].
  unfold runs, Compiler.set_this. rewrite E. cbn. eapply good_compilers; [done|exact E| |apply with_locals_same|reflexivity].
  constructor; [by apply add_local_frame|]. pose proof (world_frames _ _ Hok) as Hfs. rewrite E in Hfs.
  by inversion_clear Hfs.
Qed.

Lemma initialize_last_good w : ok w ->
  runs Compiler.initialize_last w (fun _ w' => good 0 w w' /\ parser w' = parser w).
Proof.
  intros Hok. unfold Compiler.initialize_last. apply runs_bind, (runs_this src); [done|].
  intros c cs E Hf Hd. pose proof Hf as [Hfn (l & ls & El & Hl) Hns Hs Hm].
  destruct (last (locals c)) as [x|] eqn:Ex; [|by rewrite El in Ex; apply last_None in Ex].
  apply last_Some in Ex as [ls' Els]. rewrite Els. rewrite removelast_last.
  unfold runs, Compiler.set_this. rewrite E. cbn. split; [|done].
  eapply good_compilers; [done|exact E| |apply with_locals_same|reflexivity].
  constructor; [|pose proof (world_frames _ _ Hok) as Hfs; rewrite E in Hfs; by inversion_clear Hfs].
  rewrite Els in Hns, El. apply Forall_app in Hns as [Hns Hx]. inversion_clear Hx.
  constructor; cbn; try done.
  - destruct ls' as [|l' ls']; cbn in *; simplify_eq; eauto.
  - apply Forall_app. split; [done|]. by constructor.
Qed.

Lemma pop_locals_good rl d w : ok w ->
  runs (Compiler.pop_locals rl d) w (fun kept w' => good 0 w w' /\ parser w' = parser w /\
    exists dropped, rl = dropped ++ kept /\ Forall (fun l => d < depth l) dropped).
Proof.
  revert w. induction rl as [|l rl IH]; intros w Hok; cbn [Compiler.pop_locals].
  { apply runs_ret. split_and!; [by apply good_refl|done|by exists []]. }
  destruct (Z.ltb_spec d (depth l)).
  - eapply runs_step; [by apply emit_opcode_good|]. intros [] w1 [G1 P1].
    eapply runs_mono; [apply IH, G1|]. intros kept w2 (G2 & P2 & dropped & -> & Hd).
    split_and!; [by eapply good_trans0|congruence|]. exists (l :: dropped). by split; [|constructor].
  - apply runs_ret. split_and!; [by apply good_refl|done|by exists []].
Qed.

Lemma end_scope_good w : ok w -> 1 <= depth_of w ->
  runs Compiler.end_scope w (fun _ w' => good (-1) w w' /\ here w' = here w).
Proof.
  intros Hok Hd. unfold Compiler.end_scope. eapply runs_step.
  { apply update_this_good with (d := -1); [done|]. intros c [Hf Hl Hn Hs Hm] Hdc. split; [|by constructor].
    constructor; cbn; try done. lia. }
  intros [] w1 [G1 P1]. apply runs_bind, (runs_this src); [apply G1|].
  intros c cs E [_ (l & ls & El & Hl) Hns Hs _] _.
  eapply runs_step; [apply pop_locals_good, G1|]. intros kept w2 (G2 & P2 & dropped & Ed & Hdrop).
  eapply runs_mono.
  { apply update_this_good with (d := 0); [apply G2|]. intros c2 [Hf2 Hl2 Hn2 Hs2 Hm2] _.
    split; [|apply with_locals_same]. apply (f_equal (@rev _)) in Ed. rewrite rev_involutive, rev_app_distr in Ed.
    rewrite Ed in El, Hns. apply Forall_app in Hns as [Hk _]. constructor; cbn; try done.
    destruct (rev kept) as [|k ks]; cbn in *; [|simplify_eq; eauto].
    apply Forall_rev in Hdrop. rewrite El in Hdrop. inversion_clear Hdrop. lia. }
  intros [] w3 [G3 P3]. split; [|by rewrite P3, P2, P1].
  replace (-1) with (-1 + 0 + 0) by done. eapply good_trans; [by eapply good_trans|done].
Qed.

Lemma mark_initialized_good w : ok w ->
  runs Compiler.mark_initialized w (fun _ w' => good 0 w w' /\ parser w' = parser w).
Proof.
  intros Hok. unfold Compiler.mark_initialized. apply runs_bind, (runs_this src); [done|]. intros c cs _ _ _.
  case_match; [by apply initialize_last_good|]. apply runs_ret. by split; [apply good_refl|].
Qed.

Lemma walks_declare_variable n b : walks false n (Compiler.declare_variable b).
Proof.
  apply walks_this. intros c. case_match; [by apply walks_ret|]. apply walks_previous. intros tok Hn.
  case_match; [by apply walks_report|by apply walks_add_local].
Qed.

(** ** Globals *)

Lemma identifier_good str w : ok w -> no_nul str ->
  runs (Compiler.identifier str) w (fun i w' =>
    good 0 w w' /\ parser w' = parser w /\ int_index i (Z.of_nat (length (globals (context w'))))).
Proof.
  intros Hok Hs. unfold Compiler.identifier. eapply runs_step; [by apply intern_good|].
  intros r w1 (G1 & Hr & Hc & P1). apply runs_bind, runs_get, runs_bind, runs_lift.
  destruct (world_globals _ _ (good_ok _ _ _ _ G1)) as [g Hg].
  destruct (get_global_outcome _ _ _ r _ Hg Hr) as [E|(i & ctx & g' & E & Hg' & Hi & Hlen & Hroots)];
    unfold heap_of in E; rewrite E; cbn [mbind outcome_bind outcome_runs]; [unfold limit_error; by left|].
  apply runs_bind, runs_put, runs_ret. split_and!; [|done|done].
  eapply good_trans0; [exact G1|]. eapply good_context; [apply G1|done| |done].
  intros o [->|[->|?]]%Hroots; [by left|by left|by right].
Qed.

Lemma parse_variable_good msg b w : ok w ->
  runs (Compiler.parse_variable msg b) w (fun i w' => good 0 w w' /\ index_ok i w').
Proof.
  intros Hok. unfold Compiler.parse_variable. eapply runs_step; [by apply consume_good|]. intros [] w1 (G1 & _).
  eapply runs_step; [apply (walks_declare_variable (togo w1) b); [apply G1|done]|]. intros [] w2 [G2 _].
  apply runs_bind, (runs_this src); [apply G2|]. intros c cs _ _ Hd.
  destruct (Z.ltb_spec 0 (scope_depth c)).
  - apply runs_ret. split; [by eapply good_trans0|]. intros ?. lia.
  - apply runs_bind, runs_previous. eapply runs_mono.
    { apply identifier_good; [apply G2|]. eapply before_no_nul, G2. }
    intros i w3 (G3 & _ & Hi). split; [|by intros _]. eapply good_trans0; [exact G1|]. by eapply good_trans0.
Qed.

Lemma string_of_runs r str w (Q : string -> world -> Prop) :
  Heap.string (heap_of w) r = Ret str -> Q (Object.str str) w -> runs (Compiler.string_of r) w Q.
Proof.
  intros Hr HQ. unfold Compiler.string_of. apply runs_bind, runs_get, runs_bind, runs_lift.
  unfold heap_of in Hr. rewrite Hr. by apply runs_ret.
Qed.

Lemma define_variable_good i b w : ok w -> index_ok i w ->
  runs (Compiler.define_variable i b) w (fun _ w' => good 0 w w' /\ here w' = here w).
Proof.
  intros Hok Hi. unfold Compiler.define_variable. case_match; [by apply report_good|].
  apply runs_bind, (runs_this src); [done|]. intros c cs _ Hf Hd. destruct (Z.ltb_spec 0 (scope_depth c)).
  { eapply runs_mono; [by apply initialize_last_good|]. intros [] w' [G P]. by rewrite P. }
  assert (Hz : depth_of w = 0) by (pose proof (frame_scope _ _ Hf); lia). apply Hi in Hz as Hlt.
  apply runs_bind, runs_get, runs_bind, runs_lift.
  destruct (world_globals _ _ Hok) as [g Hg].
  destruct (get_internal_value_outcome _ _ _ i Hg Hlt) as [->|([v ->] & r & str & Hname & Hstr)]; [done|].
  cbn [mbind outcome_bind outcome_runs]. case_match.
  - apply runs_bind, runs_lift. rewrite Hname. cbn [mbind outcome_bind outcome_runs].
    apply runs_bind. eapply string_of_runs; [done|]. by apply report_good.
  - apply runs_bind, runs_lift. destruct (set_const_outcome _ _ _ i b Hg Hlt) as [->|(ctx & -> & Hg' & Hl & Hr)]; [done|].
    cbn [mbind outcome_bind outcome_runs]. apply runs_bind, runs_put.
    assert (G1 : good 0 w (Compiler.set_context w ctx)).
    { eapply good_context; [done|done| |lia]. intros o Ho. right. by apply Hr. }
    eapply runs_step; [apply emit_opcode_good, G1|]. intros [] w2 [G2 P2].
    eapply runs_mono; [apply emit_uint16_good, G2|]. intros [] w3 [G3 P3].
    split; [|by rewrite P3, P2]. eapply good_trans0; [exact G1|]. by eapply good_trans0.
Qed.

(** ** Captured variables *)

Lemma resolve_in_runs rl i lexeme p : exists j p',
  Compiler.resolve_in rl i lexeme p = Ret (j, p') /\ same_window p p'.
Proof.
  revert i. induction rl as [|l rl IH]; intros i; cbn [Compiler.resolve_in]; [by exists (-1), p|].
  destruct (String.eqb _ _); [|apply IH]. destruct (local_uninitialized l); [|by exists i, p].
  eexists _, _. split; [reflexivity|]. apply report_at_window.
Qed.

Lemma resolve_local_good c tok w : ok w ->
  runs (Compiler.parse (Compiler.resolve_local c tok)) w (fun _ w' =>
    good 0 w w' /\ compilers w' = compilers w /\ heap_of w' = heap_of w).
Proof.
  intros Hok. destruct (resolve_in_runs (rev (locals c)) (Z.of_nat (length (locals c)) - 1) (Token.lexeme tok) (parser w))
    as (j & p' & Hr & Hw).
  eapply runs_parser_Ret; [exact Hr|]. split_and!; [|done|done].
  apply good_parser; [done|by eapply same_window_ok, Hok|by rewrite (same_window_prem _ _ Hw)].
Qed.

Lemma same_frame_ok h c c' : frame_ok h c -> same_frame 0 c c' ->
  Forall (fun l => no_nul (Token.lexeme (name l))) (locals c') ->
  (exists l ls, locals c' = l :: ls /\ depth l <= 0) -> numbers_ok (constant_numbers c') -> frame_ok h c'.
Proof.
  intros [(r & f & Ec & Ef) _ _ Hs _] [E1 E2] Hn Hl Hm. constructor; [|done..| |done]; [|lia].
  exists r, f. by rewrite E1.
Qed.

Lemma capture_local_frame h c i : frame_ok h c ->
  frame_ok h (Compiler.capture_local c i) /\ same_frame 0 c (Compiler.capture_local c i).
Proof.
  intros Hf. pose proof Hf as [_ (l & ls & El & Hl) Hn _ Hm]. split; [|apply with_locals_same].
  eapply same_frame_ok; [done|apply with_locals_same|..|done]; cbn.
  - apply Forall_alter; [done|]. by intros x Hx.
  - rewrite El. destruct (Z.to_nat i); cbn; eauto.
Qed.

Lemma with_captures_same c us : same_frame 0 c (Compiler.with_captures c us).
Proof. constructor; cbn; [done|lia]. Qed.

Lemma with_captures_frame h c us : frame_ok h c -> frame_ok h (Compiler.with_captures c us).
Proof. intros Hf. pose proof Hf as [_ ? ? _ ?]. by eapply same_frame_ok; [done|apply with_captures_same|..]. Qed.

Lemma add_upvalue_good c i b w : ok w -> compiled c ∈ compiled <$> compilers w -> frame_ok (heap_of w) c ->
  runs (zoom memory Compiler.set_memory (Compiler.add_upvalue c i b)) w (fun r w' =>
    good 0 w w' /\ compilers w' = compilers w /\ same_frame 0 c r.2 /\ frame_ok (heap_of w') r.2).
Proof.
  intros Hok Hin Hc. apply runs_zoom. unfold Compiler.add_upvalue.
  case_match; [unfold runs, outcome_runs, limit_error; right; right; by left|]. case_match.
  { apply runs_ret. cbn. destruct w as [m ctx p cs v]. by split_and!; [apply good_refl| | |]. }
  pose proof (frame_function _ _ Hc) as (r & f & Er & Ef). apply runs_bind, runs_lift. rewrite Er.
  cbn [or_undef mbind outcome_bind outcome_runs]. apply runs_bind, runs_get, runs_bind, runs_lift.
  unfold heap_of in Ef. rewrite Ef. cbn [mbind outcome_bind outcome_runs]. apply runs_bind, runs_put, runs_ret.
  assert (G : good 0 w (Compiler.set_memory w (Memory.set_objects (memory w) (write_function (heap_of w) r
    (mkFunction (arity_ f) (Z.of_nat (length (captures c ++ [mkUp i b]))) (chunk f) (name_ f)))))).
  { eapply good_function; [done|by rewrite <-Er|exact Ef|done|]. intros o Ho. by left. }
  split_and!; [exact G|done|apply with_captures_same|]. apply with_captures_frame.
  destruct Hc. constructor; try done. exists r. eexists. split; [done|]. by eapply write_function_same.
Qed.

Lemma frame_after w w' c : good 0 w w' -> frame_ok (heap_of w) c ->
  compiled c ∈ compiled <$> compilers w -> frame_ok (heap_of w') c.
Proof.
  intros G [] Hin. constructor; try done.
  pose proof (world_frames _ _ (good_ok _ _ _ _ G)) as Hfs. rewrite Forall_forall in Hfs.
  rewrite <-(good_compiled _ _ _ _ G) in Hin.
  apply list_elem_of_fmap in Hin as (c' & E & Hc'). destruct (Hfs c' Hc') as [(r & f & Er & Ef) _ _ _ _].
  exists r, f. by rewrite E.
Qed.

Lemma frames_after w w' cs : good 0 w w' -> Forall (frame_ok (heap_of w)) cs ->
  (forall c, c ∈ cs -> compiled c ∈ compiled <$> compilers w) -> Forall (frame_ok (heap_of w')) cs.
Proof.
  intros G Hf Hin. rewrite Forall_forall in *. intros c Hc. eapply frame_after; [done|by apply Hf|by apply Hin].
Qed.

Lemma resolve_upvalue_in_good tok cs : forall w, ok w -> cs <> [] -> Forall (frame_ok (heap_of w)) cs ->
  (forall c, c ∈ cs -> compiled c ∈ compiled <$> compilers w) ->
  runs (Compiler.resolve_upvalue_in cs tok) w (fun r w' =>
    good 0 w w' /\ compilers w' = compilers w /\ Forall2 (same_frame 0) cs r.2 /\
    Forall (frame_ok (heap_of w')) r.2).
Proof.
  induction cs as [|c encs IH]; [done|]. intros w Hok _ Hfs Hin. cbn [Compiler.resolve_upvalue_in].
  destruct encs as [|enc rest]; [apply runs_ret; split_and!; [by apply good_refl|done|reflexivity|done]|].
  eapply runs_step; [by apply resolve_local_good|]. intros i w1 (G1 & E1 & Eh1).
  assert (Hin1 : forall c0, c0 ∈ c :: enc :: rest -> compiled c0 ∈ compiled <$> compilers w1)
    by (intros c0 Hc0; rewrite E1; by apply Hin).
  assert (Hfs1 : Forall (frame_ok (heap_of w1)) (c :: enc :: rest)) by by rewrite Eh1.
  case_match.
  - inversion_clear Hfs1 as [|? ? Hc Hfs2]. inversion_clear Hfs2 as [|? ? Henc Hrest].
    eapply runs_step; [apply add_upvalue_good; [apply G1|apply Hin1; by left|done]|].
    intros [j c'] w2 (G2 & E2 & Hs2 & Hf2). cbn in Hs2, Hf2. apply runs_ret. cbn [snd].
    assert (Henc2 : frame_ok (heap_of w2) enc) by (eapply frame_after; [done..|]; apply Hin1; by right; left).
    destruct (capture_local_frame _ _ i Henc2) as [Hf3 Hs3].
    split_and!; [by eapply good_trans0|congruence|constructor; [done|]; by constructor|].
    constructor; [done|]. constructor; [done|]. eapply frames_after; [exact G2|done|].
    intros c0 Hc0. apply Hin1. by do 2 right.
  - inversion_clear Hfs1 as [|? ? Hc Hfs2].
    eapply runs_step; [apply IH; [apply G1|done|done|]; intros c0 Hc0; apply Hin1; by right|].
    intros [[up const] encs'] w2 (G2 & E2 & Hs2 & Hf2). cbn in Hs2, Hf2.
    assert (Hc2 : frame_ok (heap_of w2) c).
    { eapply frame_after; [done..|]. apply Hin1. by left. }
    case_match.
    + eapply runs_step; [apply add_upvalue_good; [apply G2|rewrite E2; apply Hin1; by left|done]|].
      intros [j c'] w3 (G3 & E3 & Hs3 & Hf3). cbn in Hs3, Hf3. apply runs_ret. cbn [snd].
      split_and!; [|congruence|by constructor|constructor; [done|]].
      * eapply good_trans0; [exact G1|]. by eapply good_trans0.
      * eapply frames_after; [exact G3|done|]. intros c0 Hc0. rewrite E2, E1.
        apply (list_elem_of_fmap_2 compiled) in Hc0. rewrite (same_frames_compiled _ _ Hs2) in Hc0.
        apply list_elem_of_fmap in Hc0 as (c1 & -> & Hc1). apply Hin. by right.
    + apply runs_ret. cbn [snd]. split_and!; [by eapply good_trans0|congruence|by constructor|by constructor].
Qed.

Lemma resolve_upvalue_good tok w : ok w ->
  runs (Compiler.resolve_upvalue tok) w (fun _ w' => good 0 w w').
Proof.
  intros Hok. unfold Compiler.resolve_upvalue. apply runs_bind, runs_get. eapply runs_step.
  { apply resolve_upvalue_in_good; [done|apply Hok|apply Hok|]. intros c Hc. by apply list_elem_of_fmap_2. }
  intros [r cs] w1 (G1 & E1 & Hs & Hf). cbn in Hs, Hf. apply runs_bind, runs_modify, runs_ret.
  eapply good_trans0; [exact G1|]. destruct (this_frame _ _ Hok) as (c & cs0 & Ec & _).
  rewrite Ec in Hs. inversion Hs as [|? c' ? cs' Hc Hcs]; subst.
  eapply good_compilers; [apply G1|by rewrite E1|done..].
Qed.

Lemma walks_resolve n tok : no_nul (Token.lexeme tok) -> walks false n (Compiler.resolve tok).
Proof.
  intros Hn. apply walks_this. intros c. apply walks_bind.
  { eapply walks_good_and. intros w Hok. by apply resolve_local_good. }
  intros i. case_match; [by apply walks_ret|]. apply walks_bind.
  { apply walks_good. intros w Hok. by apply resolve_upvalue_good. }
  intros [up const]. case_match; [by apply walks_ret|]. apply walks_bind; [|intros; by apply walks_ret].
  eapply walks_good_and. intros w Hok. by apply identifier_good.
Qed.

(** ** Compilers *)

Lemma emit_return_good w : ok w ->
  runs Compiler.emit_return w (fun _ w' => good 0 w w' /\ parser w' = parser w).
Proof.
  intros Hok. unfold Compiler.emit_return. apply runs_bind, (runs_this src); [done|]. intros c cs _ _ _.
  eapply runs_step with (Q1 := fun _ w' => good 0 w w' /\ parser w' = parser w).
  { case_decide; [|by apply emit_opcode_good]. eapply runs_step; [by apply emit_opcode_good|].
    intros [] w1 [G1 P1]. eapply runs_mono; [apply emit_uint16_good, G1|]. intros [] w2 [G2 P2].
    split; [by eapply good_trans0|congruence]. }
  intros [] w1 [G1 P1]. eapply runs_mono; [apply emit_opcode_good, G1|]. intros [] w2 [G2 P2].
  split; [by eapply good_trans0|congruence].
Qed.

(** ** Paths through scopes and definitions *)

Definition in_code (f : fact) : Prop := match f with Offset _ => True | Index _ => False end.

Lemma shifted_facts d facts w w' : good d w w' -> Forall in_code facts ->
  Forall (holds w) facts -> Forall (holds w') facts.
Proof.
  intros G Hin Hf. rewrite Forall_forall in *. intros [off|i] Hx; [|by destruct (Hin _ Hx)].
  specialize (Hf _ Hx). cbn in *. by eapply jump_target_good.
Qed.

Lemma path_begin {B} facts n (Q : B -> world -> Prop) (f : unit -> C B) : Forall in_code facts ->
  path src (-1) facts n Q (f tt) -> path src 0 facts n Q (Compiler.begin_scope ≫= f).
Proof.
  intros Hin Hf w Hok Hn Hd Ho. eapply runs_step; [by apply begin_scope_good|]. intros [] w1 [G1 P1].
  pose proof (good_depth _ _ _ _ G1).
  eapply runs_mono; [apply Hf; [apply G1|by rewrite P1|lia|by eapply shifted_facts]|].
  intros b w2 [G2 HQ]. split; [exact (good_trans _ _ _ _ _ _ G1 G2)|done].
Qed.

Lemma path_end {B} facts n (Q : B -> world -> Prop) (f : unit -> C B) : Forall in_code facts ->
  path src 0 facts n Q (f tt) -> path src (-1) facts n Q (Compiler.end_scope ≫= f).
Proof.
  intros Hin Hf w Hok Hn Hd Ho. eapply runs_step; [apply end_scope_good; [done|lia]|]. intros [] w1 [G1 _].
  pose proof (good_depth _ _ _ _ G1). pose proof (good_rem _ _ _ _ G1).
  eapply runs_mono; [apply Hf; [apply G1|lia|lia|by eapply shifted_facts]|].
  intros b w2 [G2 HQ]. split; [exact (good_trans _ _ _ _ _ _ G1 G2)|done].
Qed.

Lemma path_end_last facts n : path src (-1) facts n nothing Compiler.end_scope.
Proof.
  intros w Hok Hn Hd Ho. eapply runs_mono; [apply end_scope_good; [done|lia]|]. by intros [] w1 [G1 _].
Qed.

Lemma path_parse_variable {B} d facts n (Q : B -> world -> Prop) msg b (f : Z -> C B) :
  (forall i, path src d (Index i :: facts) n Q (f i)) ->
  path src d facts n Q (Compiler.parse_variable msg b ≫= f).
Proof.
  intros Hf w Hok Hn Hd Ho. eapply runs_step; [by apply parse_variable_good|]. intros i w1 [G1 Hi].
  pose proof (good_depth _ _ _ _ G1). pose proof (good_rem _ _ _ _ G1).
  eapply runs_mono; [apply Hf; [apply G1|lia|lia|]|].
  - constructor; [done|]. by eapply holds_later.
  - intros c w2 [G2 HQ]. split; [exact (good_trans0 _ _ _ _ _ G1 G2)|done].
Qed.

Lemma path_define facts n i b : Index i ∈ facts -> path src 0 facts n nothing (Compiler.define_variable i b).
Proof.
  intros Hi w Hok Hn _ Ho. rewrite Forall_forall in Ho.
  eapply runs_mono; [apply define_variable_good; [done|by apply (Ho (Index i))]|]. by intros [] w1 [G1 _].
Qed.

(** A scope that is left open; inside it the index of a variable is not used. *)
Lemma path_open {B} n (Q : B -> world -> Prop) (f : unit -> C B) i :
  path src 0 [Index i] n Q (f tt) -> path src 1 [] n Q (Compiler.begin_scope ≫= f).
Proof.
  intros Hf w Hok Hn Hd Ho. destruct (this_frame _ _ Hok) as (c & cs & _ & Hfr & _ & Hdc).
  pose proof (frame_scope _ _ Hfr). eapply runs_step; [by apply begin_scope_good|]. intros [] w1 [G1 P1].
  pose proof (good_depth _ _ _ _ G1).
  eapply runs_mono; [apply Hf; [apply G1|by rewrite P1|lia|]|].
  - constructor; [|done]. intros ?. lia.
  - intros b w2 [G2 HQ]. split; [exact (good_trans _ _ _ _ _ _ G1 G2)|done].
Qed.

Lemma path_join {A B} facts n (Q : B -> world -> Prop) (m : C A) (f : A -> C B) :
  path src 1 [] n nothing m -> (forall a, path src (-1) [] n Q (f a)) -> path src 0 facts n Q (m ≫= f).
Proof.
  intros Hm Hf w Hok Hn Hd _. eapply runs_step; [apply Hm; [done|done|lia|done]|]. intros a w1 [G1 _].
  pose proof (good_depth _ _ _ _ G1). pose proof (good_rem _ _ _ _ G1).
  eapply runs_mono; [apply Hf; [apply G1|lia|lia|done]|].
  intros b w2 [G2 HQ]. split; [exact (good_trans _ _ _ _ _ _ G1 G2)|done].
Qed.

Lemma walks_mark_initialized n : walks false n Compiler.mark_initialized.
Proof. eapply walks_good_and. intros w Hok. by apply mark_initialized_good. Qed.

Lemma walks_emit_return n : walks false n Compiler.emit_return.
Proof. eapply walks_good_and. intros w Hok. by apply emit_return_good. Qed.

(** Changes to the loop or to the classes of the current compiler. *)
Lemma walks_update_this n f : (forall c, same_frame 0 c (f c) /\ locals (f c) = locals c /\
    constant_numbers (f c) = constant_numbers c) -> walks false n (Compiler.update_this f).
Proof.
  intros Hf. eapply walks_good_and. intros w Hok. apply update_this_good; [done|]. intros c [Hfn Hl Hn Hs Hm] _.
  destruct (Hf c) as (Hsame & El & Em). split; [|done]. destruct Hsame as [E1 E2].
  constructor; [by rewrite E1|by rewrite El|by rewrite El|lia|by rewrite Em].
Qed.

Lemma walks_with_loop n (d s o : compiler -> Z) :
  walks false n (Compiler.update_this (fun c => Compiler.with_loop c (d c) (s c) (o c))).
Proof. apply walks_update_this. intros c. split; [|done]. constructor; cbn; [done|lia]. Qed.

Lemma walks_with_classes n (cs : compiler -> Datatypes.list bool) :
  walks false n (Compiler.update_this (fun c => Compiler.with_classes c (cs c))).
Proof. apply walks_update_this. intros c. split; [|done]. constructor; cbn; [done|lia]. Qed.

Lemma walks_emit_captures n us : walks false n (Compiler.emit_captures us).
Proof.
  apply walks_for_each. intros u. apply walks_bind; [apply walks_emit_byte|intros _; apply walks_emit_uint16].
Qed.

End scopes.
