(* ===== verification/CompilerExprs.v ===== *)
(** * Expressions of the compiler

    Every rule of the expression parser keeps the invariant and ends, given
    that parsing a smaller expression does. *)

From S2P Require Import Prelude Double HashMap HashMapFacts Hash Platform HashMapProps Opcode Token Lexer LexerFacts Value Chunk Object Memory CollectFacts SweepFacts AllocatorFacts GcProps WriteFacts Context ContextFacts Parser ParserFacts Compiler CompilerFacts CompilerSteps CompilerRules CompilerScopes.
Import Compiler (all_roots).

(** One step of a syntax-directed proof; [leaf] proves the operations. *)
Ltac walk_with leaf Hsrc :=
  repeat (cbv beta zeta; match goal with
  | |- walks _ _ _ (Compiler.parse Parser.previous ≫= _) => apply walks_previous; intros ? ?
  | |- walks _ _ _ (Compiler.this ≫= _) => apply walks_this; intros ?
  | |- walks _ _ _ (Compiler.parse Parser.peek ≫= _) => apply walks_peek; intros ?
  | |- walks _ _ _ (Compiler.parse (Parser.check _) ≫= _) => apply walks_check; intros ?
  | |- walks _ _ _ (Compiler.previous_line ≫= _) => apply walks_line; intros ?
  | |- walks _ _ _ (Compiler.code_size ≫= _) => apply walks_code_size; intros ?
  | |- walks _ false _ (Compiler.begin_scope ≫= _) => apply walks_path
  | |- walks _ _ _ (Compiler.intern _ ≫= _) => apply walks_name; [assumption|intros ?]
  | |- walks _ _ _ (Compiler.loop_fuel ≫= _) => apply rounds_loop; intros ?
  | |- walks _ _ _ (if ?b then _ else _) => destruct b
  | |- walks _ _ _ (match ?x with _ => _ end) => destruct x
  | |- walks _ _ _ (mret _) => apply walks_ret
  | |- walks _ _ _ (_ ≫= _) => apply walks_bind; [|intros ?]
  | |- walks _ _ _ (Compiler.report_error _) => apply walks_report
  | |- walks _ _ _ (Compiler.error_if _ _) => apply walks_error_if
  | |- walks _ _ _ (Compiler.emit_opcode _) => apply walks_emit_opcode
  | |- walks _ _ _ (Compiler.emit_byte _) => apply walks_emit_byte
  | |- walks _ _ _ (Compiler.emit_uint16_le _) => apply walks_emit_uint16
  | |- walks _ _ _ (Compiler.emit_jump_back _) => apply walks_emit_jump_back
  | |- walks _ _ _ (Compiler.parse (Parser.consume _ _)) => apply (walks_consume _ Hsrc)
  | |- walks _ _ _ (Compiler.parse (Parser.match_token _)) => apply (walks_match_any _ Hsrc)
  | |- walks _ _ _ (Compiler.parse Parser.synchronize) => apply (walks_synchronize _ Hsrc)
  | |- walks _ _ _ (Compiler.parse Parser.advance) => apply walks_weaken, (walks_advance _ Hsrc)
  | |- rounds _ _ (Compiler.parse (Parser.match_token _) ≫= _) => apply (rounds_match _ Hsrc); [done|..]
  | |- rounds _ _ (mret (_, false)) => apply rounds_stop
  | |- rounds _ _ (if ?b then _ else _) => destruct b
  | |- rounds _ _ (let '(_, _) := ?x in _) => destruct x
  | |- rounds _ _ (_ ≫= _) => apply rounds_bind; [|intros ?]
  | |- path _ _ _ _ _ (Compiler.emit_jump _ ≫= _) => apply path_emit; intros ?
  | |- path _ _ _ _ _ (Compiler.patch_jump _) => apply path_patch; set_solver
  | |- path _ _ _ _ _ (if ?b then _ else _) => destruct b
  | |- path _ _ _ _ _ (Compiler.this ≫= _) => apply path_this; intros ?
  | |- path _ _ _ _ _ (Compiler.code_size ≫= _) => apply path_code_size; intros ?
  | |- path _ _ _ _ _ (Compiler.parse Parser.previous ≫= _) => apply path_previous; intros ? ?
  | |- path _ _ _ _ _ (Compiler.parse Parser.peek ≫= _) => apply path_peek; intros ?
  | |- path _ _ _ _ _ (Compiler.previous_line ≫= _) => apply path_line; intros ?
  | |- path _ _ _ _ _ (Compiler.intern _ ≫= _) => apply path_name; [assumption|intros ?]
  | |- path _ _ _ _ _ (Compiler.parse_variable _ _ ≫= _) => apply (path_parse_variable _ Hsrc); intros ?
  | |- path _ _ _ _ _ (Compiler.define_variable _ _) => apply path_define; set_solver
  | |- path _ 0 _ _ _ (Compiler.begin_scope ≫= _) => apply path_begin; [repeat constructor|]
  | |- path _ 1 _ _ _ (Compiler.begin_scope ≫= _) => eapply path_open
  | |- path _ _ _ _ _ (Compiler.end_scope ≫= _) => apply path_end; [repeat constructor|]
  | |- path _ (-1) _ _ _ Compiler.end_scope => apply path_end_last
  | |- path _ 0 _ _ nothing (mret _) => apply path_walks
  | |- path _ _ _ _ _ (_ ≫= _) => apply path_bind; [|intros ?]
  | |- path _ 0 _ _ nothing ?m => lazymatch m with
      | context [Compiler.patch_jump] => fail | context [Compiler.define_variable] => fail
      | _ => apply path_walks end
  | |- _ => leaf
  end).

Section expressions.
Context `{PlatformLaws} (src : Datatypes.list ascii) (Hsrc : nul ∉ src).
Implicit Types (w : world) (t : TokenType.t) (s : bool).

Abbreviation C := (M world).
Abbreviation ok := (world_ok src).
Abbreviation good := (good src).
Abbreviation walks := (walks src).
Abbreviation togo w := (prem (parser w)).
Abbreviation here w := (Lexer.current_token_type (Parser.current (parser w))).
Abbreviation before w := (Lexer.deref (previous_ (parser w))).

(** The parser of smaller expressions, and how many tokens it may leave. *)
Context (pp : Z -> C unit) (n : nat) (Hpp : forall p, 1 <= p -> walks false n (pp p)).

Ltac walk := walk_with ltac:(idtac; match goal with
  | |- walks _ _ (pp _) => apply Hpp; vm_compute; discriminate
  | |- _ => assumption
  end) Hsrc.

Lemma walks_expression : walks false n (Compiler.expression pp).
Proof. unfold Compiler.expression. walk. Qed.

Lemma numbers_lookup tb v w : numbers_ok tb -> v <> 0 ->
  exists o, HashMap.get tb v = Ret o /\ forall i, o = Some i -> 0 <= i <= 0xFFFF.
Proof.
  intros (g & Hr & Hg) Hv. exists (g !! v). split; [by apply (get_repr (fun k => k <> 0))|]. by intros i Hi%Hg.
Qed.

Lemma remember_number_good v i w : ok w -> v <> 0 -> 0 <= i <= 0xFFFF ->
  runs (c ← Compiler.this; '(_, t) ← lift (HashMap.insert (constant_numbers c) v i);
        Compiler.set_this (Compiler.with_numbers c t)) w (fun _ w' => good 0 w w').
Proof.
  intros Hok Hv Hi. apply runs_bind, (runs_this src); [done|]. intros c cs E Hf _.
  pose proof Hf as [Hfn Hl Hns Hs (g & Hr & Hg)]. apply runs_bind, runs_lift.
  destruct (insert_repr (fun k => k <> 0) (constant_numbers c) g v i Hr Hv) as [[Et _]|(t & Et & Hr')]; rewrite Et.
  { cbn. unfold limit_error. by left. }
  cbn [mbind outcome_bind outcome_runs]. unfold runs, Compiler.set_this. rewrite E. cbn.
  eapply good_compilers; [done|exact E| |constructor; cbn; [done|lia]|reflexivity].
  constructor; [|pose proof (world_frames _ _ Hok) as Hfs; rewrite E in Hfs; by inversion_clear Hfs].
  constructor; cbn; try done. exists (<[v := i]> g). split; [done|].
  intros k j. rewrite lookup_insert_Some. intros [[_ <-]|[_ ?]]; [done|by eapply Hg].
Qed.

Lemma walks_number : walks false n Compiler.number.
Proof.
  unfold Compiler.number. apply walks_previous. intros tok _. case_decide; [|case_decide; [|by apply walks_ret]].
  - destruct (parse_int _) as [v|] eqn:Ev; [|apply walks_report].
    case_match; [apply walks_emit_opcode|]. case_match; [apply walks_emit_opcode|]. zbool.
    apply walks_good. intros w Hok. apply runs_bind, (runs_this src); [done|]. intros c cs _ Hf _.
    destruct (numbers_lookup (constant_numbers c) v w) as (o & -> & Ho); [apply Hf|done|].
    apply runs_bind, runs_lift. cbn [mbind outcome_bind outcome_runs]. destruct o as [i|].
    { eapply runs_mono; [apply write_load_constant_good; [done|by apply Ho]|]. by intros [] w' [G _]. }
    eapply runs_step; [by apply add_constant_good|]. intros i w1 (G1 & _ & Hi).
    eapply runs_step; [apply write_load_constant_good; [apply G1|done]|]. intros [] w2 [G2 _].
    eapply runs_mono; [apply remember_number_good; [apply G2|done..]|]. intros [] w3 G3.
    eapply good_trans0; [exact G1|]. by eapply good_trans0.
  - destruct (parse_real _) as [v|]; [|apply walks_report]. apply walks_good. intros w Hok.
    eapply runs_step; [by apply add_constant_good|]. intros i w1 (G1 & _ & Hi).
    eapply runs_mono; [apply write_load_constant_good; [apply G1|done]|]. intros [] w2 [G2 _].
    by eapply good_trans0.
Qed.

Lemma walks_grouping : walks false n (Compiler.grouping pp).
Proof. unfold Compiler.grouping, Compiler.expression. walk. Qed.

Lemma walks_negate : walks false n
  (c ← Compiler.get_chunk;
   if decide (last (code c) = Some (OpCode.to_int OpCode.ONE)) then
     Compiler.update_chunk (fun c => Ret (Chunk.set_code c
       (removelast (code c) ++ [OpCode.to_int OpCode.MINUS_ONE])))
   else Compiler.emit_opcode OpCode.NEGATE).
Proof.
  apply walks_good. intros w Hok. apply runs_bind, (runs_get_chunk src); [done|]. intros r f Hr.
  case_decide as Hl.
  - eapply runs_mono; [apply update_chunk_good; [done|]|by intros [] w' [G _]].
    intros r1 f1 Hr1. destruct (current_fun_unique _ _ _ _ _ Hr Hr1) as [-> ->]. cbn.
    apply last_Some in Hl as [l El]. rewrite El, removelast_last, !length_app. split; [done|]. by left.
  - eapply runs_mono; [by apply emit_opcode_good|]. by intros [] w' [G _].
Qed.

Lemma walks_unary : walks false n (Compiler.unary pp).
Proof.
  unfold Compiler.unary. apply walks_previous. intros tok _. apply walks_bind; [by apply Hpp|]. intros _.
  destruct (Token.token_type tok); first [apply walks_ret | apply walks_emit_opcode | apply walks_negate].
Qed.

Lemma walks_and : walks false n (Compiler.and_ pp).
Proof. apply walks_path. unfold Compiler.and_. walk. Qed.
Lemma walks_or : walks false n (Compiler.or_ pp).
Proof. apply walks_path. unfold Compiler.or_. walk. Qed.

Lemma walks_argument_list : walks false n (Compiler.argument_list pp).
Proof. unfold Compiler.argument_list, Compiler.expression. walk. Qed.

Lemma walks_call : walks false n (Compiler.call pp).
Proof.
  unfold Compiler.call. apply walks_bind; [apply walks_argument_list|]. intros a. walk.
Qed.

Lemma walks_dot b : walks false n (Compiler.dot pp b).
Proof.
  pose proof walks_argument_list. unfold Compiler.dot, Compiler.expression. walk.
Qed.

Lemma walks_safe_dot b : walks false n (Compiler.safe_dot b).
Proof. unfold Compiler.safe_dot. walk. Qed.

Lemma walks_ternary : walks false n (Compiler.ternary pp).
Proof. unfold Compiler.ternary. walk. Qed.

Lemma walks_named_variable tok b : no_nul (Token.lexeme tok) -> walks false n (Compiler.named_variable pp tok b).
Proof.
  intros Hn. unfold Compiler.named_variable, Compiler.expression.
  apply walks_bind; [by apply walks_resolve|]. intros v. walk.
Qed.

Lemma walks_variable b : walks false n (Compiler.variable pp b).
Proof. apply walks_previous. intros tok Hn. by apply walks_named_variable. Qed.

Lemma walks_this_ : walks false n (Compiler.this_ pp).
Proof. apply walks_this. intros c. destruct (enclosing_class c); [apply walks_report|apply walks_variable]. Qed.

Lemma walks_super : walks false n (Compiler.super_ pp).
Proof.
  pose proof walks_argument_list. unfold Compiler.super_.
  assert (Hnamed : forall nm line, no_nul nm -> walks false n (Compiler.named_variable pp (Compiler.synthetic nm line) false))
    by (intros; by apply walks_named_variable).
  apply walks_this. intros c. apply walks_bind; [walk|]. intros _.
  do 2 (apply walks_bind; [walk|intros _]). walk; apply Hnamed; done.
Qed.

Lemma walks_list : walks false n (Compiler.list pp).
Proof. unfold Compiler.list, Compiler.expression. walk. Qed.

Lemma walks_map : walks false n (Compiler.map pp).
Proof. unfold Compiler.map, Compiler.expression. walk. Qed.

Lemma walks_index b : walks false n (Compiler.index_ pp b).
Proof. unfold Compiler.index_, Compiler.expression. walk. Qed.

End expressions.
