(* ===== verification/CompilerPrecedence.v ===== *)
(** * The expression parser of the compiler

    Pratt parsing: a rule is only called on a token that has it, and every
    round of the loop over infix operators consumes one. *)

From S2P Require Import Prelude Double HashMap HashMapFacts Hash Platform HashMapProps Opcode Token Lexer LexerFacts Value Chunk Object Memory CollectFacts SweepFacts AllocatorFacts GcProps WriteFacts Context ContextFacts Parser ParserFacts Compiler CompilerFacts CompilerSteps CompilerRules CompilerScopes CompilerExprs.
Import Compiler (all_roots).

(** ** The expression parser *)

Section precedence.
Context `{PlatformLaws} (src : Datatypes.list ascii) (Hsrc : nul ∉ src).
Implicit Types (w : world) (t : TokenType.t) (s : bool).

Abbreviation C := (M world).
Abbreviation ok := (world_ok src).
Abbreviation good := (good src).
Abbreviation walks := (walks src).
Abbreviation togo w := (prem (parser w)).
Abbreviation here w := (Lexer.current_token_type (Parser.current (parser w))).
Abbreviation before w := (Lexer.deref (previous_ (parser w))).

Context (pp : Z -> C unit) (n : nat) (Hpp : forall p, 1 <= p -> walks false n (pp p)).

(** A rule is called on the token it belongs to. *)
Definition rule_of (f : Compiler.ParseFunction) (t : TokenType.t) : Prop :=
  Compiler.prefix (Compiler.get_rule t) = Some f \/ Compiler.infix (Compiler.get_rule t) = Some f.

Lemma binary_good w : ok w -> (togo w <= n)%nat -> rule_of Compiler.Fbinary (Token.token_type (before w)) ->
  runs (Compiler.binary pp) w (fun _ w' => good 0 w w').
Proof.
  intros Hok Hn Hr. unfold Compiler.binary. apply runs_bind, runs_previous.
  assert (Hp : walks false n (pp (Precedence.to_int (Compiler.precedence (Compiler.get_rule (Token.token_type (before w)))) + 1))).
  { apply Hpp. destruct (Compiler.precedence _); vm_compute; discriminate. }
  eapply runs_step; [by apply Hp|]. intros [] w1 [G1 _].
  assert (Hop : forall op, runs (Compiler.emit_opcode op) w1 (fun _ w' => good 0 w w')).
  { intros op. eapply runs_mono; [apply emit_opcode_good, G1|]. intros [] w2 [G2 _]. by eapply good_trans0. }
  assert (Hop2 : forall op op', runs (Compiler.emit_opcode op ;; Compiler.emit_opcode op') w1 (fun _ w' => good 0 w w')).
  { intros op op'. eapply runs_step; [apply emit_opcode_good, G1|]. intros [] w2 [G2 _].
    eapply runs_mono; [apply emit_opcode_good, G2|]. intros [] w3 [G3 _].
    eapply good_trans0; [exact G1|]. by eapply good_trans0. }
  destruct (Token.token_type (before w)); first [apply Hop | apply Hop2 | by destruct Hr].
Qed.

Lemma literal_good w : ok w -> rule_of Compiler.Fliteral (Token.token_type (before w)) ->
  runs Compiler.literal w (fun _ w' => good 0 w w').
Proof.
  intros Hok Hr. unfold Compiler.literal. apply runs_bind, runs_previous.
  assert (Hop : forall op, runs (Compiler.emit_opcode op) w (fun _ w' => good 0 w w')).
  { intros op. eapply runs_mono; [by apply emit_opcode_good|]. by intros [] w2 [G2 _]. }
  destruct (Token.token_type (before w)); first [apply Hop | by destruct Hr].
Qed.

Lemma no_nul_substring str a b : no_nul str -> no_nul (String.substring a b str).
Proof.
  revert a b. induction str as [|c str IH]; intros [|a] [|b]; cbn; try done; intros [Hc Hs].
  - split; [done|by apply IH].
  - by apply IH.
  - by apply IH.
Qed.

Lemma string_good w : ok w -> rule_of Compiler.Fstring (Token.token_type (before w)) ->
  runs Compiler.string_ w (fun _ w' => good 0 w w').
Proof.
  intros Hok Hr. unfold Compiler.string_. apply runs_bind, runs_previous, runs_bind, runs_lift.
  pose proof (world_parser _ _ Hok) as Hp. pose proof (iter_nonempty _ _ (previous_ok _ _ Hp)) as Hne.
  rewrite <-(iter_type _ _ (previous_ok _ _ Hp)) in Hne.
  assert (Hlex : Token.lexeme (before w) <> "").
  { apply Hne. intros E. rewrite E in Hr. by destruct Hr. }
  unfold Compiler.unquote. destruct (Nat.ltb_spec (String.length (Token.lexeme (before w))) 1) as [Hl|_].
  { by destruct (Token.lexeme (before w)); cbn in Hl; [|lia]. }
  cbn [mbind outcome_bind outcome_runs].
  set (f := fun i : Z => Compiler.write_load_constant i (Token.line (before w))).
  eapply runs_step; [apply intern_good; [done|by apply no_nul_substring, (before_no_nul src)]|].
  intros r w1 (G1 & _ & Hc & _). eapply runs_step; [apply add_constant_good; [apply G1|done]|].
  intros i w2 (G2 & _ & Hi). eapply runs_mono; [apply write_load_constant_good; [apply G2|done]|].
  intros [] w3 [G3 _]. eapply good_trans0; [exact G1|]. by eapply good_trans0.
Qed.

Lemma run_rule_good f b w : ok w -> (togo w <= n)%nat -> rule_of f (Token.token_type (before w)) ->
  runs (Compiler.run_rule pp f b) w (fun _ w' => good 0 w w').
Proof.
  intros Hok Hn Hr.
  assert (Hw : forall m : C unit, walks false n m -> runs m w (fun _ w' => good 0 w w')).
  { intros m Hm. eapply runs_mono; [by apply Hm|]. by intros [] w' [G _]. }
  destruct f; cbn [Compiler.run_rule].
  - by apply Hw, walks_grouping.
  - by apply Hw, walks_call.
  - by apply Hw, walks_map.
  - by apply Hw, walks_safe_dot.
  - by apply Hw, walks_dot.
  - by apply Hw, walks_unary.
  - by apply binary_good.
  - by apply Hw, walks_variable.
  - by apply string_good.
  - by apply Hw, walks_number.
  - by apply Hw, walks_and.
  - by apply Hw, walks_or.
  - by apply literal_good.
  - by apply Hw, walks_super.
  - by apply Hw, walks_this_.
  - by apply Hw, walks_ternary.
  - by apply Hw, walks_list.
  - by apply Hw, walks_index.
Qed.

Lemma infix_rule t : 1 <= Precedence.to_int (Compiler.precedence (Compiler.get_rule t)) ->
  exists f, Compiler.infix (Compiler.get_rule t) = Some f /\ t <> TokenType.END_OF_FILE.
Proof. destruct t; cbn; intros ?; try lia; by eexists. Qed.

Lemma before_advance w w1 : ok w -> previous_ (parser w1) = Parser.current (parser w) ->
  Token.token_type (before w1) = here w.
Proof. intros Hok ->. by apply (peek_type src). Qed.

(** The loop over infix operators. *)
Lemma infix_loop_good p b fuel w : 1 <= p -> ok w -> (togo w <= n)%nat -> (togo w <= fuel)%nat ->
  runs (while_M fuel
    (token ← Compiler.parse Parser.peek;
     mret (p <=? Precedence.to_int (Compiler.precedence (Compiler.get_rule (Token.token_type token)))))
    (Compiler.parse Parser.advance ;;
     token ← Compiler.parse Parser.previous;
     match Compiler.infix (Compiler.get_rule (Token.token_type token)) with
     | None => throw "bad_function_call"
     | Some infix_rule => Compiler.run_rule pp infix_rule b
     end)) w (fun _ w' => good 0 w w').
Proof.
  intros Hp Hok Hn Hfuel. apply runs_mono with (Q := fun _ w' => good 0 w w' /\ True); [|by intros a w' [G _]]. revert fuel w Hok Hn Hfuel.
  apply (while_runs src (fun w => 1 <= Precedence.to_int (Compiler.precedence (Compiler.get_rule (here w))))
           (fun _ => True)).
  - intros w' Hok. apply runs_bind, runs_peek, runs_ret. rewrite (peek_type src) by done.
    destruct (Z.leb_spec p (Precedence.to_int (Compiler.precedence (Compiler.get_rule (here w'))))) as [Hle|]; [|by split; [apply good_refl|]].
    assert (H1 : 1 <= Precedence.to_int (Compiler.precedence (Compiler.get_rule (here w')))) by lia.
    split; [done|]. split; [|done]. destruct (infix_rule _ H1) as (_ & _ & Hne).
    by eapply matched_left.
  - intros w' Hok Hn Hi. destruct (infix_rule _ Hi) as (f & Ef & Hne).
    pose proof (matched_left src _ _ Hok eq_refl Hne) as Hpos.
    eapply runs_step; [by apply advance_good|]. intros [] w1 (G1 & Hb & Hl).
    apply runs_bind, runs_previous. rewrite (before_advance w' w1 Hok Hb), Ef.
    eapply runs_mono.
    { apply run_rule_good; [apply G1|lia|]. right. by rewrite (before_advance w' w1 Hok Hb). }
    intros [] w2 G2. split; [by eapply good_trans0|]. pose proof (good_rem _ _ _ _ G2). left. lia.
Qed.

End precedence.

Section parse_precedence.
Context `{PlatformLaws} (src : Datatypes.list ascii) (Hsrc : nul ∉ src).
Abbreviation walks := (walks src).

Lemma walks_parse_precedence (pp : Z -> M world unit) n :
  (forall n' p, n = S n' -> 1 <= p -> walks false n' (pp p)) ->
  forall p, 1 <= p -> walks true n (Compiler.parse_precedence_body pp p).
Proof.
  intros Hpp p Hp w Hok Hn. unfold Compiler.parse_precedence_body.
  eapply runs_step; [by apply advance_good|]. intros [] w1 (G1 & Hb & Hl).
  pose proof (good_ok _ _ _ _ G1) as Hok1. apply runs_bind, runs_previous.
  rewrite (before_advance src w w1 Hok Hb).
  assert (Hdone : forall w2, good src 0 w1 w2 ->
    good src 0 w w2 /\ (true = true -> (prem (parser w2) < prem (parser w))%nat \/ prem (parser w) = 0%nat)).
  { intros w2 G2. split; [by eapply good_trans0|]. pose proof (good_rem _ _ _ _ G2). lia. }
  destruct (Compiler.prefix _) as [f|] eqn:Ef.
  2: { eapply runs_mono; [by apply report_good|]. intros [] w2 [G2 _]. by apply Hdone. }
  assert (Hpos : (0 < prem (parser w))%nat).
  { eapply (matched_left src); [done|reflexivity|]. intros E. by rewrite E in Ef. }
  destruct n as [|n']; [lia|]. specialize (fun q => Hpp n' q eq_refl).
  eapply runs_step.
  { eapply (run_rule_good src Hsrc pp n' Hpp); [done|lia|]. left. by rewrite (before_advance src w w1 Hok Hb). }
  intros [] w2 G2. pose proof (good_rem _ _ _ _ G2) as R2.
  apply runs_bind. eapply (loop_fuel_runs src); [apply G2|]. intros fuel Hfuel.
  eapply runs_step; [apply (infix_loop_good src Hsrc pp n' Hpp); [done|apply G2|lia|lia]|].
  intros [] w3 G3. pose proof (good_rem _ _ _ _ G3) as R3.
  assert (Hend : walks false n'
    (assigns ← (if p <=? Precedence.to_int Precedence.ASSIGNMENT
                then Compiler.parse (Parser.match_token TokenType.EQUAL) else mret false);
     Compiler.error_if assigns "Invalid assignment target")).
  { walk_with ltac:(idtac) Hsrc. }
  eapply runs_mono; [apply Hend; [apply G3|lia]|]. intros [] w4 [G4 _]. apply Hdone.
  eapply good_trans0; [exact G2|]. by eapply good_trans0.
Qed.

End parse_precedence.
