(* ===== verification/CompilerStart.v ===== *)
(** * Starting and ending a compiler

    A compiler of its own for every function: what its constructor
    establishes, and what is left when it is dropped. *)

From S2P Require Import Prelude Double HashMap HashMapFacts Hash Platform HashMapProps Opcode Token Lexer LexerFacts Value Chunk Object Memory CollectFacts SweepFacts AllocatorFacts GcProps WriteFacts Context ContextFacts Parser ParserFacts Compiler CompilerFacts CompilerSteps CompilerRules CompilerScopes CompilerExprs CompilerPrecedence.
Import Compiler (all_roots, compiler_roots, machine_roots).

(** ** New compilers *)

Section compilers.
Context `{PlatformLaws} (src : Datatypes.list ascii) (Hsrc : nul ∉ src).
Implicit Types (w : world) (t : TokenType.t) (s : bool).

Abbreviation C := (M world).
Abbreviation ok := (world_ok src).
Abbreviation good := (good src).
Abbreviation walks := (walks src).
Abbreviation togo w := (prem (parser w)).

(** [w] with a compiler that has no function yet. *)
Definition opened w (c : compiler) : world := Compiler.set_compilers w (c :: compilers w).

(** The state before the first compiler, or before another one. *)
Record base_ok w : Prop := {
  base_memory : exists p, inv (memory w) p;
  base_live : live_count 0 (memory w);
  base_safe : forall c, compiled c = None -> gc_safe (all_roots (opened w c)) (memory w);
  base_globals : exists g, globals_ok (heap_of w) (context w) g;
  base_parser : parser_ok src (parser w);
  base_frames : Forall (frame_ok (heap_of w)) (compilers w)
}.

Lemma opened_roots w c o : ok w -> compiled c = None -> o ∈ all_roots (opened w c) -> o = None \/ o ∈ all_roots w.
Proof.
  intros Hok Hc. unfold all_roots, compiler_roots, machine_roots, opened. cbn. rewrite Hc.
  pose proof (world_current _ _ Hok). destruct (compilers w); [done|]. destruct (vm w); rewrite !elem_of_app, elem_of_cons; tauto.
Qed.

Lemma ok_base w : ok w -> base_ok w.
Proof.
  intros Hok. pose proof (fun c o => opened_roots w c o Hok) as Hr. destruct Hok as [Hm Hl Hs Hg Hp _ Hf].
  constructor; try done. intros c Hc. eapply closed_heap_subset; [|exact Hs].
  intros o. unfold root_refs. rewrite !elem_of_app. intros [?|[Ho|?]]; [by right; left| |by right; right; right].
  destruct (Hr c o Hc Ho) as [->|?]; [by left|by right; right; left].
Qed.

Lemma empty_numbers : numbers_ok HashMap.empty.
Proof. exists ∅. split; [by apply (empty_repr (fun k => k <> 0))|done]. Qed.

(** What a new compiler [w1] leaves of the state [w]. *)
Record nested w w1 : Prop := {
  nested_parser : parser w1 = parser w;
  nested_vm : vm w1 = vm w;
  nested_context : context w1 = context w;
  nested_compilers : exists c, compilers w1 = c :: compilers w /\ scope_depth c = 0;
  nested_functions : forall r f, Some r ∈ compiled <$> compilers w -> Heap.function (heap_of w) r = Ret f ->
       Heap.function (heap_of w1) r = Ret f
}.

(** The compiler [c], which fills the new function [r] with the name [nm]. *)
Record fresh_compiler w1 (ft : FunctionType) (nm : string) (c : compiler) (r n : ref) : Prop := {
  fresh_function : compiled c = Some r /\ Heap.function (heap_of w1) r = Ret (mkFunction 0 0 Chunk.empty n);
  fresh_name : Heap.string (heap_of w1) n = Ret (mkString nm (Hash.hash_string nm));
  fresh_numbers : constant_numbers c = HashMap.empty;
  fresh_type : function_type c = ft
}.

(** A new compiler reserves its first local and fills a new function object. *)
Lemma new_compiler_outcome ft nm classes w : base_ok w -> no_nul nm ->
  Compiler.new_compiler ft nm classes w = Throw HashMap.too_large \/
  exists w' c r n, Compiler.new_compiler ft nm classes w = Ret (tt, w') /\ ok w' /\ nested w w' /\
    compilers w' = c :: compilers w /\ fresh_compiler w' ft nm c r n.
Proof.
  intros [[p Hi] Hl Hs [g Hg] Hp Hf] Hn. set (c0 := mkCompiler 0 [] HashMap.empty None 0 (-1) (-1) ft [] classes).
  specialize (Hs c0 eq_refl).
  assert (Hrun : Compiler.new_compiler ft nm classes w =
    '(r, m) ← Allocator.new_function (all_roots (opened w c0)) 0 nm (memory w);
    ((Compiler.update_this (fun c => Compiler.with_compiled c (Some r)) ;; match ft with
      | METHOD | INITIALIZER => Compiler.add_local (mkToken TokenType.IDENTIFIER (Token.line default_token)
          (Token.err default_token) "this") true ;; Compiler.initialize_last
      | FUNCTION | SCRIPT => Compiler.add_local default_token false
      end) (Compiler.set_memory (opened w c0) m))).
  { unfold Compiler.new_compiler, Compiler.allocate, zoom, modify, mbind, M_bind. cbn [outcome_bind].
    change (memory (Compiler.set_compilers w _)) with (memory w). change (Compiler.set_compilers w (c0 :: compilers w)) with (opened w c0).
    by destruct (Allocator.new_function _ _ _ _) as [[? ?]| | |]. }
  rewrite Hrun. clear Hrun.
  destruct (new_function_outcome (all_roots (opened w c0)) 0 nm (memory w) p Hi Hs Hl Hn)
    as [[-> _]|(r & nref & m' & q & -> & Hi' & Hl' & Hr & Hnr & Ht & Hnd & Hkeep)]; [by left|right].
  set (m := memory w) in *. set (roots := all_roots (opened w c0)) in *.
  assert (Hcone : keeps_cone (objects m) (root_refs roots m) (objects m')) by done.
  pose proof (keeps_closed _ _ _ Hs Hcone) as Hs'.
  assert (Hleaf : closed_at (objects m') (Some nref)) by by eapply leaf_closed.
  assert (Hself : closed_at (objects m') (Some r)).
  { eapply node_closed; [done|]. cbn. intros o ->%list_elem_of_singleton. done. }
  set (w1 := Compiler.set_memory (opened w c0) m').
  set (c1 := Compiler.with_compiled c0 (Some r)). set (w2 := opened (Compiler.set_memory w m') c1).
  set (tok := match ft with METHOD | INITIALIZER => mkToken TokenType.IDENTIFIER (Token.line default_token)
                (Token.err default_token) "this" | _ => default_token end).
  set (this := match ft with METHOD | INITIALIZER => true | _ => false end).
  set (c2 := Compiler.with_locals c1 [mkLocal tok 0 (negb this) this false]).
  set (w3 := opened (Compiler.set_memory w m') c2).
  exists w3, c2, r, nref. split; [by destruct ft|].
  assert (Hold : forall r f, Some r ∈ compiled <$> compilers w -> Heap.function (heap_of w) r = Ret f ->
    Heap.function (objects m') r = Ret f).
  { intros r' f Hr'. eapply keeps_function; [exact Hcone|]. unfold root_refs, roots, all_roots, compiler_roots, opened.
    cbn. rewrite !elem_of_app. right; left; left; right. by right. }
  split; [|split_and!; [constructor; [done|done|done|by exists c2|exact Hold]|done|]].
  2: { constructor; [split; [done|]|apply string_Ret; by eexists|done|by destruct ft]. apply function_Ret. by eexists. }
  constructor; cbn.
  - by exists q.
  - done.
  - apply closed_heap_forall. intros o Ho. destruct (decide (o = Some r)) as [->|Hne]; [done|].
    rewrite closed_heap_forall in Hs'. apply Hs'. revert Ho.
    unfold root_refs, roots, all_roots, compiler_roots, machine_roots, opened. cbn.
    rewrite Ht, Hnd, !elem_of_app, elem_of_cons. cbn. rewrite elem_of_cons. tauto.
  - exists g. eapply globals_heap; [done|]. intros r' s Hr'. eapply keeps_string; [exact Hcone|].
    unfold root_refs, roots, all_roots, compiler_roots, machine_roots, opened. cbn.
    destruct (vm w); rewrite !elem_of_app; tauto.
  - done.
  - done.
  - constructor.
    + constructor; cbn; [by eexists _, _; split; [|apply function_Ret; eexists]|by eexists _, _| | |apply empty_numbers].
      * constructor; [by destruct ft|constructor].
      * done.
    + apply Forall_forall. intros c Hc. rewrite Forall_forall in Hf. destruct (Hf c Hc) as [(r' & f & Er & Ef) ? ? ? ?].
      constructor; try done. exists r', f. split; [done|]. apply Hold; [|done]. rewrite <-Er. by apply list_elem_of_fmap_2.
Qed.

Lemma new_compiler_good ft nm classes w : base_ok w -> no_nul nm ->
  runs (Compiler.new_compiler ft nm classes) w (fun _ w' => ok w' /\ nested w w').
Proof.
  intros Hb Hn. destruct (new_compiler_outcome ft nm classes w Hb Hn) as [E|(w' & c & r & n & E & Hok & Hnest & _)].
  - unfold runs. rewrite E. by left.
  - by eapply runs_Ret.
Qed.

Lemma compiled_function w r : ok w -> Some r ∈ compiled <$> compilers w ->
  exists f, Heap.function (heap_of w) r = Ret f.
Proof.
  intros Hok Hr. apply list_elem_of_fmap in Hr as (c & Hc & Hin). pose proof (world_frames _ _ Hok) as Hfr.
  rewrite Forall_forall in Hfr. destruct (Hfr c Hin) as [(r' & f & Ec & Ef) _ _ _ _]. exists f. congruence.
Qed.

(** The inner compiler is dropped; its function is still closed. *)
Lemma end_compiler_good d w w1 w2 : ok w -> nested w w1 -> good d w1 w2 ->
  runs Compiler.end_compiler w2 (fun _ w3 => good 0 w w3 /\ parser w3 = parser w2 /\
    forall r f, current_fun w2 r f -> closed_at (heap_of w3) (Some r)).
Proof.
  intros Hok [Ep Ev Ex (c & Ec & _) Hk] G. unfold Compiler.end_compiler. apply runs_modify.
  destruct (good_frames _ _ _ _ G) as (c0 & cs & c' & cs' & E1 & E2 & Hc & Hcs).
  rewrite Ec in E1. injection E1 as <- <-. rewrite E2. cbn [tail].
  pose proof (this_frame _ _ Hok) as (c1 & cs1 & E & _).
  assert (Hne : cs' <> []) by (rewrite E in Hcs; by inversion Hcs).
  split_and!; [|done|].
  - constructor; cbn.
    + destruct (good_ok _ _ _ _ G) as [Hm Hl Hs Hg Hp _ Hf]. constructor; cbn; try done.
      * eapply closed_heap_subset; [|exact Hs]. intros o. unfold root_refs, all_roots, compiler_roots, machine_roots.
        cbn. rewrite E2. destruct cs' as [|c2 cs2]; [done|]. rewrite !elem_of_app. cbn. rewrite !elem_of_cons. tauto.
      * rewrite E2 in Hf. by inversion_clear Hf.
    + rewrite <-Ep. apply G.
    + rewrite E in Hcs. inversion Hcs as [|? c2 ? cs2 H1 H2]; subst. by exists c1, cs1, c2, cs2.
    + intros r Hr. destruct (compiled_function _ _ Hok Hr) as [f Hf].
      transitivity (code_length (heap_of w1) r); [|apply (good_code _ _ _ _ G)].
      * unfold code_length. by rewrite Hf, (Hk _ _ Hr Hf).
      * rewrite Ec. by right.
    + rewrite <-Ex. apply G.
    + rewrite (good_vm _ _ _ _ G). done.
  - intros r f Hr. change (closed_at (heap_of w2) (Some r)).
    pose proof (world_safe _ _ (good_ok _ _ _ _ G)) as Hs. unfold gc_safe in Hs. rewrite closed_heap_forall in Hs.
    apply Hs, in_all_roots, compiled_root. by eapply current_fun_compiled.
Qed.

End compilers.
