(* ===== verification/CompilerStatements.v ===== *)
(** * Statements and declarations of the compiler

    Given that smaller constructs do, every statement keeps the invariant,
    ends and consumes a token. *)

From S2P Require Import Prelude Double HashMap HashMapFacts Hash Platform HashMapProps Opcode Token Lexer LexerFacts Value Chunk Object Memory CollectFacts SweepFacts AllocatorFacts GcProps WriteFacts Context ContextFacts Parser ParserFacts Compiler CompilerFacts CompilerSteps CompilerRules CompilerScopes CompilerExprs CompilerPrecedence CompilerStart.
Import Compiler (all_roots).

Section statements.
Context `{PlatformLaws} (src : Datatypes.list ascii) (Hsrc : nul ∉ src).
Implicit Types (w : world) (t : TokenType.t) (s : bool).

Abbreviation C := (M world).
Abbreviation ok := (world_ok src).
Abbreviation good := (good src).
Abbreviation walks := (walks src).
Abbreviation path := (path src).
Abbreviation togo w := (prem (parser w)).
Abbreviation here w := (Lexer.current_token_type (Parser.current (parser w))).

(** The parsers of smaller constructs, and how many tokens they may leave. *)
Context (pp : Z -> C unit) (statement declaration : C unit) (n : nat).
Context (Hpp : forall p, 1 <= p -> walks false n (pp p)).
Context (Hst : walks false n statement) (Hdecl : walks true n declaration).

Ltac walk := walk_with ltac:(idtac; match goal with
  | |- walks _ _ (pp _) => apply Hpp; vm_compute; discriminate
  | |- walks _ _ (Compiler.expression pp) => by apply walks_expression
  | |- walks _ _ (Compiler.variable pp _) => by apply walks_variable
  | |- walks _ _ (Compiler.named_variable pp _ _) => apply walks_named_variable; [done..|assumption]
  | |- walks _ _ Compiler.emit_return => apply walks_emit_return
  | |- walks _ _ Compiler.mark_initialized => apply walks_mark_initialized
  | |- walks _ _ (Compiler.add_local _ _) => by apply walks_add_local
  | |- walks _ _ (Compiler.emit_captures _) => apply walks_emit_captures
  | |- walks _ _ (Compiler.update_this (fun c => Compiler.with_loop c _ _ _)) => apply walks_with_loop
  | |- walks _ _ (Compiler.update_this (fun c => Compiler.with_classes c _)) => apply walks_with_classes
  | |- walks _ _ Compiler.set_has_super_class => apply walks_with_classes
  | |- walks _ _ statement => apply Hst
  | |- _ => assumption
  end) Hsrc.

Lemma walks_print_statement : walks false n (Compiler.print_statement pp).
Proof. unfold Compiler.print_statement. walk. Qed.

Lemma walks_expression_statement : walks false n (Compiler.expression_statement pp).
Proof. unfold Compiler.expression_statement. walk. Qed.

Lemma walks_var_declaration : walks false n (Compiler.var_declaration pp).
Proof. apply walks_path. unfold Compiler.var_declaration. walk. Qed.

Lemma walks_const_declaration : walks false n (Compiler.const_declaration pp).
Proof. apply walks_path. unfold Compiler.const_declaration. walk. Qed.

(** ** Blocks *)

(** A loop up to a closing token; it stops at once only at that token or at the end. *)
Lemma until_token_good ends (body : C unit) w : walks true n body -> ok w -> (togo w <= n)%nat ->
  runs (Compiler.until_token ends body) w (fun _ w' => good 0 w w' /\
    (if ends (here w) then w' = w else (togo w' < togo w)%nat \/ togo w = 0%nat)).
Proof.
  intros Hbody Hok Hn. unfold Compiler.until_token. apply runs_bind, (loop_fuel_runs src); [done|].
  intros fuel Hfuel. set (cond := token ← Compiler.parse Parser.peek; _).
  assert (Hcond : forall w, ok w -> runs cond w (fun b w' =>
    if b then w' = w /\ (0 < togo w)%nat /\ ends (here w) = false else w' = w /\ (ends (here w) = true \/ togo w = 0%nat))).
  { intros w1 Hok1. apply runs_bind, runs_peek, runs_ret. rewrite (peek_type src) by done.
    pose proof (left_end src _ Hok1). destruct (ends (here w1)); cbn; [by auto|].
    case_bool_decide; cbn; [split; [done|right; tauto]|]. split_and!; [done| |done]. destruct (togo w1); [tauto|lia]. }
  assert (Hloop : forall fuel w, ok w -> (togo w <= n)%nat -> (togo w <= fuel)%nat ->
    runs (while_M fuel cond body) w (fun _ w' => good 0 w w')).
  { intros fuel' w' Hok' Hn' Hf'. apply runs_mono with (Q := fun _ w2 => good 0 w' w2 /\ True); [|by intros a w2 [G _]]. revert fuel' w' Hok' Hn' Hf'.
    apply (while_runs src (fun _ => True) (fun _ => True)).
    - intros w1 Hok1. eapply runs_mono; [by apply Hcond|]. intros [] w2; [tauto|]. intros [-> _].
      by split; [apply good_refl|].
    - intros w1 Hok1 Hn1 _. eapply runs_mono; [by apply Hbody|]. intros [] w2 [G Hs]. split; [done|]. by apply Hs. }
  destruct fuel as [|fuel]; cbn [while_M]; (eapply runs_step; [by apply Hcond|]); intros [] w1.
  1: by intros (_ & ? & _); lia.
  1, 3: intros [-> Hend]; apply runs_ret; (split; [by apply good_refl|]);
    destruct (ends (here w)); [done|]; destruct Hend; [done|by right].
  intros (-> & Hpos & ->). eapply runs_step; [by apply Hbody|]. intros [] w2 [G2 Hs]. destruct (Hs eq_refl); [|lia].
  pose proof (good_rem _ _ _ _ G2). eapply runs_mono; [apply Hloop; [apply G2|lia|lia]|]. intros [] w3 G3.
  split; [exact (good_trans0 _ _ _ _ _ G2 G3)|]. pose proof (good_rem _ _ _ _ G3). left. lia.
Qed.

Lemma walks_until_token ends (body : C unit) : walks true n body -> walks false n (Compiler.until_token ends body).
Proof.
  intros Hbody w Hok Hn. eapply runs_mono; [by apply until_token_good|]. by intros [] w' [G _].
Qed.

(** A block consumes a token, if only its closing brace. *)
Lemma walks_block : walks true n (Compiler.block declaration).
Proof.
  intros w Hok Hn. unfold Compiler.block. eapply runs_step; [by apply until_token_good|].
  intros [] w1 [G1 H1]. eapply runs_mono; [apply consume_good; [done|apply G1]|].
  intros [] w2 (G2 & Hc & _). split; [exact (good_trans0 _ _ _ _ _ G1 G2)|]. intros _.
  pose proof (good_rem _ _ _ _ G2). case_bool_decide as Hh; cbn in H1; [|lia]. subst w1. specialize (Hc Hh). lia.
Qed.

(** ** Functions *)

Lemma walks_parameters t : walks false n (Compiler.parameters t).
Proof.
  unfold Compiler.parameters. apply walks_check. intros []; [apply walks_ret|].
  apply rounds_loop_last. intros []. apply rounds_bind.
  { eapply walks_good_and. intros w Hok. apply update_function_good; [done|]. intros r f _. cbn.
    split; [done|]. by left. }
  intros _ w Hok Hn. apply runs_bind, (runs_this_function src); [done|]. intros r f (c & cs & _ & _ & Hf).
  apply runs_bind, runs_get, runs_bind, runs_lift. change (objects (memory w)) with (heap_of w). rewrite Hf.
  cbn [mbind outcome_bind outcome_runs]. case_match.
  { eapply runs_step; [by apply report_good|]. intros [] w1 [G1 _]. by apply runs_ret. }
  eapply runs_step; [by apply parse_variable_good|]. intros i w1 [G1 Hi]. pose proof (good_rem _ _ _ _ G1).
  eapply runs_step; [apply define_variable_good; [apply G1|done]|]. intros [] w2 [G2 _].
  pose proof (good_trans0 _ _ _ _ _ G1 G2) as G. pose proof (good_rem _ _ _ _ G).
  assert (Hr : rounds src n (more ← Compiler.parse (Parser.match_token TokenType.COMMA); mret (tt, more)))
    by (apply (rounds_match src Hsrc); [done|apply walks_ret|apply rounds_stop]).
  eapply runs_mono; [apply Hr; [apply G2|lia]|]. intros [[] more] w3 [G3 Hs].
  split; [exact (good_trans0 _ _ _ _ _ G G3)|]. intros Hlt%Hs. lia.
Qed.

(** A function consumes a token: it has a block. *)
Lemma walks_compile_function (ft : FunctionType) nm : no_nul nm -> walks true n (Compiler.compile_function declaration ft nm).
Proof.
  intros Hnm w Hok Hn. unfold Compiler.compile_function. apply runs_bind, (runs_this src); [done|].
  intros c cs _ _ _. eapply runs_step; [apply (new_compiler_good src); [by apply ok_base|done]|].
  intros [] w1 [Hok1 Hnest]. pose proof (nested_parser _ _ Hnest) as P1.
  eapply runs_step; [by apply begin_scope_good|]. intros [] w2 [G2 P2]. rewrite P1 in P2.
  assert (Hend : forall w3, good 1 w1 w3 -> (togo w3 < togo w)%nat \/ togo w = 0%nat ->
    runs (fn ← Compiler.this_function; inner ← Compiler.this; Compiler.end_compiler ;;
      i ← Compiler.add_constant (Value.of_object fn); Compiler.emit_opcode OpCode.CLOSURE ;;
      Compiler.emit_uint16_le i ;; Compiler.emit_captures (captures inner)) w3
      (fun _ w' => good 0 w w' /\ (true = true -> (togo w' < togo w)%nat \/ togo w = 0%nat))).
  { intros w3 G3 Hs. pose proof (good_ok _ _ _ _ G3) as Hok3.
    apply runs_bind, (runs_this_function src); [done|]. intros r f Hr.
    apply runs_bind, (runs_this src); [done|]. intros inner cs' _ _ _.
    eapply runs_step; [by apply (end_compiler_good src 1 w w1)|]. intros [] w4 (G4 & P4 & Hc).
    eapply runs_step; [apply add_constant_good; [apply G4|by eapply Hc]|]. intros i w5 (G5 & P5 & _).
    assert (Hemit : walks false n (Compiler.emit_opcode OpCode.CLOSURE ;; Compiler.emit_uint16_le i ;;
      Compiler.emit_captures (captures inner))) by walk.
    pose proof (good_trans0 _ _ _ _ _ G4 G5) as G. pose proof (good_rem _ _ _ _ G).
    eapply runs_mono; [apply Hemit; [apply G5|lia]|]. intros [] w6 [G6 _].
    split; [exact (good_trans0 _ _ _ _ _ G G6)|]. intros _. pose proof (good_rem _ _ _ _ G6).
    rewrite P5, P4 in *. lia. }
  assert (Hgo : forall s (m : C unit) w', walks s n m -> good 1 w1 w' -> runs m w' (fun _ w'' =>
    good 1 w1 w'' /\ (s = true -> (togo w'' < togo w)%nat \/ togo w = 0%nat))).
  { intros s m w' Hm G'. pose proof (good_rem _ _ _ _ G'). rewrite P1 in *.
    eapply runs_mono; [apply Hm; [apply G'|lia]|]. intros [] w'' [G'' Hs].
    split; [exact (good_trans _ _ _ _ _ _ G' G'')|]. intros Hlt%Hs. pose proof (good_rem _ _ _ _ G''). lia. }
  do 4 (eapply runs_step; [apply Hgo with (s := false); [first [apply (walks_consume _ Hsrc)|apply walks_parameters]|eassumption]|];
        clear dependent w2; intros [] w2 [G2 _]).
  eapply runs_step; [apply Hgo with (s := true); [apply walks_block|done]|]. intros [] w3 [G3 Hs]. specialize (Hs eq_refl).
  pose proof (good_ok _ _ _ _ G3) as Hok3.
  eapply runs_step; [by apply emit_return_good|]. intros [] w4 [G4 P4].
  apply Hend; [exact (good_trans _ _ _ _ _ _ G3 G4)|]. by rewrite P4.
Qed.

Lemma walks_fun_declaration : walks false n (Compiler.fun_declaration declaration).
Proof.
  pose proof (walks_compile_function FUNCTION). apply walks_path. unfold Compiler.fun_declaration.
  walk. apply walks_weaken. auto.
Qed.

Lemma walks_method : walks true n (Compiler.method declaration).
Proof.
  unfold Compiler.method. do 2 (apply walks_bind; [walk|intros _]). apply walks_previous. intros tok Hn.
  apply walks_name; [done|]. intros i. apply walks_strict; [|intros _; walk]. case_match; by apply walks_compile_function.
Qed.

(** ** Classes *)

Lemma path_superclass tok : no_nul (Token.lexeme tok) -> path 1 [] n nothing (Compiler.superclass pp tok).
Proof.
  intros Hn. unfold Compiler.superclass. 
  do 2 (apply path_bind; [walk|intros _]). apply path_previous. intros tok' _. apply path_bind; [walk|intros _].
  apply path_open with (i := 0). apply path_line. intros line. walk.
Qed.

Lemma walks_class_declaration : walks false n (Compiler.class_declaration pp declaration).
Proof.
  pose proof walks_method as Hm. apply walks_path. unfold Compiler.class_declaration.
  apply (path_parse_variable _ Hsrc). intros i. apply path_previous. intros tok Hn. apply path_name; [done|]. intros j.
  do 5 (apply path_bind; [walk|intros _]). apply path_previous. intros tok' Hn'.
  apply path_bind; [walk|]. intros []; cbn [negb].
  - apply path_join; [by apply path_superclass|intros _]. walk; by apply walks_until_token.
  - walk; by apply walks_until_token.
Qed.

(** ** Control flow *)

Lemma walks_if_statement : walks false n (Compiler.if_statement pp statement).
Proof. apply walks_path. unfold Compiler.if_statement. walk. Qed.

Lemma walks_while_statement : walks false n (Compiler.while_statement pp statement).
Proof. apply walks_path. unfold Compiler.while_statement. walk. Qed.

Lemma walks_for_initializer : walks false n (Compiler.for_initializer pp).
Proof.
  pose proof walks_var_declaration. pose proof walks_const_declaration. pose proof walks_expression_statement.
  unfold Compiler.for_initializer. walk.
Qed.

Lemma path_for_condition facts : path 0 facts n maybe_jump (Compiler.for_condition pp).
Proof.
  unfold Compiler.for_condition. apply path_bind; [walk|]. intros [].
  - apply path_ret. intros w _. by left.
  - do 2 (apply path_bind; [walk|intros _]). apply path_emit_last. intros off w ?. by right.
Qed.

Lemma walks_for_update loc : walks false n (Compiler.for_update pp loc).
Proof. apply walks_path. unfold Compiler.for_update. walk. Qed.

Lemma walks_for_statement : walks false n (Compiler.for_statement pp statement).
Proof.
  pose proof walks_for_initializer. pose proof walks_for_update. apply walks_path. unfold Compiler.for_statement.
  apply path_bind; [walk|intros _]. apply path_begin; [done|].
  do 2 (apply path_bind; [walk|intros _]). apply path_this. intros outer. apply path_bind; [walk|intros _].
  apply path_code_size. intros loc. apply path_offset; [apply path_for_condition|..];
    [change (-1 =? -1) with true; cbv iota|intros off];
    (apply path_bind; [apply path_walks; auto|intros loc']); walk.
Qed.

Lemma path_skip_jump facts b d : path 0 facts n maybe_jump
  (if b : bool then
     Compiler.error_if d "Cannot have cases following the 'default' case" ;;
     Compiler.expression pp ;; Compiler.emit_opcode OpCode.EQUAL ;; Compiler.emit_jump OpCode.POP_JUMP_IF_FALSE
   else
     Compiler.error_if d "Cannot have multiple 'default' statements in a single switch case" ;; mret (-1)).
Proof.
  destruct b.
  - do 3 (apply path_bind; [walk|intros _]). apply path_emit_last. intros off w ?. by right.
  - apply path_bind; [walk|intros _]. apply path_ret. intros w _. by left.
Qed.

Lemma path_switch_arm b : path 0 [] n jump_target (Compiler.switch_arm pp declaration b).
Proof.
  pose proof (walks_until_token Compiler.arm_ends declaration Hdecl). unfold Compiler.switch_arm.
  apply path_previous. intros tok Hn. apply path_bind; [walk|intros _]. apply path_begin; [done|].
  apply path_bind; [walk|intros _].
  apply path_offset; [apply path_skip_jump|change (-1 =? -1) with true; cbv iota|intros off];
    (apply path_bind; [walk|intros _]); apply path_peek; intros tok';
    do 2 (apply path_bind; [walk|intros _]); (apply path_end; [repeat constructor|]);
    apply path_emit; intros exit; (apply path_bind; [walk|intros _]);
    apply path_ret; intros w Hw; by inversion Hw.
Qed.

(** The arms of a switch: the jumps out of them are inside the code. *)
Definition arms_ok (a : Datatypes.list Z * bool * bool) w : Prop := Forall (fun off => jump_target off w) a.1.1.

Lemma arms_later a w w' : good 0 w w' -> arms_ok a w -> arms_ok a w'.
Proof. 
  intros G Ha. eapply Forall_impl; [exact Ha|]. intros off. by apply (jump_target_good src 0).
Qed.

Lemma switch_arm_good a d b w w1 : ok w -> good 0 w w1 -> arms_ok a w -> (togo w <= n)%nat ->
  (togo w1 < togo w)%nat ->
  runs (exit_jump ← Compiler.switch_arm pp declaration d; mret ((a.1.1 ++ [exit_jump], b, false), true)) w1
    (fun r w' => good 0 w w' /\ arms_ok r.1 w' /\ (r.2 = true -> (togo w' < togo w)%nat)).
Proof.
  intros Hok G1 Ha Hn Hlt. pose proof (good_ok _ _ _ _ G1) as Hok1.
  destruct (this_frame _ _ Hok1) as (c & cs & _ & Hfr & _ & Hdc). pose proof (frame_scope _ _ Hfr).
  eapply runs_step; [apply path_switch_arm; [done|lia|lia|done]|]. intros exit w2 [G2 Hexit].
  apply runs_ret. pose proof (good_rem _ _ _ _ G2). pose proof (good_trans0 _ _ _ _ _ G1 G2) as G.
  split_and!; [done| |cbn; lia]. apply Forall_app. split; [by eapply arms_later|by constructor].
Qed.

Lemma walks_switch_statement : walks false n (Compiler.switch_statement pp declaration).
Proof.
  unfold Compiler.switch_statement. do 2 (apply walks_bind; [walk|intros _]). intros w Hok Hn.
  apply runs_bind, (loop_fuel_runs src); [done|]. intros fuel Hfuel. eapply runs_step.
  { apply (loop_runs src arms_ok) with (n := n); [|done|constructor|done..]. clear w Hok Hn Hfuel.
    intros [[exits d] failed] w Hok Ha Hn. apply runs_bind, runs_peek.
    case_match; [apply runs_ret; split_and!; [by apply good_refl|done|done]|].
    eapply runs_step; [by apply match_good|]. intros [] w1.
    { intros (G1 & Hh & _ & Hl). pose proof (matched_left src _ _ Hok Hh). apply runs_bind, runs_ret.
      apply (switch_arm_good (exits, d, failed)); try done. by assert (0 < togo w)%nat by auto; lia. }
    intros [-> _]. eapply runs_step; [by apply match_good|]. intros [] w1.
    { intros (G1 & Hh & _ & Hl). pose proof (matched_left src _ _ Hok Hh).
      apply (switch_arm_good (exits, d, failed)); try done. by assert (0 < togo w)%nat by auto; lia. }
    intros [-> _]. eapply runs_step; [by apply report_good|]. intros [] w2 [G2 _]. apply runs_ret.
    split_and!; [done|by eapply arms_later|done]. }
  intros [[exits d] failed] w1 [G1 Ha]. pose proof (good_rem _ _ _ _ G1). pose proof (good_ok _ _ _ _ G1) as Hok1.
  destruct (this_frame _ _ Hok1) as (c & cs & _ & Hfr & _ & Hdc). pose proof (frame_scope _ _ Hfr).
  assert (Hend : path 0 (Offset <$> exits) n nothing (if failed then mret tt else
    (if d then mret tt else Compiler.emit_opcode OpCode.POP_TOP) ;;
    Compiler.parse (Parser.consume TokenType.RIGHT_BRACE "Expected '}' after switch statement") ;;
    for_each Compiler.patch_jump exits)).
  { walk. apply path_for_each. intros off Hoff. apply path_patch. by apply list_elem_of_fmap_2. }
  eapply runs_mono; [apply Hend; [done|lia|lia|by apply Forall_fmap]|]. intros [] w2 [G2 _].
  split; [exact (good_trans0 _ _ _ _ _ G1 G2)|done].
Qed.

Lemma walks_break_statement : walks false n Compiler.break_statement.
Proof. unfold Compiler.break_statement. walk. Qed.

Lemma walks_continue_statement : walks false n Compiler.continue_statement.
Proof.
  unfold Compiler.continue_statement. apply walks_this. intros c. do 2 (apply walks_bind; [walk|intros _]).
  apply walks_this. intros c'. apply walks_bind; [apply walks_for_each; intros _; walk|intros _; walk].
Qed.

Lemma walks_return_statement : walks false n (Compiler.return_statement pp).
Proof. unfold Compiler.return_statement. walk. Qed.

End statements.
