(* ===== verification/CompilerSafe.v ===== *)
(** * The recursion of the compiler

    Statements, declarations and expressions call one another; the fuel of
    [functions] is enough because a construct inside another one starts after
    one of its tokens.  Then the whole program. *)

From S2P Require Import Prelude Double HashMap HashMapFacts Hash Platform HashMapProps Opcode Token Lexer LexerFacts Value Chunk Object Memory CollectFacts SweepFacts AllocatorFacts GcProps WriteFacts Context ContextFacts Parser ParserFacts Compiler CompilerFacts CompilerSteps CompilerRules CompilerScopes CompilerExprs CompilerPrecedence CompilerStart CompilerStatements.
Import Compiler (all_roots).

Section recursion.
Context `{PlatformLaws} (src : Datatypes.list ascii) (Hsrc : nul ∉ src).
Implicit Types (w : world) (t : TokenType.t) (s : bool).

Abbreviation C := (M world).
Abbreviation ok := (world_ok src).
Abbreviation good := (good src).
Abbreviation walks := (walks src).
Abbreviation togo w := (prem (parser w)).

(** A statement, given the parsers of what is inside it. *)
Lemma walks_statement_body (pp : Z -> C unit) (statement declaration : C unit) n :
  (forall p, 1 <= p -> walks true n (pp p)) ->
  (forall n', n = S n' -> walks false n' statement) ->
  (forall n', n = S n' -> walks true n' declaration) ->
  walks true n (Compiler.statement_body pp statement declaration).
Proof.
  intros Hpp Hst Hdecl. unfold Compiler.statement_body.
  assert (Hpp' : forall n' p, n = S n' -> 1 <= p -> walks false n' (pp p)).
  { intros n' p -> Hp w Hok Hn. eapply runs_mono; [apply Hpp; [done..|lia]|]. by intros [] w' [G _]. }
  repeat match goal with
  | |- walks _ _ (Compiler.parse (Parser.match_token _) ≫= _) => apply (walks_match src Hsrc);
      [discriminate|intros n' Hn; specialize (fun p => Hpp' n' p Hn); cbv iota|cbv iota]
  end.
  - eapply walks_print_statement; eauto.
  - eapply walks_if_statement; eauto.
  - eapply walks_while_statement; eauto.
  - eapply walks_for_statement; eauto.
  - eapply walks_switch_statement; eauto.
  - apply walks_path, path_begin; [done|].
    apply path_bind; [by eapply path_walks, walks_weaken, walks_block; eauto|intros _; apply path_end_last].
  - eapply walks_continue_statement; eauto.
  - eapply walks_break_statement; eauto.
  - eapply walks_return_statement; eauto.
  - apply walks_peek. intros tok. case_decide; [by apply walks_advance|].
    apply walks_strict; [by apply Hpp|intros _]. walk_with ltac:(idtac) Hsrc.
Qed.

Lemma walks_declaration_body (pp : Z -> C unit) (statement declaration : C unit) n :
  (forall n' p, n = S n' -> 1 <= p -> walks false n' (pp p)) ->
  walks true n statement ->
  (forall n', n = S n' -> walks true n' declaration) ->
  walks true n (Compiler.declaration_body pp statement declaration).
Proof.
  intros Hpp Hst Hdecl. unfold Compiler.declaration_body.
  assert (Hst' : forall n', n = S n' -> walks false n' statement).
  { intros n' -> w Hok Hn. apply (walks_weaken src false _ _ Hst); [done|lia]. }
  apply walks_strict.
  - repeat match goal with
    | |- walks _ _ (Compiler.parse (Parser.match_token _) ≫= _) => apply (walks_match src Hsrc);
        [discriminate|intros n' Hn; specialize (fun p => Hpp n' p Hn); cbv iota|cbv iota]
    end.
    + eapply walks_var_declaration; eauto.
    + eapply walks_const_declaration; eauto.
    + eapply walks_fun_declaration; eauto.
    + eapply walks_class_declaration; eauto.
    + done.
  - intros _ w Hok Hn. unfold Parser.is_panic. apply runs_bind, runs_read.
    assert (Hw : forall b : bool, walks false n (if b then Compiler.parse Parser.synchronize else mret tt))
      by (intros []; walk_with ltac:(idtac) Hsrc).
    by apply Hw.
Qed.

(** The fuel: three calls for every token that may come. *)
Lemma functions_walk fuel : forall n,
  (forall p, 1 <= p -> (3 * n + 1 <= fuel)%nat -> walks true n (Compiler.run_parse_precedence (Compiler.functions fuel) p)) /\
  ((3 * n + 2 <= fuel)%nat -> walks true n (Compiler.run_statement (Compiler.functions fuel))) /\
  ((3 * n + 3 <= fuel)%nat -> walks true n (Compiler.run_declaration (Compiler.functions fuel))).
Proof.
  induction fuel as [|fuel IH]; intros n; [split_and!; intros; lia|].
  assert (Hpp : forall n' p, n = S n' -> 1 <= p -> (3 * n + 1 <= S fuel)%nat ->
    walks false n' (Compiler.run_parse_precedence (Compiler.functions fuel) p)).
  { intros n' p -> Hp Hf. apply walks_weaken. apply IH; [done|lia]. }
  assert (Hdecl : forall n', n = S n' -> (3 * n + 1 <= S fuel)%nat ->
    walks true n' (Compiler.run_declaration (Compiler.functions fuel))).
  { intros n' -> Hf. apply IH. lia. }
  split_and!; [intros p Hp Hf|intros Hf|intros Hf]; cbn [Compiler.functions Compiler.run_parse_precedence
    Compiler.run_statement Compiler.run_declaration].
  - apply walks_parse_precedence; [done| |done]. intros n' p' Hn Hp'. by apply Hpp.
  - apply walks_statement_body.
    + intros p Hp. apply IH; [done|lia].
    + intros n' ->. apply walks_weaken. apply IH. lia.
    + intros n' Hn. apply Hdecl; [done|lia].
  - apply walks_declaration_body.
    + intros n' p Hn Hp. apply Hpp; [done..|lia].
    + apply IH. lia.
    + intros n' Hn. apply Hdecl; [done|lia].
Qed.

(** ** The whole program *)

Lemma loop_end w : ok w -> runs (b ← Compiler.parse (Parser.match_token TokenType.END_OF_FILE); mret (negb b)) w
  (fun b w' => if b then w' = w /\ (0 < togo w)%nat /\ True else good 0 w w' /\ togo w' = 0%nat).
Proof.
  intros Hok. eapply runs_step; [by apply match_good|]. pose proof (left_end src _ Hok).
  intros [] w1; [intros (G & Hh & _ & Hl)|intros [-> Hh]]; apply runs_ret.
  - split; [done|]. apply H1 in Hh. lia.
  - split_and!; [done| |done]. destruct (togo w); [tauto|lia].
Qed.

(** Compiling ends with the whole text read; its result is the function of the current compiler. *)
Lemma compile_good w : ok w -> runs Compiler.compile w (fun r w' => good 0 w w' /\ togo w' = 0%nat /\
  if had_error_ (parser w') then r = (None, Compiler.COMPILE_ERROR)
  else exists f fn, r = (Some f, Compiler.OK) /\ current_fun w' f fn).
Proof.
  intros Hok. assert (Hn : (togo w <= length src + 1)%nat).
  { unfold prem, rem, Lexer.remaining, Lexer.size.
    rewrite (iter_source _ _ (current_ok _ _ (world_parser _ _ Hok))). case_decide; lia. }
  enough (Hrun : runs (fuel ← Compiler.loop_fuel;
    while_M fuel (b ← Compiler.parse (Parser.match_token TokenType.END_OF_FILE); mret (negb b))
      (Compiler.run_declaration (Compiler.functions (Compiler.compile_fuel w))) ;;
    Compiler.emit_return ;;
    failed ← Compiler.parse Parser.had_error;
    if failed : bool then mret (None, Compiler.COMPILE_ERROR)
    else r ← Compiler.this_function; mret (Some r, Compiler.OK)) w (fun r w' => good 0 w w' /\ togo w' = 0%nat /\
    if had_error_ (parser w') then r = (None, Compiler.COMPILE_ERROR)
    else exists f fn, r = (Some f, Compiler.OK) /\ current_fun w' f fn)) by exact Hrun.
  apply runs_bind, (loop_fuel_runs src); [done|]. intros fuel Hfuel. eapply runs_step.
  { apply (while_runs src (fun _ => True) (fun w' => togo w' = 0%nat) _ _ (length src + 1)); [by apply loop_end| |done..].
    intros w1 Hok1 Hn1 _. eapply runs_mono; [apply functions_walk with (n := (length src + 1)%nat); [|done..]|].
    - unfold Compiler.compile_fuel. rewrite (iter_source _ _ (current_ok _ _ (world_parser _ _ Hok))). lia.
    - intros [] w2 [G Hs]. split; [done|by apply Hs]. }
  intros [] w1 [G1 E1]. eapply runs_step; [apply emit_return_good, G1|]. intros [] w2 [G2 P2].
  pose proof (good_trans0 _ _ _ _ _ G1 G2) as G. unfold Parser.had_error. apply runs_bind, runs_read.
  destruct (had_error_ (parser w2)) eqn:He; [apply runs_ret; rewrite He, P2; by split_and!|].
  apply runs_bind, (runs_this_function src); [apply G2|]. intros f fn Hf. apply runs_ret. rewrite He, P2.
  split_and!; [done|done|by exists f, fn].
Qed.

End recursion.
