(* ===== verification/CompilerProps.v ===== *)
(** * Compiling a program

    What a run of the compiler promises, whatever the text: it ends, never
    uses memory wrongly although the collector may run at every allocation,
    and answers with a function or with error messages. *)

From S2P Require Import Prelude Double HashMap HashMapFacts Hash Platform HashMapProps Opcode Token Lexer LexerFacts Value Chunk Object Memory CollectFacts SweepFacts AllocatorFacts GcProps WriteFacts Context ContextFacts Parser ParserFacts Compiler CompilerFacts CompilerSteps CompilerRules CompilerScopes CompilerExprs CompilerPrecedence CompilerStart CompilerStatements CompilerSafe.

Section programs.
Context `{PlatformLaws}.
Implicit Types (src : list ascii) (m : Memory) (ctx : Context) (p : Parser) (v : option vm_roots).

Lemma compile_program_runs src m ctx p v : nul ∉ src -> base_ok src (mkWorld m ctx p [] v) ->
  runs (Compiler.new_compiler SCRIPT "" [] ;; Compiler.compile) (mkWorld m ctx p [] v) (fun r w =>
    world_ok src w /\ prem (parser w) = 0%nat /\ vm w = v /\ (exists c, compilers w = [c] /\ scope_depth c = 0) /\
    if had_error_ (parser w) then r = (None, Compiler.COMPILE_ERROR)
    else exists f fn, r = (Some f, Compiler.OK) /\ current_fun w f fn).
Proof.
  intros Hsrc Hb. eapply runs_step; [by apply (new_compiler_good src)|].
  intros [] w1 [Hok1 [_ Ev _ (c & Ec & Hd) _]]. eapply runs_mono; [by apply compile_good|].
  intros r w2 (G & Hrem & Hr). split_and!; [apply G|done|by rewrite (good_vm _ _ _ _ G)| |done].
  destruct (good_frames _ _ _ _ G) as (c1 & cs1 & c2 & cs2 & E1 & E2 & [] & Hcs).
  rewrite Ec in E1. injection E1 as <- <-. inversion Hcs; subst. exists c2. split; [done|lia].
Qed.

(** The state in which a file is compiled, before any allocation. *)
Lemma fresh_base src m p : inv m ∅ -> live_count 0 m -> temp_stash m = [] -> never_delete_objects m = [] ->
  parser_ok src p -> base_ok src (mkWorld m Context.empty p [] None).
Proof.
  intros Hi Hl Ht Hn Hp. constructor; cbn; [by exists ∅|done| |exists ∅|done|done].
  - intros c Hc. eapply closed_heap_subset; [|by apply (no_roots_safe m)]. intros o. unfold root_refs.
    rewrite Ht, Hn. cbn. rewrite Hc. intros [->|[]%not_elem_of_nil]%elem_of_cons. by left.
  - constructor; cbn; [|done|done|by intros r ?%not_elem_of_nil|done|constructor].
    apply (@empty_repr _ _ (string_key (heap_of (mkWorld m Context.empty p [] None))) (fun k => k <> None)).
Qed.

(** C1. Compiling a program ends, for every text without a zero byte: the fuel of the model is never
    exhausted, so neither the loops nor the recursion of the compiler run for ever. Its only undefined
    behaviour is the overflow of an [int] that counts bytes of code or globals, beyond 2^31 of them;
    it throws only at its three limits (a hash table or pool that cannot grow, more than 65536 constants
    in a chunk or captures in a function), although the collector may run at every allocation with the
    roots of the enclosing machine. Otherwise it has read all tokens; it answers with the function of
    its only compiler, which the heap still holds, or with an error if one was reported; no scope stays
    open, no pointer dangles, and the allocator, the globals and the parser keep their invariants. *)
Theorem compile_program_safe src m ctx p v : nul ∉ src -> base_ok src (mkWorld m ctx p [] v) ->
  match Compiler.compile_program m ctx p v with
  | Ret (r, w) =>
      world_ok src w /\ prem (parser w) = 0%nat /\ vm w = v /\
      (exists c, compilers w = [c] /\ scope_depth c = 0) /\
      if had_error_ (parser w) then r = (None, Compiler.COMPILE_ERROR)
      else exists f fn, r = (Some f, Compiler.OK) /\ current_fun w f fn
  | Throw e => e ∈ [HashMap.too_large; "Too many constants in chunk"; "Too many upvalues in function"]
  | Undef why => why = int_overflow
  | OutOfFuel => False
  end.
Proof. intros Hsrc Hb. exact (compile_program_runs src m ctx p v Hsrc Hb). Qed.

(** A whole compilation from a new allocator whose collector is off, as [compile_file] runs it. *)
Lemma compile_source_runs opts src : nul ∉ src ->
  match Compiler.compile_source opts src with
  | Ret (r, w) => world_ok src w /\
      if had_error_ (parser w) then r = (None, Compiler.COMPILE_ERROR)
      else exists f fn, r = (Some f, Compiler.OK) /\ Heap.function (heap_of w) f = Ret fn
  | Throw e => limit_error e
  | Undef why => why = int_overflow
  | OutOfFuel => False
  end.
Proof.
  intros Hsrc. unfold Compiler.compile_source. destruct (cbegin_runs src Hsrc) as (it & -> & Hit).
  cbn [mbind outcome_bind]. destruct (new_parser_runs src Hsrc it ErrorReporter.empty Hit) as (p & -> & Hp & _).
  cbn [mbind outcome_bind]. set (m := Compiler.disable_gc (Memory.initial opts)).
  assert (Hb : base_ok src (mkWorld m Context.empty p [] None)).
  { apply fresh_base; [|apply initial_live|done|done|done].
    pose proof (initial_inv opts) as [[] Hpool]. split; [by constructor|done]. }
  pose proof (compile_program_runs src m Context.empty p None Hsrc Hb) as Hr.
  unfold Compiler.compile_program, runs, outcome_runs in *.
  destruct ((Compiler.new_compiler SCRIPT "" [] ;; Compiler.compile) _) as [[r w]| | |]; [|done..].
  destruct Hr as (Hok & _ & _ & _ & Hr). split; [done|]. destruct (had_error_ _); [done|].
  destruct Hr as (f & fn & -> & c & cs & _ & _ & Hf). by exists f, fn.
Qed.

(** C11. Lexer, parser and compiler together end on every source file without a zero byte, from a new
    allocator, as [compile_file] runs them: with a function or with the result for reported errors,
    unless a limit of the tables throws, or an [int] that counts code or globals passes 2^31. *)
Theorem compile_source_total opts src : nul ∉ src ->
  match Compiler.compile_source opts src with
  | Ret ((f, result), w) =>
      (exists r fn, f = Some r /\ result = Compiler.OK /\ Heap.function (heap_of w) r = Ret fn) \/
      (f = None /\ result = Compiler.COMPILE_ERROR)
  | Throw e => limit_error e
  | Undef why => why = int_overflow
  | OutOfFuel => False
  end.
Proof.
  intros Hsrc. pose proof (compile_source_runs opts src Hsrc) as Hr.
  destruct (Compiler.compile_source opts src) as [[[f result] w]| | |]; try done. destruct Hr as [_ Hr].
  destruct (had_error_ _); [by right; injection Hr as -> ->|]. destruct Hr as (r & fn & [= -> ->] & Hf). left. by exists r, fn.
Qed.

End programs.

(** ** Witnesses *)

Definition sample_source : list ascii :=
  String.list_ascii_of_string "fun f(a) { fun g() { return a + 1; } return g; } class C { m() {} } echo f(41)();".

Lemma sample_no_nul : nul ∉ sample_source.
Proof. apply (bool_decide_unpack _). by vm_compute. Qed.

(** A collection at every allocation. *)
Lemma compile_program_safe_witness : exists it p, Lexer.cbegin sample_source = Ret it /\
  Parser.new_parser it ErrorReporter.empty = Ret p /\
  exists w, Compiler.compile_program (Memory.initial stress) Context.empty p None =
    Ret ((Some 2%positive, Compiler.OK), w) /\ world_ok sample_source w /\ (10 < gc_cycles (memory w))%Z.
Proof.
  destruct (cbegin_runs sample_source sample_no_nul) as (it & Eit & Hit).
  destruct (new_parser_runs sample_source sample_no_nul it ErrorReporter.empty Hit) as (p & Ep & Hp & _).
  pose proof (compile_program_safe sample_source (Memory.initial stress) Context.empty p None sample_no_nul
    (fresh_base sample_source _ p (initial_inv stress) (initial_live stress) eq_refl eq_refl Hp)) as Hsafe.
  exists it, p. split; [done|]. split; [done|]. revert Hsafe.
  assert (Hrun : exists r w, Compiler.compile_program (Memory.initial stress) Context.empty p None = Ret (r, w) /\
    r = (Some 2%positive, Compiler.OK) /\ 10 < gc_cycles (memory w)).
  { vm_compute in Eit. injection Eit as <-. vm_compute in Ep. injection Ep as <-.
    eexists _, _. split; [vm_compute; reflexivity|by vm_compute]. }
  destruct Hrun as (r & w & -> & -> & Hgc). intros [Hok _]. exists w. by split_and!.
Defined.

(** Broken text: the parser reports, and goes on to the end. *)
Definition broken_source : list ascii := String.list_ascii_of_string "fun f( { var 1 = ; } } class } if (".

Lemma compile_source_total_witness : exists w,
  Compiler.compile_source default_vm_opts broken_source = Ret ((None, Compiler.COMPILE_ERROR), w).
Proof.
  assert (Hn : nul ∉ broken_source) by (apply (bool_decide_unpack _); by vm_compute).
  pose proof (compile_source_total default_vm_opts broken_source Hn) as Ht.
  assert (Hrun : match Compiler.compile_source default_vm_opts broken_source with
    | Ret ((_, Compiler.COMPILE_ERROR), _) => True | _ => False end) by by vm_compute.
  destruct (Compiler.compile_source _ _) as [[[f result] w]| | |]; try done.
  exists w. destruct Ht as [(r & fn & -> & -> & _)|[-> ->]]; done.
Defined.
