(* ===== verification/Collections.v ===== *)
(** * Lists and maps (include/list.hpp, include/map.hpp)

    The member functions of [ObjectList] and [ObjectMap].  List indices are
    [int64_t] and are compared with a [size_t], so a negative index is treated
    as a very large one. *)

From S2P Require Import Prelude Double HashMap Hash Platform Opcode Value Chunk Object.

Module List.

Definition size (l : ObjectList) : Z := i64 (Z.of_nat (length (values l))).

(** [index >= values.size()] *)
Definition out_of_range (l : ObjectList) (index : Z) : bool :=
  Z.of_nat (length (values l)) <=? u64 index.

Definition append (l : ObjectList) (v : Value) : ObjectList := mkList (values l ++ [v]).

Definition get (l : ObjectList) (index : Z) : option Value :=
  if out_of_range l index then None else values l !! Z.to_nat (u64 index).

Definition erase (l : ObjectList) (index : Z) : bool * ObjectList :=
  if out_of_range l index then (false, l)
  else (true, mkList (delete (Z.to_nat (u64 index)) (values l))).

Definition set (l : ObjectList) (index : Z) (v : Value) : bool * ObjectList :=
  if out_of_range l index then (false, l)
  else (true, mkList (<[Z.to_nat (u64 index) := v]> (values l))).

Definition pop (l : ObjectList) : option Value * ObjectList :=
  match last (values l) with
  | None => (None, l)
  | Some v => (Some v, mkList (removelast (values l)))
  end.

Definition concat (a b : ObjectList) : ObjectList := mkList (values a ++ values b).
Definition clear (l : ObjectList) : ObjectList := mkList [].

End List.

(** The heap is a parameter: keys are hashed and compared through it. *)
Module Map.
Section map.
Context `{Platform} (h : heap).

#[local] Existing Instance value_key.

Definition size (m : ObjectMap) : Z := i64 (HashMap.size (map_table m)).

Definition get (m : ObjectMap) (key : Value) : outcome (option Value) :=
  @HashMap.get _ _ (value_key h) (map_table m) key.

Definition get_default (m : ObjectMap) (key default_value : Value) : outcome Value :=
  val ← get m key; Ret (default default_value val).

Definition set (m : ObjectMap) (key value : Value) : outcome (bool * ObjectMap) :=
  hash ← value_hash h key;
  if hash =? -1 then Ret (false, m)
  else t ← @HashMap.assign _ _ (value_key h) (map_table m) key value; Ret (true, mkMap t).

Definition has (m : ObjectMap) (key : Value) : outcome bool :=
  @HashMap.contains _ _ (value_key h) (map_table m) key.

Definition remove (m : ObjectMap) (key : Value) : outcome (bool * ObjectMap) :=
  '(b, t) ← @HashMap.erase _ _ (value_key h) (map_table m) key; Ret (b, mkMap t).

Definition clear (m : ObjectMap) : ObjectMap := mkMap (HashMap.clear (map_table m)).

Definition keys (m : ObjectMap) : list Value := (HashMap.entries (map_table m)).*1.
Definition values (m : ObjectMap) : list Value := (HashMap.entries (map_table m)).*2.

End map.
End Map.
