(* ===== verification/ValueProps.v ===== *)
(** * What equality, hashing, maps and the global table promise *)

From S2P Require Import Prelude Double HashMap HashMapFacts Hash Platform HashMapProps Opcode Value Chunk Object KeyFacts Collections Context.

(** ** Maps *)

Definition map_ok `{PlatformLaws} (h : heap) (m : ObjectMap) (g : gmap Value Value) : Prop :=
  @repr _ _ (value_key h) (plain_key h) _ _ (map_table m) g.

Definition map_can_grow `{PlatformLaws} (h : heap) (m : ObjectMap) : Prop :=
  @can_grow _ _ (value_key h) (map_table m).

Section lemmas.
Context `{PlatformLaws}.

Lemma plain_hash h k : plain_key h k -> exists x, value_hash h k = Ret x.
Proof.
  intros [_ Hk]. unfold value_hash, receiver_depth. destruct k as [u [|b|d|i|r]]; cbn in *; eauto.
  destruct Hk as (o & -> & Ho). cbn [mbind outcome_bind]. destruct o; try done; eauto.
Qed.

Lemma map_set_ok h m g k v :
  hashes_ok h -> map_ok h m g -> plain_key h k -> map_can_grow h m -> ~ is_container h k ->
  exists m', Map.set h m k v = Ret (true, m') /\ map_ok h m' (<[k := v]> g).
Proof.
  intros Hok Hm Hk Hg Hc. unfold Map.set. destruct (plain_hash h k Hk) as [x Hx]. rewrite Hx.
  cbn [mbind outcome_bind]. destruct (Z.eqb_spec x (-1)) as [->|Hne].
  { destruct Hc. by apply (hash_code_minus_one receiver_depth h k (-1) Hok Hx). }
  destruct (@assign_repr _ _ (value_key h) (plain_key h) _ _ _ _ _ k v Hm Hk) as [[_ Hn]|(t & -> & Ht)];
    [by destruct Hn|]. cbn [mbind outcome_bind]. by eexists.
Qed.

Lemma map_set_container h m k v :
  hashes_ok h -> is_container h k -> Map.set h m k v = Ret (false, m).
Proof.
  intros Hok (r & o & Hr & Ho & Hc). unfold Map.set, value_hash, receiver_depth.
  destruct k as [u d]. cbn in Hr. subst d. cbn [hash_code data]. rewrite Ho. by destruct o.
Qed.

(** ** Global variables *)

Record context_ok (h : heap) (c : Context) (g : gmap (option ref) Z) : Prop := {
  context_table : @repr _ _ (string_key h) (fun k => k <> None) _ _ (global_names c) g;
  context_length : length (names c) = length (globals c);
  context_size : Z.of_nat (length (globals c)) < 2 ^ 31;
  context_index : forall r i, g !! Some r = Some i <-> 0 <= i /\ names c !! Z.to_nat i = Some r
}.

Lemma get_global_spec h c g name :
  context_ok h c g -> @can_grow _ _ (string_key h) (global_names c) ->
  Z.of_nat (length (globals c)) < 2 ^ 31 - 1 ->
  exists i c' g', Context.get_global h c name = Ret (i, c') /\ context_ok h c' g' /\
    Context.get_name c' i = Ret name /\
    match g !! Some name with
    | Some j => i = j /\ c' = c
    | None => i = Z.of_nat (length (globals c)) /\ names c' = names c ++ [name] /\
              globals c' = globals c ++ [Context.new_global]
    end.
Proof.
  intros [Ht Hlen Hsz Hidx] Hgrow Hroom. unfold Context.get_global.
  rewrite (@get_repr _ _ (string_key h) (fun k => k <> None) _ _ _ _ _ (Some name) Ht) by done.
  cbn [mbind outcome_bind]. destruct (g !! Some name) as [i|] eqn:Ei.
  - exists i, c, g. split_and!; try done. apply Hidx in Ei as [Hi Hn]. unfold Context.get_name.
    rewrite (proj2 (Z.ltb_ge _ _)) by lia. by rewrite Hn.
  - rewrite length_app. cbn [length]. set (n := length (globals c)) in *.
    assert (E : i32 (Z.of_nat (n + 1) - 1) = Z.of_nat n) by (rewrite i32_small; unfold is_i32; lia).
    rewrite E.
    destruct (@insert_repr _ _ (string_key h) (fun k => k <> None) _ _ _ _ _ (Some name) (Z.of_nat n) Ht)
      as [[_ Hn]|(t & -> & Ht')]; [done|by destruct Hn|].
    cbn [mbind outcome_bind]. eexists _, _, _. split; [done|]. split; [constructor; cbn|]; cbn.
    + exact Ht'.
    + rewrite !length_app. cbn. lia.
    + rewrite length_app. cbn. lia.
    + intros r i. rewrite lookup_insert_Some, lookup_snoc_Some, Hidx. split.
      * intros [[[= <-] <-]|[Hne [Hi Hn]]]; [split; [lia|right; lia]|].
        split; [done|left]. by split; [eapply lookup_lt_Some|].
      * intros [Hi [[_ Hn]|[E' <-]]]; [|left; split; [done|lia]].
        right. split; [|done]. intros [= <-]. assert (g !! Some name = Some i) by by apply Hidx. congruence.
    + split_and!; try done. unfold Context.get_name. cbn. rewrite (proj2 (Z.ltb_ge _ _)) by lia.
      rewrite Nat2Z.id. by rewrite lookup_app_r, <-Hlen, Nat.sub_diag by lia.
Qed.

End lemmas.

(** ** Properties *)

(** The values that cannot be hashed are exactly the lists and the maps: in a heap whose strings
    hold the hashes of their texts, [hash_code] gives -1, the reserved code, for those and for no
    other value. *)
Lemma unhashable_are_containers `{PlatformLaws} (h : heap) (v : Value) (x : Z) :
  hashes_ok h -> value_hash h v = Ret x -> x = -1 <-> is_container h v.
Proof. apply hash_code_minus_one. Qed.

(** C27. Values that compare equal have the same hash, when the first is not a real number (an object
    included: bound methods compare their receivers and methods, upvalues the variables they share). *)
Theorem equal_values_hash_alike `{PlatformLaws} (h : heap) (a b : Value) :
  hashes_ok h -> Value.is_real a = false -> value_equal h a b = Ret true -> value_hash h a = value_hash h b.
Proof. apply equal_hash. Qed.

Definition two_bound : heap :=
  <[1%positive := mkCell false (ObjBoundMethod (mkBoundMethod (Value.of_int 5) 3%positive))]>
  {[2%positive := mkCell false (ObjBoundMethod (mkBoundMethod (Value.of_int 5) 3%positive))]}.

Lemma equal_values_hash_alike_witness :
  value_equal two_bound (Value.of_object 1%positive) (Value.of_object 2%positive) = Ret true /\
  value_hash two_bound (Value.of_object 1%positive) = value_hash two_bound (Value.of_object 2%positive).
Proof.
  split; [by vm_compute|]. apply equal_values_hash_alike; [|done|by vm_compute].
  intros r c. unfold two_bound. rewrite lookup_insert_Some, lookup_singleton_Some.
  intros [[_ <-]|[_ [_ <-]]]; done.
Defined.

(** C30. Real numbers break that law: two that differ by less than EPSILON compare equal and have
    different hashes, so a table keyed by values can hold both. *)
Theorem reals_equal_with_different_hashes `{Platform} (h : heap) :
  exists a b, value_equal h a b = Ret true /\ value_hash h a <> value_hash h b.
Proof.
  exists (Value.of_real (Double.of_Z 0)), (Value.of_real (S754_finite false 4503599627370496 (-102))).
  split; [by vm_compute|]. by vm_compute.
Qed.

(** C28. Maps are finite maps on the keys whose equality is that of the values (not nil, which is the
    table's default key, not reals, bound methods or upvalues): reading, membership and removal give
    what the abstract map gives; setting refuses lists and maps and otherwise inserts. *)
Theorem map_refines_gmap `{PlatformLaws} (h : heap) (m : ObjectMap) (g : gmap Value Value)
    (k v : Value) :
  hashes_ok h -> map_ok h m g -> plain_key h k -> map_can_grow h m ->
  Map.get h m k = Ret (g !! k) /\
  Map.has h m k = Ret (bool_decide (is_Some (g !! k))) /\
  (exists m', Map.remove h m k = Ret (bool_decide (is_Some (g !! k)), m') /\ map_ok h m' (delete k g)) /\
  (is_container h k -> Map.set h m k v = Ret (false, m)) /\
  (~ is_container h k -> exists m', Map.set h m k v = Ret (true, m') /\ map_ok h m' (<[k := v]> g)).
Proof.
  intros Hok Hm Hk Hg. split_and!.
  - by apply (@get_repr _ _ (value_key h) (plain_key h) _).
  - by apply (@contains_repr _ _ (value_key h) (plain_key h) _).
  - unfold Map.remove.
    destruct (@erase_repr _ _ (value_key h) (plain_key h) _ _ _ _ _ k Hm Hk) as (t & -> & Ht). by eexists.
  - by apply map_set_container.
  - by apply map_set_ok.
Qed.

Lemma map_refines_gmap_witness :
  exists m', Map.set ∅ (mkMap HashMap.empty) (Value.of_int 4) Value.nil = Ret (true, m') /\
    map_ok ∅ m' (<[Value.of_int 4 := Value.nil]> ∅).
Proof.
  refine (proj2 (proj2 (proj2 (proj2 (map_refines_gmap ∅ (mkMap HashMap.empty) ∅ (Value.of_int 4) Value.nil _ _ _ _)))) _).
  - by intros r c.
  - apply (@empty_repr _ _ (value_key ∅)).
  - done.
  - by vm_compute.
  - intros (r & o & [=] & _).
Defined.

(** The global table gives every name one index for good: asking for a known name returns its
    index and changes nothing, a new name gets the next index with an undefined variable, and the
    index leads back to the name, so that different names never share an index. *)
Lemma global_names_indexed `{PlatformLaws} (h : heap) (c : Context) (g : gmap (option ref) Z)
    (name : ref) :
  context_ok h c g -> @can_grow _ _ (string_key h) (global_names c) ->
  Z.of_nat (length (globals c)) < 2 ^ 31 - 1 ->
  exists i c' g', Context.get_global h c name = Ret (i, c') /\ context_ok h c' g' /\
    Context.get_name c' i = Ret name /\
    match g !! Some name with
    | Some j => i = j /\ c' = c
    | None => i = Z.of_nat (length (globals c)) /\ names c' = names c ++ [name] /\
              globals c' = globals c ++ [Context.new_global]
    end.
Proof. apply get_global_spec. Qed.

Lemma global_names_indexed_witness :
  exists i c' g', Context.get_global ∅ Context.empty 7%positive = Ret (i, c') /\ context_ok ∅ c' g' /\
    Context.get_name c' i = Ret 7%positive /\
    match (∅ : gmap (option ref) Z) !! Some 7%positive with
    | Some j => i = j /\ c' = Context.empty
    | None => i = Z.of_nat (length (globals Context.empty)) /\ names c' = names Context.empty ++ [7%positive] /\
              globals c' = globals Context.empty ++ [Context.new_global]
    end.
Proof.
  apply global_names_indexed; [constructor|by vm_compute|done].
  - apply (@empty_repr _ _ (string_key ∅)).
  - done.
  - done.
  - intros r i. rewrite lookup_empty. split; [done|]. by intros [_ ?].
Defined.
