(* ===== verification/VM.v ===== *)
(** * The virtual machine (include/vm.hpp, src/vm/vm.cpp)

    Pointers into the evaluation stack and into a function's code are indices
    ([nat] and [Z]); one definition per instruction, one per member function.
    The native functions are a parameter: [Natives] defines them. *)

From S2P Require Import Prelude Double HashMap Hash Platform Opcode Parser Compiler Value Chunk Object Collections Memory Context.
Import Compiler (InterpretResult, OK, RUNTIME_ERROR).

Definition MAX_FRAME_SIZE : Z := 256.

(** ** State *)

Record CallFrame : Type := mkFrame { frame_closure : ref; ip : Z; frame_slots : nat }.

Record VM : Type := mkVM {
  evalstack : list Value;
  frames : list (option CallFrame);
  current_frame : option nat;
  frame_count : nat;
  stack_top : nat;
  open_upvalues : option ref;
  constant_string_init : ref
}.

(** The machine with what it refers to.  [outer_roots] are those of a compiler that is
    still alive, [output] what was written to the output stream (the last text first), [stdin]
    the lines still to be read. *)
Record machine : Type := mkMachine {
  mem : Memory;
  globals_ : Context;
  errors : ErrorReporter;
  state : VM;
  output : list string;
  stdin : list string;
  outer_roots : list (option ref)
}.

Module VM.
Section vm.
Context `{Platform}.

Abbreviation V := (M machine).

Definition set_mem (w : machine) (m : Memory) : machine :=
  mkMachine m (globals_ w) (errors w) (state w) (output w) (stdin w) (outer_roots w).
Definition set_globals (w : machine) (c : Context) : machine :=
  mkMachine (mem w) c (errors w) (state w) (output w) (stdin w) (outer_roots w).
Definition set_errors (w : machine) (r : ErrorReporter) : machine :=
  mkMachine (mem w) (globals_ w) r (state w) (output w) (stdin w) (outer_roots w).
Definition set_state (w : machine) (s : VM) : machine :=
  mkMachine (mem w) (globals_ w) (errors w) s (output w) (stdin w) (outer_roots w).
Definition set_output (w : machine) (o : list string) : machine :=
  mkMachine (mem w) (globals_ w) (errors w) (state w) o (stdin w) (outer_roots w).
Definition set_stdin (w : machine) (i : list string) : machine :=
  mkMachine (mem w) (globals_ w) (errors w) (state w) (output w) i (outer_roots w).

Definition set_stack (s : VM) (st : list Value) (top : nat) : VM :=
  mkVM st (frames s) (current_frame s) (frame_count s) top (open_upvalues s) (constant_string_init s).
Definition set_frames (s : VM) (fs : list (option CallFrame)) (cur : option nat) (n : nat) : VM :=
  mkVM (evalstack s) fs cur n (stack_top s) (open_upvalues s) (constant_string_init s).
Definition set_open (s : VM) (u : option ref) : VM :=
  mkVM (evalstack s) (frames s) (current_frame s) (frame_count s) (stack_top s) u
    (constant_string_init s).

Definition vm_state : V VM := gets state.
Definition put_state (s : VM) : V unit := modify (fun w => set_state w s).
Definition heap_of : V heap := gets (fun w => objects (mem w)).

Definition read_heap {A} (f : heap -> outcome A) : V A := h ← heap_of; lift (f h).
Definition write_object (r : ref) (o : Object) : V unit :=
  modify (fun w => set_mem w (Memory.set_objects (mem w) (Heap.write (objects (mem w)) r o))).

(** ** The evaluation stack *)

Definition push (v : Value) : V unit :=
  s ← vm_state;
  if Nat.eqb (stack_top s) (length (evalstack s)) then throw "Stack overflow"
  else put_state (set_stack s (<[stack_top s := v]> (evalstack s)) (S (stack_top s))).

(** Reading and writing [evalstack[i]] through a pointer. *)
Definition load_slot (i : nat) : V Value :=
  s ← vm_state; lift (or_undef "stack slot out of range" (evalstack s !! i)).

Definition store_slot (i : nat) (v : Value) : V unit :=
  s ← vm_state;
  if decide (i < length (evalstack s))%nat
  then put_state (set_stack s (<[i := v]> (evalstack s)) (stack_top s))
  else undef "stack slot out of range".

Definition pop : V Value :=
  s ← vm_state;
  match stack_top s with
  | O => throw "Stack underflow"
  | S top => put_state (set_stack s (evalstack s) top) ;; load_slot top
  end.

Definition peek (offset : nat) : V Value :=
  s ← vm_state;
  if (stack_top s <=? offset)%nat then throw "Stack underflow while peek()"
  else load_slot (stack_top s - offset - 1).

(** [stack_top - arg_count - 1], as a pointer. *)
Definition callee_slot (arg_count : nat) : V nat :=
  s ← vm_state;
  if (stack_top s <=? arg_count)%nat then undef "pointer before the stack"
  else mret (stack_top s - arg_count - 1)%nat.

Definition set_top (top : nat) : V unit :=
  s ← vm_state; put_state (set_stack s (evalstack s) top).

(** ** Frames and operands *)

Definition frame (i : nat) : V CallFrame :=
  s ← vm_state; lift (or_undef "frame not set" (mjoin (frames s !! i))).

Definition frame_now : V CallFrame :=
  s ← vm_state;
  i ← lift (or_undef "no current frame" (current_frame s));
  frame i.

Definition set_ip (new_ip : Z) : V unit :=
  f ← frame_now;
  s ← vm_state;
  i ← lift (or_undef "no current frame" (current_frame s));
  put_state (set_frames s (<[i := Some (mkFrame (frame_closure f) new_ip (frame_slots f))]> (frames s))
               (current_frame s) (frame_count s)).

(** [closure->get()->get()]: the chunk a frame executes. *)
Definition closure_function (c : ref) : V ObjectFunction :=
  cl ← read_heap (fun h => Heap.closure h c); read_heap (fun h => Heap.function h (function cl)).

Definition read_byte : V Z :=
  f ← frame_now;
  fn ← closure_function (frame_closure f);
  b ← (if ip f <? 0 then undef "ip out of range"
       else lift (or_undef "ip out of range" (code (chunk fn) !! Z.to_nat (ip f))));
  set_ip (ip f + 1) ;;
  mret b.

Definition read_uint16_le : V Z :=
  lo ← read_byte; hi ← read_byte; mret (Z.lor lo (u16 (Z.shiftl hi 8))).

Definition constant (i : Z) : V Value :=
  f ← frame_now;
  fn ← closure_function (frame_closure f);
  lift (Chunk.get_value_unchecked (chunk fn) i).

Definition read_constant : V Value := i ← read_byte; constant i.
Definition read_constant_long : V Value := i ← read_uint16_le; constant i.

(** ** Errors *)

Definition string_of (r : ref) : V string := s ← read_heap (fun h => Heap.string h r); mret (str s).

(** One line of the stack trace. *)
Definition trace_frame (i : nat) : V unit :=
  f ← frame i;
  fn ← closure_function (frame_closure f);
  func_name ← string_of (name_ fn);
  let line := Chunk.get_line_number (chunk fn) (i32 (ip f - 1)) in
  let text := if String.eqb func_name "" then "in script" else ("in " +:+ func_name +:+ "()") in
  modify (fun w => set_errors w (ErrorReporter.report (errors w) ERROR_STACK_TRACE line text)).

Definition report_error (text : string) : V unit :=
  s ← vm_state;
  for_each trace_frame (rev (seq 0 (frame_count s))) ;;
  f ← frame_now;
  fn ← closure_function (frame_closure f);
  let line := Chunk.get_line_number (chunk fn) (i32 (ip f)) in
  modify (fun w => set_errors w (ErrorReporter.report (errors w) LEVEL_ERROR line text)).

(** [report_error(...); return InterpretResult::RUNTIME_ERROR;]; going on is [None]. *)
Definition fail (text : string) : V (option InterpretResult) :=
  report_error text ;; mret (Some RUNTIME_ERROR).
Definition continue : V (option InterpretResult) := mret None.
(** [if (!called) return RUNTIME_ERROR; current_frame = &frames[frame_count - 1];] *)
Definition after_call (ok : bool) : V (option InterpretResult) :=
  if ok then
    s ← vm_state;
    put_state (set_frames s (frames s) (Some (Nat.pred (frame_count s))) (frame_count s)) ;; continue
  else mret (Some RUNTIME_ERROR).

(** ** Allocation *)

(** The open upvalues, from the one nearest the top of the stack. *)
Fixpoint upvalue_chain (fuel : nat) (h : heap) (u : option ref) : outcome (list (option ref)) :=
  match u with
  | None => Ret []
  | Some r =>
      match fuel with
      | O => OutOfFuel
      | S fuel => o ← Heap.upvalue h r; rest ← upvalue_chain fuel h (next o); Ret (Some r :: rest)
      end
  end.

Definition value_root (v : Value) : option ref :=
  match data v with OBJECT r => Some r | _ => None end.

(** The machine's part of [mark_roots]. *)
Definition vm_roots (w : machine) : outcome (list (option ref)) :=
  let s := state w in
  upvalues ← upvalue_chain (size (objects (mem w))) (objects (mem w)) (open_upvalues s);
  Ret ((value_root <$> take (stack_top s) (evalstack s)) ++
       ((fun f => frame_closure <$> mjoin (frames s !! f)) <$> seq 0 (frame_count s)) ++
       upvalues ++ Context.global_roots (globals_ w) ++ [Some (constant_string_init s)]).

Definition allocate {A} (f : list (option ref) -> M Memory A) : V A := fun w =>
  roots ← vm_roots w;
  zoom mem set_mem (f (outer_roots w ++ roots)) w.

Definition intern (s : string) : V ref := allocate (fun roots => Allocator.intern_string roots s).

(** [a.is_string()], and the like. *)
Definition is_type (t : ObjectType.t) (v : Value) : V bool := read_heap (fun h => Heap.is_type h t v).

(** ** Upvalues *)

(** [upvalue->get() >= last_value] on stack locations. *)
Definition stack_location (u : ObjectUpvalue) : outcome nat :=
  match loc u with Slot i => Ret i | Closed => Undef "comparison of unrelated pointers" end.

Fixpoint close_upvalues (fuel : nat) (last_value : nat) : V unit :=
  s ← vm_state;
  match open_upvalues s with
  | None => mret tt
  | Some r =>
      u ← read_heap (fun h => Heap.upvalue h r);
      i ← lift (stack_location u);
      if (last_value <=? i)%nat then
        match fuel with
        | O => out_of_fuel
        | S fuel =>
            v ← load_slot i;
            write_object r (ObjUpvalue (mkUpvalue (next u) v Closed)) ;;
            put_state (set_open s (next u)) ;;
            close_upvalues fuel last_value
        end
      else mret tt
  end.

(** Each open upvalue is closed once. *)
Definition close_from (last_value : nat) : V unit :=
  h ← heap_of; close_upvalues (size h) last_value.

(** The search of [capture_upvalue]: the previous node and the one it stopped at. *)
Fixpoint find_upvalue (fuel : nat) (h : heap) (prev current : option ref) (slot : nat)
    : outcome (option ref * option ref) :=
  match current with
  | None => Ret (prev, None)
  | Some r =>
      u ← Heap.upvalue h r;
      i ← stack_location u;
      if (slot <? i)%nat then
        match fuel with
        | O => OutOfFuel
        | S fuel => find_upvalue fuel h current (next u) slot
        end
      else Ret (prev, current)
  end.

Definition link_upvalue (prev : option ref) (new : ref) : V unit :=
  match prev with
  | None => s ← vm_state; put_state (set_open s (Some new))
  | Some p =>
      u ← read_heap (fun h => Heap.upvalue h p);
      write_object p (ObjUpvalue (mkUpvalue (Some new) (closed u) (loc u)))
  end.

Definition capture_upvalue (slot : nat) : V ref :=
  s ← vm_state;
  '(prev, current) ← read_heap (fun h => find_upvalue (size h) h None (open_upvalues s) slot);
  same ← match current with
         | None => mret false
         | Some r => u ← read_heap (fun h => Heap.upvalue h r);
                     i ← lift (stack_location u); mret (Nat.eqb i slot)
         end;
  match (same : bool), current with
  | true, Some r => mret r
  | _, _ =>
      new ← allocate (fun roots => Allocator.new_upvalue roots slot);
      u ← read_heap (fun h => Heap.upvalue h new);
      write_object new (ObjUpvalue (mkUpvalue current (closed u) (loc u))) ;;
      link_upvalue prev new ;;
      mret new
  end.

(** ** Calls *)

(** [call(closure, arg_count)] *)
Definition call (closure : ref) (arg_count : nat) : V bool :=
  fn ← closure_function closure;
  if negb (Z.of_nat arg_count =? u64 (arity_ fn)) then
    nm ← string_of (name_ fn);
    report_error ("Expected " +:+ to_string (u64 (arity_ fn)) +:+ " arguments to call " +:+ nm +:+
                  "(), got " +:+ to_string (Z.of_nat arg_count)) ;;
    mret false
  else
    s ← vm_state;
    if Z.of_nat (frame_count s) =? MAX_FRAME_SIZE then
      report_error "Stack overflow: too many frames" ;; mret false
    else if decide (frame_count s < length (frames s))%nat then
      base ← callee_slot arg_count;
      put_state (set_frames s (<[frame_count s := Some (mkFrame closure 0 base)]> (frames s))
                   (current_frame s) (S (frame_count s))) ;;
      mret true
    else undef "frame out of range".

Section calls.
Variable call_native : NativeFunction -> nat -> nat -> V (Value * bool).

Definition call_class (c : ref) (arg_count : nat) : V bool :=
  slot ← callee_slot arg_count;
  instance ← allocate (fun roots => Allocator.new_instance roots c);
  store_slot slot (Value.of_object instance) ;;
  cl ← read_heap (fun h => Heap.class h c);
  match data (init_method cl) with
  | NIL =>
      if Nat.eqb arg_count 0 then mret true
      else
        nm ← string_of (class_name cl);
        report_error ("Expected 0 arguments to call " +:+ nm +:+ "(), got " +:+
                      to_string (Z.of_nat arg_count)) ;;
        mret false
  | _ => init ← lift (Value.as_object (init_method cl)); call init arg_count
  end.

(** [native_func(this, arg_count, stack_top - arg_count - 1)] *)
Definition call_native_function (n : ObjectNativeFunction) (arg_count : nat) : V bool :=
  let arity := u64 (native_arity n) in
  if negb (arity =? u64 (-1)) && negb (Z.of_nat arg_count =? arity) then
    report_error ("Expected " +:+ to_string arity +:+ " arguments to call native function, got " +:+
                  to_string (Z.of_nat arg_count)) ;;
    mret false
  else
    args ← callee_slot arg_count;
    '(result, ok) ← call_native (native_function n) arg_count args;
    if (ok : bool) then
      args ← callee_slot arg_count;
      set_top args ;; push result ;; mret true
    else mret false.

Definition call_value (callee : Value) (arg_count : nat) : V bool :=
  let bad_call :=
    report_error "invalid call to non function, can only call functions and classes" ;; mret false in
  match data callee with
  | OBJECT r =>
      o ← read_heap (fun h => Heap.read h r);
      match o with
      | ObjFunction _ => throw "naked functions should not exist"
      | ObjClosure _ => call r arg_count
      | ObjBoundMethod b =>
          slot ← callee_slot arg_count;
          store_slot slot (receiver_ b) ;;
          call (method_ b) arg_count
      | ObjClass _ => call_class r arg_count
      | ObjNative n => call_native_function n arg_count
      | _ => bad_call
      end
  | _ => bad_call
  end.

(** Tables keyed by strings, through the heap. *)
Definition table_get (t : StringValueTable) (k : ref) : V (option Value) :=
  read_heap (fun h => @HashMap.get _ _ (string_key h) t (Some k)).

Definition method_closure (v : Value) : V ref := lift (Value.as_object v).

Definition invoke_from_class (c method_name : ref) (arg_count : nat) : V bool :=
  cl ← read_heap (fun h => Heap.class h c);
  method ← table_get (methods_ cl) method_name;
  match method with
  | None =>
      cn ← string_of (class_name cl);
      mn ← string_of method_name;
      report_error ("Runtime Error: Instance of class '" +:+ cn +:+ "' has no method '" +:+ mn +:+ "'") ;;
      mret false
  | Some v => r ← method_closure v; call r arg_count
  end.

Definition invoke (method_name : ref) (arg_count : nat) : V bool :=
  receiver ← peek arg_count;
  is_instance ← is_type ObjectType.INSTANCE receiver;
  if negb is_instance then
    report_error "Runtime Error: Can only invoke methods on instances" ;; mret false
  else
    r ← lift (Value.as_object receiver);
    instance ← read_heap (fun h => Heap.instance h r);
    val ← table_get (fields instance) method_name;
    match val with
    | Some value =>
        slot ← callee_slot arg_count;
        store_slot slot value ;;
        call_value value arg_count
    | None => invoke_from_class (class_ instance) method_name arg_count
    end.

(** ** Arithmetic and comparison *)

Inductive operator : Set := Add | Subtract | Multiply | Divide | Greater | Less.

Definition operator_text (op : operator) : string :=
  match op with
  | Add => "+" | Subtract => "-" | Multiply => "*" | Divide => "/" | Greater => ">" | Less => "<"
  end.

(** A signed operation whose result does not fit is undefined. *)
Definition int_result (z : Z) : outcome Value :=
  if decide (is_i64 z) then Ret (Value.of_int z) else Undef "signed overflow".

Definition real_op (op : operator) (a b : double) : Value :=
  match op with
  | Add => Value.of_real (Double.add a b)
  | Subtract => Value.of_real (Double.sub a b)
  | Multiply => Value.of_real (Double.mul a b)
  | Divide => Value.of_real (Double.div a b)
  | Greater => Value.of_bool (Double.ltb b a)
  | Less => Value.of_bool (Double.ltb a b)
  end.

Definition binary_values (op : operator) (a b : Value) : outcome Value :=
  match data a, data b with
  | NUMBER_INT x, NUMBER_INT y =>
      match op with
      | Add => int_result (x + y)
      | Subtract => int_result (x - y)
      | Multiply => int_result (x * y)
      | Divide => Ret (real_op Divide (Double.of_Z x) (Double.of_Z y))
      | Greater => Ret (Value.of_bool (y <? x))
      | Less => Ret (Value.of_bool (x <? y))
      end
  | _, _ => x ← Value.coerce_real a; y ← Value.coerce_real b; Ret (real_op op x y)
  end.

(** [BINARY_OP(operator)] *)
Definition BINARY_OP (op : operator) : V (option InterpretResult) :=
  b ← peek 0;
  a ← peek 1;
  if negb (Value.is_number b) || negb (Value.is_number a) then
    fail ("Expected operands of '" +:+ operator_text op +:+ "' to be numbers")
  else
    b ← pop;
    a ← pop;
    v ← lift (binary_values op a b);
    push v ;; continue.

(** [concatenate(allocator, a, b)] *)
Definition concatenate (a b : ref) : V ref :=
  x ← string_of a; y ← string_of b; intern (x +:+ y).

Definition exec_ADD : V (option InterpretResult) :=
  y ← peek 0;
  x ← peek 1;
  lists ← (l1 ← is_type ObjectType.LIST y; l2 ← is_type ObjectType.LIST x; mret (l1 && l2));
  if (lists : bool) then
    b ← (r ← lift (Value.as_object y); read_heap (fun h => Heap.list h r));
    a ← (r ← lift (Value.as_object x); read_heap (fun h => Heap.list h r));
    new_list ← allocate (fun roots => Allocator.new_list roots 0 0 Value.nil);
    write_object new_list (ObjList (List.concat a b)) ;;
    _ ← pop; _ ← pop;
    push (Value.of_object new_list) ;; continue
  else
    strings ← (s1 ← is_type ObjectType.STRING y; s2 ← is_type ObjectType.STRING x; mret (s1 && s2));
    if (strings : bool) then
      b ← lift (Value.as_object y);
      a ← lift (Value.as_object x);
      new_string ← concatenate a b;
      _ ← pop; _ ← pop;
      push (Value.of_object new_string) ;; continue
    else BINARY_OP Add.

(** [-x] of an [int64_t] overflows on the least value. *)
Definition negate_value (v : Value) : outcome Value :=
  match data v with
  | NUMBER_REAL d => Ret (mkValue (uninitialized v) (NUMBER_REAL (Double.opp d)))
  | NUMBER_INT i =>
      if decide (is_i64 (- i)) then Ret (mkValue (uninitialized v) (NUMBER_INT (- i)))
      else Undef "signed overflow"
  | _ => Ret v
  end.

Definition exec_NEGATE : V (option InterpretResult) :=
  v ← peek 0;
  if negb (Value.is_number v) then fail "Runtime Error: Cannot negate value, it must be a number"
  else
    v' ← lift (negate_value v);
    slot ← callee_slot 0;
    store_slot slot v' ;; continue.

Definition exec_EQUAL : V (option InterpretResult) :=
  b ← pop;
  a ← pop;
  if Value.is_number a && Value.is_number b && (Value.is_real a || Value.is_real b) then
    x ← lift (Value.coerce_real a);
    y ← lift (Value.coerce_real b);
    push (Value.of_bool (Double.eqb x y)) ;; continue
  else
    e ← read_heap (fun h => value_equal h a b);
    push (Value.of_bool e) ;; continue.

Definition exec_NOT : V (option InterpretResult) :=
  v ← pop; push (Value.of_bool (Value.is_falsey v)) ;; continue.

Definition exec_PRINT : V (option InterpretResult) :=
  v ← pop;
  s ← read_heap (fun h => value_to_string (S (size h)) h v);
  modify (fun w => set_output w (s :: output w)) ;;
  modify (fun w => set_output w (String (Ascii.ascii_of_nat 10) EmptyString :: output w)) ;;
  continue.

(** ** Control flow *)

Definition exec_RETURN : V (option InterpretResult) :=
  result ← pop;
  f ← frame_now;
  close_from (frame_slots f) ;;
  s ← vm_state;
  let n := Nat.pred (frame_count s) in
  put_state (set_frames s (frames s) (current_frame s) n) ;;
  if Nat.eqb n 0 then _ ← pop; mret (Some OK)
  else
    set_top (frame_slots f) ;;
    push result ;;
    s ← vm_state;
    put_state (set_frames s (frames s) (Some (Nat.pred n)) n) ;;
    continue.

Definition jump (offset : Z) : V unit := f ← frame_now; set_ip (ip f + offset).

(** The jumps on the truth of the top of the stack. *)
Definition exec_JUMP_IF (on : bool) : V (option InterpretResult) :=
  offset ← read_uint16_le;
  v ← peek 0;
  (if Bool.eqb (Value.is_falsey v) on then mret tt else jump offset) ;; continue.

Definition exec_POP_JUMP_IF_FALSE : V (option InterpretResult) :=
  offset ← read_uint16_le;
  v ← pop;
  (if Value.is_falsey v then jump offset else mret tt) ;; continue.

Definition exec_JUMP_FORWARD : V (option InterpretResult) :=
  offset ← read_uint16_le; jump offset ;; continue.

Definition exec_JUMP_BACKWARD : V (option InterpretResult) :=
  offset ← read_uint16_le; jump (- offset) ;; continue.

Definition exec_CALL : V (option InterpretResult) :=
  arg_count ← read_byte;
  callee ← peek (Z.to_nat arg_count);
  ok ← call_value callee (Z.to_nat arg_count);
  after_call ok.

Definition exec_INVOKE : V (option InterpretResult) :=
  value ← read_constant_long;
  method_name ← lift (Value.as_object value);
  arg_count ← read_byte;
  ok ← invoke method_name (Z.to_nat arg_count);
  after_call ok.

Definition exec_SUPER_INVOKE : V (option InterpretResult) :=
  value ← read_constant_long;
  method_name ← lift (Value.as_object value);
  arg_count ← read_byte;
  super ← pop;
  super_class ← lift (Value.as_object super);
  ok ← invoke_from_class super_class method_name (Z.to_nat arg_count);
  after_call ok.

(** ** Variables *)

Definition with_globals {A} (f : Context -> outcome A) : V A := w ← get; lift (f (globals_ w)).
Definition update_globals (f : Context -> outcome Context) : V unit :=
  w ← get; c ← lift (f (globals_ w)); put (set_globals w c).

Definition global_name (index : Z) : V string :=
  r ← with_globals (fun c => Context.get_name c index); string_of r.

Definition exec_DEFINE_GLOBAL : V (option InterpretResult) :=
  index ← read_uint16_le;
  global_val ← with_globals (fun c => Context.get_internal_value c index);
  if defined global_val && is_const global_val then
    nm ← global_name index;
    fail ("Runtime Error: Cannot redeclare const variable '" +:+ nm +:+ "'")
  else
    update_globals (fun c => Context.set_defined c index true) ;;
    v ← peek 0;
    update_globals (fun c => Context.set_value c index v) ;;
    (if Value.is_uninitialized v then mret tt
     else update_globals (fun c => Context.set_initialized c index true)) ;;
    _ ← pop;
    continue.

(** [!context->exists(index) || !context->is_defined(index)] *)
Definition undefined_global (index : Z) : V bool :=
  e ← with_globals (fun c => Ret (Context.exists_index c index));
  if negb e then mret true
  else d ← with_globals (fun c => Context.is_defined c index); mret (negb d).

Definition exec_STORE_GLOBAL : V (option InterpretResult) :=
  index ← read_uint16_le;
  u ← undefined_global index;
  if (u : bool) then
    nm ← global_name index; fail ("Runtime Error: Undefined global variable '" +:+ nm +:+ "'")
  else
    g ← with_globals (fun c => Context.get_internal_value c index);
    if is_const g then
      nm ← global_name index;
      fail ("Runtime Error: Assignment to const variable '" +:+ nm +:+ "'")
    else
      v ← peek 0;
      update_globals (fun c => Context.set_value c index v) ;;
      update_globals (fun c => Context.set_initialized c index true) ;;
      continue.

Definition exec_LOAD_GLOBAL : V (option InterpretResult) :=
  index ← read_uint16_le;
  u ← undefined_global index;
  if (u : bool) then
    nm ← global_name index; fail ("Runtime Error: Undefined global variable '" +:+ nm +:+ "'")
  else
    i ← with_globals (fun c => Context.is_initialized c index);
    if negb i then
      nm ← global_name index;
      fail ("Runtime Error: Uninitialized access of global variable '" +:+ nm +:+ "'")
    else v ← with_globals (fun c => Context.get_value c index); push v ;; continue.

Definition exec_LOAD_LOCAL : V (option InterpretResult) :=
  slot ← read_uint16_le;
  s ← vm_state;
  if Z.of_nat (stack_top s) <=? slot then fail "Runtime Error: Local variable not declared"
  else
    f ← frame_now;
    v ← load_slot (frame_slots f + Z.to_nat slot);
    if Value.is_uninitialized v then
      fail "Runtime Error: Uninitialized access of local variable"
    else push v ;; continue.

Definition exec_STORE_LOCAL : V (option InterpretResult) :=
  slot ← read_uint16_le;
  f ← frame_now;
  v ← peek 0;
  store_slot (frame_slots f + Z.to_nat slot) v ;; continue.

(** [closure->get_upvalues()[i]] of the frame's closure. *)
Definition frame_upvalue (i : Z) : V (option ref) :=
  f ← frame_now;
  cl ← read_heap (fun h => Heap.closure h (frame_closure f));
  lift (or_undef "upvalue index out of range" (upvalues cl !! Z.to_nat i)).

(** One operand pair of CLOSURE, for the upvalue [i] of the new closure. *)
Definition capture_operand (closure : ref) (i : nat) : V unit :=
  local ← read_byte;
  index ← read_uint16_le;
  u ← (if local =? 0 then frame_upvalue index
       else
         f ← frame_now;
         r ← capture_upvalue (frame_slots f + Z.to_nat index)%nat; mret (Some r));
  cl ← read_heap (fun h => Heap.closure h closure);
  if decide (i < length (upvalues cl))%nat then
    write_object closure (ObjClosure
      (mkClosure (function cl) (<[i := u]> (upvalues cl)) (closure_upvalue_count cl)))
  else undef "upvalue index out of range".

Definition exec_CLOSURE : V (option InterpretResult) :=
  value ← read_constant_long;
  func ← lift (Value.as_object value);
  closure ← allocate (fun roots => Allocator.new_closure roots func);
  push (Value.of_object closure) ;;
  cl ← read_heap (fun h => Heap.closure h closure);
  for_each (capture_operand closure) (seq 0 (Z.to_nat (closure_upvalue_count cl))) ;;
  continue.

(** Where an upvalue's variable is. *)
Definition load_upvalue (r : ref) : V Value :=
  u ← read_heap (fun h => Heap.upvalue h r);
  match loc u with Slot i => load_slot i | Closed => mret (closed u) end.

Definition store_upvalue (r : ref) (v : Value) : V unit :=
  u ← read_heap (fun h => Heap.upvalue h r);
  match loc u with
  | Slot i => store_slot i v
  | Closed => write_object r (ObjUpvalue (mkUpvalue (next u) v Closed))
  end.

Definition exec_LOAD_UPVALUE : V (option InterpretResult) :=
  slot ← read_uint16_le;
  u ← frame_upvalue slot;
  r ← lift (or_undef "null pointer" u);
  v ← load_upvalue r;
  push v ;; continue.

Definition exec_STORE_UPVALUE : V (option InterpretResult) :=
  slot ← read_uint16_le;
  u ← frame_upvalue slot;
  r ← lift (or_undef "null pointer" u);
  v ← peek 0;
  store_upvalue r v ;; continue.

Definition exec_CLOSE_UPVALUE : V (option InterpretResult) :=
  last_value ← callee_slot 0;
  close_from last_value ;;
  _ ← pop;
  continue.

(** ** Classes and instances *)

Definition exec_CLASS : V (option InterpretResult) :=
  value ← read_constant_long;
  s ← is_type ObjectType.STRING value;
  if negb s then throw "invalid operand to opcode CLASS, expected a string"
  else
    push value ;;
    nm ← lift (Value.as_object value);
    c ← allocate (fun roots => Allocator.new_class roots nm);
    _ ← pop;
    push (Value.of_object c) ;; continue.

(** Replacing the instance on top of the stack by a method bound to it. *)
Definition bind_method (method : Value) : V (option InterpretResult) :=
  receiver ← peek 0;
  r ← method_closure method;
  bound_method ← allocate (fun roots => Allocator.new_bound_method roots receiver r);
  _ ← pop;
  push (Value.of_object bound_method) ;; continue.

Definition exec_LOAD_PROPERTY : V (option InterpretResult) :=
  top ← peek 0;
  i ← is_type ObjectType.INSTANCE top;
  if negb i then fail "Runtime Error: Can only access properties on instances"
  else
    r ← lift (Value.as_object top);
    instance ← read_heap (fun h => Heap.instance h r);
    value ← read_constant_long;
    property ← lift (Value.as_object value);
    val ← table_get (fields instance) property;
    match val with
    | Some v => _ ← pop; push v ;; continue
    | None =>
        cl ← read_heap (fun h => Heap.class h (class_ instance));
        method ← table_get (methods_ cl) property;
        match method with
        | None =>
            cn ← string_of (class_name cl);
            pn ← string_of property;
            fail ("Runtime Error: Instance of class '" +:+ cn +:+ "' has no property '" +:+ pn +:+ "'")
        | Some m => bind_method m
        end
    end.

Definition exec_LOAD_PROPERTY_SAFE : V (option InterpretResult) :=
  top ← peek 0;
  i ← is_type ObjectType.INSTANCE top;
  if negb i then
    _ ← read_constant_long;
    _ ← pop;
    push Value.nil ;; continue
  else
    r ← lift (Value.as_object top);
    instance ← read_heap (fun h => Heap.instance h r);
    value ← read_constant_long;
    property ← lift (Value.as_object value);
    val ← table_get (fields instance) property;
    match val with
    | Some v => _ ← pop; push v ;; continue
    | None =>
        cl ← read_heap (fun h => Heap.class h (class_ instance));
        method ← table_get (methods_ cl) property;
        match method with
        | Some m => bind_method m
        | None => _ ← pop; push Value.nil ;; continue
        end
    end.

(** [instance->get_fields().get_ref(property) = value] *)
Definition set_field (r property : ref) (v : Value) : V unit :=
  instance ← read_heap (fun h => Heap.instance h r);
  t ← read_heap (fun h => @HashMap.assign _ _ (string_key h) (fields instance) (Some property) v);
  write_object r (ObjInstance (mkInstance (class_ instance) t)).

Definition exec_STORE_PROPERTY : V (option InterpretResult) :=
  target ← peek 1;
  if negb (Value.is_object target) then fail "Runtime Error: Can only set properties on objects"
  else
    i ← is_type ObjectType.INSTANCE target;
    if negb i then fail "Runtime Error: Can only set properties on instances"
    else
      r ← lift (Value.as_object target);
      value ← read_constant_long;
      property ← lift (Value.as_object value);
      v ← peek 0;
      set_field r property v ;;
      top_stack_val ← pop;
      _ ← pop;
      push top_stack_val ;; continue.

(** [methods().insert(name, method)] *)
Definition add_method (c nm : ref) (v : Value) : V unit :=
  cl ← read_heap (fun h => Heap.class h c);
  '(_, t) ← read_heap (fun h => @HashMap.insert _ _ (string_key h) (methods_ cl) (Some nm) v);
  write_object c (ObjClass (mkClass (class_name cl) (init_method cl) t)).

Definition exec_METHOD : V (option InterpretResult) :=
  value_string ← read_constant_long;
  s ← is_type ObjectType.STRING value_string;
  if negb s then throw "invalid operand to opcode METHOD, expected a string"
  else
    nm ← lift (Value.as_object value_string);
    method ← peek 0;
    class_value ← peek 1;
    c ← lift (Value.as_object class_value);
    add_method c nm method ;;
    st ← vm_state;
    (if decide (nm = constant_string_init st) then
       cl ← read_heap (fun h => Heap.class h c);
       write_object c (ObjClass (mkClass (class_name cl) method (methods_ cl)))
     else mret tt) ;;
    _ ← pop;
    continue.

Definition exec_INHERIT : V (option InterpretResult) :=
  super ← peek 1;
  k ← is_type ObjectType.CLASS super;
  if negb k then fail "Runtime Error: Cannot inherit from a non-class value"
  else
    super_class ← (r ← lift (Value.as_object super); read_heap (fun h => Heap.class h r));
    sub ← peek 0;
    sub_class ← lift (Value.as_object sub);
    for_each (fun kv =>
        nm ← lift (or_undef "null pointer" kv.1);
        add_method sub_class nm kv.2) (HashMap.entries (methods_ super_class)) ;;
    _ ← pop;
    continue.

Definition exec_LOAD_SUPER : V (option InterpretResult) :=
  value ← read_constant_long;
  method_name ← lift (Value.as_object value);
  super ← pop;
  super_class ← (r ← lift (Value.as_object super); read_heap (fun h => Heap.class h r));
  top ← peek 0;
  method ← table_get (methods_ super_class) method_name;
  match method with
  | None =>
      instance ← (r ← lift (Value.as_object top); read_heap (fun h => Heap.instance h r));
      cl ← read_heap (fun h => Heap.class h (class_ instance));
      cn ← string_of (class_name cl);
      sn ← string_of (class_name super_class);
      mn ← string_of method_name;
      fail ("Runtime Error: Instance of class '" +:+ cn +:+ "', which is a subclass of class '" +:+
            sn +:+ "' has no method '" +:+ mn +:+ "'")
  | Some m => bind_method m
  end.

(** ** Lists and maps *)

Definition exec_LIST : V (option InterpretResult) :=
  list_length ← read_byte;
  list_obj ← allocate (fun roots => Allocator.new_list roots list_length list_length Value.nil);
  for_each (fun i =>
      v ← peek 0;
      l ← read_heap (fun h => Heap.list h list_obj);
      write_object list_obj (ObjList (List.set l (Z.of_nat i) v).2) ;;
      _ ← pop; mret tt) (rev (seq 0 (Z.to_nat list_length))) ;;
  push (Value.of_object list_obj) ;; continue.

Definition exec_LIST_APPEND : V (option InterpretResult) :=
  target ← peek 1;
  r ← lift (Value.as_object target);
  l ← read_heap (fun h => Heap.list h r);
  v ← peek 0;
  write_object r (ObjList (List.append l v)) ;;
  _ ← pop;
  continue.

(** [map_obj->set(key, value)] *)
Definition map_set (r : ref) (key value : Value) : V bool :=
  m ← read_heap (fun h => Heap.map h r);
  '(b, m) ← read_heap (fun h => Map.set h m key value);
  write_object r (ObjMap m) ;;
  mret b.

(** The pairs MAP takes off the stack, the last one first; false if a key cannot be hashed. *)
Fixpoint map_pairs (n : nat) (r : ref) : V bool :=
  match n with
  | O => mret true
  | S n =>
      key ← peek 1;
      value ← peek 0;
      ok ← map_set r key value;
      if (ok : bool) then _ ← pop; _ ← pop; map_pairs n r else mret false
  end.

Definition exec_MAP : V (option InterpretResult) :=
  map_length ← read_byte;
  map_obj ← allocate (fun roots => Allocator.new_map roots);
  ok ← map_pairs (Z.to_nat map_length) map_obj;
  if (ok : bool) then push (Value.of_object map_obj) ;; continue
  else fail "unhashable type used as map key".

Definition exec_MAP_ADD : V (option InterpretResult) :=
  target ← peek 2;
  r ← lift (Value.as_object target);
  key ← peek 1;
  value ← peek 0;
  ok ← map_set r key value;
  if (ok : bool) then _ ← pop; _ ← pop; continue
  else fail "unhashable type used as map key".

Definition key_text (key : Value) : V string :=
  read_heap (fun h => value_to_string (S (size h)) h key).

Definition store_index_map (r : ref) : V (option InterpretResult) :=
  key ← peek 1;
  value ← peek 0;
  hash ← read_heap (fun h => value_hash h key);
  if hash =? -1 then
    k ← key_text key;
    fail ("Runtime error: Key '" +:+ k +:+
          "' is of unhashable type, and cannot be used to set map value")
  else
    _ ← map_set r key value;
    _ ← pop; _ ← pop; _ ← pop;
    push value ;; continue.

Definition range_error (what unit_ : string) (index n : Z) : V (option InterpretResult) :=
  fail ("Runtime error: " +:+ what +:+ " index out of range, attempt to subscript " +:+
        unit_ +:+ " at [" +:+ to_string index +:+ "] (" +:+ unit_ +:+ " contains " +:+ to_string n +:+
        (if String.eqb unit_ "list" then " elements)" else " characters)")).

Definition exec_STORE_INDEX : V (option InterpretResult) :=
  target ← peek 2;
  s ← is_type ObjectType.STRING target;
  if (s : bool) then
    fail "Runtime error: Strings are immutable, and do not support index assignment"
  else
    l ← is_type ObjectType.LIST target;
    m ← is_type ObjectType.MAP target;
    if negb (l || m) then
      fail "Runtime error: Cannot set index of value, can only index lists and maps"
    else
      r ← lift (Value.as_object target);
      if (m : bool) then store_index_map r
      else
        i ← peek 1;
        if negb (Value.is_integer i) then fail "Runtime error: Index of a list must be an integer"
        else
          index ← lift (Value.as_integer i);
          list_obj ← read_heap (fun h => Heap.list h r);
          if List.size list_obj <=? index then
            range_error "List" "list" index (List.size list_obj)
          else
            val ← peek 0;
            write_object r (ObjList (List.set list_obj index val).2) ;;
            _ ← pop; _ ← pop; _ ← pop;
            push val ;; continue.

Definition load_index_map (r : ref) : V (option InterpretResult) :=
  m ← read_heap (fun h => Heap.map h r);
  key ← peek 0;
  val ← read_heap (fun h => Map.get h m key);
  hash ← read_heap (fun h => value_hash h key);
  if hash =? -1 then
    k ← key_text key;
    fail ("Runtime error: Key '" +:+ k +:+
          "' is of unhashable type, and cannot be used to access map value")
  else
    match val with
    | None =>
        k ← key_text key;
        fail ("Runtime error: Key '" +:+ k +:+ "' does not exist in the map")
    | Some v => _ ← pop; _ ← pop; push v ;; continue
    end.

Definition load_index_list (r : ref) (index : Z) : V (option InterpretResult) :=
  list_obj ← read_heap (fun h => Heap.list h r);
  if List.size list_obj <=? index then range_error "List" "list" index (List.size list_obj)
  else
    value ← lift (or_throw "bad optional access" (List.get list_obj index));
    _ ← pop; _ ← pop;
    push value ;; continue.

(** The index is compared with a [size_t]; [string_view::operator[]] does not check. *)
Definition load_index_string (r : ref) (index : Z) : V (option InterpretResult) :=
  s ← string_of r;
  let n := Z.of_nat (String.length s) in
  if n <=? u64 index then range_error "String" "string" index n
  else
    ch ← lift (or_undef "character out of range" (String.get (Z.to_nat (u64 index)) s));
    _ ← pop; _ ← pop;
    new ← intern (String ch EmptyString);
    push (Value.of_object new) ;; continue.

Definition exec_LOAD_INDEX : V (option InterpretResult) :=
  target ← peek 1;
  l ← is_type ObjectType.LIST target;
  s ← is_type ObjectType.STRING target;
  m ← is_type ObjectType.MAP target;
  if negb (l || s || m) then
    fail "Runtime error: Cannot get index of value, can only index lists, strings and maps"
  else
    r ← lift (Value.as_object target);
    if (m : bool) then load_index_map r
    else
      i ← peek 0;
      if negb (Value.is_integer i) then
        fail "Runtime error: Index of a list or string must be an integer"
      else
        index ← lift (Value.as_integer i);
        if (l : bool) then load_index_list r index else load_index_string r index.

(** ** The instruction loop *)

(** One turn of [execute]: fetch and [switch]. *)
Definition dispatch (op : OpCode.t) : V (option InterpretResult) :=
  match op with
  | OpCode.RETURN => exec_RETURN
  | OpCode.LOAD_CONSTANT => v ← read_constant; push v ;; continue
  | OpCode.LOAD_CONSTANT_LONG => v ← read_constant_long; push v ;; continue
  | OpCode.NEGATE => exec_NEGATE
  | OpCode.ADD => exec_ADD
  | OpCode.SUBTRACT => BINARY_OP Subtract
  | OpCode.DIVIDE => BINARY_OP Divide
  | OpCode.MULTIPLY => BINARY_OP Multiply
  | OpCode.FALSE => push (Value.of_bool false) ;; continue
  | OpCode.TRUE => push (Value.of_bool true) ;; continue
  | OpCode.NIL => push Value.nil ;; continue
  | OpCode.UNINITIALIZED => push (Value.set_uninitialized Value.nil true) ;; continue
  | OpCode.NOT => exec_NOT
  | OpCode.EQUAL => exec_EQUAL
  | OpCode.GREATER => BINARY_OP Greater
  | OpCode.LESS => BINARY_OP Less
  | OpCode.POP_TOP => _ ← pop; continue
  | OpCode.PRINT => exec_PRINT
  | OpCode.JUMP_IF_FALSE => exec_JUMP_IF false
  | OpCode.JUMP_IF_TRUE => exec_JUMP_IF true
  | OpCode.POP_JUMP_IF_FALSE => exec_POP_JUMP_IF_FALSE
  | OpCode.JUMP_FORWARD => exec_JUMP_FORWARD
  | OpCode.JUMP_BACKWARD => exec_JUMP_BACKWARD
  | OpCode.DUP_TOP => v ← peek 0; push v ;; continue
  | OpCode.DEFINE_GLOBAL => exec_DEFINE_GLOBAL
  | OpCode.STORE_GLOBAL => exec_STORE_GLOBAL
  | OpCode.LOAD_GLOBAL => exec_LOAD_GLOBAL
  | OpCode.LOAD_LOCAL => exec_LOAD_LOCAL
  | OpCode.STORE_LOCAL => exec_STORE_LOCAL
  | OpCode.CALL => exec_CALL
  | OpCode.CLOSURE => exec_CLOSURE
  | OpCode.LOAD_UPVALUE => exec_LOAD_UPVALUE
  | OpCode.STORE_UPVALUE => exec_STORE_UPVALUE
  | OpCode.CLOSE_UPVALUE => exec_CLOSE_UPVALUE
  | OpCode.CLASS => exec_CLASS
  | OpCode.LOAD_PROPERTY => exec_LOAD_PROPERTY
  | OpCode.INVOKE => exec_INVOKE
  | OpCode.LOAD_PROPERTY_SAFE => exec_LOAD_PROPERTY_SAFE
  | OpCode.STORE_PROPERTY => exec_STORE_PROPERTY
  | OpCode.METHOD => exec_METHOD
  | OpCode.INHERIT => exec_INHERIT
  | OpCode.LOAD_SUPER => exec_LOAD_SUPER
  | OpCode.SUPER_INVOKE => exec_SUPER_INVOKE
  | OpCode.ZERO => push (Value.of_int 0) ;; continue
  | OpCode.MINUS_ONE => push (Value.of_int (-1)) ;; continue
  | OpCode.ONE => push (Value.of_int 1) ;; continue
  | OpCode.LIST => exec_LIST
  | OpCode.LIST_APPEND => exec_LIST_APPEND
  | OpCode.STORE_INDEX => exec_STORE_INDEX
  | OpCode.LOAD_INDEX => exec_LOAD_INDEX
  | OpCode.MAP => exec_MAP
  | OpCode.MAP_ADD => exec_MAP_ADD
  | OpCode.INVALID => throw "Invalid instruction"
  end.

Definition step : V (option InterpretResult) :=
  instruction ← read_byte;
  match OpCode.of_int instruction with
  | Some op => dispatch op
  | None => throw "Invalid instruction"
  end.

(** [execute(os)]: [fuel] bounds the number of instructions, a program may run forever. *)
Fixpoint execute (fuel : nat) : V InterpretResult :=
  match fuel with
  | O => out_of_fuel
  | S fuel =>
      r ← step;
      match r with Some r => mret r | None => execute fuel end
  end.

(** [run(function, os)] *)
Definition run (fuel : nat) (f : ref) : V InterpretResult :=
  push (Value.of_object f) ;;
  closure ← allocate (fun roots => Allocator.new_closure roots f);
  _ ← pop;
  push (Value.of_object closure) ;;
  _ ← call closure 0;
  s ← vm_state;
  put_state (set_frames s (frames s) (Some (Nat.pred (frame_count s))) (frame_count s)) ;;
  execute fuel.

End calls.

(** ** Construction *)

(** [define_native_function(name, arity, func)] *)
Definition define_native_function (nm : string) (arity : Z) (func : NativeFunction) : V unit :=
  s ← intern nm;
  push (Value.of_object s) ;;
  f ← allocate (fun roots => Allocator.new_native_function roots arity func);
  push (Value.of_object f) ;;
  name_value ← peek 1;
  key ← lift (Value.as_object name_value);
  w ← get;
  '(i, c) ← lift (Context.get_global (objects (mem w)) (globals_ w) key);
  put (set_globals w c) ;;
  v ← peek 0;
  update_globals (fun c => Context.set_value c i v) ;;
  update_globals (fun c => Context.set_initialized c i true) ;;
  update_globals (fun c => Context.set_defined c i true) ;;
  update_globals (fun c => Context.set_created_by_runtime c i true) ;;
  _ ← pop; _ ← pop;
  mret tt.

(** [VM(opts, reporter, allocator, context)]: the collector does not know the machine yet. *)
Definition new_vm (m : Memory) (c : Context) (r : ErrorReporter) (input : list string)
    : outcome machine :=
  let opts := vopts m in
  '(init, m) ← Allocator.intern_string [] "init" m;
  Ret (mkMachine m c r
         (mkVM (replicate (Z.to_nat (value_stack_max opts + 4)) Value.nil)
            (replicate (Z.to_nat (frames_max opts)) None) None 0 0 None init) [] input []).

Definition clear_evaluation_stack : V unit := set_top 0.
Definition clear_frames : V unit :=
  s ← vm_state; put_state (set_frames s (frames s) (current_frame s) 0).

End vm.
End VM.
