(* ===== verification/StackFacts.v ===== *)
(** * What the operations of the machine do to its registers

    A compositional account of how far each operation moves a register of the
    machine: the top of the evaluation stack, or the instruction pointer of
    the current frame.  A register is any number read off the machine's state
    that moves by [a] with each value pushed and by [b] with each byte of code
    read. *)

From S2P Require Import Prelude Double HashMap Hash Platform Opcode Parser Compiler Value Chunk Object Collections Memory Context VM.
Import Compiler (InterpretResult, OK, RUNTIME_ERROR).
Import VM.

Class Register (f : VM -> Z) (a b : Z) : Prop := {
  register_stack : forall s st t,
    f (set_stack s st t) = f s + a * (Z.of_nat t - Z.of_nat (stack_top s));
  register_open : forall s u, f (set_open s u) = f s;
  register_ip : forall s i fr n, current_frame s = Some i -> mjoin (frames s !! i) = Some fr ->
    f (set_frames s (<[i := Some (mkFrame (frame_closure fr) n (frame_slots fr))]> (frames s))
         (current_frame s) (frame_count s)) = f s + b * (n - ip fr)
}.

(** The two registers. *)
Definition top_of (s : VM) : Z := Z.of_nat (stack_top s).
Definition ip_of (s : VM) : Z :=
  match current_frame s with
  | Some i => match mjoin (frames s !! i) with Some fr => ip fr | None => 0 end
  | None => 0
  end.

#[export] Instance top_register : Register top_of 1 0.
Proof. split; intros; unfold top_of; cbn; lia. Qed.

#[export] Instance ip_register : Register ip_of 0 1.
Proof.
  split; intros; unfold ip_of; cbn; [lia|done|].
  assert (i < length (frames s))%nat as Hlt.
  { apply lookup_lt_is_Some. destruct (frames s !! i); [by eexists|done]. }
  simplify_option_eq. rewrite list_lookup_insert_eq by done. cbn. lia.
Qed.

(** Whenever [m] returns a result that satisfies [P], the register has moved by [d]. *)
Definition moves (f : VM -> Z) {A} (P : A -> Prop) (m : M machine A) (d : Z) : Prop :=
  forall w a w', m w = Ret (a, w') -> P a -> f (state w') = f (state w) + d.

(** [m] does not move the register. *)
Abbreviation still f m := (moves f (fun _ => True) m 0).

(** The machine goes on to the next instruction. *)
Definition goes_on (r : option InterpretResult) : Prop := r = None.

Section rules.
Context `{Platform} {reg : VM -> Z} {a b : Z} `{!Register reg a b}.

Lemma moves_eq {A} (P : A -> Prop) (m : M machine A) d d' : moves reg P m d' -> d' = d -> moves reg P m d.
Proof. by intros Hm <-. Qed.

Lemma moves_bind {A B} (P : B -> Prop) (m : M machine A) (k : A -> M machine B) d1 d :
  moves reg (fun _ => True) m d1 -> (forall x, moves reg P (k x) (d - d1)) -> moves reg P (m ≫= k) d.
Proof.
  intros Hm Hk w y w' (x & w1 & H1 & H2)%M_bind_Ret Hy.
  rewrite (Hk x _ _ _ H2 Hy), (Hm _ _ _ H1 I). lia.
Qed.

Lemma moves_ret {A} (P : A -> Prop) (x : A) d : d = 0 -> moves reg P (mret x) d.
Proof. intros -> w y w' [= _ <-] _. lia. Qed.

(** An operation that leaves the machine's own state alone. *)
Lemma moves_same_state {A} (m : M machine A) :
  (forall w x w', m w = Ret (x, w') -> state w' = state w) -> still reg m.
Proof. intros Hm w x w' Hw _. rewrite (Hm _ _ _ Hw). lia. Qed.

Lemma moves_lift {A} (m : outcome A) : still reg (lift m).
Proof. apply moves_same_state. intros w x w' Hm. unfold lift in Hm. by inv_ret. Qed.
Lemma moves_gets {A} (g : machine -> A) : still reg (gets g).
Proof. by apply moves_same_state; intros w x w' [= _ <-]. Qed.
Lemma moves_get : still reg get.
Proof. by apply moves_same_state; intros w x w' [= _ <-]. Qed.
Lemma moves_modify (g : machine -> machine) : (forall w, state (g w) = state w) -> still reg (modify g).
Proof. by intros Hg; apply moves_same_state; intros w x w' [= _ <-]. Qed.

Lemma moves_throw {A} (P : A -> Prop) e d : moves reg P (throw e) d.
Proof. by intros w x w' Hm. Qed.
Lemma moves_undef {A} (P : A -> Prop) e d : moves reg P (undef e) d.
Proof. by intros w x w' Hm. Qed.
Lemma moves_out_of_fuel {A} (P : A -> Prop) d : moves reg P out_of_fuel d.
Proof. by intros w x w' Hm. Qed.

Lemma moves_for_each {A} (g : A -> M machine unit) d l :
  (forall x, moves reg (fun _ => True) (g x) d) ->
  moves reg (fun _ => True) (for_each g l) (d * Z.of_nat (length l)).
Proof.
  intros Hg. induction l as [|x l IH]; cbn [for_each length].
  - apply moves_ret. lia.
  - eapply moves_bind; [apply Hg|]. intros _. by replace (d * _ - d) with (d * Z.of_nat (length l)) by lia.
Qed.

Lemma moves_for_each_still {A} (g : A -> M machine unit) l :
  (forall x, still reg (g x)) -> still reg (for_each g l).
Proof. intros Hg. by apply (moves_for_each g 0 l). Qed.

Lemma moves_allocate {A} (g : list (option ref) -> M Memory A) : still reg (allocate g).
Proof.
  apply moves_same_state. intros w x w' Hm. unfold allocate, zoom in Hm. inv_ret. case_match. inv_ret. by subst.
Qed.

Lemma moves_push v : moves reg (fun _ => True) (push v) a.
Proof using All.
  intros w x w' Hm _. unfold push, vm_state, gets, put_state, modify, mbind, M_bind in Hm.
  case_match; [done|]. injection Hm as _ <-. cbn. rewrite register_stack. lia.
Qed.

Lemma moves_load_slot i : still reg (load_slot i).
Proof. unfold load_slot. eapply moves_bind; [apply moves_gets|]. intros s. apply moves_lift. Qed.

Lemma moves_pop : moves reg (fun _ => True) pop (-a).
Proof using All.
  intros w x w' Hm _. unfold pop, vm_state, gets, put_state, modify, mbind, M_bind in Hm.
  destruct (stack_top (state w)) eqn:E; [done|]. cbn in Hm.
  rewrite (moves_load_slot _ _ _ _ Hm I). cbn. rewrite register_stack, E. lia.
Qed.

End rules.

Create HintDb still.
#[export] Hint Resolve top_register ip_register : still.
#[export] Hint Resolve moves_lift moves_gets moves_get moves_allocate moves_push moves_load_slot
  moves_pop : still.

(** Follow the structure of the operation. *)
Ltac moving :=
  intros; repeat match goal with
  | |- moves _ _ (mret _) _ => apply moves_ret; lia
  | |- moves _ _ (throw _) _ => apply moves_throw
  | |- moves _ _ (undef _) _ => apply moves_undef
  | |- moves _ _ out_of_fuel _ => apply moves_out_of_fuel
  | |- moves _ _ (_ ≫= _) _ =>
      first [ eapply moves_bind; [solve [eauto with still]|intros ?]
            | eapply (moves_bind _ _ _ 0); [solve [moving]|intros ?] ]
  | |- moves _ _ (if ?c then _ else _) _ => destruct c eqn:?
  | |- moves _ _ (match ?x with _ => _ end) _ => destruct x eqn:?
  | |- moves _ _ _ _ => solve [eauto with still]
  | |- moves _ _ _ _ => eapply moves_eq; [solve [eauto with still]|lia]
  end.

Section still.
Context `{Platform} {reg : VM -> Z} {a b : Z} `{!Register reg a b}.

Lemma still_vm_state : still reg vm_state.
Proof. apply moves_gets. Qed.
Lemma still_read_heap {A} (f : heap -> outcome A) : still reg (read_heap f).
Proof. unfold read_heap, heap_of. moving. Qed.
Lemma still_write_object r o : still reg (write_object r o).
Proof. by apply moves_modify. Qed.
#[local] Hint Resolve still_vm_state still_read_heap still_write_object : still.

Lemma still_peek i : still reg (peek i).
Proof. unfold peek. moving. Qed.
Lemma still_callee_slot n : still reg (callee_slot n).
Proof. unfold callee_slot. moving. Qed.
Lemma still_frame i : still reg (frame i).
Proof. unfold frame. moving. Qed.
#[local] Hint Resolve still_peek still_callee_slot still_frame : still.
Lemma still_frame_now : still reg frame_now.
Proof. unfold frame_now. moving. Qed.
#[local] Hint Resolve still_frame_now : still.
Lemma still_closure_function c : still reg (closure_function c).
Proof. unfold closure_function. moving. Qed.
#[local] Hint Resolve still_closure_function : still.

Lemma still_store_slot i v : still reg (store_slot i v).
Proof using All.
  intros w x w' Hm _. unfold store_slot, vm_state, gets, put_state, modify, mbind, M_bind in Hm.
  case_match; [|done]. injection Hm as _ <-. cbn. rewrite register_stack. lia.
Qed.
#[local] Hint Resolve still_store_slot : still.

(** What [frame_now] reads. *)
Lemma frame_now_Ret w fr w' : frame_now w = Ret (fr, w') ->
  w' = w /\ exists i, current_frame (state w) = Some i /\ mjoin (frames (state w) !! i) = Some fr.
Proof.
  unfold frame_now, frame, vm_state, gets, lift, mbind, M_bind. cbn.
  destruct (current_frame (state w)) as [i|]; [|done]. cbn.
  destruct (mjoin (frames (state w) !! i)) eqn:E; [|done]. intros [= <- <-]. eauto.
Qed.

Lemma set_ip_Ret w n x w' fr : frame_now w = Ret (fr, w) -> set_ip n w = Ret (x, w') ->
  reg (state w') = reg (state w) + b * (n - ip fr).
Proof using All.
  intros Hf Hm. pose proof (frame_now_Ret _ _ _ Hf) as (_ & i & Hc & Hi).
  unfold set_ip, mbind, M_bind in Hm. rewrite Hf in Hm.
  unfold vm_state, gets, lift, put_state, modify in Hm. rewrite Hc in Hm. injection Hm as _ <-.
  cbn. rewrite <-Hc. by apply register_ip.
Qed.

Lemma read_heap_same {A} (g : heap -> outcome A) w x w' : read_heap g w = Ret (x, w') -> w' = w.
Proof.
  unfold read_heap, heap_of, gets, lift, mbind, M_bind. destruct (g _); [|done..]. by intros [= _ ->].
Qed.
Lemma closure_function_same c w x w' : closure_function c w = Ret (x, w') -> w' = w.
Proof. by intros (? & ? & ->%read_heap_same & ->%read_heap_same)%M_bind_Ret. Qed.

Lemma moves_read_byte : moves reg (fun _ => True) read_byte b.
Proof using All.
  unfold read_byte. intros w x w' (fr & w1 & Hf & Hm)%M_bind_Ret _.
  destruct (frame_now_Ret _ _ _ Hf) as [-> _].
  apply M_bind_Ret in Hm as (fn & w2 & Hfn & Hm). apply M_bind_Ret in Hm as (y & w3 & Hy & Hm).
  apply M_bind_Ret in Hm as ([] & w4 & Hs & [= _ <-]).
  pose proof (closure_function_same _ _ _ _ Hfn) as ->.
  assert (w3 = w) as -> by (case_match; [done|]; unfold lift in Hy; by inv_ret).
  rewrite (set_ip_Ret _ _ _ _ _ Hf Hs). lia.
Qed.
#[local] Hint Resolve moves_read_byte : still.

Lemma moves_jump n : moves reg (fun _ => True) (jump n) (b * n).
Proof using All.
  unfold jump. intros w x w' (fr & w1 & Hf & Hm)%M_bind_Ret _.
  destruct (frame_now_Ret _ _ _ Hf) as [-> _]. rewrite (set_ip_Ret _ _ _ _ _ Hf Hm). lia.
Qed.

Lemma moves_read_uint16_le : moves reg (fun _ => True) read_uint16_le (2 * b).
Proof using All. unfold read_uint16_le. moving. Qed.
Lemma still_constant i : still reg (constant i).
Proof. unfold constant. moving. Qed.
#[local] Hint Resolve moves_read_uint16_le still_constant : still.
Lemma moves_read_constant : moves reg (fun _ => True) read_constant b.
Proof using All. unfold read_constant. moving. Qed.
Lemma moves_read_constant_long : moves reg (fun _ => True) read_constant_long (2 * b).
Proof using All. unfold read_constant_long. moving. Qed.
Lemma still_string_of r : still reg (string_of r).
Proof. unfold string_of. moving. Qed.
#[local] Hint Resolve moves_read_constant moves_read_constant_long still_string_of : still.

Lemma still_modify_errors f : still reg (modify (fun w => set_errors w (f w))).
Proof. by apply moves_modify. Qed.
Lemma still_modify_output f : still reg (modify (fun w => set_output w (f w))).
Proof. by apply moves_modify. Qed.
#[local] Hint Resolve still_modify_errors still_modify_output : still.

Lemma still_trace_frame i : still reg (trace_frame i).
Proof. unfold trace_frame. moving. Qed.
Lemma still_report_error text : still reg (report_error text).
Proof.
  unfold report_error. eapply moves_bind; [eauto with still|]. intros s.
  eapply moves_bind; [apply moves_for_each_still, still_trace_frame|]. moving.
Qed.
#[local] Hint Resolve still_report_error : still.

Lemma moves_fail text d : moves reg goes_on (fail text) d.
Proof.
  intros w x w' Hm Hx. unfold fail in Hm. apply M_bind_Ret in Hm as (? & ? & _ & Hm).
  injection Hm as <- _. done.
Qed.

Lemma moves_continue d : d = 0 -> moves reg goes_on continue d.
Proof. apply moves_ret. Qed.

Lemma still_is_type t v : still reg (is_type t v).
Proof. apply still_read_heap. Qed.
Lemma still_intern s : still reg (intern s).
Proof. apply moves_allocate. Qed.
Lemma still_table_get t k : still reg (table_get t k).
Proof. apply still_read_heap. Qed.
Lemma still_method_closure v : still reg (method_closure v).
Proof. apply moves_lift. Qed.
Lemma still_with_globals {A} (f : Context -> outcome A) : still reg (with_globals f).
Proof. unfold with_globals. moving. Qed.
Lemma still_update_globals f : still reg (update_globals f).
Proof.
  intros w x w' Hm _. unfold update_globals, get, lift, put, mbind, M_bind in Hm.
  destruct (f (globals_ w)); try done. cbn in Hm. injection Hm as _ <-. cbn. lia.
Qed.
#[local] Hint Resolve still_is_type still_intern still_table_get still_method_closure still_with_globals
  still_update_globals : still.
Lemma still_global_name i : still reg (global_name i).
Proof. unfold global_name. moving. Qed.
Lemma still_undefined_global i : still reg (undefined_global i).
Proof. unfold undefined_global. moving. Qed.
Lemma still_frame_upvalue i : still reg (frame_upvalue i).
Proof. unfold frame_upvalue. moving. Qed.
Lemma still_load_upvalue r : still reg (load_upvalue r).
Proof. unfold load_upvalue. moving. Qed.
Lemma still_store_upvalue r v : still reg (store_upvalue r v).
Proof. unfold store_upvalue. moving. Qed.
Lemma still_set_field r p v : still reg (set_field r p v).
Proof. unfold set_field. moving. Qed.
Lemma still_add_method c n v : still reg (add_method c n v).
Proof. unfold add_method. moving. Qed.
Lemma still_map_set r k v : still reg (map_set r k v).
Proof. unfold map_set. moving. Qed.
Lemma still_key_text k : still reg (key_text k).
Proof. apply still_read_heap. Qed.
Lemma still_concatenate x y : still reg (concatenate x y).
Proof. unfold concatenate. moving. Qed.
#[local] Hint Resolve still_global_name still_undefined_global still_frame_upvalue still_load_upvalue
  still_store_upvalue still_set_field still_add_method still_map_set still_key_text
  still_concatenate : still.

(** ** Upvalues *)

Lemma still_close_upvalues fuel : forall last, still reg (close_upvalues fuel last).
Proof using All.
  induction fuel as [|fuel IH]; intros last w x w' Hm _; cbn [close_upvalues] in Hm;
    apply M_bind_Ret in Hm as (s & w1 & [= <- <-] & Hm);
    (destruct (open_upvalues (state w)) as [r|]; [|injection Hm as _ <-; lia]);
    apply M_bind_Ret in Hm as (u & w2 & ->%read_heap_same & Hm);
    apply M_bind_Ret in Hm as (i & w3 & [-> _]%lift_Ret & Hm);
    (destruct (last <=? i)%nat; [|injection Hm as _ <-; lia]); [done|].
  apply M_bind_Ret in Hm as (v & w4 & (? & ? & [= <- <-] & [-> _]%lift_Ret)%M_bind_Ret & Hm).
  apply M_bind_Ret in Hm as ([] & w5 & [= <-] & Hm). apply M_bind_Ret in Hm as ([] & w6 & [= <-] & Hm).
  rewrite (IH _ _ _ _ Hm I). cbn. rewrite register_open. lia.
Qed.

Lemma still_close_from last : still reg (close_from last).
Proof.
  unfold close_from, heap_of. eapply moves_bind; [apply moves_gets|]. intros h. apply still_close_upvalues.
Qed.

Lemma still_link_upvalue prev new : still reg (link_upvalue prev new).
Proof.
  destruct prev as [p|]; cbn [link_upvalue]; [moving|].
  intros w x w' (s & w1 & [= <- <-] & [= _ <-])%M_bind_Ret _. cbn. rewrite register_open. lia.
Qed.
#[local] Hint Resolve still_close_from still_link_upvalue : still.

Lemma still_capture_upvalue slot : still reg (capture_upvalue slot).
Proof.
  unfold capture_upvalue. eapply moves_bind; [eauto with still|]. intros s.
  eapply moves_bind; [eauto with still|]. intros [prev current].
  eapply (moves_bind _ _ _ 0); [moving|]. moving.
Qed.
#[local] Hint Resolve still_capture_upvalue : still.

(** A pair of operands of CLOSURE is three bytes long. *)
Lemma moves_capture_operand c i : moves reg (fun _ => True) (capture_operand c i) (3 * b).
Proof using All. unfold capture_operand. moving. Qed.

End still.

#[export] Hint Resolve still_vm_state still_read_heap still_write_object still_peek still_callee_slot
  still_frame still_frame_now still_closure_function still_store_slot moves_jump moves_read_byte
  moves_read_uint16_le still_constant moves_read_constant moves_read_constant_long still_string_of
  still_modify_errors still_modify_output still_report_error still_is_type still_intern
  still_table_get still_method_closure still_with_globals still_update_globals still_global_name
  still_undefined_global still_frame_upvalue still_load_upvalue still_store_upvalue still_set_field
  still_add_method still_map_set still_key_text still_concatenate still_close_from
  still_link_upvalue still_capture_upvalue moves_capture_operand moves_fail : still.
#[export] Hint Extern 1 (moves _ goes_on continue _) => (apply moves_continue; lia) : still.
