(* ===== verification/VMProps.v ===== *)
(** * What the instructions promise of the evaluation stack *)

From S2P Require Import Prelude Double HashMap Hash Platform Opcode Parser Compiler Value Chunk Object Collections Memory Context VM StackFacts.
Import Compiler (InterpretResult, OK, RUNTIME_ERROR).
Import VM.

(** How far an instruction that goes on moves the top; [n] is its one-byte operand.  Calls and
    returns depend on the callee. *)
Definition stack_effect (op : OpCode.t) (n : Z) : option Z :=
  match op with
  | OpCode.RETURN | OpCode.CALL | OpCode.INVOKE | OpCode.SUPER_INVOKE | OpCode.INVALID => None
  | OpCode.LOAD_CONSTANT | OpCode.LOAD_CONSTANT_LONG | OpCode.FALSE | OpCode.TRUE | OpCode.NIL
  | OpCode.UNINITIALIZED | OpCode.DUP_TOP | OpCode.LOAD_GLOBAL | OpCode.LOAD_LOCAL | OpCode.CLOSURE
  | OpCode.LOAD_UPVALUE | OpCode.CLASS | OpCode.ZERO | OpCode.MINUS_ONE | OpCode.ONE => Some 1
  | OpCode.NEGATE | OpCode.NOT | OpCode.JUMP_IF_FALSE | OpCode.JUMP_IF_TRUE | OpCode.JUMP_FORWARD
  | OpCode.JUMP_BACKWARD | OpCode.STORE_GLOBAL | OpCode.STORE_LOCAL | OpCode.STORE_UPVALUE
  | OpCode.LOAD_PROPERTY | OpCode.LOAD_PROPERTY_SAFE => Some 0
  | OpCode.ADD | OpCode.SUBTRACT | OpCode.DIVIDE | OpCode.MULTIPLY | OpCode.EQUAL | OpCode.GREATER
  | OpCode.LESS | OpCode.POP_TOP | OpCode.PRINT | OpCode.POP_JUMP_IF_FALSE | OpCode.DEFINE_GLOBAL
  | OpCode.CLOSE_UPVALUE | OpCode.STORE_PROPERTY | OpCode.METHOD | OpCode.INHERIT | OpCode.LOAD_SUPER
  | OpCode.LIST_APPEND | OpCode.LOAD_INDEX => Some (-1)
  | OpCode.STORE_INDEX | OpCode.MAP_ADD => Some (-2)
  | OpCode.LIST => Some (1 - n)
  | OpCode.MAP => Some (1 - 2 * n)
  end.

Section effects.
Context `{Platform} {reg : VM -> Z} {a b : Z} `{!Register reg a b}.

Lemma moves_BINARY_OP op : moves reg goes_on (BINARY_OP op) (-a).
Proof using All. unfold BINARY_OP. moving. Qed.
#[local] Hint Resolve moves_BINARY_OP : still.

Lemma moves_exec_ADD : moves reg goes_on exec_ADD (-a).
Proof using All. unfold exec_ADD. moving. Qed.
Lemma moves_exec_NEGATE : moves reg goes_on exec_NEGATE 0.
Proof. unfold exec_NEGATE. moving. Qed.
Lemma moves_exec_EQUAL : moves reg goes_on exec_EQUAL (-a).
Proof using All. unfold exec_EQUAL. moving. Qed.
Lemma moves_exec_NOT : moves reg goes_on exec_NOT 0.
Proof. unfold exec_NOT. moving. Qed.
Lemma moves_exec_PRINT : moves reg goes_on exec_PRINT (-a).
Proof using All. unfold exec_PRINT. moving. Qed.

Lemma moves_exec_DEFINE_GLOBAL : moves reg goes_on exec_DEFINE_GLOBAL (-a + 2 * b).
Proof using All. unfold exec_DEFINE_GLOBAL. moving. Qed.
Lemma moves_exec_STORE_GLOBAL : moves reg goes_on exec_STORE_GLOBAL (2 * b).
Proof using All. unfold exec_STORE_GLOBAL. moving. Qed.
Lemma moves_exec_LOAD_GLOBAL : moves reg goes_on exec_LOAD_GLOBAL (a + 2 * b).
Proof using All. unfold exec_LOAD_GLOBAL. moving. Qed.
Lemma moves_exec_LOAD_LOCAL : moves reg goes_on exec_LOAD_LOCAL (a + 2 * b).
Proof using All. unfold exec_LOAD_LOCAL. moving. Qed.
Lemma moves_exec_STORE_LOCAL : moves reg goes_on exec_STORE_LOCAL (2 * b).
Proof using All. unfold exec_STORE_LOCAL. moving. Qed.

Lemma moves_exec_LOAD_UPVALUE : moves reg goes_on exec_LOAD_UPVALUE (a + 2 * b).
Proof using All. unfold exec_LOAD_UPVALUE. moving. Qed.
Lemma moves_exec_STORE_UPVALUE : moves reg goes_on exec_STORE_UPVALUE (2 * b).
Proof using All. unfold exec_STORE_UPVALUE. moving. Qed.
Lemma moves_exec_CLOSE_UPVALUE : moves reg goes_on exec_CLOSE_UPVALUE (-a).
Proof using All. unfold exec_CLOSE_UPVALUE. moving. Qed.

Lemma moves_exec_CLASS : moves reg goes_on exec_CLASS (a + 2 * b).
Proof using All. unfold exec_CLASS. moving. Qed.
Lemma moves_bind_method v : moves reg goes_on (bind_method v) 0.
Proof. unfold bind_method. moving. Qed.
#[local] Hint Resolve moves_bind_method : still.
Lemma moves_exec_LOAD_PROPERTY : moves reg goes_on exec_LOAD_PROPERTY (2 * b).
Proof using All. unfold exec_LOAD_PROPERTY. moving. Qed.
Lemma moves_exec_LOAD_PROPERTY_SAFE : moves reg goes_on exec_LOAD_PROPERTY_SAFE (2 * b).
Proof using All. unfold exec_LOAD_PROPERTY_SAFE. moving. Qed.
Lemma moves_exec_STORE_PROPERTY : moves reg goes_on exec_STORE_PROPERTY (-a + 2 * b).
Proof using All. unfold exec_STORE_PROPERTY. moving. Qed.
Lemma moves_exec_METHOD : moves reg goes_on exec_METHOD (-a + 2 * b).
Proof using All. unfold exec_METHOD. moving. Qed.

Lemma moves_exec_INHERIT : moves reg goes_on exec_INHERIT (-a).
Proof using All.
  unfold exec_INHERIT. do 2 (eapply moves_bind; [solve [eauto with still]|intros ?]).
  destruct (negb _); [apply moves_fail|]. eapply (moves_bind _ _ _ 0); [moving|intros ?].
  do 2 (eapply moves_bind; [solve [eauto with still]|intros ?]).
  eapply moves_bind; [apply moves_for_each_still; moving|moving].
Qed.

Lemma moves_exec_LOAD_SUPER : moves reg goes_on exec_LOAD_SUPER (-a + 2 * b).
Proof using All. unfold exec_LOAD_SUPER. moving. Qed.

Lemma moves_exec_LIST_APPEND : moves reg goes_on exec_LIST_APPEND (-a).
Proof using All. unfold exec_LIST_APPEND. moving. Qed.
Lemma moves_exec_MAP_ADD : moves reg goes_on exec_MAP_ADD (-2 * a).
Proof using All. unfold exec_MAP_ADD. moving. Qed.
Lemma moves_store_index_map r : moves reg goes_on (store_index_map r) (-2 * a).
Proof using All. unfold store_index_map. moving. Qed.
Lemma moves_range_error what unit_ i n d : moves reg goes_on (range_error what unit_ i n) d.
Proof. apply moves_fail. Qed.
#[local] Hint Resolve moves_store_index_map moves_range_error : still.
Lemma moves_exec_STORE_INDEX : moves reg goes_on exec_STORE_INDEX (-2 * a).
Proof using All. unfold exec_STORE_INDEX. moving. Qed.
Lemma moves_load_index_map r : moves reg goes_on (load_index_map r) (-a).
Proof using All. unfold load_index_map. moving. Qed.
Lemma moves_load_index_list r i : moves reg goes_on (load_index_list r i) (-a).
Proof using All. unfold load_index_list. moving. Qed.
Lemma moves_load_index_string r i : moves reg goes_on (load_index_string r i) (-a).
Proof using All. unfold load_index_string. moving. Qed.
#[local] Hint Resolve moves_load_index_map moves_load_index_list moves_load_index_string : still.
Lemma moves_exec_LOAD_INDEX : moves reg goes_on exec_LOAD_INDEX (-a).
Proof using All. unfold exec_LOAD_INDEX. moving. Qed.

Lemma moves_list_items r l :
  moves reg (fun _ => True) (for_each (fun i : nat =>
      v ← peek 0;
      l ← read_heap (fun h => Heap.list h r);
      write_object r (ObjList (List.set l (Z.of_nat i) v).2) ;;
      _ ← pop; mret tt) l) (-a * Z.of_nat (length l)).
Proof using All. apply moves_for_each. moving. Qed.

Lemma moves_map_pairs n : forall r, moves reg (fun c => c = true) (map_pairs n r) (-2 * a * Z.of_nat n).
Proof using All.
  induction n as [|n IH]; intros r; cbn [map_pairs]; [moving|].
  do 3 (eapply moves_bind; [solve [eauto with still]|intros ?]).
  case_match; [|by intros w c w' [= <- _]].
  do 2 (eapply moves_bind; [solve [eauto with still]|intros ?]).
  eapply moves_eq; [apply IH|lia].
Qed.

Lemma exec_LIST_moves w w' n w1 :
  read_byte w = Ret (n, w1) -> 0 <= n -> exec_LIST w = Ret (None, w') ->
  reg (state w') = reg (state w) + (a * (1 - n) + b).
Proof using All.
  intros Hr Hn (n' & w2 & Hr' & Hw)%M_bind_Ret. rewrite Hr in Hr'. injection Hr' as <- <-.
  assert (Hm : moves reg goes_on (r ← allocate (fun roots => Allocator.new_list roots n n Value.nil);
    for_each (fun i : nat =>
      v ← peek 0;
      l ← read_heap (fun h => Heap.list h r);
      write_object r (ObjList (List.set l (Z.of_nat i) v).2) ;;
      _ ← pop; mret tt) (rev (seq 0 (Z.to_nat n))) ;;
    push (Value.of_object r) ;; continue) (a * (1 - n))).
  { eapply moves_bind; [solve [eauto with still]|intros r].
    eapply moves_bind; [apply moves_list_items|intros ?].
    rewrite length_rev, length_seq, Z2Nat.id by done. moving. }
  rewrite (Hm _ _ _ Hw eq_refl), (moves_read_byte _ _ _ Hr I). lia.
Qed.

Lemma exec_MAP_moves w w' n w1 :
  read_byte w = Ret (n, w1) -> 0 <= n -> exec_MAP w = Ret (None, w') ->
  reg (state w') = reg (state w) + (a * (1 - 2 * n) + b).
Proof using All.
  intros Hr Hn (n' & w2 & Hr' & Hw)%M_bind_Ret. rewrite Hr in Hr'. injection Hr' as <- <-.
  apply M_bind_Ret in Hw as (r & w3 & Ha & Hw). apply M_bind_Ret in Hw as (ok & w4 & Hp & Hw).
  destruct ok; [|by apply M_bind_Ret in Hw as (? & ? & _ & [=])].
  assert (Hm : moves reg goes_on (push (Value.of_object r) ;; continue) a) by moving.
  rewrite (Hm _ _ _ Hw eq_refl), (moves_map_pairs _ _ _ _ _ Hp eq_refl), (moves_allocate _ _ _ _ Ha I),
    (moves_read_byte _ _ _ Hr I), Z2Nat.id by done. lia.
Qed.

End effects.

#[export] Hint Resolve moves_BINARY_OP moves_exec_ADD moves_exec_NEGATE moves_exec_EQUAL moves_exec_NOT
  moves_exec_PRINT moves_exec_DEFINE_GLOBAL moves_exec_STORE_GLOBAL moves_exec_LOAD_GLOBAL
  moves_exec_LOAD_LOCAL moves_exec_STORE_LOCAL moves_exec_LOAD_UPVALUE
  moves_exec_STORE_UPVALUE moves_exec_CLOSE_UPVALUE moves_exec_CLASS moves_exec_LOAD_PROPERTY
  moves_exec_LOAD_PROPERTY_SAFE moves_exec_STORE_PROPERTY moves_exec_METHOD moves_exec_INHERIT
  moves_exec_LOAD_SUPER moves_exec_LIST_APPEND moves_exec_MAP_ADD moves_exec_STORE_INDEX
  moves_exec_LOAD_INDEX : still.

(** ** Whole instructions *)

(** The operand bytes of the instructions that always have the same number of them and go on to the
    instruction that follows. *)
Definition operand_bytes (op : OpCode.t) : option Z :=
  match op with
  | OpCode.JUMP_IF_FALSE | OpCode.JUMP_IF_TRUE | OpCode.POP_JUMP_IF_FALSE | OpCode.JUMP_FORWARD
  | OpCode.JUMP_BACKWARD | OpCode.CLOSURE
  | OpCode.RETURN | OpCode.CALL | OpCode.INVOKE | OpCode.SUPER_INVOKE | OpCode.INVALID => None
  | OpCode.LOAD_CONSTANT | OpCode.LIST | OpCode.MAP => Some 1
  | OpCode.LOAD_CONSTANT_LONG | OpCode.DEFINE_GLOBAL | OpCode.STORE_GLOBAL | OpCode.LOAD_GLOBAL
  | OpCode.LOAD_LOCAL | OpCode.STORE_LOCAL | OpCode.LOAD_UPVALUE | OpCode.STORE_UPVALUE
  | OpCode.CLASS | OpCode.LOAD_PROPERTY | OpCode.LOAD_PROPERTY_SAFE | OpCode.STORE_PROPERTY
  | OpCode.METHOD | OpCode.LOAD_SUPER => Some 2
  | _ => Some 0
  end.

Section instructions.
Context `{Platform} (call_native : NativeFunction -> nat -> nat -> M machine (Value * bool)).

Lemma dispatch_moves {reg : VM -> Z} {a b : Z} `{!Register reg a b} op n d k :
  op <> OpCode.LIST -> op <> OpCode.MAP -> stack_effect op n = Some d -> operand_bytes op = Some k ->
  moves reg goes_on (dispatch call_native op) (a * d + b * k).
Proof using All.
  intros Hl Hm Hd Hk. destruct op; cbn [stack_effect operand_bytes dispatch] in *; try done;
    injection Hd as <-; injection Hk as <-;
    first [eapply moves_eq; [solve [eauto with still]|lia] | moving].
Qed.

(** Every instruction with a known length, its operands counted in [reg]. *)
Lemma instruction_moves {reg : VM -> Z} {a b : Z} `{!Register reg a b} op n d k w w' :
  stack_effect op n = Some d -> operand_bytes op = Some k ->
  (op = OpCode.LIST \/ op = OpCode.MAP -> 0 <= n /\ exists w1, read_byte w = Ret (n, w1)) ->
  dispatch call_native op w = Ret (None, w') -> reg (state w') = reg (state w) + (a * d + b * k).
Proof using All.
  intros Hd Hk Hn Hw. destruct (decide (op = OpCode.LIST)) as [->|Hl].
  { destruct Hn as (Hn & w1 & Hr); [by left|]. injection Hd as <-. injection Hk as <-.
    rewrite (exec_LIST_moves _ _ _ _ Hr Hn Hw). lia. }
  destruct (decide (op = OpCode.MAP)) as [->|Hm].
  { destruct Hn as (Hn & w1 & Hr); [by right|]. injection Hd as <-. injection Hk as <-.
    rewrite (exec_MAP_moves _ _ _ _ Hr Hn Hw). lia. }
  by apply (dispatch_moves op n d k Hl Hm Hd Hk w None w' Hw).
Qed.

(** *** Jumps and CLOSURE, on the stack *)

Lemma stack_jump n : still top_of (jump n).
Proof. eapply moves_eq; [apply moves_jump|lia]. Qed.
#[local] Hint Resolve stack_jump : still.

Lemma stack_CLOSURE : moves top_of goes_on exec_CLOSURE 1.
Proof.
  unfold exec_CLOSURE. do 5 (eapply moves_bind; [solve [eauto with still]|intros ?]).
  eapply moves_bind; [apply moves_for_each_still; intros ?; moving|moving].
Qed.

Lemma stack_moves op n d :
  operand_bytes op = None -> stack_effect op n = Some d -> moves top_of goes_on (dispatch call_native op) d.
Proof.
  intros Hk Hd. destruct op; cbn [stack_effect operand_bytes dispatch] in *; try done; injection Hd as <-;
    [unfold exec_JUMP_IF, exec_POP_JUMP_IF_FALSE, exec_JUMP_FORWARD, exec_JUMP_BACKWARD; moving..
    |apply stack_CLOSURE].
Qed.

End instructions.

(** ** Properties *)


(** A machine with two integers on its stack. *)
Definition two_on_stack (a b : Value) : machine :=
  mkMachine (Memory.initial default_vm_opts) Context.empty ErrorReporter.empty
    (mkVM [Value.nil; a; b; Value.nil] [] None 0 3 None 1%positive) [] [] [].


(** ** Pushing, popping and arithmetic *)

Section stack.
Context `{Platform}.
Implicit Types (w : machine) (v a b : Value) (t : nat).

(** The stack of [w] has [vs] on top of [base]. *)
Definition with_stack w (st : list Value) (t : nat) : machine := set_state w (set_stack (state w) st t).

Lemma push_ok w v :
  (stack_top (state w) < length (evalstack (state w)))%nat ->
  push v w = Ret (tt, with_stack w (<[stack_top (state w) := v]> (evalstack (state w)))
                        (S (stack_top (state w)))).
Proof.
  intros Hlt. unfold push, vm_state, gets, put_state, modify, mbind, M_bind.
  rewrite (proj2 (Nat.eqb_neq _ _)) by lia. done.
Qed.

Lemma pop_ok w t v :
  stack_top (state w) = S t -> evalstack (state w) !! t = Some v ->
  pop w = Ret (v, with_stack w (evalstack (state w)) t).
Proof.
  intros Ht Hv. unfold pop, vm_state, gets, put_state, modify, mbind, M_bind. rewrite Ht. cbn.
  unfold load_slot, vm_state, gets, lift, mbind, M_bind. cbn. by rewrite Hv.
Qed.

Lemma peek_ok w i t v :
  stack_top (state w) = (t + S i)%nat -> evalstack (state w) !! t = Some v ->
  peek i w = Ret (v, w).
Proof.
  intros Ht Hv. unfold peek, vm_state, gets, mbind, M_bind. rewrite Ht.
  rewrite (proj2 (Nat.leb_gt _ _)) by lia. unfold load_slot, vm_state, gets, lift, mbind, M_bind.
  replace (t + S i - i - 1)%nat with t by lia. cbn. by rewrite Hv.
Qed.

Lemma fail_ends text w r w' : fail text w = Ret (r, w') -> r = Some RUNTIME_ERROR.
Proof. unfold fail. intros (? & ? & _ & [= <- _])%M_bind_Ret. done. Qed.

Lemma binary_op_ok op w t a b :
  stack_top (state w) = S (S t) -> evalstack (state w) !! t = Some a ->
  evalstack (state w) !! S t = Some b -> Value.is_number a = true -> Value.is_number b = true ->
  BINARY_OP op w = (v ← binary_values op a b;
                    Ret (None, with_stack w (<[t := v]> (evalstack (state w))) (S t))).
Proof.
  intros Ht Ha Hb Hna Hnb. unfold BINARY_OP.
  assert (Hlt : (S t < length (evalstack (state w)))%nat) by by eapply lookup_lt_Some.
  unfold mbind at 1, M_bind. rewrite (peek_ok w 0 (S t) b) by (done || lia).
  unfold mbind at 1, M_bind. rewrite (peek_ok w 1 t a) by (done || lia).
  rewrite Hna, Hnb. cbn [negb orb].
  unfold mbind at 1, M_bind. rewrite (pop_ok w (S t) b) by done.
  unfold mbind at 1, M_bind. rewrite (pop_ok _ t a) by done.
  unfold mbind at 1, M_bind, lift. destruct (binary_values op a b) as [v| | |]; try done.
  cbn [mbind outcome_bind]. unfold mbind, M_bind. rewrite push_ok by (cbn; lia). done.
Qed.

End stack.

(** What the operators mean on [double]s: the IEEE operations rounded to nearest, and the IEEE order,
    in which a NaN is neither above nor below anything. *)
Definition real_meaning (op : operator) (x y : double) : Value :=
  match op with
  | Add => Value.of_real (SFadd 53 1024 x y)
  | Subtract => Value.of_real (SFsub 53 1024 x y)
  | Multiply => Value.of_real (SFmul 53 1024 x y)
  | Divide => Value.of_real (SFdiv 53 1024 x y)
  | Greater => Value.of_bool (bool_decide (SFcompare x y = Some Gt))
  | Less => Value.of_bool (bool_decide (SFcompare x y = Some Lt))
  end.

(** The [double] a number is converted to: the nearest one, for an integer. *)
Definition double_of (v : Value) : option double :=
  match data v with
  | NUMBER_INT x => Some (binary_normalize 53 1024 x 0 false)
  | NUMBER_REAL d => Some d
  | _ => None
  end.

(** On 64-bit integers: exact when the result fits; division is that of real numbers. *)
Definition integer_meaning (op : operator) (x y : Z) : outcome Value :=
  match op with
  | Add => if decide (is_i64 (x + y)) then Ret (Value.of_int (x + y)) else Undef "signed overflow"
  | Subtract => if decide (is_i64 (x - y)) then Ret (Value.of_int (x - y)) else Undef "signed overflow"
  | Multiply => if decide (is_i64 (x * y)) then Ret (Value.of_int (x * y)) else Undef "signed overflow"
  | Divide => Ret (real_meaning Divide (binary_normalize 53 1024 x 0 false) (binary_normalize 53 1024 y 0 false))
  | Greater => Ret (Value.of_bool (y <? x))
  | Less => Ret (Value.of_bool (x <? y))
  end.

(** On any two numbers: two integers as integers, otherwise both as [double]s. *)
Definition number_meaning (op : operator) (a b : Value) : option (outcome Value) :=
  match data a, data b, double_of a, double_of b with
  | NUMBER_INT x, NUMBER_INT y, _, _ => Some (integer_meaning op x y)
  | _, _, Some x, Some y => Some (Ret (real_meaning op x y))
  | _, _, _, _ => None
  end.

Definition operands_message (op : operator) : string :=
  match op with
  | Add => "Expected operands of '+' to be numbers"
  | Subtract => "Expected operands of '-' to be numbers"
  | Multiply => "Expected operands of '*' to be numbers"
  | Divide => "Expected operands of '/' to be numbers"
  | Greater => "Expected operands of '>' to be numbers"
  | Less => "Expected operands of '<' to be numbers"
  end.

Lemma SFcompare_swap x y : SFcompare y x = CompOpp <$> SFcompare x y.
Proof.
  destruct x as [sx|sx| |sx mx ex], y as [sy|sy| |sy my ey]; cbn; try done; try (by destruct sx); try (by destruct sy);
    try (by destruct sx, sy).
  destruct sx, sy; cbn; try done; rewrite (Z.compare_antisym ex ey); destruct (ex ?= ey); cbn; try done;
    change (Pos.compare_cont Eq ?x ?y) with (Pos.compare x y); rewrite (Pos.compare_antisym mx my); by destruct (Pos.compare _ _).
Qed.

Lemma ltb_compare x y : Double.ltb x y = bool_decide (SFcompare x y = Some Lt).
Proof. unfold Double.ltb, SFltb. by destruct (SFcompare x y) as [[]|]. Qed.

Lemma gtb_compare x y : Double.ltb y x = bool_decide (SFcompare x y = Some Gt).
Proof. rewrite ltb_compare, (SFcompare_swap x y). by destruct (SFcompare x y) as [[]|]. Qed.

Lemma real_op_meaning op x y : real_op op x y = real_meaning op x y.
Proof. destruct op; cbn; rewrite <-?gtb_compare, <-?ltb_compare; done. Qed.

Lemma binary_values_meaning op a b :
  Value.is_number a && Value.is_number b = true -> number_meaning op a b = Some (binary_values op a b).
Proof.
  unfold number_meaning, binary_values, Value.is_number, Value.is_integer, Value.is_real, Value.coerce_real, double_of.
  destruct (data a), (data b); cbn; try done; intros _; by rewrite ?real_op_meaning.
Qed.

(** A push succeeds exactly when the stack has a free slot, and throws otherwise; popping then
    gives the value back and leaves the machine's stack as it was, up to the slot above the top. *)
Lemma push_then_pop `{Platform} (w : machine) (v : Value) :
  (stack_top (state w) <= length (evalstack (state w)))%nat ->
  (stack_top (state w) = length (evalstack (state w)) -> push v w = Throw "Stack overflow") /\
  ((stack_top (state w) < length (evalstack (state w)))%nat ->
   (_ ← push v; pop) w =
     Ret (v, with_stack w (<[stack_top (state w) := v]> (evalstack (state w))) (stack_top (state w)))).
Proof.
  intros Hle. split.
  - intros He. unfold push, vm_state, gets, mbind, M_bind. by rewrite He, Nat.eqb_refl.
  - intros Hlt. unfold mbind, M_bind. rewrite push_ok by done.
    rewrite (pop_ok _ (stack_top (state w)) v); [done|done|]. cbn. by apply list_lookup_insert_eq.
Qed.


