(* ===== verification/ShapeFacts.v ===== *)
(** * What never changes about an object

    The shape of an object is what is fixed when it is created: its type, the
    text of a string, a function with its code, the function of a closure, the
    class of an instance.  Every operation of the allocator, the collector and
    the machine keeps the shapes of the objects that are still there. *)

From S2P Require Import Prelude Double HashMap Hash Platform Opcode Parser Compiler Value Chunk Object Collections Memory CollectFacts Context VM StackFacts.
Import Compiler (InterpretResult, OK, RUNTIME_ERROR).
Import VM.

(** An object with the parts that may change blanked out. *)
Definition shape (o : Object) : Object :=
  match o with
  | ObjUpvalue _ => ObjUpvalue (mkUpvalue None Value.nil Closed)
  | ObjClosure c => ObjClosure (mkClosure (function c) [] (closure_upvalue_count c))
  | ObjClass c => ObjClass (mkClass (class_name c) Value.nil HashMap.empty)
  | ObjInstance i => ObjInstance (mkInstance (class_ i) HashMap.empty)
  | ObjList _ => ObjList (mkList [])
  | ObjMap _ => ObjMap (mkMap HashMap.empty)
  | o => o
  end.

Lemma shape_type o o' : shape o = shape o' -> get_type o = get_type o'.
Proof. destruct o, o'; cbn; congruence. Qed.

(** The next object created has a reference of its own. *)
Definition fresh (m : Memory) : Prop := forall r, is_Some (objects m !! r) -> (r < next_object m)%positive.

Record keeps (m m' : Memory) : Prop := {
  keeps_next : (next_object m <= next_object m')%positive;
  keeps_fresh : fresh m -> fresh m';
  keeps_shape : forall r c', objects m' !! r = Some c' -> (r < next_object m)%positive ->
    exists c, objects m !! r = Some c /\ shape (content c') = shape (content c)
}.

#[export] Instance keeps_preorder : PreOrder keeps.
Proof.
  split.
  - intros m. split; [lia|done|eauto].
  - intros m1 m2 m3 H1 H2. split.
    + pose proof (keeps_next _ _ H1). pose proof (keeps_next _ _ H2). lia.
    + intros Hf. by apply (keeps_fresh _ _ H2), (keeps_fresh _ _ H1).
    + intros r c3 Hr Hlt. pose proof (keeps_next _ _ H1).
      destruct (keeps_shape _ _ H2 r c3 Hr) as (c2 & Hc2 & E2); [lia|].
      destruct (keeps_shape _ _ H1 r c2 Hc2 Hlt) as (c1 & Hc1 & E1). exists c1. split; congruence.
Qed.

(** Objects may lose their mark, or be freed. *)
Lemma keeps_contents m m' : next_object m' = next_object m ->
  (forall r c', objects m' !! r = Some c' -> exists c, objects m !! r = Some c /\ content c' = content c) ->
  keeps m m'.
Proof.
  intros Hn Hc. split; [by rewrite Hn| |].
  - intros Hf r [c' Hr]. destruct (Hc r c' Hr) as (c & ? & _). rewrite Hn. apply Hf. eauto.
  - intros r c' Hr _. destruct (Hc r c' Hr) as (c & ? & ?). exists c. split; congruence.
Qed.

Lemma keeps_same m m' : next_object m' = next_object m -> objects m' = objects m -> keeps m m'.
Proof. intros Hn Ho. apply keeps_contents; [done|]. rewrite Ho. eauto. Qed.

(** A fact about an object: as long as it is there, it has this shape. *)
Definition known (m : Memory) (f : ref * Object) : Prop :=
  (f.1 < next_object m)%positive /\ forall c, objects m !! f.1 = Some c -> shape (content c) = f.2.

Lemma known_keeps m m' f : keeps m m' -> known m f -> known m' f.
Proof.
  intros Hk [Hlt Hs]. pose proof (keeps_next _ _ Hk). split; [lia|].
  intros c' Hc'. destruct (keeps_shape _ _ Hk _ _ Hc' Hlt) as (c & Hc & ->). by apply Hs.
Qed.

(** [m] keeps the shapes, where the facts [fs] hold. *)
Definition stable {S A} (view : S -> Memory) (fs : list (ref * Object)) (m : M S A) : Prop :=
  forall s a s', fresh (view s) -> Forall (known (view s)) fs -> m s = Ret (a, s') -> keeps (view s) (view s').

Section rules.
Context {S : Type} {view : S -> Memory}.
Implicit Types (fs : list (ref * Object)).

Lemma stable_same {A} fs (m : M S A) :
  (forall s a s', m s = Ret (a, s') -> view s' = view s) -> stable view fs m.
Proof. intros Hm s a s' _ _ Hr. by rewrite (Hm _ _ _ Hr). Qed.

Lemma stable_bind {A B} fs (m : M S A) (k : A -> M S B) :
  stable view fs m -> (forall a, stable view fs (k a)) -> stable view fs (m ≫= k).
Proof.
  intros Hm Hk s b s' Hf Hfs (a & s1 & H1 & H2)%M_bind_Ret.
  pose proof (Hm _ _ _ Hf Hfs H1) as K1. etrans; [done|].
  apply (Hk a s1 b s'); [by eapply keeps_fresh| |done].
  eapply Forall_impl; [done|]. intros f. by apply known_keeps.
Qed.

Lemma stable_ret {A} fs (a : A) : stable view fs (mret a).
Proof. by apply stable_same; intros s x s' [= _ <-]. Qed.
Lemma stable_lift {A} fs (m : outcome A) : stable view fs (lift m).
Proof. apply stable_same. intros s a s' Hm. unfold lift in Hm. by inv_ret. Qed.
Lemma stable_gets {A} fs (g : S -> A) : stable view fs (gets g).
Proof. by apply stable_same; intros s x s' [= _ <-]. Qed.
Lemma stable_get fs : stable view fs get.
Proof. by apply stable_same; intros s x s' [= _ <-]. Qed.
Lemma stable_throw {A} fs e : stable view fs (@throw S A e).
Proof. by intros s a s'. Qed.
Lemma stable_undef {A} fs e : stable view fs (@undef S A e).
Proof. by intros s a s'. Qed.
Lemma stable_out_of_fuel {A} fs : stable view fs (@out_of_fuel S A).
Proof. by intros s a s'. Qed.
Lemma stable_modify fs (g : S -> S) : (forall s, keeps (view s) (view (g s))) -> stable view fs (modify g).
Proof. intros Hg s a s' _ _ [= _ <-]. apply Hg. Qed.
Lemma stable_put fs (s0 : S) : (forall s, keeps (view s) (view s0)) -> stable view fs (put s0).
Proof. intros Hg s a s' _ _ [= _ <-]. apply Hg. Qed.

Lemma stable_for_each {A} fs (g : A -> M S unit) l :
  (forall a, stable view fs (g a)) -> stable view fs (for_each g l).
Proof.
  intros Hg. induction l as [|a l IH]; cbn [for_each]; [apply stable_ret|]. by apply stable_bind.
Qed.

Lemma stable_weaken {A} fs (m : M S A) : stable view [] m -> stable view fs m.
Proof. intros Hm s a s' Hf _ Hr. by eapply Hm. Qed.

End rules.

Create HintDb stable.
#[export] Hint Resolve stable_ret stable_lift stable_gets stable_get stable_throw stable_undef
  stable_out_of_fuel : stable.

(** Follow the structure of the operation. *)
Ltac stably :=
  intros; repeat match goal with
  | |- stable _ _ (_ ≫= _) => apply stable_bind; [solve [eauto with stable | stably]|intros ?]
  | |- stable _ _ (for_each _ _) => apply stable_for_each; intros ?
  | |- stable _ _ (if ?c then _ else _) => destruct c eqn:?
  | |- stable _ _ (match ?x with _ => _ end) => destruct x eqn:?
  | |- stable _ _ _ => solve [eauto with stable]
  end.

(** ** The collector and the allocator *)

Section memory.
Context `{Platform}.

#[local] Abbreviation stable_m m := (stable (fun s : Memory => s) [] m).

Lemma stable_mark_object o : stable_m (GarbageCollector.mark_object o).
Proof.
  destruct o as [r|]; cbn [GarbageCollector.mark_object]; [|stably].
  intros m [] m' _ _ Hm. destruct (objects m !! r); [|done].
  destruct (is_marked _); [by injection Hm as <-|]. injection Hm as <-.
  apply keeps_contents; [done|]. cbn. intros r' c' Hr'. rewrite lookup_set_mark in Hr'.
  case_decide; [|by eauto]. subst. destruct (objects m !! r'); [|done]. injection Hr' as <-. eauto.
Qed.
#[local] Hint Resolve stable_mark_object : stable.

Lemma stable_mark_value v : stable_m (GarbageCollector.mark_value v).
Proof. unfold GarbageCollector.mark_value. stably. Qed.
#[local] Hint Resolve stable_mark_value : stable.
Lemma stable_mark_table t : stable_m (GarbageCollector.mark_table t).
Proof. unfold GarbageCollector.mark_table. stably. Qed.
#[local] Hint Resolve stable_mark_table : stable.
Lemma stable_blacken r : stable_m (GarbageCollector.blacken_object r).
Proof. unfold GarbageCollector.blacken_object. stably. Qed.
Lemma stable_mark_roots roots : stable_m (GarbageCollector.mark_roots roots).
Proof. unfold GarbageCollector.mark_roots. stably. Qed.

(** Starting from a state that differs in no object. *)
Lemma stable_from {A} (k : M Memory A) (g : Memory -> Memory) m a m' :
  stable_m k -> (forall m, next_object (g m) = next_object m /\ objects (g m) = objects m) ->
  fresh m -> k (g m) = Ret (a, m') -> keeps m m'.
Proof.
  intros Hk Hg Hf Hr. destruct (Hg m) as [Hn Ho]. pose proof (keeps_same m (g m) Hn Ho) as K.
  etrans; [exact K|]. eapply Hk; [by eapply keeps_fresh|done|done].
Qed.

Lemma stable_trace fuel : stable_m (GarbageCollector.trace fuel).
Proof.
  induction fuel as [|fuel IH]; intros m a m' Hf _ Hm; cbn [GarbageCollector.trace] in Hm;
    destruct (grey_objects m) as [|r rest]; try done; try by injection Hm as _ <-.
  refine (stable_from _ (fun m => Memory.set_grey m rest) m a m' _ _ Hf Hm); [|done].
  apply stable_bind; [apply stable_blacken|done].
Qed.

Lemma stable_free_object r : stable_m (GarbageCollector.free_object r).
Proof.
  unfold GarbageCollector.free_object. intros m a m' _ _ Hm.
  apply M_bind_Ret in Hm as (? & ? & [= <- <-] & Hm).
  apply M_bind_Ret in Hm as (o & ? & [-> _]%lift_Ret & [= _ <-]).
  apply keeps_contents; [done|]. cbn. intros r' c' [_ Hr']%lookup_delete_Some. eauto.
Qed.

Lemma stable_sweep fuel : forall i, stable_m (GarbageCollector.sweep_loop fuel i).
Proof.
  induction fuel as [|fuel IH]; intros i m a m' Hf _ Hm; cbn [GarbageCollector.sweep_loop] in Hm;
    destruct (objs m !! i) as [r|]; try done; try by injection Hm as _ <-.
  destruct (objects m !! r) as [c|] eqn:Hr; [|done]. destruct (is_marked c).
  - assert (K : keeps m (Memory.set_objects m (Heap.set_mark (objects m) r false))).
    { apply keeps_contents; [done|]. cbn. intros r' c' Hr'. rewrite lookup_set_mark in Hr'.
      case_decide; [|by eauto]. subst. rewrite Hr in Hr'. injection Hr' as <-. eauto. }
    etrans; [exact K|]. eapply IH; [by eapply keeps_fresh|done|done].
  - refine (stable_from _ (fun m => Memory.set_objs m (GarbageCollector.swap_erase i (objs m))) m a m' _ _ Hf Hm);
      [|done]. apply stable_bind; [apply stable_free_object|done].
Qed.

Lemma stable_remove_unused l : forall n, stable_m (GarbageCollector.remove_unused l n).
Proof.
  induction l as [|i l IH]; intros n; cbn [GarbageCollector.remove_unused]; [stably|].
  intros m a m' Hf Hfs Hm. apply M_bind_Ret in Hm as (? & ? & [= <- <-] & Hm).
  apply M_bind_Ret in Hm as (s & ? & [-> _]%lift_Ret & Hm).
  destruct (HashMap.state s), (HashMap.value s); try done; try by eapply IH.
  apply M_bind_Ret in Hm as (c & ? & [-> _]%lift_Ret & Hm).
  destruct (is_marked c); [by eapply IH|].
  apply M_bind_Ret in Hm as ([b t] & ? & [-> _]%lift_Ret & Hm).
  apply M_bind_Ret in Hm as ([] & m1 & [= <-] & Hm).
  by eapply (stable_from _ (fun m => Memory.set_interned m t)).
Qed.

Lemma keeps_counters m a b n c d e : keeps m (Memory.set_counters m a b n c d e).
Proof. by apply keeps_same. Qed.

Lemma stable_gc roots : stable_m (GarbageCollector.collect_garbage roots).
Proof.
  unfold GarbageCollector.collect_garbage.
  apply stable_bind; [apply stable_mark_roots|intros _].
  apply stable_bind; [intros m a m' Hf Hfs Hm; by eapply stable_trace|intros _].
  apply stable_bind; [unfold GarbageCollector.remove_unused_strings; apply stable_bind;
                      [stably|intros; apply stable_remove_unused]|intros _].
  apply stable_bind; [intros m a m' Hf Hfs Hm; by eapply stable_sweep|intros _].
  intros m a m' _ _ (? & ? & [= <- <-] & [= _ <-])%M_bind_Ret. apply keeps_counters.
Qed.

Lemma stable_collect roots : stable_m (Allocator.collect_garbage roots).
Proof.
  unfold Allocator.collect_garbage. apply stable_bind; [stably|]. intros m. destruct (gc_disabled m); [stably|].
  apply stable_bind; [apply stable_gc|intros _]. apply stable_modify. intros. apply keeps_counters.
Qed.
#[local] Hint Resolve stable_collect : stable.
Lemma stable_stress roots : stable_m (Allocator.stress_gc roots).
Proof. unfold Allocator.stress_gc. stably. Qed.
Lemma stable_create roots t : stable_m (Allocator.create_object roots t).
Proof.
  unfold Allocator.create_object. apply stable_bind; [apply stable_modify; intros; apply keeps_counters|stably].
Qed.

(** A new object: its reference was not in use. *)
Lemma push_keeps o m r m' : Allocator.push_object o m = Ret (r, m') -> keeps m m' /\ known m' (r, shape o).
Proof.
  intros [= <- <-]. split; [split|split]; cbn; try lia.
  - intros Hf r [c Hr]. cbn in *. destruct (decide (r = next_object m)) as [->|Hne]; [lia|].
    rewrite lookup_insert_ne in Hr by done. specialize (Hf r (ex_intro _ _ Hr)). lia.
  - intros r c' Hr Hlt. rewrite lookup_insert_ne in Hr by lia. eauto.
  - intros c. rewrite lookup_insert_eq. by intros [= <-].
Qed.

Lemma stable_push o : stable_m (Allocator.push_object o).
Proof. intros m r m' _ _ Hm. by eapply push_keeps. Qed.
#[local] Hint Resolve stable_stress stable_create stable_push : stable.

Lemma stable_intern roots s : stable_m (Allocator.intern_string roots s).
Proof.
  unfold Allocator.intern_string. apply stable_bind; [stably|intros _].
  apply stable_bind; [unfold Allocator.check_interned; stably|]. intros [found hash].
  destruct found as [r|]; [stably|]. apply stable_bind; [stably|intros _]. apply stable_bind; [stably|intros r].
  intros m a m' Hf _ (? & ? & [= <- <-] & Hm)%M_bind_Ret.
  apply M_bind_Ret in Hm as ([b t] & ? & [-> _]%lift_Ret & Hm).
  apply M_bind_Ret in Hm as ([] & ? & [= <-] & [= _ <-]). by apply keeps_same.
Qed.
Lemma stable_new_class roots n : stable_m (Allocator.new_class roots n).
Proof. unfold Allocator.new_class. stably. Qed.
Lemma stable_new_list roots n c d : stable_m (Allocator.new_list roots n c d).
Proof. unfold Allocator.new_list. stably. Qed.
Lemma stable_new_map roots : stable_m (Allocator.new_map roots).
Proof. unfold Allocator.new_map. stably. Qed.
Lemma stable_new_instance roots c : stable_m (Allocator.new_instance roots c).
Proof. unfold Allocator.new_instance. stably. Qed.
Lemma stable_new_bound_method roots v r : stable_m (Allocator.new_bound_method roots v r).
Proof. unfold Allocator.new_bound_method. stably. Qed.
Lemma stable_new_native_function roots n f : stable_m (Allocator.new_native_function roots n f).
Proof. unfold Allocator.new_native_function. stably. Qed.
Lemma stable_new_closure roots f : stable_m (Allocator.new_closure roots f).
Proof. unfold Allocator.new_closure. stably. Qed.
Lemma stable_new_upvalue roots i : stable_m (Allocator.new_upvalue roots i).
Proof. unfold Allocator.new_upvalue. stably. Qed.

(** What a new list and a new closure are. *)
Lemma new_list_known roots n c d m r m' : Allocator.new_list roots n c d m = Ret (r, m') ->
  known m' (r, ObjList (mkList [])).
Proof.
  unfold Allocator.new_list. intros ([] & m1 & _ & Hm)%M_bind_Ret.
  apply M_bind_Ret in Hm as ([] & m2 & _ & Hm). repeat case_match; try done. by apply push_keeps in Hm as [_ ?].
Qed.

Lemma new_closure_known roots f m r m' fn : fresh m -> known m (f, ObjFunction fn) ->
  Allocator.new_closure roots f m = Ret (r, m') ->
  known m' (r, ObjClosure (mkClosure f [] (upvalue_count_ fn))).
Proof.
  intros Hf Hk Hm. unfold Allocator.new_closure in Hm. apply M_bind_Ret in Hm as ([] & m1 & H1 & Hm).
  apply M_bind_Ret in Hm as ([] & m2 & H2 & Hm). apply M_bind_Ret in Hm as (? & ? & [= <- <-] & Hm).
  apply M_bind_Ret in Hm as (fn' & ? & [-> Hfn]%lift_Ret & Hm).
  pose proof (stable_stress roots _ _ _ Hf (Forall_nil_2 _) H1) as K1.
  pose proof (stable_create roots _ _ _ _ (keeps_fresh _ _ K1 Hf) (Forall_nil_2 _) H2) as K2.
  pose proof (known_keeps _ _ _ (transitivity K1 K2) Hk) as [_ Hs].
  unfold Heap.function, Heap.read in Hfn. cbn in Hs. destruct (objects m2 !! f) as [c|]; [|done].
  cbn in Hfn. specialize (Hs c eq_refl). destruct (content c); try done. injection Hfn as ->. injection Hs as ->.
  by apply push_keeps in Hm as [_ ?].
Qed.

End memory.

#[export] Hint Resolve stable_intern stable_new_class stable_new_list stable_new_map stable_new_instance
  stable_new_bound_method stable_new_native_function stable_new_closure stable_new_upvalue : stable.

(** ** The machine *)

Section machine.
Context `{Platform}.

Abbreviation stable_w fs m := (stable mem fs m).

Lemma stable_allocate {A} fs (g : list (option ref) -> M Memory A) :
  (forall roots, stable (fun m : Memory => m) [] (g roots)) -> stable_w fs (allocate g).
Proof.
  intros Hg w a w' Hf _ Hm. unfold allocate, zoom in Hm. apply bind_Ret in Hm as (roots & _ & Hm).
  apply bind_Ret in Hm as ([b m] & Hm & [= <- <-]). cbn. by eapply Hg.
Qed.

Lemma stable_read_heap {A} fs (g : heap -> outcome A) : stable_w fs (read_heap g).
Proof. apply stable_same. by intros s a s' ->%read_heap_same. Qed.

Lemma read_heap_Ret {A} (g : heap -> outcome A) w x w' : read_heap g w = Ret (x, w') -> g (objects (mem w)) = Ret x.
Proof. intros (? & ? & [= <- <-] & [_ ?]%lift_Ret)%M_bind_Ret. done. Qed.

(** Reading an object: from then on its shape is known. *)
Definition reads {A} (g : heap -> outcome A) (r : ref) (o : A -> Object) : Prop :=
  forall h x, g h = Ret x -> exists c, h !! r = Some c /\ content c = o x.

Lemma reads_known {A} (g : heap -> outcome A) r o m x :
  reads g r o -> fresh m -> g (objects m) = Ret x -> known m (r, shape (o x)).
Proof.
  intros Hg Hf (c & Hc & E)%Hg. split; cbn; [by apply Hf; eexists|]. intros c' Hc'. congruence.
Qed.

Lemma stable_read {A B} fs (g : heap -> outcome A) r o (k : A -> M machine B) :
  reads g r o -> (forall x, stable_w ((r, shape (o x)) :: fs) (k x)) -> stable_w fs (read_heap g ≫= k).
Proof.
  intros Hg Hk w b w' Hf Hfs (x & w1 & Hx & H2)%M_bind_Ret.
  pose proof (read_heap_Ret _ _ _ _ Hx) as E. apply read_heap_same in Hx as ->.
  apply (Hk x w b w' Hf); [|done]. apply Forall_cons_2; [by eapply reads_known|done].
Qed.

Ltac reading := intros ? ? Hx; unfold Heap.string, Heap.function, Heap.closure, Heap.upvalue, Heap.class,
  Heap.instance, Heap.list, Heap.map, Heap.read in Hx; destruct (_ !! _) as [c|] eqn:?; [|done];
  cbn in Hx; destruct (content c) eqn:?; try done; injection Hx as <-; eauto.

Lemma reads_upvalue r : reads (fun h => Heap.upvalue h r) r ObjUpvalue.
Proof. reading. Qed.
Lemma reads_closure r : reads (fun h => Heap.closure h r) r ObjClosure.
Proof. reading. Qed.
Lemma reads_class r : reads (fun h => Heap.class h r) r ObjClass.
Proof. reading. Qed.
Lemma reads_instance r : reads (fun h => Heap.instance h r) r ObjInstance.
Proof. reading. Qed.
Lemma reads_list r : reads (fun h => Heap.list h r) r ObjList.
Proof. reading. Qed.
Lemma reads_map r : reads (fun h => Heap.map h r) r ObjMap.
Proof. reading. Qed.
Lemma reads_object r : reads (fun h => Heap.read h r) r (fun o => o).
Proof. intros h x Hx. unfold Heap.read in Hx. destruct (h !! r); [|done]. injection Hx as <-. eauto. Qed.

Lemma stable_write fs r o : (r, shape o) ∈ fs -> stable_w fs (write_object r o).
Proof.
  intros Hin w [] w' _ Hfs [= <-].
  assert (Hk : known (mem w) (r, shape o)) by by eapply Forall_forall in Hfs.
  unfold set_mem. cbn [mem]. split; cbn; [lia| |].
  - intros Hf r' [c Hr']. cbn in *. unfold Heap.write in Hr'. apply lookup_alter_Some in Hr' as [(-> & c0 & ? & _)|[_ ?]];
      apply Hf; eauto.
  - intros r' c' Hr' Hlt. unfold Heap.write in Hr'. apply lookup_alter_Some in Hr' as [(<- & c0 & Hc0 & ->)|[_ ?]].
    + exists c0. split; [done|]. cbn. symmetry. by apply (proj2 Hk).
    + eauto.
Qed.

Lemma stable_new_list_bind {B} fs n c d (k : ref -> M machine B) :
  (forall r, stable_w ((r, ObjList (mkList [])) :: fs) (k r)) ->
  stable_w fs (allocate (fun roots => Allocator.new_list roots n c d) ≫= k).
Proof.
  intros Hk w b w' Hf Hfs (r & w1 & H1 & H2)%M_bind_Ret.
  pose proof (stable_allocate fs _ (fun roots => stable_new_list roots n c d) _ _ _ Hf Hfs H1) as K1.
  etrans; [done|]. apply (Hk r w1 b w'); [by eapply keeps_fresh| |done].
  apply Forall_cons_2; [|eapply Forall_impl; [done|intros f; by apply known_keeps]].
  unfold allocate, zoom in H1. apply bind_Ret in H1 as (roots & _ & H1).
  apply bind_Ret in H1 as ([r' m] & H1 & [= <- <-]). by eapply new_list_known.
Qed.

End machine.
