(* ===== verification/UpvalueFacts.v ===== *)
(** * Captured variables

    The list of open upvalues: sorted by stack slot, searched by
    [capture_upvalue], shortened by [close_upvalues]. *)

From S2P Require Import Prelude Double HashMap HashMapFacts Hash Platform Opcode Parser Compiler Value Chunk Object Collections Memory CollectFacts SweepFacts AllocatorFacts GcProps Context VM KeyFacts.
Import Compiler (InterpretResult, OK, RUNTIME_ERROR).
Import VM.

(** [open_chain h u l]: from [u] the heap links the open upvalues [l], each with the slot its variable
    is in, from the highest slot to the lowest. *)
Inductive open_chain (h : heap) : option ref -> list (ref * nat) -> Prop :=
  | chain_nil : open_chain h None []
  | chain_cons r o i l :
      Heap.upvalue h r = Ret o -> loc o = Slot i -> open_chain h (next o) l ->
      Forall (fun p => (p.2 < i)%nat) l -> open_chain h (Some r) ((r, i) :: l).

Section chains.
Implicit Types (h : heap) (l : list (ref * nat)) (r : ref) (o : ObjectUpvalue).

Lemma upvalue_write h r o r' :
  is_Some (h !! r) ->
  Heap.upvalue (Heap.write h r (ObjUpvalue o)) r' =
  if decide (r = r') then Ret o else Heap.upvalue h r'.
Proof.
  intros [c Hc]. unfold Heap.upvalue, Heap.read, Heap.write. case_decide as E; subst.
  - by rewrite lookup_alter_eq, Hc.
  - by rewrite lookup_alter_ne.
Qed.

Lemma upvalue_some h r o : Heap.upvalue h r = Ret o -> is_Some (h !! r).
Proof.
  intros Hu%upvalue_read. unfold Heap.read in Hu. apply or_undef_Ret in Hu.
  destruct (h !! r); [by eexists|done].
Qed.

Lemma chain_heap h h' u l :
  open_chain h u l -> (forall r, r ∈ l.*1 -> Heap.upvalue h' r = Heap.upvalue h r) -> open_chain h' u l.
Proof.
  induction 1 as [|r o i l Ho Hi _ IH Hl]; intros Heq; [constructor|].
  apply (chain_cons h' r o i l); [by rewrite Heq by (by left)|done| |done].
  apply IH. intros r' Hr'. apply Heq. by right.
Qed.

Lemma chain_elem h u l r i : open_chain h u l -> (r, i) ∈ l ->
  exists o, Heap.upvalue h r = Ret o /\ loc o = Slot i.
Proof.
  induction 1 as [|r' o i' l Ho Hi _ IH _]; [by intros ?%not_elem_of_nil|].
  intros [[= -> ->]|Hin]%elem_of_cons; [by exists o|by apply IH].
Qed.

Lemma chain_NoDup h u l : open_chain h u l -> NoDup l.*1.
Proof.
  induction 1 as [|r o i l Ho Hi Hc IH Hl]; [constructor|]. cbn. constructor; [|done].
  intros ([r' j] & -> & Hin)%list_elem_of_fmap. cbn in *.
  destruct (chain_elem h _ l r' j Hc Hin) as (o' & Ho' & Hj).
  rewrite Forall_forall in Hl. pose proof (Hl _ Hin) as Hlt. cbn in Hlt. simplify_eq/=. 
  assert (o' = o) as -> by congruence. assert (i = j) by congruence. lia.
Qed.

Lemma chain_length h u l : open_chain h u l -> (length l <= size h)%nat.
Proof.
  intros Hc. rewrite <-(length_fmap fst), <-(size_list_to_set (C := gset ref)) by by eapply chain_NoDup.
  rewrite <-(size_dom (D := gset ref) h). apply subseteq_size. intros r Hr%elem_of_list_to_set.
  apply list_elem_of_fmap in Hr as ([r' i] & -> & Hin).
  destruct (chain_elem h u l r' i Hc Hin) as (o & Ho & _). apply elem_of_dom. by eapply upvalue_some.
Qed.

Lemma chain_app h u l1 l2 : open_chain h u (l1 ++ l2) ->
  exists u', open_chain h u' l2 /\ u' = match l2 with [] => None | p :: _ => Some p.1 end.
Proof.
  revert u. induction l1 as [|p l1 IH]; intros u Hc; cbn in Hc.
  - exists u. split; [done|]. by inversion Hc.
  - inversion Hc as [|? ? ? ? ? ? Hc' ]; subst. by eapply IH.
Qed.

(** ** Searching *)

Lemma find_upvalue_spec h slot u l : open_chain h u l ->
  forall fuel prev, (length l <= fuel)%nat ->
  exists l1 l2, l = l1 ++ l2 /\ Forall (fun p => (slot < p.2)%nat) l1 /\
    match l2 with [] => True | p :: _ => (p.2 <= slot)%nat end /\
    find_upvalue fuel h prev u slot =
      Ret (match last l1 with None => prev | Some p => Some p.1 end,
           match l2 with [] => None | p :: _ => Some p.1 end).
Proof.
  induction 1 as [|r o i l Ho Hi _ IH Hl]; intros fuel prev Hf.
  - exists [], []. split_and!; try done. by destruct fuel.
  - cbn in Hf. destruct fuel as [|fuel]; [lia|]. cbn [find_upvalue].
    rewrite Ho. cbn [mbind outcome_bind]. unfold stack_location. rewrite Hi. cbn [mbind outcome_bind].
    destruct (Nat.ltb_spec slot i) as [Hlt|Hge].
    + destruct (IH fuel (Some r)) as (l1 & l2 & -> & H1 & H2 & ->); [lia|].
      exists ((r, i) :: l1), l2. split_and!; [done|by constructor|done|].
      rewrite last_cons. by destruct (last l1).
    + exists [], ((r, i) :: l). split_and!; [done|constructor|cbn; lia|done].
Qed.

(** Linking a new upvalue in after [l1]. *)
Lemma chain_insert h u l1 l2 new slot o :
  open_chain h u (l1 ++ l2) -> new ∉ (l1 ++ l2).*1 ->
  Heap.upvalue h new = Ret o -> loc o = Slot slot ->
  next o = match l2 with [] => None | p :: _ => Some p.1 end ->
  Forall (fun p => (slot < p.2)%nat) l1 -> Forall (fun p => (p.2 < slot)%nat) l2 ->
  match last l1 with
  | None => open_chain h (Some new) ((new, slot) :: l2)
  | Some p => forall op, Heap.upvalue h p.1 = Ret op ->
      open_chain (Heap.write h p.1 (ObjUpvalue (mkUpvalue (Some new) (closed op) (loc op)))) u
        (l1 ++ (new, slot) :: l2)
  end.
Proof.
  revert u. induction l1 as [|[r i] l1 IH]; intros u Hc Hnew Ho Hloc Hnext H1 H2.
  - apply (chain_cons h new o slot); try done. rewrite Hnext.
    by destruct (chain_app h u [] l2 Hc) as (u' & Hc' & <-).
  - cbn [app] in Hc. inversion Hc as [|? orr ? ? Hr Hi Hc' Hl]; subst. clear Hc.
    inversion_clear H1 as [|? ? Hlt H1']. cbn in Hlt, Hnew. apply not_elem_of_cons in Hnew as [Hne Hnew].
    specialize (IH _ Hc' Hnew Ho Hloc Hnext H1' H2). rewrite last_cons.
    apply Forall_app in Hl as [Hl1 Hl2].
    assert (Hbelow : Forall (fun p : ref * nat => (p.2 < i)%nat) ((new, slot) :: l2)) by by constructor.
    destruct (last l1) as [p|] eqn:El.
    + intros op Hop. pose proof (IH op Hop) as Hch.
      assert (Hpr : p.1 <> r).
      { intros Epr. apply last_Some in El as [l' ->]. rewrite Forall_app in Hl1. destruct Hl1 as [_ Hp].
        inversion_clear Hp as [|? ? Hpi _]. 
        destruct (chain_elem h _ _ p.1 p.2 Hc') as (o' & Ho' & Hp2).
        { rewrite <-surjective_pairing. apply elem_of_app. left. apply elem_of_app. right. by apply list_elem_of_singleton. }
        rewrite Epr in Ho'. assert (o' = orr) as -> by congruence. assert (i = p.2) by congruence. lia. }
      apply (chain_cons _ r orr i); [|done|done|by apply Forall_app].
      rewrite upvalue_write by by eapply upvalue_some. by rewrite decide_False.
    + apply last_None in El as ->. intros op Hop. cbn in Hop. assert (op = orr) as -> by congruence.
      apply (chain_cons _ r (mkUpvalue (Some new) (closed orr) (loc orr)) i); [|done| |done].
      * rewrite upvalue_write by by eapply upvalue_some. by rewrite decide_True.
      * eapply chain_heap; [exact IH|]. intros r' Hr'. rewrite upvalue_write by by eapply upvalue_some.
        rewrite decide_False; [done|]. intros <-.
        cbn in Hr'. apply elem_of_cons in Hr' as [->|Hr']; [done|].
        pose proof (chain_NoDup h (Some r) ((r, i) :: [] ++ l2)) as Hnd. cbn in Hnd.
        apply NoDup_cons in Hnd as [Hn _]; [done|]. by apply (chain_cons h r orr i).
Qed.

End chains.

Section machine.
Context `{PlatformLaws}.
Implicit Types (w : machine) (l : list (ref * nat)) (r : ref).

Definition heap_now w : heap := objects (mem w).

(** The open upvalues of [w] are [l], and their variables are on the stack. *)
Definition open_upvalues_are w l : Prop :=
  open_chain (heap_now w) (open_upvalues (state w)) l /\
  Forall (fun p => (p.2 < length (evalstack (state w)))%nat) l.

Lemma read_heap_run {A} w (f : heap -> outcome A) a : f (heap_now w) = Ret a -> read_heap f w = Ret (a, w).
Proof. intros E. unfold read_heap, heap_of. run_with gets_run. by apply lift_run. Qed.

(** [w] with another heap and another list of open upvalues. *)
Definition with_open w (h : heap) (u : option ref) : machine :=
  set_state (set_mem w (Memory.set_objects (mem w) h)) (set_open (state w) u).

Lemma with_open_id w u : open_upvalues (state w) = u -> with_open w (heap_now w) u = w.
Proof. intros <-. by destruct w as [[] ? ? [] ? ? ?]. Qed.

(** ** Closing *)

(** What closing the upvalues [l] from the slot [last] on does to the heap. *)
Record closes (st : list Value) (last : nat) l (h h' : heap) : Prop := {
  closes_those : forall r i, (r, i) ∈ l -> (last <= i)%nat -> exists o v,
    Heap.upvalue h r = Ret o /\ st !! i = Some v /\
    Heap.upvalue h' r = Ret (mkUpvalue (next o) v Closed);
  closes_only : forall r, (forall i, (r, i) ∈ l -> (i < last)%nat) -> h' !! r = h !! r
}.

Lemma upvalue_same (h h' : heap) r : h' !! r = h !! r -> Heap.upvalue h' r = Heap.upvalue h r.
Proof. intros E. unfold Heap.upvalue, Heap.read. by rewrite E. Qed.

Lemma write_other (h : heap) r o r' : r <> r' -> Heap.write h r o !! r' = h !! r'.
Proof. intros Hne. unfold Heap.write. by rewrite lookup_alter_ne. Qed.

Lemma close_upvalues_spec last l : forall fuel w,
  open_upvalues_are w l -> (length l <= fuel)%nat ->
  exists h u, close_upvalues fuel last w = Ret (tt, with_open w h u) /\
    open_chain h u (filter (fun p => (p.2 < last)%nat) l) /\
    closes (evalstack (state w)) last l (heap_now w) h.
Proof.
  induction l as [|[r i] l IH]; intros fuel w [Hc Hst] Hf.
  - exists (heap_now w), None. inversion Hc as [Hu|]; subst. split_and!; [|constructor|].
    + rewrite with_open_id by done.
      destruct fuel; cbn [close_upvalues]; unfold mbind, M_bind, vm_state, gets; rewrite <-Hu; reflexivity.
    + constructor; [by intros r i ?%not_elem_of_nil|done].
  - pose proof (chain_NoDup _ _ _ Hc) as Hnd. inversion Hc as [|? o ? ? Ho Hi Hc' Hl Hu]; subst.
    inversion_clear Hst as [|? ? Hlt Hst']. cbn in Hlt, Hf, Hnd. apply NoDup_cons in Hnd as [Hr _].
    destruct fuel as [|fuel]; [lia|]. cbn [close_upvalues].
    unfold mbind at 1, M_bind, vm_state at 1, gets. rewrite <-Hu.
    unfold mbind at 1, M_bind, read_heap, heap_of, gets, mbind at 1, M_bind, lift.
    fold (heap_now w). rewrite Ho. cbn [mbind outcome_bind].
    unfold mbind at 1, M_bind, stack_location. rewrite Hi. cbn [mbind outcome_bind].
    destruct (Nat.leb_spec last i) as [Hle|Hgt].
    + destruct (lookup_lt_is_Some_2 _ _ Hlt) as [v Hv].
      unfold mbind at 1, M_bind, load_slot, vm_state at 1, gets, mbind at 1, M_bind, lift. rewrite Hv.
      cbn [or_undef mbind outcome_bind]. set (h1 := Heap.write (heap_now w) r (ObjUpvalue (mkUpvalue (next o) v Closed))).
      assert (Ho1 : Heap.upvalue h1 r = Ret (mkUpvalue (next o) v Closed)).
      { unfold h1. rewrite upvalue_write by by eapply upvalue_some. by rewrite decide_True. }
      destruct (IH fuel (with_open w h1 (next o))) as (h & u & Hrun & Hch & [Hthose Honly]); [|lia|].
      { split; [|done]. eapply chain_heap; [exact Hc'|]. intros r' Hr'. apply upvalue_same, write_other.
        by intros <-. }
      exists h, u. rewrite filter_cons_False by (cbn; lia). split_and!; [exact Hrun|exact Hch|].
      assert (Hkeep : h !! r = h1 !! r).
      { apply Honly. intros j Hj. destruct Hr. by apply (list_elem_of_fmap_2 fst _ (r, j)). }
      constructor.
      * intros r' j [[= -> ->]|Hin]%elem_of_cons Hj.
        -- exists o, v. split_and!; [done|done|]. by rewrite (upvalue_same h1 h).
        -- destruct (Hthose r' j Hin Hj) as (o' & v' & Ho' & Hv' & Hcl). exists o', v'.
           split_and!; [|done|done]. rewrite <-Ho'. symmetry. apply upvalue_same, write_other.
           intros <-. destruct Hr. by apply (list_elem_of_fmap_2 fst _ (r, j)).
      * intros r' Hr'. assert (r <> r') as Hne.
        { intros <-. specialize (Hr' i). rewrite elem_of_cons in Hr'. pose proof (Hr' (or_introl eq_refl)). lia. }
        rewrite Honly by (intros j Hj; apply Hr'; by right). by apply write_other.
    + exists (heap_now w), (Some r). split_and!.
      * by rewrite with_open_id.
      * rewrite filter_cons_True by (cbn; lia).
        assert (filter (fun p : ref * nat => (p.2 < last)%nat) l = l) as ->; [|by rewrite Hu].
        clear -Hl Hgt. induction Hl as [|p l Hp _ IH]; [done|].
        rewrite filter_cons_True by lia. by rewrite IH.
      * constructor; [|done]. intros r' j Hin Hj. exfalso.
        apply elem_of_cons in Hin as [[= -> ->]|Hin]; [lia|].
        rewrite Forall_forall in Hl. specialize (Hl _ Hin). cbn in Hl. lia.
Qed.

(** ** Capturing *)

Lemma open_variable w l r i : open_upvalues_are w l -> (r, i) ∈ l ->
  exists v, load_upvalue r w = Ret (v, w) /\ evalstack (state w) !! i = Some v.
Proof.
  intros [Hc Hst] Hin. destruct (chain_elem _ _ _ _ _ Hc Hin) as (o & Ho & Hi).
  rewrite Forall_forall in Hst. specialize (Hst _ Hin). cbn in Hst.
  destruct (lookup_lt_is_Some_2 _ _ Hst) as [v Hv]. exists v. split; [|done].
  unfold load_upvalue. run_with (read_heap_run w _ _ Ho). rewrite Hi.
  unfold load_slot. run_with gets_run. by rewrite Hv.
Qed.

Lemma capture_existing w l r slot :
  open_upvalues_are w l -> (r, slot) ∈ l -> capture_upvalue slot w = Ret (r, w).
Proof.
  intros [Hc Hst] Hin.
  destruct (find_upvalue_spec _ slot _ _ Hc (size (heap_now w)) None (chain_length _ _ _ Hc))
    as (l1 & l2 & -> & H1 & H2 & Hfind).
  assert (Hin2 : (r, slot) ∈ l2).
  { apply elem_of_app in Hin as [Hin|Hin]; [|done]. rewrite Forall_forall in H1.
    specialize (H1 _ Hin). cbn in H1. lia. }
  destruct l2 as [|p l2]; [by apply not_elem_of_nil in Hin2|].
  destruct (chain_app _ _ _ _ Hc) as (u & Hc2 & _). inversion Hc2 as [|r' o i ? Ho Hi _ Hl]; subst.
  apply elem_of_cons in Hin2 as [[= -> ->]|Hin2].
  2: { rewrite Forall_forall in Hl. specialize (Hl _ Hin2). cbn in *. lia. }
  unfold capture_upvalue. run_with gets_run. run_with (read_heap_run w _ _ Hfind). cbv beta iota.
  erewrite M_bind_run; [|run_with (read_heap_run w (fun h => Heap.upvalue h r') _ Ho);
    run_with (lift_run (stack_location o) i); [reflexivity|unfold stack_location; by rewrite Hi]].
  by rewrite Nat.eqb_refl.
Qed.

Lemma upvalue_chain_spec (h : heap) u l : open_chain h u l -> forall fuel, (length l <= fuel)%nat ->
  upvalue_chain fuel h u = Ret ((fun p => Some p.1) <$> l).
Proof.
  induction 1 as [|r o i l Ho Hi _ IH Hl]; intros fuel Hf; [by destruct fuel|].
  cbn in Hf. destruct fuel as [|fuel]; [lia|]. cbn [upvalue_chain]. rewrite Ho. cbn [mbind outcome_bind].
  by rewrite IH by lia.
Qed.

(** The machine between two instructions: the allocator's bookkeeping is right, and no pointer the
    collector follows dangles. *)
Definition machine_ok w l : Prop :=
  open_upvalues_are w l /\ live_count 0 (mem w) /\
  exists p roots, inv (mem w) p /\ vm_roots w = Ret roots /\ gc_safe (outer_roots w ++ roots) (mem w).

Lemma chain_roots w l roots r :
  open_upvalues_are w l -> vm_roots w = Ret roots -> r ∈ l.*1 -> Some r ∈ roots.
Proof.
  intros [Hc _] Hr Hin. unfold vm_roots in Hr. fold (heap_now w) in Hr.
  rewrite (upvalue_chain_spec _ _ _ Hc) in Hr by by eapply chain_length. injection Hr as <-.
  apply elem_of_app. right. apply elem_of_app. right. apply elem_of_app. left.
  apply list_elem_of_fmap in Hin as (p & -> & Hp). by apply (list_elem_of_fmap_2 (fun p => Some p.1) l p).
Qed.

Lemma allocate_upvalue w l slot :
  machine_ok w l ->
  exists r m,
    (allocate (fun roots => Allocator.new_upvalue roots slot)) w = Ret (r, set_mem w m) /\
    objects m !! r = Some (mkCell false (ObjUpvalue (mkUpvalue None Value.nil (Slot slot)))) /\
    heap_now w !! r = None /\ (r ∉ l.*1) /\
    (forall r', r' ∈ l.*1 -> objects m !! r' = heap_now w !! r').
Proof.
  intros (Hopen & Hlive & p & roots & Hi & Hroots & Hs). unfold allocate. rewrite Hroots.
  cbn [mbind outcome_bind]. set (all := outer_roots w ++ roots) in *.
  destruct (allocates_object all ObjectType.UPVALUE (ObjUpvalue (mkUpvalue None Value.nil (Slot slot)))
              (mem w) p Hi Hs Hlive) as (r & m & q & Hrun & _ & _ & Hfresh & Hr & Hext & _); [by intros []|].
  unfold zoom. unfold Allocator.new_upvalue. rewrite Hrun. cbn [mbind outcome_bind].
  assert (Hin : forall r', r' ∈ l.*1 -> kept all (mem w) r').
  { intros r' Hr'. constructor. unfold root_refs. apply elem_of_app. right. apply elem_of_app. left.
    apply elem_of_app. right. by eapply chain_roots. }
  exists r, m. split_and!; [done|done|done| |].
  - intros Hr'%Hin. destruct (Hs r Hr') as [c Hc]. congruence.
  - intros r' Hr'%Hin. destruct (Hs r' Hr') as [c Hc]. unfold heap_now.
    rewrite Hc. by apply (ext_keep _ _ _ _ Hext).
Qed.

Definition loc_of (h : heap) r : outcome location := u ← Heap.upvalue h r; Ret (loc u).

(** Linking the new upvalue in; [h] is the heap with it. *)
Lemma link_upvalue_spec w l1 l2 new slot o :
  let h := heap_now w in
  open_chain h (open_upvalues (state w)) (l1 ++ l2) -> new ∉ (l1 ++ l2).*1 ->
  Heap.upvalue h new = Ret o -> loc o = Slot slot ->
  next o = match l2 with [] => None | p :: _ => Some p.1 end ->
  Forall (fun p => (slot < p.2)%nat) l1 -> Forall (fun p => (p.2 < slot)%nat) l2 ->
  exists h' u, link_upvalue (match last l1 with Some p => Some p.1 | None => None end) new w =
      Ret (tt, with_open w h' u) /\ open_chain h' u (l1 ++ (new, slot) :: l2) /\
    Heap.upvalue h' new = Ret o.
Proof.
  intros h Hc Hnew Ho Hloc Hnext H1 H2.
  pose proof (chain_insert h _ l1 l2 new slot o Hc Hnew Ho Hloc Hnext H1 H2) as Hins.
  destruct (last l1) as [p|] eqn:El; cbn [link_upvalue].
  - assert (Hp : p ∈ l1) by (apply last_Some in El as [l' ->]; apply elem_of_app; right; by left).
    destruct (chain_elem h _ _ p.1 p.2 Hc) as (op & Hop & _).
    { rewrite <-surjective_pairing. apply elem_of_app. by left. }
    assert (Hne : p.1 <> new).
    { intros <-. apply Hnew. apply (list_elem_of_fmap_2 fst). apply elem_of_app. by left. }
    run_with (read_heap_run w _ _ Hop). eexists _, _. split_and!; [|by apply Hins|].
    + unfold write_object, modify, with_open. fold (heap_now w). by destruct w as [[] ? ? [] ? ? ?].
    + rewrite upvalue_write by by eapply upvalue_some. by rewrite decide_False.
  - apply last_None in El as ->. exists h, (Some new). split_and!; [|exact Hins|done].
    by destruct w as [[] ? ? [] ? ? ?].
Qed.

Lemma capture_new w l slot :
  machine_ok w l -> slot ∉ l.*2 -> (slot < length (evalstack (state w)))%nat ->
  exists r m u l1 l2, l = l1 ++ l2 /\
    capture_upvalue slot w = Ret (r, set_state (set_mem w m) (set_open (state w) u)) /\
    heap_now w !! r = None /\
    open_upvalues_are (set_state (set_mem w m) (set_open (state w) u)) (l1 ++ (r, slot) :: l2).
Proof.
  intros Hok Hslot Hlt. pose proof Hok as ([Hc Hst] & _).
  destruct (find_upvalue_spec _ slot _ _ Hc (size (heap_now w)) None (chain_length _ _ _ Hc))
    as (l1 & l2 & -> & H1 & H2 & Hfind).
  destruct (allocate_upvalue w _ slot Hok) as (r & m & Hall & Hr & Hfresh & Hrl & Hsame).
  assert (H2' : Forall (fun p => (p.2 < slot)%nat) l2).
  { destruct (chain_app _ _ _ _ Hc) as (u & Hc2 & _). rewrite fmap_app in Hslot.
    destruct l2 as [|p l2]; [done|]. inversion Hc2; subst. cbn in *.
    assert (i <> slot) by (intros ->; apply Hslot, elem_of_app; right; by left).
    constructor; [cbn; lia|]. eapply Forall_impl; [done|]. cbn. lia. }
  set (w1 := set_mem w m). set (cur := match l2 with [] => None | p :: _ => Some p.1 end) in *.
  assert (Hr1 : Heap.upvalue (heap_now w1) r = Ret (mkUpvalue None Value.nil (Slot slot))).
  { unfold Heap.upvalue, Heap.read, heap_now. cbn. by rewrite Hr. }
  set (o := mkUpvalue cur Value.nil (Slot slot)).
  set (w2 := set_mem w1 (Memory.set_objects (mem w1) (Heap.write (heap_now w1) r (ObjUpvalue o)))).
  assert (Hc2 : open_chain (heap_now w2) (open_upvalues (state w2)) (l1 ++ l2)).
  { eapply chain_heap; [exact Hc|]. intros r' Hr'. apply upvalue_same. cbn.
    rewrite write_other by (by intros <-). by apply Hsame. }
  destruct (link_upvalue_spec w2 l1 l2 r slot o Hc2 Hrl) as (h' & u & Hlink & Hch & _); try done.
  { cbn. rewrite upvalue_write by by eapply upvalue_some. by rewrite decide_True. }
  exists r, (Memory.set_objects m h'), u, l1, l2. split_and!; [done| |done|].
  - unfold capture_upvalue. run_with gets_run. run_with (read_heap_run w _ _ Hfind). cbv beta iota.
    assert (Hcase : forall k : bool -> M machine ref, (same ← match cur with
         | None => mret false
         | Some r => u ← read_heap (fun h => Heap.upvalue h r);
                     i ← lift (stack_location u); mret (Nat.eqb i slot)
         end; k same) w = k false w).
    { intros k. subst cur. destruct l2 as [|p l2]; [reflexivity|].
      destruct (chain_elem _ _ _ p.1 p.2 Hc) as (op & Hop & Hlp).
      { rewrite <-surjective_pairing. apply elem_of_app. right. by left. }
      erewrite M_bind_run; [|run_with (read_heap_run w (fun h => Heap.upvalue h p.1) _ Hop);
        run_with (lift_run (stack_location op) p.2); [reflexivity|unfold stack_location; by rewrite Hlp]].
      inversion_clear H2' as [|? ? Hp _]. by rewrite (proj2 (Nat.eqb_neq _ _)) by lia. }
    rewrite Hcase. erewrite M_bind_run; [|exact Hall].
    fold w1. run_with (read_heap_run w1 _ _ Hr1).
    run_with (eq_refl : write_object r (ObjUpvalue o) w1 = Ret (tt, w2)).
    erewrite M_bind_run; [|exact Hlink]. reflexivity.
  - split; [exact Hch|]. cbn. apply Forall_app in Hst as [? ?]. apply Forall_app. split; [done|].
    by constructor.
Qed.

End machine.

(** ** Properties *)

(** C15. Closing the upvalues from a stack slot on detaches exactly those and keeps every variable:
    it always ends, the list keeps the upvalues below the slot in order, the stack is not touched, and
    every captured variable reads the same value before and after, from its own copy if it was
    closed. *)
Theorem closing_keeps_variables `{PlatformLaws} (w : machine) (l : list (ref * nat)) (last : nat) :
  open_upvalues_are w l ->
  exists w', close_from last w = Ret (tt, w') /\
    open_upvalues_are w' (filter (fun p => (p.2 < last)%nat) l) /\
    evalstack (state w') = evalstack (state w) /\ stack_top (state w') = stack_top (state w) /\
    forall r i, (r, i) ∈ l ->
      loc_of (heap_now w') r = Ret (if decide (i < last)%nat then Slot i else Closed) /\
      exists v, load_upvalue r w = Ret (v, w) /\ load_upvalue r w' = Ret (v, w').
Proof.
  intros Hopen. pose proof Hopen as [Hc Hst].
  destruct (close_upvalues_spec last l (size (heap_now w)) w Hopen (chain_length _ _ _ Hc))
    as (h & u & Hrun & Hch & [Hthose Honly]).
  exists (with_open w h u). split_and!; [exact Hrun| |done|done|].
  - split; [exact Hch|]. apply Forall_forall. intros p [_ Hp]%list_elem_of_filter.
    by apply (proj1 (Forall_forall _ _) Hst).
  - intros r i Hin. destruct (open_variable w l r i Hopen Hin) as (v & Hload & Hv).
    destruct (decide (i < last)%nat) as [Hlt|Hge].
    + assert (Hin' : (r, i) ∈ filter (fun p : ref * nat => (p.2 < last)%nat) l)
        by (apply list_elem_of_filter; done).
      destruct (chain_elem _ _ _ _ _ Hch Hin') as (o & Ho & Hi). split.
      * unfold loc_of. change (heap_now (with_open w h u)) with h. rewrite Ho. cbn. by rewrite Hi.
      * exists v. split; [done|].
        destruct (open_variable (with_open w h u) (filter (fun p : ref * nat => (p.2 < last)%nat) l) r i)
          as (v' & Hl' & Hv'); [split; [exact Hch|]|done|].
        { apply Forall_forall. intros p [_ Hp]%list_elem_of_filter. by apply (proj1 (Forall_forall _ _) Hst). }
        cbn in Hv'. congruence.
    + destruct (Hthose r i Hin) as (o & v' & Ho & Hv' & Hcl); [lia|]. split.
      * unfold loc_of. change (heap_now (with_open w h u)) with h. by rewrite Hcl.
      * exists v. split; [done|]. unfold load_upvalue.
        run_with (read_heap_run (with_open w h u) _ _ Hcl).
        assert (v' = v) as -> by congruence. reflexivity.
Qed.

(** Two variables captured from a stack of three. *)
Definition captured_heap : heap :=
  <[1%positive := mkCell false (ObjUpvalue (mkUpvalue (Some 2%positive) Value.nil (Slot 2)))]>
  {[2%positive := mkCell false (ObjUpvalue (mkUpvalue None Value.nil (Slot 0)))]}.

Definition capturing : machine :=
  mkMachine (Memory.set_objects (Memory.initial default_vm_opts) captured_heap) Context.empty
    ErrorReporter.empty
    (mkVM [Value.of_int 5; Value.of_int 6; Value.of_int 7] [] None 0 3 (Some 1%positive) 1%positive) [] [] [].

Lemma capturing_open : open_upvalues_are capturing [(1%positive, 2%nat); (2%positive, 0%nat)].
Proof.
  split; [|by repeat (constructor; [cbn; lia|])].
  eapply chain_cons; [by vm_compute|done| |constructor; [cbn; lia|constructor]].
  eapply chain_cons; [by vm_compute|done|constructor|constructor].
Qed.

Lemma closing_keeps_variables_witness :
  exists w', close_from 1 capturing = Ret (tt, w') /\
    open_upvalues_are w' (filter (fun p => (p.2 < 1)%nat) [(1%positive, 2%nat); (2%positive, 0%nat)]) /\
    evalstack (state w') = evalstack (state capturing) /\ stack_top (state w') = stack_top (state capturing) /\
    forall r i, (r, i) ∈ [(1%positive, 2%nat); (2%positive, 0%nat)] ->
      loc_of (heap_now w') r = Ret (if decide (i < 1)%nat then Slot i else Closed) /\
      exists v, load_upvalue r capturing = Ret (v, capturing) /\ load_upvalue r w' = Ret (v, w').
Proof. exact (closing_keeps_variables capturing _ 1 capturing_open). Defined.

(** C16. Closures that capture the same variable share it: capturing a stack slot returns the upvalue
    that is already open for it, changing nothing; otherwise it allocates one, which may collect,
    and links it in at its place in the sorted list, and capturing the slot again then returns that
    same upvalue. *)
Theorem captures_share `{PlatformLaws} (w : machine) (l : list (ref * nat)) (slot : nat) :
  machine_ok w l -> (slot < length (evalstack (state w)))%nat ->
  exists r w' l', capture_upvalue slot w = Ret (r, w') /\ (r, slot) ∈ l' /\
    open_upvalues_are w' l' /\ evalstack (state w') = evalstack (state w) /\
    (slot ∈ l.*2 -> w' = w) /\ (forall p, p ∈ l' <-> p = (r, slot) \/ p ∈ l) /\
    capture_upvalue slot w' = Ret (r, w').
Proof.
  intros Hok Hlt. destruct (decide (slot ∈ l.*2)) as [Hin|Hnew].
  - apply list_elem_of_fmap in Hin as ([r i] & -> & Hin). destruct Hok as [Hopen _].
    pose proof (capture_existing w l r i Hopen Hin) as Hcap.
    exists r, w, l. split_and!; try done. intros p. split; [by right|by intros [->|]].
  - destruct (capture_new w l slot Hok Hnew Hlt) as (r & m & u & l1 & l2 & -> & Hcap & _ & Hopen).
    assert (Hin : (r, slot) ∈ l1 ++ (r, slot) :: l2) by (apply elem_of_app; right; by left).
    eexists r, _, (l1 ++ (r, slot) :: l2). split_and!; [exact Hcap|done|exact Hopen|done|by intros ?| |].
    + intros p. rewrite !elem_of_app, elem_of_cons. tauto.
    + by eapply capture_existing.
Qed.

Definition uncaptured : machine :=
  mkMachine held Context.empty ErrorReporter.empty
    (mkVM [Value.of_int 5; Value.of_int 6] [] None 0 2 None 1%positive) [] [] [].

Lemma uncaptured_ok : machine_ok uncaptured [].
Proof.
  destruct held_ok as (p & Hi & Hs & Hl & Hk). split; [split; constructor|]. split; [exact Hl|].
  exists p, [None; None; Some 1%positive]. split; [exact Hi|]. split; [by vm_compute|].
  intros r Hr. apply Hs. clear Hs Hl Hi. 
  induction Hr as [r Hr|r c r' _ IH Hc Hch]; [|by eapply reachable_child].
  unfold root_refs in Hr. rewrite !elem_of_app in Hr.
  destruct Hr as [Hr|[[Hr|Hr]|Hr]].
  - constructor. unfold root_refs. rewrite elem_of_app. by left.
  - by apply not_elem_of_nil in Hr.
  - apply list_elem_of_In in Hr. cbn in Hr. destruct Hr as [[=]|[[=]|[[= <-]|[]]]]. exact Hk.
  - constructor. unfold root_refs. rewrite !elem_of_app. by right; right.
Qed.

Lemma captures_share_witness :
  exists r w' l', capture_upvalue 1 uncaptured = Ret (r, w') /\ (r, 1%nat) ∈ l' /\
    open_upvalues_are w' l' /\ evalstack (state w') = evalstack (state uncaptured) /\
    (1%nat ∈ ([] : list (ref * nat)).*2 -> w' = uncaptured) /\
    (forall p, p ∈ l' <-> p = (r, 1%nat) \/ p ∈ ([] : list (ref * nat))) /\
    capture_upvalue 1 w' = Ret (r, w').
Proof. apply (captures_share uncaptured [] 1 uncaptured_ok). cbn. lia. Defined.
