(* ===== verification/Natives.v ===== *)
(** * Native functions (src/native/*.cpp, src/vm/register_native_functions.cpp)

    Each gets the argument count and the stack slot of the callee: argument [i]
    is [values[i]], [i] slots above it.  It returns a value and whether it
    succeeded. *)

From S2P Require Import Prelude Double HashMap Hash Platform Opcode Parser Compiler Value Chunk Object Collections Memory Context VM.
Import VM.

(** What the clock, the random generators and the vectors' growth policy answer. *)
Class Environment := {
  clock_seconds : machine -> double;
  random_real : machine -> double;
  random_int : machine -> Z -> Z -> Z;
  vector_capacity : machine -> ref -> Z;
  square_root : double -> double
}.

Module Natives.
Section natives.
Context `{Platform, Environment}.

Abbreviation V := (M machine).

Definition result : Type := V (Value * bool).

Definition arg (base i : nat) : V Value := load_slot (base + i).
Definition ok (v : Value) : result := mret (v, true).
(** [vm->report_error(...); return {Value{}, false};] *)
Definition error (text : string) : result := report_error text ;; mret (Value.nil, false).

Definition print_text (s : string) : V unit := modify (fun w => set_output w (s :: output w)).
Definition to_text (v : Value) : V string := read_heap (fun h => value_to_string (S (size h)) h v).
Definition newline_text : string := String (Ascii.ascii_of_nat 10) EmptyString.

(** *** time.cpp, stdio.cpp *)

Definition native_clock : result := w ← get; ok (Value.of_real (clock_seconds w)).

(** [std::getline]: an empty string at the end of the input. *)
Definition native_getline : result :=
  w ← get;
  line ← (match stdin w with
          | [] => mret EmptyString
          | l :: ls => put (set_stdin w ls) ;; mret l
          end);
  r ← intern line;
  ok (Value.of_object r).

Definition native_print (arg_count base : nat) : result :=
  for_each (fun i =>
      v ← arg base i;
      s ← to_text v;
      print_text (if Nat.eqb i 1 then s else (" " +:+ s))) (seq 1 arg_count) ;;
  ok Value.nil.

Definition native_println (arg_count base : nat) : result :=
  '(v, good) ← native_print arg_count base;
  if (good : bool) then print_text newline_text ;; ok v else mret (Value.nil, false).

(** *** stdlib.cpp *)

(** [exit] ends the process with the low byte of its argument: no later code runs.  It is an exception
    that only the drivers of Lox.v handle; its text starts with a zero byte, which no message does. *)
Definition exit_request (status : Z) : string :=
  String "000" (String (ascii_of_N (Z.to_N (u8 status))) EmptyString).
Definition exit_status (e : string) : option Z :=
  match e with
  | String "000" (String c EmptyString) => Some (Z.of_N (N_of_ascii c))
  | _ => None
  end.
Definition native_exit (base : nat) : result :=
  v ← arg base 1;
  match data v with
  | NUMBER_INT i => throw (exit_request (i32 i))
  | _ => error "invalid argument type to call exit(), must be an integer"
  end.

(** The names [type()] answers; [None] where no case handles the value. *)
Definition type_name (h : heap) (v : Value) : outcome (option string) :=
  match data v with
  | NUMBER_INT _ => Ret (Some "int")
  | NUMBER_REAL _ => Ret (Some "double")
  | BOOLEAN _ => Ret (Some "bool")
  | NIL => Ret (Some "nil")
  | OBJECT r =>
      o ← Heap.read h r;
      Ret match get_type o with
          | ObjectType.STRING => Some "string"
          | ObjectType.FUNCTION => Some "function"
          | ObjectType.NATIVE_FUNCTION => Some "native_function"
          | ObjectType.CLASS => Some "class"
          | ObjectType.INSTANCE => Some "instance"
          | ObjectType.LIST => Some "list"
          | ObjectType.MAP => Some "map"
          | ObjectType.CLOSURE | ObjectType.UPVALUE | ObjectType.BOUND_METHOD => None
          end
  end%string.

Definition native_type (base : nat) : result :=
  v ← arg base 1;
  nm ← read_heap (fun h => type_name h v);
  match nm with
  | Some s => r ← intern s; ok (Value.of_object r)
  | None => report_error "internal error: invalid type" ;; throw "unhandled type"
  end.

Definition native_len (base : nat) : result :=
  v ← arg base 1;
  let bad := report_error "invalid argument type to call len(), must be a string, list or map" ;;
             mret (Value.of_int 0, false) in
  match data v with
  | OBJECT r =>
      o ← read_heap (fun h => Heap.read h r);
      match o with
      | ObjString s => ok (Value.of_int (i64 (Z.of_nat (String.length (str s)))))
      | ObjList l => ok (Value.of_int (List.size l))
      | ObjMap m => ok (Value.of_int (Map.size m))
      | _ => bad
      end
  | _ => bad
  end.

Definition native_hash (base : nat) : result :=
  v ← arg base 1;
  hash ← read_heap (fun h => value_hash h v);
  if hash =? -1 then error "unhashable type" else ok (Value.of_int hash).

Definition native_is_hashable (base : nat) : result :=
  v ← arg base 1;
  hash ← read_heap (fun h => value_hash h v);
  if hash =? -1 then mret (Value.of_bool false, false) else ok (Value.of_bool true).

(** *** math.cpp *)

Definition native_sqrt (base : nat) : result :=
  v ← arg base 1;
  if Value.is_number v then x ← lift (Value.coerce_real v); ok (Value.of_real (square_root x))
  else error "invalid argument type to call sqrt(), must be a number".

Definition native_rand : result := w ← get; ok (Value.of_real (random_real w)).

Definition native_randint (base : nat) : result :=
  m ← arg base 1;
  n ← arg base 2;
  match data m with
  | NUMBER_INT a =>
      match data n with
      | NUMBER_INT b => w ← get; ok (Value.of_int (random_int w a b))
      | _ => error "invalid argument type to call randint(m, n), n must be an integer"
      end
  | _ => error "invalid argument type to call randint(m, n), m must be an integer"
  end.

(** [to_integer_try_parse] and [to_double_try_parse] (include/value.hpp). *)
Definition to_integer_try_parse (h : heap) (v : Value) : outcome (Z * bool) :=
  match data v with
  | NUMBER_INT i => Ret (i, true)
  | NUMBER_REAL d => z ← Double.to_int64 d; Ret (z, true)
  | OBJECT r =>
      o ← Heap.read h r;
      Ret match o with
          | ObjString s => match parse_int (str s) with Some z => (z, true) | None => (0, false) end
          | _ => (0, false)
          end
  | _ => Ret (0, false)
  end.

Definition to_double_try_parse (h : heap) (v : Value) : outcome (double * bool) :=
  match data v with
  | NUMBER_INT i => Ret (Double.of_Z i, true)
  | NUMBER_REAL d => Ret (d, true)
  | OBJECT r =>
      o ← Heap.read h r;
      Ret match o with
          | ObjString s =>
              match parse_real (str s) with Some d => (d, true) | None => (Double.of_Z 0, false) end
          | _ => (Double.of_Z 0, false)
          end
  | _ => Ret (Double.of_Z 0, false)
  end.

Definition native_to_int (base : nat) : result :=
  m ← arg base 1;
  if Value.is_integer m then ok m
  else
    '(value, good) ← read_heap (fun h => to_integer_try_parse h m);
    (if (good : bool) then mret tt else report_error "invalid conversion to int") ;;
    mret (Value.of_int value, good).

Definition native_to_double (base : nat) : result :=
  m ← arg base 1;
  if Value.is_real m then ok m
  else
    '(value, good) ← read_heap (fun h => to_double_try_parse h m);
    (if (good : bool) then mret tt else report_error "invalid conversion to double") ;;
    mret (Value.of_real value, good).

(** *** string.cpp, test.cpp *)

Definition native_to_string (base : nat) : result :=
  v ← arg base 1;
  s ← is_type ObjectType.STRING v;
  if (s : bool) then ok v
  else t ← to_text v; r ← intern t; ok (Value.of_object r).

Definition native_assert (base : nat) : result :=
  value ← arg base 1;
  message ← arg base 2;
  if negb (Value.is_falsey value) then ok Value.nil
  else t ← to_text message; error ("assertion failed: " +:+ t).

(** *** memory.cpp *)

Definition counter (f : Memory -> Z) : result := w ← get; ok (Value.of_int (i64 (f (mem w)))).

Definition native_display_gc_stats : result :=
  w ← get;
  let m := mem w in
  for_each (fun '(label, n) => print_text (label +:+ to_string n +:+ newline_text))
    [("  Bytes allocated: ", bytes_allocated m); ("  Bytes freed: ", bytes_freed m);
     ("  Net bytes: ", Memory.get_net_bytes m); ("  Next GC threshold: ", next_gc m);
     ("  Objects created: ", objects_created m); ("  Objects freed: ", objects_freed m);
     ("  Live objects: ", Memory.get_live_objects m); ("  Cycles: ", gc_cycles m)]%string ;;
  ok Value.nil.

(** *** classes.cpp *)

Definition validate_arguments (base : nat) (method_name : string) : V bool :=
  instance ← arg base 1;
  nm ← arg base 2;
  i ← is_type ObjectType.INSTANCE instance;
  if negb i then
    report_error ("invalid argument type to call " +:+ method_name +:+
                  "(object, name), object must be an instance") ;; mret false
  else
    s ← is_type ObjectType.STRING nm;
    if negb s then
      report_error ("invalid argument type to call " +:+ method_name +:+
                    "(object, name), property name must be a string") ;; mret false
    else mret true.

(** The instance and the property name, once validated. *)
Definition instance_and_name (base : nat) : V (ref * ref) :=
  v ← arg base 1; n ← arg base 2;
  r ← lift (Value.as_object v); k ← lift (Value.as_object n);
  mret (r, k).

Definition native_has_property (base : nat) : result :=
  good ← validate_arguments base "has_property";
  if negb good then mret (Value.nil, false)
  else
    '(r, k) ← instance_and_name base;
    i ← read_heap (fun h => Heap.instance h r);
    b ← read_heap (fun h => @HashMap.contains _ _ (string_key h) (fields i) (Some k));
    ok (Value.of_bool b).

Definition native_get_property (base : nat) : result :=
  good ← validate_arguments base "get_property";
  if negb good then mret (Value.nil, false)
  else
    '(r, k) ← instance_and_name base;
    i ← read_heap (fun h => Heap.instance h r);
    value ← table_get (fields i) k;
    match value with
    | Some v => ok v
    | None =>
        t ← to_text (Value.of_object r);
        s ← string_of k;
        error (t +:+ " has not property '" +:+ s +:+ "'")
    end.

Definition native_set_property (base : nat) : result :=
  good ← validate_arguments base "set_property";
  if negb good then mret (Value.nil, false)
  else
    '(r, k) ← instance_and_name base;
    v ← arg base 3;
    set_field r k v ;; ok Value.nil.

Definition native_del_property (base : nat) : result :=
  good ← validate_arguments base "del_property";
  if negb good then mret (Value.nil, false)
  else
    '(r, k) ← instance_and_name base;
    i ← read_heap (fun h => Heap.instance h r);
    '(b, t) ← read_heap (fun h => @HashMap.erase _ _ (string_key h) (fields i) (Some k));
    write_object r (ObjInstance (mkInstance (class_ i) t)) ;;
    ok (Value.of_bool b).

(** *** list.cpp *)

(** The value as a list or a map, if it is one. *)
Definition as_list (v : Value) : V (option (ref * ObjectList)) :=
  match data v with
  | OBJECT r => o ← read_heap (fun h => Heap.read h r);
                mret (match o with ObjList l => Some (r, l) | _ => None end)
  | _ => mret None
  end.

Definition as_map (v : Value) : V (option (ref * ObjectMap)) :=
  match data v with
  | OBJECT r => o ← read_heap (fun h => Heap.read h r);
                mret (match o with ObjMap m => Some (r, m) | _ => None end)
  | _ => mret None
  end.

(** An optional integer argument; [None] if it is something else. *)
Definition integer_arg (present : bool) (base i : nat) : V (option Z) :=
  if present then v ← arg base i; mret (match data v with NUMBER_INT n => Some n | _ => None end)
  else mret (Some 0).

Definition native_list (arg_count base : nat) : result :=
  len ← integer_arg (1 <=? arg_count)%nat base 1;
  match len with
  | None => error "first argument len, to list(len, default, cap) must be an integer"
  | Some len =>
      default_val ← (if (2 <=? arg_count)%nat then arg base 2 else mret Value.nil);
      cap ← integer_arg (3 <=? arg_count)%nat base 3;
      match cap with
      | None => error "third argument cap, to list(len, default, cap) must be an integer"
      | Some cap =>
          r ← allocate (fun roots => Allocator.new_list roots len cap default_val);
          ok (Value.of_object r)
      end
  end.

Definition native_pop_list (base : nat) : result :=
  v ← arg base 1;
  l ← as_list v;
  match l with
  | None => error "argument to pop() must be a list"
  | Some (r, l) =>
      match List.pop l with
      | (None, _) => error "cannot pop from empty list"
      | (Some v, l) => write_object r (ObjList l) ;; ok v
      end
  end.

Definition native_cap_list (base : nat) : result :=
  v ← arg base 1;
  l ← as_list v;
  match l with
  | None => error "argument to pop() must be a list"
  | Some (r, _) => w ← get; ok (Value.of_int (i64 (vector_capacity w r)))
  end.

(** *** map.cpp *)

Definition native_map : result :=
  r ← allocate (fun roots => Allocator.new_map roots); ok (Value.of_object r).

Definition native_append_map (arg_count base : nat) : result :=
  if (arg_count <? 2)%nat then
    error "too few arguments to call append(), expected either 2 or 3 arguments"
  else
    first_val ← arg base 1;
    l ← as_list first_val;
    m ← as_map first_val;
    match l, m with
    | Some (r, l), _ =>
        if negb (Nat.eqb arg_count 2) then
          error ("too many arguments to call append(list), expected 2 arguments, got " +:+
                 to_string (Z.of_nat arg_count) +:+ " arguments")
        else element ← arg base 2; write_object r (ObjList (List.append l element)) ;; ok Value.nil
    | None, None =>
        if negb (Nat.eqb arg_count 3) then
          error ("too many arguments to call append(map), expected 3 arguments, got " +:+
                 to_string (Z.of_nat arg_count) +:+ " arguments")
        else error "first argument to append() must be a list or map"
    | None, Some (r, _) =>
        key ← arg base 2;
        value ← arg base 3;
        hash ← read_heap (fun h => value_hash h key);
        if hash =? -1 then error "unhashable type: lists and maps cannot be used as map keys"
        else _ ← map_set r key value; ok Value.nil
    end.

Definition native_delete_map (base : nat) : result :=
  first_val ← arg base 1;
  l ← as_list first_val;
  match l with
  | Some (r, l) =>
      index_val ← arg base 2;
      match data index_val with
      | NUMBER_INT index =>
          if List.size l <=? index then error "error while calling delete(list,index) index out of bounds"
          else write_object r (ObjList (List.erase l index).2) ;; ok Value.nil
      | _ => error "second argument to delete() must be an integer "
      end
  | None =>
      m ← as_map first_val;
      match m with
      | None => error "first argument to delete() must be a list or map"
      | Some (r, m) =>
          key ← arg base 2;
          '(removed, m) ← read_heap (fun h => Map.remove h m key);
          write_object r (ObjMap m) ;;
          ok (Value.of_bool removed)
      end
  end.

(** [keys()] and [values()]: the list is allocated before the table is read. *)
Definition list_of_map (base : nat) (message : string) (items : ObjectMap -> list Value) : result :=
  map_val ← arg base 1;
  m ← as_map map_val;
  match m with
  | None => error message
  | Some (r, m) =>
      new ← allocate (fun roots => Allocator.new_list roots 0 (Map.size m) Value.nil);
      m ← read_heap (fun h => Heap.map h r);
      l ← read_heap (fun h => Heap.list h new);
      write_object new (ObjList (foldl List.append l (items m))) ;;
      ok (Value.of_object new)
  end.

Definition native_keys_map (base : nat) : result :=
  list_of_map base "argument to keys() must be a map" Map.keys.
Definition native_values_map (base : nat) : result :=
  list_of_map base "argument to values() must be a map" Map.values.

Definition native_has_map (base : nat) : result :=
  map_val ← arg base 1;
  key ← arg base 2;
  m ← as_map map_val;
  match m with
  | None => error "first argument to has() must be a map"
  | Some (_, m) => b ← read_heap (fun h => Map.has h m key); ok (Value.of_bool b)
  end.

Definition native_clear_map (base : nat) : result :=
  v ← arg base 1;
  m ← as_map v;
  l ← as_list v;
  match m, l with
  | Some (r, m), _ => write_object r (ObjMap (Map.clear m)) ;; ok Value.nil
  | None, Some (r, l) => write_object r (ObjList (List.clear l)) ;; ok Value.nil
  | None, None => error "argument to clear() must be a map or list"
  end.

Definition native_get_map (arg_count base : nat) : result :=
  map_val ← arg base 1;
  key ← arg base 2;
  default_val ← (if Nat.eqb arg_count 3 then arg base 3 else mret Value.nil);
  if negb (Nat.eqb arg_count 2 || Nat.eqb arg_count 3) then
    error ("too many arguments to call get(map, key, default), expected either 2 or 3 arguments, got " +:+
           to_string (Z.of_nat arg_count))
  else
    m ← as_map map_val;
    match m with
    | None => error "first argument to get() must be a map"
    | Some (_, m) =>
        v ← read_heap (fun h => Map.get_default h m key default_val); ok v
    end.

(** ** Calling and registering *)

Definition call_native (f : NativeFunction) (arg_count base : nat) : result :=
  match f with
  | Object.native_clock => native_clock
  | Object.native_getline => native_getline
  | Object.native_println => native_println arg_count base
  | Object.native_print => native_print arg_count base
  | Object.native_len => native_len base
  | Object.native_exit => native_exit base
  | Object.native_type => native_type base
  | Object.native_hash => native_hash base
  | Object.native_is_hashable => native_is_hashable base
  | Object.native_sqrt => native_sqrt base
  | Object.native_rand => native_rand
  | Object.native_randint => native_randint base
  | Object.native_to_int => native_to_int base
  | Object.native_to_double => native_to_double base
  | Object.native_to_string => native_to_string base
  | Object.native_assert => native_assert base
  | Object.native_get_bytes_allocated => counter bytes_allocated
  | Object.native_get_bytes_freed => counter bytes_freed
  | Object.native_get_next_gc => counter next_gc
  | Object.native_get_objects_created => counter objects_created
  | Object.native_get_objects_freed => counter objects_freed
  | Object.native_get_live_objects => counter Memory.get_live_objects
  | Object.native_get_net_bytes => counter Memory.get_net_bytes
  | Object.native_display_gc_stats => print_text ("GC Statistics:" +:+ newline_text) ;;
                                      native_display_gc_stats
  | Object.native_has_property => native_has_property base
  | Object.native_get_property => native_get_property base
  | Object.native_set_property => native_set_property base
  | Object.native_del_property => native_del_property base
  | Object.native_list => native_list arg_count base
  | Object.native_pop_list => native_pop_list base
  | Object.native_cap_list => native_cap_list base
  | Object.native_map => native_map
  | Object.native_append_map => native_append_map arg_count base
  | Object.native_delete_map => native_delete_map base
  | Object.native_keys_map => native_keys_map base
  | Object.native_values_map => native_values_map base
  | Object.native_has_map => native_has_map base
  | Object.native_clear_map => native_clear_map base
  | Object.native_get_map => native_get_map arg_count base
  end.

(** The names, arities and functions, in the order [register_native_functions] defines them. *)
Definition native_table : list (string * Z * NativeFunction) :=
  [("clock", 0, Object.native_clock); ("input", 0, Object.native_getline);
   ("println", -1, Object.native_println); ("print", -1, Object.native_print);
   ("len", 1, Object.native_len); ("exit", 1, Object.native_exit); ("type", 1, Object.native_type);
   ("hash", 1, Object.native_hash); ("is_hashable", 1, Object.native_is_hashable);
   ("sqrt", 1, Object.native_sqrt); ("rand", 0, Object.native_rand);
   ("randint", 2, Object.native_randint); ("to_int", 1, Object.native_to_int);
   ("to_double", 1, Object.native_to_double); ("to_string", 1, Object.native_to_string);
   ("assert", 2, Object.native_assert);
   ("sys__mem_get_bytes_allocated", 0, Object.native_get_bytes_allocated);
   ("sys__mem_get_bytes_freed", 0, Object.native_get_bytes_freed);
   ("sys__mem_get_next_gc", 0, Object.native_get_next_gc);
   ("sys__mem_get_objects_created", 0, Object.native_get_objects_created);
   ("sys__mem_get_objects_freed", 0, Object.native_get_objects_freed);
   ("sys__mem_get_live_objects", 0, Object.native_get_live_objects);
   ("sys__mem_get_net_bytes", 0, Object.native_get_net_bytes);
   ("sys__mem_display_gc_stats", 0, Object.native_display_gc_stats);
   ("has_property", 2, Object.native_has_property); ("get_property", 2, Object.native_get_property);
   ("set_property", 3, Object.native_set_property); ("del_property", 2, Object.native_del_property);
   ("list", -1, Object.native_list); ("pop", 1, Object.native_pop_list);
   ("cap", 1, Object.native_cap_list); ("map", 0, Object.native_map);
   ("append", -1, Object.native_append_map); ("delete", 2, Object.native_delete_map);
   ("keys", 1, Object.native_keys_map); ("values", 1, Object.native_values_map);
   ("has", 2, Object.native_has_map); ("clear", 1, Object.native_clear_map);
   ("get", -1, Object.native_get_map)]%string.

Definition register_native_functions : V unit :=
  for_each (fun '(nm, arity, f) => define_native_function nm arity f) native_table.

End natives.
End Natives.
