(* ===== verification/CallFacts.v ===== *)
(** * What instructions do to the frames of callers

    While the machine executes in a frame [k] or in one above it, no
    instruction and no native function touches the frames below [k], nor
    anything but the instruction pointer of [k]; only RETURN leaves [k]. *)

From S2P Require Import Prelude Double HashMap Hash Platform Opcode Parser Compiler Value Chunk Object Collections Memory Context VM StackFacts Natives.
Import Compiler (InterpretResult, OK, RUNTIME_ERROR).
Import VM.

(** The machine executes in the frame [k] or in one above it. *)
Definition inside (k : nat) (s : VM) : Prop :=
  exists i, current_frame s = Some i /\ (k <= i < frame_count s)%nat.

(** The frames below [k] are the same, and [k] itself up to its instruction pointer. *)
Record frames_kept (k : nat) (s s' : VM) : Prop := {
  kept_below : forall j, (j < k)%nat -> frames s' !! j = frames s !! j;
  kept_callee : forall c i base, frames s !! k = Some (Some (mkFrame c i base)) ->
    exists i', frames s' !! k = Some (Some (mkFrame c i' base))
}.

#[global] Instance frames_kept_preorder k : PreOrder (frames_kept k).
Proof.
  split.
  - intros s. split; [done|eauto].
  - intros s1 s2 s3 [B1 C1] [B2 C2]. split.
    + intros j Hj. by rewrite B2, B1.
    + intros c i base (i' & E)%C1. by eapply C2.
Qed.

Definition guarded (k : nat) {A} (m : M machine A) : Prop := forall w a w',
  m w = Ret (a, w') -> inside k (state w) -> inside k (state w') /\ frames_kept k (state w) (state w').

Create HintDb guarded.

Section rules.
Context {k : nat}.

Lemma guarded_same {A} (m : M machine A) :
  (forall w a w', m w = Ret (a, w') -> frames (state w') = frames (state w) /\
     current_frame (state w') = current_frame (state w) /\ frame_count (state w') = frame_count (state w)) -> guarded k m.
Proof.
  intros Hm w a w' (Ef & Ec & En)%Hm Hi. unfold inside in *. rewrite Ec, En. split; [done|].
  split; rewrite Ef; eauto.
Qed.

Lemma guarded_bind {A B} (m : M machine A) (f : A -> M machine B) :
  guarded k m -> (forall a, guarded k (f a)) -> guarded k (m ≫= f).
Proof.
  intros Hm Hf w b w' (a & w1 & H1 & H2)%M_bind_Ret Hi. destruct (Hm _ _ _ H1 Hi) as [Hi1 K1].
  destruct (Hf a _ _ _ H2 Hi1) as [Hi2 K2]. split; [done|by etrans].
Qed.

Lemma guarded_ret {A} (a : A) : guarded k (mret a).
Proof. by intros w x w' [= _ <-] Hi. Qed.
Lemma guarded_throw {A} e : @guarded k A (throw e).
Proof. by intros w x w'. Qed.
Lemma guarded_undef {A} e : @guarded k A (undef e).
Proof. by intros w x w'. Qed.
Lemma guarded_out_of_fuel {A} : @guarded k A out_of_fuel.
Proof. by intros w x w'. Qed.
Lemma guarded_gets {A} (g : machine -> A) : guarded k (gets g).
Proof. by intros w x w' [= _ <-] Hi. Qed.
Lemma guarded_get : guarded k get.
Proof. by intros w x w' [= _ <-] Hi. Qed.
Lemma guarded_lift {A} (o : outcome A) : guarded k (lift o).
Proof. by intros w x w' [-> _]%lift_Ret Hi. Qed.
Lemma guarded_modify (g : machine -> machine) : (forall w, state (g w) = state w) -> guarded k (modify g).
Proof. intros Hg. apply guarded_same. intros w a w' [= _ <-]. by rewrite Hg. Qed.
Lemma guarded_for_each {A} (g : A -> M machine unit) l : (forall x, guarded k (g x)) -> guarded k (for_each g l).
Proof. intros Hg. induction l as [|x l IH]; cbn [for_each]; [apply guarded_ret|by apply guarded_bind]. Qed.

Lemma guarded_allocate {A} (g : list (option ref) -> M Memory A) : guarded k (allocate g).
Proof.
  apply guarded_same. intros w a w' Hm. unfold allocate, zoom in Hm. inv_ret. case_match. inv_ret. by subst.
Qed.
End rules.

#[export] Hint Resolve guarded_ret guarded_throw guarded_undef guarded_out_of_fuel guarded_gets guarded_get
  guarded_lift guarded_allocate : guarded.

(** Follow the structure of the operation. *)
Ltac guarding :=
  intros; repeat match goal with
  | |- guarded _ (for_each _ _) => apply guarded_for_each; intros ?
  | |- guarded _ (_ ≫= _) => apply guarded_bind; [solve [eauto with guarded | guarding]|intros ?]
  | |- guarded _ (if ?c then _ else _) => destruct c eqn:?
  | |- guarded _ (match ?x with _ => _ end) => destruct x eqn:?
  | |- guarded _ (match ?x with _ => _ end _) => destruct x eqn:?
  | |- guarded _ _ => solve [eauto with guarded]
  end.

Section operations.
Context `{Platform} {k : nat}.

(** ** The operations that change the machine's own state *)

Lemma guarded_push v : guarded k (push v).
Proof.
  apply guarded_same. intros w a w' (s & ? & [= <- <-] & Hm)%M_bind_Ret. case_match; [done|]. by injection Hm as _ <-.
Qed.
Lemma guarded_load_slot i : guarded k (load_slot i).
Proof. unfold load_slot, vm_state. guarding. Qed.
#[local] Hint Resolve guarded_push guarded_load_slot : guarded.
Lemma guarded_put_same s w a w' : put_state s w = Ret (a, w') -> inside k (state w) ->
  frames s = frames (state w) -> current_frame s = current_frame (state w) -> frame_count s = frame_count (state w) ->
  inside k (state w') /\ frames_kept k (state w) (state w').
Proof.
  intros [= _ <-] Hi Ef Ec En. unfold inside in *. cbn. rewrite Ec, En. split; [done|]. split; cbn; rewrite Ef; eauto.
Qed.
Lemma guarded_update (g : VM -> VM) : (forall s, frames (g s) = frames s /\ current_frame (g s) = current_frame s /\ frame_count (g s) = frame_count s) ->
  guarded k (s ← vm_state; put_state (g s)).
Proof.
  intros Hg. apply guarded_same. intros w a w' (s & ? & [= <- <-] & [= _ <-])%M_bind_Ret. apply Hg.
Qed.
Lemma guarded_set_top n : guarded k (set_top n).
Proof. by apply guarded_update. Qed.
Lemma guarded_store_slot i v : guarded k (store_slot i v).
Proof.
  apply guarded_same. intros w a w' (s & ? & [= <- <-] & Hm)%M_bind_Ret. case_match; [|done]. by injection Hm as _ <-.
Qed.
#[local] Hint Resolve guarded_set_top guarded_store_slot : guarded.
Lemma guarded_pop : guarded k pop.
Proof.
  intros w a w' (s & ? & [= <- <-] & Hm)%M_bind_Ret Hi. destruct (stack_top (state w)); [done|].
  apply M_bind_Ret in Hm as ([] & w1 & H1 & H2). destruct (guarded_put_same _ _ _ _ H1 Hi) as [Hi1 K1]; [done..|].
  destruct (guarded_load_slot _ _ _ _ H2 Hi1) as [Hi2 K2]. split; [done|by etrans].
Qed.
Lemma guarded_peek i : guarded k (peek i).
Proof. unfold peek, vm_state. guarding. Qed.
Lemma guarded_callee_slot n : guarded k (callee_slot n).
Proof. unfold callee_slot, vm_state. guarding. Qed.
Lemma guarded_frame i : guarded k (frame i).
Proof. unfold frame, vm_state. guarding. Qed.
Lemma guarded_read_heap {A} (g : heap -> outcome A) : guarded k (read_heap g).
Proof. unfold read_heap, heap_of. guarding. Qed.
Lemma guarded_write_object r o : guarded k (write_object r o).
Proof. by apply guarded_modify. Qed.
#[local] Hint Resolve guarded_pop guarded_peek guarded_callee_slot guarded_frame guarded_read_heap guarded_write_object : guarded.
Lemma guarded_frame_now : guarded k frame_now.
Proof. unfold frame_now, vm_state. guarding. Qed.
Lemma guarded_closure_function c : guarded k (closure_function c).
Proof. unfold closure_function. guarding. Qed.
#[local] Hint Resolve guarded_frame_now guarded_closure_function : guarded.

(** The instruction pointer that moves is that of the current frame, at or above [k]. *)
Lemma guarded_set_ip n : guarded k (set_ip n).
Proof.
  intros w a w' (fr & w1 & Hf & Hm)%M_bind_Ret Hi. destruct (frame_now_Ret _ _ _ Hf) as (-> & i & Hc & Hj).
  apply M_bind_Ret in Hm as (s & ? & [= <- <-] & Hm). apply M_bind_Ret in Hm as (i' & ? & [-> Hi']%lift_Ret & [= _ <-]).
  rewrite Hc in Hi'. injection Hi' as <-. destruct Hi as (i' & Hc' & Hk). assert (i' = i) as -> by congruence.
  split; [by exists i|]. split; cbn.
  - intros j Hj'. apply list_lookup_insert_ne. lia.
  - intros c ip base Hfr. destruct (decide (i = k)) as [->|]; [|rewrite list_lookup_insert_ne by done; eauto].
    rewrite Hfr in Hj. injection Hj as <-. exists n. apply list_lookup_insert_eq. by eapply lookup_lt_Some.
Qed.
#[local] Hint Resolve guarded_set_ip : guarded.

Lemma guarded_read_byte : guarded k read_byte.
Proof. unfold read_byte. guarding. Qed.
#[local] Hint Resolve guarded_read_byte : guarded.
Lemma guarded_read_uint16_le : guarded k read_uint16_le.
Proof. unfold read_uint16_le. guarding. Qed.
Lemma guarded_constant i : guarded k (constant i).
Proof. unfold constant. guarding. Qed.
#[local] Hint Resolve guarded_read_uint16_le guarded_constant : guarded.
Lemma guarded_read_constant : guarded k read_constant.
Proof. unfold read_constant. guarding. Qed.
Lemma guarded_read_constant_long : guarded k read_constant_long.
Proof. unfold read_constant_long. guarding. Qed.
Lemma guarded_string_of r : guarded k (string_of r).
Proof. unfold string_of. guarding. Qed.
Lemma guarded_errors (g : machine -> ErrorReporter) : guarded k (modify (fun w => set_errors w (g w))).
Proof. by apply guarded_modify. Qed.
Lemma guarded_output (g : machine -> list string) : guarded k (modify (fun w => set_output w (g w))).
Proof. by apply guarded_modify. Qed.
#[local] Hint Resolve guarded_read_constant guarded_read_constant_long guarded_string_of guarded_errors guarded_output : guarded.
Lemma guarded_trace_frame i : guarded k (trace_frame i).
Proof. unfold trace_frame. guarding. Qed.
#[local] Hint Resolve guarded_trace_frame : guarded.
Lemma guarded_report_error text : guarded k (report_error text).
Proof. unfold report_error, vm_state. guarding. Qed.
#[local] Hint Resolve guarded_report_error : guarded.
Lemma guarded_fail text : guarded k (fail text).
Proof. unfold fail. guarding. Qed.
Lemma guarded_continue : guarded k continue.
Proof. apply guarded_ret. Qed.
#[local] Hint Resolve guarded_fail guarded_continue : guarded.

(** The frame that was just added becomes the current one. *)
Lemma guarded_after_call ok : guarded k (after_call ok).
Proof.
  destruct ok; [|apply guarded_ret]. unfold after_call.
  intros w a w' (s & ? & [= <- <-] & ([] & w1 & [= <-] & [= _ <-])%M_bind_Ret)%M_bind_Ret (i & Hc & Hi).
  split; [|by split; eauto]. exists (Nat.pred (frame_count (state w))). cbn. split; [done|lia].
Qed.
Lemma guarded_intern s : guarded k (intern s).
Proof. apply guarded_allocate. Qed.
Lemma guarded_is_type t v : guarded k (is_type t v).
Proof. apply guarded_read_heap. Qed.
#[local] Hint Resolve guarded_after_call guarded_intern guarded_is_type : guarded.

(** A new frame is put above the current one. *)
Lemma guarded_call c n : guarded k (call c n).
Proof.
  unfold call. intros w a w' (fn & w1 & Hfn & Hm)%M_bind_Ret Hi. apply closure_function_same in Hfn as ->. revert Hm Hi.
  destruct (negb _).
  { intros Hm Hi. refine (guarded_bind (k := k) _ _ _ _ _ _ _ Hm Hi); guarding. }
  intros (s & ? & [= <- <-] & Hm)%M_bind_Ret (i & Hc & Hi). destruct (_ =? MAX_FRAME_SIZE).
  { assert (G : guarded k (report_error "Stack overflow: too many frames" ;; mret false)) by guarding.
    apply (G _ _ _ Hm). by exists i. }
  case_decide; [|done]. apply M_bind_Ret in Hm as (base & w1 & Hb & ([] & w2 & [= <-] & [= _ <-])%M_bind_Ret).
  assert (w1 = w) as ->.
  { unfold callee_slot in Hb. apply M_bind_Ret in Hb as (? & ? & [= <- <-] & Hb). destruct (_ <=? _)%nat; [done|]. by injection Hb as _ <-. }
  split; [exists i; cbn; split; [done|lia]|]. split; cbn.
  - intros j Hj. apply list_lookup_insert_ne. lia.
  - intros c' ip base' Hfr. rewrite list_lookup_insert_ne by lia. eauto.
Qed.
#[local] Hint Resolve guarded_call : guarded.

(** ** Captured variables *)

Lemma guarded_close_upvalues fuel : forall last, guarded k (close_upvalues fuel last).
Proof.
  induction fuel as [|fuel IH]; intros last; cbn [close_upvalues]; intros w a w' (s & ? & [= <- <-] & Hm)%M_bind_Ret Hi;
    (destruct (open_upvalues (state w)) as [r|]; [|by injection Hm as _ <-]);
    apply M_bind_Ret in Hm as (u & w2 & ->%read_heap_same & Hm);
    apply M_bind_Ret in Hm as (i & w3 & [-> _]%lift_Ret & Hm);
    (destruct (last <=? i)%nat; [|by injection Hm as _ <-]); [done|].
  apply M_bind_Ret in Hm as (v & w4 & (? & ? & [= <- <-] & [-> _]%lift_Ret)%M_bind_Ret & Hm).
  apply M_bind_Ret in Hm as ([] & w5 & [= <-] & Hm). apply M_bind_Ret in Hm as ([] & w6 & Hp & Hm).
  destruct (guarded_put_same _ _ _ _ Hp Hi) as [Hi6 K6]; [done..|]. destruct (IH _ _ _ _ Hm Hi6) as [Hi7 K7].
  split; [done|]. by etrans.
Qed.
Lemma guarded_close_from last : guarded k (close_from last).
Proof. unfold close_from, heap_of. apply guarded_bind; [apply guarded_gets|intros h; apply guarded_close_upvalues]. Qed.
Lemma guarded_link_upvalue prev new : guarded k (link_upvalue prev new).
Proof. destruct prev as [p|]; [unfold link_upvalue; guarding|]. by apply (guarded_update (fun s => set_open s (Some new))). Qed.
#[local] Hint Resolve guarded_close_from guarded_link_upvalue : guarded.
Lemma guarded_capture_upvalue slot : guarded k (capture_upvalue slot).
Proof. unfold capture_upvalue, vm_state. guarding. Qed.
#[local] Hint Resolve guarded_capture_upvalue : guarded.
Lemma guarded_frame_upvalue i : guarded k (frame_upvalue i).
Proof. unfold frame_upvalue. guarding. Qed.
#[local] Hint Resolve guarded_frame_upvalue : guarded.
Lemma guarded_capture_operand c i : guarded k (capture_operand c i).
Proof. unfold capture_operand. guarding. Qed.
Lemma guarded_load_upvalue r : guarded k (load_upvalue r).
Proof. unfold load_upvalue. guarding. Qed.
Lemma guarded_store_upvalue r v : guarded k (store_upvalue r v).
Proof. unfold store_upvalue. guarding. Qed.
#[local] Hint Resolve guarded_capture_operand guarded_load_upvalue guarded_store_upvalue : guarded.

(** ** Globals, tables, lists and maps *)

Lemma guarded_with_globals {A} (g : Context -> outcome A) : guarded k (with_globals g).
Proof. unfold with_globals. guarding. Qed.
Lemma guarded_update_globals g : guarded k (update_globals g).
Proof.
  apply guarded_same. intros w a w' (? & ? & [= <- <-] & Hm)%M_bind_Ret.
  by apply M_bind_Ret in Hm as (c & ? & [-> _]%lift_Ret & [= _ <-]).
Qed.
Lemma guarded_table_get t x : guarded k (table_get t x).
Proof. apply guarded_read_heap. Qed.
Lemma guarded_method_closure v : guarded k (method_closure v).
Proof. apply guarded_lift. Qed.
#[local] Hint Resolve guarded_with_globals guarded_update_globals guarded_table_get guarded_method_closure : guarded.
Lemma guarded_global_name i : guarded k (global_name i).
Proof. unfold global_name. guarding. Qed.
Lemma guarded_undefined_global i : guarded k (undefined_global i).
Proof. unfold undefined_global. guarding. Qed.
Lemma guarded_set_field r p v : guarded k (set_field r p v).
Proof. unfold set_field. guarding. Qed.
Lemma guarded_add_method c n v : guarded k (add_method c n v).
Proof. unfold add_method. guarding. Qed.
Lemma guarded_map_set r x v : guarded k (map_set r x v).
Proof. unfold map_set. guarding. Qed.
#[local] Hint Resolve guarded_global_name guarded_undefined_global guarded_set_field guarded_add_method guarded_map_set : guarded.
Lemma guarded_map_pairs n : forall r, guarded k (map_pairs n r).
Proof. induction n as [|n IH]; intros r; cbn [map_pairs]; guarding. Qed.
Lemma guarded_key_text x : guarded k (key_text x).
Proof. apply guarded_read_heap. Qed.
Lemma guarded_concatenate x y : guarded k (concatenate x y).
Proof. unfold concatenate. guarding. Qed.
#[local] Hint Resolve guarded_map_pairs guarded_key_text guarded_concatenate : guarded.

(** ** Native functions *)

Section natives.
Context `{Environment}.
Import Natives.

Lemma guarded_error text : guarded k (error text).
Proof. unfold error. guarding. Qed.
Lemma guarded_print_text s : guarded k (print_text s).
Proof. by apply guarded_modify. Qed.
Lemma guarded_to_text v : guarded k (to_text v).
Proof. apply guarded_read_heap. Qed.
#[local] Hint Resolve guarded_error guarded_print_text guarded_to_text : guarded.
Lemma guarded_arg base i : guarded k (arg base i).
Proof. apply guarded_load_slot. Qed.
Lemma guarded_ok v : guarded k (ok v).
Proof. apply guarded_ret. Qed.
#[local] Hint Resolve guarded_arg guarded_ok : guarded.
Lemma guarded_as_list v : guarded k (as_list v).
Proof. unfold as_list. guarding. Qed.
Lemma guarded_as_map v : guarded k (as_map v).
Proof. unfold as_map. guarding. Qed.
Lemma guarded_native_print n base : guarded k (native_print n base).
Proof. unfold native_print. guarding. Qed.
Lemma guarded_validate base s : guarded k (validate_arguments base s).
Proof. unfold validate_arguments. guarding. Qed.
Lemma guarded_integer_arg b base i : guarded k (integer_arg b base i).
Proof. unfold integer_arg. guarding. Qed.
#[local] Hint Resolve guarded_as_list guarded_as_map guarded_native_print guarded_validate guarded_integer_arg : guarded.
Lemma guarded_instance_and_name base : guarded k (instance_and_name base).
Proof. unfold instance_and_name. guarding. Qed.
#[local] Hint Resolve guarded_instance_and_name : guarded.

Lemma guarded_native_getline : guarded k native_getline.
Proof.
  unfold native_getline. intros w a w' (? & ? & [= <- <-] & Hm)%M_bind_Ret Hi. apply M_bind_Ret in Hm as (l & w1 & Hl & Hm).
  assert (E : state w1 = state w) by (destruct (stdin w); [by injection Hl as _ <-|];
    by apply M_bind_Ret in Hl as (? & ? & [= _ <-] & [= _ <-])).
  rewrite <-E in *. assert (G : guarded k (r ← intern l; ok (Value.of_object r))) by guarding. exact (G w1 a w' Hm Hi).
Qed.
#[local] Hint Resolve guarded_native_getline : guarded.

Lemma guarded_natives f n base : guarded k (call_native f n base).
Proof.
  destruct f; cbn [call_native];
    unfold native_clock, native_println, native_len, native_exit, native_type,
      native_hash, native_is_hashable, native_sqrt, native_rand, native_randint, native_to_int,
      native_to_double, native_to_string, native_assert, counter, native_display_gc_stats,
      native_has_property, native_get_property, native_set_property, native_del_property, native_list,
      native_pop_list, native_cap_list, native_map, native_append_map, native_delete_map, native_keys_map,
      native_values_map, native_has_map, native_clear_map, native_get_map, list_of_map;
    guarding.
Qed.
End natives.

(** ** Instructions *)

Section instructions.
Context (call_native : NativeFunction -> nat -> nat -> M machine (Value * bool)).
Context (guarded_native : forall f n base, guarded k (call_native f n base)).
#[local] Hint Resolve guarded_native : guarded.

Lemma guarded_call_class c n : guarded k (call_class c n).
Proof. unfold call_class. guarding. Qed.
#[local] Hint Resolve guarded_call_class : guarded.
Lemma guarded_call_native_function f n : guarded k (call_native_function call_native f n).
Proof using guarded_native. unfold call_native_function. guarding. Qed.
#[local] Hint Resolve guarded_call_native_function : guarded.
Lemma guarded_call_value v n : guarded k (call_value call_native v n).
Proof using guarded_native. unfold call_value. guarding. Qed.
Lemma guarded_invoke_from_class c m n : guarded k (invoke_from_class c m n).
Proof. unfold invoke_from_class. guarding. Qed.
#[local] Hint Resolve guarded_call_value guarded_invoke_from_class : guarded.
Lemma guarded_invoke m n : guarded k (invoke call_native m n).
Proof using guarded_native. unfold invoke. guarding. Qed.
Lemma guarded_BINARY_OP op : guarded k (BINARY_OP op).
Proof. unfold BINARY_OP. guarding. Qed.
#[local] Hint Resolve guarded_invoke guarded_BINARY_OP : guarded.
Lemma guarded_bind_method v : guarded k (bind_method v).
Proof. unfold bind_method. guarding. Qed.
Lemma guarded_range_error a b i n : guarded k (range_error a b i n).
Proof. apply guarded_fail. Qed.
Lemma guarded_jump n : guarded k (jump n).
Proof. unfold jump. guarding. Qed.
#[local] Hint Resolve guarded_bind_method guarded_range_error guarded_jump : guarded.
Lemma guarded_store_index_map r : guarded k (store_index_map r).
Proof. unfold store_index_map. guarding. Qed.
Lemma guarded_load_index_map r : guarded k (load_index_map r).
Proof. unfold load_index_map. guarding. Qed.
Lemma guarded_load_index_list r i : guarded k (load_index_list r i).
Proof. unfold load_index_list. guarding. Qed.
Lemma guarded_load_index_string r i : guarded k (load_index_string r i).
Proof. unfold load_index_string. guarding. Qed.
#[local] Hint Resolve guarded_store_index_map guarded_load_index_map guarded_load_index_list guarded_load_index_string : guarded.

(** Every instruction but RETURN stays inside. *)
Lemma guarded_dispatch op : op <> OpCode.RETURN -> guarded k (dispatch call_native op).
Proof using guarded_native.
  intros Hop. destruct op; try done; cbn [dispatch];
    unfold exec_ADD, exec_NEGATE, exec_EQUAL, exec_NOT, exec_PRINT, exec_JUMP_IF,
      exec_POP_JUMP_IF_FALSE, exec_JUMP_FORWARD, exec_JUMP_BACKWARD, exec_CALL, exec_INVOKE, exec_SUPER_INVOKE,
      exec_DEFINE_GLOBAL, exec_STORE_GLOBAL, exec_LOAD_GLOBAL, exec_LOAD_LOCAL, exec_STORE_LOCAL,
      exec_CLOSURE, exec_LOAD_UPVALUE, exec_STORE_UPVALUE, exec_CLOSE_UPVALUE, exec_CLASS,
      exec_LOAD_PROPERTY, exec_LOAD_PROPERTY_SAFE, exec_STORE_PROPERTY, exec_METHOD, exec_INHERIT,
      exec_LOAD_SUPER, exec_LIST, exec_LIST_APPEND, exec_MAP, exec_MAP_ADD, exec_STORE_INDEX, exec_LOAD_INDEX, vm_state, heap_of;
    guarding.
Qed.

End instructions.
End operations.
