(* ===== verification/MachineShapes.v ===== *)
(** * Every instruction and every native function keeps the shapes of the objects *)

From S2P Require Import Prelude Double HashMap Hash Platform Opcode Parser Compiler Value Chunk Object Collections Memory CollectFacts Context VM StackFacts ShapeFacts Natives.
Import Compiler (InterpretResult, OK, RUNTIME_ERROR).
Import VM.

(** A write to an object of a known type. *)
Ltac in_facts := solve [repeat first [apply list_elem_of_here | apply list_elem_of_further]].

Ltac shaping :=
  intros; repeat match goal with
  | |- stable _ _ (read_heap (fun h => Heap.upvalue h ?r) ≫= _) => eapply (stable_read _ _ _ _ _ (reads_upvalue r)); intros ?
  | |- stable _ _ (read_heap (fun h => Heap.closure h ?r) ≫= _) => eapply (stable_read _ _ _ _ _ (reads_closure r)); intros ?
  | |- stable _ _ (read_heap (fun h => Heap.class h ?r) ≫= _) => eapply (stable_read _ _ _ _ _ (reads_class r)); intros ?
  | |- stable _ _ (read_heap (fun h => Heap.instance h ?r) ≫= _) => eapply (stable_read _ _ _ _ _ (reads_instance r)); intros ?
  | |- stable _ _ (read_heap (fun h => Heap.list h ?r) ≫= _) => eapply (stable_read _ _ _ _ _ (reads_list r)); intros ?
  | |- stable _ _ (read_heap (fun h => Heap.map h ?r) ≫= _) => eapply (stable_read _ _ _ _ _ (reads_map r)); intros ?
  | |- stable _ _ (allocate (fun roots => Allocator.new_list roots _ _ _) ≫= _) => apply stable_new_list_bind; intros ?
  | |- stable _ _ (write_object _ _) => apply stable_write; in_facts
  | |- stable _ _ (allocate _) => apply stable_allocate; intros; solve [eauto with stable]
  | |- stable _ _ (for_each _ _) => apply stable_for_each; intros ?
  | |- stable _ _ (_ ≫= _) => apply stable_bind; [solve [eauto with stable | shaping]|intros ?]
  | |- stable _ _ (if ?c then _ else _) => destruct c eqn:?
  | |- stable _ _ (match ?x with _ => _ end) => destruct x eqn:?
  | |- stable _ _ _ => solve [eauto with stable]
  end.

Section operations.
Context `{Platform}.
Abbreviation kept fs m := (stable mem fs m).
Implicit Types (fs : list (ref * Object)).

Lemma kept_vm_state fs : kept fs vm_state.
Proof. apply stable_gets. Qed.
Lemma kept_put_state fs s : kept fs (put_state s).
Proof. by apply stable_modify. Qed.
Lemma kept_read_heap {A} fs (g : heap -> outcome A) : kept fs (read_heap g).
Proof. apply stable_read_heap. Qed.
Lemma kept_heap_of fs : kept fs heap_of.
Proof. apply stable_gets. Qed.
#[local] Hint Resolve kept_vm_state kept_put_state kept_read_heap kept_heap_of : stable.
Lemma kept_push fs v : kept fs (push v).
Proof. unfold push. shaping. Qed.
Lemma kept_load_slot fs i : kept fs (load_slot i).
Proof. unfold load_slot. shaping. Qed.
Lemma kept_store_slot fs i v : kept fs (store_slot i v).
Proof. unfold store_slot. shaping. Qed.
#[local] Hint Resolve kept_push kept_load_slot kept_store_slot : stable.
Lemma kept_pop fs : kept fs pop.
Proof. unfold pop. shaping. Qed.
Lemma kept_peek fs i : kept fs (peek i).
Proof. unfold peek. shaping. Qed.
Lemma kept_callee_slot fs n : kept fs (callee_slot n).
Proof. unfold callee_slot. shaping. Qed.
Lemma kept_set_top fs n : kept fs (set_top n).
Proof. unfold set_top. shaping. Qed.
Lemma kept_frame fs i : kept fs (frame i).
Proof. unfold frame. shaping. Qed.
#[local] Hint Resolve kept_pop kept_peek kept_callee_slot kept_set_top kept_frame : stable.
Lemma kept_frame_now fs : kept fs frame_now.
Proof. unfold frame_now. shaping. Qed.
Lemma kept_closure_function fs c : kept fs (closure_function c).
Proof. unfold closure_function. shaping. Qed.
#[local] Hint Resolve kept_frame_now kept_closure_function : stable.
Lemma kept_set_ip fs n : kept fs (set_ip n).
Proof. unfold set_ip. shaping. Qed.
#[local] Hint Resolve kept_set_ip : stable.
Lemma kept_read_byte fs : kept fs read_byte.
Proof. unfold read_byte. shaping. Qed.
#[local] Hint Resolve kept_read_byte : stable.
Lemma kept_read_uint16_le fs : kept fs read_uint16_le.
Proof. unfold read_uint16_le. shaping. Qed.
Lemma kept_constant fs i : kept fs (constant i).
Proof. unfold constant. shaping. Qed.
#[local] Hint Resolve kept_read_uint16_le kept_constant : stable.
Lemma kept_read_constant fs : kept fs read_constant.
Proof. unfold read_constant. shaping. Qed.
Lemma kept_read_constant_long fs : kept fs read_constant_long.
Proof. unfold read_constant_long. shaping. Qed.
Lemma kept_string_of fs r : kept fs (string_of r).
Proof. unfold string_of. shaping. Qed.
Lemma kept_errors fs (g : machine -> ErrorReporter) : kept fs (modify (fun w => set_errors w (g w))).
Proof. by apply stable_modify. Qed.
Lemma kept_output fs (g : machine -> list string) : kept fs (modify (fun w => set_output w (g w))).
Proof. by apply stable_modify. Qed.
#[local] Hint Resolve kept_read_constant kept_read_constant_long kept_string_of kept_errors kept_output : stable.
Lemma kept_trace_frame fs i : kept fs (trace_frame i).
Proof. unfold trace_frame. shaping. Qed.
#[local] Hint Resolve kept_trace_frame : stable.
Lemma kept_report_error fs text : kept fs (report_error text).
Proof. unfold report_error. shaping. Qed.
#[local] Hint Resolve kept_report_error : stable.
Lemma kept_fail fs text : kept fs (fail text).
Proof. unfold fail. shaping. Qed.
Lemma kept_continue fs : kept fs continue.
Proof. unfold continue. shaping. Qed.
#[local] Hint Resolve kept_fail kept_continue : stable.
Lemma kept_after_call fs ok : kept fs (after_call ok).
Proof. unfold after_call. shaping. Qed.
Lemma kept_intern fs s : kept fs (intern s).
Proof. unfold intern. shaping. Qed.
Lemma kept_is_type fs t v : kept fs (is_type t v).
Proof. apply stable_read_heap. Qed.
#[local] Hint Resolve kept_after_call kept_intern kept_is_type : stable.

(** ** Captured variables *)

Lemma kept_close_upvalues fuel : forall fs last, kept fs (close_upvalues fuel last).
Proof. induction fuel as [|fuel IH]; intros fs last; cbn [close_upvalues]; shaping. Qed.
#[local] Hint Resolve kept_close_upvalues : stable.
Lemma kept_close_from fs last : kept fs (close_from last).
Proof. unfold close_from. shaping. Qed.
Lemma kept_link_upvalue fs prev new : kept fs (link_upvalue prev new).
Proof. unfold link_upvalue. shaping. Qed.
#[local] Hint Resolve kept_close_from kept_link_upvalue : stable.
Lemma kept_capture_upvalue fs slot : kept fs (capture_upvalue slot).
Proof. unfold capture_upvalue. shaping. Qed.
#[local] Hint Resolve kept_capture_upvalue : stable.
Lemma kept_frame_upvalue fs i : kept fs (frame_upvalue i).
Proof. unfold frame_upvalue. shaping. Qed.
#[local] Hint Resolve kept_frame_upvalue : stable.
Lemma kept_capture_operand fs c i : kept fs (capture_operand c i).
Proof. unfold capture_operand. shaping. Qed.
Lemma kept_load_upvalue fs r : kept fs (load_upvalue r).
Proof. unfold load_upvalue. shaping. Qed.
Lemma kept_store_upvalue fs r v : kept fs (store_upvalue r v).
Proof. unfold store_upvalue. shaping. Qed.
#[local] Hint Resolve kept_capture_operand kept_load_upvalue kept_store_upvalue : stable.

(** ** Globals, tables, lists and maps *)

Lemma kept_with_globals {A} fs (g : Context -> outcome A) : kept fs (with_globals g).
Proof. unfold with_globals. shaping. Qed.
Lemma kept_update_globals fs g : kept fs (update_globals g).
Proof.
  unfold update_globals. intros w a w' _ _ (? & ? & [= <- <-] & Hm)%M_bind_Ret.
  apply M_bind_Ret in Hm as (c & ? & [-> _]%lift_Ret & [= _ <-]). done.
Qed.
Lemma kept_table_get fs t k : kept fs (table_get t k).
Proof. apply stable_read_heap. Qed.
Lemma kept_method_closure fs v : kept fs (method_closure v).
Proof. apply stable_lift. Qed.
#[local] Hint Resolve kept_with_globals kept_update_globals kept_table_get kept_method_closure : stable.
Lemma kept_global_name fs i : kept fs (global_name i).
Proof. unfold global_name. shaping. Qed.
Lemma kept_undefined_global fs i : kept fs (undefined_global i).
Proof. unfold undefined_global. shaping. Qed.
Lemma kept_set_field fs r p v : kept fs (set_field r p v).
Proof. unfold set_field. shaping. Qed.
Lemma kept_add_method fs c n v : kept fs (add_method c n v).
Proof. unfold add_method. shaping. Qed.
Lemma kept_map_set fs r k v : kept fs (map_set r k v).
Proof. unfold map_set. shaping. Qed.
#[local] Hint Resolve kept_global_name kept_undefined_global kept_set_field kept_add_method kept_map_set : stable.
Lemma kept_map_pairs n : forall fs r, kept fs (map_pairs n r).
Proof. induction n as [|n IH]; intros fs r; cbn [map_pairs]; shaping. Qed.
Lemma kept_key_text fs k : kept fs (key_text k).
Proof. apply stable_read_heap. Qed.
Lemma kept_concatenate fs x y : kept fs (concatenate x y).
Proof. unfold concatenate. shaping. Qed.
#[local] Hint Resolve kept_map_pairs kept_key_text kept_concatenate : stable.

(** ** Instructions *)

Section instructions.
Variable call_native : NativeFunction -> nat -> nat -> M machine (Value * bool).
Hypothesis kept_native : forall f n base, kept [] (call_native f n base).

Lemma kept_call fs c n : kept fs (call c n).
Proof. unfold call. shaping. Qed.
#[local] Hint Resolve kept_call : stable.
Lemma kept_call_class fs c n : kept fs (call_class c n).
Proof. unfold call_class. shaping. Qed.
Lemma kept_call_native fs f n base : kept fs (call_native f n base).
Proof using kept_native. apply stable_weaken, kept_native. Qed.
#[local] Hint Resolve kept_call_class kept_call_native : stable.
Lemma kept_call_native_function fs f n : kept fs (call_native_function call_native f n).
Proof using kept_native. unfold call_native_function. shaping. Qed.
#[local] Hint Resolve kept_call_native_function : stable.
Lemma kept_call_value fs v n : kept fs (call_value call_native v n).
Proof using kept_native. unfold call_value. shaping. Qed.
Lemma kept_invoke_from_class fs c m n : kept fs (invoke_from_class c m n).
Proof. unfold invoke_from_class. shaping. Qed.
#[local] Hint Resolve kept_call_value kept_invoke_from_class : stable.
Lemma kept_invoke fs m n : kept fs (invoke call_native m n).
Proof using kept_native. unfold invoke. shaping. Qed.
Lemma kept_BINARY_OP fs op : kept fs (BINARY_OP op).
Proof. unfold BINARY_OP. shaping. Qed.
#[local] Hint Resolve kept_invoke kept_BINARY_OP : stable.
Lemma kept_bind_method fs v : kept fs (bind_method v).
Proof. unfold bind_method. shaping. Qed.
Lemma kept_range_error fs a b i n : kept fs (range_error a b i n).
Proof. apply kept_fail. Qed.
Lemma kept_jump fs n : kept fs (jump n).
Proof. unfold jump. shaping. Qed.
#[local] Hint Resolve kept_bind_method kept_range_error kept_jump : stable.
Lemma kept_store_index_map fs r : kept fs (store_index_map r).
Proof. unfold store_index_map. shaping. Qed.
Lemma kept_load_index_map fs r : kept fs (load_index_map r).
Proof. unfold load_index_map. shaping. Qed.
Lemma kept_load_index_list fs r i : kept fs (load_index_list r i).
Proof. unfold load_index_list. shaping. Qed.
Lemma kept_load_index_string fs r i : kept fs (load_index_string r i).
Proof. unfold load_index_string. shaping. Qed.
#[local] Hint Resolve kept_store_index_map kept_load_index_map kept_load_index_list kept_load_index_string : stable.

Lemma kept_dispatch fs op : kept fs (dispatch call_native op).
Proof using kept_native.
  destruct op; cbn [dispatch];
    unfold exec_ADD, exec_NEGATE, exec_EQUAL, exec_NOT, exec_PRINT, exec_RETURN, exec_JUMP_IF,
      exec_POP_JUMP_IF_FALSE, exec_JUMP_FORWARD, exec_JUMP_BACKWARD, exec_CALL, exec_INVOKE, exec_SUPER_INVOKE,
      exec_DEFINE_GLOBAL, exec_STORE_GLOBAL, exec_LOAD_GLOBAL, exec_LOAD_LOCAL, exec_STORE_LOCAL,
      exec_CLOSURE, exec_LOAD_UPVALUE, exec_STORE_UPVALUE, exec_CLOSE_UPVALUE, exec_CLASS,
      exec_LOAD_PROPERTY, exec_LOAD_PROPERTY_SAFE, exec_STORE_PROPERTY, exec_METHOD, exec_INHERIT,
      exec_LOAD_SUPER, exec_LIST, exec_LIST_APPEND, exec_MAP, exec_MAP_ADD, exec_STORE_INDEX, exec_LOAD_INDEX;
    shaping.
Qed.
#[local] Hint Resolve kept_dispatch : stable.

Lemma kept_execute fuel : forall fs, kept fs (execute call_native fuel).
Proof using kept_native. induction fuel as [|fuel IH]; intros fs; cbn [execute]; unfold step; shaping. Qed.

End instructions.

(** ** Native functions *)

Section natives.
Context `{Environment}.
Import Natives.

Lemma kept_arg fs base i : kept fs (arg base i).
Proof. apply kept_load_slot. Qed.
Lemma kept_ok fs v : kept fs (ok v).
Proof. apply stable_ret. Qed.
#[local] Hint Resolve kept_arg kept_ok : stable.
Lemma kept_error fs text : kept fs (error text).
Proof. unfold error. shaping. Qed.
Lemma kept_print_text fs s : kept fs (print_text s).
Proof. unfold print_text. shaping. Qed.
Lemma kept_to_text fs v : kept fs (to_text v).
Proof. apply stable_read_heap. Qed.
#[local] Hint Resolve kept_error kept_print_text kept_to_text : stable.

(** A value that is a list, or a map, is an object of that type. *)
Lemma kept_as_list {B} fs v (k : option (ref * ObjectList) -> M machine B) :
  (forall r l, kept ((r, shape (ObjList l)) :: fs) (k (Some (r, l)))) -> kept fs (k None) ->
  kept fs (as_list v ≫= k).
Proof.
  intros Hs Hn. unfold as_list. destruct (data v) as [| | | |r];
    try (intros w y w' Hf Hfs (? & ? & [= <- <-] & Hm)%M_bind_Ret; by eapply Hn).
  intros w y w' Hf Hfs (x & w1 & (o & w2 & Ho & [= <- <-])%M_bind_Ret & Hm)%M_bind_Ret.
  pose proof (read_heap_Ret _ _ _ _ Ho) as E. apply read_heap_same in Ho as ->.
  destruct o; try by eapply Hn. eapply (Hs r o); [done| |done].
  apply Forall_cons_2; [|done]. by apply (reads_known _ _ _ _ _ (reads_object r) Hf E).
Qed.

Lemma kept_as_map {B} fs v (k : option (ref * ObjectMap) -> M machine B) :
  (forall r m, kept ((r, shape (ObjMap m)) :: fs) (k (Some (r, m)))) -> kept fs (k None) ->
  kept fs (as_map v ≫= k).
Proof.
  intros Hs Hn. unfold as_map. destruct (data v) as [| | | |r];
    try (intros w y w' Hf Hfs (? & ? & [= <- <-] & Hm)%M_bind_Ret; by eapply Hn).
  intros w y w' Hf Hfs (x & w1 & (o & w2 & Ho & [= <- <-])%M_bind_Ret & Hm)%M_bind_Ret.
  pose proof (read_heap_Ret _ _ _ _ Ho) as E. apply read_heap_same in Ho as ->.
  destruct o; try by eapply Hn. eapply (Hs r o); [done| |done].
  apply Forall_cons_2; [|done]. by apply (reads_known _ _ _ _ _ (reads_object r) Hf E).
Qed.

Ltac natives :=
  repeat first [progress shaping | apply kept_as_list; intros | apply kept_as_map; intros].

Lemma kept_native_print fs n base : kept fs (native_print n base).
Proof. unfold native_print. shaping. Qed.
Lemma kept_validate fs base s : kept fs (validate_arguments base s).
Proof. unfold validate_arguments. shaping. Qed.
Lemma kept_instance_and_name fs base : kept fs (instance_and_name base).
Proof. unfold instance_and_name. shaping. Qed.
Lemma kept_integer_arg fs b base i : kept fs (integer_arg b base i).
Proof. unfold integer_arg. shaping. Qed.
#[local] Hint Resolve kept_native_print kept_validate kept_instance_and_name kept_integer_arg : stable.

Lemma kept_native_getline fs : kept fs native_getline.
Proof.
  unfold native_getline. intros w a w' Hf Hfs (? & ? & [= <- <-] & Hm)%M_bind_Ret.
  apply M_bind_Ret in Hm as (l & w1 & Hl & Hm).
  assert (E : mem w1 = mem w) by (destruct (stdin w); [by injection Hl as _ <-|];
    by apply M_bind_Ret in Hl as (? & ? & [= _ <-] & [= _ <-])).
  rewrite <-E in *. assert (K : kept fs (r ← intern l; ok (Value.of_object r))) by shaping.
  exact (K w1 a w' Hf Hfs Hm).
Qed.
#[local] Hint Resolve kept_native_getline : stable.

Lemma kept_natives f n base : kept [] (call_native f n base).
Proof.
  destruct f; cbn [call_native];
    unfold native_clock, native_println, native_len, native_exit, native_type,
      native_hash, native_is_hashable, native_sqrt, native_rand, native_randint, native_to_int,
      native_to_double, native_to_string, native_assert, counter, native_display_gc_stats,
      native_has_property, native_get_property, native_set_property, native_del_property, native_list,
      native_pop_list, native_cap_list, native_map, native_append_map, native_delete_map, native_keys_map,
      native_values_map, native_has_map, native_clear_map, native_get_map, list_of_map;
    natives.
Qed.

Lemma kept_run fuel fs f : kept fs (run Natives.call_native fuel f).
Proof.
  pose proof (kept_execute _ kept_natives fuel) as He. unfold run.
  pose proof (kept_call : forall fs c n, kept fs (call c n)) as Hc. shaping.
Qed.

End natives.
End operations.

(** ** Properties *)

(** C23. Objects never change their type, nor anything else of their shape (the text of a string, the
    code of a function, the function of a closure, the name of a class, the class of an instance):
    whatever program is run, with whatever native functions it calls and however often the collector
    runs, every object that is alive before and after has kept its shape. A reference stands for one
    object during its lifetime, and not for its address, which a later object may get. *)
Theorem objects_keep_their_types `{Platform, Environment} (fuel : nat) (f : ref) (w w' : machine)
    (result : InterpretResult) (r : ref) (c c' : cell) :
  fresh (mem w) -> run Natives.call_native fuel f w = Ret (result, w') ->
  objects (mem w) !! r = Some c -> objects (mem w') !! r = Some c' ->
  get_type (content c') = get_type (content c) /\ shape (content c') = shape (content c).
Proof.
  intros Hf Hr Hc Hc'. pose proof (kept_run fuel [] f w result w' Hf (Forall_nil_2 _) Hr) as K.
  destruct (keeps_shape _ _ K r c' Hc') as (c0 & Hc0 & E); [by apply Hf; exists c|].
  assert (c0 = c) as -> by congruence. eauto using shape_type.
Qed.

(** A script that leaves one element in a list: [LIST 0], the element, [LIST_APPEND]. *)
Definition list_script : ObjectFunction :=
  mkFunction 0 0
    (mkChunk (OpCode.to_int <$> [OpCode.LIST; OpCode.INVALID; OpCode.ONE; OpCode.LIST_APPEND; OpCode.RETURN])
       [] [mkLineInfo 0 1]) 1%positive.

Definition script_memory : Memory :=
  let m := Memory.initial (mkVMOpts 1024 256 true 2 0) in
  {| objects := {[ 1%positive := mkCell false (ObjString (mkString "" 0));
                   2%positive := mkCell false (ObjFunction list_script) ]};
     next_object := 3%positive; objs := [1%positive; 2%positive]; vopts := vopts m;
     bytes_allocated := 0; bytes_freed := 0; next_gc := 0; objects_created := 0; objects_freed := 0;
     gc_cycles := 0; temp_stash := []; interned_strings := HashMap.empty; gc_disabled := false;
     never_delete_objects := []; grey_objects := [] |}.

Definition script_machine : machine :=
  mkMachine script_memory Context.empty ErrorReporter.empty
    (mkVM (replicate 8 Value.nil) (replicate 4 None) None 0 0 None 1%positive) [] [] [].

#[local] Instance still_environment : Environment := {|
  clock_seconds _ := Double.of_Z 0; random_real _ := Double.of_Z 0; random_int _ a _ := a;
  vector_capacity _ _ := 0; square_root d := d
|}.

Lemma script_fresh : fresh (mem script_machine).
Proof.
  intros r [c Hr]. cbn in Hr. apply lookup_insert_Some in Hr as [[<- _]|[_ Hr]]; [done|].
  by apply lookup_singleton_Some in Hr as [<- _].
Qed.

Lemma objects_keep_their_types_witness :
  exists result w', run Natives.call_native 20 2%positive script_machine = Ret (result, w') /\
    exists c', objects (mem w') !! 2%positive = Some c' /\ get_type (content c') = ObjectType.FUNCTION /\
      shape (content c') = ObjFunction list_script.
Proof.
  assert (E : exists result w' c', run Natives.call_native 20 2%positive script_machine = Ret (result, w') /\
    objects (mem w') !! 2%positive = Some c') by (do 3 eexists; split; by vm_compute).
  destruct E as (result & w' & c' & E & E'). exists result, w'. split; [exact E|]. exists c'. split; [exact E'|].
  exact (objects_keep_their_types 20 2%positive script_machine w' result 2%positive (mkCell false (ObjFunction list_script)) c'
    script_fresh E eq_refl E').
Defined.
