(* ===== verification/Disassembler.v ===== *)
(** * The disassembler (src/common/debug_vm.cpp)

    Decoding one instruction at a time, and the text printed for a chunk.
    The text leaves out the colours, which [fmt] adds as escape sequences. *)

From S2P Require Import Prelude Double HashMap Hash Platform Opcode Value Chunk Object Context.

Record NameInfo : Type := mkName { is_global : bool; name_text : string }.

Record DecodedInstruction : Type := mkDecoded {
  offset : Z;
  opcode : OpCode.t;
  operands : list Z;
  constants : list (option Value);
  line : Z;
  next_offset : Z;
  names : list NameInfo
}.

Module Disassembler.

(** ** Reading the code of a chunk *)

(** [chunk.get_code()[offset]] is not checked. *)
Definition read_u8_le (c : Chunk) (offset : Z) : outcome Z :=
  if offset <? 0 then Undef "negative offset"
  else or_undef "code offset out of range" (code c !! Z.to_nat offset).

Definition read_u16_le (c : Chunk) (offset : Z) : outcome Z :=
  value ← read_u8_le c offset;
  high ← read_u8_le c (offset + 1);
  Ret (Z.lor value (u16 (Z.shiftl high 8))).

Definition read_constant (c : Chunk) (offset : Z) : outcome (option Value) :=
  index ← read_u8_le c offset; Ret (Chunk.get_value c index).

Definition read_constant_long (c : Chunk) (offset : Z) : outcome (option Value) :=
  index ← read_u16_le c offset; Ret (Chunk.get_value c index).

(** The opcode of an instruction whose decoder is not [op_unknown]. *)
Definition read_instruction (c : Chunk) (offset : Z) : outcome OpCode.t :=
  byte ← read_u8_le c offset; or_undef "not an opcode" (OpCode.of_int byte).

(** ** Decoders, by the operands of the instruction *)

Section decoders.
Context `{Platform} (h : heap) (context : Context) (c : Chunk).

Definition op_no_args (offset : Z) : outcome DecodedInstruction :=
  op ← read_instruction c offset;
  Ret (mkDecoded offset op [] [] (Chunk.get_line_number c offset) (offset + 1) []).

Definition op_u8 (offset : Z) : outcome DecodedInstruction :=
  op ← read_instruction c offset;
  operand ← read_u8_le c (offset + 1);
  Ret (mkDecoded offset op [operand] [] (Chunk.get_line_number c offset) (offset + 2) []).

Definition op_u16 (offset : Z) : outcome DecodedInstruction :=
  op ← read_instruction c offset;
  operand ← read_u16_le c (offset + 1);
  Ret (mkDecoded offset op [operand] [] (Chunk.get_line_number c offset) (offset + 3) []).

Definition op_constant_u8 (offset : Z) : outcome DecodedInstruction :=
  op ← read_instruction c offset;
  operand ← read_u8_le c (offset + 1);
  constant ← read_constant c (offset + 1);
  Ret (mkDecoded offset op [operand] [constant] (Chunk.get_line_number c offset) (offset + 2) []).

Definition op_constant_u16 (offset : Z) : outcome DecodedInstruction :=
  op ← read_instruction c offset;
  operand ← read_u16_le c (offset + 1);
  constant ← read_constant_long c (offset + 1);
  Ret (mkDecoded offset op [operand] [constant] (Chunk.get_line_number c offset) (offset + 3) []).

Definition op_global_u16 (offset : Z) : outcome DecodedInstruction :=
  op ← read_instruction c offset;
  index ← read_u16_le c (offset + 1);
  name ← (if Context.exists_index context index
          then r ← Context.get_name context index; s ← Heap.string h r; Ret (str s)
          else Ret EmptyString);
  Ret (mkDecoded offset op [index] [] (Chunk.get_line_number c offset) (offset + 3) [mkName true name]).

Definition op_invoke (offset : Z) : outcome DecodedInstruction :=
  op ← read_instruction c offset;
  index ← read_u16_le c (offset + 1);
  constant ← read_constant_long c (offset + 1);
  count ← read_u8_le c (offset + 3);
  Ret (mkDecoded offset op [index; count] [constant] (Chunk.get_line_number c offset) (offset + 4) []).

(** The pairs (is_local, index) of [n] captured variables. *)
Fixpoint captures (n : nat) (offset : Z) : outcome (list Z) :=
  match n with
  | O => Ret []
  | S n =>
      is_local ← read_u8_le c offset;
      index ← read_u16_le c (offset + 1);
      rest ← captures n (offset + 3);
      Ret (is_local :: index :: rest)
  end.

Definition op_closure (offset : Z) : outcome DecodedInstruction :=
  op ← read_instruction c offset;
  index ← read_u16_le c (offset + 1);
  constant ← read_constant_long c (offset + 1);
  count ← match constant with
          | Some val => r ← Value.as_object val; fn ← Heap.function h r; Ret (Z.to_nat (upvalue_count_ fn))
          | None => Ret O
          end;
  pairs ← captures count (offset + 3);
  Ret (mkDecoded offset op (index :: pairs) [constant] (Chunk.get_line_number c offset)
         (offset + 3 + 3 * Z.of_nat count) []).

Definition op_unknown (offset : Z) : outcome DecodedInstruction :=
  Ret (mkDecoded offset OpCode.INVALID [] [] (Chunk.get_line_number c offset) (offset + 1) []).

(** [decode_table], as [init_decode_table] fills it. *)
Definition decode_table (byte : Z) : Z -> outcome DecodedInstruction :=
  match OpCode.of_int byte with
  | Some (OpCode.RETURN | OpCode.NEGATE | OpCode.ADD | OpCode.SUBTRACT | OpCode.MULTIPLY
    | OpCode.DIVIDE | OpCode.TRUE | OpCode.FALSE | OpCode.NIL | OpCode.UNINITIALIZED | OpCode.NOT
    | OpCode.GREATER | OpCode.LESS | OpCode.EQUAL | OpCode.PRINT | OpCode.POP_TOP | OpCode.DUP_TOP
    | OpCode.CLOSE_UPVALUE | OpCode.INHERIT | OpCode.ZERO | OpCode.MINUS_ONE | OpCode.ONE
    | OpCode.LIST_APPEND | OpCode.MAP_ADD | OpCode.STORE_INDEX | OpCode.LOAD_INDEX) => op_no_args
  | Some (OpCode.CALL | OpCode.LIST | OpCode.MAP) => op_u8
  | Some OpCode.LOAD_CONSTANT => op_constant_u8
  | Some (OpCode.LOAD_CONSTANT_LONG | OpCode.CLASS | OpCode.METHOD | OpCode.STORE_PROPERTY
    | OpCode.LOAD_PROPERTY | OpCode.LOAD_PROPERTY_SAFE | OpCode.LOAD_SUPER) => op_constant_u16
  | Some (OpCode.LOAD_UPVALUE | OpCode.STORE_UPVALUE | OpCode.LOAD_LOCAL | OpCode.STORE_LOCAL
    | OpCode.JUMP_IF_FALSE | OpCode.POP_JUMP_IF_FALSE | OpCode.JUMP_FORWARD | OpCode.JUMP_IF_TRUE
    | OpCode.JUMP_BACKWARD) => op_u16
  | Some (OpCode.DEFINE_GLOBAL | OpCode.STORE_GLOBAL | OpCode.LOAD_GLOBAL) => op_global_u16
  | Some (OpCode.INVOKE | OpCode.SUPER_INVOKE) => op_invoke
  | Some OpCode.CLOSURE => op_closure
  | Some OpCode.INVALID | None => op_unknown
  end.

(** [decode_table[code[offset]](context, chunk, offset)] *)
Definition decode (offset : Z) : outcome DecodedInstruction :=
  byte ← read_u8_le c offset; decode_table byte offset.

Definition is_jump (op : OpCode.t) : bool :=
  match op with
  | OpCode.JUMP_IF_FALSE | OpCode.POP_JUMP_IF_FALSE | OpCode.JUMP_FORWARD | OpCode.JUMP_IF_TRUE
  | OpCode.JUMP_BACKWARD => true
  | _ => false
  end.

(** [target_offset] of [print_jump_target]; none where it returns at once. *)
Definition jump_target (instr : DecodedInstruction) : option Z :=
  match operands instr with
  | jmp :: _ =>
      if is_jump (opcode instr) then
        let direction := if decide (opcode instr = OpCode.JUMP_BACKWARD) then -1 else 1 in
        Some (next_offset instr + direction * jmp)
      else None
  | [] => None
  end.

(** ** Text *)

(** [{:0<width>x}] of an int: a sign takes one of the columns. *)
Definition hex_columns (width : nat) (z : Z) : string :=
  if z <? 0 then String "-" (pad_left "0" (width - 1) (hex 16 (- z) ""))
  else pad_left "0" width (hex 16 z "").

Definition commas (ss : list string) : string := String.concat ", " ss.

Definition print_line_number (line previous_line offset : Z) : string :=
  if (0 <? offset) && (line =? previous_line) then "      "
  else pad_left " " 5 (to_string line) +:+ " ".

Definition print_offset (offset : Z) : string := hex_columns 5 offset +:+ ": ".

(** The bytes from [offset], [n] of them. *)
Fixpoint code_bytes (n : nat) (offset : Z) : outcome string :=
  match n with
  | O => Ret EmptyString
  | S n => b ← read_u8_le c offset; s ← code_bytes n (offset + 1); Ret (hex_columns 2 b +:+ " " +:+ s)
  end.

Definition print_instruction_bytes (instr : DecodedInstruction) : outcome string :=
  let byte_count := next_offset instr - offset instr in
  let max_bytes_shown := 12 in
  if byte_count <=? max_bytes_shown then
    s ← code_bytes (Z.to_nat byte_count) (offset instr);
    Ret (s +:+ pad " " (Z.to_nat (3 * (max_bytes_shown - byte_count))) EmptyString)
  else
    s ← code_bytes (Z.to_nat (max_bytes_shown - 1)) (offset instr); Ret (s +:+ "...").

(** The pairs (is_local, index): [u] for an upvalue, [l] for a local variable; a last operand without
    a partner prints nothing but its comma. *)
Fixpoint closure_pairs (operands : list Z) : list string :=
  match operands with
  | is_local :: index :: rest =>
      ((if is_local =? 0 then "u" else "l") +:+ to_string (i32 index)) :: closure_pairs rest
  | [_] => [EmptyString]
  | [] => []
  end.

Definition print_closure_operands (instr : DecodedInstruction) : string :=
  match operands instr with
  | [] => EmptyString
  | f :: pairs =>
      " " +:+ to_string f +:+ (match pairs with [] => EmptyString | _ => " (" +:+ commas (closure_pairs pairs) +:+ ")" end)
  end.

Definition print_operands (instr : DecodedInstruction) : string :=
  match operands instr with [] => EmptyString | ops => " " +:+ commas (to_string <$> ops) end.

Fixpoint constant_texts (cs : list (option Value)) : outcome (list string) :=
  match cs with
  | [] => Ret []
  | v :: cs =>
      s ← match v with Some v => value_to_string (S (size h)) h v | None => Ret "NO_VALUE"%string end;
      ss ← constant_texts cs;
      Ret (s :: ss)
  end.

Definition print_constants (instr : DecodedInstruction) : outcome string :=
  match constants instr with
  | [] => Ret EmptyString
  | cs => ss ← constant_texts cs; Ret (" [" +:+ commas ss +:+ "]")
  end.

Definition print_names (instr : DecodedInstruction) : string :=
  match names instr with [] => EmptyString | ns => " # " +:+ commas (name_text <$> ns) end.

Definition print_jump_target (instr : DecodedInstruction) : string :=
  match jump_target instr with
  | Some target_offset =>
      " -> " +:+ hex_columns 4 target_offset +:+ ":L" +:+ to_string (Chunk.get_line_number c target_offset)
  | None => EmptyString
  end.

(** One turn of the loop of [decode_chunk]: the instruction and its line of text. *)
Definition print_instruction (previous_line offset : Z) : outcome (DecodedInstruction * string) :=
  instr ← decode offset;
  bytes ← print_instruction_bytes instr;
  constants ← print_constants instr;
  Ret (instr,
    print_line_number (line instr) previous_line offset +:+ print_offset offset +:+ bytes +:+
    OpCode.opcode_to_string (opcode instr) +:+
    (if decide (opcode instr = OpCode.CLOSURE) then print_closure_operands instr else print_operands instr) +:+
    constants +:+ print_names instr +:+ print_jump_target instr).

(** [decode_chunk] from [offset]: the lines of text.  Every turn moves on by at least one byte, so the
    size of the code bounds their number. *)
Fixpoint decode_from (fuel : nat) (previous_line offset : Z) : outcome (list string) :=
  if Chunk.size c <=? offset then Ret []
  else match fuel with
       | O => OutOfFuel
       | S fuel =>
           '(instr, text) ← print_instruction previous_line offset;
           rest ← decode_from fuel (line instr) (next_offset instr);
           Ret (text :: rest)
       end.

Definition decode_chunk : outcome (list string) := decode_from (length (code c)) 0 0.

Definition disassemble_chunk (name : string) (print_header : bool) : outcome (list string) :=
  lines ← decode_chunk;
  Ret ((if print_header then ["== " +:+ name +:+ " (" +:+ to_string (Chunk.size c) +:+ " bytes) =="] else []) ++ lines).

End decoders.
End Disassembler.
