(* ===== verification/DisassemblerProps.v ===== *)
(** * The disassembler and the machine read the same instructions *)

From S2P Require Import Prelude Double HashMap Hash Platform Opcode Parser Compiler Value Chunk ChunkFacts Object Collections Memory CollectFacts Context VM StackFacts VMProps ShapeFacts Disassembler.
Import Compiler (InterpretResult, OK, RUNTIME_ERROR).
Import VM.

Section agreement.
Context `{Platform}.

(** [w] executes the code of [fn] in the frame [fr]. *)
Record executing (w : machine) (fr : CallFrame) (fn : ObjectFunction) : Prop := {
  executing_frame : frame_now w = Ret (fr, w);
  executing_code : closure_function (frame_closure fr) w = Ret (fn, w)
}.

Definition advance (fr : CallFrame) (n : Z) : CallFrame := mkFrame (frame_closure fr) (ip fr + n) (frame_slots fr).

Lemma executing_ip w fr fn : executing w fr fn -> ip_of (state w) = ip fr.
Proof.
  intros [Hf _]. destruct (frame_now_Ret _ _ _ Hf) as (_ & i & Hc & Hi). unfold ip_of. by rewrite Hc, Hi.
Qed.

Lemma closure_function_mem c w w' fn : mem w' = mem w ->
  closure_function c w = Ret (fn, w) -> closure_function c w' = Ret (fn, w').
Proof.
  intros Hm (cl & w1 & H1 & H2)%M_bind_Ret. pose proof (read_heap_same _ _ _ _ H1) as ->.
  apply read_heap_Ret in H1, H2. rewrite <-Hm in H1, H2.
  unfold closure_function, read_heap, heap_of, gets, lift, mbind, M_bind. cbn. by rewrite H1; cbn; rewrite H2.
Qed.

(** A byte the machine reads is the one the disassembler shows. *)
Lemma read_byte_code w fr fn b w1 : executing w fr fn -> read_byte w = Ret (b, w1) ->
  Disassembler.read_u8_le (chunk fn) (ip fr) = Ret b /\ executing w1 (advance fr 1) fn /\ mem w1 = mem w.
Proof.
  intros [Hf Hc] Hr. unfold read_byte in Hr. apply M_bind_Ret in Hr as (fr' & w2 & Hf' & Hr).
  rewrite Hf in Hf'. injection Hf' as <- <-. apply M_bind_Ret in Hr as (fn' & w2 & Hc' & Hr).
  rewrite Hc in Hc'. injection Hc' as <- <-. apply M_bind_Ret in Hr as (b' & w2 & Hb & Hr).
  apply M_bind_Ret in Hr as ([] & w3 & Hs & [= -> ->]).
  unfold Disassembler.read_u8_le. destruct (ip fr <? 0); [done|]. apply lift_Ret in Hb as [-> Hb].
  apply or_undef_Ret in Hb. rewrite Hb. split; [done|]. destruct (frame_now_Ret _ _ _ Hf) as (_ & i & Hi & Hj).
  unfold set_ip in Hs. rewrite (M_bind_run _ _ _ _ _ Hf) in Hs.
  unfold vm_state, gets, lift, put_state, modify, mbind, M_bind in Hs. rewrite Hi in Hs. injection Hs as <-.
  assert (i < length (frames (state w)))%nat as Hlt.
  { apply lookup_lt_is_Some. destruct (frames (state w) !! i); [by eexists|done]. }
  split; [|done]. split; [|by apply (closure_function_mem _ w)].
  unfold frame_now, frame, vm_state, gets, lift, mbind, M_bind. cbn.
  by rewrite list_lookup_insert_eq.
Qed.

Lemma read_uint16_code w fr fn n w1 : executing w fr fn -> read_uint16_le w = Ret (n, w1) ->
  Disassembler.read_u16_le (chunk fn) (ip fr) = Ret n /\ executing w1 (advance fr 2) fn /\ mem w1 = mem w.
Proof.
  intros He (lo & w2 & Hlo & Hm)%M_bind_Ret. apply M_bind_Ret in Hm as (hi & w3 & Hhi & [= <- <-]).
  destruct (read_byte_code _ _ _ _ _ He Hlo) as (Elo & He2 & Em2).
  destruct (read_byte_code _ _ _ _ _ He2 Hhi) as (Ehi & He3 & Em3). cbn in Ehi.
  split; [unfold Disassembler.read_u16_le; by rewrite Elo; cbn; rewrite Ehi|].
  split; [|congruence]. unfold advance in *. cbn in He3. by rewrite <-Z.add_assoc in He3.
Qed.

(** Reading the byte at the instruction pointer moves only the instruction pointer. *)
Record read_on (n : Z) (w : machine) (fr : CallFrame) (fn : ObjectFunction) (w' : machine) : Prop := {
  read_executing : executing w' (advance fr n) fn;
  read_memory : mem w' = mem w;
  read_stack : evalstack (state w') = evalstack (state w) /\ stack_top (state w') = stack_top (state w)
}.

Lemma read_byte_run w fr fn b : executing w fr fn -> 0 <= ip fr -> code (chunk fn) !! Z.to_nat (ip fr) = Some b ->
  exists w', read_byte w = Ret (b, w') /\ read_on 1 w fr fn w'.
Proof.
  intros He Hip Hb. pose proof He as [Hf Hc]. destruct (frame_now_Ret _ _ _ Hf) as (_ & i & Hi & Hj).
  assert (Hrun : exists w', read_byte w = Ret (b, w') /\ mem w' = mem w /\
    evalstack (state w') = evalstack (state w) /\ stack_top (state w') = stack_top (state w)).
  { unfold read_byte. rewrite (M_bind_run _ _ _ _ _ Hf), (M_bind_run _ _ _ _ _ Hc), (proj2 (Z.ltb_ge _ _)), Hb by done.
    rewrite (M_bind_run _ _ _ _ _ (lift_run _ _ _ (eq_refl (Ret b)))). unfold set_ip, mbind, M_bind. rewrite Hf.
    unfold vm_state, gets, lift, put_state, modify. rewrite Hi. by eexists. }
  destruct Hrun as (w' & Hrun & Hm & Hst). exists w'. split; [done|].
  destruct (read_byte_code _ _ _ _ _ He Hrun) as (_ & He' & _). by constructor.
Qed.

(** ** The instruction pointer after each instruction *)

Lemma ip_LIST : moves ip_of goes_on exec_LIST 1.
Proof.
  unfold exec_LIST. eapply moves_bind; [eauto with still|intros n].
  eapply moves_bind; [eauto with still|intros r]. eapply moves_bind; [apply moves_list_items|intros _]. moving.
Qed.
Lemma ip_MAP : moves ip_of goes_on exec_MAP 1.
Proof.
  unfold exec_MAP. eapply moves_bind; [eauto with still|intros n].
  eapply moves_bind; [eauto with still|intros r]. intros w a w' (ok & w1 & Hp & Hm)%M_bind_Ret Ha.
  destruct ok; [|by apply M_bind_Ret in Hm as (? & ? & _ & [= <- _])].
  pose proof (moves_map_pairs (reg := ip_of) _ _ _ _ _ Hp eq_refl) as Ep.
  assert (Hp' : moves ip_of goes_on (push (Value.of_object r) ;; continue) 0) by moving.
  rewrite (Hp' _ _ _ Hm Ha), Ep. lia.
Qed.

(** The instructions with a fixed number of operand bytes. *)
Lemma ip_fixed call_native op k : operand_bytes op = Some k -> moves ip_of goes_on (dispatch call_native op) k.
Proof.
  intros Hk. destruct (decide (op = OpCode.LIST)) as [->|Hl]; [injection Hk as <-; apply ip_LIST|].
  destruct (decide (op = OpCode.MAP)) as [->|Hm]; [injection Hk as <-; apply ip_MAP|].
  destruct (stack_effect op 0) as [d|] eqn:Hd; [|by destruct op].
  eapply moves_eq; [by apply (dispatch_moves call_native (reg := ip_of) op 0 d k)|lia].
Qed.

(** A jump reads its operand and adds it, or goes on. *)
Lemma ip_jump w1 n x w' : jump n w1 = Ret (x, w') -> ip_of (state w') = ip_of (state w1) + n.
Proof. intros Hj. rewrite (moves_jump (reg := ip_of) n _ _ _ Hj I). lia. Qed.

(** Taking a value off the stack, then jumping or not. *)
Lemma ip_branch {A} (m : M machine A) (c : A -> bool) n w w' : still ip_of m ->
  (v ← m; (if c v then mret tt else jump n) ;; continue) w = Ret (None, w') ->
  ip_of (state w') = ip_of (state w) \/ ip_of (state w') = ip_of (state w) + n.
Proof.
  intros Hm (v & w1 & Hv & Hw)%M_bind_Ret. pose proof (Hm _ _ _ Hv I) as E1.
  apply M_bind_Ret in Hw as ([] & w2 & Hj & [= <-]).
  destruct (c v); [injection Hj as <-; left; lia|right; rewrite (ip_jump _ _ _ _ Hj); lia].
Qed.

Lemma ip_jumps call_native op w fr fn w' : executing w fr fn -> Disassembler.is_jump op = true ->
  dispatch call_native op w = Ret (None, w') ->
  exists n, Disassembler.read_u16_le (chunk fn) (ip fr) = Ret n /\
    (ip_of (state w') = ip fr + 2 \/
     ip_of (state w') = ip fr + 2 + (if decide (op = OpCode.JUMP_BACKWARD) then -1 else 1) * n).
Proof.
  intros He Hj Hw. destruct op; try done; cbn [dispatch] in Hw;
    unfold exec_JUMP_IF, exec_POP_JUMP_IF_FALSE, exec_JUMP_FORWARD, exec_JUMP_BACKWARD in Hw;
    apply M_bind_Ret in Hw as (n & w1 & Hn & Hw);
    destruct (read_uint16_code _ _ _ _ _ He Hn) as (En & He1 & _); exists n; (split; [done|]);
    pose proof (executing_ip _ _ _ He1) as E1; cbn in E1; rewrite <-E1; case_decide; try done;
    rewrite ?Z.mul_1_l, ?Z.mul_opp_l, ?Z.mul_1_l.
  - by apply (ip_branch (peek 0) (fun v => Bool.eqb (Value.is_falsey v) false)); [apply still_peek|].
  - by apply (ip_branch (peek 0) (fun v => Bool.eqb (Value.is_falsey v) true)); [apply still_peek|].
  - apply (ip_branch pop (fun v => negb (Value.is_falsey v))); [eapply moves_eq; [apply moves_pop|lia]|].
    rewrite <-Hw. unfold mbind, M_bind. destruct (pop w1) as [[v w2]| | |]; try done. by destruct (Value.is_falsey v).
  - right. apply M_bind_Ret in Hw as ([] & w2 & Hk & [= <-]). by rewrite (ip_jump _ _ _ _ Hk).
  - right. apply M_bind_Ret in Hw as ([] & w2 & Hk & [= <-]). rewrite (ip_jump _ _ _ _ Hk). lia.
Qed.

Lemma constant_code w fr fn v w1 : executing w fr fn -> read_constant_long w = Ret (v, w1) ->
  Disassembler.read_constant_long (chunk fn) (ip fr) = Ret (Some v) /\
  executing w1 (advance fr 2) fn /\ mem w1 = mem w.
Proof.
  intros He (n & w2 & Hn & Hv)%M_bind_Ret. destruct (read_uint16_code _ _ _ _ _ He Hn) as (En & He2 & Em).
  unfold constant in Hv. rewrite (M_bind_run _ _ _ _ _ (executing_frame _ _ _ He2)) in Hv.
  rewrite (M_bind_run _ _ _ _ _ (executing_code _ _ _ He2)) in Hv. apply lift_Ret in Hv as [-> Hv].
  split; [|done]. unfold Disassembler.read_constant_long. rewrite En. cbn. do 2 f_equal.
  unfold Chunk.get_value_unchecked in Hv. unfold Chunk.get_value. destruct (n <? 0); [done|].
  apply or_undef_Ret in Hv. cbn. rewrite Hv. destruct (_ <=? n) eqn:E; [|done]. zbool.
  apply lookup_lt_Some in Hv. lia.
Qed.

(** CLOSURE reads three bytes for each variable the new closure captures. *)
Lemma ip_closure w fr fn w' v r g : fresh (mem w) -> executing w fr fn ->
  Disassembler.read_constant_long (chunk fn) (ip fr) = Ret (Some v) -> Value.as_object v = Ret r ->
  Heap.function (objects (mem w)) r = Ret g -> exec_CLOSURE w = Ret (None, w') ->
  ip_of (state w') = ip fr + 2 + 3 * Z.of_nat (Z.to_nat (upvalue_count_ g)).
Proof.
  intros Hf He Hv Hr Hg (v' & w1 & Hv' & Hw)%M_bind_Ret.
  destruct (constant_code _ _ _ _ _ He Hv') as (Ev & He1 & Em). rewrite Hv in Ev. injection Ev as <-.
  apply M_bind_Ret in Hw as (r' & w2 & [-> Hr']%lift_Ret & Hw). rewrite Hr in Hr'. injection Hr' as <-.
  apply M_bind_Ret in Hw as (c & w3 & Hc & Hw).
  unfold allocate, zoom in Hc. apply bind_Ret in Hc as (roots & _ & Hc). apply bind_Ret in Hc as ([c' m] & Hc & [= <- <-]).
  rewrite Em in Hc. apply new_closure_known with (fn := g) in Hc as Hk; [|done|].
  2:{ split; cbn; unfold Heap.function, Heap.read in Hg; destruct (objects (mem w) !! r) as [o|] eqn:Eo; try done.
      - by apply Hf; eexists.
      - intros ? [= <-]. cbn in Hg. destruct (content o); try done. by injection Hg as ->. }
  apply M_bind_Ret in Hw as ([] & w4 & Hp & Hw). pose proof (moves_push (reg := ip_of) _ _ _ _ Hp I) as E4.
  assert (Em4 : mem w4 = m).
  { unfold push, vm_state, gets, put_state, modify, mbind, M_bind in Hp. case_match; [done|]. by injection Hp as <-. }
  apply M_bind_Ret in Hw as (cl & w5 & Hcl & Hw). pose proof (read_heap_Ret _ _ _ _ Hcl) as Ecl.
  apply read_heap_same in Hcl as ->. apply reads_closure in Ecl as (o & Ho & Eo).
  rewrite Em4 in Ho. apply (proj2 Hk) in Ho as Es. rewrite Eo in Es. injection Es as _ Ecount.
  apply M_bind_Ret in Hw as ([] & w6 & Hl & [= <-]).
  rewrite (moves_for_each (reg := ip_of) _ (3 * 1) _ (moves_capture_operand c') _ _ _ Hl I).
  rewrite length_seq, Ecount, E4. change (state (set_mem w1 m)) with (state w1). rewrite (executing_ip _ _ _ He1). cbn. lia.
Qed.

(** How far on the next instruction is, by the disassembler. *)
Lemma decoded_fixed h ctx c byte op k off instr : OpCode.of_int byte = Some op -> operand_bytes op = Some k ->
  Disassembler.decode_table h ctx c byte off = Ret instr -> next_offset instr = off + 1 + k.
Proof.
  intros Hop Hk Hi. unfold Disassembler.decode_table in Hi. rewrite Hop in Hi.
  destruct op; try done; injection Hk as <-;
    unfold Disassembler.op_no_args, Disassembler.op_u8, Disassembler.op_u16, Disassembler.op_constant_u8,
      Disassembler.op_constant_u16, Disassembler.op_global_u16 in Hi;
    inv_ret; subst; cbn; lia.
Qed.

Lemma decoded_opcode h ctx c byte op off instr : Disassembler.read_u8_le c off = Ret byte ->
  OpCode.of_int byte = Some op -> Disassembler.decode_table h ctx c byte off = Ret instr -> opcode instr = op.
Proof.
  intros Hb Hop Hi. unfold Disassembler.decode_table in Hi. rewrite Hop in Hi.
  assert (Er : Disassembler.read_instruction c off = Ret op)
    by (unfold Disassembler.read_instruction; rewrite Hb; cbn; by rewrite Hop).
  destruct op; unfold Disassembler.op_no_args, Disassembler.op_u8, Disassembler.op_u16,
    Disassembler.op_constant_u8, Disassembler.op_constant_u16, Disassembler.op_global_u16,
    Disassembler.op_invoke, Disassembler.op_closure, Disassembler.op_unknown in Hi;
    rewrite ?Er in Hi; cbn [mbind outcome_bind] in Hi; inv_ret; by subst.
Qed.

End agreement.

(** ** Properties *)

(** The instructions after which another frame may run. *)
Definition leaves_frame (op : OpCode.t) : bool :=
  match op with
  | OpCode.CALL | OpCode.INVOKE | OpCode.SUPER_INVOKE | OpCode.RETURN => true
  | _ => false
  end.

(** C18. A two-byte operand is read back: when the code that the machine executes has, at the
    instruction pointer, the two bytes that [write_uint16_le] wrote for a 16-bit value, the machine's own
    read gives the value and moves the instruction pointer by two, and nothing else; the disassembler
    reads the same value. *)
Theorem operand_roundtrip `{Platform} (c : Chunk) (n line : Z) (rest : list Z) (w : machine) (fr : CallFrame)
    (fn : ObjectFunction) :
  is_u16 n -> executing w fr fn ->
  code (chunk fn) = code (Chunk.write_uint16_le c n line) ++ rest -> ip fr = Chunk.size c ->
  (exists w', read_uint16_le w = Ret (n, w') /\ read_on 2 w fr fn w') /\
  Disassembler.read_u16_le (chunk fn) (ip fr) = Ret n.
Proof.
  intros Hn He Hcode Hip. unfold Chunk.size in Hip.
  rewrite write_uint16_le_bytes, !code_write_byte, <-!app_assoc in Hcode. cbn [app] in Hcode.
  set (lo := u8 (Z.land n 0xFF)) in *. set (hi := u8 _) in Hcode.
  assert (Hlo : code (chunk fn) !! Z.to_nat (ip fr) = Some lo) by (rewrite Hcode, Hip, Nat2Z.id; by apply list_lookup_middle).
  assert (Hhi : code (chunk fn) !! Z.to_nat (ip (advance fr 1)) = Some hi).
  { cbn [ip advance]. rewrite Hcode, Hip, cons_middle, app_assoc. apply list_lookup_middle. rewrite length_app. cbn. lia. }
  destruct (read_byte_run w fr fn lo He ltac:(lia) Hlo) as (w1 & E1 & [He1 Hm1 [Hs1 Ht1]]).
  destruct (read_byte_run w1 _ fn hi He1 ltac:(cbn; lia) Hhi) as (w2 & E2 & [He2 Hm2 [Hs2 Ht2]]).
  assert (Hrun : read_uint16_le w = Ret (n, w2)).
  { unfold read_uint16_le. rewrite (M_bind_run _ _ _ _ _ E1), (M_bind_run _ _ _ _ _ E2).
    pose proof (le16_bytes n Hn) as Hle. unfold le16 in Hle. fold lo hi in Hle. by rewrite Hle. }
  destruct (read_uint16_code _ _ _ _ _ He Hrun) as (Hd & He' & _). split; [|done].
  exists w2. split; [done|]. constructor; [done|congruence|split; congruence].
Qed.

(** C24. The disassembler and the machine agree on where instructions begin: when the machine executes
    an instruction that stays in its frame, its instruction pointer is afterwards at the next
    instruction the disassembler shows, or at the target it prints for a jump, also where the number
    of operand bytes depends on the function a closure is made of and creating the closure runs the
    collector. *)
Theorem disassembler_agrees `{Platform} (call_native : NativeFunction -> nat -> nat -> M machine (Value * bool))
    (w w' : machine) (fr : CallFrame) (fn : ObjectFunction) (instr : DecodedInstruction) :
  fresh (mem w) -> executing w fr fn ->
  Disassembler.decode (objects (mem w)) (globals_ w) (chunk fn) (ip fr) = Ret instr ->
  leaves_frame (opcode instr) = false ->
  step call_native w = Ret (None, w') ->
  ip_of (state w') = next_offset instr \/ Disassembler.jump_target instr = Some (ip_of (state w')).
Proof.
  intros Hf He Hd Hl (byte & w1 & Hb & Hw)%M_bind_Ret.
  destruct (read_byte_code _ _ _ _ _ He Hb) as (Eb & He1 & Em).
  unfold Disassembler.decode in Hd. rewrite Eb in Hd. cbn in Hd.
  destruct (OpCode.of_int byte) as [op|] eqn:Hop; [|done].
  pose proof (executing_ip _ _ _ He1) as E1. cbn in E1.
  pose proof (decoded_opcode _ _ _ _ _ _ _ Eb Hop Hd) as Eop.
  destruct (operand_bytes op) as [k|] eqn:Hk.
  { left. rewrite (decoded_fixed _ _ _ _ _ _ _ _ Hop Hk Hd), (ip_fixed call_native op k Hk _ _ _ Hw eq_refl). lia. }
  unfold Disassembler.decode_table in Hd. rewrite Hop in Hd. destruct (Disassembler.is_jump op) eqn:Hj.
  - destruct (ip_jumps call_native op w1 _ fn w' He1 Hj Hw) as (n & En & Hip). cbn [ip advance] in En, Hip.
    unfold Disassembler.jump_target. rewrite Eop, Hj.
    assert (operands instr = [n] /\ next_offset instr = ip fr + 3) as [-> ->].
    { destruct op; try done; unfold Disassembler.op_u16, Disassembler.read_instruction in Hd;
        rewrite Eb in Hd; cbn [mbind outcome_bind] in Hd; rewrite Hop, En in Hd; by injection Hd as <-. }
    destruct Hip as [->| ->]; [left; lia|right; f_equal; lia].
  - left. rewrite Eop in Hl. destruct op; try done. unfold Disassembler.op_closure in Hd.
    pose proof Hw as (v & w2 & Hv & _)%M_bind_Ret. destruct (constant_code _ _ _ _ _ He1 Hv) as (Ec & _ & _).
    cbn [ip advance] in Ec. rewrite Ec in Hd. inv_ret. subst. cbn [next_offset].
    match goal with Hr : Value.as_object v = Ret ?r, Hg : Heap.function _ ?r = Ret ?g |- _ =>
      rewrite <-Em in Hg; rewrite (ip_closure w1 (advance fr 1) fn w' v r g); try done end;
      [cbn [ip advance]; lia|by rewrite Em].
Qed.

(** A machine about to execute a CLOSURE with one captured variable, and to collect garbage. *)
Definition inner_function : ObjectFunction := mkFunction 0 1 Chunk.empty 1%positive.
Definition outer_function : ObjectFunction :=
  mkFunction 0 0 (mkChunk [OpCode.to_int OpCode.CLOSURE; 0; 0; 1; 0; 0] [Value.of_object 2%positive] [mkLineInfo 0 1])
    1%positive.

Definition closing_memory : Memory :=
  let m := Memory.initial (mkVMOpts 1024 256 true 2 0) in
  {| objects := {[ 1%positive := mkCell false (ObjString (mkString "" 0));
                   2%positive := mkCell false (ObjFunction inner_function);
                   3%positive := mkCell false (ObjFunction outer_function);
                   4%positive := mkCell false (ObjClosure (mkClosure 3%positive [] 0)) ]};
     next_object := 5%positive; objs := [1; 2; 3; 4]%positive; vopts := vopts m;
     bytes_allocated := 0; bytes_freed := 0; next_gc := 0; objects_created := 0; objects_freed := 0;
     gc_cycles := 0; temp_stash := []; interned_strings := HashMap.empty; gc_disabled := false;
     never_delete_objects := []; grey_objects := [] |}.

Definition outer_frame : CallFrame := mkFrame 4%positive 0 0.
Definition closing_machine : machine :=
  mkMachine closing_memory Context.empty ErrorReporter.empty
    (mkVM (replicate 8 Value.nil) [Some outer_frame] (Some O) 1 1 None 1%positive) [] [] [].

Lemma closing_fresh : fresh (mem closing_machine).
Proof.
  intros r [c Hr]. cbn in Hr. repeat (apply lookup_insert_Some in Hr as [[<- _]|[_ Hr]]; [done|]).
  by apply lookup_singleton_Some in Hr as [<- _].
Qed.

Example closing_listing :
  Disassembler.disassemble_chunk (objects closing_memory) Context.empty (chunk outer_function) "f" true =
  Ret ["== f (6 bytes) =="; "    1 00000: 2c 00 00 01 00 00                   CLOSURE 0 (l0) [<script>]"]%string.
Proof. vm_compute. reflexivity. Qed.

Definition no_natives : NativeFunction -> nat -> nat -> M machine (Value * bool) := fun _ _ _ => throw "no natives".

Lemma disassembler_agrees_witness : exists instr w',
  Disassembler.decode (objects (mem closing_machine)) Context.empty (chunk outer_function) 0 = Ret instr /\
  step no_natives closing_machine = Ret (None, w') /\
  (ip_of (state w') = next_offset instr \/ Disassembler.jump_target instr = Some (ip_of (state w'))).
Proof.
  assert (E : exists instr w',
    Disassembler.decode (objects (mem closing_machine)) Context.empty (chunk outer_function) 0 = Ret instr /\
    step no_natives closing_machine = Ret (None, w') /\ leaves_frame (opcode instr) = false)
    by (do 2 eexists; by vm_compute).
  destruct E as (instr & w' & Ed & Ew & El). exists instr, w'. split; [exact Ed|]. split; [exact Ew|].
  refine (disassembler_agrees no_natives closing_machine w' outer_frame outer_function instr closing_fresh _ Ed El Ew).
  split; by vm_compute.
Defined.

(** The operand 40000 after one byte of code. *)
Definition operand_function : ObjectFunction :=
  mkFunction 0 0 (Chunk.write_uint16_le (Chunk.write_byte Chunk.empty 44 1) 40000 1) 1%positive.
Definition operand_machine : machine :=
  set_state (VM.set_mem closing_machine (Memory.set_objects closing_memory
      (<[3%positive := mkCell false (ObjFunction operand_function)]> (objects closing_memory))))
    (set_frames (state closing_machine) [Some (mkFrame 4%positive 1 0)] (Some O) 1).

Lemma operand_roundtrip_witness : exists w', read_uint16_le operand_machine = Ret (40000, w') /\ ip_of (state w') = 3.
Proof.
  destruct (operand_roundtrip (Chunk.write_byte Chunk.empty 44 1) 40000 1 [] operand_machine (mkFrame 4%positive 1 0)
    operand_function) as [(w' & E & Hw') _]; [by_compute|split; by vm_compute|reflexivity|reflexivity|].
  exists w'. split; [exact E|]. by rewrite (executing_ip _ _ _ (read_executing _ _ _ _ _ Hw')).
Defined.
