(* ===== verification/BytecodeProps.v ===== *)
(** * A program survives its bytecode file

    Serializing a program and loading it into another machine gives functions
    that agree in everything the machine looks at. *)

From S2P Require Import Prelude Double HashMap HashMapFacts Hash Platform Token Lexer LexerFacts Parser ParserFacts Compiler CompilerFacts CompilerProps Bytes BytesFacts ChecksumProps Opcode Value Chunk Object KeyFacts Memory CollectFacts SweepFacts AllocatorFacts GcProps Context ContextFacts Serializer SerializerFacts Deserializer LoaderFacts.
Import DataPacker.

(** ** The same program in two heaps *)

Definition same_text (h h' : heap) (r r' : ref) : Prop :=
  exists o o', Heap.string h r = Ret o /\ Heap.string h' r' = Ret o' /\ str o = str o'.

Inductive same_constant (h h' : heap) (debug : bool) : value_data -> value_data -> Prop :=
  | same_nil : same_constant h h' debug NIL NIL
  | same_boolean b : same_constant h h' debug (BOOLEAN b) (BOOLEAN b)
  | same_real d : same_constant h h' debug (NUMBER_REAL d) (NUMBER_REAL d)
  | same_int i : same_constant h h' debug (NUMBER_INT i) (NUMBER_INT i)
  | same_string r r' : same_text h h' r r' -> same_constant h h' debug (OBJECT r) (OBJECT r')
  | same_object r r' : same_function h h' debug r r' -> same_constant h h' debug (OBJECT r) (OBJECT r')
with same_function (h h' : heap) (debug : bool) : ref -> ref -> Prop :=
  | same_code r r' fn fn' :
      Heap.function h r = Ret fn -> Heap.function h' r' = Ret fn' ->
      same_text h h' (name_ fn) (name_ fn') -> arity_ fn' = arity_ fn -> upvalue_count_ fn' = upvalue_count_ fn ->
      code (chunk fn') = code (chunk fn) ->
      lines (chunk fn') = (if debug then lines (chunk fn) else []) ->
      Forall2 (same_constant h h' debug) (data <$> value_array (chunk fn)) (data <$> value_array (chunk fn')) ->
      same_function h h' debug r r'.

(** The globals have the same names at the same indices and the same [const] flags, and no values. *)
Definition same_globals (h h' : heap) (c c' : Context) : Prop :=
  Forall2 (same_text h h') (names c) (names c') /\ globals c' = no_value <$> (is_const <$> globals c).

(** ** What the file can hold *)

Definition storable_real (d : double) : Prop :=
  match d with
  | S754_zero s => s = false
  | S754_finite s m e => normal s m e
  | _ => False
  end.

Definition storable_constant (v : value_data) : Prop :=
  match v with
  | NUMBER_REAL d => storable_real d
  | NUMBER_INT i => is_i64 i
  | _ => True
  end.

Record storable (fn : ObjectFunction) : Prop := {
  storable_arity : is_u8 (arity_ fn);
  storable_upvalues : is_u16 (upvalue_count_ fn);
  storable_pool : Z.of_nat (length (value_array (chunk fn))) < 2 ^ 16;
  storable_constants : Forall storable_constant (data <$> value_array (chunk fn));
  storable_lines : Forall line_fits (lines (chunk fn))
}.

Lemma packed_real d bits : storable_real d -> pack754 d = Ret bits -> is_u64 bits /\ unpack754 bits = d.
Proof.
  intros Hd Hp. destruct d as [s|s| |s m e]; try done.
  - cbn in Hd. subst s. injection Hp as <-. done.
  - cbn in Hd. pose proof Hp as Hq. rewrite pack_normal in Hp by done. injection Hp as <-. split; [|by apply unpack_normal].
    cbn [pack754] in Hq. destruct (normalize _) as [[x n]| | |]; try done. injection Hq as <-. apply u64_range.
Qed.

Lemma offsets_range ss : forall o off t, (off, t) ∈ offsets o ss -> o <= off < o + Z.of_nat (length (block_of ss)).
Proof.
  induction ss as [|x ss IH]; intros o off t; [by inversion 1|].
  assert (Hl : length (block_of (x :: ss)) = (4 + length (Serializer.string_bytes x) + length (block_of ss))%nat).
  { unfold block_of. cbn [mbind list_bind]. by rewrite length_app, length_prefixed. }
  rewrite Hl. intros [[= -> ->]|Hin]%elem_of_cons; [lia|]. apply IH in Hin. lia.
Qed.

Section program.
Context `{PlatformLaws} (roots : list (option ref)).
Implicit Types (m : Memory) (d : Deserializer) (ss : list string) (os : list positive) (ims : list image).

(** The strings of a heap with an exact pool. *)
Lemma heap_string m p r o : inv m p -> Heap.string (objects m) r = Ret o ->
  no_nul (str o) /\ p !! pool_key (str o) = Some (Some r).
Proof.
  intros [Hok Hpool] Hr. unfold Heap.string, Heap.read in Hr.
  destruct (objects m !! r) as [c|] eqn:Ec; [|done]. cbn in Hr. destruct (content c) as [o'| | | | | | | | |] eqn:Eo; try done.
  injection Hr as ->. assert (Hk : p !! mkInterned (str o) (hash_ o) = Some (Some r)).
  { apply Hpool. exists c. split; [done|]. rewrite Eo. by destruct o. }
  destruct (repr_valid interned_valid _ _ _ _ (proj1 (ok_pool _ _ Hok)) Hk) as [Hh Hn]. cbn [chars interned_hash] in Hh, Hn.
  split; [done|]. unfold pool_key. by rewrite <-Hh.
Qed.

Lemma same_string_ref m p r r' o o' : inv m p -> Heap.string (objects m) r = Ret o ->
  Heap.string (objects m) r' = Ret o' -> str o = str o' -> r = r'.
Proof.
  intros Hi Hr Hr' E. apply (heap_string m p r o Hi) in Hr as [_ H1]. apply (heap_string m p r' o' Hi) in Hr' as [_ H2].
  rewrite E in H1. congruence.
Qed.

(** *** From the images back to the program *)

Section loaded.
Context (debug : bool) (m : Memory) (p : gmap InternedString (option ref)) (Hm : inv m p).
Context (Hstorable : forall r fn, Heap.function (objects m) r = Ret fn -> storable fn).

Lemma loaded_string d ss off r t : strings_ok d (offsets 8 ss) -> (off, t) ∈ offsets 8 ss ->
  loaded_strings d !! off = Some r -> exists o, Heap.string (objects (loader_memory d)) r = Ret o /\ str o = t.
Proof.
  intros Hs Hin Hr. destruct (Hs off t Hin) as (r' & Hr' & Hc). simplify_eq.
  exists (mkString t (Hash.hash_string t)). split; [|done]. unfold Heap.string, Heap.read. by rewrite Hc.
Qed.

Lemma image_ok_known d ss os ims id im : strings_ok d (offsets 8 ss) ->
  Z.of_nat (length (block_of ss)) + 8 < 2 ^ 32 - 1 -> Z.of_nat (length os) <= 65535 -> length ims = length os ->
  image_ok (objects m) ss os id im -> image_known d (length ims) id im.
Proof.
  intros Hs Hsize Hmany Hlen [(r & fn & Hid & Hr & (o & Ho & Hname) & Ha & Hu & Hc & Hl & Hcon)].
  destruct (Hstorable r fn Hr) as [S1 S2 S3 S4 S5].
  assert (Hoff : forall off t, (off, t) ∈ offsets 8 ss -> 0 <= off < 2 ^ 32 - 1).
  { intros off t Hin. apply offsets_range in Hin. lia. }
  assert (Hstr : forall off t, (off, t) ∈ offsets 8 ss -> is_Some (loaded_strings d !! off)).
  { intros off t Hin. destruct (Hs off t Hin) as (x & Hx & _). by exists x. }
  assert (Hpool : length (image_constants im) = length (value_array (chunk fn))).
  { apply Forall2_length in Hcon. by rewrite length_fmap in Hcon. }
  constructor.
  - constructor; rewrite ?Ha, ?Hu, ?Hl, ?Hpool; try done.
    + apply Hoff in Hname. unfold is_u32. lia.
    + clear -Hcon S4 Hoff Hmany. revert S4. induction Hcon as [|v c vs cs Hvc _ IH]; [constructor|].
      intros [Hv Hvs]%Forall_cons. apply Forall_cons_2; [|by apply IH].
      destruct c as [|b|bits|i|off|i]; cbn in *; try done.
      * destruct Hvc as (x & -> & Hx). by apply (packed_real x).
      * by subst v.
      * destruct Hvc as (x & ox & _ & _ & Hin). by apply Hoff in Hin.
      * destruct Hvc as (x & _ & Hx & _). apply lookup_lt_Some in Hx. lia.
  - by eapply Hstr.
  - rewrite Hlen. clear -Hcon Hstr. induction Hcon as [|v c vs cs Hvc _ IH]; [constructor|]. apply Forall_cons_2; [|done].
    destruct c as [|b|bits|i|off|i]; cbn in *; try done.
    + destruct Hvc as (x & ox & _ & _ & Hin). by eapply Hstr.
    + destruct Hvc as (x & _ & Hx & Hi). apply lookup_lt_Some in Hx. lia.
Qed.

Lemma loaded_same d ss os ims : strings_ok d (offsets 8 ss) ->
  (forall i im, ims !! i = Some im -> image_ok (objects m) ss os i im) -> length ims = length os ->
  loaded_from debug d ims 0 ->
  forall n i r r' , (length ims - i <= n)%nat -> os !! i = Some r -> loaded_functions d !! Z.of_nat i = Some r' ->
  same_function (objects m) (objects (loader_memory d)) debug r r'.
Proof.
  intros Hs Hok Hlen Hfrom. induction n as [|n IH]; intros i r r' Hn Hr Hr'.
  { apply lookup_lt_Some in Hr. lia. }
  destruct (lookup_lt_is_Some_2 ims i) as [im Him]; [rewrite Hlen; by eapply lookup_lt_Some|].
  destruct (Hok i im Him) as [(x & fn & Hx & Hfn & (o & Ho & Hname) & Ha & Hu & Hc & Hl & Hcon)]. simplify_eq.
  destruct (from_loaded _ _ _ _ Hfrom i im (Nat.le_0_l i) Him) as (r2 & fn' & [L1 L2 L3 L4 L5 L6 L7 L8]). simplify_eq.
  apply (same_code _ _ _ _ _ fn fn'); try congruence.
  - unfold Heap.function, Heap.read. by rewrite L2.
  - destruct (loaded_string d ss _ _ _ Hs Hname L3) as (o' & Ho' & E). by exists o, o'.
  - rewrite L7. by destruct debug; rewrite ?Hl.
  - assert (Hst : Forall storable_constant (data <$> value_array (chunk fn))) by apply (Hstorable r fn Hfn).
    clear L7 L6 L5 L4. revert L8 Hst. generalize (data <$> value_array (chunk fn')). 
    induction Hcon as [|v c vs cs Hvc _ IHc]; intros ws Hw Hst.
    { apply Forall2_nil_inv_l in Hw as ->. constructor. }
    apply Forall2_cons_inv_l in Hw as (w & ws' & Hw & Hws & ->). apply Forall_cons in Hst as [Hv Hst].
    constructor; [|by apply IHc]. clear IHc Hst Hws.
    destruct c as [|b|bits|j|off|j]; cbn in Hvc, Hw; try (subst v w; constructor).
    + destruct Hvc as (x & -> & Hx). cbn in Hv. destruct (packed_real x bits Hv Hx) as [_ Hu']. rewrite Hw, Hu'. constructor.
    + destruct Hvc as (x & ox & -> & Hox & Hin). destruct Hw as (y & Hy & ->). constructor.
      destruct (loaded_string d ss _ _ _ Hs Hin Hy) as (o' & Ho' & E). by exists ox, o'.
    + destruct Hvc as (x & -> & Hx & Hij). destruct Hw as (y & Hy & ->). apply same_object.
      apply (IH j x y); [lia|done|done].
Qed.

End loaded.

(** *** Globals *)

Lemma names_texts m p ss (entries : list (positive * GlobalValue)) gs : inv m p ->
  Forall2 (global_ok (objects m) ss) entries gs ->
  exists ts, Forall2 (fun (g : Z * bool) t => (g.1, t) ∈ offsets 8 ss) gs ts /\
    Forall2 (fun r t => exists o, Heap.string (objects m) r = Ret o /\ str o = t) entries.*1 ts /\
    gs.*2 = is_const <$> entries.*2.
Proof.
  intros Hi. induction 1 as [|[r v] [off b] entries gs [Hb (o & Ho & Hin)] _ (ts & H1 & H2 & H3)].
  { exists []. by split_and!. }
  exists (str o :: ts). cbn in *. split_and!; [by constructor| |congruence]. constructor; [by exists o|done].
Qed.

Lemma texts_NoDup m p rs ts : inv m p -> NoDup rs ->
  Forall2 (fun r t => exists o, Heap.string (objects m) r = Ret o /\ str o = t) rs ts -> NoDup ts.
Proof.
  intros Hi Hnd Hts. apply NoDup_alt. intros i j t Hit Hjt.
  destruct (Forall2_lookup_r _ _ _ _ _ Hts Hit) as (r & Hr & o & Ho & E).
  destruct (Forall2_lookup_r _ _ _ _ _ Hts Hjt) as (r' & Hr' & o' & Ho' & E').
  assert (r = r') as <- by (apply (same_string_ref m p r r' o o' Hi Ho Ho'); congruence).
  by eapply NoDup_lookup.
Qed.

Lemma texts_no_nul m p ss : inv m p ->
  Forall (fun t => exists r o, Heap.string (objects m) r = Ret o /\ str o = t) ss -> Forall no_nul ss.
Proof. intros Hi Hss. eapply Forall_impl; [exact Hss|]. intros t (r & o & Ho & <-). by apply (heap_string m p r o Hi). Qed.

(** *** Loading *)

Definition turned d (b : bool) : Deserializer := Deserializer.disable_gc d b.

Lemma turned_inv d b p : inv (loader_memory d) p -> inv (loader_memory (turned d b)) p.
Proof. intros [[] Hp]. split; [by constructor|done]. Qed.

Lemma empty_globals d : loader_context d = Context.empty -> globals_are d [] [].
Proof.
  intros E. constructor; rewrite E; [|by constructor|done]. exists ∅. split.
  - constructor; cbn; [|done|done|by intros r ?%not_elem_of_nil|done|constructor].
    apply (@empty_repr _ _ (string_key (objects (loader_memory d))) (fun k => k <> None)).
  - intros r. rewrite lookup_empty. by intros [].
Qed.

Lemma globals_are_same d d' ts flags : keeps d d' -> loader_context d' = loader_context d ->
  globals_are d ts flags -> globals_are d' ts flags.
Proof.
  intros [Hl Ho _] Hc [(g & Hok & Honly) Hn Hv]. constructor; rewrite Hc.
  - exists g. split; [|done]. eapply globals_heap; [done|]. intros r s _. unfold Heap.string, Heap.read.
    destruct (objects (loader_memory d) !! r) as [c|] eqn:Ec; [|done]. by rewrite (lookup_weaken _ _ _ _ Ec Ho).
  - eapply Forall2_impl; [exact Hn|]. intros r t Hr. cbn in Hr |- *. exact (lookup_weaken _ _ _ _ Hr Ho).
  - done.
Qed.

Record program_storable m (context : Context) (bc : SerializedBytecode) : Prop := {
  program_inv : exists p, inv m p;
  program_functions : forall r fn, Heap.function (objects m) r = Ret fn -> storable fn;
  program_names : NoDup (names context);
  program_globals : length (names context) = length (globals context);
  program_small : Z.of_nat (length (Bytes.globals bc)) < 8 * 65535;
  program_size : Z.of_nat (length (bytecode bc)) < 2 ^ 32 - 1
}.

(** A machine that has no globals yet. *)
Record fresh_loader d : Prop := {
  fresh_memory : exists p, inv (loader_memory d) p;
  fresh_context : loader_context d = Context.empty
}.

Lemma written_block h debug f context bc ss os ims gs : written h debug f context bc ss os ims gs ->
  Z.of_nat (length (strings bc)) = 8 + Z.of_nat (length (block_of ss)) /\
  8 + Z.of_nat (length (block_of ss)) < 2 ^ 32 - 1 /\
  exists count, is_u32 count /\ strings bc = strings_header count (8 + Z.of_nat (length (block_of ss))) ++ block_of ss.
Proof.
  intros Hw. pose proof (written_size _ _ _ _ _ _ _ _ _ Hw). destruct (written_strings _ _ _ _ _ _ _ _ _ Hw) as (count & Hc & E).
  fold (strings_header count (8 + Z.of_nat (length (block_of ss)))) in E.
  assert (Hlen : Z.of_nat (length (strings bc)) = 8 + Z.of_nat (length (block_of ss))).
  { rewrite E, length_app, length_strings_header. lia. }
  split; [done|]. split; [lia|]. by exists count.
Qed.

(** The three blocks, one after the other. *)
Lemma load_strings m context bc debug f ss os ims gs d : program_storable m context bc ->
  written (objects m) debug f context bc ss os ims gs -> loading (loader_memory d) -> loaded_strings d = ∅ ->
  let load := Deserializer.deserialize_strings roots (strings bc) (Z.of_nat (length (strings bc))) d in
  load = Throw HashMap.too_large \/
  exists d', load = Ret (tt, d') /\ keeps d d' /\ strings_ok d' (offsets 8 ss) /\
    loader_context d' = loader_context d /\ loaded_functions d' = loaded_functions d.
Proof.
  intros Hp Hw Hl He. destruct (written_block _ _ _ _ _ _ _ _ _ Hw) as (Hlen & Hsize & count & Hc & E).
  destruct (program_inv _ _ _ Hp) as [p Hi].
  cbv zeta. rewrite Hlen, E. apply deserialize_strings_ok; try done; [apply Hw|].
  apply (texts_no_nul m p); [done|apply Hw].
Qed.

Lemma load_globals m context bc debug f ss os ims gs d : program_storable m context bc ->
  written (objects m) debug f context bc ss os ims gs -> strings_ok d (offsets 8 ss) ->
  loader_context d = Context.empty ->
  let load := Deserializer.deserialize_global_table (Bytes.globals bc) (Z.of_nat (length (Bytes.globals bc))) d in
  load = Throw HashMap.too_large \/
  exists d' ts, load = Ret (tt, d') /\ globals_are d' ts (is_const <$> globals context) /\ same_objects d d' /\
    Forall2 (fun r t => exists o, Heap.string (objects m) r = Ret o /\ str o = t) (names context) ts.
Proof.
  intros Hp Hw Hs Hctx. destruct (program_inv _ _ _ Hp) as [p Hi].
  destruct (written_names _ _ _ _ _ _ _ _ _ Hw) as [Hgs Hlgs].
  destruct (names_texts m p ss _ gs Hi Hgs) as (ts & H1 & H2 & H3).
  pose proof (program_globals _ _ _ Hp) as Hlen. pose proof (program_small _ _ _ Hp) as Hsmall.
  rewrite fst_zip in H2 by lia. rewrite snd_zip in H3 by lia.
  rewrite (written_globals _ _ _ _ _ _ _ _ _ Hw), <-Hlgs in Hsmall |- *. cbv zeta.
  destruct (deserialize_globals_ok gs ts d (offsets 8 ss)) as [E|(d' & E & Hare & Hsame)]; [done|done|done| | | |by left|].
  - destruct (written_block _ _ _ _ _ _ _ _ _ Hw) as (_ & Hsize & _).
    clear -H1 Hsize. induction H1 as [|g t gs ts Hin _ IH]; [constructor|]. apply Forall_cons_2; [|done].
    apply offsets_range in Hin. unfold is_u32. lia.
  - apply (texts_NoDup m p (names context)); [done|apply Hp|done].
  - by apply empty_globals.
  - right. exists d', ts. rewrite <-H3. done.
Qed.

Lemma load_chunks m context bc debug f ss os ims gs d : program_storable m context bc ->
  written (objects m) debug f context bc ss os ims gs -> strings_ok d (offsets 8 ss) ->
  loading (loader_memory d) -> loaded_functions d = ∅ ->
  exists d' f', Deserializer.deserialize_chunks roots (bytecode bc) (Z.of_nat (length (bytecode bc))) d = Ret (tt, d') /\
    keeps d d' /\ loader_context d' = loader_context d /\ loaded_functions d' !! 0 = Some f' /\
    same_function (objects m) (objects (loader_memory d')) debug f f'.
Proof.
  intros Hp Hw Hs Hl He. destruct (program_inv _ _ _ Hp) as [p Hi].
  destruct (written_count _ _ _ _ _ _ _ _ _ Hw) as (_ & Hlen & Hmany).
  destruct (written_block _ _ _ _ _ _ _ _ _ Hw) as (_ & Hsize & _).
  pose proof (program_size _ _ _ Hp) as Hbytes. rewrite (written_chunks _ _ _ _ _ _ _ _ _ Hw) in Hbytes |- *.
  destruct (deserialize_chunks_ok roots debug ims d) as (d' & E & K & C & L); [done|lia|done| |done|].
  { intros i im Him. eapply (image_ok_known m (program_functions _ _ _ Hp)); [done|lia|done|done|by apply Hw]. }
  pose proof (written_main _ _ _ _ _ _ _ _ _ Hw) as Hmain.
  destruct (lookup_lt_is_Some_2 ims 0) as [im Him]; [rewrite Hlen; by eapply lookup_lt_Some|].
  destruct (from_loaded _ _ _ _ L 0%nat im (Nat.le_refl 0) Him) as (f' & fn & Hf).
  exists d', f'. split; [done|]. split; [done|]. split; [done|]. split; [apply Hf|].
  eapply (loaded_same debug m (program_functions _ _ _ Hp)); [by eapply keeps_strings_ok|apply Hw|done|done| |done|apply Hf].
  done.
Qed.

Lemma program_loads m f context debug bc s d : program_storable m context bc -> fresh_loader d ->
  Serializer.serialize_program (objects m) f context (Serializer.new_serializer debug) = Ret (bc, s) ->
  Deserializer.deserialize_program roots bc d = Throw HashMap.too_large \/
  exists f' d', Deserializer.deserialize_program roots bc d = Ret (f', d') /\
    same_function (objects m) (objects (loader_memory d')) debug f f' /\
    same_globals (objects m) (objects (loader_memory d')) context (loader_context d') /\
    objects (loader_memory d) ⊆ objects (loader_memory d') /\
    (exists q, inv (loader_memory d') q) /\ gc_disabled (loader_memory d') = false.
Proof.
  intros Hp [[p0 Hd] Hctx] Hser.
  apply (serialize_program_written _ debug) in Hser as (ss & os & ims & gs & Hw); [|done].
  unfold Deserializer.deserialize_program. rewrite !(M_bind_run _ _ _ _ _ (modify_run _ _)). cbv beta.
  set (d1 := Deserializer.disable_gc _ true).
  assert (Hl1 : loading (loader_memory d1)).
  { constructor; [done|]. exists p0. apply turned_inv. done. }
  rewrite (proj2 (Z.leb_gt (2 ^ 32 - 1) (Z.of_nat (length (strings bc))))) by apply Hw.
  destruct (load_strings m context bc debug f ss os ims gs d1 Hp Hw Hl1 eq_refl) as [E|(d2 & E & K2 & S2 & C2 & F2)].
  { left. by apply M_bind_throw. }
  rewrite (M_bind_run _ _ _ _ _ E). clear E.
  rewrite (proj2 (Z.leb_gt (8 * 65535) (Z.of_nat (length (Bytes.globals bc))))) by apply Hp.
  destruct (load_globals m context bc debug f ss os ims gs d2 Hp Hw S2 ltac:(by rewrite C2)) as [E|(d3 & ts & E & G3 & (M3 & S3 & F3) & Hts)].
  { left. by apply M_bind_throw. }
  rewrite (M_bind_run _ _ _ _ _ E). clear E.
  rewrite (proj2 (Z.leb_gt (2 ^ 32 - 1) (Z.of_nat (length (bytecode bc))))) by apply Hp.
  assert (K3 : keeps d2 d3) by (constructor; rewrite ?M3, ?S3; [apply K2|done..]).
  destruct (load_chunks m context bc debug f ss os ims gs d3 Hp Hw) as (d4 & f' & E & K4 & C4 & Hf & Hsame);
    [by eapply keeps_strings_ok|apply K3|by rewrite F3, F2|].
  rewrite (M_bind_run _ _ _ _ _ E), (M_bind_run get _ d4 d4 d4 eq_refl), Hf. clear E.
  right. exists f'. eexists. split; [done|]. destruct (keeps_loading _ _ K4) as [_ [q Hq]].
  split; [exact Hsame|]. split; [|split; [|by split; [exists q; apply turned_inv|]]].
  - pose proof (globals_are_same d3 d4 ts _ K4 C4 G3) as [_ Hn Hv]. split; [|exact Hv]. cbn.
    clear -Hts Hn. revert Hn. generalize (names (loader_context d4)).
    induction Hts as [|r t rs ts (o & Ho & E) _ IH]; intros rs' Hn.
    + apply Forall2_nil_inv_r in Hn as ->. constructor.
    + apply Forall2_cons_inv_r in Hn as (r' & rs2 & Hr' & Hn & ->). constructor; [|by apply IH].
      exists o, (mkString t (Hash.hash_string t)). split_and!; [done| |done]. unfold Heap.string, Heap.read. by rewrite Hr'.
  - cbn. etrans; [apply (keeps_objects _ _ K2)|]. etrans; [apply (keeps_objects _ _ K3)|]. apply (keeps_objects _ _ K4).
Qed.

(** C5. A program survives its bytecode file. If the serializer accepts a compiled program whose
    functions the format can hold (counts, arities and line numbers that fit their fields, so fewer than
    65536 constants, none of them a real number other than positive zero and the normal ones), with fewer than 65535 globals, and the output has less than
    4 GiB, then loading it into a fresh machine never reports damage
    and never reads out of bounds: either a string or global table grows beyond what the machine can
    allocate, or the loaded main function is the same program as the one written: names, arities,
    captures, code, constants and (if they were written) line tables agree, function by function
    through the constant pools, and the globals have the same names at the same indices. The loader
    adds objects to the machine and changes none, and switches the collector back on. *)
Theorem program_roundtrip m f context debug bc s d : program_storable m context bc -> fresh_loader d ->
  Serializer.serialize_program (objects m) f context (Serializer.new_serializer debug) = Ret (bc, s) ->
  Deserializer.deserialize_program roots bc d = Throw HashMap.too_large \/
  exists f' d', Deserializer.deserialize_program roots bc d = Ret (f', d') /\
    same_function (objects m) (objects (loader_memory d')) debug f f' /\
    same_globals (objects m) (objects (loader_memory d')) context (loader_context d') /\
    objects (loader_memory d) ⊆ objects (loader_memory d') /\
    (exists q, inv (loader_memory d') q) /\ gc_disabled (loader_memory d') = false.
Proof. apply program_loads. Qed.
End program.

(** ** The serializer ends

    Its recursion follows the constants of functions, whatever they are: also a function that contains
    itself uses up the chunk ids. *)

Section ends.
Context (h : heap).
Context (Hreal : forall r fn v d, Heap.function h r = Ret fn -> v ∈ value_array (chunk fn) ->
  data v = NUMBER_REAL d -> finite_real d).
Implicit Types (s : Serializer).

Section counting.
Context (low : Z).

(** With [low] chunk ids taken the computation ends; if it succeeds no chunk id was given back. *)
Definition counts_up {A} (m : M Serializer A) : Prop := forall s, 0 <= chunk_counter s -> low <= chunk_counter s <= 65535 ->
  match m s with
  | Ret (_, s') => chunk_counter s <= chunk_counter s' <= 65535
  | OutOfFuel => False
  | _ => True
  end.

Lemma counts_bind {A B} (m : M Serializer A) (f : A -> M Serializer B) :
  counts_up m -> (forall a, counts_up (f a)) -> counts_up (m ≫= f).
Proof.
  intros Hm Hf s Hp Hs. specialize (Hm s Hp Hs). unfold mbind, M_bind. destruct (m s) as [[a s1]| | |]; try done.
  specialize (Hf a s1 ltac:(lia) ltac:(lia)). destruct (f a s1) as [[b s2]| | |]; try done. lia.
Qed.

Lemma counts_ret {A} (a : A) : counts_up (mret a).
Proof. intros s Hp Hs. cbn. lia. Qed.
Lemma counts_get : counts_up get.
Proof. intros s Hp Hs. cbn. lia. Qed.
Lemma counts_throw {A} e : @counts_up A (throw e).
Proof. done. Qed.
Lemma counts_lift {A} (o : outcome A) : terminates o -> counts_up (lift o).
Proof. intros Ho s Hp Hs. unfold lift. destruct o; try done. cbn. lia. Qed.

Lemma read_terminates r : terminates (Heap.read h r).
Proof. unfold Heap.read. by destruct (content <$> h !! r). Qed.

Lemma cast_terminates {A} (f : Object -> outcome A) r : (forall o, terminates (f o)) -> terminates (o ← Heap.read h r; f o).
Proof. intros Hf. unfold Heap.read. destruct (content <$> h !! r); cbn; [apply Hf|done]. Qed.

Lemma string_terminates r : terminates (Heap.string h r).
Proof. by apply cast_terminates; intros []. Qed.
Lemma function_terminates r : terminates (Heap.function h r).
Proof. by apply cast_terminates; intros []. Qed.

(** Steps on the state [s] that was just read. *)
Lemma counts_get_then {B} (f : Serializer -> M Serializer B) :
  (forall s, 0 <= chunk_counter s -> low <= chunk_counter s <= 65535 ->
    match f s s with Ret (_, s') => chunk_counter s <= chunk_counter s' <= 65535 | OutOfFuel => False | _ => True end) ->
  counts_up (get ≫= f).
Proof. intros Hf s Hp Hs. exact (Hf s Hp Hs). Qed.

Lemma counts_string r : counts_up (Serializer.serialize_string h r).
Proof.
  apply counts_get_then. intros s Hp Hs. destruct (strings_offset s !! r); [cbn; lia|].
  pose proof (string_terminates r) as Ht. unfold lift. unfold mbind at 1, M_bind at 1.
  destruct (Heap.string h r); try done. cbn [mbind outcome_bind].
  destruct (_ <? _); [done|]. cbv zeta. destruct (_ <=? _); [done|]. unfold mbind, M_bind. cbn. lia.
Qed.

Lemma counts_append id bytes : counts_up (Serializer.append_chunk id bytes).
Proof. intros s Hp Hs. cbn. lia. Qed.

Lemma counts_header fn id : counts_up (Serializer.write_chunk_header h fn id).
Proof.
  apply counts_bind; [apply counts_string|]. intros i. apply counts_bind; [apply counts_get|]. intros s. by apply counts_ret.
Qed.


Lemma real_terminates d : finite_real d -> terminates (encode_double d).
Proof.
  intros Hd%pack_ends. unfold terminates, encode_double in *. by destruct (pack754 d).
Qed.

Lemma counts_constant call v : (forall r, counts_up (call r)) ->
  (forall d, data v = NUMBER_REAL d -> finite_real d) -> counts_up (Serializer.write_constant h call v).
Proof.
  intros Hcall Hv. unfold Serializer.write_constant. destruct (data v) as [|b|d|i|r]; [apply counts_ret..| | |].
  - apply counts_bind; [by apply counts_lift, real_terminates, Hv|]. intros bytes. apply counts_ret.
  - apply counts_ret.
  - apply counts_bind; [apply counts_lift; unfold Heap.read; by destruct (content <$> h !! r)|].
    intros []; try apply counts_throw; (apply counts_bind; [first [apply counts_string|apply Hcall]|intros; apply counts_ret]).
Qed.

Lemma counts_pool call vs : (forall r, counts_up (call r)) ->
  (forall v d, v ∈ vs -> data v = NUMBER_REAL d -> finite_real d) ->
  counts_up (Serializer.write_constant_pool h call vs).
Proof.
  intros Hcall. induction vs as [|v vs IH]; intros Hvs; [apply counts_ret|].
  apply counts_bind; [apply counts_constant; [done|]; intros d; apply Hvs; by left|]. intros entry.
  apply counts_bind; [apply IH; intros v' d Hin; apply Hvs; by right|]. intros entries. apply counts_ret.
Qed.

End counting.

(** Every call takes a chunk id, so the fuel of one for each id is enough. *)
Lemma function_counts fuel : forall r, counts_up (65536 - Z.of_nat fuel) (Serializer.serialize_function h fuel r).
Proof.
  induction fuel as [|fuel IH]; intros r; [intros s Hp Hs; lia|].
  cbn [Serializer.serialize_function]. intros s Hp Hs. rewrite (M_bind_run get _ s s s eq_refl).
  destruct (Z.eqb_spec (chunk_counter s) 65535) as [|Hne]; [done|]. cbv zeta.
  rewrite (M_bind_run (put _) _ s tt (Serializer.set_chunks s (chunks s ++ [[]]) (u32 (chunk_counter s + 1))) eq_refl).
  assert (Hu : u32 (chunk_counter s + 1) = chunk_counter s + 1) by (apply u32_small; unfold is_u32; lia).
  set (s1 := Serializer.set_chunks _ _ _). assert (Hs1 : chunk_counter s1 = chunk_counter s + 1) by exact Hu. clearbody s1.
  cut (forall m : M Serializer Z, counts_up (65536 - Z.of_nat fuel) m -> match m s1 with
    | Ret (_, s') => chunk_counter s <= chunk_counter s' <= 65535 | OutOfFuel => False | _ => True end).
  - intros Hm. apply Hm. clear Hm.
    intros s2 Hp2 Hs2. pose proof (function_terminates r) as Ht. unfold lift at 1. unfold mbind at 1, M_bind at 1.
    destruct (Heap.function h r) as [fn| | |] eqn:Efn; try done. cbn [mbind outcome_bind].
    revert s2 Hp2 Hs2. change (counts_up (65536 - Z.of_nat fuel)
      (header ← Serializer.write_chunk_header h fn (chunk_counter s);
       Serializer.append_chunk (chunk_counter s) header ;;
       pool ← Serializer.write_constant_pool h (Serializer.serialize_function h fuel) (value_array (chunk fn));
       Serializer.append_chunk (chunk_counter s) pool ;;
       Serializer.append_chunk (chunk_counter s) (code (chunk fn)) ;;
       s' ← get;
       (if emit_debug_information s' then
          debug ← lift (Serializer.write_debug_information fn); Serializer.append_chunk (chunk_counter s) debug
        else mret tt) ;; mret (chunk_counter s))).
    apply counts_bind; [apply counts_header|]. intros header. apply counts_bind; [apply counts_append|]. intros _.
    apply counts_bind; [by apply counts_pool; [|intros; eapply Hreal]|]. intros pool.
    do 2 (apply counts_bind; [apply counts_append|]; intros _).
    apply counts_bind; [apply counts_get|]. intros s'. apply counts_bind; [|intros _; apply counts_ret].
    destruct (emit_debug_information s'); [|apply counts_ret]. apply counts_bind; [|intros; apply counts_append].
    apply counts_lift. unfold Serializer.write_debug_information. by case_match.
  - intros m Hm. specialize (Hm s1 ltac:(lia) ltac:(lia)). destruct (m s1) as [[a s2]| | |]; try done. lia.
Qed.

Lemma counts_entries low names vs : counts_up low (Serializer.symbol_entries h names vs).
Proof.
  revert vs. induction names as [|r names IH]; intros vs; [apply counts_ret|]. destruct vs as [|v vs]; [done|].
  apply counts_bind; [apply counts_string|]. intros i. apply counts_bind; [apply IH|]. intros es. apply counts_ret.
Qed.

Lemma counts_block_header low : counts_up low Serializer.write_string_block_header.
Proof. apply counts_get_then. intros s Hp Hs. destruct (_ <=? _); [done|]. cbn [put chunk_counter Serializer.set_strings]. lia. Qed.

(** C31. Writing a bytecode file ends when no constant of a function is infinite: its recursion through
    the constant pools stops at the latest at the limit on chunk ids, even if a function were its own
    constant, and the loops that normalise a number end on every finite one. (They never end on an
    infinity, and converting a NaN is undefined.) *)
Theorem serializer_ends f context s :
  terminates (Serializer.serialize_program h f context s).
Proof.
  assert (Hfuel : Z.of_nat Serializer.function_fuel = 65536) by by apply Z2Nat.id.
  unfold Serializer.serialize_program. revert Hfuel. generalize Serializer.function_fuel. intros fuel Hfuel.
  rewrite (M_bind_run _ _ _ _ _ (modify_run _ _)). cbv beta. set (s0 := mkSerializer _ _ _ _ _ _).
  cut (forall m : M Serializer SerializedBytecode, counts_up 0 m -> terminates (m s0)).
  - intros Hm. apply Hm.
    apply counts_bind; [replace 0 with (65536 - Z.of_nat fuel) by lia; apply function_counts|]. intros id.
    case_match; [done|]. apply counts_bind.
    { apply counts_bind; [apply counts_entries|]. intros es. apply counts_ret. }
    intros globals. apply counts_bind; [apply counts_block_header|]. intros _. apply counts_get_then. intros s1 Hp Hs.
    unfold mbind, M_bind, put, mret, M_ret. cbn [chunk_counter Serializer.set_strings]. lia.
  - intros m Hm. specialize (Hm s0 ltac:(done) ltac:(done)). by destruct (m s0) as [[]| | |].
Qed.

End ends.

(** ** Damaged files *)

Lemma read_past buffer offset size : Z.of_nat (length buffer) < offset + size ->
  read buffer offset (Z.to_nat size) = Undef "read past the end of a buffer".
Proof. intros Hs. unfold read. rewrite decide_False; [done|]. lia. Qed.

Lemma M_bind_undef {S A B} (m : M S A) (f : A -> M S B) s e : m s = Undef e -> (m ≫= f) s = Undef e.
Proof. intros E. unfold mbind, M_bind. by rewrite E. Qed.

Lemma strings_loop_wraps `{Platform} roots fuel buffer size offset n d : offset < size -> u32 (offset + 4) <= size ->
  decode_le buffer offset 4 = Ret n -> u32 (u32 (offset + 4) + n) <= size ->
  Z.of_nat (length buffer) < u32 (offset + 4) + n ->
  Deserializer.strings_loop roots (S fuel) buffer size offset d = Undef "read past the end of a buffer".
Proof.
  intros H1 H2 E H3 H4. cbn [Deserializer.strings_loop].
  rewrite (proj2 (Z.ltb_lt _ _) H1), (proj2 (Z.ltb_ge _ _) H2), (M_bind_run _ _ _ _ _ (lift_run _ _ d E)). cbv zeta.
  rewrite (proj2 (Z.ltb_ge _ _) H3). apply M_bind_undef. unfold lift. by rewrite read_past.
Qed.

(** One string, whose length makes the 32-bit sum of the bounds check wrap around to zero. *)
Definition wrapping_block : list Z := strings_header 1 12 ++ encode_le 4 (2 ^ 32 - 12).

(** C32. The bounds checks of the loader can be passed by a length that is too large: [offset +
    current_string_length > size] is computed in 32 bits. A string block of twelve bytes whose only
    length is [2^32 - 12] is not reported: the loader takes a string that starts at the end of the
    block and covers almost four gigabytes behind it. *)
Theorem loader_trusts_lengths `{Platform} roots d :
  Forall is_u8 wrapping_block /\ length wrapping_block = 12%nat /\
  Deserializer.deserialize_strings roots wrapping_block 12 d = Undef "read past the end of a buffer".
Proof.
  split; [by_compute|]. split; [reflexivity|].
  assert (E1 : decode wrapping_block 0 [4; 4]%nat = Ret [1; 12]) by (vm_compute; reflexivity).
  assert (E2 : decode_le wrapping_block 8 4 = Ret (2 ^ 32 - 12)) by (vm_compute; reflexivity).
  assert (Hl : length wrapping_block = 12%nat) by reflexivity.
  assert (Hloop : forall fuel, Deserializer.strings_loop roots (S fuel) wrapping_block 12 8 d = Undef "read past the end of a buffer").
  { intros fuel. apply (strings_loop_wraps roots fuel wrapping_block 12 8 (2 ^ 32 - 12) d); [| |exact E2| |rewrite Hl]; by vm_compute. }
  revert E1 Hl Hloop. generalize wrapping_block. intros buffer E1 Hl Hloop.
  unfold Deserializer.deserialize_strings. rewrite (proj2 (Z.ltb_ge 12 8)) by done.
  rewrite (M_bind_run _ _ _ _ _ (lift_run _ _ d E1)). rewrite Z.eqb_refl, Hl. apply Hloop.
Qed.

(** ** Witnesses *)

(** A function that is its own constant: the limit on ids stops the recursion. *)
Definition own_constant : heap :=
  {[1%positive := mkCell false (ObjFunction (mkFunction 0 0 (mkChunk [] [mkValue false (OBJECT 1%positive)] []) 1%positive))]}.

Lemma serializer_ends_witness :
  terminates (Serializer.serialize_program own_constant 1%positive Context.empty (Serializer.new_serializer false)).
Proof.
  apply (serializer_ends own_constant). intros r fn v d Hr Hv Hd. unfold Heap.function, Heap.read, own_constant in Hr.
  destruct (decide (1%positive = r)) as [<-|Hne].
  - rewrite lookup_singleton_eq in Hr. injection Hr as <-. cbn in Hv. apply list_elem_of_singleton in Hv as ->. discriminate Hd.
  - rewrite lookup_singleton_ne in Hr by exact Hne. discriminate Hr.
Defined.

#[global] Instance normal_dec s m e : Decision (normal s m e).
Proof. unfold normal. apply _. Defined.
#[global] Instance storable_real_dec d : Decision (storable_real d).
Proof. destruct d; cbn; apply _. Defined.
#[global] Instance storable_constant_dec v : Decision (storable_constant v).
Proof. destruct v; cbn; apply _. Defined.
#[global] Instance line_fits_dec line : Decision (line_fits line).
Proof. unfold line_fits, is_i32. apply _. Defined.
#[global] Instance storable_dec fn : Decision (storable fn).
Proof.
  refine (cast_if (decide (is_u8 (arity_ fn) /\ is_u16 (upvalue_count_ fn) /\
    Z.of_nat (length (value_array (chunk fn))) < 2 ^ 16 /\ Forall storable_constant (data <$> value_array (chunk fn)) /\
    Forall line_fits (lines (chunk fn))))); [by constructor; destruct_and?|by intros []; tauto].
Defined.

(** The functions of a heap, as [storable] takes them. *)
Definition storable_object (o : Object) : Prop :=
  match o with ObjFunction fn => storable fn | _ => True end.
#[global] Instance storable_object_dec o : Decision (storable_object o).
Proof. destruct o; cbn; apply _. Defined.

Lemma heap_storable h : map_Forall (fun _ c => storable_object (content c)) h ->
  forall r fn, Heap.function h r = Ret fn -> storable fn.
Proof.
  intros Hh r fn Hr. unfold Heap.function, Heap.read in Hr. destruct (h !! r) as [c|] eqn:Ec; [|done].
  specialize (Hh r c Ec). cbn in Hh, Hr. destruct (content c); try done. cbn in Hr. by injection Hr as ->.
Qed.

Definition stored_source : list ascii :=
  String.list_ascii_of_string "const k = 7; var s = " ++ double_quote :: String.list_ascii_of_string "text" ++ double_quote ::
  String.list_ascii_of_string "; fun f(a) { fun g() { return a + 1.5; } return g; } class C { m() { return nil; } } echo f(41)();".

Definition stored_program : outcome ((option ref * Compiler.InterpretResult) * world) :=
  Compiler.compile_source default_vm_opts stored_source.

Definition new_machine : Deserializer := mkDeserializer ∅ ∅ (Memory.initial default_vm_opts) Context.empty.

(** The program compiles, the format can hold it, and it is loaded again. *)
Definition stored_check : bool :=
  match stored_program with
  | Ret ((Some f, _), w) =>
      bool_decide (map_Forall (fun _ c => storable_object (content c)) (objects (memory w))) &&
      bool_decide (NoDup (names (context w))) && (length (names (context w)) =? length (globals (context w)))%nat &&
      match Serializer.serialize_program (objects (memory w)) f (context w) (Serializer.new_serializer true) with
      | Ret (bc, _) =>
          (Z.of_nat (length (Bytes.globals bc)) <? 8 * 65535) && (Z.of_nat (length (bytecode bc)) <? 2 ^ 32 - 1) &&
          match Deserializer.deserialize_program [] bc new_machine with Ret _ => true | _ => false end
      | _ => false
      end
  | _ => false
  end.

Lemma stored_source_ok : nul ∉ stored_source.
Proof. by_compute. Qed.

Lemma stored_memory r w : stored_program = Ret (r, w) -> exists p, inv (memory w) p.
Proof.
  unfold stored_program. intros E. pose proof (compile_source_runs default_vm_opts stored_source stored_source_ok) as Hrun.
  rewrite E in Hrun. apply Hrun.
Qed.

Lemma stored_checked : stored_check = true.
Proof. vm_compute. reflexivity. Qed.

Lemma stored_facts : exists f result w bc s, stored_program = Ret ((Some f, result), w) /\
  program_storable (memory w) (context w) bc /\
  Serializer.serialize_program (objects (memory w)) f (context w) (Serializer.new_serializer true) = Ret (bc, s) /\
  Deserializer.deserialize_program [] bc new_machine <> Throw HashMap.too_large.
Proof.
  pose proof stored_checked as Hc. pose proof stored_memory as Hm. revert Hc Hm. unfold stored_check.
  generalize stored_program. generalize new_machine. intros d P Hc Hm.
  destruct P as [[[[f|] result] w]| | |]; try discriminate Hc. specialize (Hm _ _ eq_refl).
  rewrite !andb_true_iff in Hc. destruct Hc as [[[Hh Hnd] Hlen] Hs].
  destruct (Serializer.serialize_program _ _ _ _) as [[bc s]| | |] eqn:Es; try discriminate Hs.
  rewrite !andb_true_iff in Hs. destruct Hs as [[Hg Hb] Hd].
  exists f, result, w, bc, s. split; [reflexivity|]. split; [|split; [exact Es|]].
  - constructor.
    + exact Hm.
    + exact (heap_storable _ (bool_decide_eq_true_1 _ Hh)).
    + exact (bool_decide_eq_true_1 _ Hnd).
    + exact (proj1 (Nat.eqb_eq _ _) Hlen).
    + exact (proj1 (Z.ltb_lt _ _) Hg).
    + exact (proj1 (Z.ltb_lt _ _) Hb).
  - intros E. rewrite E in Hd. discriminate Hd.
Qed.

Lemma program_roundtrip_witness : exists f result w bc s f' d', stored_program = Ret ((Some f, result), w) /\
  Serializer.serialize_program (objects (memory w)) f (context w) (Serializer.new_serializer true) = Ret (bc, s) /\
  Deserializer.deserialize_program [] bc new_machine = Ret (f', d') /\
  same_function (objects (memory w)) (objects (loader_memory d')) true f f' /\
  same_globals (objects (memory w)) (objects (loader_memory d')) (context w) (loader_context d').
Proof.
  destruct stored_facts as (f & result & w & bc & s & Ep & Hp & Es & Hne).
  assert (Hm : fresh_loader new_machine) by (constructor; [exists ∅; exact (initial_inv default_vm_opts)|reflexivity]).
  destruct (program_roundtrip [] (memory w) f (context w) true bc s new_machine Hp Hm Es)
    as [Hr|(f' & d' & Er & Hsame & Hglobals & _)]; [destruct (Hne Hr)|].
  exists f, result, w, bc, s, f', d'. exact (conj Ep (conj Es (conj Er (conj Hsame Hglobals)))).
Defined.
