(* ===== verification/Lox.v ===== *)
(** * The driver and the command line tools (include/lox.hpp, src/lox/lox.cpp, src/bin)

    The four modes of the driver, on the contents of files: running a source
    program or a bytecode file, compiling to a bytecode file, the
    read-eval-print loop, and [-c], which compiles, writes, loads and runs;
    [cpplox] chooses among them by its options, whose parser is vendored and
    gives a [ParseResult]. The tools [loxvm] and [loxcrc] work on the bytes of
    one file. Listings of tokens and of bytecode are left out. *)

From S2P Require Import Prelude Double HashMap Hash Platform Bytes Serializer Deserializer Opcode Token Lexer Parser Compiler Value Chunk Object Collections Memory Context VM Natives.

#[global] Instance InterpretResult_eq_dec : EqDecision Compiler.InterpretResult.
Proof. solve_decision. Defined.

Module Lox.
Section lox.
Context `{Platform, Environment}.
Import Compiler (InterpretResult, OK, COMPILE_ERROR, RUNTIME_ERROR).

(** [compile_and_execute]: the compiler object outlives the execution, so its function stays
    a root. With [compile_only] the program is not run. *)
Definition compile_and_execute (compile_only : bool) (fuel : nat) (src : list ascii) (w : machine)
    : outcome (InterpretResult * machine) :=
  it ← Lexer.cbegin src;
  p ← Parser.new_parser it (errors w);
  roots ← VM.vm_roots w;
  let live := (length roots - length (Context.global_roots (globals_ w)) - 1)%nat in
  let v := mkVmRoots (take live roots) [Some (constant_string_init (state w))] in
  '((obj, result), cw) ← Compiler.compile_program (mem w) (globals_ w) p (Some v);
  let w := mkMachine (memory cw) (context cw) (reporter (parser cw)) (state w) (output w) (stdin w)
             (compiled <$> compilers cw) in
  match obj with
  | Some f =>
      '(r, w) ← (if compile_only then Ret (OK, w) else VM.run Natives.call_native fuel f w);
      Ret (r, mkMachine (mem w) (globals_ w) (errors w) (state w) (output w) (stdin w) [])
  | None => Ret (result, mkMachine (mem w) (globals_ w) (errors w) (state w) (output w) (stdin w) [])
  end.

(** A new machine with its native functions, as [run_file] and [run_repl] make it. *)
Definition start (opts : VMOpts) (input : list string) : outcome machine :=
  w ← VM.new_vm (Memory.initial opts) Context.empty ErrorReporter.empty input;
  '(_, w) ← Natives.register_native_functions w;
  Ret w.

Definition set_gc_disabled (w : machine) (b : bool) : machine :=
  VM.set_mem w (loader_memory (Deserializer.disable_gc (mkDeserializer ∅ ∅ (mem w) (globals_ w)) b)).

(** [deserialize_program] into the machine's memory and globals. *)
Definition load (bc : SerializedBytecode) (w : machine) : outcome (ref * machine) :=
  roots ← VM.vm_roots w;
  '(f, d) ← Deserializer.deserialize_program roots bc (mkDeserializer ∅ ∅ (mem w) (globals_ w));
  Ret (f, VM.set_globals (VM.set_mem w (loader_memory d)) (loader_context d)).

(** Loading and running, as [run_file], [run_source] and [loxvm] do: the natives are registered after
    the globals of the program, while the collector is off. *)
Definition load_and_run (fuel : nat) (bc : SerializedBytecode) (w : machine) : outcome (bool * machine) :=
  '(f, w) ← load bc w;
  '(_, w) ← Natives.register_native_functions (set_gc_disabled w true);
  '(result, w) ← VM.run Natives.call_native fuel f (set_gc_disabled w false);
  Ret (ErrorReporter.has_error (errors w) || negb (bool_decide (result = OK)), w).

Definition new_machine (opts : VMOpts) (input : list string) : outcome machine :=
  VM.new_vm (Memory.initial opts) Context.empty ErrorReporter.empty input.

(** A file as the text of a program. *)
Definition source_of (file : list Z) : list ascii := (fun b => ascii_of_N (Z.to_N b)) <$> file.

(** [run_file]: the exit status and the final state. *)
Definition run_file (compile_only : bool) (fuel : nat) (opts : VMOpts) (file : list Z) (input : list string)
    : outcome (Z * machine) :=
  if FileHeader.is_compiled_lox_program file then
    w ← new_machine opts input;
    bc ← FileHeader.read file;
    '(failed, w) ← load_and_run fuel bc w;
    Ret (if failed : bool then 1 else 0, w)
  else
    w ← start opts input;
    '(_, w) ← compile_and_execute compile_only fuel (source_of file) w;
    Ret (if ErrorReporter.has_messages (errors w) then 1 else 0, w).

(** [compile_file]: the exit status, the messages shown and the file written. *)
Definition compile_file (opts : VMOpts) (emit_debug_information : bool) (file : list Z)
    : outcome (Z * list Message * option (list Z)) :=
  '((obj, result), cw) ← Compiler.compile_source opts (source_of file);
  if negb (bool_decide (result = OK)) then Ret (1, messages (reporter (parser cw)), None)
  else
    f ← or_undef "null pointer" obj;
    '(bc, _) ← Serializer.serialize_program (objects (memory cw)) f (context cw)
                 (Serializer.new_serializer emit_debug_information);
    output ← FileHeader.write bc;
    Ret (0, [], Some output).

(** [run_source], of the option [-c]. *)
Definition run_source (fuel : nat) (opts : VMOpts) (compile_only : bool) (src : list ascii) (input : list string)
    : outcome Z :=
  it ← Lexer.cbegin src;
  p ← Parser.new_parser it ErrorReporter.empty;
  '((obj, result), cw) ← Compiler.compile_program (Memory.initial opts) Context.empty p None;
  if negb (bool_decide (result = OK)) then Ret 1
  else
    f ← or_undef "null pointer" obj;
    '(bc, _) ← Serializer.serialize_program (objects (memory cw)) f (context cw) (Serializer.new_serializer true);
    w ← new_machine opts input;
    if compile_only then '(_, w) ← load bc w; '(_, _) ← Natives.register_native_functions (set_gc_disabled w true); Ret 0
    else '(failed, _) ← load_and_run fuel bc w; Ret (if failed : bool then 2 else 0).

(** One line of [run_repl]: the messages are shown and cleared, then the stacks. *)
Definition repl_line (compile_only : bool) (fuel : nat) (line : list ascii) (w : machine)
    : outcome (list Message * machine) :=
  '(_, w) ← compile_and_execute compile_only fuel line w;
  let shown := messages (errors w) in
  let w := if ErrorReporter.has_messages (errors w)
           then VM.set_errors w (ErrorReporter.clear (errors w)) else w in
  '(_, w) ← VM.clear_evaluation_stack w;
  '(_, w) ← VM.clear_frames w;
  Ret (shown, w).

(** [run_repl]: programs read their input from the same stream, so that each line read leaves less. *)
Fixpoint repl_loop (lines : nat) (compile_only : bool) (fuel : nat) (w : machine) : outcome (list (list Message) * machine) :=
  match stdin w, lines with
  | [], _ => Ret ([], w)
  | _ :: _, O => OutOfFuel
  | line :: input, S lines =>
      let w := VM.set_stdin w input in
      if decide (line = "exit"%string) then Ret ([], w)
      else if decide (line = ""%string) then repl_loop lines compile_only fuel w
      else
        '(shown, w) ← repl_line compile_only fuel (String.list_ascii_of_string line) w;
        '(more, w) ← repl_loop lines compile_only fuel w;
        Ret (shown :: more, w)
  end.

Definition run_repl (compile_only : bool) (fuel : nat) (opts : VMOpts) (input : list string) : outcome (list (list Message) * machine) :=
  w ← start opts input; repl_loop (length input) compile_only fuel w.

(** [loxvm]: an exception gives status 1 as well, unless the program asked to [exit]. *)
Definition loxvm (fuel : nat) (file : list Z) (input : list string) : outcome Z :=
  if negb (FileHeader.is_compiled_lox_program file) then Ret 1
  else
    match
      bc ← FileHeader.read file;
      w ← new_machine default_vm_opts input;
      '(failed, _) ← load_and_run fuel bc w;
      Ret (if failed : bool then 1 else 0)
    with
    | Throw e => Ret (default 1 (Natives.exit_status e))
    | r => r
    end.

(** *** cpplox (src/bin/cpplox.cpp) *)

(** What cxxopts makes of the command line. *)
Record ParseResult : Type := mkParseResult {
  count : string -> nat;
  as_bool : string -> bool;
  as_int : string -> Z;
  as_string : string -> string
}.

Definition given (r : ParseResult) (name : string) : bool := negb (Nat.eqb (count r name) 0).

(** The tests that end the program before anything is run, with the exit status. *)
Definition refused (r : ParseResult) : option Z :=
  if given r "help" then Some 0
  else if given r "version" then Some 0
  else if given r "output" && negb (given r "script") then Some 1
  else if given r "output" &&
    (given r "enable-step-mode" || given r "trace-execution" || given r "stress-gc" || given r "log-gc" ||
     given r "trace-eval-stack" || given r "eval-stack-size" || given r "display-mem-stats" ||
     given r "gc-initial-collection-threshold") then Some 1
  else if negb (given r "output") && given r "emit-debug-info" then Some 1
  else if given r "command" && (given r "emit-debug-info" || given r "output") then Some 1
  else None.

Definition vm_opts_of (r : ParseResult) : VMOpts :=
  mkVMOpts (as_int r "eval-stack-size") (frames_max default_vm_opts) (as_bool r "stress-gc")
    (gc_heap_grow_factor default_vm_opts) (as_int r "gc-initial-collection-threshold").

(** The body of [main] of cpplox: the exit status and the file written. [parsed] is the result of cxxopts,
    which throws at options it does not know; [files] are the contents of the regular files. *)
Definition cpplox_body (fuel : nat) (parsed : outcome ParseResult) (files : string -> option (list Z)) (input : list string)
    : outcome (Z * option (string * list Z)) :=
  r ← parsed;
  match refused r with
  | Some status => Ret (status, None)
  | None =>
      let opts := vm_opts_of r in
      let compile_only := as_bool r "compile-only" in
      if given r "command" then
        status ← run_source fuel opts compile_only (String.list_ascii_of_string (as_string r "command")) input;
        Ret (status, None)
      else if negb (given r "script") then '(_, _) ← run_repl compile_only fuel opts input; Ret (0, None)
      else
        match files (as_string r "script") with
        | None => Ret (1, None)
        | Some file =>
            if given r "output" then
              '(status, _, written) ← compile_file opts (as_bool r "emit-debug-info") file;
              Ret (status, option_map (fun bytes => (as_string r "output", bytes)) written)
            else '(status, _) ← run_file compile_only fuel opts file input; Ret (status, None)
        end
  end.

(** [main]: an exception gives status 1, and [exit] in the program its argument. *)
Definition cpplox (fuel : nat) (parsed : outcome ParseResult) (files : string -> option (list Z)) (input : list string)
    : outcome (Z * option (string * list Z)) :=
  match cpplox_body fuel parsed files input with
  | Throw e => Ret (default 1 (Natives.exit_status e), None)
  | o => o
  end.

(** What a program printed. *)
Definition printed (w : machine) : string := foldl (fun acc s => s +:+ acc) EmptyString (output w).

End lox.

(** [loxcrc]: the file with its checksum brought up to date, or the error message. *)
Definition loxcrc (buffer : list Z) : outcome (list Z) :=
  if (length buffer <? 32)%nat then Throw "bytecode file is corrupt, < 32 bytes"
  else if negb (bool_decide (take 4 buffer = FileHeader.MAGIC)) then Throw "Not a valid Lox compiled program"
  else
    let computed_crc := Crc32.Crc32_ComputeBuf 0 (drop 8 buffer) in
    file_crc ← DataPacker.decode_le buffer 4 4;
    if negb (computed_crc =? file_crc)
    then Ret (take 4 buffer ++ DataPacker.encode_le 4 computed_crc ++ drop 8 buffer)
    else Ret buffer.

End Lox.
