(* ===== verification/CallProps.v ===== *)
(** * Calling and returning *)

From S2P Require Import Prelude Double HashMap Hash Platform Opcode Parser Compiler Value Chunk Object Collections Memory Context VM StackFacts VMProps Natives CallFacts ShapeFacts MachineShapes Lexer Token Lox.
Import Compiler (InterpretResult, OK, RUNTIME_ERROR).
Import VM.

Section calls.
Context `{Platform}.

(** Closing captured variables changes nothing of the machine's own state but their list. *)
Lemma close_upvalues_state fuel : forall last w x w', close_upvalues fuel last w = Ret (x, w') ->
  exists u, state w' = set_open (state w) u.
Proof.
  induction fuel as [|fuel IH]; intros last w x w' Hm; cbn [close_upvalues] in Hm;
    apply M_bind_Ret in Hm as (s & w1 & [= <- <-] & Hm);
    (assert (Hid : exists u, state w = set_open (state w) u) by (exists (open_upvalues (state w)); by destruct (state w)));
    (destruct (open_upvalues (state w)) as [r|]; [|by injection Hm as _ <-]);
    apply M_bind_Ret in Hm as (u & w2 & ->%read_heap_same & Hm);
    apply M_bind_Ret in Hm as (i & w3 & [-> _]%lift_Ret & Hm);
    (destruct (last <=? i)%nat; [|by injection Hm as _ <-]); [done|].
  apply M_bind_Ret in Hm as (v & w4 & (? & ? & [= <- <-] & [-> _]%lift_Ret)%M_bind_Ret & Hm).
  apply M_bind_Ret in Hm as ([] & w5 & [= <-] & Hm). apply M_bind_Ret in Hm as ([] & w6 & [= <-] & Hm).
  destruct (IH _ _ _ _ Hm) as (u' & E). exists u'. by rewrite E.
Qed.

Lemma close_from_state last w x w' : close_from last w = Ret (x, w') -> exists u, state w' = set_open (state w) u.
Proof. unfold close_from. intros (? & ? & [= <- <-] & Hm)%M_bind_Ret. by eapply close_upvalues_state. Qed.

(** What a pop that succeeds read. *)
Lemma pop_Ret w v w' : pop w = Ret (v, w') ->
  exists t, stack_top (state w) = S t /\ evalstack (state w) !! t = Some v /\
    w' = set_state w (set_stack (state w) (evalstack (state w)) t).
Proof.
  unfold pop. intros (? & ? & [= <- <-] & Hm)%M_bind_Ret. destruct (stack_top (state w)) as [|t] eqn:E; [done|].
  apply M_bind_Ret in Hm as ([] & w1 & [= <-] & (? & ? & [= <- <-] & [-> Hv%or_undef_Ret]%lift_Ret)%M_bind_Ret).
  by exists t.
Qed.

Lemma push_Ret v w x w' : push v w = Ret (x, w') ->
  stack_top (state w) <> length (evalstack (state w)) /\
  w' = set_state w (set_stack (state w) (<[stack_top (state w) := v]> (evalstack (state w))) (S (stack_top (state w)))).
Proof.
  unfold push. intros (? & ? & [= <- <-] & Hm)%M_bind_Ret. destruct (Nat.eqb_spec (stack_top (state w)) (length (evalstack (state w)))); [done|].
  by injection Hm as _ <-.
Qed.

Lemma closure_function_only c w x w' : closure_function c w = Ret (x, w') -> w' = w.
Proof. apply closure_function_same. Qed.

(** A call that succeeds: the new frame starts at the callee's slot. *)
Lemma call_Ret c n w w1 : call c n w = Ret (true, w1) ->
  (n < stack_top (state w))%nat /\ (frame_count (state w) < length (frames (state w)))%nat /\
  w1 = set_state w (set_frames (state w)
         (<[frame_count (state w) := Some (mkFrame c 0 (stack_top (state w) - n - 1))]> (frames (state w)))
         (current_frame (state w)) (S (frame_count (state w)))).
Proof.
  unfold call. intros (fn & ? & ->%closure_function_same & Hm)%M_bind_Ret. destruct (negb _).
  { apply M_bind_Ret in Hm as (? & ? & _ & Hm). by apply M_bind_Ret in Hm as (? & ? & _ & [=]). }
  apply M_bind_Ret in Hm as (? & ? & [= <- <-] & Hm). destruct (_ =? MAX_FRAME_SIZE).
  { by apply M_bind_Ret in Hm as (? & ? & _ & [=]). }
  case_decide; [|done]. apply M_bind_Ret in Hm as (base & w2 & Hb & Hm).
  unfold callee_slot in Hb. apply M_bind_Ret in Hb as (? & ? & [= <- <-] & Hb).
  destruct (stack_top (state w) <=? n)%nat eqn:E; [done|]. injection Hb as <- <-. apply Nat.leb_gt in E.
  apply M_bind_Ret in Hm as ([] & ? & [= <-] & [= <-]). done.
Qed.

(** The machine executes instructions in the frame [k] and above: what the callee does. *)
Inductive runs_inside (call_native : NativeFunction -> nat -> nat -> M machine (Value * bool)) (k : nat)
    : machine -> machine -> Prop :=
| inside_here w : runs_inside call_native k w w
| inside_step w w1 w2 : step call_native w = Ret (None, w1) -> (k < frame_count (state w1))%nat ->
    runs_inside call_native k w1 w2 -> runs_inside call_native k w w2.

(** What RETURN does, as long as it returns to another frame. *)
Lemma exec_RETURN_Ret w r w' : exec_RETURN w = Ret (r, w') -> (1 < frame_count (state w))%nat ->
  r = None /\ frames (state w') = frames (state w) /\ frame_count (state w') = Nat.pred (frame_count (state w)) /\
  current_frame (state w') = Some (Nat.pred (Nat.pred (frame_count (state w)))) /\
  exists fr v, frame_now w = Ret (fr, w) /\ evalstack (state w) !! Nat.pred (stack_top (state w)) = Some v /\
    stack_top (state w') = S (frame_slots fr) /\ evalstack (state w') = <[frame_slots fr := v]> (evalstack (state w)).
Proof.
  intros Hret Hn. unfold exec_RETURN in Hret. apply M_bind_Ret in Hret as (v & wa & Hp & Hret).
  destruct (pop_Ret _ _ _ Hp) as (t & Et & Hv & ->). apply M_bind_Ret in Hret as (fr & wb & Hf & Hret).
  destruct (frame_now_Ret _ _ _ Hf) as (-> & i & Hi & Hfr).
  apply M_bind_Ret in Hret as ([] & wc & Hclose & Hret). destruct (close_from_state _ _ _ _ Hclose) as (u & Ec).
  apply M_bind_Ret in Hret as (s & wd & [= <- <-] & Hret). apply M_bind_Ret in Hret as ([] & we & [= <-] & Hret).
  rewrite Ec in Hret. cbn in Hret. rewrite (proj2 (Nat.eqb_neq _ _)) in Hret by lia.
  apply M_bind_Ret in Hret as ([] & wf & (? & ? & [= <- <-] & [= <-])%M_bind_Ret & Hret).
  apply M_bind_Ret in Hret as ([] & wg & [_ ->]%push_Ret & Hret).
  apply M_bind_Ret in Hret as (s & wh & [= <- <-] & Hret). apply M_bind_Ret in Hret as ([] & wi & [= <-] & [= <- <-]).
  cbn. split_and!; try done. exists fr, v. split_and!; [|by rewrite Et|done|done].
  unfold frame_now, frame, vm_state, gets, lift, mbind, M_bind. cbn in Hi, Hfr |- *. by rewrite Hi; cbn; rewrite Hfr.
Qed.

(** Reading an operand leaves the stack alone. *)
Lemma read_byte_stack w b w' : read_byte w = Ret (b, w') ->
  evalstack (state w') = evalstack (state w) /\ stack_top (state w') = stack_top (state w).
Proof.
  intros (fr & w1 & Hf & Hm)%M_bind_Ret. destruct (frame_now_Ret _ _ _ Hf) as (-> & _).
  apply M_bind_Ret in Hm as (fn & w2 & ->%closure_function_same & Hm). apply M_bind_Ret in Hm as (y & w3 & Hy & Hm).
  assert (w3 = w) as -> by (case_match; [done|]; by apply lift_Ret in Hy as [-> _]).
  apply M_bind_Ret in Hm as ([] & w4 & Hs & [= _ <-]). unfold set_ip in Hs.
  apply M_bind_Ret in Hs as (? & ? & Hf' & Hs). destruct (frame_now_Ret _ _ _ Hf') as (-> & _).
  apply M_bind_Ret in Hs as (? & ? & [= <- <-] & Hs). by apply M_bind_Ret in Hs as (? & ? & [-> _]%lift_Ret & [= <-]).
Qed.

Section natives.
Context `{Environment}.

(** A step either stays inside, or is the RETURN of the frame [k]. *)
Lemma step_inside k w r w' : step Natives.call_native w = Ret (r, w') -> inside k (state w) -> (0 < k)%nat ->
  (inside k (state w') /\ frames_kept k (state w) (state w')) \/
  exists w1, inside k (state w1) /\ frames_kept k (state w) (state w1) /\ exec_RETURN w1 = Ret (r, w') /\
    frame_count (state w1) = S k /\ evalstack (state w1) = evalstack (state w) /\ stack_top (state w1) = stack_top (state w).
Proof.
  intros (byte & w1 & Hb & Hm)%M_bind_Ret Hi Hk. destruct (guarded_read_byte _ _ _ Hb Hi) as [Hi1 K1].
  destruct (OpCode.of_int byte) as [op|]; [|done]. destruct (decide (op = OpCode.RETURN)) as [->|Hop].
  - cbn [dispatch] in Hm. pose proof Hi1 as (i & Hc & Hin). destruct (exec_RETURN_Ret _ _ _ Hm) as (-> & Ef & En & Ec & _); [lia|].
    destruct (decide (frame_count (state w1) = S k)) as [Hlast|].
    + right. exists w1. split_and!; try done; [|].
      * by pose proof (read_byte_stack _ _ _ Hb) as [? _].
      * by pose proof (read_byte_stack _ _ _ Hb) as [_ ?].
    + left. split; [eexists; split; [exact Ec|lia]|]. transitivity (state w1); [done|]. split; rewrite Ef; eauto.
  - left. destruct (guarded_dispatch Natives.call_native guarded_natives op Hop _ _ _ Hm Hi1) as [Hi2 K2].
    split; [done|by etrans].
Qed.

Lemma runs_inside_kept k w w' : runs_inside Natives.call_native k w w' -> inside k (state w) -> (0 < k)%nat ->
  inside k (state w') /\ frames_kept k (state w) (state w').
Proof.
  induction 1 as [w|w w1 w2 Hs Hc _ IH]; intros Hi Hk; [done|].
  destruct (step_inside k w None w1 Hs Hi Hk) as [[Hi1 K1]|(w0 & _ & _ & Hr & En & _)].
  - destruct (IH Hi1 Hk) as [Hi2 K2]. split; [done|by etrans].
  - destruct (exec_RETURN_Ret _ _ _ Hr) as (_ & _ & En' & _); [lia|]. lia.
Qed.

End natives.
End calls.

(** ** Properties *)

(** C20. Calls and returns match: a call succeeded and its frame is made the current one; then, whatever
    instructions the machine executes while that frame exists (calls of other functions and of native
    functions, collections, captured variables being closed), the first instruction after which it
    exists no more leaves the machine in the caller's frame, with the frames of the caller and of all its
    callers as they were before the call, down to their instruction pointers; on the stack the callee,
    its arguments and everything above them are replaced by the one value that was on top. *)
Theorem call_then_return `{Platform, Environment} (c : ref) (n : nat) (w w1 w2 w3 : machine) (r : option InterpretResult) :
  frame_count (state w) <> O -> (ok ← call c n; after_call ok) w = Ret (None, w1) ->
  runs_inside Natives.call_native (frame_count (state w)) w1 w2 ->
  step Natives.call_native w2 = Ret (r, w3) -> (frame_count (state w3) <= frame_count (state w))%nat ->
  let base := (stack_top (state w) - n - 1)%nat in
  r = None /\ frame_count (state w3) = frame_count (state w) /\
  current_frame (state w3) = Some (Nat.pred (frame_count (state w))) /\
  (forall i, (i < frame_count (state w))%nat -> frames (state w3) !! i = frames (state w) !! i) /\
  stack_top (state w3) = S base /\
  (exists v, evalstack (state w2) !! Nat.pred (stack_top (state w2)) = Some v /\
             evalstack (state w3) = <[base := v]> (evalstack (state w2))).
Proof.
  intros Hn (ok & w0 & Hcall & Hafter)%M_bind_Ret Hrun Hstep Hleft base. set (k := frame_count (state w)) in *.
  destruct ok; [|by injection Hafter].
  destruct (call_Ret c n w w0 Hcall) as (Htop & Hlt & ->). fold k in Hlt, Hafter.
  apply M_bind_Ret in Hafter as (s & ? & [= <- <-] & ([] & ? & [= <-] & [= <-])%M_bind_Ret). cbn in Hrun.
  destruct (runs_inside_kept k _ _ Hrun) as [Hi2 [B2 C2]]; [by exists k; cbn; split; [|lia]|lia|]. cbn in B2, C2.
  destruct (C2 c 0 base) as (ip & Hcallee); [by apply list_lookup_insert_eq|].
  destruct (step_inside k w2 r w3 Hstep Hi2) as [[(i & _ & ?) _]|(w' & Hi' & [B' C'] & Hr & En & Es & Et)]; [lia|lia|].
  destruct (exec_RETURN_Ret _ _ _ Hr) as (-> & Ef & En3 & Ec3 & fr & v & Hf & Hv & Et3 & Es3); [lia|].
  destruct (frame_now_Ret _ _ _ Hf) as (_ & i & Hi & Hfr). destruct Hi' as (i' & Hi' & Hin).
  assert (i = k) as -> by (rewrite Hi in Hi'; injection Hi' as <-; lia).
  destruct (C' c ip base Hcallee) as (ip' & Ecallee). rewrite Ecallee in Hfr. injection Hfr as <-. cbn in Et3, Es3.
  rewrite Ef, En3, Ec3, Et3, Es3, En, Es. cbn [Nat.pred].
  split_and!; try done; [|exists v; split; [by rewrite <-Es, <-Et|done]].
  intros j Hj. rewrite B', B2 by done. apply list_lookup_insert_ne. lia.
Qed.

(** ** Witness: a call in a program that is compiled and run *)

#[local] Existing Instance still_environment.

Definition call_source : list ascii := String.list_ascii_of_string "fun f(a) { return a + 1; } f(41);".

(** The machine about to execute the first instruction of the script, as [compile_and_execute] and [run] make it. *)
Definition entered (src : list ascii) : outcome machine :=
  w ← Lox.start default_vm_opts [];
  it ← Lexer.cbegin src;
  p ← Parser.new_parser it (errors w);
  '((obj, _), cw) ← Compiler.compile_program (mem w) (globals_ w) p
                      (Some (mkVmRoots [] [Some (constant_string_init (state w))]));
  f ← or_undef "null pointer" obj;
  let w := mkMachine (memory cw) (context cw) (reporter (parser cw)) (state w) (output w) (stdin w) (compiled <$> compilers cw) in
  '(_, w) ← (push (Value.of_object f) ;;
             closure ← allocate (fun roots => Allocator.new_closure roots f);
             _ ← pop;
             push (Value.of_object closure) ;;
             ok ← call closure 0;
             after_call ok) w;
  Ret w.

Fixpoint steps_inside (n k : nat) (w : machine) : outcome machine :=
  match n with
  | O => Ret w
  | S n =>
      '(r, w1) ← step Natives.call_native w;
      match r with
      | None => if (k <? frame_count (state w1))%nat then steps_inside n k w1 else Undef "the frame was left"
      | Some _ => Undef "the program ended"
      end
  end.

Lemma steps_inside_runs n k : forall w w', steps_inside n k w = Ret w' -> runs_inside Natives.call_native k w w'.
Proof.
  induction n as [|n IH]; intros w w' Hs; cbn [steps_inside] in Hs; [injection Hs as <-; constructor|].
  apply bind_Ret in Hs as ([[r|] w1] & Hstep & Hs); [done|].
  destruct (Nat.ltb_spec k (frame_count (state w1))); [|done]. econstructor; [exact Hstep|done|by apply IH].
Qed.

(** Before the call of [f] (its operand is read), after it, before the RETURN of [f], and after it. *)
Definition real_call : outcome (ref * option InterpretResult * machine * machine * machine * option InterpretResult * machine) :=
  w ← entered call_source;
  w ← steps_inside 4 0 w;
  '(_, w) ← (read_byte ;; read_byte) w;
  '(callee, _) ← peek 1 w;
  c ← Value.as_object callee;
  '(r1, w1) ← (ok ← call c 1; after_call ok) w;
  w2 ← steps_inside 3 (frame_count (state w)) w1;
  '(r2, w3) ← step Natives.call_native w2;
  Ret (c, r1, w, w1, w2, r2, w3).

Definition real_call_check : bool :=
  match real_call with
  | Ret (c, r1, w, w1, w2, r2, w3) =>
      bool_decide (r1 = None) && (0 <? frame_count (state w))%nat && (frame_count (state w3) <=? frame_count (state w))%nat &&
      (0 <? ip_of (state w2)) && bool_decide (evalstack (state w2) !! Nat.pred (stack_top (state w2)) = Some (Value.of_int 42))
  | _ => false
  end.

Lemma real_call_checked : real_call_check = true.
Proof. vm_compute. reflexivity. Qed.

Lemma call_then_return_witness : exists c w w1 w2 w3,
  (ok ← call c 1; after_call ok) w = Ret (None, w1) /\ runs_inside Natives.call_native (frame_count (state w)) w1 w2 /\
  0 < ip_of (state w2) /\ step Natives.call_native w2 = Ret (None, w3) /\
  frame_count (state w3) = frame_count (state w) /\
  exists v, evalstack (state w2) !! Nat.pred (stack_top (state w2)) = Some v /\ v = Value.of_int 42 /\
    evalstack (state w3) = <[(stack_top (state w) - 1 - 1)%nat := v]> (evalstack (state w2)).
Proof.
  pose proof real_call_checked as E. unfold real_call_check in E.
  destruct real_call as [[[[[[[c r1] w] w1] w2] r2] w3]| | |] eqn:Hrun; try discriminate E.
  repeat apply andb_true_iff in E as [E ?]. repeat match goal with
  | H : bool_decide _ = true |- _ => apply bool_decide_eq_true_1 in H
  | H : (_ <? _)%nat = true |- _ => apply Nat.ltb_lt in H
  | H : (_ <=? _)%nat = true |- _ => apply Nat.leb_le in H
  | H : (_ <? _) = true |- _ => apply Z.ltb_lt in H
  end.
  unfold real_call in Hrun. repeat match goal with
  | H : (_ ≫= _) = Ret _ |- _ => apply bind_Ret in H as (? & ? & H)
  | H : (let '(_, _) := ?x in _) = Ret _ |- _ => destruct x
  end.
  match goal with H : Ret _ = Ret _ |- _ => injection H as -> -> -> -> -> -> -> end. subst r1.
  match goal with Hs : steps_inside _ _ w1 = Ret w2 |- _ => apply steps_inside_runs in Hs as Hin end.
  match goal with Hc : _ = Ret (None, w1), Hr : step _ w2 = _, Hn : (0 < _)%nat, Hl : (frame_count _ <= _)%nat |- _ =>
    pose proof (call_then_return c 1 w w1 w2 w3 r2 (proj2 (Nat.neq_0_lt_0 _) Hn) Hc Hin Hr Hl) as Hret end.
  cbv zeta in Hret. destruct Hret as (-> & Hn & _ & _ & _ & v' & Hv & Hst).
  exists c, w, w1, w2, w3. split; [assumption|]. split; [exact Hin|]. split; [assumption|]. split; [assumption|].
  split; [exact Hn|]. exists v'. split; [exact Hv|]. split; [congruence|exact Hst].
Defined.
