(* ===== verification/LoxProps.v ===== *)
(** * From a source file to a machine that loaded its bytecode file *)

From S2P Require Import Prelude Double HashMap HashMapFacts Hash Platform Token Lexer LexerFacts Parser ParserFacts Compiler CompilerFacts CompilerProps Bytes BytesFacts ChecksumProps FileProps Opcode Value Chunk Object KeyFacts Memory CollectFacts SweepFacts AllocatorFacts GcProps Context ContextFacts Serializer SerializerFacts Deserializer LoaderFacts BytecodeProps VM Natives Lox.
Import DataPacker Crc32 FileHeader.

(** ** Repairing a checksum *)

Definition mismatch : string := "Bytecode file corrupted: CRC32 checksum mismatch".

(** The checksum stored in a file is the right one. *)
Definition sealed (file : list Z) : Prop := decode_le file 4 4 = Ret (Crc32_ComputeBuf 0 (drop 8 file)).

Lemma decode_le_range buffer o n v : decode_le buffer o n = Ret v -> 0 <= o /\ o + Z.of_nat n <= Z.of_nat (length buffer).
Proof. unfold decode_le, DataPacker.read. by case_decide. Qed.

Lemma decode_le_within file a v c : file = a ++ encode_le 4 v ++ c -> length a = 4%nat -> is_u32 v -> decode_le file 4 4 = Ret v.
Proof.
  intros -> Ha Hv. replace 4 with (Z.of_nat (length a)) by lia. rewrite decode_le_app. f_equal. by apply Z.mod_small.
Qed.

Lemma decode_nth buffer sizes : forall o vs i size v, decode buffer o sizes = Ret vs ->
  sizes !! i = Some size -> vs !! i = Some v ->
  decode_le buffer (o + Z.of_nat (sum_list (take i sizes))) size = Ret v.
Proof.
  induction sizes as [|n sizes IH]; intros o vs i size v; [done|]. cbn [decode].
  destruct (decode_le buffer o n) as [x| | |] eqn:Ex; try done. cbn [mbind outcome_bind].
  destruct (decode buffer (o + Z.of_nat n) sizes) as [xs| | |] eqn:Exs; try done. cbn [mbind outcome_bind]. intros [= <-].
  destruct i as [|i]; cbn [take lookup list_lookup].
  - intros [= <-] [= <-]. cbn. by rewrite Z.add_0_r.
  - intros Hs Hv. pose proof (IH _ _ _ _ _ Exs Hs Hv) as E. cbn [sum_list]. by rewrite Nat2Z.inj_add, Z.add_assoc.
Qed.

Lemma section_no_throw file size i j : section file size i j <> Throw mismatch.
Proof. unfold section. by repeat case_match. Qed.

Lemma decode_no_throw buffer o sizes e : decode buffer o sizes <> Throw e.
Proof.
  revert o. induction sizes as [|n sizes IH]; intros o; [done|]. cbn [decode]. unfold decode_le, DataPacker.read.
  case_decide; [|done]. cbn [mbind outcome_bind]. specialize (IH (o + Z.of_nat n)).
  destruct (decode buffer (o + Z.of_nat n) sizes); cbn; try done.
Qed.

Lemma sealed_read file : sealed file -> FileHeader.read file <> Throw mismatch.
Proof.
  unfold sealed, FileHeader.read. intros Hs. destruct (length file <? 32)%nat; [intros [=]|].
  pose proof (decode_no_throw file 0 header_sizes mismatch) as Ht.
  destruct (decode file 0 header_sizes) as [fields|e|e|] eqn:E; cbn [mbind outcome_bind]; [|intros [= ->]; by apply Ht|by intros [=]|by intros [=]].
  pose proof (fun v => decode_nth file header_sizes 0 fields 4 4 v E eq_refl) as Hcrc. clear E.
  do 16 (destruct fields as [|? fields]; [discriminate|]). destruct fields; [|discriminate].
  specialize (Hcrc _ eq_refl). change (0 + Z.of_nat (sum_list (take 4 header_sizes))) with 4 in Hcrc.
  rewrite Hs in Hcrc. injection Hcrc as <-. rewrite (Z.eqb_refl (Crc32_ComputeBuf 0 (drop 8 file))).
  change (negb true) with false.
  repeat first [progress cbv iota | match goal with |- (if ?b then _ else _) <> _ => destruct b; [by intros [=]|] end].
  repeat match goal with
  | |- context [section ?f ?n ?i ?j] => pose proof (section_no_throw f n i j); destruct (section f n i j); cbn [mbind outcome_bind];
      [|congruence|discriminate..]
  end.
  by intros [=].
Qed.

(** C37. [loxcrc] repairs a bytecode file: on the bytes of any file with the magic number it changes
    nothing but the checksum, the result passes the checksum test of the machine, and repairing it
    again changes nothing; a file whose checksum was right is left alone. *)
Theorem loxcrc_repairs file : (32 <= length file)%nat -> take 4 file = MAGIC ->
  exists file', Lox.loxcrc file = Ret file' /\
    length file' = length file /\ take 4 file' = MAGIC /\ drop 8 file' = drop 8 file /\
    sealed file' /\ FileHeader.read file' <> Throw mismatch /\
    Lox.loxcrc file' = Ret file' /\ (sealed file -> file' = file).
Proof.
  intros Hlen Hm. set (crc := Crc32_ComputeBuf 0 (drop 8 file)).
  assert (Hcrc : is_u32 crc) by by apply crc32_range.
  assert (Hrun : forall f, (32 <= length f)%nat -> take 4 f = MAGIC -> sealed f -> Lox.loxcrc f = Ret f).
  { intros f Hl Ht Hs. unfold Lox.loxcrc. rewrite (proj2 (Nat.ltb_ge _ _)), bool_decide_eq_true_2 by done. cbn [negb].
    rewrite Hs. cbn [mbind outcome_bind]. by rewrite Z.eqb_refl. }
  destruct (decide (sealed file)) as [Hs|Hs].
  { exists file. split; [by apply Hrun|]. split_and!; try done; [by apply sealed_read|by apply Hrun]. }
  assert (Hdec : exists v, decode_le file 4 4 = Ret v).
  { unfold decode_le, DataPacker.read. rewrite decide_True by lia. by eexists. }
  destruct Hdec as [v Hv]. set (file' := take 4 file ++ encode_le 4 crc ++ drop 8 file).
  assert (Htake : length (take 4 file) = 4%nat) by (rewrite length_take; lia).
  assert (Hlen' : length file' = length file).
  { unfold file'. rewrite !length_app, length_encode_le, Htake, length_drop. lia. }
  assert (Htake' : take 4 file' = MAGIC) by (unfold file'; by rewrite take_app_length').
  assert (Hdrop : drop 8 file' = drop 8 file).
  { unfold file'. rewrite app_assoc. apply drop_app_length'. by rewrite length_app, length_encode_le, Htake. }
  assert (Hs' : sealed file').
  { unfold sealed. rewrite Hdrop. fold crc. by eapply decode_le_within. }
  exists file'. split.
  - unfold Lox.loxcrc. rewrite (proj2 (Nat.ltb_ge _ _)), bool_decide_eq_true_2 by done. cbn [negb]. rewrite Hv.
    cbn [mbind outcome_bind]. fold crc. destruct (Z.eqb_spec crc v) as [<-|]; [by destruct Hs|done].
  - split_and!; try done; [by apply sealed_read|apply Hrun; by rewrite ?Hlen'].
Qed.

(** A file whose last byte was changed by hand. *)
Definition edited_file : list Z :=
  MAGIC ++ [1; 2; 3; 4; 1; 0; 0; 0; 0; 32; 0; 0; 0; 33; 0; 0; 0; 33; 0; 0; 0; 33; 0; 0; 0; 0; 0; 0; 9].

Lemma loxcrc_repairs_witness : exists file', Lox.loxcrc edited_file = Ret file' /\ file' <> edited_file /\
  exists bc, FileHeader.read file' = Ret bc.
Proof.
  assert (H1 : (32 <= length edited_file)%nat) by (vm_compute; lia).
  destruct (loxcrc_repairs edited_file H1 eq_refl) as (file' & E & _). exists file'. split; [exact E|].
  assert (Ec : Lox.loxcrc edited_file = Ret (MAGIC ++ encode_le 4 (Crc32_ComputeBuf 0 (drop 8 edited_file)) ++ drop 8 edited_file))
    by (vm_compute; reflexivity).
  rewrite Ec in E. injection E as <-. split; [by vm_compute|]. eexists. vm_compute. reflexivity.
Defined.

(** ** Compile, write, read, load *)

Section files.
Context `{PlatformLaws}.

Lemma length_written bc out : FileHeader.write bc = Ret out -> length out = (32 + length (body bc))%nat.
Proof.
  unfold FileHeader.write. change (negb (nbytes header_sizes =? 32)) with false. cbv iota zeta.
  match goal with |- Ret ?x = Ret out -> _ => intros E; assert (out = x) as -> by congruence; clear E end.
  unfold body. rewrite !length_app, length_take, length_drop, length_encode_le, length_encode.
  change (sum_list _) with 32%nat. lia.
Qed.

Lemma take_header bc crc rest : take 4 (header bc crc ++ rest) = MAGIC.
Proof. reflexivity. Qed.

(** A machine before any program ran. *)
Record idle (w : machine) : Prop := {
  idle_memory : exists p, inv (mem w) p;
  idle_globals : globals_ w = Context.empty;
  idle_upvalues : open_upvalues (state w) = None
}.

Lemma new_machine_idle opts input w : Lox.new_machine opts input = Ret w -> idle w.
Proof.
  unfold Lox.new_machine, VM.new_vm. intros E.
  destruct (intern_outcome [] "init" (Memory.initial opts) ∅ (initial_inv opts)) as [[Ei _]|(r & m & q & Ei & Hi & _)];
    [by apply no_roots_safe|by repeat split|apply initial_live| |]; rewrite Ei in E; [done|].
  cbn [mbind outcome_bind] in E. injection E as <-. constructor; [by exists q|done|done].
Qed.

Lemma compile_file_inv opts debug source f result cw messages out :
  Compiler.compile_source opts (Lox.source_of source) = Ret ((Some f, result), cw) ->
  Lox.compile_file opts debug source = Ret (0, messages, Some out) ->
  exists bc s, Serializer.serialize_program (objects (memory cw)) f (context cw) (Serializer.new_serializer debug) = Ret (bc, s) /\
    FileHeader.write bc = Ret out.
Proof.
  unfold Lox.compile_file. generalize Serializer.serialize_program. intros serialize ->.
  cbn [mbind outcome_bind]. destruct (negb _); [done|]. cbn [or_undef mbind outcome_bind].
  destruct (serialize _ _ _ _) as [[bc s]| | |]; try done. cbn [mbind outcome_bind].
  destruct (FileHeader.write bc) as [out'| | |] eqn:Ew; try done. intros [= _ ->]. by exists bc, s.
Qed.

(** C6. The way of a program through a bytecode file: if [compile_file] succeeds on a source file,
    with an output below 4 GiB, at most 65534 globals and only functions the format can hold (counts that fit
    their fields, so fewer than 65536 constants, whose reals are positive zero or normal), then a
    new machine that reads the output passes all tests of the header, and either runs
    into the limit of its tables or gets the program that was compiled: the same functions, constants
    and line tables, and the same names for its globals. *)
Theorem compiled_file_loads opts debug source f result cw messages out opts' input w :
  nul ∉ Lox.source_of source ->
  Compiler.compile_source opts (Lox.source_of source) = Ret ((Some f, result), cw) ->
  (forall r fn, Heap.function (objects (memory cw)) r = Ret fn -> storable fn) ->
  Z.of_nat (length (names (context cw))) <= 65534 ->
  Lox.compile_file opts debug source = Ret (0, messages, Some out) -> Z.of_nat (length out) < 2 ^ 32 ->
  Lox.new_machine opts' input = Ret w ->
  is_compiled_lox_program out = true /\
  ((bc ← FileHeader.read out; Lox.load bc w) = Throw HashMap.too_large \/
   exists f' w', (bc ← FileHeader.read out; Lox.load bc w) = Ret (f', w') /\
     same_function (objects (memory cw)) (objects (mem w')) debug f f' /\
     same_globals (objects (memory cw)) (objects (mem w')) (context cw) (globals_ w')).
Proof.
  intros Hsrc Hcomp Hst Hnames Hfile Hout [Hmem Hg Hu]%new_machine_idle.
  pose proof (compile_source_runs opts _ Hsrc) as Hrun. rewrite Hcomp in Hrun. destruct Hrun as [Hok _].
  destruct (compile_file_inv _ _ _ _ _ _ _ _ Hcomp Hfile) as (bc & s & Es & Ew).
  destruct (world_globals _ _ Hok) as [g Hgl].
  destruct (serialize_program_written (objects (memory cw)) debug f (context cw) (Serializer.new_serializer debug) bc s eq_refl Es)
    as (ss & os & ims & gs & Hw).
  destruct (written_count _ _ _ _ _ _ _ _ _ Hw) as (Hcount & _ & Hmany). pose proof (length_written bc out Ew) as Hlen.
  assert (Hfits : file_fits bc) by (split; [unfold is_u16|unfold is_u32]; lia).
  assert (Hp : program_storable (memory cw) (context cw) bc).
  { constructor; [apply Hok|exact Hst|apply Hgl|apply Hgl| |].
    - rewrite (written_globals _ _ _ _ _ _ _ _ _ Hw), length_app, length_encode, length_entries.
      destruct (written_names _ _ _ _ _ _ _ _ _ Hw) as [_ ->]. change (sum_list _) with 4%nat. lia.
    - unfold body in Hlen. rewrite !length_app in Hlen. lia. }
  split.
  { unfold is_compiled_lox_program. rewrite (proj2 (Nat.leb_le 32 (length out))) by lia.
    rewrite (write_file bc Hfits) in Ew. apply bool_decide_eq_true_2.
    assert (out = header bc (checksum bc) ++ body bc) as -> by congruence. apply take_header. }
  pose proof (read_written bc Hfits) as Hread. rewrite Ew in Hread. cbn [mbind outcome_bind] in Hread. rewrite Hread.
  cbn [mbind outcome_bind]. unfold Lox.load.
  assert (Hroots : exists roots, VM.vm_roots w = Ret roots).
  { unfold VM.vm_roots. rewrite Hu. destruct (size (objects (mem w))); by eexists. }
  destruct Hroots as [roots ->]. cbn [mbind outcome_bind]. set (d := mkDeserializer ∅ ∅ (mem w) (globals_ w)).
  destruct (program_loads roots (memory cw) f (context cw) debug bc s d Hp) as [-> |(f' & d' & -> & Hsame & Hglobals & _)];
    [by constructor|exact Es|by left|]. right. cbn [mbind outcome_bind]. by eexists _, _.
Qed.

End files.

(** *** Witness *)

Definition stored_file : list Z := (fun c => Z.of_N (N_of_ascii c)) <$> stored_source.

Lemma source_of_bytes (text : list ascii) : Lox.source_of ((fun c => Z.of_N (N_of_ascii c)) <$> text) = text.
Proof.
  unfold Lox.source_of. rewrite <-list_fmap_compose. rewrite <-(list_fmap_id text) at 2. apply list_fmap_ext.
  intros _ c _. unfold compose. rewrite N2Z.id. apply ascii_N_embedding.
Qed.

Lemma stored_program_eq : stored_program = Compiler.compile_source default_vm_opts stored_source.
Proof. unfold stored_program. reflexivity. Qed.

Definition stored_file_check : bool :=
  match stored_program, Lox.compile_file default_vm_opts false stored_file, Lox.new_machine default_vm_opts [] with
  | Ret ((Some f, _), w), Ret (0, _, Some out), Ret v =>
      bool_decide (map_Forall (fun _ c => storable_object (content c)) (objects (memory w))) &&
      (Z.of_nat (length (names (context w))) <=? 65534) && (Z.of_nat (length out) <? 2 ^ 32) &&
      match (bc ← FileHeader.read out; Lox.load bc v) with Ret _ => true | _ => false end
  | _, _, _ => false
  end.

Lemma stored_file_checked : stored_file_check = true.
Proof. vm_compute. reflexivity. Qed.

Lemma stored_file_facts : exists f result cw messages out w, stored_program = Ret ((Some f, result), cw) /\
  (forall r fn, Heap.function (objects (memory cw)) r = Ret fn -> storable fn) /\
  Z.of_nat (length (names (context cw))) <= 65534 /\
  Lox.compile_file default_vm_opts false stored_file = Ret (0, messages, Some out) /\ Z.of_nat (length out) < 2 ^ 32 /\
  Lox.new_machine default_vm_opts [] = Ret w /\ (bc ← FileHeader.read out; Lox.load bc w) <> Throw HashMap.too_large.
Proof.
  pose proof stored_file_checked as Hc. revert Hc. unfold stored_file_check.
  generalize stored_program (Lox.compile_file default_vm_opts false stored_file) (Lox.new_machine default_vm_opts []).
  intros P F V Hc. destruct P as [[[[f|] result] cw]| | |]; try discriminate Hc.
  destruct F as [[[[] messages] [out|]]| | |]; try discriminate Hc.
  destruct V as [w| | |]; try discriminate Hc. rewrite !andb_true_iff in Hc.
  destruct Hc as [[[Hh Hn] Hl] Hload].
  exists f, result, cw, messages, out, w. split; [reflexivity|]. split; [|split; [|split; [reflexivity|split; [|split; [reflexivity|]]]]].
  - exact (heap_storable _ (bool_decide_eq_true_1 _ Hh)).
  - exact (proj1 (Z.leb_le _ _) Hn).
  - exact (proj1 (Z.ltb_lt _ _) Hl).
  - intros E. rewrite E in Hload. discriminate Hload.
Qed.

Lemma compiled_file_loads_witness : exists f result cw messages out w f' w',
  stored_program = Ret ((Some f, result), cw) /\
  Lox.compile_file default_vm_opts false stored_file = Ret (0, messages, Some out) /\
  (bc ← FileHeader.read out; Lox.load bc w) = Ret (f', w') /\
  same_function (objects (memory cw)) (objects (mem w')) false f f'.
Proof.
  destruct stored_file_facts as (f & result & cw & messages & out & w & Ep & Hst & Hn & Ec & Hl & Ew & Hne).
  destruct (compiled_file_loads default_vm_opts false stored_file f result cw messages out default_vm_opts [] w)
    as [_ [Hr|(f' & w' & Er & Hsame & _)]].
  - unfold stored_file. rewrite source_of_bytes. exact stored_source_ok.
  - unfold stored_file. rewrite source_of_bytes, <-stored_program_eq. exact Ep.
  - exact Hst.
  - exact Hn.
  - exact Ec.
  - exact Hl.
  - exact Ew.
  - destruct (Hne Hr).
  - exists f, result, cw, messages, out, w, f', w'. exact (conj Ep (conj Ec (conj Er Hsame))).
Defined.
