(* ===== verification/Programs.v ===== *)
(** * Whole programs

    The driver evaluated on source texts, from the characters to what is
    printed, on the concrete platform: first programs that do what they should,
    then the ones that show where the code does something else than it means
    to. *)

From S2P Require Import Prelude Double HashMap Hash Platform Bytes Opcode Token Lexer Parser Compiler Value Chunk Object Collections Memory Context VM StackFacts ShapeFacts Natives MachineShapes Lox.

#[local] Existing Instance still_environment.

(** Running a text: the exit status, what was printed and the messages. *)
Definition run_text (text : list string) : outcome (Z * list string * list string) :=
  '(status, w) ← Lox.run_file false 2000 default_vm_opts
                   ((fun c => Z.of_N (N_of_ascii c)) <$> String.list_ascii_of_string (String.concat "" text)) [];
  Ret (status, rev (output w), message <$> messages (errors w)).

Definition line_end : string := Natives.newline_text.

Example arithmetic_program :
  run_text ["println(1 + 2 * 3, (1 + 2) * 3, -7 + 2, 7 < 8);"]%string =
  Ret (0, ["7"; " 9"; " -5"; " true"; line_end], [])%string.
Proof. vm_compute. reflexivity. Qed.

Example closure_program :
  run_text ["fun counter() { var n = 0; fun next() { n = n + 1; return n; } return next; }";
            "var c = counter(); c(); println(c(), counter()());"]%string =
  Ret (0, ["2"; " 1"; line_end], [])%string.
Proof. vm_compute. reflexivity. Qed.

Example class_program :
  run_text ["class A { init(x) { this.x = x; } get() { return this.x; } }";
            "class B : A { init(x) { super.init(x); } get() { return super.get() + 1; } }";
            "println(B(4).get());"]%string =
  Ret (0, ["5"; line_end], [])%string.
Proof. vm_compute. reflexivity. Qed.

Example runtime_error_program :
  run_text ["fun f() { return 1 + nil; } f();"]%string =
  Ret (1, [], ["in f()"; "in script"; "Expected operands of '+' to be numbers"])%string.
Proof. vm_compute. reflexivity. Qed.

(** The command line [cpplox program.lox] on a text, and its exit status. *)
Definition run_cpplox (text : string) : outcome (Z * option (string * list Z)) :=
  Lox.cpplox 2000
    (Ret (Lox.mkParseResult (fun name => if String.eqb name "script" then 1%nat else 0%nat) (fun _ => false)
       (fun name => if String.eqb name "eval-stack-size" then 1024 else 1048576) (fun _ => "program.lox"%string)))
    (fun _ => Some ((fun c => Z.of_N (N_of_ascii c)) <$> String.list_ascii_of_string text)) [].

(** [exit] ends the process with its argument, modulo 256 as the parent process sees it. *)
Example exit_program :
  run_cpplox "fun f() { exit(259); } f(); println(1);" = Ret (3, None) /\
  run_cpplox "exit();" = Ret (1, None) /\ run_cpplox "println(1);" = Ret (0, None).
Proof. vm_compute. auto. Qed.

(** ** Programs that show deviations *)

(** The conditional expression evaluates both branches, and always has the value of the second. *)
Example ternary_evaluates_both :
  run_text ["fun f(x) { println(x); return x; } var a = true ? f(1) : f(2); println(a);"]%string =
  Ret (0, ["1"; line_end; "2"; line_end; "2"; line_end], [])%string.
Proof. vm_compute. reflexivity. Qed.

(** The unary minus turns the operand of the last instruction into another one: the 48th constant has
    index 47, the opcode of ONE, and [-147] is printed as the 47th constant, 146. *)
Example minus_rewrites_operand :
  run_text (((fun n => to_string n +:+ "; ") <$> seqZ 100 47) ++ ["println(-147);"%string]) =
  Ret (0, ["146"; line_end], [])%string.
Proof. vm_compute. reflexivity. Qed.

(** It also turns the last byte of a branch that may not be executed: the value of [5 or 1] is not negated. *)
Example minus_misses_branch :
  run_text ["println(-(5 or 1), -(5 or 2));"]%string = Ret (0, ["5"; " -5"; line_end], [])%string.
Proof. vm_compute. reflexivity. Qed.

(** The variables that [continue] leaves are popped and not closed: three closures made in three turns
    of a loop share the last one's variable. *)
Example continue_leaves_captures_open :
  run_text ["var fs = list(); for (var i = 0; i < 3; i = i + 1) { ";
            "var x = i; fun g() { return x; } append(fs, g); if (i < 2) continue; } ";
            "println(fs[0](), fs[1](), fs[2]());"]%string =
  Ret (0, ["2"; " 2"; " 2"; line_end], [])%string.
Proof. vm_compute. reflexivity. Qed.

(** A subclass inherits the methods of its superclass, but not its constructor. *)
Example subclass_without_init :
  run_text ["class A { init() { this.x = 1; } } class B : A { } println(B().x);"]%string =
  Ret (1, [], ["in script"; "Runtime Error: Instance of class 'B' has no property 'x'"])%string.
Proof. vm_compute. reflexivity. Qed.

(** Asking whether a list is hashable ends the program, without a message and with status 0. *)
Example is_hashable_fails :
  run_text ["println(1); println(is_hashable(list())); println(2);"]%string =
  Ret (0, ["1"; line_end], [])%string.
Proof. vm_compute. reflexivity. Qed.
