(* ===== verification/Resting.v ===== *)
(** * The machine between two programs

    What a new machine, its native functions and every finished program
    leave: an empty stack, no frames, and nothing that dangles. *)

From S2P Require Import Prelude Double HashMap HashMapFacts Hash Platform HashMapProps Bytes Opcode Value Chunk Object Collections Memory CollectFacts SweepFacts AllocatorFacts GcProps WriteFacts Context ContextFacts Parser Compiler CompilerFacts VM StackFacts VMProps CallProps Natives Lox.
Import VM.

Section resting.
Context {HP : Platform} {HL : PlatformLaws}.

(** What the machine itself keeps alive. *)
Definition rest_roots (c : Context) (s : VM) : list (option ref) := Context.global_roots c ++ [Some (constant_string_init s)].

(** The allocator and the globals are in order, and no pointer from [roots] dangles. *)
Record sound (roots : list (option ref)) (m : Memory) (c : Context) : Prop := {
  sound_memory : exists p, inv m p;
  sound_live : live_count 0 m;
  sound_safe : gc_safe roots m;
  sound_globals : exists g, globals_ok (objects m) c g
}.

(** No frames, nothing on the stack and no open upvalues. *)
Record emptied (s : VM) : Prop := {
  emptied_stack : stack_top s = 0%nat /\ (1 < length (evalstack s))%nat;
  emptied_frames : frame_count s = 0%nat /\ (0 < length (frames s))%nat;
  emptied_upvalues : open_upvalues s = None
}.

(** A machine between two programs. *)
Record resting (w : machine) : Prop := {
  resting_sound : sound (rest_roots (globals_ w) (state w)) (mem w) (globals_ w);
  resting_state : emptied (state w);
  resting_outer : outer_roots w = []
}.

Lemma sound_subset roots roots' m c : sound roots m c -> (forall o, o ∈ roots' -> o = None \/ o ∈ roots) -> sound roots' m c.
Proof.
  intros [? ? Hs ?] Hsub. constructor; try done. eapply closed_heap_subset; [|exact Hs]. intros o. unfold root_refs.
  rewrite !elem_of_app. intros [?|[?%Hsub|?]]; tauto.
Qed.

(** Allocating a closure for a function that is kept. *)
Lemma closure_allocates roots m c f fn : sound roots m c -> Some f ∈ roots -> Heap.function (objects m) f = Ret fn ->
  (forall o, o ∈ Context.global_roots c -> o ∈ roots) ->
  exists r m', Allocator.new_closure roots f m = Ret (r, m') /\ sound roots m' c /\ Heap.function (objects m') f = Ret fn /\
    (exists u n, Heap.closure (objects m') r = Ret (mkClosure f u n)) /\
    (forall s, Heap.string (objects m) (name_ fn) = Ret s -> Heap.string (objects m') (name_ fn) = Ret s).
Proof using HL.
  intros [[p Hi] Hl Hs [g Hg]] Hf Hfn Hsub.
  assert (Hkf : kept roots m f) by (constructor; unfold root_refs; rewrite !elem_of_app; tauto).
  destruct (allocates_closure roots f fn m p Hi Hs Hl Hkf Hfn) as (r & m' & q & Hrun & Hi' & Hl' & Hfresh & Hr & He & Hs').
  assert (Hcone : keeps_cone (objects m) (root_refs roots m) (objects m')) by exact (ext_keep _ _ _ _ He).
  exists r, m'. split_and!; [done| |eapply keeps_function; [exact Hcone| |done]; unfold root_refs; rewrite !elem_of_app; tauto| |].
  - constructor; [by exists q|done|done|]. exists g. eapply globals_heap; [done|]. intros r' s Hr'. eapply keeps_string; [exact Hcone|].
    unfold root_refs. rewrite !elem_of_app. specialize (Hsub _ Hr'). tauto.
  - eexists _, _. unfold Heap.closure, Heap.read. by rewrite Hr.
  - intros s [b Hb]%string_Ret. apply string_Ret. exists b. apply Hcone; [|done]. apply function_Ret in Hfn as [b' Hb'].
    eapply reachable_child; [exact Hkf|exact Hb'|]. cbn. by left.
Qed.

Lemma resting_roots w : resting w -> vm_roots w = Ret (rest_roots (globals_ w) (state w)).
Proof.
  intros [_ [[Ht _] [Hc _] Hu] _]. unfold vm_roots. rewrite Hu, Ht, Hc. by destruct (size _).
Qed.

(** A new machine is at rest. *)
Lemma new_machine_resting opts input w : 0 <= value_stack_max opts -> 0 < frames_max opts ->
  Lox.new_machine opts input = Ret w -> resting w.
Proof.
  intros Hst Hfr E. unfold Lox.new_machine, VM.new_vm in E.
  destruct (intern_outcome [] "init" (Memory.initial opts) ∅ (initial_inv opts)) as [[Ei _]|(r & m & q & Ei & Hi & Hl & _ & Hr & He)];
    [by apply no_roots_safe|done|apply initial_live| |]; rewrite Ei in E; [done|]. cbn [mbind outcome_bind] in E. injection E as <-.
  assert (Hleaf : closed_at (objects m) (Some r)) by by eapply leaf_closed.
  constructor; [constructor; [by exists q|done| |exists ∅]| |done].
  - apply closed_heap_forall. intros o. unfold root_refs. cbn. rewrite (ext_stash _ _ _ _ He), (ext_never _ _ _ _ He). cbn.
    intros [->|[]%not_elem_of_nil]%elem_of_cons. done.
  - constructor; cbn; [|done|done|by intros r' ?%not_elem_of_nil|done|constructor].
    apply (@empty_repr _ _ (string_key (objects m)) (fun k => k <> None)).
  - constructor; cbn; [|rewrite length_replicate; split; [done|lia]|done]. rewrite length_replicate. split; [done|]. change (vopts (Memory.initial opts)) with opts. lia.
Qed.

(** *** The native functions *)

(** A new object whose pointers are kept is one more root. *)
Lemma extends_sound roots m r m' c : sound roots m c -> (forall o, o ∈ Context.global_roots c -> o ∈ roots) ->
  (exists q, inv m' q) -> live_count 0 m' -> extends roots m r m' -> closed_at (objects m') (Some r) -> sound (Some r :: roots) m' c.
Proof.
  intros [_ _ Hs [g Hg]] Hsub Hi Hl He Hr. pose proof (extends_safe _ _ _ _ Hs He) as Hs'. constructor; [done|done| |exists g].
  - apply closed_heap_forall. intros o. unfold gc_safe in Hs'. rewrite closed_heap_forall in Hs'. unfold root_refs in *.
    rewrite !elem_of_app, elem_of_cons. intros [Ho|[[->|Ho]|Ho]]; [|done|..]; apply Hs'; rewrite !elem_of_app; tauto.
  - eapply globals_heap; [done|]. intros r' s Hr'. eapply keeps_string; [exact (ext_keep _ _ _ _ He)|]. unfold root_refs.
    rewrite !elem_of_app. specialize (Hsub _ Hr'). tauto.
Qed.

Lemma intern_sound roots m c s r m' : sound roots m c -> (forall o, o ∈ Context.global_roots c -> o ∈ roots) -> no_nul s ->
  Allocator.intern_string roots s m = Ret (r, m') ->
  sound (Some r :: roots) m' c /\ Heap.string (objects m') r = Ret (mkString s (Hash.hash_string s)).
Proof.
  intros Hsound Hsub Hn Hrun. pose proof Hsound as [[p Hi] Hl Hs _].
  destruct (intern_outcome roots s m p Hi Hs Hn Hl) as [[E _]|(r' & m1 & q & E & Hi' & Hl' & _ & Hr & He)]; [by rewrite E in Hrun|].
  rewrite E in Hrun. injection Hrun as -> ->. split.
  - eapply extends_sound; [done|done|by exists q|done|done|by eapply leaf_closed].
  - apply string_Ret. by eexists.
Qed.

(** Writing a variable, if it is not out of range. *)
Lemma update_globals_ok h c g i F c' o0 : globals_ok h c g -> Context.update c i F = Ret c' ->
  (forall v, value_ref (global_value (F v)) = o0 \/ value_ref (global_value (F v)) = value_ref (global_value v)) ->
  globals_ok h c' g /\ forall o, o ∈ Context.global_roots c' -> o = o0 \/ o ∈ Context.global_roots c.
Proof.
  intros Hok Hu HF. unfold Context.update in Hu. apply bind_Ret in Hu as (v & Hv & [= <-]).
  assert (Hok' : globals_ok h (mkContext (global_names c) (<[Z.to_nat i := F v]> (globals c)) (names c)) g).
  { destruct Hok. constructor; cbn; rewrite ?length_insert; try done. }
  split; [done|]. intros o. rewrite (elem_of_global_roots _ _ _ o Hok'), (elem_of_global_roots _ _ _ o Hok). cbn.
  intros [Ho|Ho]; [by right; left|]. apply list_elem_of_fmap in Ho as (v' & -> & (j & Hj)%list_elem_of_lookup).
  rewrite list_lookup_insert_Some in Hj. destruct Hj as [(_ & <- & _)|(_ & Hj)].
  - destruct (HF v) as [?|E]; [by left|]. right. right. rewrite E. apply (list_elem_of_fmap_2 (fun v => value_ref (global_value v))).
    unfold Context.get_internal_value in Hv. destruct (i <? 0); [done|]. destruct (_ !! _) eqn:El in Hv; [|done]. injection Hv as <-. by eapply list_elem_of_lookup_2.
  - right. right. apply (list_elem_of_fmap_2 (fun v => value_ref (global_value v))). by eapply list_elem_of_lookup_2.
Qed.

Lemma update_globals_Ret F w x w' : update_globals F w = Ret (x, w') ->
  exists c, F (globals_ w) = Ret c /\ w' = set_globals w c.
Proof. unfold update_globals. intros (? & ? & [= <- <-] & (c & ? & [-> Hc]%lift_Ret & [= _ <-])%M_bind_Ret)%M_bind_Ret. by exists c. Qed.

(** The machine with a stack of [vs], kept alive by [outer] and the stack. *)
Record holding (vs : list Value) (n : nat) (w : machine) : Prop := {
  holding_sound : sound ((value_root <$> vs) ++ rest_roots (globals_ w) (state w)) (mem w) (globals_ w);
  holding_stack : take (stack_top (state w)) (evalstack (state w)) = vs /\ length vs = stack_top (state w) /\ length (evalstack (state w)) = n;
  holding_frames : frame_count (state w) = 0%nat /\ (0 < length (frames (state w)))%nat;
  holding_upvalues : open_upvalues (state w) = None;
  holding_outer : outer_roots w = []
}.

Lemma holding_resting n w : (1 < n)%nat -> holding [] n w <-> resting w /\ length (evalstack (state w)) = n.
Proof.
  intros Hn. split.
  - intros [Hs (_ & Ht & <-) Hf Hu Ho]. split; [|done]. constructor; [done|constructor; [done|done|done]|done].
  - intros [[Hs [[Ht Hl] Hf Hu] Ho] <-]. constructor; [done|by rewrite Ht|done..].
Qed.

Lemma holding_roots vs n w : holding vs n w -> vm_roots w = Ret ((value_root <$> vs) ++ rest_roots (globals_ w) (state w)).
Proof. intros [_ [<- _] [Hc _] Hu _]. unfold vm_roots. rewrite Hu, Hc. by destruct (size _). Qed.

Lemma holding_push vs n v w x w' : holding vs n w ->
  sound (value_root v :: (value_root <$> vs) ++ rest_roots (globals_ w) (state w)) (mem w) (globals_ w) ->
  push v w = Ret (x, w') -> holding (vs ++ [v]) n w'.
Proof.
  intros [_ (Hst & Hl & Hn) Hf Hu Ho] Hs [Hne ->]%push_Ret.
  assert (Hlt : (stack_top (state w) < length (evalstack (state w)))%nat).
  { rewrite <-Hst, length_take in Hl. lia. }
  constructor; cbn; [|split_and!|done|done|done].
  - eapply sound_subset; [exact Hs|]. intros o. cbn. rewrite fmap_app. cbn. rewrite elem_of_cons, !elem_of_app, list_elem_of_singleton. tauto.
  - rewrite (take_S_r _ _ v) by by apply list_lookup_insert_eq. rewrite take_insert_ge by done. by rewrite Hst.
  - rewrite length_app, Hl. cbn. lia.
  - by rewrite length_insert.
Qed.

Lemma holding_pop vs n v w x w' : holding (vs ++ [v]) n w -> pop w = Ret (x, w') -> holding vs n w'.
Proof.
  intros [Hs (Hst & Hl & Hn) Hf Hu Ho] (t & Et & Hx & ->)%pop_Ret. rewrite length_app in Hl. cbn in Hl. assert (Elen : length vs = t) by lia.
  rewrite Et, (take_S_r _ _ x Hx) in Hst. apply app_inj_tail in Hst as [Hst _].
  constructor; cbn; [|done|done|done|done]. eapply sound_subset; [exact Hs|]. intros o. cbn. rewrite fmap_app, !elem_of_app. tauto.
Qed.

Lemma holding_peek vs n k w x w' : holding vs n w -> peek k w = Ret (x, w') -> w' = w /\ vs !! (length vs - k - 1)%nat = Some x.
Proof.
  intros [_ (<- & Hl & _) _ _ _]. unfold peek. intros (? & ? & [= <- <-] & Hm)%M_bind_Ret. rewrite Hl.
  destruct (Nat.leb_spec (stack_top (state w)) k); [done|]. unfold load_slot in Hm.
  apply M_bind_Ret in Hm as (? & ? & [= <- <-] & [-> Hv%or_undef_Ret]%lift_Ret). split; [done|]. rewrite lookup_take_lt by lia. exact Hv.
Qed.

Lemma holding_allocate {A} vs n (f : list (option ref) -> M Memory A) w x w' : holding vs n w -> allocate f w = Ret (x, w') ->
  exists m, f ((value_root <$> vs) ++ rest_roots (globals_ w) (state w)) (mem w) = Ret (x, m) /\ w' = set_mem w m.
Proof.
  intros Hw. unfold allocate. rewrite (holding_roots _ _ _ Hw), (holding_outer _ _ _ Hw). cbn [mbind outcome_bind app]. unfold zoom.
  destruct (f _ _) as [[y m]| | |]; try done. cbn. intros [= -> <-]. by exists m.
Qed.

(** Changing the memory and the globals only. *)
Lemma holding_contents vs n w w' : holding vs n w -> state w' = state w -> outer_roots w' = outer_roots w ->
  sound ((value_root <$> vs) ++ rest_roots (globals_ w') (state w)) (mem w') (globals_ w') -> holding vs n w'.
Proof. intros [_ Hst Hf Hu Ho] Es Eo Hs. constructor; rewrite ?Es; try done. by rewrite Eo. Qed.

Lemma holding_globals vs (w : machine) o : o ∈ Context.global_roots (globals_ w) -> o ∈ (value_root <$> vs) ++ rest_roots (globals_ w) (state w).
Proof. intros Ho. unfold rest_roots. rewrite !elem_of_app. tauto. Qed.

(** Changing a variable to something that is kept. *)
Lemma holding_update vs n w i F x w' o0 : holding vs n w -> update_globals (fun c => Context.update c i F) w = Ret (x, w') ->
  (forall v, value_ref (global_value (F v)) = o0 \/ value_ref (global_value (F v)) = value_ref (global_value v)) ->
  o0 ∈ value_root <$> vs \/ o0 = None -> holding vs n w'.
Proof.
  intros Hw (c & Hc & ->)%update_globals_Ret HF Ho0. pose proof (holding_sound _ _ _ Hw) as [Hm Hl Hs [g Hg]].
  destruct (update_globals_ok _ _ _ _ _ _ o0 Hg Hc HF) as [Hg' Hroots].
  eapply holding_contents; [exact Hw|done|done|]. cbn. constructor; [done|done| |by exists g].
  eapply closed_heap_subset; [|exact Hs]. intros o. unfold root_refs, rest_roots. rewrite !elem_of_app.
  pose proof (Hroots o). destruct Ho0 as [?|?]; intuition (subst; tauto).
Qed.

(** What an allocation leaves: one more pointer to keep, and the strings on the stack as they were. *)
Definition allocated vs (r : ref) (w w' : machine) : Prop := exists m, w' = set_mem w m /\
  sound (Some r :: (value_root <$> vs) ++ rest_roots (globals_ w) (state w)) m (globals_ w) /\
  forall k s, Some k ∈ value_root <$> vs -> Heap.string (objects (mem w)) k = Ret s -> Heap.string (objects m) k = Ret s.

Lemma allocated_push vs n r w w1 x w2 : holding vs n w -> allocated vs r w w1 -> push (Value.of_object r) w1 = Ret (x, w2) ->
  holding (vs ++ [Value.of_object r]) n w2 /\ mem w2 = mem w1.
Proof.
  intros Hw (m & -> & Hs & _) Hp. split; [|by apply push_Ret in Hp as [_ ->]]. eapply (holding_push _ _ _ (set_mem w m)); [|exact Hs|exact Hp].
  eapply holding_contents; [exact Hw|done|done|]. eapply sound_subset; [exact Hs|]. intros o ?. right. by right.
Qed.

Lemma intern_allocated vs n nm r w w' : holding vs n w -> no_nul nm -> intern nm w = Ret (r, w') ->
  allocated vs r w w' /\ exists s, Heap.string (objects (mem w')) r = Ret s.
Proof using HL.
  intros Hw Hn H1. destruct (holding_allocate _ _ _ _ _ _ Hw H1) as (m & Hm & ->). pose proof (holding_sound _ _ _ Hw) as Hs.
  destruct (intern_sound _ _ _ _ _ _ Hs (holding_globals _ _) Hn Hm) as [Hs1 Hstr]. split; [|by eexists]. exists m. split; [done|].
  split; [done|]. destruct Hs as [[p Hi] Hl Hsafe _].
  destruct (intern_outcome _ nm _ p Hi Hsafe Hn Hl) as [[E _]|(r' & m1 & q & E & _ & _ & _ & _ & He)]; [by rewrite E in Hm|].
  rewrite E in Hm. injection Hm as -> ->. intros k s Hk. eapply keeps_string; [exact (ext_keep _ _ _ _ He)|]. unfold root_refs. rewrite !elem_of_app. tauto.
Qed.

Lemma native_allocated vs n arity f r w w' : holding vs n w ->
  allocate (fun roots => Allocator.new_native_function roots arity f) w = Ret (r, w') -> allocated vs r w w'.
Proof using HL.
  intros Hw H1. destruct (holding_allocate _ _ _ _ _ _ Hw H1) as (m & Hm & ->). pose proof (holding_sound _ _ _ Hw) as Hs.
  pose proof Hs as [[p Hi] Hl Hsafe _].
  destruct (allocates_object _ ObjectType.NATIVE_FUNCTION (ObjNative (mkNative arity f)) _ p Hi Hsafe Hl)
    as (r' & m' & q & E & Hi3 & Hl3 & _ & Hr3 & He & _); [by intros []|].
  unfold Allocator.new_native_function in Hm. rewrite E in Hm. injection Hm as -> ->. exists m. split; [done|]. split.
  - eapply extends_sound; [exact Hs|apply holding_globals|by exists q|done|exact He|by eapply leaf_closed].
  - intros k s Hk. eapply keeps_string; [exact (ext_keep _ _ _ _ He)|]. unfold root_refs. rewrite !elem_of_app. tauto.
Qed.

(** Asking for the number of a global whose name is on the stack. *)
Lemma holding_global vs n w r s i c : holding vs n w -> Some r ∈ value_root <$> vs -> Heap.string (objects (mem w)) r = Ret s ->
  Context.get_global (objects (mem w)) (globals_ w) r = Ret (i, c) -> holding vs n (set_globals w c).
Proof.
  intros Hw Hr Hstr Hc. pose proof (holding_sound _ _ _ Hw) as [Hm Hl Hs [g Hg]].
  destruct (get_global_outcome _ _ _ _ _ Hg Hstr) as [E|(i' & c' & g' & E & Hg' & _ & _ & Hroots)]; rewrite E in Hc; [done|].
  injection Hc as -> ->. eapply holding_contents; [exact Hw|done|done|]. cbn. constructor; [done|done| |by exists g'].
  eapply closed_heap_subset; [|exact Hs]. intros o. unfold root_refs, rest_roots. rewrite !elem_of_app.
  pose proof (Hroots o). intuition (subst; tauto).
Qed.

(** Defining a native function leaves the machine at rest. *)
Lemma define_native_resting nm arity f n w x w' : no_nul nm -> holding [] n w ->
  define_native_function nm arity f w = Ret (x, w') -> holding [] n w'.
Proof using HL.
  intros Hn Hw. unfold define_native_function. intros (r & w1 & H1 & Hrun)%M_bind_Ret.
  destruct (intern_allocated _ _ _ _ _ _ Hw Hn H1) as [Ha1 [s Hstr1]].
  apply M_bind_Ret in Hrun as (? & w2 & H2 & Hrun). destruct (allocated_push _ _ _ _ _ _ _ Hw Ha1 H2) as [Hw2 Em2]. rewrite <-Em2 in Hstr1.
  apply M_bind_Ret in Hrun as (r' & w3 & H3 & Hrun). pose proof (native_allocated _ _ _ _ _ _ _ Hw2 H3) as Ha3.
  apply M_bind_Ret in Hrun as (? & w4 & H4 & Hrun). destruct (allocated_push _ _ _ _ _ _ _ Hw2 Ha3 H4) as [Hw4 Em4].
  assert (Hstr : Heap.string (objects (mem w4)) r = Ret s).
  { rewrite Em4. destruct Ha3 as (m & -> & _ & Hk). apply Hk; [by left|done]. }
  clear Ha1 Ha3 H1 H2 H3 H4. cbn [app] in Hw4.
  apply M_bind_Ret in Hrun as (v1 & ? & H5 & Hrun). apply (holding_peek _ _ _ _ _ _ Hw4) in H5 as [-> [= <-]].
  apply M_bind_Ret in Hrun as (k & ? & [-> [= ->]]%lift_Ret & Hrun). apply M_bind_Ret in Hrun as (? & ? & [= <- <-] & Hrun).
  apply M_bind_Ret in Hrun as ([i c] & ? & [-> Hget]%lift_Ret & Hrun). apply M_bind_Ret in Hrun as ([] & ? & [= <-] & Hrun).
  assert (Hw5 : holding [Value.of_object k; Value.of_object r'] n (set_globals w4 c)) by (eapply holding_global; try done; by left).
  set (w5 := set_globals w4 c) in *. clearbody w5.
  apply M_bind_Ret in Hrun as (v2 & ? & H6 & Hrun). apply (holding_peek _ _ _ _ _ _ Hw5) in H6 as [-> [= <-]].
  apply M_bind_Ret in Hrun as (? & w6 & H6 & Hrun). assert (Hw6 : holding [Value.of_object k; Value.of_object r'] n w6).
  { apply (holding_update _ _ _ _ _ _ _ (Some r') Hw5 H6); [by left|left; by right; left]. }
  apply M_bind_Ret in Hrun as (? & w7 & H7 & Hrun). assert (Hw7 : holding [Value.of_object k; Value.of_object r'] n w7).
  { apply (holding_update _ _ _ _ _ _ _ None Hw6 H7); [by right|by right]. }
  apply M_bind_Ret in Hrun as (? & w8 & H8 & Hrun). assert (Hw8 : holding [Value.of_object k; Value.of_object r'] n w8).
  { apply (holding_update _ _ _ _ _ _ _ None Hw7 H8); [by right|by right]. }
  apply M_bind_Ret in Hrun as (? & w9 & H9 & Hrun). assert (Hw9 : holding [Value.of_object k; Value.of_object r'] n w9).
  { apply (holding_update _ _ _ _ _ _ _ None Hw8 H9); [by right|by right]. }
  apply M_bind_Ret in Hrun as (? & w10 & H10 & Hrun). apply (holding_pop [Value.of_object k] _ _ _ _ _ Hw9) in H10.
  apply M_bind_Ret in Hrun as (? & w11 & H11 & [= _ <-]). by apply (holding_pop [] _ _ _ _ _ H10) in H11.
Qed.

Lemma define_natives_resting n l : Forall (fun t => no_nul t.1.1) l -> forall w x w', holding [] n w ->
  for_each (fun '(nm, arity, f) => define_native_function nm arity f) l w = Ret (x, w') -> holding [] n w'.
Proof using HL.
  induction 1 as [|[[nm arity] f] l Hn _ IH]; intros w x w' Hw; cbn [for_each]; [by intros [= _ <-]|].
  intros (? & w1 & H1 & H2)%M_bind_Ret. eapply IH; [|exact H2]. by eapply define_native_resting.
Qed.

Lemma native_names : Forall (fun t => no_nul t.1.1) Natives.native_table.
Proof. repeat constructor; discriminate. Qed.

(** The machine of a run: new, with the native functions. *)
Lemma start_resting opts input w : 0 <= value_stack_max opts -> 0 < frames_max opts ->
  Lox.start opts input = Ret w -> resting w /\ length (evalstack (state w)) = Z.to_nat (value_stack_max opts + 4).
Proof using HL.
  intros Hst Hfr. unfold Lox.start. intros (w0 & H0 & H1)%bind_Ret. apply bind_Ret in H1 as ([x w1] & H1 & [= <-]).
  assert (Hn : length (evalstack (state w0)) = Z.to_nat (value_stack_max opts + 4)).
  { unfold VM.new_vm in H0. apply bind_Ret in H0 as ([r m] & _ & [= <-]). cbn. by rewrite length_replicate. }
  apply new_machine_resting in H0; [|done|done]. assert (Hgt : (1 < Z.to_nat (value_stack_max opts + 4))%nat) by lia.
  apply (holding_resting _ _ Hgt). eapply define_natives_resting; [exact native_names|by apply (holding_resting _ _ Hgt)|exact H1].
Qed.

End resting.
