(* ===== verification/ExprSpec.v ===== *)
(** * Expressions: grammar, code and meaning

    What the one-pass compiler should make of arithmetical and logical
    expressions, stated without it: trees, a grammar with the usual levels of
    precedence, the code of a tree, and its value. *)

From S2P Require Import Prelude Double HashMap Hash Platform Opcode Token Value Chunk Object Parser Compiler.

(** ** Trees *)

Inductive literal : Type := LInt (n : Z) | LReal (d : double) | LBool (b : bool) | LNil.
Inductive unary_operator : Set := Negation | Complement.
Inductive binary_operator : Set := Plus | Minus | Times | Over | Equals | Differs | Above | AtLeast | Below | AtMost.
Inductive logical_operator : Set := Conjunction | Disjunction.

Inductive expr : Type :=
  | Lit (l : literal)
  | Unary (op : unary_operator) (e : expr)
  | Binary (op : binary_operator) (e1 e2 : expr)
  | Logical (op : logical_operator) (e1 e2 : expr).

(** ** Grammar *)

Abbreviation level := Precedence.to_int.

Section grammar.
Context `{Platform}.

Inductive literal_token (tok : Token) : literal -> Prop :=
  | token_int n : Token.token_type tok = TokenType.NUMBER_INT -> parse_int (Token.lexeme tok) = Some n ->
      literal_token tok (LInt n)
  | token_real d : Token.token_type tok = TokenType.NUMBER_REAL -> parse_real (Token.lexeme tok) = Some d ->
      literal_token tok (LReal d)
  | token_true : Token.token_type tok = TokenType.TRUE -> literal_token tok (LBool true)
  | token_false : Token.token_type tok = TokenType.FALSE -> literal_token tok (LBool false)
  | token_nil : Token.token_type tok = TokenType.NIL -> literal_token tok LNil.

Inductive unary_token : TokenType.t -> unary_operator -> Prop :=
  | unary_minus : unary_token TokenType.MINUS Negation
  | unary_bang : unary_token TokenType.BANG Complement
  | unary_not : unary_token TokenType.NOT Complement.

(** The binary operators with their levels: equality binds least, then comparisons, sums and products. *)
Inductive binary_token : TokenType.t -> binary_operator -> Precedence.t -> Prop :=
  | equal_token : binary_token TokenType.EQUAL_EQUAL Equals Precedence.EQUALITY
  | not_equal_token : binary_token TokenType.BANG_EQUAL Differs Precedence.EQUALITY
  | greater_token : binary_token TokenType.GREATER Above Precedence.COMPARISON
  | greater_equal_token : binary_token TokenType.GREATER_EQUAL AtLeast Precedence.COMPARISON
  | less_token : binary_token TokenType.LESS Below Precedence.COMPARISON
  | less_equal_token : binary_token TokenType.LESS_EQUAL AtMost Precedence.COMPARISON
  | plus_token : binary_token TokenType.PLUS Plus Precedence.TERM
  | minus_token : binary_token TokenType.MINUS Minus Precedence.TERM
  | star_token : binary_token TokenType.STAR Times Precedence.FACTOR
  | slash_token : binary_token TokenType.SLASH Over Precedence.FACTOR.

Inductive logical_token : TokenType.t -> logical_operator -> Precedence.t -> Prop :=
  | and_token : logical_token TokenType.AND Conjunction Precedence.AND
  | or_token : logical_token TokenType.OR Disjunction Precedence.OR.

(** [parses p ts e]: the tokens [ts] are the expression [e], none of whose outer operators binds less
    than level [p].  Binary operators associate to the left: their right operand is one level up; the
    logical ones associate to the right. *)
Inductive parses : Z -> list Token -> expr -> Prop :=
  | parses_literal p tok l : literal_token tok l -> p <= level Precedence.PRIMARY -> parses p [tok] (Lit l)
  | parses_group p o ts e c : Token.token_type o = TokenType.LEFT_PAREN ->
      parses (level Precedence.ASSIGNMENT) ts e -> Token.token_type c = TokenType.RIGHT_PAREN ->
      p <= level Precedence.PRIMARY -> parses p (o :: ts ++ [c]) e
  | parses_unary p o op ts e : unary_token (Token.token_type o) op -> parses (level Precedence.UNARY) ts e ->
      p <= level Precedence.UNARY -> parses p (o :: ts) (Unary op e)
  | parses_binary p q o op ts1 e1 ts2 e2 : binary_token (Token.token_type o) op q -> p <= level q ->
      parses (level q) ts1 e1 -> parses (level q + 1) ts2 e2 -> parses p (ts1 ++ o :: ts2) (Binary op e1 e2)
  | parses_logical p q o op ts1 e1 ts2 e2 : logical_token (Token.token_type o) op q -> p <= level q ->
      parses (level q + 1) ts1 e1 -> parses (level q) ts2 e2 -> parses p (ts1 ++ o :: ts2) (Logical op e1 e2).

End grammar.

(** ** Code *)

Abbreviation byte_of op := (OpCode.to_int op).

Definition operator_code (op : binary_operator) : list Z :=
  match op with
  | Plus => [byte_of OpCode.ADD]
  | Minus => [byte_of OpCode.SUBTRACT]
  | Times => [byte_of OpCode.MULTIPLY]
  | Over => [byte_of OpCode.DIVIDE]
  | Equals => [byte_of OpCode.EQUAL]
  | Differs => [byte_of OpCode.EQUAL; byte_of OpCode.NOT]
  | Above => [byte_of OpCode.GREATER]
  | AtLeast => [byte_of OpCode.LESS; byte_of OpCode.NOT]
  | Below => [byte_of OpCode.LESS]
  | AtMost => [byte_of OpCode.GREATER; byte_of OpCode.NOT]
  end.

(** A number in two bytes, the low one first. *)
Definition word (n : Z) : list Z := [n mod 256; n / 256].

(** Loading the constant with index [i]. *)
Definition load_code (i : Z) : list Z :=
  if i <=? 0xFF then [byte_of OpCode.LOAD_CONSTANT; i] else byte_of OpCode.LOAD_CONSTANT_LONG :: word i.

(** The constants of the chunk, and the indices of those that are integers. *)
Record pool : Type := mkPool { pool_values : list Value; pool_index : gmap Z Z }.

Definition new_constant (v : Value) (s : pool) : Z * pool :=
  (Z.of_nat (length (pool_values s)), mkPool (pool_values s ++ [v]) (pool_index s)).

Definition remember (n i : Z) (s : pool) : pool := mkPool (pool_values s) (<[n := i]> (pool_index s)).

Definition literal_code (l : literal) (s : pool) : list Z * pool :=
  match l with
  | LBool b => ([byte_of (if b then OpCode.TRUE else OpCode.FALSE)], s)
  | LNil => ([byte_of OpCode.NIL], s)
  | LReal d => let '(i, s) := new_constant (Value.of_real d) s in (load_code i, s)
  | LInt n =>
      if n =? 0 then ([byte_of OpCode.ZERO], s)
      else if n =? 1 then ([byte_of OpCode.ONE], s)
      else match pool_index s !! n with
           | Some i => (load_code i, s)
           | None => let '(i, s) := new_constant (Value.of_int n) s in (load_code i, remember n i s)
           end
  end.

(** A negation that follows the byte of ONE turns it into that of MINUS_ONE. *)
Definition negate_code (code : list Z) : list Z :=
  if decide (last code = Some (byte_of OpCode.ONE)) then removelast code ++ [byte_of OpCode.MINUS_ONE]
  else code ++ [byte_of OpCode.NEGATE].

Definition unary_code (op : unary_operator) (code : list Z) : list Z :=
  match op with Negation => negate_code code | Complement => code ++ [byte_of OpCode.NOT] end.

(** The jump over the second operand [code]. *)
Definition branch_op (op : logical_operator) : OpCode.t :=
  match op with Conjunction => OpCode.JUMP_IF_FALSE | Disjunction => OpCode.JUMP_IF_TRUE end.
Definition branch_code (op : logical_operator) (code : list Z) : list Z :=
  byte_of (branch_op op) :: word (Z.of_nat (length code) + 1) ++ byte_of OpCode.POP_TOP :: code.

Fixpoint expr_code (e : expr) (s : pool) : list Z * pool :=
  match e with
  | Lit l => literal_code l s
  | Unary op e => let '(code, s) := expr_code e s in (unary_code op code, s)
  | Binary op e1 e2 =>
      let '(code1, s) := expr_code e1 s in
      let '(code2, s) := expr_code e2 s in
      (code1 ++ code2 ++ operator_code op, s)
  | Logical op e1 e2 =>
      let '(code1, s) := expr_code e1 s in
      let '(code2, s) := expr_code e2 s in
      (code1 ++ branch_code op code2, s)
  end.

(** ** Meaning *)

Definition literal_value (l : literal) : Value :=
  match l with
  | LInt n => Value.of_int n | LReal d => Value.of_real d | LBool b => Value.of_bool b | LNil => Value.nil
  end.

Definition truth (v : Value) : bool := match data v with NIL => false | BOOLEAN b => b | _ => true end.

(** A number as a real. *)
Definition real_of (v : Value) : option double :=
  match data v with NUMBER_INT z => Some (Double.of_Z z) | NUMBER_REAL d => Some d | _ => None end.

(** The result of 64-bit signed arithmetic. *)
Definition exact (z : Z) : outcome Value :=
  if decide (is_i64 z) then Ret (Value.of_int z) else Undef "signed overflow".

Definition on_integers (op : binary_operator) (x y : Z) : outcome Value :=
  match op with
  | Plus => exact (x + y)
  | Minus => exact (x - y)
  | Times => exact (x * y)
  | Over => Ret (Value.of_real (Double.div (Double.of_Z x) (Double.of_Z y)))
  | Equals => Ret (Value.of_bool (x =? y))
  | Differs => Ret (Value.of_bool (negb (x =? y)))
  | Above => Ret (Value.of_bool (y <? x))
  | AtLeast => Ret (Value.of_bool (y <=? x))
  | Below => Ret (Value.of_bool (x <? y))
  | AtMost => Ret (Value.of_bool (x <=? y))
  end.

(** Comparisons that include equality are the negations of the opposite ones, also for a NaN. *)
Definition on_reals (op : binary_operator) (x y : double) : Value :=
  match op with
  | Plus => Value.of_real (Double.add x y)
  | Minus => Value.of_real (Double.sub x y)
  | Times => Value.of_real (Double.mul x y)
  | Over => Value.of_real (Double.div x y)
  | Equals => Value.of_bool (Double.eqb x y)
  | Differs => Value.of_bool (negb (Double.eqb x y))
  | Above => Value.of_bool (Double.ltb y x)
  | AtLeast => Value.of_bool (negb (Double.ltb x y))
  | Below => Value.of_bool (Double.ltb x y)
  | AtMost => Value.of_bool (negb (Double.ltb y x))
  end.

(** Arithmetic is for numbers; any two values can be compared for equality. *)
Definition compute (op : binary_operator) (a b : Value) : outcome Value :=
  match data a, data b, real_of a, real_of b with
  | NUMBER_INT x, NUMBER_INT y, _, _ => on_integers op x y
  | _, _, Some x, Some y => Ret (on_reals op x y)
  | x, y, _, _ =>
      match op with
      | Equals => Ret (Value.of_bool (bool_decide (x = y)))
      | Differs => Ret (Value.of_bool (negb (bool_decide (x = y))))
      | _ => Throw "operands must be numbers"
      end
  end.

Definition negation (v : Value) : outcome Value :=
  match data v with
  | NUMBER_INT z => exact (- z)
  | NUMBER_REAL d => Ret (Value.of_real (Double.opp d))
  | _ => Throw "operand must be a number"
  end.

(** The value of an expression: [Throw] is a runtime error, [Undef] an overflow. *)
Fixpoint meaning (e : expr) : outcome Value :=
  match e with
  | Lit l => Ret (literal_value l)
  | Unary Negation e => v ← meaning e; negation v
  | Unary Complement e => v ← meaning e; Ret (Value.of_bool (negb (truth v)))
  | Binary op e1 e2 => a ← meaning e1; b ← meaning e2; compute op a b
  | Logical Conjunction e1 e2 => v ← meaning e1; if truth v then meaning e2 else Ret v
  | Logical Disjunction e1 e2 => v ← meaning e1; if truth v then Ret v else meaning e2
  end.

(** The slots of the stack its code uses. *)
Fixpoint slots (e : expr) : nat :=
  match e with
  | Lit _ => 1
  | Unary _ e => slots e
  | Binary _ e1 e2 => slots e1 `max` S (slots e2)
  | Logical _ e1 e2 => slots e1 `max` slots e2
  end.

(** The last byte of the code is that of ONE. *)
Fixpoint ends_in_one (e : expr) : bool :=
  match e with
  | Lit (LInt n) => n =? 1
  | Logical _ _ e => ends_in_one e
  | _ => false
  end.

(** No negation is applied to an [and] or [or] that ends in the literal 1, whose code the negation would
    rewrite instead of negating the result. *)
Fixpoint plain (e : expr) : bool :=
  match e with
  | Lit _ => true
  | Unary Negation (Logical _ _ e2 as e) => plain e && negb (ends_in_one e2)
  | Unary _ e => plain e
  | Binary _ e1 e2 | Logical _ e1 e2 => plain e1 && plain e2
  end.

(** ** Facts about codes *)

Lemma word_bytes n : is_u16 n -> word n = [u8 (Z.land n 0xFF); u8 (Z.land (Z.shiftr n 8) 0xFF)].
Proof.
  intros Hn. unfold is_u16 in Hn. unfold word, u8. change 0xFF with (Z.ones 8).
  rewrite !Z.land_ones, Z.shiftr_div_pow2, !Zmod_mod by lia. do 2 f_equal. change (2 ^ 8) with 256.
  symmetry. apply Z.mod_small. split; [apply Z.div_pos; lia|apply Z.div_lt_upper_bound; lia].
Qed.

Lemma load_code_nonempty i : load_code i <> [].
Proof. unfold load_code. by case_match. Qed.

Lemma unary_code_length op cd : (length cd <= length (unary_code op cd))%nat.
Proof.
  destruct op; cbn [unary_code]; unfold negate_code; [|rewrite length_app; lia].
  case_decide as El; [|rewrite length_app; lia]. apply last_Some in El as [l ->]. by rewrite removelast_last, !length_app.
Qed.

Lemma expr_code_nonempty e : forall s, (expr_code e s).1 <> [].
Proof.
  induction e as [l|op e IH|op e1 IH1 e2 IH2|op e1 IH1 e2 IH2]; intros s; cbn [expr_code].
  - destruct l; cbn [literal_code new_constant fst]; repeat case_match; try done; apply load_code_nonempty.
  - specialize (IH s). destruct (expr_code e s) as [cd s1]. cbn [fst] in *. intros E.
    pose proof (unary_code_length op cd) as Hl. rewrite E in Hl. by destruct cd; cbn in Hl; [|lia].
  - specialize (IH1 s). destruct (expr_code e1 s) as [cd1 s1]. destruct (expr_code e2 s1). cbn [fst] in *. by destruct cd1.
  - specialize (IH1 s). destruct (expr_code e1 s) as [cd1 s1]. destruct (expr_code e2 s1). cbn [fst] in *. by destruct cd1.
Qed.

(** The index leads to the integers among the constants. *)
Definition known (s : pool) : Prop := forall n i, pool_index s !! n = Some i ->
  0 <= i /\ pool_values s !! Z.to_nat i = Some (Value.of_int n).

Lemma known_new v s : known s -> known (new_constant v s).2.
Proof. intros Hs n i (? & Hl)%Hs. split; [done|]. by apply lookup_app_l_Some. Qed.

Lemma known_remember n s : known s -> known (remember n (new_constant (Value.of_int n) s).1 (new_constant (Value.of_int n) s).2).
Proof.
  intros Hs m i Hm. cbn in Hm |- *. destruct (decide (m = n)) as [->|Hne].
  - rewrite lookup_insert_eq in Hm. injection Hm as <-. split; [lia|]. rewrite Nat2Z.id. by apply list_lookup_middle.
  - rewrite lookup_insert_ne in Hm by done. by apply (known_new (Value.of_int n) s Hs).
Qed.

Lemma expr_pool e : forall s, known s ->
  known (expr_code e s).2 /\ pool_values s `prefix_of` pool_values (expr_code e s).2.
Proof.
  induction e as [l|op e IH|op e1 IH1 e2 IH2|op e1 IH1 e2 IH2]; intros s Hs; cbn [expr_code].
  - destruct l as [n|d|b|]; cbn [literal_code]; try done.
    + destruct (n =? 0); [done|]. destruct (n =? 1); [done|]. destruct (pool_index s !! n); [done|].
      split; [by apply known_remember|by eexists].
    + split; [by apply known_new|by eexists].
  - specialize (IH s Hs). by destruct (expr_code e s).
  - specialize (IH1 s Hs). destruct (expr_code e1 s) as [cd1 s1]. destruct IH1 as [K1 P1]. specialize (IH2 s1 K1).
    destruct (expr_code e2 s1) as [cd2 s2]. destruct IH2 as [K2 P2]. split; [done|by etrans].
  - specialize (IH1 s Hs). destruct (expr_code e1 s) as [cd1 s1]. destruct IH1 as [K1 P1]. specialize (IH2 s1 K1).
    destruct (expr_code e2 s1) as [cd2 s2]. destruct IH2 as [K2 P2]. split; [done|by etrans].
Qed.

(** A negation meets the byte of ONE at the end of its operand's code only where the literal 1 is last: as
    long as there are at most 47 constants no index is mistaken for that byte. *)
Lemma last_load i : 0 <= i < 47 -> last (load_code i) <> Some (byte_of OpCode.ONE).
Proof. intros Hi. unfold load_code. rewrite (proj2 (Z.leb_le _ _)) by lia. cbn. intros [= E]. lia. Qed.

Lemma last_one e : forall s, known s -> (length (pool_values (expr_code e s).2) <= 47)%nat ->
  last (expr_code e s).1 = Some (byte_of OpCode.ONE) -> ends_in_one e = true.
Proof.
  induction e as [l|op e IH|op e1 IH1 e2 IH2|op e1 IH1 e2 IH2]; intros s Hs; cbn [expr_code ends_in_one].
  - destruct l as [n|d|b|]; cbn [literal_code ends_in_one]; [| |by destruct b|done].
    + destruct (n =? 0); [done|]. destruct (n =? 1); [done|]. destruct (pool_index s !! n) as [i|] eqn:Ei; intros Hl El.
      * destruct (Hs n i Ei) as [Hi Hv]. apply lookup_lt_Some in Hv. cbn in Hl. by apply last_load in El; [|lia].
      * cbn in Hl. rewrite length_app in Hl. cbn in Hl. by apply last_load in El; [|lia].
    + intros Hl El. cbn in Hl. rewrite length_app in Hl. cbn in Hl. by apply last_load in El; [|lia].
  - destruct (expr_code e s) as [cd s1]. cbn [fst snd]. intros _ El. exfalso.
    destruct op; cbn [unary_code] in El; unfold negate_code in El; [case_decide|]; by rewrite last_snoc in El.
  - destruct (expr_code e1 s) as [cd1 s1], (expr_code e2 s1) as [cd2 s2]. cbn [fst snd]. intros _ El.
    rewrite app_assoc, last_app in El. by destruct op.
  - pose proof (expr_pool e1 s Hs) as H1. destruct (expr_code e1 s) as [cd1 s1]. destruct H1 as [K1 _].
    specialize (IH2 s1 K1). pose proof (expr_code_nonempty e2 s1) as Hne.
    destruct (expr_code e2 s1) as [cd2 s2]. cbn [fst snd] in *. intros Hl El. apply (IH2 Hl).
    unfold branch_code in El. cbn [app word] in El. rewrite last_app in El. destruct cd2 as [|b cd2]; [done|].
    rewrite !last_cons_cons in El. destruct (last (b :: cd2)) eqn:E; [done|by apply last_None in E].
Qed.

(** ** Programs that print expressions *)

Section programs.
Context `{Platform}.

(** The tokens of [echo e1; echo e2; ...]: the word for PRINT is echo. *)
Inductive program : list Token -> list expr -> Prop :=
  | program_nil : program [] []
  | program_cons pr ts e semi rest es : Token.token_type pr = TokenType.PRINT ->
      parses (level Precedence.ASSIGNMENT) ts e -> Token.token_type semi = TokenType.SEMICOLON ->
      program rest es -> program (pr :: ts ++ semi :: rest) (e :: es).

(** The text of a value that is not an object. *)
Definition text_of (v : Value) : string :=
  match data v with
  | NIL => "nil"
  | BOOLEAN b => if b then "true" else "false"
  | NUMBER_INT i => to_string i
  | NUMBER_REAL d => format_real d
  | OBJECT _ => ""
  end.

(** The texts a program prints before it ends, in order, and how it ends. *)
Fixpoint printed (es : list expr) : list string * outcome unit :=
  match es with
  | [] => ([], Ret tt)
  | e :: es =>
      match meaning e with
      | Ret v => let '(out, end_) := printed es in (text_of v :: String "010"%char "" :: out, end_)
      | Throw e => ([], Throw e)
      | Undef why => ([], Undef why)
      | OutOfFuel => ([], OutOfFuel)
      end
  end.

End programs.

Fixpoint program_code (es : list expr) (s : pool) : list Z * pool :=
  match es with
  | [] => ([], s)
  | e :: es =>
      let '(code1, s) := expr_code e s in
      let '(code2, s) := program_code es s in
      (code1 ++ byte_of OpCode.PRINT :: code2, s)
  end.
