(* ===== verification/ExprCompile.v ===== *)
(** * The compiler translates expressions as specified

    The part of the compiler's state that expressions change, the effect of
    the elementary operations on it, and the precedence climbing loop: from
    the first token of an expression of level [p], the loop at any level up to
    [p] continues after its last token with its code appended. *)

From S2P Require Import Prelude Double HashMap HashMapFacts Hash Platform HashMapProps Opcode Token Lexer LexerFacts Value Chunk ChunkFacts Object WriteFacts Memory Context Parser ParserFacts Compiler CompilerFacts CompilerSteps ExprSpec.
Import Compiler (parse, functions, run_parse_precedence, run_rule, loop_fuel, get_rule, prefix, infix, precedence, emit_opcode, write_load_constant, get_chunk, update_chunk, add_constant).

(** ** The parser *)

Definition here_type (p : Parser) : TokenType.t := Token.token_type (Lexer.deref (Parser.current p)).
Definition level_of (t : TokenType.t) : Z := level (precedence (get_rule t)).

(** [p'] is the parser [p] after the tokens [ts]. *)
Fixpoint consumes (ts : Datatypes.list Token) (p p' : Parser) : Prop :=
  match ts with
  | [] => p' = p
  | t :: ts => Lexer.deref (Parser.current p) = t /\ exists p1, Parser.advance p = Ret (tt, p1) /\ consumes ts p1 p'
  end.

Lemma consumes_app ts1 ts2 : forall p p', consumes (ts1 ++ ts2) p p' <->
  exists p1, consumes ts1 p p1 /\ consumes ts2 p1 p'.
Proof.
  induction ts1 as [|t ts1 IH]; intros p p'; cbn [app consumes].
  - split; [by intros Hc; exists p|by intros (p1 & -> & ?)].
  - split.
    + intros (Ht & p1 & Ha & (p2 & H1 & H2)%IH). exists p2. split; [|done]. split; [done|]. by exists p1.
    + intros (p2 & (Ht & p1 & Ha & H1) & H2). split; [done|]. exists p1. split; [done|]. apply IH. by exists p2.
Qed.

Lemma tokens_not_eof `{Platform} p ts e : parses p ts e ->
  Forall (fun t => Token.token_type t <> TokenType.END_OF_FILE) ts.
Proof.
  induction 1 as [p tok l Hl|p o ts e c Ho _ IH Hc|p o op ts e Ho _ IH|p q o op ts1 e1 ts2 e2 Ho _ _ IH1 _ IH2
    |p q o op ts1 e1 ts2 e2 Ho _ _ IH1 _ IH2].
  - apply Forall_singleton. destruct Hl as [n E|d E|E|E|E]; by rewrite E.
  - apply Forall_cons. split; [by rewrite Ho|]. apply Forall_app. split; [done|]. apply Forall_singleton. by rewrite Hc.
  - apply Forall_cons. split; [|done]. intros E. rewrite E in Ho. inversion Ho.
  - apply Forall_app. split; [done|]. apply Forall_cons. split; [|done]. intros E. rewrite E in Ho. inversion Ho.
  - apply Forall_app. split; [done|]. apply Forall_cons. split; [|done]. intros E. rewrite E in Ho. inversion Ho.
Qed.

Lemma parses_nonempty `{Platform} p ts e : parses p ts e -> (0 < length ts)%nat.
Proof. destruct 1; rewrite ?length_app; cbn; lia. Qed.

Lemma consumes_ok src (Hsrc : nul ∉ src) ts : forall p p', parser_ok src p -> consumes ts p p' ->
  Forall (fun t => Token.token_type t <> TokenType.END_OF_FILE) ts ->
  parser_ok src p' /\ (length ts + prem p' <= prem p)%nat.
Proof.
  induction ts as [|t ts IH]; intros p p' Hp Hc Ht; cbn [consumes] in Hc; [by subst|].
  destruct Hc as (Et & p1 & Ha & Hc). inversion_clear Ht as [|? ? Hne Ht'].
  destruct (advance_runs src Hsrc p Hp) as (p1' & Ha' & Hp1 & _ & Hrem & _). rewrite Ha in Ha'. injection Ha' as <-.
  destruct (IH p1 p' Hp1 Hc Ht') as [Hp' Hl]. split; [done|]. cbn [length].
  assert (prem p <> 0%nat); [|lia]. unfold prem. rewrite (rem_end src) by apply Hp.
  rewrite <-(iter_type src) by apply Hp. by rewrite Et.
Qed.

Section translation.
Context {HP : Platform} {HL : PlatformLaws}.

(** ** The part of the compiler's state that expressions change *)

Record gen : Type := mkGen { gen_parser : Parser; gen_chunk : Chunk; gen_numbers : HashMap.table Z Z }.

Context (w0 : world) (c : compiler) (cs : Datatypes.list compiler) (r : ref) (fn : ObjectFunction).
Hypothesis (Hr : compiled c = Some r).
Hypothesis (Hfn : Heap.function (objects (memory w0)) r = Ret fn).

Definition install (g : gen) : world :=
  mkWorld (Memory.set_objects (memory w0)
             (Heap.write (objects (memory w0)) r (ObjFunction (Compiler.with_chunk fn (gen_chunk g)))))
    (context w0) (gen_parser g) (Compiler.with_numbers c (gen_numbers g) :: cs) (vm w0).

Definition with_parser (g : gen) (p : Parser) : gen := mkGen p (gen_chunk g) (gen_numbers g).
Definition with_code (g : gen) (ch : Chunk) : gen := mkGen (gen_parser g) ch (gen_numbers g).
Definition with_index (g : gen) (t : HashMap.table Z Z) : gen := mkGen (gen_parser g) (gen_chunk g) t.

Lemma run_parse {A} (m : M Parser A) g a p : m (gen_parser g) = Ret (a, p) ->
  parse m (install g) = Ret (a, install (with_parser g p)).
Proof. intros E. unfold parse, zoom. cbn. by rewrite E. Qed.

Lemma with_parser_id g : with_parser g (gen_parser g) = g.
Proof. by destruct g. Qed.

Lemma run_gets {A} (f : Parser -> A) g : parse (gets f) (install g) = Ret (f (gen_parser g), install g).
Proof. erewrite run_parse by apply gets_run. by rewrite with_parser_id. Qed.

Lemma run_this g : Compiler.this (install g) = Ret (Compiler.with_numbers c (gen_numbers g), install g).
Proof. done. Qed.

Lemma run_this_function g : Compiler.this_function (install g) = Ret (r, install g).
Proof using Hr.
  unfold Compiler.this_function. rewrite (M_bind_run _ _ _ _ _ (run_this g)). unfold lift.
  change (compiled (Compiler.with_numbers c _)) with (compiled c). by rewrite Hr.
Qed.

Lemma installed_function g :
  Heap.function (objects (memory (install g))) r = Ret (Compiler.with_chunk fn (gen_chunk g)).
Proof using Hfn.
  exact (write_function_same _ _ fn _ Hfn).
Qed.

Lemma run_get_chunk g : get_chunk (install g) = Ret (gen_chunk g, install g).
Proof using Hr Hfn.
  unfold get_chunk. rewrite (M_bind_run _ _ _ _ _ (run_this_function g)).
  unfold get, lift, mbind, M_bind. by rewrite installed_function.
Qed.

Lemma run_update_chunk F g ch : F (gen_chunk g) = Ret ch ->
  update_chunk F (install g) = Ret (tt, install (with_code g ch)).
Proof using Hr Hfn.
  intros HF. unfold update_chunk, Compiler.update_function. rewrite (M_bind_run _ _ _ _ _ (run_this_function g)).
  unfold get, put, lift, mbind, M_bind. rewrite installed_function. cbn [outcome_bind mbind].
  change (chunk (Compiler.with_chunk fn (gen_chunk g))) with (gen_chunk g). rewrite HF. cbn [mbind outcome_bind].
  unfold install, Compiler.set_memory, Memory.set_objects. cbn. do 3 f_equal.
  unfold Heap.write. rewrite alter_alter_eq. done.
Qed.

Lemma run_update_throw F g e : F (gen_chunk g) = Throw e -> update_chunk F (install g) = Throw e.
Proof using Hr Hfn.
  intros HF. unfold update_chunk, Compiler.update_function. rewrite (M_bind_run _ _ _ _ _ (run_this_function g)).
  unfold get, put, lift, mbind, M_bind. rewrite installed_function. cbn [outcome_bind mbind].
  change (chunk (Compiler.with_chunk fn (gen_chunk g))) with (gen_chunk g). by rewrite HF.
Qed.

(** ** Emitting code *)

(** The chunk and the cache of [g] are the pool [s]. *)
Record tracks (g : gen) (s : pool) : Prop := {
  tracks_values : value_array (gen_chunk g) = pool_values s;
  tracks_index : repr (fun k => k <> 0) (gen_numbers g) (pool_index s);
  tracks_known : forall n i, pool_index s !! n = Some i ->
    0 <= i <= 0xFFFF /\ pool_values s !! Z.to_nat i = Some (Value.of_int n)
}.

(** From [g] to [g'] the parser came to [p], the code grew by [cd] and the constants became [s]. *)
Record emits (cd : Datatypes.list Z) (s : pool) (p : Parser) (g g' : gen) : Prop := {
  emits_parser : gen_parser g' = p;
  emits_code : code (gen_chunk g') = code (gen_chunk g) ++ cd;
  emits_tracks : tracks g' s
}.

(** The computation reaches a limit of the compiler, or an installed state with [Q]. *)
Definition leads {A} (o : outcome (A * world)) (Q : A -> gen -> Prop) : Prop :=
  match o with
  | Ret (a, w) => exists g, w = install g /\ Q a g
  | Throw e => limit_error e
  | _ => False
  end.

Lemma leads_bind {A B} (m : M world A) (f : A -> M world B) w Q :
  leads (m w) (fun a g => leads (f a (install g)) Q) -> leads ((m ≫= f) w) Q.
Proof. unfold mbind, M_bind. destruct (m w) as [[a w']| | |]; try done. by intros (g & -> & ?). Qed.

Lemma leads_run {A B} (m : M world A) (f : A -> M world B) w a g Q :
  m w = Ret (a, install g) -> leads (f a (install g)) Q -> leads ((m ≫= f) w) Q.
Proof. intros E HQ. by rewrite (M_bind_run _ _ _ _ _ E). Qed.

Lemma leads_mono {A} (o : outcome (A * world)) (Q Q' : A -> gen -> Prop) :
  leads o Q -> (forall a g, Q a g -> Q' a g) -> leads o Q'.
Proof. destruct o as [[a w]| | |]; try done. intros (g & -> & ?) HQ. exists g. auto. Qed.

Lemma leads_Ret {A} (o : outcome (A * world)) a g (Q : A -> gen -> Prop) : o = Ret (a, install g) -> Q a g -> leads o Q.
Proof. intros -> ?. by exists g. Qed.

Lemma leads_lift {A B} (o : outcome A) (f : A -> M world B) a g Q :
  o = Ret a -> leads (f a (install g)) Q -> leads ((lift o ≫= f) (install g)) Q.
Proof. by intros ->. Qed.

Lemma leads_throw {A B} (o : outcome A) (f : A -> M world B) e g Q :
  o = Throw e -> limit_error e -> leads ((lift o ≫= f) (install g)) Q.
Proof. by intros ->. Qed.

(** Looking at a token. *)
Lemma leads_gets {A B} (f : Parser -> A) (k : A -> M world B) g Q :
  leads (k (f (gen_parser g)) (install g)) Q -> leads ((parse (gets f) ≫= k) (install g)) Q.
Proof. apply leads_run, run_gets. Qed.

Lemma tracks_code g s ch : tracks g s -> value_array ch = value_array (gen_chunk g) -> tracks (with_code g ch) s.
Proof. intros [Hv Hi Hk] E. constructor; [by cbn; rewrite E|done..]. Qed.

Lemma previous_line_run g : exists line, Compiler.previous_line (install g) = Ret (line, install g).
Proof. unfold Compiler.previous_line, Parser.previous. rewrite (M_bind_run _ _ _ _ _ (run_gets _ g)). by eexists. Qed.

Lemma emit_run op g s : tracks g s ->
  exists g', emit_opcode op (install g) = Ret (tt, install g') /\ emits [OpCode.to_int op] s (gen_parser g) g g'.
Proof using Hr Hfn.
  intros Ht. unfold emit_opcode. destruct (previous_line_run g) as (line & El). rewrite (M_bind_run _ _ _ _ _ El).
  eexists. split; [by apply run_update_chunk|]. constructor; [done| |].
  - cbn [gen_chunk with_code]. by rewrite write_simple_op_byte, code_write_byte.
  - apply tracks_code; [done|]. apply values_simple_op.
Qed.

Lemma load_run i line g s : tracks g s -> 0 <= i <= 0xFFFF ->
  exists g', write_load_constant i line (install g) = Ret (tt, install g') /\ emits (load_code i) s (gen_parser g) g g'.
Proof using Hr Hfn.
  intros Ht Hi. unfold write_load_constant.
  assert (Hc : exists ch, Chunk.write_load_constant (gen_chunk g) i line = Ret ch /\
    value_array ch = value_array (gen_chunk g) /\ code ch = code (gen_chunk g) ++ load_code i).
  { unfold Chunk.write_load_constant, load_code. rewrite (proj2 (Z.ltb_ge _ _)) by lia. destruct (i <=? 0xFF) eqn:E; zbool.
    - eexists. split; [done|]. rewrite write_simple_op_byte, !values_write_byte, !code_write_byte, u8_small by (unfold is_u8; lia).
      by rewrite <-app_assoc.
    - rewrite (proj2 (Z.leb_le _ _)) by lia. eexists. split; [done|]. rewrite u16_small by (unfold is_u16; lia).
      rewrite values_uint16, values_simple_op, write_uint16_le_bytes, !code_write_byte, write_simple_op_byte, code_write_byte.
      rewrite word_bytes by (unfold is_u16; lia). by rewrite <-!app_assoc. }
  destruct Hc as (ch & Ech & Ev & Ec). eexists. split; [apply run_update_chunk; exact Ech|].
  constructor; [done|done|by apply tracks_code].
Qed.

Lemma emits_trans cd1 cd2 s1 s2 p1 p2 g1 g2 g3 :
  emits cd1 s1 p1 g1 g2 -> emits cd2 s2 p2 g2 g3 -> emits (cd1 ++ cd2) s2 p2 g1 g3.
Proof. intros [_ E1 _] [Hp E2 Ht]. constructor; [done| |done]. by rewrite E2, E1, app_assoc. Qed.

(** Code emitted without moving the parser. *)
Lemma emits_stay cd1 cd2 s1 s2 p g1 g2 g3 :
  emits cd1 s1 p g1 g2 -> emits cd2 s2 (gen_parser g2) g2 g3 -> emits (cd1 ++ cd2) s2 p g1 g3.
Proof. intros H1 H2. rewrite (emits_parser _ _ _ _ _ H1) in H2. by eapply emits_trans. Qed.

Lemma emits_refl g s : tracks g s -> emits [] s (gen_parser g) g g.
Proof. constructor; [done|by rewrite app_nil_r|done]. Qed.

(** ** Constants *)

Lemma add_constant_leads v g s : tracks g s -> leads (add_constant v (install g)) (fun i g' =>
  new_constant v s = (i, (new_constant v s).2) /\ 0 <= i <= 0xFFFF /\
  emits [] (new_constant v s).2 (gen_parser g) g g').
Proof using HL Hr Hfn.
  intros Ht. unfold add_constant. eapply leads_run; [apply run_get_chunk|].
  unfold Chunk.add_constant. rewrite (tracks_values _ _ Ht). destruct (0xFFFF <? _) eqn:E.
  { eapply leads_throw; [done|]. unfold limit_error. set_solver. }
  zbool. eapply leads_lift; [done|]. eapply leads_run; [by apply run_update_chunk|]. eapply leads_Ret; [done|].
  unfold new_constant. rewrite length_app. cbn [length snd].
  replace (Z.of_nat (length (pool_values s) + 1) - 1) with (Z.of_nat (length (pool_values s))) by lia.
  split_and!; [done|lia|lia|]. constructor; [done|cbn; by rewrite app_nil_r|]. destruct Ht as [Hv Hi Hk].
  constructor; [done|done|]. intros n i (? & Hl)%Hk. split; [done|]. by apply lookup_app_l_Some.
Qed.

Lemma remember_leads n i g s : n <> 0 -> tracks g s -> 0 <= i <= 0xFFFF ->
  pool_values s !! Z.to_nat i = Some (Value.of_int n) ->
  leads ((c ← Compiler.this; '(_, t) ← lift (HashMap.insert (constant_numbers c) n i);
          Compiler.set_this (Compiler.with_numbers c t)) (install g)) (fun _ g' =>
    emits [] (remember n i s) (gen_parser g) g g').
Proof.
  intros Hn [Hv Hi Hk] Hr1 Hl. eapply leads_run; [apply run_this|]. cbn [constant_numbers Compiler.with_numbers].
  destruct (insert_repr (fun k => k <> 0) (gen_numbers g) (pool_index s) n i Hi Hn) as [[E _]|(t & E & Hi')].
  { eapply leads_throw; [exact E|]. unfold limit_error. set_solver. }
  eapply leads_lift; [exact E|]. eapply (leads_Ret _ tt (with_index g t)); [done|]. constructor; [done|by rewrite app_nil_r|].
  constructor; [done|done|]. cbn [remember pool_index pool_values]. intros m j Hm.
  destruct (decide (m = n)) as [->|Hne]; [rewrite lookup_insert_eq in Hm; by injection Hm as <-|].
  rewrite lookup_insert_ne in Hm by done. by apply Hk.
Qed.

(** ** Literals *)

Lemma literal_leads pp tok l b g s : literal_token tok l -> Lexer.deref (previous_ (gen_parser g)) = tok ->
  tracks g s ->
  exists f, prefix (get_rule (Token.token_type tok)) = Some f /\
    leads (run_rule pp f b (install g)) (fun _ g' =>
      emits (literal_code l s).1 (literal_code l s).2 (gen_parser g) g g').
Proof using HL Hr Hfn.
  intros Hl Hp Ht.
  assert (Hop : forall op, leads (emit_opcode op (install g)) (fun _ g' => emits [OpCode.to_int op] s (gen_parser g) g g')).
  { intros op. destruct (emit_run op g s Ht) as (g' & E & He). by eapply leads_Ret. }
  destruct Hl as [n E En|d E Ed|E|E|E]; rewrite E; (eexists; split; [reflexivity|]); cbn [run_rule literal_code fst snd];
    unfold Compiler.number, Compiler.literal; apply leads_gets; rewrite Hp, E; try by apply Hop.
  - cbn [decide]. rewrite En. destruct (n =? 0) eqn:E0; [by apply Hop|]. destruct (n =? 1) eqn:E1; [by apply Hop|]. zbool.
    eapply leads_run; [apply run_this|]. cbn [constant_numbers Compiler.with_numbers].
    eapply leads_lift; [apply (get_repr (fun k => k <> 0)); [apply Ht|done]|].
    destruct (pool_index s !! n) as [i|] eqn:Ei.
    { destruct (tracks_known _ _ Ht n i Ei) as [Hi _]. destruct (load_run i (Token.line tok) g s Ht Hi) as (g' & El & He).
      by eapply leads_Ret. }
    eapply leads_bind, leads_mono; [by apply add_constant_leads|]. intros i g1 (En1 & Hi & He1).
    destruct (load_run i (Token.line tok) g1 _ (emits_tracks _ _ _ _ _ He1) Hi) as (g2 & El & He2).
    eapply leads_run; [exact El|]. 
    eapply leads_mono; [apply remember_leads; [done|apply He2|done|]|].
    + injection En1 as <-. cbn. rewrite Nat2Z.id. by apply list_lookup_middle.
    + intros [] g3 He3. injection En1 as <-. unfold new_constant in *. cbn [fst snd] in *. rewrite <-(app_nil_r (load_code _)), <-(app_nil_l (load_code _)).
      eapply emits_stay; [by eapply emits_stay|exact He3].
  - cbn [decide]. rewrite Ed. eapply leads_bind, leads_mono; [by apply add_constant_leads|]. intros i g1 (En1 & Hi & He1).
    destruct (load_run i (Token.line tok) g1 _ (emits_tracks _ _ _ _ _ He1) Hi) as (g2 & El & He2).
    eapply leads_Ret; [exact El|]. injection En1 as <-. unfold new_constant in *. cbn [fst snd] in *. rewrite <-(app_nil_l (load_code _)). by eapply emits_stay.
Qed.

(** ** Operators *)

Lemma leads_emit op (k : unit -> M world unit) g s Q : tracks g s ->
  (forall g', emits [OpCode.to_int op] s (gen_parser g) g g' -> leads (k tt (install g')) Q) ->
  leads ((emit_opcode op ≫= k) (install g)) Q.
Proof using Hr Hfn. intros Ht HQ. destruct (emit_run op g s Ht) as (g' & E & He). eapply leads_run; [exact E|]. by apply HQ. Qed.

Lemma emit_leads op g s : tracks g s ->
  leads (emit_opcode op (install g)) (fun _ g' => emits [OpCode.to_int op] s (gen_parser g) g g').
Proof using Hr Hfn. intros Ht. destruct (emit_run op g s Ht) as (g' & E & He). by eapply leads_Ret. Qed.

(** After its operand, whose code is [cd], an operator's rule emits the rest of the code. *)
Lemma negate_leads cd s p g0 g : cd <> [] -> emits cd s p g0 g ->
  leads ((ch ← get_chunk;
          if decide (last (code ch) = Some (OpCode.to_int OpCode.ONE)) then
            update_chunk (fun ch => Ret (Chunk.set_code ch (removelast (code ch) ++ [OpCode.to_int OpCode.MINUS_ONE])))
          else emit_opcode OpCode.NEGATE) (install g)) (fun _ g' => emits (negate_code cd) s p g0 g').
Proof using Hr Hfn.
  intros Hcd He. pose proof (emits_code _ _ _ _ _ He) as Ec. eapply leads_run; [apply run_get_chunk|].
  assert (El : last (code (gen_chunk g)) = last cd).
  { rewrite Ec, last_app. destruct (last cd) eqn:E; [done|]. by apply last_None in E. }
  rewrite El. unfold negate_code. case_decide.
  - eapply leads_Ret; [by apply run_update_chunk|]. constructor.
    + apply (emits_parser _ _ _ _ _ He).
    + cbn [with_code gen_chunk Chunk.set_code code]. by rewrite Ec, removelast_app, app_assoc by done.
    + by apply tracks_code; [apply He|].
  - eapply leads_mono; [apply emit_leads, He|]. intros [] g' He'. by eapply emits_stay.
Qed.

Lemma unary_leads t op cd s p g0 g : unary_token t op -> cd <> [] -> emits cd s p g0 g ->
  leads (match t with
    | TokenType.MINUS =>
        ch ← get_chunk;
        if decide (last (code ch) = Some (OpCode.to_int OpCode.ONE)) then
          update_chunk (fun ch => Ret (Chunk.set_code ch (removelast (code ch) ++ [OpCode.to_int OpCode.MINUS_ONE])))
        else emit_opcode OpCode.NEGATE
    | TokenType.BANG | TokenType.NOT => emit_opcode OpCode.NOT
    | _ => mret tt
    end (install g)) (fun _ g' => emits (unary_code op cd) s p g0 g').
Proof using Hr Hfn.
  intros Ht Hcd He. destruct Ht; [by apply negate_leads|..];
    (eapply leads_mono; [apply emit_leads, He|]; intros [] g' He'; by eapply emits_stay).
Qed.

Lemma binary_leads t op q cd s p g0 g : binary_token t op q -> emits cd s p g0 g ->
  leads (match t with
    | TokenType.PLUS => emit_opcode OpCode.ADD
    | TokenType.MINUS => emit_opcode OpCode.SUBTRACT
    | TokenType.SLASH => emit_opcode OpCode.DIVIDE
    | TokenType.STAR => emit_opcode OpCode.MULTIPLY
    | TokenType.EQUAL_EQUAL => emit_opcode OpCode.EQUAL
    | TokenType.BANG_EQUAL => emit_opcode OpCode.EQUAL ;; emit_opcode OpCode.NOT
    | TokenType.GREATER => emit_opcode OpCode.GREATER
    | TokenType.GREATER_EQUAL => emit_opcode OpCode.LESS ;; emit_opcode OpCode.NOT
    | TokenType.LESS => emit_opcode OpCode.LESS
    | TokenType.LESS_EQUAL => emit_opcode OpCode.GREATER ;; emit_opcode OpCode.NOT
    | _ => throw "Invalid token type to binary()"
    end (install g)) (fun _ g' => emits (cd ++ operator_code op) s p g0 g').
Proof using Hr Hfn.
  intros Ht He. destruct Ht; cbn [operator_code];
    lazymatch goal with
    | |- leads ((_ ≫= _) _) _ => eapply leads_emit; [apply He|]; intros g1 He1;
        eapply leads_mono; [apply emit_leads, He1|]; intros [] g' He'; rewrite cons_middle, app_assoc;
        eapply emits_stay; [by eapply emits_stay|done]
    | |- _ => eapply leads_mono; [apply emit_leads, He|]; intros [] g' He'; by eapply emits_stay
    end.
Qed.

(** ** Jumps *)

Lemma code_size_run g : Chunk.size (gen_chunk g) <= 0xFFFF ->
  Compiler.code_size (install g) = Ret (Chunk.size (gen_chunk g), install g).
Proof using Hr Hfn.
  intros Hl. unfold Compiler.code_size. rewrite (M_bind_run _ _ _ _ _ (run_get_chunk g)). cbn.
  rewrite i32_small; [done|]. unfold is_i32, Chunk.size in *. lia.
Qed.

Lemma uint16_run n g s : tracks g s -> is_u16 n ->
  exists g', Compiler.emit_uint16_le n (install g) = Ret (tt, install g') /\ emits (word n) s (gen_parser g) g g'.
Proof using Hr Hfn.
  intros Ht Hn. unfold Compiler.emit_uint16_le. destruct (previous_line_run g) as (line & El).
  rewrite (M_bind_run _ _ _ _ _ El). eexists. split; [by apply run_update_chunk|]. rewrite u16_small by done.
  constructor; [done| |apply tracks_code; [done|apply values_uint16]].
  cbn [gen_chunk with_code]. by rewrite write_uint16_le_bytes, !code_write_byte, <-app_assoc, word_bytes.
Qed.

Lemma emits_size cd s p g g' : emits cd s p g g' ->
  Chunk.size (gen_chunk g') = Chunk.size (gen_chunk g) + Z.of_nat (length cd).
Proof. intros He. unfold Chunk.size. rewrite (emits_code _ _ _ _ _ He), length_app. lia. Qed.

(** A jump that is still to be given its offset. *)
Lemma jump_run op g s : tracks g s -> Chunk.size (gen_chunk g) + 3 <= 0xFFFF ->
  exists g', Compiler.emit_jump op (install g) = Ret (Chunk.size (gen_chunk g) + 1, install g') /\
    emits (OpCode.to_int op :: word 0) s (gen_parser g) g g'.
Proof using Hr Hfn.
  intros Ht Hl. destruct (emit_run op g s Ht) as (g1 & E1 & He1).
  destruct (uint16_run 0 g1 s (emits_tracks _ _ _ _ _ He1)) as (g2 & E2 & He2); [unfold is_u16; lia|].
  assert (He : emits ([OpCode.to_int op] ++ word 0) s (gen_parser g) g g2) by by eapply emits_stay.
  exists g2. split; [|done]. unfold Compiler.emit_jump. rewrite (M_bind_run _ _ _ _ _ E1), (M_bind_run _ _ _ _ _ E2).
  pose proof (emits_size _ _ _ _ _ He) as Es. cbn [length app word] in Es. rewrite (M_bind_run _ _ _ _ _ (code_size_run g2 ltac:(lia))).
  rewrite Es. unfold mret, M_ret. do 2 f_equal. lia.
Qed.

Lemma store_run i b g (l1 l2 : Datatypes.list Z) x : code (gen_chunk g) = l1 ++ x :: l2 -> i = Z.of_nat (length l1) ->
  update_chunk (Compiler.store_code i b) (install g) =
  Ret (tt, install (with_code g (Chunk.set_code (gen_chunk g) (l1 ++ b :: l2)))).
Proof using Hr Hfn.
  intros Ec ->. apply run_update_chunk. unfold Compiler.store_code, Chunk.size. rewrite Ec, length_app.
  rewrite (proj2 (Z.ltb_ge _ _)), (proj2 (Z.ltb_lt _ _)) by (cbn; lia). rewrite Nat2Z.id. do 2 f_equal.
  by rewrite <-(Nat.add_0_r (length l1)), insert_app_r.
Qed.

(** Giving it the offset, over the code [cd]. *)
Lemma patch_run op g0 g s p code2 : emits (OpCode.to_int op :: word 0 ++ OpCode.to_int OpCode.POP_TOP :: code2) s p g0 g ->
  Chunk.size (gen_chunk g) <= 0xFFFF ->
  exists g', Compiler.patch_jump (Chunk.size (gen_chunk g0) + 1) (install g) = Ret (tt, install g') /\
    emits (OpCode.to_int op :: word (Z.of_nat (length code2) + 1) ++ OpCode.to_int OpCode.POP_TOP :: code2) s p g0 g'.
Proof using Hr Hfn.
  intros He Hl. pose proof (emits_size _ _ _ _ _ He) as Es. cbn [length app word] in Es.
  unfold Compiler.patch_jump. rewrite (M_bind_run _ _ _ _ _ (code_size_run g Hl)). cbv zeta.
  replace (Chunk.size (gen_chunk g) - (Chunk.size (gen_chunk g0) + 1) - 2) with (Z.of_nat (length code2) + 1) by lia.
  assert (Hu : is_u16 (Z.of_nat (length code2) + 1)) by (unfold is_u16, Chunk.size in *; lia).
  rewrite (proj2 (Z.ltb_ge _ _)) by (unfold is_u16, UINT16_MAX in *; lia).
  unfold Compiler.error_if. set (n := Z.of_nat (length code2) + 1) in *.
  rewrite (M_bind_run (mret tt) _ _ tt (install g)) by done.
  pose proof (emits_code _ _ _ _ _ He) as Ec. cbn [app word] in Ec.
  assert (El : Chunk.size (gen_chunk g0) + 1 = Z.of_nat (length (code (gen_chunk g0) ++ [OpCode.to_int op])))
    by (unfold Chunk.size; rewrite length_app; cbn; lia).
  rewrite (M_bind_run _ _ _ _ _ (store_run _ (u8 (Z.land n 0xFF)) g (code (gen_chunk g0) ++ [OpCode.to_int op])
    (0 `div` 256 :: OpCode.to_int OpCode.POP_TOP :: code2) (0 `mod` 256) ltac:(rewrite Ec, <-app_assoc; reflexivity) El)).
  eexists. split.
  - eapply (store_run _ (u8 (Z.land (Z.shiftr n 8) 0xFF)) _ (code (gen_chunk g0) ++ [OpCode.to_int op; u8 (Z.land n 0xFF)])).
    + cbn [gen_chunk with_code Chunk.set_code code]. by rewrite <-!app_assoc.
    + rewrite El, !length_app. cbn. lia.
  - constructor; [apply He| |].
    + cbn [gen_chunk with_code Chunk.set_code code]. rewrite word_bytes by done. by rewrite <-!app_assoc.
    + by do 2 (apply tracks_code; [|done]); apply He.
Qed.

(** ** Precedence climbing *)

Context (src : Datatypes.list ascii) (Hsrc : nul ∉ src).

Lemma emits_from cd s p g p1 g' : emits cd s p (with_parser g p1) g' -> emits cd s p g g'.
Proof. by intros []. Qed.

Lemma tracks_parser g s p : tracks g s -> tracks (with_parser g p) s.
Proof. intros []. by constructor. Qed.

(** The rest of [parse_precedence] after the prefix rule. *)
Definition tail (pp : Z -> M world unit) (q : Z) (fuel : nat) : M world unit :=
  while_M fuel
    (token ← parse Parser.peek; mret (q <=? level (precedence (get_rule (Token.token_type token)))))
    (parse Parser.advance ;;
     token ← parse Parser.previous;
     match infix (get_rule (Token.token_type token)) with
     | None => throw "bad_function_call"
     | Some infix_rule => run_rule pp infix_rule (q <=? level Precedence.ASSIGNMENT)
     end) ;;
  assigns ← (if q <=? level Precedence.ASSIGNMENT then parse (Parser.match_token TokenType.EQUAL) else mret false);
  Compiler.error_if assigns "Invalid assignment target".

Lemma tail_exit pp q fuel g : level_of (here_type (gen_parser g)) < q ->
  (q <= level Precedence.ASSIGNMENT -> here_type (gen_parser g) <> TokenType.EQUAL) ->
  tail pp q fuel (install g) = Ret (tt, install g).
Proof.
  intros Hl Heq. unfold tail.
  assert (Hc : (token ← parse Parser.peek; mret (q <=? level (precedence (get_rule (Token.token_type token)))))
    (install g) = Ret (false, install g)).
  { unfold Parser.peek. rewrite (M_bind_run _ _ _ _ _ (run_gets _ g)). unfold mret, M_ret. do 2 f_equal. by apply Z.leb_gt. }
  rewrite (M_bind_run _ _ _ tt (install g)); [|by destruct fuel; cbn [while_M]; rewrite (M_bind_run _ _ _ _ _ Hc)].
  destruct (q <=? _) eqn:Eq; [|done]. zbool.
  rewrite (M_bind_run _ _ _ false (install g)); [done|]. erewrite run_parse; [by rewrite with_parser_id|].
  unfold Parser.match_token, Parser.check. erewrite M_bind_run by apply gets_run.
  by rewrite bool_decide_eq_false_2 by (by apply Heq).
Qed.

Lemma tail_turn pp q fuel g o p1 f Q : Parser.advance (gen_parser g) = Ret (tt, p1) ->
  Lexer.deref (Parser.current (gen_parser g)) = o -> Lexer.deref (previous_ p1) = o ->
  q <= level_of (Token.token_type o) -> infix (get_rule (Token.token_type o)) = Some f ->
  leads (run_rule pp f (q <=? level Precedence.ASSIGNMENT) (install (with_parser g p1))) (fun _ g' =>
    leads (tail pp q fuel (install g')) Q) ->
  leads (tail pp q (S fuel) (install g)) Q.
Proof.
  intros Ha Ho Hp Hq Hf HQ. unfold tail at 1. cbn [while_M].
  assert (Hassoc : forall A B D (m : M world A) (f1 : A -> M world B) (f2 : B -> M world D) w,
    ((m ≫= f1) ≫= f2) w = (m ≫= fun a => f1 a ≫= f2) w) by (intros; unfold mbind, M_bind; by destruct (m w) as [[]| | |]).
  rewrite Hassoc, Hassoc. apply leads_gets. rewrite Ho. eapply leads_run; [reflexivity|].
  unfold level_of in Hq. rewrite (proj2 (Z.leb_le _ _) Hq). rewrite Hassoc, Hassoc. eapply leads_run; [by apply run_parse|].
  rewrite Hassoc. apply leads_gets. cbn [gen_parser with_parser]. rewrite Hp, Hf. by apply leads_bind.
Qed.

Definition budget : nat := (length src + 2)%nat.

Lemma enter_leads pp q g o p1 f Q : Parser.advance (gen_parser g) = Ret (tt, p1) -> Lexer.deref (previous_ p1) = o ->
  prefix (get_rule (Token.token_type o)) = Some f ->
  leads (run_rule pp f (q <=? level Precedence.ASSIGNMENT) (install (with_parser g p1))) (fun _ g' =>
    parser_ok src (gen_parser g') /\ leads (tail pp q budget (install g')) Q) ->
  leads (Compiler.parse_precedence_body pp q (install g)) Q.
Proof.
  intros Ha Hp Hf HQ. unfold Compiler.parse_precedence_body. eapply leads_run; [by apply run_parse|].
  apply leads_gets. cbn [gen_parser with_parser]. rewrite Hp, Hf. apply leads_bind. eapply leads_mono; [exact HQ|].
  intros [] g' [Hok Ht]. unfold loop_fuel. eapply leads_run; [reflexivity|]. cbn [install parser].
  rewrite (iter_source src) by apply Hok. exact Ht.
Qed.

(** What may follow an expression of level [p]: an operator of the same level if it is one that associates
    to the left, or something that binds less. *)
Definition follows (p : Z) (pr : Parser) : Prop :=
  let l := level_of (here_type pr) in l < p \/ (l = p /\ level Precedence.EQUALITY <= p <= level Precedence.FACTOR).

Abbreviation pp d := (run_parse_precedence (functions d)).

(** The tokens [ts] are compiled to [e] by a run of [parse_precedence] at any level up to [p]. *)
Definition climbs (p : Z) (ts : Datatypes.list Token) (e : expr) : Prop := forall d q g pr s Q,
  1 <= q <= p -> (length ts <= S d)%nat -> parser_ok src (gen_parser g) -> parser_ok src pr ->
  consumes ts (gen_parser g) pr -> follows p pr -> tracks g s -> Chunk.size (gen_chunk g) + Z.of_nat (length (expr_code e s).1) <= 0xFFFF ->
  (forall k g', (k <= length ts)%nat -> emits (expr_code e s).1 (expr_code e s).2 pr g g' ->
    leads (tail (pp d) q (budget - k) (install g')) Q) ->
  leads (Compiler.parse_precedence_body (pp d) q (install g)) Q.

(** A whole run stops after the expression. *)
Lemma climbs_whole p ts e d g pr s : climbs p ts e -> 1 <= p -> (0 < length ts <= d)%nat ->
  parser_ok src (gen_parser g) -> parser_ok src pr -> consumes ts (gen_parser g) pr -> level_of (here_type pr) < p ->
  (p <= level Precedence.ASSIGNMENT -> here_type pr <> TokenType.EQUAL) -> tracks g s ->
  Chunk.size (gen_chunk g) + Z.of_nat (length (expr_code e s).1) <= 0xFFFF ->
  leads (pp d p (install g)) (fun _ g' => emits (expr_code e s).1 (expr_code e s).2 pr g g').
Proof.
  intros Hc Hp Hd Hok Hpr Hts Hl Heq Ht Hs. destruct d as [|d]; [lia|].
  eapply (Hc d p g pr s); try done; [lia|by left|]. intros k g' _ He. eapply leads_Ret; [|exact He].
  apply tail_exit; by rewrite (emits_parser _ _ _ _ _ He).
Qed.

Lemma climbs_literal p tok l : literal_token tok l -> climbs p [tok] (Lit l).
Proof using HL Hr Hfn Hsrc.
  intros Hl d q g pr s Q Hq Hd Hok Hpr (Ho & p1 & Ha & ->) Hf Ht Hs HQ.
  destruct (advance_runs src Hsrc _ Hok) as (p1' & Ha' & Hok1 & Hprev & _). rewrite Ha in Ha'. injection Ha' as <-.
  assert (Hp : Lexer.deref (previous_ p1) = tok) by by rewrite Hprev.
  destruct (literal_leads (pp d) tok l (q <=? level Precedence.ASSIGNMENT) (with_parser g p1) s Hl Hp (tracks_parser _ _ _ Ht))
    as (f & Ef & Hlead).
  eapply enter_leads; [done|exact Hp|exact Ef|]. eapply leads_mono; [exact Hlead|]. intros [] g' He.
  split; [by rewrite (emits_parser _ _ _ _ _ He)|]. rewrite <-(Nat.sub_0_r budget). apply HQ; [lia|]. exact (emits_from _ _ _ _ _ _ He).
Qed.

Lemma rest_ok t ts p p' : parser_ok src p -> consumes (t :: ts) p p' -> exists p1, Parser.advance p = Ret (tt, p1) /\
  Lexer.deref (Parser.current p) = t /\ Lexer.deref (previous_ p1) = t /\ parser_ok src p1 /\ consumes ts p1 p'.
Proof using Hsrc.
  intros Hok (Ho & p1 & Ha & Hc). exists p1. destruct (advance_runs src Hsrc _ Hok) as (p1' & Ha' & Hok1 & Hprev & _).
  rewrite Ha in Ha'. injection Ha' as <-. by rewrite Hprev.
Qed.

Lemma climbs_unary p o op ts e : unary_token (Token.token_type o) op -> (0 < length ts)%nat ->
  climbs (level Precedence.UNARY) ts e -> p <= level Precedence.UNARY -> climbs p (o :: ts) (Unary op e).
Proof using HL Hr Hfn Hsrc.
  intros Ho Hne IH Hp d q g pr s Q Hq Hd Hok Hpr Hc Hf Ht Hs HQ.
  destruct (rest_ok _ _ _ _ Hok Hc) as (p1 & Ha & _ & Hprev & Hok1 & Hc1).
  pose proof (expr_code_nonempty e s) as Hcd. pose proof (unary_code_length op (expr_code e s).1) as Hlen.
  cbn [expr_code] in *. destruct (expr_code e s) as [cd s'] eqn:Ee. cbn [fst snd] in *.
  eapply enter_leads; [done|exact Hprev|by destruct Ho|]. cbn [run_rule]. unfold Compiler.unary.
  apply leads_gets. cbn [gen_parser with_parser]. rewrite Hprev. apply leads_bind.
  pose proof (climbs_whole _ ts e d (with_parser g p1) pr s IH) as Hw. rewrite Ee in Hw. cbn [fst snd] in Hw.
  eapply leads_mono; [apply Hw; try done|].
  - cbn [length] in Hd. lia.
  - unfold follows in Hf. cbn in *. lia.
  - by apply tracks_parser.
  - cbn [gen_chunk with_parser]. lia.
  - intros [] g1 He. eapply leads_mono; [by eapply unary_leads|]. intros [] g' He'.
    split; [by rewrite (emits_parser _ _ _ _ _ He')|]. rewrite <-(Nat.sub_0_r budget).
    apply HQ; [lia|exact (emits_from _ _ _ _ _ _ He')].
Qed.

Lemma emits_to cd s p g g' p' : emits cd s p g g' -> emits cd s p' g (with_parser g' p').
Proof. intros []. constructor; [done|done|by apply tracks_parser]. Qed.

Lemma consume_run t msg g p : here_type (gen_parser g) = t -> Parser.advance (gen_parser g) = Ret (tt, p) ->
  parse (Parser.consume t msg) (install g) = Ret (tt, install (with_parser g p)).
Proof.
  intros Ht Ha. apply run_parse. unfold Parser.consume, Parser.peek. rewrite (M_bind_run _ _ _ _ _ (gets_run _ _)).
  by rewrite decide_True.
Qed.

Lemma climbs_group p o ts e cl : Token.token_type o = TokenType.LEFT_PAREN ->
  parses (level Precedence.ASSIGNMENT) ts e -> climbs (level Precedence.ASSIGNMENT) ts e ->
  Token.token_type cl = TokenType.RIGHT_PAREN -> climbs p (o :: ts ++ [cl]) e.
Proof using HL Hr Hfn Hsrc.
  intros Ho Hparse IH Hcl d q g pr s Q Hq Hd Hok Hpr Hc Hf Ht Hs HQ.
  destruct (rest_ok _ _ _ _ Hok Hc) as (p1 & Ha & _ & Hprev & Hok1 & (p2 & Hc1 & Hc2)%consumes_app).
  destruct (consumes_ok src Hsrc ts p1 p2 Hok1 Hc1 (tokens_not_eof _ _ _ Hparse)) as [Hok2 _].
  destruct Hc2 as (Hcl2 & p3 & Ha3 & ->). assert (Hh : here_type p2 = TokenType.RIGHT_PAREN) by (unfold here_type; by rewrite Hcl2).
  cbn [length] in Hd. rewrite length_app in Hd. cbn [length] in Hd. pose proof (parses_nonempty _ _ _ Hparse).
  eapply enter_leads; [done|exact Hprev|by rewrite Ho|]. cbn [run_rule]. unfold Compiler.grouping, Compiler.expression.
  apply leads_bind. eapply leads_mono.
  { apply (climbs_whole _ ts e d (with_parser g p1) p2 s IH); try done; [lia|by rewrite Hh|by rewrite Hh|by apply tracks_parser]. }
  intros [] g1 He. pose proof (emits_parser _ _ _ _ _ He) as Ep. eapply leads_Ret; [by apply consume_run; rewrite Ep|].
  split; [done|]. rewrite <-(Nat.sub_0_r budget). apply HQ; [lia|]. by eapply emits_to, emits_from.
Qed.

Lemma prem_budget p : parser_ok src p -> (prem p < budget)%nat.
Proof.
  intros Hok. unfold prem, rem, budget, Lexer.remaining, Lexer.size. rewrite (iter_source src) by apply Hok.
  case_decide; lia.
Qed.

(** The parser before an infix operator [o] that follows the tokens [ts1]. *)
Lemma infix_split p1 ts1 e1 o ts2 p pr : parses p1 ts1 e1 -> Token.token_type o <> TokenType.END_OF_FILE ->
  parser_ok src p -> consumes (ts1 ++ o :: ts2) p pr ->
  exists p2 p3, consumes ts1 p p2 /\ parser_ok src p2 /\ (length ts1 + 1 < budget)%nat /\
    Parser.advance p2 = Ret (tt, p3) /\ Lexer.deref (Parser.current p2) = o /\ Lexer.deref (previous_ p3) = o /\
    parser_ok src p3 /\ consumes ts2 p3 pr.
Proof using Hsrc.
  intros Hp1 Ho Hok (p2 & Hc1 & Hc2)%consumes_app.
  pose proof (tokens_not_eof _ _ _ Hp1) as Hne. destruct (consumes_ok src Hsrc ts1 p p2 Hok Hc1 Hne) as [Hok2 _].
  destruct (rest_ok _ _ _ _ Hok2 Hc2) as (p3 & Ha & Hh & Hprev & Hok3 & Hc3). exists p2, p3. split_and!; try done.
  assert (Hc : consumes (ts1 ++ [o]) p p3).
  { apply consumes_app. exists p2. split; [done|]. split; [done|]. by exists p3. }
  destruct (consumes_ok src Hsrc _ p p3 Hok Hc) as [_ Hl]; [by apply Forall_app; split; [|apply Forall_singleton]|].
  rewrite length_app in Hl. cbn [length] in Hl. pose proof (prem_budget p Hok). lia.
Qed.

Lemma climbs_binary p q0 o op ts1 e1 ts2 e2 : binary_token (Token.token_type o) op q0 -> p <= level q0 ->
  parses (level q0) ts1 e1 -> climbs (level q0) ts1 e1 -> parses (level q0 + 1) ts2 e2 ->
  climbs (level q0 + 1) ts2 e2 -> climbs p (ts1 ++ o :: ts2) (Binary op e1 e2).
Proof using HL Hr Hfn Hsrc.
  intros Ho Hp Hparse1 IH1 Hparse2 IH2 d q g pr s Q Hq Hd Hok Hpr Hc Hf Ht Hs HQ.
  assert (Hrule : infix (get_rule (Token.token_type o)) = Some Compiler.Fbinary /\
    precedence (get_rule (Token.token_type o)) = q0 /\ Token.token_type o <> TokenType.END_OF_FILE /\
    level Precedence.EQUALITY <= level q0 <= level Precedence.FACTOR) by (destruct Ho; cbn; split_and!; first [done|lia]).
  destruct Hrule as (Hinfix & Hprec & Hneof & Hlv).
  destruct (infix_split _ _ _ _ _ _ _ Hparse1 Hneof Hok Hc) as (p2 & p3 & Hc1 & Hok2 & Hb & Ha & Hh & Hprev & Hok3 & Hc2).
  rewrite length_app in Hd, HQ. cbn [length] in Hd, HQ. pose proof (parses_nonempty _ _ _ Hparse2).
  cbn [expr_code] in *. pose proof (IH1 d q g p2 s Q) as H1. destruct (expr_code e1 s) as [cd1 s1] eqn:E1.
  pose proof (fun g2 => climbs_whole _ ts2 e2 d (with_parser g2 p3) pr s1 IH2) as H2. destruct (expr_code e2 s1) as [cd2 s2] eqn:E2.
  cbn [fst snd] in *. rewrite !length_app in Hs.
  apply H1; try done; [lia|lia|right; unfold level_of, here_type; rewrite Hh, Hprec; lia|lia|]. intros k g2 Hk He.
  pose proof (emits_parser _ _ _ _ _ He) as Ep. pose proof (emits_size _ _ _ _ _ He).
  replace (budget - k)%nat with (S (budget - (k + 1))) by lia.
  eapply (tail_turn _ _ _ g2 o p3); try by rewrite ?Ep; first [done|unfold level_of; rewrite Hprec; lia]. cbn [run_rule].
  unfold Compiler.binary. apply leads_gets. cbn [gen_parser with_parser]. rewrite Hprev, Hprec. apply leads_bind.
  eapply leads_mono.
  { apply (H2 g2); try done; [lia|lia|unfold follows in Hf; cbn in *; lia|cbn in *; lia|apply tracks_parser, He|cbn [gen_chunk with_parser]; lia]. }
  intros [] g3 He2. eapply leads_mono; [by eapply binary_leads|]. intros [] g4 He4. apply HQ; [lia|].
  eapply emits_trans; [exact He|]. by eapply emits_from.
Qed.

Lemma climbs_logical p q0 o op ts1 e1 ts2 e2 : logical_token (Token.token_type o) op q0 -> p <= level q0 ->
  parses (level q0 + 1) ts1 e1 -> climbs (level q0 + 1) ts1 e1 -> parses (level q0) ts2 e2 ->
  climbs (level q0) ts2 e2 -> climbs p (ts1 ++ o :: ts2) (Logical op e1 e2).
Proof using HL Hr Hfn Hsrc.
  intros Ho Hp Hparse1 IH1 Hparse2 IH2 d q g pr s Q Hq Hd Hok Hpr Hc Hf Ht Hs HQ.
  assert (Hrule : (exists f, infix (get_rule (Token.token_type o)) = Some f /\ forall b, run_rule (pp d) f b =
      (end_jump ← Compiler.emit_jump (branch_op op); emit_opcode OpCode.POP_TOP ;; pp d (level q0) ;; Compiler.patch_jump end_jump)) /\
    precedence (get_rule (Token.token_type o)) = q0 /\ Token.token_type o <> TokenType.END_OF_FILE /\
    level Precedence.OR <= level q0 <= level Precedence.AND) by (destruct Ho; cbn; split_and!; first [done|lia|by eexists]).
  destruct Hrule as ((f & Hinfix & Hrun) & Hprec & Hneof & Hlv).
  destruct (infix_split _ _ _ _ _ _ _ Hparse1 Hneof Hok Hc) as (p2 & p3 & Hc1 & Hok2 & Hb & Ha & Hh & Hprev & Hok3 & Hc2).
  rewrite length_app in Hd, HQ. cbn [length] in Hd, HQ. pose proof (parses_nonempty _ _ _ Hparse2).
  cbn [expr_code] in *. pose proof (IH1 d q g p2 s Q) as H1. destruct (expr_code e1 s) as [cd1 s1] eqn:E1.
  pose proof (fun g2 => climbs_whole _ ts2 e2 d g2 pr s1 IH2) as H2. destruct (expr_code e2 s1) as [cd2 s2] eqn:E2.
  cbn [fst snd] in *. rewrite !length_app in Hs. unfold branch_code in Hs. cbn [length] in Hs. rewrite length_app in Hs.
  cbn [length word] in Hs.
  apply H1; try done; [lia|lia|left; unfold level_of, here_type; rewrite Hh, Hprec; lia|lia|]. intros k g2 Hk He.
  pose proof (emits_parser _ _ _ _ _ He) as Ep. pose proof (emits_size _ _ _ _ _ He).
  replace (budget - k)%nat with (S (budget - (k + 1))) by lia.
  eapply (tail_turn _ _ _ g2 o p3); try by rewrite ?Ep; first [done|unfold level_of; rewrite Hprec; lia]. rewrite Hrun.
  destruct (jump_run (branch_op op) (with_parser g2 p3) s1) as (g3 & Ej & He3);
    [apply tracks_parser, He|cbn [gen_chunk with_parser]; lia|].
  eapply leads_run; [exact Ej|]. eapply leads_emit; [apply He3|]. intros g4 He4.
  pose proof (emits_stay _ _ _ _ _ _ _ _ He3 He4) as He34. cbn [app word] in He34. pose proof (emits_size _ _ _ _ _ He34) as Es4.
  cbn [length gen_chunk with_parser] in Es4. pose proof (emits_parser _ _ _ _ _ He34) as Ep4. cbn in Ep4.
  apply leads_bind. eapply leads_mono.
  { apply (H2 g4); try done; rewrite ?Ep4; try done; [lia|lia|unfold follows in Hf; cbn in *; lia|cbn in *; lia|apply He34|lia]. }
  intros [] g5 He5. pose proof (emits_trans _ _ _ _ _ _ _ _ _ He34 He5) as He35. pose proof (emits_size _ _ _ _ _ He5).
  destruct (patch_run (branch_op op) (with_parser g2 p3) g5 s2 pr cd2) as (g6 & E6 & He6); [exact He35|lia|].
  eapply leads_Ret; [exact E6|]. apply HQ; [lia|]. eapply emits_trans; [exact He|]. by eapply emits_from.
Qed.

Lemma parses_climbs p ts e : parses p ts e -> climbs p ts e.
Proof using HL Hr Hfn Hsrc.
  induction 1.
  - by apply climbs_literal.
  - by apply climbs_group.
  - eapply climbs_unary; try done. by eapply parses_nonempty.
  - by eapply climbs_binary.
  - by eapply climbs_logical.
Qed.

End translation.
