(* ===== verification/ExprRun.v ===== *)
(** * The machine evaluates the code of expressions *)

From S2P Require Import Prelude Double HashMap Hash Platform Bytes Opcode Parser Compiler Value Chunk ChunkFacts Object Collections Memory Context VM StackFacts VMProps DisassemblerProps ExprSpec.
Import Compiler (InterpretResult, OK, RUNTIME_ERROR).
Import VM.

Section evaluation.
Context {HP : Platform} (call_native : NativeFunction -> nat -> nat -> M machine (Value * bool)).

(** The machine [w0] executes the code of [fn] in its frame [cur]; evaluating an expression changes its
    instruction pointer and its stack. *)
Context (w0 : machine) (cur : nat) (fr : CallFrame) (fn : ObjectFunction).
Hypothesis (Hcur : current_frame (state w0) = Some cur).
Hypothesis (Hframe : frames (state w0) !! cur = Some (Some fr)).
Hypothesis (Hfn : closure_function (frame_closure fr) w0 = Ret (fn, w0)).

Definition moved (i : Z) : CallFrame := mkFrame (frame_closure fr) i (frame_slots fr).

Definition at_ (i : Z) (st : list Value) (top : nat) : machine :=
  set_state w0 (mkVM st (<[cur := Some (moved i)]> (frames (state w0))) (Some cur) (frame_count (state w0)) top
    (open_upvalues (state w0)) (constant_string_init (state w0))).

Lemma at_frame i st top : frame_now (at_ i st top) = Ret (moved i, at_ i st top).
Proof using Hframe.
  unfold frame_now, frame, vm_state, gets, lift, mbind, M_bind. cbn.
  rewrite list_lookup_insert_eq by by eapply lookup_lt_Some. done.
Qed.

Lemma at_function i st top : closure_function (frame_closure fr) (at_ i st top) = Ret (fn, at_ i st top).
Proof using Hfn. by apply (closure_function_mem _ w0). Qed.

Lemma at_executing i st top : executing (at_ i st top) (moved i) fn.
Proof using Hframe Hfn. constructor; [apply at_frame|apply at_function]. Qed.

Lemma at_set_ip i j st top : set_ip j (at_ i st top) = Ret (tt, at_ j st top).
Proof using Hframe.
  unfold set_ip. rewrite (M_bind_run _ _ _ _ _ (at_frame i st top)).
  unfold vm_state, gets, lift, put_state, modify, mbind, M_bind. cbn. unfold at_, set_state, set_frames. cbn.
  by rewrite list_insert_insert_eq.
Qed.

Lemma at_read_byte i st top b : 0 <= i -> code (chunk fn) !! Z.to_nat i = Some b ->
  read_byte (at_ i st top) = Ret (b, at_ (i + 1) st top).
Proof using Hframe Hfn.
  intros Hi Hb. unfold read_byte. rewrite (M_bind_run _ _ _ _ _ (at_frame i st top)). cbn [moved frame_closure ip].
  rewrite (M_bind_run _ _ _ _ _ (at_function i st top)). rewrite (proj2 (Z.ltb_ge _ _)) by done.
  rewrite Hb. rewrite (M_bind_run (lift _) _ _ b (at_ i st top)) by done.
  by rewrite (M_bind_run _ _ _ _ _ (at_set_ip i (i + 1) st top)).
Qed.

Lemma at_push i st top v : (top < length st)%nat -> push v (at_ i st top) = Ret (tt, at_ i (<[top := v]> st) (S top)).
Proof.
  intros Hlt. unfold push, vm_state, gets, put_state, modify, mbind, M_bind. cbn.
  by rewrite (proj2 (Nat.eqb_neq _ _)) by lia.
Qed.

Lemma at_pop i st top v : st !! top = Some v -> pop (at_ i st (S top)) = Ret (v, at_ i st top).
Proof. intros Hv. unfold pop, load_slot, vm_state, gets, put_state, modify, lift, mbind, M_bind. cbn. by rewrite Hv. Qed.

Lemma at_peek k i st top v : st !! top = Some v -> peek k (at_ i st (top + S k)) = Ret (v, at_ i st (top + S k)).
Proof.
  intros Hv. unfold peek, load_slot, vm_state, gets, lift, mbind, M_bind. cbn.
  rewrite (proj2 (Nat.leb_gt _ _)) by lia. replace (top + S k - k - 1)%nat with top by lia. cbn. by rewrite Hv.
Qed.

(** The code [cd] is at [i]. *)
Definition code_at (i : Z) (cd : list Z) : Prop := exists pre post, code (chunk fn) = pre ++ cd ++ post /\ i = Z.of_nat (length pre).

Lemma code_at_app i cd1 cd2 : code_at i (cd1 ++ cd2) -> code_at i cd1 /\ code_at (i + Z.of_nat (length cd1)) cd2.
Proof.
  intros (pre & post & E & ->). split.
  - exists pre, (cd2 ++ post). by rewrite E, <-app_assoc.
  - exists (pre ++ cd1), post. rewrite E, length_app, !app_assoc. split; [done|lia].
Qed.

Lemma code_at_byte i b cd : code_at i (b :: cd) -> 0 <= i /\ code (chunk fn) !! Z.to_nat i = Some b /\ code_at (i + 1) cd.
Proof.
  intros Hc. destruct (code_at_app i [b] cd Hc) as [_ Hcd]. destruct Hc as (pre & post & E & ->). split_and!; [lia| |done].
  rewrite E, Nat2Z.id. by apply list_lookup_middle.
Qed.

Lemma at_read_word i st top n cd : is_u16 n -> code_at i (word n ++ cd) ->
  read_uint16_le (at_ i st top) = Ret (n, at_ (i + 2) st top) /\ code_at (i + 2) cd.
Proof using Hframe Hfn.
  intros Hn Hc. cbn [app word] in Hc. destruct (code_at_byte _ _ _ Hc) as (Hi & Hb & Hc1).
  destruct (code_at_byte _ _ _ Hc1) as (Hi1 & Hb1 & Hc2). rewrite <-Z.add_assoc in Hc2. split; [|done].
  unfold read_uint16_le. rewrite (M_bind_run _ _ _ _ _ (at_read_byte i st top _ Hi Hb)).
  rewrite (M_bind_run _ _ _ _ _ (at_read_byte (i + 1) st top _ Hi1 Hb1)). unfold mret, M_ret. rewrite <-Z.add_assoc. do 2 f_equal.
  pose proof (word_bytes n Hn) as Hw. injection Hw as -> ->. by apply le16_bytes.
Qed.

(** ** Runtime errors *)

(** Every active frame has a closure of a function with a name. *)
Definition traceable : Prop := forall k, (k < frame_count (state w0))%nat -> exists f g nm,
  frames (state w0) !! k = Some (Some f) /\ closure_function (frame_closure f) w0 = Ret (g, w0) /\
  Heap.string (objects (mem w0)) (name_ g) = Ret nm.

Hypothesis (Htrace : traceable).

Definition reports_in (i : Z) st top (w : machine) : Prop := mem w = mem w0 /\ state w = state (at_ i st top) /\ output w = output w0.

Lemma trace_frame_run i st top k w : (k < frame_count (state w0))%nat -> reports_in i st top w ->
  exists w', trace_frame k w = Ret (tt, w') /\ reports_in i st top w'.
Proof using Htrace Hframe Hfn.
  intros Hk (Hm & Hs & Ho).
  assert (Hf : exists f g nm, frames (state w) !! k = Some (Some f) /\ closure_function (frame_closure f) w0 = Ret (g, w0) /\
    Heap.string (objects (mem w0)) (name_ g) = Ret nm).
  { rewrite Hs. cbn. destruct (decide (k = cur)) as [->|Hne].
    - destruct (Htrace cur Hk) as (f & g & nm & Hf & Hg & Hn). rewrite Hframe in Hf. injection Hf as <-.
      exists (moved i), g, nm. split; [|done]. apply list_lookup_insert_eq. by eapply lookup_lt_Some.
    - destruct (Htrace k Hk) as (f & g & nm & Hf & Hg & Hn). exists f, g, nm.
      by rewrite list_lookup_insert_ne by congruence. }
  destruct Hf as (f & g & nm & Hf & Hg & Hn). unfold trace_frame.
  rewrite (M_bind_run (frame k) _ w f w) by (unfold frame, vm_state, gets, lift, mbind, M_bind; cbn; by rewrite Hf).
  rewrite (M_bind_run _ _ _ _ _ (closure_function_mem _ w0 w g Hm Hg)).
  rewrite (M_bind_run (string_of (name_ g)) _ w (str nm) w)
    by (unfold string_of, read_heap, heap_of, gets, lift, mbind, M_bind; cbn; by rewrite Hm, Hn).
  by eexists.
Qed.

Lemma trace_run i st top ks : forall w, Forall (fun k => (k < frame_count (state w0))%nat) ks -> reports_in i st top w ->
  exists w', for_each trace_frame ks w = Ret (tt, w') /\ reports_in i st top w'.
Proof using Htrace Hframe Hfn.
  induction ks as [|k ks IH]; intros w Hks Hw; [by exists w|]. inversion_clear Hks as [|? ? Hk Hks'].
  destruct (trace_frame_run i st top k w Hk Hw) as (w1 & E1 & Hw1). destruct (IH w1 Hks' Hw1) as (w2 & E2 & Hw2).
  exists w2. split; [|done]. cbn [for_each]. by rewrite (M_bind_run _ _ _ _ _ E1).
Qed.

(** After a runtime error there is a message, and nothing more was printed. *)
Definition failed (w' : machine) : Prop := output w' = output w0 /\ has_error_ (errors w') = true.

Lemma fail_run text i st top : exists w', fail text (at_ i st top) = Ret (Some RUNTIME_ERROR, w') /\ failed w'.
Proof using Htrace Hframe Hfn.
  destruct (trace_run i st top (rev (seq 0 (frame_count (state w0)))) (at_ i st top)) as (w1 & E1 & Hm & Hs & Ho); [|done|].
  { apply List.Forall_forall. intros k Hk%in_rev%in_seq. lia. }
  assert (Hf : frame_now w1 = Ret (moved i, w1)).
  { unfold frame_now, frame, vm_state, gets, lift, mbind, M_bind. rewrite Hs. cbn. rewrite Hs. cbn.
    by rewrite list_lookup_insert_eq by by eapply lookup_lt_Some. }
  assert (Hrep : exists w2, report_error text (at_ i st top) = Ret (tt, w2) /\ failed w2).
  { unfold report_error, vm_state. rewrite (M_bind_run _ _ _ _ _ (gets_run _ _)). cbn [at_ state set_state frame_count].
    rewrite (M_bind_run _ _ _ _ _ E1), (M_bind_run _ _ _ _ _ Hf).
    rewrite (M_bind_run _ _ _ _ _ (closure_function_mem _ w0 w1 fn Hm Hfn)). eexists. split; [done|]. by split. }
  destruct Hrep as (w2 & E2 & Hw2). exists w2. split; [|done]. unfold fail. by rewrite (M_bind_run _ _ _ _ _ E2).
Qed.

(** ** Outcomes *)

(** The stack below [base] is the same. *)
Definition keeps (base : nat) (st st' : list Value) : Prop := length st' = length st /\ take base st' = take base st.

Lemma keeps_stack_refl base st : keeps base st st.
Proof. done. Qed.
Lemma keeps_stack_trans b1 b2 st1 st2 st3 : (b2 <= b1)%nat -> keeps b1 st1 st2 -> keeps b2 st2 st3 -> keeps b2 st1 st3.
Proof.
  intros Hle [L1 T1] [L2 T2]. split; [congruence|]. rewrite T2.
  rewrite <-(Nat.min_l b2 b1), <-!take_take by done. by rewrite T1.
Qed.
Lemma keeps_insert base k v st : (base <= k)%nat -> keeps base st (<[k := v]> st).
Proof. intros Hk. split; [by rewrite length_insert|]. by rewrite take_insert_ge. Qed.
Lemma keeps_lookup base st st' k v : keeps base st st' -> (k < base)%nat -> st !! k = Some v -> st' !! k = Some v.
Proof. intros [_ T] Hk Hv. rewrite <-(lookup_take_lt st' base) by done. by rewrite T, lookup_take_lt. Qed.

(** From the state with the pointer [i], the stack [st] and its top, the machine comes to the outcome [o]:
    the value is at [base], the pointer at [j] and nothing below [base] has changed; or it reports a runtime
    error; or there is an overflow. *)
Definition yields (o : outcome Value) (i : Z) (st : list Value) (top : nat) (j : Z) (base : nat) : Prop :=
  match o with
  | Ret v => exists n st', (forall fuel, execute call_native (n + fuel) (at_ i st top) = execute call_native fuel (at_ j st' (S base))) /\
               keeps base st st' /\ st' !! base = Some v
  | Undef why => exists n, forall fuel, execute call_native (n + fuel) (at_ i st top) = Undef why
  | Throw _ => exists n w', (forall fuel, execute call_native (n + fuel) (at_ i st top) = Ret (RUNTIME_ERROR, w')) /\ failed w'
  | OutOfFuel => False
  end.

Lemma execute_step i st top op cd fuel : code_at i (byte_of op :: cd) ->
  execute call_native (S fuel) (at_ i st top) =
  (r ← dispatch call_native op; match r with Some r => mret r | None => execute call_native fuel end) (at_ (i + 1) st top).
Proof using Hframe Hfn.
  intros (Hi & Hb & _)%code_at_byte. cbn [execute]. unfold step.
  unfold mbind at 1, M_bind. rewrite (M_bind_run _ _ _ _ _ (at_read_byte i st top _ Hi Hb)), OpCode.of_to_int. done.
Qed.

Lemma yields_here v i st base : st !! base = Some v -> yields (Ret v) i st (S base) i base.
Proof. intros Hv. by exists O, st. Qed.

Lemma yields_step op cd o i st top i' st' top' j base : code_at i (byte_of op :: cd) ->
  dispatch call_native op (at_ (i + 1) st top) = Ret (None, at_ i' st' top') -> keeps base st st' ->
  yields o i' st' top' j base -> yields o i st top j base.
Proof using Hframe Hfn.
  intros Hc Hd Hk Hy.
  assert (Hs : forall n fuel, execute call_native (S n + fuel) (at_ i st top) = execute call_native (n + fuel) (at_ i' st' top')).
  { intros n fuel. cbn [Nat.add]. rewrite (execute_step _ _ _ _ _ _ Hc). by rewrite (M_bind_run _ _ _ _ _ Hd). }
  destruct o as [v|e|e|]; cbn [yields] in *.
  - destruct Hy as (n & st2 & Hn & Hk2 & Hv). exists (S n), st2. split_and!; [intros fuel; by rewrite Hs, Hn| |done].
    by eapply keeps_stack_trans.
  - destruct Hy as (n & w' & Hn & Hw'). exists (S n), w'. split; [intros fuel; by rewrite Hs|done].
  - destruct Hy as (n & Hn). exists (S n). intros fuel. by rewrite Hs.
  - done.
Qed.

Lemma yields_undef op cd why i st top j base : code_at i (byte_of op :: cd) ->
  dispatch call_native op (at_ (i + 1) st top) = Undef why -> yields (Undef why) i st top j base.
Proof using Hframe Hfn.
  intros Hc Hd. exists 1%nat. intros fuel. cbn [Nat.add]. rewrite (execute_step _ _ _ _ _ _ Hc). unfold mbind, M_bind. by rewrite Hd.
Qed.

Lemma yields_error op cd e w' i st top j base : code_at i (byte_of op :: cd) ->
  dispatch call_native op (at_ (i + 1) st top) = Ret (Some RUNTIME_ERROR, w') -> failed w' ->
  yields (Throw e) i st top j base.
Proof using Hframe Hfn.
  intros Hc Hd Hw'. exists 1%nat, w'. split; [|done]. intros fuel. cbn [Nat.add]. rewrite (execute_step _ _ _ _ _ _ Hc). by rewrite (M_bind_run _ _ _ _ _ Hd).
Qed.

Lemma yields_bind o f i st top j b1 k b2 : (b2 <= b1)%nat -> yields o i st top j b1 ->
  (forall v st', o = Ret v -> keeps b1 st st' -> st' !! b1 = Some v -> yields (f v) j st' (S b1) k b2) ->
  yields (o ≫= f) i st top k b2.
Proof.
  intros Hle Hy Hf. destruct o as [v|e|e|]; cbn [mbind outcome_bind]; [|done..].
  destruct Hy as (n & st1 & Hn & Hk & Hv). specialize (Hf v st1 eq_refl Hk Hv).
  assert (Hs : forall m fuel, execute call_native (n + m + fuel) (at_ i st top) = execute call_native (m + fuel) (at_ j st1 (S b1))).
  { intros m fuel. by rewrite <-Nat.add_assoc, Hn. }
  destruct (f v) as [v'|e|e|]; cbn [yields] in *.
  - destruct Hf as (m & st2 & Hm & Hk2 & Hv2). exists (n + m)%nat, st2. split_and!; [intros fuel; by rewrite Hs| |done].
    by eapply keeps_stack_trans.
  - destruct Hf as (m & w' & Hm & Hw'). exists (n + m)%nat, w'. split; [intros fuel; by rewrite Hs|done].
  - destruct Hf as (m & Hm). exists (n + m)%nat. intros fuel. by rewrite Hs.
  - done.
Qed.

(** ** Instructions *)

Lemma yields_push op cd v i st top j : code_at i (byte_of op :: cd) -> (top < length st)%nat ->
  dispatch call_native op (at_ (i + 1) st top) = (push v ;; continue) (at_ j st top) -> yields (Ret v) i st top j top.
Proof using Hframe Hfn.
  intros Hc Ht Hd. eapply yields_step; [exact Hc| |by apply (keeps_insert top top v)|].
  - rewrite Hd. by rewrite (M_bind_run _ _ _ _ _ (at_push j st top v Ht)).
  - apply yields_here. by apply list_lookup_insert_eq.
Qed.

Lemma at_constant k v i st top : 0 <= k -> value_array (chunk fn) !! Z.to_nat k = Some v ->
  constant k (at_ i st top) = Ret (v, at_ i st top).
Proof using Hframe Hfn.
  intros Hk Hv. unfold constant. rewrite (M_bind_run _ _ _ _ _ (at_frame i st top)). cbn [moved frame_closure].
  rewrite (M_bind_run _ _ _ _ _ (at_function i st top)). unfold lift, Chunk.get_value_unchecked.
  rewrite (proj2 (Z.ltb_ge _ _)) by done. by rewrite Hv.
Qed.

Lemma load_yields k v i st top : is_u16 k -> value_array (chunk fn) !! Z.to_nat k = Some v -> code_at i (load_code k) ->
  (top < length st)%nat -> yields (Ret v) i st top (i + Z.of_nat (length (load_code k))) top.
Proof using Hframe Hfn.
  intros Hk Hv Hc Ht. assert (0 <= k) by (unfold is_u16 in Hk; lia). unfold load_code in *. destruct (k <=? 0xFF).
  - eapply yields_push; [exact Hc|done|]. cbn [dispatch length]. apply code_at_byte in Hc as (_ & _ & Hc).
    apply code_at_byte in Hc as (Hi & Hb & _). unfold read_constant, mbind, M_bind.
    rewrite (at_read_byte _ _ _ _ Hi Hb), (at_constant k v) by done. by replace (i + 1 + 1) with (i + Z.of_nat 2) by lia.
  - eapply yields_push; [exact Hc|done|]. cbn [dispatch length]. apply code_at_byte in Hc as (_ & _ & Hc).
    rewrite <-(app_nil_r (word k)) in Hc. destruct (at_read_word (i + 1) st top k [] Hk Hc) as [Er _].
    unfold read_constant_long, mbind, M_bind. rewrite Er, (at_constant k v) by done.
    by replace (i + 1 + 2) with (i + Z.of_nat 3) by lia.
Qed.

(** The values of expressions hold no pointer and are initialized. *)
Definition simple (v : Value) : Prop := uninitialized v = false /\ Value.is_object v = false.

Lemma simple_is_type t v w : simple v -> is_type t v w = Ret (false, w).
Proof.
  intros [_ Ho]. unfold Value.is_object in Ho. unfold is_type, read_heap, heap_of, gets, lift, Heap.is_type, mbind, M_bind.
  by destruct (data v).
Qed.

Lemma falsey_truth v : Value.is_falsey v = negb (truth v).
Proof. unfold Value.is_falsey, truth. by destruct (data v) as [|[]| | |]. Qed.

Lemma NOT_yields cd v i st t : code_at i (byte_of OpCode.NOT :: cd) -> st !! t = Some v ->
  yields (Ret (Value.of_bool (negb (truth v)))) i st (S t) (i + 1) t.
Proof using Hframe Hfn.
  intros Hc Hv. assert (Ht : (t < length st)%nat) by by eapply lookup_lt_Some.
  eapply (yields_step _ _ _ _ _ _ (i + 1) (<[t := Value.of_bool (Value.is_falsey v)]> st) (S t)); [exact Hc| |by apply keeps_insert|].
  - cbn [dispatch]. unfold exec_NOT. rewrite (M_bind_run _ _ _ _ _ (at_pop (i + 1) st t v Hv)).
    by rewrite (M_bind_run _ _ _ _ _ (at_push (i + 1) st t _ Ht)).
  - rewrite <-falsey_truth. apply yields_here. by apply list_lookup_insert_eq.
Qed.

Lemma NEGATE_yields cd v i st t : code_at i (byte_of OpCode.NEGATE :: cd) -> st !! t = Some v -> simple v ->
  yields (negation v) i st (S t) (i + 1) t.
Proof using Hframe Hfn Htrace.
  intros Hc Hv [Hu Ho]. assert (Ht : (t < length st)%nat) by by eapply lookup_lt_Some.
  pose proof (at_peek 0 (i + 1) st t v Hv) as Hp. rewrite Nat.add_1_r in Hp.
  assert (Hd : dispatch call_native OpCode.NEGATE (at_ (i + 1) st (S t)) =
    if Value.is_number v then (v' ← negate_value v; Ret (None, at_ (i + 1) (<[t := v']> st) (S t)))
    else fail "Runtime Error: Cannot negate value, it must be a number" (at_ (i + 1) st (S t))).
  { cbn [dispatch]. unfold exec_NEGATE. rewrite (M_bind_run _ _ _ _ _ Hp). destruct (Value.is_number v); cbn [negb]; [|done].
    unfold lift. destruct (negate_value v) as [v'| | |]; try done. unfold mbind at 1, M_bind. cbn [mbind outcome_bind].
    unfold callee_slot, store_slot, vm_state, gets, put_state, modify, mbind, M_bind. cbn [state at_ set_state stack_top evalstack].
    rewrite (proj2 (Nat.leb_gt _ _)) by lia. cbn. rewrite decide_True by lia. by rewrite Nat.sub_0_r. }
  unfold negation, Value.is_number, Value.is_integer, Value.is_real, Value.is_object, negate_value, exact in *.
  destruct (data v) as [| |d|z|o]; cbn [orb] in Hd; try done.
  1,2: destruct (fail_run "Runtime Error: Cannot negate value, it must be a number" (i + 1) st (S t)) as (w' & Ew & Hw');
    rewrite Ew in Hd; by eapply yields_error.
  - rewrite Hu in Hd. eapply yields_step; [exact Hc|exact Hd|by apply keeps_insert|]. apply yields_here. by apply list_lookup_insert_eq.
  - rewrite Hu in Hd. destruct (decide (is_i64 (- z))); [|by eapply yields_undef].
    eapply yields_step; [exact Hc|exact Hd|by apply keeps_insert|]. apply yields_here. by apply list_lookup_insert_eq.
Qed.

(** ** Binary operators *)

(** The six instructions for numbers. *)
Inductive numeric : binary_operator -> VM.operator -> OpCode.t -> Prop :=
  | numeric_plus : numeric Plus VM.Add OpCode.ADD
  | numeric_minus : numeric Minus VM.Subtract OpCode.SUBTRACT
  | numeric_times : numeric Times VM.Multiply OpCode.MULTIPLY
  | numeric_over : numeric Over VM.Divide OpCode.DIVIDE
  | numeric_above : numeric Above VM.Greater OpCode.GREATER
  | numeric_below : numeric Below VM.Less OpCode.LESS.

Lemma numeric_dispatch op vop cop i st t a b : numeric op vop cop -> simple a -> simple b ->
  st !! t = Some a -> st !! S t = Some b ->
  dispatch call_native cop (at_ i st (S (S t))) = BINARY_OP vop (at_ i st (S (S t))).
Proof.
  intros Hop Ha Hb Hla Hlb. destruct Hop; try done. cbn [dispatch]. unfold exec_ADD.
  pose proof (at_peek 0 i st (S t) b Hlb) as H0. pose proof (at_peek 1 i st t a Hla) as H1.
  rewrite Nat.add_1_r in H0. replace (t + 2)%nat with (S (S t)) in H1 by lia.
  rewrite (M_bind_run _ _ _ _ _ H0), (M_bind_run _ _ _ _ _ H1).
  assert (Hn : forall ty, (l1 ← is_type ty b; l2 ← is_type ty a; mret (l1 && l2)) (at_ i st (S (S t))) = Ret (false, at_ i st (S (S t)))).
  { intros ty. rewrite (M_bind_run _ _ _ _ _ (simple_is_type ty b _ Hb)). by rewrite (M_bind_run _ _ _ _ _ (simple_is_type ty a _ Ha)). }
  rewrite (M_bind_run _ _ _ _ _ (Hn ObjectType.LIST)). by rewrite (M_bind_run _ _ _ _ _ (Hn ObjectType.STRING)).
Qed.

Lemma numeric_compute op vop cop a b : numeric op vop cop -> simple a -> simple b ->
  compute op a b = if Value.is_number a && Value.is_number b then binary_values vop a b else Throw "operands must be numbers".
Proof.
  intros Hop [_ Ha] [_ Hb].
  unfold compute, binary_values, real_of, Value.is_number, Value.is_integer, Value.is_real, Value.is_object, Value.coerce_real in *.
  destruct (data a), (data b); try done; by destruct Hop.
Qed.

Lemma numeric_yields op vop cop cd i st t a b : numeric op vop cop -> simple a -> simple b ->
  st !! t = Some a -> st !! S t = Some b -> code_at i (byte_of cop :: cd) ->
  yields (compute op a b) i st (S (S t)) (i + 1) t.
Proof using Hframe Hfn Htrace.
  intros Hop Ha Hb Hla Hlb Hc. pose proof (numeric_dispatch _ _ _ (i + 1) st t a b Hop Ha Hb Hla Hlb) as Hd.
  rewrite (numeric_compute _ _ _ _ _ Hop Ha Hb). destruct (Value.is_number a && Value.is_number b) eqn:En.
  - apply andb_true_iff in En as [Ena Enb]. rewrite (binary_op_ok vop (at_ (i + 1) st (S (S t))) t a b) in Hd by done.
    assert (Hv : forall v, binary_values vop a b = Ret v -> yields (Ret v) i st (S (S t)) (i + 1) t).
    { intros v Ev. rewrite Ev in Hd. eapply yields_step; [exact Hc|exact Hd|by apply keeps_insert|].
      apply yields_here, list_lookup_insert_eq. by eapply lookup_lt_Some. }
    destruct (binary_values vop a b) as [v|e|e|] eqn:Ev; [by apply Hv| |by eapply yields_undef|].
    all: exfalso; unfold Value.is_number, Value.is_integer, Value.is_real, binary_values, int_result, Value.coerce_real in *;
      destruct (data a), (data b), vop; try done; cbn in Ev; by repeat case_decide.
  - destruct (fail_run ("Expected operands of '" +:+ operator_text vop +:+ "' to be numbers") (i + 1) st (S (S t))) as (w' & Ew & Hw').
    eapply yields_error; [exact Hc| |exact Hw']. rewrite Hd. unfold BINARY_OP.
    pose proof (at_peek 0 (i + 1) st (S t) b Hlb) as H0. pose proof (at_peek 1 (i + 1) st t a Hla) as H1.
    rewrite Nat.add_1_r in H0. replace (t + 2)%nat with (S (S t)) in H1 by lia.
    rewrite (M_bind_run _ _ _ _ _ H0), (M_bind_run _ _ _ _ _ H1).
    replace (negb (Value.is_number b) || negb (Value.is_number a)) with true; [exact Ew|].
    by destruct (Value.is_number a), (Value.is_number b).
Qed.

Lemma EQUAL_yields cd i st t a b : simple a -> simple b -> st !! t = Some a -> st !! S t = Some b ->
  code_at i (byte_of OpCode.EQUAL :: cd) -> yields (compute Equals a b) i st (S (S t)) (i + 1) t.
Proof using Hframe Hfn.
  intros [_ Ha] [_ Hb] Hla Hlb Hc.
  assert (Hd : exists e, compute Equals a b = Ret (Value.of_bool e) /\ dispatch call_native OpCode.EQUAL (at_ (i + 1) st (S (S t))) =
    (push (Value.of_bool e) ;; continue) (at_ (i + 1) st t)).
  { cbn [dispatch]. unfold exec_EQUAL. rewrite (M_bind_run _ _ _ _ _ (at_pop _ _ _ _ Hlb)), (M_bind_run _ _ _ _ _ (at_pop _ _ _ _ Hla)).
    unfold compute, real_of, Value.is_number, Value.is_integer, Value.is_real, Value.is_object, Value.coerce_real, read_heap, value_equal in *.
    destruct (data a) as [|x|x|x|x] eqn:Ea, (data b) as [|y|y|y|y] eqn:Eb; try done; eexists; (split; [reflexivity|]);
      unfold receiver_depth; cbn [equal andb orb]; rewrite ?Ea, ?Eb; try reflexivity.
    rewrite (bool_decide_ext (BOOLEAN x = BOOLEAN y) (x = y)) by naive_solver. done. }
  destruct Hd as (e & -> & Hd). assert (Ht : (t < length st)%nat) by by eapply lookup_lt_Some.
  eapply (yields_step _ _ _ _ _ _ (i + 1) (<[t := Value.of_bool e]> st) (S t)); [exact Hc| |by apply keeps_insert|].
  - rewrite Hd. by rewrite (M_bind_run _ _ _ _ _ (at_push (i + 1) st t _ Ht)).
  - apply yields_here. by apply list_lookup_insert_eq.
Qed.

(** The comparisons that are compiled to the negation of another one. *)
Inductive negated : binary_operator -> binary_operator -> Prop :=
  | negated_equals : negated Differs Equals
  | negated_below : negated AtLeast Below
  | negated_above : negated AtMost Above.

Lemma negated_compute op op' a b : negated op op' ->
  compute op a b = (v ← compute op' a b; Ret (Value.of_bool (negb (truth v)))).
Proof.
  intros Hop. assert (Hi : forall x y, on_integers op x y = (v ← on_integers op' x y; Ret (Value.of_bool (negb (truth v))))).
  { intros x y. destruct Hop; cbn; [done|do 2 f_equal; apply Z.leb_antisym..]. }
  unfold compute, real_of. destruct (data a), (data b); rewrite ?Hi; by destruct Hop.
Qed.

Lemma binary_yields op i st t a b : simple a -> simple b -> st !! t = Some a -> st !! S t = Some b ->
  code_at i (operator_code op) -> yields (compute op a b) i st (S (S t)) (i + Z.of_nat (length (operator_code op))) t.
Proof using Hframe Hfn Htrace.
  intros Ha Hb Hla Hlb Hc.
  assert (Hneg : forall op' o, negated op op' ->
    operator_code op = [byte_of o; byte_of OpCode.NOT] -> yields (compute op' a b) i st (S (S t)) (i + 1) t ->
    yields (compute op a b) i st (S (S t)) (i + Z.of_nat (length (operator_code op))) t).
  { intros op' o Hin Ec Hy. rewrite (negated_compute op op' a b Hin). rewrite Ec in *. apply code_at_byte in Hc as (_ & _ & Hc).
    eapply yields_bind; [reflexivity|exact Hy|]. intros v st' _ _ Hv.
    replace (i + Z.of_nat (length [byte_of o; byte_of OpCode.NOT])) with (i + 1 + 1) by (cbn; lia). by eapply NOT_yields. }
  destruct op; try (eapply numeric_yields; [constructor|done..]); try by eapply EQUAL_yields.
  - eapply (Hneg Equals); [constructor|reflexivity|by eapply EQUAL_yields].
  - eapply (Hneg Below); [constructor|reflexivity|eapply numeric_yields; [constructor|done..]].
  - eapply (Hneg Above); [constructor|reflexivity|eapply numeric_yields; [constructor|done..]].
Qed.

(** ** Expressions *)

Lemma meaning_simple e : forall v, meaning e = Ret v -> simple v.
Proof.
  assert (Hc : forall op a b v, compute op a b = Ret v -> simple v).
  { intros op a b v. unfold compute, on_integers, exact, real_of.
    destruct (data a), (data b); destruct op; intros Hv; try case_decide; first [done|by injection Hv as <-]. }
  induction e as [l|[] e IH|op e1 IH1 e2 IH2|[] e1 IH1 e2 IH2]; intros v Hv; cbn [meaning] in Hv.
  - injection Hv as <-. by destruct l.
  - apply bind_Ret in Hv as (a & _ & Hv). unfold negation, exact in Hv.
    destruct (data a); try case_decide; first [done|by injection Hv as <-].
  - apply bind_Ret in Hv as (a & _ & [= <-]). done.
  - apply bind_Ret in Hv as (a & _ & Hv). apply bind_Ret in Hv as (b & _ & Hv). by eapply Hc.
  - apply bind_Ret in Hv as (a & Ha & Hv). destruct (truth a); [by apply IH2|injection Hv as <-; by apply IH1].
  - apply bind_Ret in Hv as (a & Ha & Hv). destruct (truth a); [injection Hv as <-; by apply IH1|by apply IH2].
Qed.

Lemma literal_yields l s i st top : known s -> (length (pool_values (literal_code l s).2) <= 47)%nat ->
  pool_values (literal_code l s).2 `prefix_of` value_array (chunk fn) -> code_at i (literal_code l s).1 ->
  (top < length st)%nat -> yields (Ret (literal_value l)) i st top (i + Z.of_nat (length (literal_code l s).1)) top.
Proof using Hframe Hfn.
  intros Hs Hl [vs Evs] Hc Ht.
  assert (Hload : forall k v, (k < 47)%nat -> pool_values (literal_code l s).2 !! k = Some v -> code_at i (load_code (Z.of_nat k)) ->
    yields (Ret v) i st top (i + Z.of_nat (length (load_code (Z.of_nat k)))) top).
  { intros k v Hk Hv Hck. apply load_yields; [unfold is_u16; lia| |done|done]. rewrite Nat2Z.id, Evs. by apply lookup_app_l_Some. }
  destruct l as [n|d|b|]; cbn [literal_code literal_value] in *.
  - destruct (n =? 0) eqn:E0; zbool; [subst; by eapply yields_push|].
    destruct (n =? 1) eqn:E1; zbool; [subst; by eapply yields_push|].
    destruct (pool_index s !! n) as [k|] eqn:Ek; cbn [fst snd] in *.
    + destruct (Hs n k Ek) as [Hk Hv]. rewrite <-(Z2Nat.id k) in Hc |- * by done.
      apply Hload; [|done|done]. apply lookup_lt_Some in Hv. lia.
    + cbn [new_constant fst snd remember pool_values] in *. rewrite length_app in Hl. cbn in Hl.
      apply Hload; [lia|by apply list_lookup_middle|done].
  - cbn [new_constant fst snd pool_values] in *. rewrite length_app in Hl. cbn in Hl.
    apply Hload; [lia|by apply list_lookup_middle|done].
  - destruct b; by eapply yields_push.
  - by eapply yields_push.
Qed.

(** The value of the first operand decides. *)
Definition decided (op : logical_operator) (v : Value) : bool :=
  match op with Conjunction => negb (truth v) | Disjunction => truth v end.

Lemma branch_dispatch op n cd i st t v : is_u16 n -> code_at (i + 1) (word n ++ cd) -> st !! t = Some v ->
  dispatch call_native (branch_op op) (at_ (i + 1) st (S t)) =
  Ret (None, at_ (if decided op v then i + 3 + n else i + 3) st (S t)).
Proof using Hframe Hfn.
  intros Hn Hc Hv. destruct (at_read_word (i + 1) st (S t) n cd Hn Hc) as [Er _].
  pose proof (at_peek 0 (i + 1 + 2) st t v Hv) as Hp. rewrite Nat.add_1_r in Hp.
  assert (Hd : forall on, exec_JUMP_IF on (at_ (i + 1) st (S t)) =
    Ret (None, at_ (if Bool.eqb (Value.is_falsey v) on then i + 3 else i + 3 + n) st (S t))).
  { intros on. unfold exec_JUMP_IF. rewrite (M_bind_run _ _ _ _ _ Er), (M_bind_run _ _ _ _ _ Hp).
    replace (i + 1 + 2) with (i + 3) by lia. destruct (Bool.eqb _ on); [done|]. unfold jump.
    rewrite (M_bind_run _ _ _ tt (at_ (i + 3 + n) st (S t))); [done|].
    by rewrite (M_bind_run _ _ _ _ _ (at_frame (i + 3) st (S t))), at_set_ip. }
  destruct op; cbn [branch_op dispatch decided]; rewrite Hd, falsey_truth; by destruct (truth v).
Qed.

Lemma branch_yields op cd2 o i st t v : code_at i (branch_code op cd2) -> is_u16 (Z.of_nat (length cd2) + 1) ->
  st !! t = Some v ->
  (decided op v = false -> yields o (i + 4) st t (i + 4 + Z.of_nat (length cd2)) t) ->
  yields (if decided op v then Ret v else o) i st (S t) (i + Z.of_nat (length (branch_code op cd2))) t.
Proof using Hframe Hfn.
  intros Hc Hn Hv Ho. unfold branch_code in *. pose proof (code_at_byte _ _ _ Hc) as (_ & _ & Hc1).
  pose proof (branch_dispatch op _ _ i st t v Hn Hc1 Hv) as Hd.
  destruct (at_read_word (i + 1) st (S t) _ _ Hn Hc1) as [_ Hc3]. cbn [length app word].
  destruct (decided op v).
  - eapply yields_step; [exact Hc|exact Hd|done|].
    replace (i + 3 + (Z.of_nat (length cd2) + 1)) with (i + Z.of_nat (S (S (S (S (length cd2)))))) by lia. by apply yields_here.
  - eapply yields_step; [exact Hc|exact Hd|done|]. replace (i + 1 + 2) with (i + 3) in Hc3 by lia.
    eapply (yields_step OpCode.POP_TOP); [exact Hc3| |done|].
    + cbn [dispatch]. rewrite (M_bind_run _ _ _ _ _ (at_pop (i + 3 + 1) st t v Hv)). reflexivity.
    + replace (i + 3 + 1) with (i + 4) by lia.
      replace (i + Z.of_nat (S (S (S (S (length cd2)))))) with (i + 4 + Z.of_nat (length cd2)) by lia. by apply Ho.
Qed.

Lemma plain_operand op e : plain (Unary op e) = true -> plain e = true.
Proof. destruct op, e; cbn; try done. by intros [? _]%andb_true_iff. Qed.

Lemma plain_one e : plain (Unary Negation e) = true -> ends_in_one e = true -> e = Lit (LInt 1).
Proof.
  destruct e as [[n|d|b|]|op e|op e1 e2|op e1 e2]; cbn; try done; [by intros _ ->%Z.eqb_eq|].
  intros [_ Hn]%andb_true_iff E. by rewrite E in Hn.
Qed.

(** Expressions that meet the conditions above are evaluated. *)
Lemma expr_yields e : forall s i st top, plain e = true -> known s ->
  (length (pool_values (expr_code e s).2) <= 47)%nat -> pool_values (expr_code e s).2 `prefix_of` value_array (chunk fn) ->
  code_at i (expr_code e s).1 -> Z.of_nat (length (expr_code e s).1) <= 0xFFFF -> (top + slots e <= length st)%nat ->
  yields (meaning e) i st top (i + Z.of_nat (length (expr_code e s).1)) top.
Proof using Hframe Hfn Htrace.
  induction e as [l|op e IH|op e1 IH1 e2 IH2|op e1 IH1 e2 IH2]; intros s i st top Hp Hs Hl Hv Hc Hz Ht; cbn [meaning].
  - apply literal_yields; try done. cbn [slots] in Ht. lia.
  - cbn [slots] in Ht. pose proof (plain_operand _ _ Hp) as Hpe. pose proof (last_one e s Hs) as H1. pose proof (unary_code_length op (expr_code e s).1).
    cbn [expr_code] in *. specialize (IH s i st top Hpe Hs). destruct (expr_code e s) as [cd s1] eqn:Ecd. cbn [fst snd] in *. 
    destruct op; cbn [unary_code] in *; [unfold negate_code in *; case_decide as El|].
    + rewrite (plain_one e Hp (H1 Hl El)) in *. injection Ecd as <- <-. cbn [slots] in Ht. eapply yields_push; [exact Hc|lia|done].
    + apply code_at_app in Hc as [Hc1 Hc2]. rewrite length_app, Nat2Z.inj_add, Z.add_assoc.
      eapply yields_bind; [reflexivity|apply IH; [done..|lia|lia]|]. intros v st1 Ev _ Hlv. eapply NEGATE_yields; [exact Hc2|done|by eapply meaning_simple].
    + apply code_at_app in Hc as [Hc1 Hc2]. rewrite length_app, Nat2Z.inj_add, Z.add_assoc.
      eapply yields_bind; [reflexivity|apply IH; [done..|lia|lia]|]. intros v st1 Ev _ Hlv. by eapply NOT_yields.
  - cbn [plain slots expr_code] in *. apply andb_true_iff in Hp as [Hp1 Hp2].
    pose proof (expr_pool e1 s Hs) as HP1. specialize (IH1 s). destruct (expr_code e1 s) as [cd1 s1]. destruct HP1 as [K1 _].
    pose proof (expr_pool e2 s1 K1) as HP2. specialize (IH2 s1). destruct (expr_code e2 s1) as [cd2 s2]. destruct HP2 as [_ P2].
    cbn [fst snd] in *. rewrite !length_app in Hz |- *. apply code_at_app in Hc as [Hc1 [Hc2 Hc3]%code_at_app].
    pose proof (prefix_length _ _ P2). eapply yields_bind; [reflexivity|apply IH1; try done; [lia|by etrans|lia|lia]|].
    intros a st1 Ea [L1 _] Ha. eapply yields_bind; [|apply IH2; try done; [lia|lia]|].
    { lia. }
    intros b st2 Eb Hk Hb. replace (i + Z.of_nat (length cd1 + (length cd2 + length (operator_code op)))) with
      (i + Z.of_nat (length cd1) + Z.of_nat (length cd2) + Z.of_nat (length (operator_code op))) by lia.
    apply binary_yields; [by eapply meaning_simple|by eapply meaning_simple| |done|done].
    eapply keeps_lookup; [exact Hk|lia|done].
  - cbn [plain slots expr_code] in *. apply andb_true_iff in Hp as [Hp1 Hp2].
    pose proof (expr_pool e1 s Hs) as HP1. specialize (IH1 s). destruct (expr_code e1 s) as [cd1 s1]. destruct HP1 as [K1 _].
    pose proof (expr_pool e2 s1 K1) as HP2. specialize (IH2 s1). destruct (expr_code e2 s1) as [cd2 s2]. destruct HP2 as [_ P2].
    cbn [fst snd] in *. rewrite length_app in Hz |- *. apply code_at_app in Hc as [Hc1 Hc2].
    pose proof (prefix_length _ _ P2). rewrite Nat2Z.inj_add, Z.add_assoc.
    assert (Hz2 : Z.of_nat (length cd2) + 4 = Z.of_nat (length (branch_code op cd2))) by (cbn; lia).
    assert (E : (v ← meaning e1; if decided op v then Ret v else meaning e2) = meaning (Logical op e1 e2)).
    { destruct op; cbn [meaning]; destruct (meaning e1) as [v| | |]; try done. cbn. by destruct (truth v). }
    cbn [meaning] in E. rewrite <-E. eapply yields_bind; [reflexivity|apply IH1; try done; [lia|by etrans|lia|lia]|].
    intros v st1 Ev [L1 _] Hlv. apply branch_yields; [done|unfold is_u16; lia|done|]. intros _.
    apply IH2; try done; [|lia|lia].
    unfold branch_code in Hc2. change (?x :: word ?n ++ ?y :: cd2) with ((x :: word n ++ [y]) ++ cd2) in Hc2.
    apply code_at_app in Hc2 as [_ Hc2]. exact Hc2.
Qed.

End evaluation.
