(* ===== verification/ExprProps.v ===== *)
(** * Compiling and running expressions *)

From S2P Require Import Prelude Double HashMap HashMapFacts Hash Platform HashMapProps Bytes Opcode Token Lexer LexerFacts Value Chunk Object Collections WriteFacts Memory Context Parser ParserFacts Compiler CompilerFacts CompilerSteps VM StackFacts VMProps DisassemblerProps ExprSpec ExprCompile ExprRun.
Import Compiler (functions, run_parse_precedence, InterpretResult, OK, RUNTIME_ERROR).
Import VM.

Section running.
Context {HP : Platform} (call_native : NativeFunction -> nat -> nat -> M machine (Value * bool)).
Implicit Types (m : machine) (fn : ObjectFunction).

(** The machine [m] is about to execute the instruction at [i] of [fn]; it can report errors. *)
Definition ready m fn (i : Z) : Prop := exists cur fr, current_frame (state m) = Some cur /\
  frames (state m) !! cur = Some (Some fr) /\ ip fr = i /\ closure_function (frame_closure fr) m = Ret (fn, m) /\ traceable m.

(** Executing the next [len] bytes puts the value of [o] on the stack and changes nothing else, or ends in a
    runtime error with a message, or overflows, as [o] says. *)
Definition evaluates m (o : outcome Value) (len : Z) : Prop :=
  match o with
  | Ret v => exists n m', (forall fuel, execute call_native (n + fuel) m = execute call_native fuel m') /\
      ip_of (state m') = ip_of (state m) + len /\ stack_top (state m') = S (stack_top (state m)) /\
      evalstack (state m') !! stack_top (state m) = Some v /\
      take (stack_top (state m)) (evalstack (state m')) = take (stack_top (state m)) (evalstack (state m)) /\
      mem m' = mem m /\ globals_ m' = globals_ m /\ errors m' = errors m /\ output m' = output m
  | Throw _ => exists n m', (forall fuel, execute call_native (n + fuel) m = Ret (RUNTIME_ERROR, m')) /\
      output m' = output m /\ has_error_ (errors m') = true
  | Undef why => exists n, forall fuel, execute call_native (n + fuel) m = Undef why
  | OutOfFuel => False
  end.

Lemma at_id m cur fr : current_frame (state m) = Some cur -> frames (state m) !! cur = Some (Some fr) ->
  at_ m cur fr (ip fr) (evalstack (state m)) (stack_top (state m)) = m.
Proof.
  intros Hc Hf. unfold at_, moved, set_state. rewrite list_insert_id by (by rewrite Hf; destruct fr). rewrite <-Hc.
  by destruct m as [? ? ? []].
Qed.

Lemma expr_evaluates m fn e s i : plain e = true -> known s ->
  (length (pool_values (expr_code e s).2) <= 47)%nat -> Z.of_nat (length (expr_code e s).1) <= 0xFFFF ->
  ready m fn i -> code_at fn i (expr_code e s).1 -> pool_values (expr_code e s).2 `prefix_of` value_array (chunk fn) ->
  (stack_top (state m) + slots e <= length (evalstack (state m)))%nat ->
  evaluates m (meaning e) (Z.of_nat (length (expr_code e s).1)).
Proof.
  intros Hp Hs Hl Hz (cur & fr & Hc & Hf & <- & Hfn & Ht) Hcode Hv Hroom.
  pose proof (expr_yields call_native m cur fr fn Hf Hfn Ht e s (ip fr) (evalstack (state m)) (stack_top (state m))
    Hp Hs Hl Hv Hcode Hz Hroom) as Hy.
  pose proof (at_id m cur fr Hc Hf) as Ei. destruct (meaning e) as [v|err|why|]; cbn [yields evaluates] in *.
  - destruct Hy as (n & st' & Hn & [_ Hk] & Hlv). exists n, (at_ m cur fr (ip fr + Z.of_nat (length (expr_code e s).1)) st' (S (stack_top (state m)))).
    split_and!; try done; [intros fuel; by rewrite <-Hn, Ei|]. unfold ip_of. rewrite Hc, Hf. cbn.
    by rewrite list_lookup_insert_eq by by eapply lookup_lt_Some.
  - destruct Hy as (n & w' & Hn & Hw'). exists n, w'. split; [intros fuel; by rewrite <-(Hn fuel), Ei|done].
  - destruct Hy as (n & Hn). exists n. intros fuel. by rewrite <-(Hn fuel), Ei.
  - done.
Qed.

End running.

(** ** The theorem *)

Section compiling.
Context {HP : Platform} {HL : PlatformLaws}.

(** The compiler's state [w] is where the tokens of [ts] start, which are the expression [e], and end at
    [p]; it emits into [fn], at [r], whose constants are [s]. *)
Record at_expression (src : Datatypes.list ascii) (w : world) (r : ref) (fn : ObjectFunction) (s : pool)
    (ts : Datatypes.list Token) (e : expr) (p : Parser) : Prop := {
  expression_function : exists c cs, compilers w = c :: cs /\ compiled c = Some r /\
    Heap.function (objects (memory w)) r = Ret fn /\ tracks (mkGen (parser w) (chunk fn) (constant_numbers c)) s;
  expression_parser : parser_ok src (parser w);
  expression_tokens : consumes ts (parser w) p;
  expression_parses : parses (level Precedence.ASSIGNMENT) ts e;
  expression_ends : level_of (here_type p) < level Precedence.ASSIGNMENT /\ here_type p <> TokenType.EQUAL
}.

Lemma install_id w c cs r fn : compilers w = c :: cs -> compiled c = Some r ->
  Heap.function (objects (memory w)) r = Ret fn ->
  install w c cs r fn (mkGen (parser w) (chunk fn) (constant_numbers c)) = w.
Proof.
  intros Hc Hr Hf. unfold install. cbn. destruct w as [m ctx p cps v]. cbn in *. subst. f_equal.
  - destruct m. unfold Memory.set_objects. cbn in *. f_equal. unfold Heap.write. apply function_Ret in Hf as [b Hb].
    apply alter_id. intros x Hx. rewrite Hb in Hx. injection Hx as <-. by destruct fn.
  - by destruct c.
Qed.

(** What compiling an expression leaves: the parser after it, its code at the end of the function. *)
Lemma expression_compiles src w r fn s ts e p d : nul ∉ src -> at_expression src w r fn s ts e p -> (length ts <= d)%nat ->
  Chunk.size (chunk fn) + Z.of_nat (length (expr_code e s).1) <= 0xFFFF ->
  match Compiler.expression (run_parse_precedence (functions d)) w with
  | Ret (_, w') => parser w' = p /\ exists fn', Heap.function (objects (memory w')) r = Ret fn' /\
      code (chunk fn') = code (chunk fn) ++ (expr_code e s).1 /\ value_array (chunk fn') = pool_values (expr_code e s).2
  | Throw err => limit_error err
  | _ => False
  end.
Proof using HL.
  intros Hsrc [(c & cs & Hc & Hr & Hf & Ht) Hp Hts Hparse [Hl Heq]] Hd Hz.
  pose proof (climbs_whole w c cs r fn src (level Precedence.ASSIGNMENT) ts e d (mkGen (parser w) (chunk fn) (constant_numbers c)) p s
    (parses_climbs w c cs r fn Hr Hf src Hsrc _ _ _ Hparse)) as H.
  rewrite (install_id w c cs r fn Hc Hr Hf) in H. unfold leads in H. unfold Compiler.expression.
  pose proof (parses_nonempty _ _ _ Hparse).
  destruct (consumes_ok src Hsrc ts (parser w) p Hp Hts (tokens_not_eof _ _ _ Hparse)) as [Hok _].
  specialize (H ltac:(done) ltac:(lia) Hp Hok Hts Hl ltac:(done) Ht Hz).
  destruct (run_parse_precedence (functions d) _ w) as [[[] w']| | |]; try done.
  destruct H as (g & -> & [Hgp Hgc Hgt]). split; [done|]. exists (Compiler.with_chunk fn (gen_chunk g)).
  split; [by eapply installed_function|]. split; [done|apply Hgt].
Qed.

End compiling.

(** C2. Expressions of literals with arithmetic, comparisons, equality, [not], [and], [or] and parentheses
    are compiled to code that computes their value. When the parser is at tokens that the grammar reads as the
    tree [e], up to a token that neither continues the expression nor assigns, the compiler consumes exactly
    these tokens, or throws at one of its limits; and any machine that then executes the function from where
    the expression's code starts, with room on its stack and no matter what follows the code, comes to the
    end of that code with the meaning of [e] on top of the stack and everything else as it was; it reports a
    runtime error exactly when the meaning of [e] is one, and has an undefined overflow exactly when [e] has.
    Precedence, associativity, short circuits, the cache of constants, and the rewriting of ONE into MINUS_ONE
    are all part of this. That rewriting is the reason for two of the conditions: no negation is applied to an
    [and] or [or] that ends in the literal 1, and there are at most 47 constants; beyond them it is wrong. *)
Theorem expressions_evaluate `{PlatformLaws} (src : Datatypes.list ascii) (w : world) (r : ref) (fn : ObjectFunction)
    (s : pool) (ts : Datatypes.list Token) (e : expr) (p : Parser) (d : nat) :
  nul ∉ src -> at_expression src w r fn s ts e p -> (length ts <= d)%nat -> plain e = true ->
  Chunk.size (chunk fn) + Z.of_nat (length (expr_code e s).1) <= 0xFFFF ->
  (length (pool_values (expr_code e s).2) <= 47)%nat ->
  match Compiler.expression (run_parse_precedence (functions d)) w with
  | Ret (_, w') =>
      parser w' = p /\ exists fn', Heap.function (objects (memory w')) r = Ret fn' /\
      forall call_native (m : machine) (g : ObjectFunction),
        code (chunk fn') `prefix_of` code (chunk g) -> value_array (chunk fn') `prefix_of` value_array (chunk g) ->
        ready m g (Chunk.size (chunk fn)) -> (stack_top (state m) + slots e <= length (evalstack (state m)))%nat ->
        evaluates call_native m (meaning e) (Chunk.size (chunk fn') - Chunk.size (chunk fn))
  | Throw err => limit_error err
  | _ => False
  end.
Proof.
  intros Hsrc He Hd Hplain Hz Hl. pose proof (expression_compiles src w r fn s ts e p d Hsrc He Hd Hz) as Hc.
  destruct (Compiler.expression _ w) as [[[] w']| | |]; try done. destruct Hc as (Hp & fn' & Hf & Ecode & Ev).
  split; [done|]. exists fn'. split; [done|]. intros call_native m g [post Hcode] Hv Hm Hroom.
  replace (Chunk.size (chunk fn') - Chunk.size (chunk fn)) with (Z.of_nat (length (expr_code e s).1))
    by (unfold Chunk.size; rewrite Ecode, length_app; lia).
  destruct (expression_function _ _ _ _ _ _ _ _ He) as (c & cs & _ & _ & _ & Ht).
  eapply expr_evaluates; [done| |done|unfold Chunk.size in Hz; lia|exact Hm| |by rewrite <-Ev|done].
  - intros n i [Hi Hn]%(tracks_known _ _ Ht). split; [lia|done].
  - exists (code (chunk fn)), post. by rewrite Hcode, Ecode, <-app_assoc.
Qed.

(** ** Witness *)

(** The next [n] tokens of the parser. *)
Fixpoint read_tokens (n : nat) (p : Parser) : outcome (list Token * Parser) :=
  match n with
  | O => Ret ([], p)
  | S n => '(_, p1) ← Parser.advance p; '(ts, p') ← read_tokens n p1; Ret (Lexer.deref (Parser.current p) :: ts, p')
  end.

Lemma read_consumes n : forall p ts p', read_tokens n p = Ret (ts, p') -> consumes ts p p'.
Proof.
  induction n as [|n IH]; intros p ts p' Hr; cbn [read_tokens] in Hr; [by injection Hr as <- <-|].
  apply bind_Ret in Hr as ([[] p1] & Ha & Hr). apply bind_Ret in Hr as ([ts1 p2] & Hn & [= <- <-]).
  split; [done|]. exists p1. split; [done|]. by apply IH.
Qed.

(** A script's compiler at the start of an expression, and a machine that runs what it compiles. *)
Definition expression_text : list ascii := String.list_ascii_of_string "(1 + 2) * -3 < 10 and not nil;".

Definition expression_start : outcome world :=
  it ← Lexer.cbegin expression_text;
  p ← Parser.new_parser it ErrorReporter.empty;
  '(_, w) ← Compiler.new_compiler SCRIPT "" [] (mkWorld (Memory.initial default_vm_opts) Context.empty p [] None);
  Ret w.

Definition running (g : ObjectFunction) : machine :=
  mkMachine (Memory.set_objects (Memory.initial default_vm_opts)
      {[ 1%positive := mkCell false (ObjString (mkString "" 0)); 2%positive := mkCell false (ObjFunction g);
         3%positive := mkCell false (ObjClosure (mkClosure 2%positive [] 0)) ]})
    Context.empty ErrorReporter.empty
    (mkVM (replicate 4 Value.nil) [Some (mkFrame 3%positive 0 0)] (Some O) 1 1 None 1%positive) [] [] [].

Definition expression_tree : expr :=
  Logical Conjunction
    (Binary Below (Binary Times (Binary Plus (Lit (LInt 1)) (Lit (LInt 2))) (Unary Negation (Lit (LInt 3)))) (Lit (LInt 10)))
    (Unary Complement (Lit LNil)).

Lemma running_ready g : Heap.string (objects (mem (running g))) (name_ g) = Ret (mkString "" 0) -> ready (running g) g 0.
Proof.
  intros Hn. exists O, (mkFrame 3%positive 0 0). split_and!; try done. intros [|k] Hk; [|cbn in Hk; lia].
  exists (mkFrame 3%positive 0 0), g, (mkString "" 0). by split_and!.
Qed.

Definition tok (t : TokenType.t) (lexeme : string) : Token := mkToken t 1 ErrorCode.NO_ERROR lexeme.

Definition sum_tokens : list Token :=
  [tok TokenType.LEFT_PAREN "("; tok TokenType.NUMBER_INT "1"; tok TokenType.PLUS "+"; tok TokenType.NUMBER_INT "2"; tok TokenType.RIGHT_PAREN ")"].
Definition product_tokens : list Token :=
  sum_tokens ++ tok TokenType.STAR "*" :: [tok TokenType.MINUS "-"; tok TokenType.NUMBER_INT "3"].
Definition comparison_tokens : list Token := product_tokens ++ tok TokenType.LESS "<" :: [tok TokenType.NUMBER_INT "10"].
Definition expression_token_list : list Token :=
  comparison_tokens ++ tok TokenType.AND "and" :: [tok TokenType.NOT "not"; tok TokenType.NIL "nil"].

Lemma expression_parsed : parses (level Precedence.ASSIGNMENT) expression_token_list expression_tree.
Proof.
  assert (Hint : forall p n lex, p <= level Precedence.PRIMARY -> parse_int lex = Some n -> parses p [tok TokenType.NUMBER_INT lex] (Lit (LInt n))).
  { intros p n lex Hp Hlex. apply parses_literal; [by apply token_int|done]. }
  eapply parses_logical; [apply and_token|done| |].
  - eapply parses_binary; [apply less_token|done| |by apply Hint].
    eapply parses_binary; [apply star_token|done| |].
    + apply (parses_group _ (tok TokenType.LEFT_PAREN "(") [tok TokenType.NUMBER_INT "1"; tok TokenType.PLUS "+"; tok TokenType.NUMBER_INT "2"]);
        [done| |done|done]. apply (parses_binary _ Precedence.TERM (tok TokenType.PLUS "+") Plus [tok TokenType.NUMBER_INT "1"]);
        [apply plus_token|done|by apply Hint|by apply Hint].
    + eapply parses_unary; [apply unary_minus|by apply Hint|done].
  - eapply parses_unary; [apply unary_not| |done]. by apply parses_literal; [apply token_nil|].
Qed.

Lemma expressions_evaluate_witness : exists w w' fn', expression_start = Ret w /\
  Compiler.expression (run_parse_precedence (functions 20)) w = Ret (tt, w') /\
  Heap.function (objects (memory w')) 2%positive = Ret fn' /\
  evaluates (fun _ _ _ => throw "no natives") (running fn') (Ret (Value.of_bool true)) (Chunk.size (chunk fn')).
Proof.
  assert (Hn : nul ∉ expression_text) by (apply (bool_decide_unpack _); by vm_compute).
  destruct (cbegin_runs expression_text Hn) as (it & Eit & Hit).
  destruct (new_parser_runs expression_text Hn it ErrorReporter.empty Hit) as (p & Ep & Hp & _).
  assert (Hstart : exists w c fn p' w' fn', expression_start = Ret w /\ parser w = p /\ compilers w = [c] /\
    compiled c = Some 2%positive /\ Heap.function (objects (memory w)) 2%positive = Ret fn /\
    chunk fn = Chunk.empty /\ constant_numbers c = HashMap.empty /\
    read_tokens 13 p = Ret (expression_token_list, p') /\ level_of (here_type p') < level Precedence.ASSIGNMENT /\ here_type p' <> TokenType.EQUAL /\
    Compiler.expression (run_parse_precedence (functions 20)) w = Ret (tt, w') /\
    Heap.function (objects (memory w')) 2%positive = Ret fn' /\ name_ fn' = 1%positive).
  { vm_compute in Eit. injection Eit as <-. vm_compute in Ep. injection Ep as <-. do 6 eexists.
    split; [vm_compute; reflexivity|]. split; [reflexivity|]. split; [reflexivity|]. split; [reflexivity|]. split; [vm_compute; reflexivity|].
    split; [reflexivity|]. split; [reflexivity|]. split; [vm_compute; reflexivity|]. split; [by vm_compute|]. split; [by vm_compute|].
    split; [vm_compute; reflexivity|]. split; [vm_compute; reflexivity|reflexivity]. }
  destruct Hstart as (w & c & fn & p' & w' & fn' & Ew & Epw & Ec & Er & Ef & Ech & Et & Etok & Hl & Heq & Ee & Ef' & Enm).
  set (s := mkPool [] ∅).
  assert (He : at_expression expression_text w 2%positive fn s expression_token_list expression_tree p').
  { constructor; [|by rewrite Epw|rewrite Epw; exact (read_consumes _ _ _ _ Etok)|exact expression_parsed|exact (conj Hl Heq)].
    exists c, []. split_and!; [done..|]. rewrite Ech, Et. constructor; [done|apply empty_repr|done]. }
  exists w, w', fn'. split; [exact Ew|]. split; [exact Ee|]. split; [exact Ef'|].
  pose proof (expressions_evaluate expression_text w 2%positive fn s expression_token_list expression_tree p' 20 Hn He) as H.
  rewrite Ee, Ech in H. specialize (H ltac:(by apply Nat.leb_le) eq_refl ltac:(by vm_compute) ltac:(apply Nat.leb_le; by vm_compute)).
  destruct H as (_ & fn1 & Ef1 & H). rewrite Ef' in Ef1. injection Ef1 as <-.
  specialize (H (fun _ _ _ => throw "no natives") (running fn') fn' ltac:(done) ltac:(done)).
  rewrite Z.sub_0_r in H. apply H; [apply running_ready; by rewrite Enm|cbn; lia].
Defined.
