(* ===== verification/EchoCompile.v ===== *)
(** * Programs that print expressions: from the text to the code *)

From S2P Require Import Prelude Double HashMap HashMapFacts Hash Platform HashMapProps Opcode Token Lexer LexerFacts LexerProps Value Chunk ChunkFacts Object WriteFacts Memory Context Parser ParserFacts Compiler CompilerFacts CompilerSteps CompilerStart CompilerProps ExprSpec ExprCompile ExprProps.
Import Compiler (parse, functions, run_parse_precedence, run_statement, run_declaration, emit_opcode).

(** ** The parser over the tokens of a text *)

Section tokens.
Context (src : Datatypes.list ascii) (Hsrc : nul ∉ src).

(** The tokens from the parser's current one on, to the end of the text; none is an error. *)
Definition shows (ts : Datatypes.list Token) (p : Parser) : Prop := exists its,
  token_stream (Parser.current p) its /\ Lexer.deref <$> its = ts /\
  Forall (fun t => Token.token_type t <> TokenType.ERROR) ts.

(** The parser has reported nothing. *)
Definition silent (p : Parser) : Prop := had_error_ p = false /\ panic_mode p = false.

Lemma shows_head t ts p : shows (t :: ts) p -> Lexer.deref (Parser.current p) = t.
Proof. intros (its & Hst & E & _). by inversion Hst; subst its; injection E as ->. Qed.

Lemma advance_clean p : parser_ok src p -> Token.token_type (Lexer.deref (next p)) <> TokenType.ERROR -> silent p ->
  exists p', Parser.advance p = Ret (tt, p') /\ Parser.current p' = next p /\ silent p' /\ reporter p' = reporter p.
Proof using Hsrc.
  intros Hok Hne Hsil. destruct (next_ok src Hsrc p Hok) as [Hn _].
  destruct (next_iter src Hsrc (next p)) as (it & Hit & _); [apply Hn..|].
  unfold Parser.advance. unfold Parser.advance_fuel. rewrite Nat.add_comm. cbn [Parser.advance_loop Nat.add].
  cbn [next Parser.set_window]. rewrite Hit. cbn [mbind outcome_bind]. cbn [Parser.current Parser.set_window].
  rewrite decide_False by done. by eexists.
Qed.

Lemma shows_advance t t' ts p : parser_ok src p -> shows (t :: t' :: ts) p -> silent p ->
  exists p', Parser.advance p = Ret (tt, p') /\ shows (t' :: ts) p' /\ silent p' /\ parser_ok src p' /\ reporter p' = reporter p.
Proof using Hsrc.
  intros Hok (its & Hst0 & E & Hne) Hsil. inversion Hst0 as [it _ Eit Eits|it it' rest _ Hn _ Hst Eit Eits]; subst its; [done|].
  injection E as Et E. rewrite (next_follows src p Hok) in Hn. injection Hn as <-.
  inversion_clear Hne as [|? ? _ Hne'].
  assert (Ht : Lexer.deref (next p) = t') by (destruct Hst; cbn in E; by injection E as ->).
  destruct (advance_clean p Hok) as (p' & Ha & Hc & Hs & Hr); [rewrite Ht; by inversion_clear Hne'|done|].
  exists p'. destruct (advance_runs src Hsrc p Hok) as (p1 & Ha1 & Hok1 & _). rewrite Ha in Ha1. injection Ha1 as <-.
  split_and!; try done. exists rest. by rewrite Hc.
Qed.

(** Reading up to the last token. *)
Lemma shows_consumes ts : forall p t rest, parser_ok src p -> shows (ts ++ t :: rest) p -> silent p ->
  exists p', consumes ts p p' /\ shows (t :: rest) p' /\ silent p' /\ parser_ok src p' /\ reporter p' = reporter p.
Proof using Hsrc.
  induction ts as [|t0 ts IH]; intros p t rest Hok Hsh Hsil; [by exists p|].
  assert (Hnext : exists t1 ts1, ts ++ t :: rest = t1 :: ts1) by (destruct ts; by do 2 eexists).
  destruct Hnext as (t1 & ts1 & E). cbn in Hsh. pose proof (shows_head _ _ _ Hsh) as Hh. rewrite E in Hsh.
  destruct (shows_advance t0 t1 ts1 p Hok Hsh Hsil) as (p1 & Ha & Hsh1 & Hs1 & Hok1 & Hr1). rewrite <-E in Hsh1.
  destruct (IH p1 t rest Hok1 Hsh1 Hs1) as (p' & Hc & Hsh' & Hs' & Hok' & Hr'). exists p'.
  split; [split; [done|by exists p1]|]. split_and!; try done. by rewrite Hr'.
Qed.

(** At the end the parser stays where it is. *)
Lemma end_advance t p : parser_ok src p -> shows [t] p -> silent p ->
  Token.token_type t = TokenType.END_OF_FILE /\
  exists p', Parser.advance p = Ret (tt, p') /\ silent p' /\ parser_ok src p' /\ reporter p' = reporter p.
Proof using Hsrc.
  intros Hok (its & Hst & E & Hne) Hsil.
  assert (Hend : Lexer.current_token_type (Parser.current p) = TokenType.END_OF_FILE).
  { inversion Hst as [it He Eit Eits|it it' rest _ _ _ Hst' Eit Eits]; subst its; [done|]. injection E as _ E. by destruct Hst'. }
  assert (Ht : Lexer.deref (Parser.current p) = t) by (inversion Hst; subst its; by injection E as ->).
  split; [rewrite <-Ht, (iter_type src) by apply Hok; done|].
  destruct (next_ok src Hsrc p Hok) as [Hn Hrem].
  assert (Hnext : Lexer.current_token_type (next p) = TokenType.END_OF_FILE).
  { apply (rem_end src); [done|]. apply (rem_end src) in Hend; [|apply Hok]. unfold prem in Hrem. lia. }
  destruct (advance_clean p Hok) as (p' & Ha & _ & Hs & Hr); [by rewrite (iter_type src), Hnext|done|].
  destruct (advance_runs src Hsrc p Hok) as (p1 & Ha1 & Hok1 & _). rewrite Ha in Ha1. injection Ha1 as <-. by exists p'.
Qed.

(** A new parser shows the tokens of the text. *)
Lemma new_parser_shows it its r : Lexer.cbegin src = Ret it -> Lexer.tokenize src = Ret its ->
  Forall (fun t => Token.token_type t <> TokenType.ERROR) (Lexer.deref <$> its) ->
  exists p, Parser.new_parser it r = Ret p /\ parser_ok src p /\ shows (Lexer.deref <$> its) p /\ silent p /\ reporter p = r.
Proof using Hsrc.
  intros Hit Hits Hne. destruct (tokenize_stream src) as (it' & its' & Hit' & Hits' & Hst & _).
  rewrite Hit in Hit'. injection Hit' as <-. rewrite Hits in Hits'. injection Hits' as <-.
  destruct (cbegin_runs src Hsrc) as (it1 & Hit1 & Hok1). rewrite Hit in Hit1. injection Hit1 as <-.
  destruct (new_parser_runs src Hsrc it r Hok1) as (p & Hp & Hok & Hc). exists p.
  assert (Hhead : Token.token_type (Lexer.deref it) <> TokenType.ERROR) by (destruct Hst; by inversion_clear Hne).
  split; [done|]. split; [done|]. split; [exists its; by rewrite Hc|].
  unfold Parser.new_parser in Hp. rewrite decide_False in Hp by done. cbn [mbind outcome_bind] in Hp.
  apply bind_Ret in Hp as (n & _ & [= <-]). done.
Qed.

End tokens.

(** ** Compiling *)

Section compiling.
Context {HP : Platform} {HL : PlatformLaws} (src : Datatypes.list ascii) (Hsrc : nul ∉ src).
Context (w0 : world) (c : compiler) (cs : Datatypes.list compiler) (r : ref) (fn : ObjectFunction).
Hypothesis (Hr : compiled c = Some r) (Hfn : Heap.function (objects (memory w0)) r = Ret fn).

Abbreviation install := (install w0 c cs r fn).
Abbreviation leads := (leads w0 c cs r fn).
Abbreviation C := (M world).

Lemma match_no t g : here_type (gen_parser g) <> t -> parse (Parser.match_token t) (install g) = Ret (false, install g).
Proof.
  intros Hne. rewrite <-(with_parser_id g) at 2. apply run_parse. unfold Parser.match_token, Parser.check.
  rewrite (M_bind_run _ _ _ _ _ (gets_run _ _)). by rewrite bool_decide_eq_false_2.
Qed.

Lemma match_yes t g p : here_type (gen_parser g) = t -> Parser.advance (gen_parser g) = Ret (tt, p) ->
  parse (Parser.match_token t) (install g) = Ret (true, install (with_parser g p)).
Proof.
  intros Ht Ha. apply run_parse. unfold Parser.match_token, Parser.check.
  rewrite (M_bind_run _ _ _ _ _ (gets_run _ _)). rewrite bool_decide_eq_true_2 by done. by rewrite (M_bind_run _ _ _ _ _ Ha).
Qed.

(** Tests for tokens that are not there are skipped. *)
Lemma leads_no {B} t (f : bool -> C B) g Q : here_type (gen_parser g) <> t ->
  leads (f false (install g)) Q -> leads ((parse (Parser.match_token t) ≫= f) (install g)) Q.
Proof. intros Hne. by apply leads_run, match_no. Qed.

Lemma parses_clean p ts e : parses p ts e -> Forall (fun t => Token.token_type t <> TokenType.ERROR) ts.
Proof.
  induction 1 as [p tok l Hl|p o ts e cl Ho _ IH Hc|p o op ts e Ho _ IH|p q o op ts1 e1 ts2 e2 Ho _ _ IH1 _ IH2
    |p q o op ts1 e1 ts2 e2 Ho _ _ IH1 _ IH2].
  - apply Forall_singleton. destruct Hl as [n E|d E|E|E|E]; by rewrite E.
  - apply Forall_cons. split; [by rewrite Ho|]. apply Forall_app. split; [done|]. apply Forall_singleton. by rewrite Hc.
  - apply Forall_cons. split; [|done]. intros E. rewrite E in Ho. inversion Ho.
  - apply Forall_app. split; [done|]. apply Forall_cons. split; [|done]. intros E. rewrite E in Ho. inversion Ho.
  - apply Forall_app. split; [done|]. apply Forall_cons. split; [|done]. intros E. rewrite E in Ho. inversion Ho.
Qed.

Lemma program_clean ts es : program ts es -> Forall (fun t => Token.token_type t <> TokenType.ERROR) ts.
Proof.
  induction 1 as [|pr ts e semi rest es Hpr Hp Hs _ IH]; [done|]. apply Forall_cons. split; [by rewrite Hpr|].
  apply Forall_app. split; [by eapply parses_clean|]. apply Forall_cons. by rewrite Hs.
Qed.

Lemma program_not_eof ts es : program ts es -> Forall (fun t => Token.token_type t <> TokenType.END_OF_FILE) ts.
Proof.
  induction 1 as [|pr ts e semi rest es Hpr Hp Hs _ IH]; [done|]. apply Forall_cons. split; [by rewrite Hpr|].
  apply Forall_app. split; [by eapply tokens_not_eof|]. apply Forall_cons. by rewrite Hs.
Qed.

(** One statement: its code, and the parser at the next one. *)
Lemma echo_leads pr ts e semi t rest d g s : Token.token_type pr = TokenType.PRINT ->
  parses (level Precedence.ASSIGNMENT) ts e -> Token.token_type semi = TokenType.SEMICOLON -> (length ts <= d)%nat ->
  parser_ok src (gen_parser g) -> shows (pr :: ts ++ semi :: t :: rest) (gen_parser g) -> silent (gen_parser g) ->
  tracks g s -> Chunk.size (gen_chunk g) + Z.of_nat (length (expr_code e s).1) <= 0xFFFF ->
  exists p', shows (t :: rest) p' /\ silent p' /\ parser_ok src p' /\ reporter p' = reporter (gen_parser g) /\
    leads (run_declaration (functions (S (S d))) (install g)) (fun _ g' =>
      emits ((expr_code e s).1 ++ [OpCode.to_int OpCode.PRINT]) (expr_code e s).2 p' g g').
Proof using HL Hr Hfn Hsrc.
  intros Hpr Hparse Hsemi Hd Hok Hsh Hsil Ht Hz. pose proof (parses_nonempty _ _ _ Hparse) as Hne.
  pose proof (shows_head _ _ _ Hsh) as Hh.
  assert (Hnext : exists t1 ts1, ts ++ semi :: t :: rest = t1 :: ts1) by (destruct ts; by do 2 eexists).
  destruct Hnext as (t1 & ts1 & E). rewrite E in Hsh.
  destruct (shows_advance src Hsrc pr t1 ts1 _ Hok Hsh Hsil) as (p1 & Ha1 & Hsh1 & Hs1 & Hok1 & Hr1). rewrite <-E in Hsh1.
  destruct (shows_consumes src Hsrc ts p1 semi (t :: rest) Hok1 Hsh1 Hs1) as (p2 & Hc2 & Hsh2 & Hs2 & Hok2 & Hr2).
  pose proof (shows_head _ _ _ Hsh2) as Hh2.
  destruct (shows_advance src Hsrc semi t rest p2 Hok2 Hsh2 Hs2) as (p3 & Ha3 & Hsh3 & Hs3 & Hok3 & Hr3).
  exists p3. split_and!; try done; [congruence|].
  assert (Hhere : here_type (gen_parser g) = TokenType.PRINT) by (unfold here_type; by rewrite Hh).
  assert (Hhere2 : here_type p2 = TokenType.SEMICOLON) by (unfold here_type; by rewrite Hh2).
  cbn [functions run_declaration run_statement]. unfold Compiler.declaration_body.
  apply leads_bind. do 4 (apply leads_no; [by rewrite Hhere|]). unfold Compiler.statement_body.
  eapply leads_run; [by apply match_yes|]. unfold Compiler.print_statement. apply leads_bind. eapply leads_mono.
  { apply (climbs_whole w0 c cs r fn src (level Precedence.ASSIGNMENT) ts e d (with_parser g p1) p2 s
      (parses_climbs w0 c cs r fn Hr Hfn src Hsrc _ _ _ Hparse)); try done; [by rewrite Hhere2|by rewrite Hhere2|by apply tracks_parser]. }
  intros [] g1 He1. pose proof (emits_parser _ _ _ _ _ He1) as Ep1.
  eapply leads_run; [by apply consume_run; rewrite Ep1|]. eapply leads_mono.
  { apply (emit_leads w0 c cs r fn Hr Hfn _ _ (expr_code e s).2). apply tracks_parser, He1. }
  intros [] g2 He2. pose proof (emits_parser _ _ _ _ _ He2) as Ep2. cbn in Ep2. unfold Parser.is_panic. apply leads_gets. rewrite Ep2.
  destruct Hs3 as [_ Hp3]. rewrite Hp3. eapply leads_Ret; [reflexivity|].
  eapply emits_from. eapply emits_trans; [exact He1|]. by eapply emits_from.
Qed.

Lemma program_length ts es : program ts es -> (length es <= length ts)%nat.
Proof. induction 1 as [|pr ts e semi rest es _ _ _ _ IH]; cbn; rewrite ?length_app; cbn; lia. Qed.

(** The loop of [compile]. *)
Lemma program_leads ts es : program ts es -> forall d fuel eof g s, (length es <= fuel)%nat -> (length ts <= d)%nat ->
  parser_ok src (gen_parser g) -> shows (ts ++ [eof]) (gen_parser g) -> silent (gen_parser g) -> tracks g s ->
  Chunk.size (gen_chunk g) + Z.of_nat (length (program_code es s).1) <= 0xFFFF ->
  leads (while_M fuel (b ← parse (Parser.match_token TokenType.END_OF_FILE); mret (negb b))
    (run_declaration (functions (S (S d)))) (install g)) (fun _ g' =>
      silent (gen_parser g') /\ reporter (gen_parser g') = reporter (gen_parser g) /\
      emits (program_code es s).1 (program_code es s).2 (gen_parser g') g g').
Proof using HL Hr Hfn Hsrc.
  induction 1 as [|pr ts e semi rest es Hpr Hparse Hsemi Hprog IH]; intros d fuel eof g s Hf Hd Hok Hsh Hsil Ht Hz.
  - destruct (end_advance src Hsrc eof _ Hok Hsh Hsil) as (Heof & p' & Ha & Hs' & Hok' & Hr').
    pose proof (shows_head _ _ _ Hsh) as Hh. assert (He : here_type (gen_parser g) = TokenType.END_OF_FILE) by (unfold here_type; by rewrite Hh).
    assert (Hc : (b ← parse (Parser.match_token TokenType.END_OF_FILE); mret (negb b)) (install g) = Ret (false, install (with_parser g p')))
      by by rewrite (M_bind_run _ _ _ _ _ (match_yes _ _ _ He Ha)).
    eapply leads_Ret; [by destruct fuel; cbn [while_M]; rewrite (M_bind_run _ _ _ _ _ Hc)|].
    cbn [program_code fst snd]. split; [done|]. split; [done|]. eapply emits_to. by apply emits_refl.
  - cbn [program_code length] in *. pose proof (expr_code_nonempty e s) as Hcd.
    assert (Hlen : (length (pr :: ts ++ semi :: rest) <= d)%nat) by done. cbn [length] in Hlen. rewrite length_app in Hlen. cbn [length] in Hlen.
    destruct fuel as [|fuel]; [lia|].
    assert (Hsplit : exists t1 ts1, rest ++ [eof] = t1 :: ts1) by (destruct rest; by do 2 eexists). destruct Hsplit as (t1 & ts1 & E).
    rewrite <-app_comm_cons, <-app_assoc in Hsh. cbn [app] in Hsh. rewrite E in Hsh. pose proof (shows_head _ _ _ Hsh) as Hh.
    assert (He : here_type (gen_parser g) <> TokenType.END_OF_FILE) by (unfold here_type; by rewrite Hh, Hpr).
    destruct (expr_code e s) as [cd1 s1] eqn:E1. destruct (program_code es s1) as [cd2 s2] eqn:E2. cbn [fst snd] in *.
    rewrite length_app in Hz. cbn [length] in Hz.
    destruct (echo_leads pr ts e semi t1 ts1 d g s) as (p1 & Hsh1 & Hs1 & Hok1 & Hr1 & Hlead); try done; [lia|rewrite E1; cbn; lia|].
    rewrite E1 in Hlead. cbn [fst snd] in Hlead. rewrite <-E in Hsh1.
    assert (Hc : (b ← parse (Parser.match_token TokenType.END_OF_FILE); mret (negb b)) (install g) = Ret (true, install g))
      by by rewrite (M_bind_run _ _ _ _ _ (match_no _ _ He)).
    cbn [while_M]. eapply leads_run; [exact Hc|]. cbv iota. eapply leads_bind, leads_mono; [exact Hlead|]. intros [] g1 He1.
    pose proof (emits_parser _ _ _ _ _ He1) as Ep1. pose proof (emits_size _ _ _ _ _ He1) as Es1. rewrite length_app in Es1. cbn [length] in Es1.
    specialize (IH d fuel eof g1 s1). rewrite E2, Ep1 in IH. cbn [fst snd] in IH.
    eapply leads_mono; [apply IH; [lia|lia|exact Hok1|exact Hsh1|exact Hs1|apply He1|lia]|]. intros [] g2 (Hs2 & Hr2 & He2).
    split; [done|]. split; [congruence|]. rewrite cons_middle, app_assoc. by eapply emits_trans.
Qed.


(** The end of a script. *)
Lemma script_returns g s : tracks g s -> function_type c = SCRIPT ->
  leads (Compiler.emit_return (install g)) (fun _ g' => emits [OpCode.to_int OpCode.NIL; OpCode.to_int OpCode.RETURN] s (gen_parser g) g g').
Proof using HL Hr Hfn.
  intros Ht Hft. unfold Compiler.emit_return. eapply leads_run; [apply run_this|]. cbn [Compiler.with_numbers function_type].
  rewrite decide_False by by rewrite Hft. apply leads_bind.
  eapply leads_mono; [by apply (emit_leads w0 c cs r fn Hr Hfn _ _ s)|]. intros [] g1 He1. eapply leads_mono.
  { apply (emit_leads w0 c cs r fn Hr Hfn _ _ s). apply He1. }
  intros [] g2 He2. exact (emits_stay _ _ _ _ _ _ _ _ He1 He2).
Qed.

(** [compile] turns the text of a program into its code. *)
Lemma compile_leads ts es eof g s : program ts es -> function_type c = SCRIPT -> parser_ok src (gen_parser g) ->
  shows (ts ++ [eof]) (gen_parser g) -> silent (gen_parser g) -> tracks g s ->
  Chunk.size (gen_chunk g) + Z.of_nat (length (program_code es s).1) <= 0xFFFF ->
  leads (Compiler.compile (install g)) (fun res g' => res = (Some r, Compiler.OK) /\
    reporter (gen_parser g') = reporter (gen_parser g) /\
    emits ((program_code es s).1 ++ [OpCode.to_int OpCode.NIL; OpCode.to_int OpCode.RETURN]) (program_code es s).2 (gen_parser g') g g').
Proof using HL Hr Hfn Hsrc.
  intros Hprog Hft Hok Hsh Hsil Ht Hz.
  destruct (shows_consumes src Hsrc ts _ eof [] Hok Hsh Hsil) as (p' & Hc & _ & _ & Hok' & _).
  destruct (consumes_ok src Hsrc ts _ _ Hok Hc (program_not_eof _ _ Hprog)) as [_ Hlen].
  assert (Hsize : (prem (gen_parser g) < length src + 2)%nat) by (apply (prem_budget src); done).
  unfold Compiler.compile, Compiler.compile_fuel. cbn [install parser]. rewrite (iter_source src) by apply Hok.
  replace (3 * length src + 6)%nat with (S (S (3 * length src + 4))) by lia.
  eapply leads_run; [reflexivity|]. cbn [install parser]. rewrite (iter_source src) by apply Hok.
  pose proof (program_length _ _ Hprog). apply leads_bind. eapply leads_mono.
  { apply (program_leads ts es Hprog (3 * length src + 4) (length src + 2) eof g s); try done; lia. }
  intros [] g1 (Hs1 & Hr1 & He1). apply leads_bind. eapply leads_mono; [apply (script_returns g1 _ (emits_tracks _ _ _ _ _ He1) Hft)|].
  intros [] g2 He2. pose proof (emits_parser _ _ _ _ _ He2) as Ep2. apply leads_gets. rewrite Ep2. destruct Hs1 as [-> _].
  eapply leads_run; [apply run_this_function, Hr|]. eapply leads_Ret; [done|]. split; [done|]. rewrite Ep2. split; [done|].
  exact (emits_stay _ _ _ _ _ _ _ _ He1 He2).
Qed.

End compiling.

(** ** The whole compiler *)

Section whole.
Context {HP : Platform} {HL : PlatformLaws}.

Definition no_constants : pool := mkPool [] ∅.

(** The code of a script: its statements, then [return nil]. *)
Definition script_code (es : Datatypes.list expr) : Datatypes.list Z :=
  (program_code es no_constants).1 ++ [OpCode.to_int OpCode.NIL; OpCode.to_int OpCode.RETURN].
Definition script_constants (es : Datatypes.list expr) : Datatypes.list Value := pool_values (program_code es no_constants).2.

(** The function of a program that prints [es]. *)
Record script_function (h : heap) (r : ref) (fn : ObjectFunction) (es : Datatypes.list expr) : Prop := {
  script_object : Heap.function h r = Ret fn;
  script_named : exists nm, Heap.string h (name_ fn) = Ret nm;
  script_no_arguments : arity_ fn = 0;
  script_codes : code (chunk fn) = script_code es;
  script_values : value_array (chunk fn) = script_constants es
}.

Lemma program_compiles src m ctx p v ts es eof : nul ∉ src -> base_ok src (mkWorld m ctx p [] v) ->
  program ts es -> shows (ts ++ [eof]) p -> silent p -> Z.of_nat (length (script_code es)) <= 0xFFFF ->
  match Compiler.compile_program m ctx p v with
  | Ret (res, w) => exists r fn, res = (Some r, Compiler.OK) /\ compiled <$> compilers w = [Some r] /\
      script_function (objects (memory w)) r fn es /\ reporter (parser w) = reporter p /\ context w = ctx
  | Throw e => limit_error e
  | _ => False
  end.
Proof using HL.
  intros Hsrc Hb Hprog Hsh Hsil Hz. pose proof (base_parser _ _ Hb) as Hok. cbn [parser] in Hok. unfold Compiler.compile_program.
  destruct (new_compiler_outcome src SCRIPT "" [] _ Hb) as [E|(w1 & c & r & n & E & Hw1 & Hn1 & Hc & [[Hr Hf] Hnm Hnum Hft])];
    [done|unfold mbind, M_bind; rewrite E; by left|].
  rewrite (M_bind_run _ _ _ _ _ E). cbn [compilers] in Hc. set (fn := mkFunction 0 0 Chunk.empty n) in *.
  rewrite <-(install_id w1 c [] r fn Hc Hr Hf). rewrite Hnum. pose proof (nested_parser _ _ Hn1) as Ep. cbn [parser] in Ep. rewrite Ep.
  pose proof (compile_leads src Hsrc w1 c [] r fn Hr Hf ts es eof (mkGen p Chunk.empty HashMap.empty) no_constants Hprog Hft Hok Hsh Hsil)
    as Hlead.
  assert (Htr : tracks (mkGen p Chunk.empty HashMap.empty) no_constants).
  { constructor; [done|apply (empty_repr (fun k => k <> 0))|]. intros k i. cbn. by rewrite lookup_empty. }
  specialize (Hlead Htr). unfold script_code in *. rewrite length_app in Hz. cbn [length gen_chunk] in *. change (Chunk.size Chunk.empty) with 0 in Hlead.
  specialize (Hlead ltac:(lia)). unfold leads in Hlead. destruct (Compiler.compile _) as [[res w]| | |]; try done.
  destruct Hlead as (g & -> & -> & Hrep & [_ Hcode Hval]). exists r, (Compiler.with_chunk fn (gen_chunk g)). split_and!; [done|cbn; by rewrite Hr| |done|].
  - constructor; [by apply installed_function| |done|done|apply Hval].
    exists (mkString "" (Hash.hash_string "")). cbn. unfold Heap.write. apply string_Ret in Hnm as [b Hb']. apply string_Ret. exists b.
    rewrite lookup_alter_ne; [done|]. intros <-. apply function_Ret in Hf as [b' Hb'']. rewrite Hb'' in Hb'. done.
  - cbn. apply (nested_context _ _ Hn1).
Qed.

End whole.
