(* ===== verification/EchoRun.v ===== *)
(** * Programs that print expressions: from the code to the output *)

From S2P Require Import Prelude Double HashMap HashMapFacts Hash Platform Bytes Opcode Token Lexer Value Chunk Object Collections Memory Context Parser Compiler VM StackFacts VMProps DisassemblerProps ExprSpec ExprCompile ExprRun.
Import Compiler (InterpretResult, OK, RUNTIME_ERROR).
Import VM.

Lemma program_pool es : forall s, known s ->
  known (program_code es s).2 /\ pool_values s `prefix_of` pool_values (program_code es s).2.
Proof.
  induction es as [|e es IH]; intros s Hs; [done|]. cbn [program_code]. pose proof (expr_pool e s Hs) as [Hk Hp].
  destruct (expr_code e s) as [cd1 s1]. cbn [snd] in *. destruct (IH s1 Hk) as [Hk2 Hp2].
  destruct (program_code es s1) as [cd2 s2]. cbn [snd] in *. split; [done|by etrans].
Qed.

Section echo.
Context {HP : Platform} (call_native : NativeFunction -> nat -> nat -> M machine (Value * bool)).
Context (cur : nat) (fr : CallFrame) (fn : ObjectFunction).
Implicit Types (w : machine) (ss : list string).

(** The frame [cur] of [w] executes [fn]. *)
Record executes w : Prop := {
  executes_frame : frames (state w) !! cur = Some (Some fr);
  executes_function : closure_function (frame_closure fr) w = Ret (fn, w);
  executes_traceable : traceable w
}.

(** [w] after printing the texts [ss]. *)
Definition writes w ss : machine := set_output w (rev ss ++ output w).

Lemma executes_writes w ss : executes w -> executes (writes w ss).
Proof.
  intros [Hf Hc Ht]. constructor; [done|exact (closure_function_mem _ w (writes w ss) _ eq_refl Hc)|]. intros k Hk.
  destruct (Ht k Hk) as (f & g & nm & Hkf & Hg & Hn). exists f, g, nm. split; [done|]. split; [|done].
  exact (closure_function_mem _ w (writes w ss) _ eq_refl Hg).
Qed.

Lemma writes_app w ss1 ss2 : writes (writes w ss1) ss2 = writes w (ss1 ++ ss2).
Proof. unfold writes. cbn. by rewrite rev_app_distr, <-app_assoc. Qed.

Lemma simple_text h depth v : simple v -> value_to_string (S depth) h v = Ret (text_of v).
Proof. intros [_ Ho]. unfold text_of. cbn. unfold Value.is_object in Ho. by destruct (data v). Qed.

Lemma print_runs w i st top cd v fuel : executes w -> code_at fn i (byte_of OpCode.PRINT :: cd) -> st !! top = Some v -> simple v ->
  execute call_native (S fuel) (at_ w cur fr i st (S top)) =
  execute call_native fuel (at_ (writes w [text_of v; String "010"%char ""]) cur fr (i + 1) st top).
Proof.
  intros [Hf Hc _] Hcode Hv Hs. rewrite (execute_step _ _ _ _ _ Hf Hc _ _ _ _ _ _ Hcode). cbn [dispatch].
  assert (E : exec_PRINT (at_ w cur fr (i + 1) st (S top)) =
    Ret (None, at_ (writes w [text_of v; String "010"%char ""]) cur fr (i + 1) st top)); [|by rewrite (M_bind_run _ _ _ _ _ E)].
  unfold exec_PRINT. rewrite (M_bind_run _ _ _ _ _ (at_pop _ _ _ _ _ _ _ Hv)).
  unfold read_heap, heap_of, gets, lift, modify, continue. unfold mbind, M_bind. by rewrite simple_text.
Qed.


(** From the state with the pointer [i], the stack [st] and its top, [w] prints [ss], and then comes to [j]
    with the stack below [top] as it was; or it reports a runtime error; or there is an overflow. *)
Definition prints w (o : outcome unit) ss (i : Z) (st : list Value) (top : nat) (j : Z) : Prop :=
  match o with
  | Ret _ => exists n st', (forall fuel, execute call_native (n + fuel) (at_ w cur fr i st top) =
                              execute call_native fuel (at_ (writes w ss) cur fr j st' top)) /\ keeps top st st'
  | Throw _ => exists n w', (forall fuel, execute call_native (n + fuel) (at_ w cur fr i st top) = Ret (RUNTIME_ERROR, w')) /\
                 failed (writes w ss) w'
  | Undef why => exists n, forall fuel, execute call_native (n + fuel) (at_ w cur fr i st top) = Undef why
  | OutOfFuel => False
  end.

(** What comes after something that was printed. *)
Lemma prints_after w o ss1 ss2 i st top j st1 k n : (forall fuel, execute call_native (n + fuel) (at_ w cur fr i st top) =
    execute call_native fuel (at_ (writes w ss1) cur fr j st1 top)) -> keeps top st st1 ->
  prints (writes w ss1) o ss2 j st1 top k -> prints w o (ss1 ++ ss2) i st top k.
Proof.
  intros Hn Hk. assert (Hs : forall m fuel, execute call_native (n + m + fuel) (at_ w cur fr i st top) =
    execute call_native (m + fuel) (at_ (writes w ss1) cur fr j st1 top)) by (intros m fuel; by rewrite <-Nat.add_assoc).
  destruct o as [[]|e|why|]; cbn [prints]; rewrite ?writes_app.
  - intros (m & st2 & Hm & Hk2). exists (n + m)%nat, st2. split; [intros fuel; by rewrite Hs|by eapply keeps_stack_trans].
  - intros (m & w' & Hm & Hw'). exists (n + m)%nat, w'. split; [intros fuel; by rewrite Hs|done].
  - intros (m & Hm). exists (n + m)%nat. intros fuel. by rewrite Hs.
  - done.
Qed.

Lemma program_prints es : forall w s i st top, executes w -> forallb plain es = true -> known s ->
  (length (pool_values (program_code es s).2) <= 47)%nat -> pool_values (program_code es s).2 `prefix_of` value_array (chunk fn) ->
  code_at fn i (program_code es s).1 -> Z.of_nat (length (program_code es s).1) <= 0xFFFF ->
  Forall (fun e => top + slots e <= length st)%nat es ->
  prints w (printed es).2 (printed es).1 i st top (i + Z.of_nat (length (program_code es s).1)).
Proof.
  induction es as [|e es IH]; intros w s i st top Hw Hp Hs Hl Hv Hc Hz Hroom.
  - exists O, st. cbn. rewrite Z.add_0_r. split; [|done]. intros fuel. by destruct w.
  - cbn [forallb] in Hp. apply andb_true_iff in Hp as [Hpe Hp]. inversion_clear Hroom as [|? ? Hroom1 Hroom2].
    cbn [program_code] in *. pose proof (expr_pool e s Hs) as [Hk1 _]. pose proof (program_pool es (expr_code e s).2 Hk1) as [_ Hpre].
    pose proof Hw as [Hf Hfn Htr].
    pose proof (expr_yields call_native w cur fr fn Hf Hfn Htr e s i st top Hpe Hs) as Hy.
    destruct (expr_code e s) as [cd1 s1]. cbn [fst snd] in *. destruct (program_code es s1) as [cd2 s2] eqn:E2. cbn [fst snd] in *.
    rewrite length_app in Hz |- *. cbn [length] in Hz |- *. pose proof (prefix_length _ _ Hpre).
    apply code_at_app in Hc as [Hc1 Hc2]. pose proof (code_at_byte _ _ _ _ Hc2) as (_ & _ & Hc3).
    specialize (Hy ltac:(lia) ltac:(by etrans) Hc1 ltac:(lia) ltac:(lia)). cbn [printed].
    destruct (meaning e) as [v|err|why|] eqn:Ev; cbn [yields] in Hy; [|done..].
    destruct Hy as (n & st1 & Hn & Hk & Hlv). destruct (printed es) as [out o]. cbn [fst snd] in IH |- *.
    change (text_of v :: ?x :: out) with ([text_of v; x] ++ out). eapply (prints_after _ _ _ _ _ _ _ _ _ _ (n + 1)); [|exact Hk|].
    { intros fuel. rewrite <-Nat.add_assoc, Hn. by apply (print_runs w _ _ _ _ _ _ Hw Hc2 Hlv), (meaning_simple e). }
    replace (i + Z.of_nat (length cd1 + S (length cd2))) with (i + Z.of_nat (length cd1) + 1 + Z.of_nat (length cd2)) by lia.
    specialize (IH (writes w [text_of v; String "010"%char ""]) s1). rewrite E2 in IH. cbn [fst snd] in IH. apply IH; try done; [by apply executes_writes|lia|].
    destruct Hk as [-> _]. done.
Qed.

(** [return nil] in the only frame, at the bottom of the stack: the machine stops, with an empty stack. *)
Lemma script_ends w i st : executes w -> code_at fn i [byte_of OpCode.NIL; byte_of OpCode.RETURN] -> (1 < length st)%nat ->
  frame_count (state w) = 1%nat -> open_upvalues (state w) = None ->
  exists st' fs, length st' = length st /\ length fs = length (frames (state w)) /\
    forall fuel, execute call_native (2 + fuel) (at_ w cur fr i st 1) =
      Ret (OK, set_state w (mkVM st' fs (Some cur) 0 0 None (constant_string_init (state w)))).
Proof.
  intros [Hf Hfn _] Hc Hst Hcount Hopen. pose proof (code_at_byte _ _ _ _ Hc) as (_ & _ & Hc2).
  set (st' := <[1%nat := Value.nil]> st). assert (Hl : st' !! 1%nat = Some Value.nil) by by apply list_lookup_insert_eq.
  destruct (lookup_lt_is_Some_2 st' 0) as [v0 Hv0]; [unfold st'; rewrite length_insert; lia|].
  exists st', (<[cur := Some (moved fr (i + 1 + 1))]> (frames (state w))).
  split; [apply length_insert|]. split; [apply length_insert|]. intros fuel. cbn [Nat.add].
  rewrite (execute_step _ _ _ _ _ Hf Hfn _ _ _ _ _ _ Hc). cbn [dispatch].
  rewrite (M_bind_run _ _ _ _ _ (M_bind_run _ _ _ _ _ (at_push _ _ _ _ _ _ _ Hst))). cbv iota. fold st'.
  rewrite (execute_step _ _ _ _ _ Hf Hfn _ _ _ _ _ _ Hc2). cbn [dispatch].
  assert (E : exec_RETURN (at_ w cur fr (i + 1 + 1) st' 2) =
    Ret (Some OK, set_state w (mkVM st' (<[cur := Some (moved fr (i + 1 + 1))]> (frames (state w))) (Some cur) 0 0 None (constant_string_init (state w)))));
    [|by rewrite (M_bind_run _ _ _ _ _ E)].
  unfold exec_RETURN. rewrite (M_bind_run _ _ _ _ _ (at_pop _ _ _ _ _ _ _ Hl)), (M_bind_run _ _ _ _ _ (at_frame _ _ _ Hf _ _ _)).
  assert (Ec : forall k, close_from k (at_ w cur fr (i + 1 + 1) st' 1) = Ret (tt, at_ w cur fr (i + 1 + 1) st' 1)).
  { intros k. unfold close_from, heap_of. rewrite (M_bind_run _ _ _ _ _ (gets_run _ _)). destruct (size _) as [|n];
      cbn [close_upvalues]; unfold vm_state; rewrite (M_bind_run _ _ _ _ _ (gets_run _ _)); cbn; by rewrite Hopen. }
  rewrite (M_bind_run _ _ _ _ _ (Ec _)). unfold vm_state. rewrite (M_bind_run _ _ _ _ _ (gets_run _ _)). cbn [at_ state set_state frame_count].
  rewrite Hcount. cbn [Nat.pred Nat.eqb]. unfold put_state, pop, vm_state, gets, modify, load_slot, lift, mbind, M_bind. cbn. rewrite Hv0. cbn. by rewrite Hopen.
Qed.

End echo.
