(* ===== verification/EchoProps.v ===== *)
(** * Programs that print expressions: from the text to the output *)

From S2P Require Import Prelude Double HashMap HashMapFacts Hash Platform HashMapProps Bytes Opcode Token Lexer LexerFacts LexerProps Value Chunk Object Collections Memory CollectFacts SweepFacts AllocatorFacts GcProps WriteFacts Context ContextFacts Parser ParserFacts Compiler CompilerFacts CompilerSteps CompilerStart CompilerProps VM StackFacts VMProps Natives MachineShapes Lox DisassemblerProps Resting ExprSpec ExprCompile ExprRun ExprProps EchoCompile EchoRun.
Import Compiler (InterpretResult, OK, RUNTIME_ERROR).
Import VM.

Section running.
Context {HP : Platform} {HL : PlatformLaws} (call_native : NativeFunction -> nat -> nat -> M machine (Value * bool)).

(** The state in which [run] starts the first frame. *)
Definition started (s : VM) (f closure : ref) : VM :=
  mkVM (<[0%nat := Value.of_object closure]> (<[0%nat := Value.of_object f]> (evalstack s)))
    (<[0%nat := Some (mkFrame closure 0 0)]> (frames s)) (Some 0%nat) 1 1 None (constant_string_init s).

Lemma vm_roots_one c s f : emptied s -> forall m e out input outer,
  vm_roots (mkMachine m c e (set_stack s (<[0%nat := Value.of_object f]> (evalstack s)) 1) out input outer) = Ret (Some f :: rest_roots c s).
Proof.
  intros [[Ht Hl] [Hc _] Hu] m e out input outer. unfold vm_roots. cbn. rewrite Hu, Hc.
  destruct (size _); cbn; (destruct (evalstack s) as [|v st]; [cbn in Hl; lia|done]).
Qed.

(** [run] makes a closure for the function and calls it. *)
Lemma run_starts m c e s out input f fn : emptied s -> sound (Some f :: rest_roots c s) m c ->
  Heap.function (objects m) f = Ret fn -> arity_ fn = 0 -> (exists nm, Heap.string (objects m) (name_ fn) = Ret nm) ->
  exists m' r, (forall fuel, run call_native fuel f (mkMachine m c e s out input [Some f]) =
      execute call_native fuel (mkMachine m' c e (started s f r) out input [Some f])) /\
    sound (Some f :: rest_roots c s) m' c /\ executes 0 (mkFrame r 0 0) fn (mkMachine m' c e (started s f r) out input [Some f]).
Proof using HL.
  intros Hs Hsound Hfn Har [nm Hnm]. pose proof Hs as [[Ht Hl] [Hc Hfl] Hu].
  assert (Hsound2 : sound (Some f :: Some f :: rest_roots c s) m c).
  { eapply sound_subset; [exact Hsound|]. intros o. rewrite !elem_of_cons. tauto. }
  destruct (closure_allocates _ _ _ f fn Hsound2 ltac:(apply list_elem_of_here) Hfn) as (r & m' & Hrun & Hs' & Hf' & (u & n & Hcl) & Hnm').
  { intros o Ho. unfold rest_roots. rewrite !elem_of_cons, elem_of_app. tauto. }
  assert (Hclosure : forall w, mem w = m' -> closure_function r w = Ret (fn, w)).
  { intros w Hw. unfold closure_function, read_heap, heap_of, gets, lift, mbind, M_bind. rewrite Hw, Hcl. cbn. by rewrite Hw, Hf'. }
  exists m', r. split.
  - intros fuel. unfold run.
    assert (E1 : push (Value.of_object f) (mkMachine m c e s out input [Some f]) =
      Ret (tt, mkMachine m c e (set_stack s (<[0%nat := Value.of_object f]> (evalstack s)) 1) out input [Some f])).
    { unfold push, vm_state, gets, put_state, modify, mbind, M_bind. cbn. rewrite Ht. by destruct (evalstack s); [cbn in Hl; lia|]. }
    rewrite (M_bind_run _ _ _ _ _ E1).
    assert (E2 : allocate (fun roots => Allocator.new_closure roots f)
        (mkMachine m c e (set_stack s (<[0%nat := Value.of_object f]> (evalstack s)) 1) out input [Some f]) =
      Ret (r, mkMachine m' c e (set_stack s (<[0%nat := Value.of_object f]> (evalstack s)) 1) out input [Some f])).
    { unfold allocate. rewrite vm_roots_one by done. cbn [mbind outcome_bind]. unfold zoom. cbn [outer_roots mem app]. by rewrite Hrun. }
    rewrite (M_bind_run _ _ _ _ _ E2).
    set (s1 := set_stack s (<[0%nat := Value.of_object f]> (evalstack s)) 0).
    assert (E3 : pop (mkMachine m' c e (set_stack s (<[0%nat := Value.of_object f]> (evalstack s)) 1) out input [Some f]) =
      Ret (Value.of_object f, mkMachine m' c e s1 out input [Some f])).
    { unfold pop, load_slot, vm_state, gets, put_state, modify, lift, mbind, M_bind. cbn. by destruct (evalstack s); [cbn in Hl; lia|]. }
    rewrite (M_bind_run _ _ _ _ _ E3).
    set (s2 := set_stack s1 (<[0%nat := Value.of_object r]> (evalstack s1)) 1).
    assert (E4 : push (Value.of_object r) (mkMachine m' c e s1 out input [Some f]) = Ret (tt, mkMachine m' c e s2 out input [Some f])).
    { unfold push, vm_state, gets, put_state, modify, mbind, M_bind. cbn. by destruct (evalstack s); [cbn in Hl; lia|]. }
    rewrite (M_bind_run _ _ _ _ _ E4).
    assert (E5 : call r 0 (mkMachine m' c e s2 out input [Some f]) =
      Ret (true, mkMachine m' c e (set_frames s2 (<[0%nat := Some (mkFrame r 0 0)]> (frames s2)) (current_frame s2) 1) out input [Some f])).
    { unfold call. rewrite (M_bind_run _ _ _ _ _ (Hclosure (mkMachine m' c e s2 out input [Some f]) eq_refl)), Har. change (negb (Z.of_nat 0 =? u64 0)) with false. cbv iota.
      unfold vm_state. rewrite (M_bind_run _ _ _ _ _ (gets_run _ _)). cbn [state s2 s1 set_stack frame_count frames]. rewrite Hc.
      change (Z.of_nat 0 =? MAX_FRAME_SIZE) with false. cbv iota. rewrite decide_True by done. reflexivity. }
    rewrite (M_bind_run _ _ _ _ _ E5). unfold vm_state. rewrite (M_bind_run _ _ _ _ _ (gets_run _ _)).
    unfold put_state, modify, started, mbind, M_bind, s2, s1. unfold set_state, set_frames, set_stack. cbn. by rewrite Hu.
  - split; [eapply sound_subset; [exact Hs'|]; intros o; rewrite !elem_of_cons; tauto|].
    constructor; [by apply list_lookup_insert_eq|by apply Hclosure|].
    intros [|k] Hk; [|cbn in Hk; lia]. exists (mkFrame r 0 0), fn, nm. split; [by apply list_lookup_insert_eq|]. split; [by apply Hclosure|by apply Hnm'].
Qed.

(** The function of a program prints what the program says. *)
Lemma script_runs m c e s out input f fn es : emptied s -> sound (Some f :: rest_roots c s) m c ->
  script_function (objects m) f fn es -> forallb plain es = true -> (length (script_constants es) <= 47)%nat ->
  Z.of_nat (length (script_code es)) <= 0xFFFF -> Forall (fun e => 1 + slots e <= length (evalstack s))%nat es ->
  match (printed es).2 with
  | Ret _ => exists n m' s', emptied s' /\ constant_string_init s' = constant_string_init s /\ sound (Some f :: rest_roots c s) m' c /\
      forall fuel, run call_native (n + fuel) f (mkMachine m c e s out input [Some f]) =
        Ret (OK, mkMachine m' c e s' (rev (printed es).1 ++ out) input [Some f])
  | Throw _ => exists n w', output w' = rev (printed es).1 ++ out /\ has_error_ (errors w') = true /\
      forall fuel, run call_native (n + fuel) f (mkMachine m c e s out input [Some f]) = Ret (RUNTIME_ERROR, w')
  | Undef why => exists n, forall fuel, run call_native (n + fuel) f (mkMachine m c e s out input [Some f]) = Undef why
  | OutOfFuel => False
  end.
Proof using HL.
  intros Hs Hsound [Hfn Hnm Har Hcode Hval] Hp Hl Hz Hroom.
  destruct (run_starts m c e s out input f fn Hs Hsound Hfn Har Hnm) as (m' & r & Hrun & Hsound' & Hw).
  set (w := mkMachine m' c e (started s f r) out input [Some f]) in *.
  assert (Hlen : length (evalstack (state w)) = length (evalstack s)) by (cbn; by rewrite !length_insert).
  assert (Hcd : code_at fn 0 (script_code es)) by (exists [], []; by rewrite Hcode, app_nil_r). unfold script_code in Hcd, Hz.
  apply code_at_app in Hcd as [Hc1 Hc2]. rewrite Z.add_0_l in Hc2. rewrite length_app in Hz. cbn [length] in Hz.
  pose proof (program_prints call_native 0 (mkFrame r 0 0) fn es w no_constants 0 (evalstack (state w)) 1 Hw Hp) as Hpr.
  assert (Hroom' : Forall (fun e => 1 + slots e <= length (evalstack (state w)))%nat es) by by rewrite Hlen.
  specialize (Hpr ltac:(intros k i; cbn; by rewrite lookup_empty) Hl ltac:(by rewrite Hval) Hc1 ltac:(lia) Hroom').
  rewrite Z.add_0_l in Hpr. pose proof (at_id w 0 (mkFrame r 0 0) eq_refl (executes_frame _ _ _ _ Hw)) as Eid. cbn [ip] in Eid.
  change (stack_top (state w)) with 1%nat in Eid.
  destruct (printed es).2 as [[]|err|why|]; cbn [prints] in Hpr; rewrite ?Eid in Hpr.
  - destruct Hpr as (n & st & Hn & [Hst _]). pose proof Hs as [[_ Hsl] [_ Hfl] _].
    destruct (script_ends call_native 0 (mkFrame r 0 0) fn (writes w (printed es).1) (Z.of_nat (length (program_code es no_constants).1)) st)
      as (st' & fs & Hst' & Hfs & Hend); [by apply executes_writes|done|lia|done|done|].
    eexists (n + 2)%nat, m', _. split; [|split; [|split; [exact Hsound'|]]].
    3: { intros fuel. rewrite Hrun, <-Nat.add_assoc, Hn, Hend. reflexivity. }
    + constructor; [split; [done|cbn; lia]|split; [done|]|done]. cbn. rewrite Hfs. cbn. rewrite length_insert. done.
    + done.
  - destruct Hpr as (n & w' & Hn & Ho & He). exists n, w'. split; [exact Ho|]. split; [done|]. intros fuel. by rewrite Hrun, Hn.
  - destruct Hpr as (n & Hn). exists n. intros fuel. by rewrite Hrun, Hn.
  - done.
Qed.

End running.

(** ** The theorem *)

Section programs.
Context `{HL : PlatformLaws, HE : Environment}.

Lemma resting_base src w p : resting w -> parser_ok src p ->
  base_ok src (mkWorld (mem w) (globals_ w) p [] (Some (mkVmRoots [] [Some (constant_string_init (state w))]))).
Proof.
  intros [[Hm Hl Hs Hg] _ _] Hp. constructor; cbn; try done. intros c Hc. eapply closed_heap_subset; [|exact Hs]. intros o.
  unfold root_refs, Compiler.all_roots, Compiler.compiler_roots, Compiler.machine_roots, rest_roots. cbn. rewrite Hc, !elem_of_app, !elem_of_cons, !elem_of_app, !elem_of_cons. tauto.
Qed.

(** What a machine that ran a program of [es] promises. *)
Definition ran (es : list expr) (w : machine) (o : outcome (InterpretResult * machine)) : Prop :=
  match (printed es).2 with
  | Ret _ => exists w', o = Ret (OK, w') /\ resting w' /\ output w' = rev (printed es).1 ++ output w /\
      errors w' = errors w /\ globals_ w' = globals_ w /\ stdin w' = stdin w
  | Throw _ => exists w', o = Ret (RUNTIME_ERROR, w') /\ output w' = rev (printed es).1 ++ output w /\ has_error_ (errors w') = true
  | Undef why => o = Undef why
  | OutOfFuel => False
  end.

(** What the driver does with the compiled function. *)
Lemma compile_and_execute_runs src w it p : Lexer.cbegin src = Ret it -> Parser.new_parser it (errors w) = Ret p -> resting w ->
  forall fuel, Lox.compile_and_execute false fuel src w =
    '((obj, result), cw) ← Compiler.compile_program (mem w) (globals_ w) p (Some (mkVmRoots [] [Some (constant_string_init (state w))]));
    let w := mkMachine (memory cw) (context cw) (reporter (parser cw)) (state w) (output w) (stdin w) (compiled <$> compilers cw) in
    match obj with
    | Some f =>
        '(r, w) ← VM.run Natives.call_native fuel f w;
        Ret (r, mkMachine (mem w) (globals_ w) (errors w) (state w) (output w) (stdin w) [])
    | None => Ret (result, mkMachine (mem w) (globals_ w) (errors w) (state w) (output w) (stdin w) [])
    end.
Proof using HL.
  intros Hit Hp Hw fuel. unfold Lox.compile_and_execute. rewrite Hit. cbn [mbind outcome_bind]. rewrite Hp. cbn [mbind outcome_bind].
  rewrite (resting_roots w Hw). cbn [mbind outcome_bind]. unfold rest_roots. rewrite length_app. cbn [length].
  by replace (length (Context.global_roots (globals_ w)) + 1 - length (Context.global_roots (globals_ w)) - 1)%nat with 0%nat by lia.
Qed.

(** The compiled function is kept beside what the machine keeps. *)
Lemma compiled_sound src w cw f : world_ok src cw -> compiled <$> compilers cw = [Some f] ->
  vm cw = Some (mkVmRoots [] [Some (constant_string_init (state w))]) -> context cw = globals_ w ->
  sound (Some f :: rest_roots (globals_ w) (state w)) (memory cw) (globals_ w).
Proof.
  intros [Hm Hl Hs Hg _ Hne _] Hf Hv Hc. rewrite Hc in Hg. constructor; try done. eapply closed_heap_subset; [|exact Hs]. intros o.
  unfold root_refs, Compiler.all_roots, Compiler.compiler_roots, Compiler.machine_roots, rest_roots. rewrite Hv, Hc, Hf. cbn.
  destruct (compilers cw); [done|]. rewrite !elem_of_app, !elem_of_cons, !elem_of_app, !elem_of_cons. tauto.
Qed.


End programs.

(** *** Witness *)

Definition echo_text : list ascii := String.list_ascii_of_string "echo (1 + 2) * -3 < 10 and not nil; echo 1 + 2;".
Definition echo_tokens : list Token :=
  tok TokenType.PRINT "echo" :: expression_token_list ++ tok TokenType.SEMICOLON ";" ::
  tok TokenType.PRINT "echo" :: [tok TokenType.NUMBER_INT "1"; tok TokenType.PLUS "+"; tok TokenType.NUMBER_INT "2"] ++
  tok TokenType.SEMICOLON ";" :: [].
Definition echo_trees : list expr := [expression_tree; Binary Plus (Lit (LInt 1)) (Lit (LInt 2))].

Lemma echo_program : program echo_tokens echo_trees.
Proof.
  assert (Hint : forall p n lex, p <= level Precedence.PRIMARY -> parse_int lex = Some n -> parses p [tok TokenType.NUMBER_INT lex] (Lit (LInt n))).
  { intros p n lex Hp Hlex. apply parses_literal; [by apply token_int|done]. }
  apply program_cons; [done|apply expression_parsed|done|]. apply program_cons; [done| |done|constructor].
  apply (parses_binary _ Precedence.TERM (tok TokenType.PLUS "+") Plus [tok TokenType.NUMBER_INT "1"]); [apply plus_token|done|by apply Hint|by apply Hint].
Qed.

#[local] Existing Instance still_environment.

Lemma echo_lexed : exists its eof, Lexer.tokenize echo_text = Ret its /\ Lexer.deref <$> its = echo_tokens ++ [eof] /\
  Token.token_type eof = TokenType.END_OF_FILE.
Proof. eexists _, _. split; [vm_compute; reflexivity|]. by split; [vm_compute; reflexivity|]. Qed.

Definition echo_check : bool :=
  match Lox.start default_vm_opts [] with
  | Ret w => (15 <=? length (evalstack (state w)))%nat && bool_decide (output w = []) &&
      match Lox.compile_and_execute false 30 echo_text w with Ret _ => true | _ => false end
  | _ => false
  end.

Lemma echo_checked : echo_check = true.
Proof. vm_compute. reflexivity. Qed.

Lemma echo_started : exists w, Lox.start default_vm_opts [] = Ret w /\ (15 <= length (evalstack (state w)))%nat /\ output w = [] /\
  forall e, Lox.compile_and_execute false 30 echo_text w <> Throw e.
Proof.
  pose proof echo_checked as E. unfold echo_check in E. destruct (Lox.start default_vm_opts []) as [w| | |]; try done.
  apply andb_true_iff in E as [[Hl%Nat.leb_le Ho%bool_decide_eq_true]%andb_true_iff Hr]. exists w. split_and!; [done..|].
  intros e He. by rewrite He in Hr.
Qed.

